(* ===== verification/_CoqProject ===== *)
-Q . S2P
Prelude.v
Errors.v
FileNames.v
Platform.v
State.v
Bloom.v
FileSystem.v
Store.v
Records.v
Versions.v
MemTable.v
Headers.v
Frames.v
WriteAheadLog.v
Manifest.v
ManifestRecovery.v
SsTables.v
TableLayout.v
TableReads.v
Tables.v
Merging.v
Compaction.v
Scans.v
Engine.v
Layers.v
Writes.v
Flushes.v
CompactSteps.v
Specification.v
Sessions.v
Threads.v
Progress.v
Looks.v
Schedules.v
Sections.v
Pools.v
Interleavings.v
Recovery.v
Restarts.v
Syncing.v
Settled.v
PowerLoss.v
Crashes.v
Checkpoints.v
Shutdowns.v
CommandLine.v
FuzzTargets.v
Findings.v
Guarantees.v
Concurrency.v
