(* ===== verification/Prelude.v ===== *)
(** * lsm_kv: a verification of the LSM-tree key-value store

    The program (src/src) is an embedded key-value store.  A write gets a
    sequence number, is appended to a write-ahead log and inserted into a
    MemTable; a full MemTable is frozen and written out as a sorted table with a
    sparse index, a Bloom filter and compressed blocks; a manifest names the live
    tables; tables of one size tier are merged by compaction, which drops the
    versions no snapshot reads.  Reads ask the MemTable, the frozen MemTable and
    the tables from the newest to the oldest; scans merge all of them.  Two
    background threads flush and compact.

    ** Parts and files

    The data and the codecs, each with its source file:
    - [Errors] (error.rs): the error enum; [outcome] is a result that may also be
      a panic (index out of range, failed unwrap, checked overflow).
    - [FileNames] (the [format!] and [parse] of names in db.rs and manifest.rs),
      [Records] (record.rs), [Headers] (header.rs), [Frames] (the framing that
      wal.rs and manifest.rs share), [Bloom] (bloom.rs).
    - [Versions]: the reference meaning of a set of versions, the newest one of a
      key below a bound; not code.
    - [MemTable] (memtable.rs): the [BTreeMap] as a sorted list of versions.

    The effects:
    - [Platform]: what the program calls and the repository does not hold (CRCs,
      LZ4, xxh3, the [f64] sizing of filters, the order of a directory listing,
      the memory the allocator has, the overflow checks of the build), a class of parameters; [PlatformOk]
      states the laws relied on and [sample_platform] satisfies them.
    - [State]: the state and error monad of every operation with a weakest
      precondition [wp]; the world of an engine (disk and block caches).
    - [FileSystem] (fs.rs, fsutil.rs): the traits [Fs] and [File] over a disk of
      names, inodes, directories and locks.  A script of faults makes any
      operation fail, write a part of its bytes, come up short or end the process.
      The disk also keeps what syncs covered.  [Store]: how operations change a
      disk (which names they touch, what a handle still reads).

    The components over files:
    - [WriteAheadLog] (wal.rs); [Manifest] and [ManifestRecovery] (manifest.rs).
    - [SsTables] (sstable/mod.rs), with [TableLayout], [TableReads] and [Tables]
      the theorems on the written layout, on lookups and scans, and on the
      writer, the reader and the block cache together.
    - [Merging] and [Scans] (scan.rs); [Compaction] (compaction.rs).

    The engine:
    - [Engine] (db.rs, compactor.rs): [DbInner] as a record, one definition per
      method, each the sequence of its sections: what the code does between two
      acquisitions of a lock ([log_write], [look_frozen], [flush_publish], ...).
      The channels to the threads are queues in the state, a turn of a thread's
      loop is an operation.
    - [Layers]: the invariant ([db_ok], [log_ok]) and the relation between the
      layers and the history of everything written ([history_ok]).
    - [Writes], [Flushes], [CompactSteps], [Recovery], [Restarts],
      [Checkpoints], [Shutdowns]: one specification per operation.
    - [Syncing]: what the disk still holds unsynced ([tidy]), followed through every
      operation on files; [Settled]: an engine whose log is durable leaves nothing
      unsynced behind; [PowerLoss]: what a loss of power may leave ([loses]) and the
      processes that follow.
    - [Specification]: the abstract store, a finite map and a frozen copy of it
      per snapshot.  [Sessions], [Interleavings]: the engine simulates it.
    - [Threads]: the locks of [DbInner] and a pool of threads that take the
      sections of their calls in the order of a schedule, waiting for the locks
      that others hold.  [Progress]: no deadlock.  [Looks]: what a read puts
      together while others run.  [Schedules]: the invariant of the shared engine
      and what a thread knows at each point of a call; [Sections]: one lemma per
      section; [Pools]: every schedule; [Crashes]: the directory between any two
      sections of a schedule.
    - [CommandLine] (bin/lsm.rs), [FuzzTargets] ([mod fuzzing] of lib.rs and
      fuzz/fuzz_targets).
    - [Guarantees]: the theorems on the whole engine, [Concurrency]: those on
      pools of threads, each with a witness.
    - [Findings]: runs in which the code does not keep a promise.

    ** What the theorems show

    - Refinement: every operation under every script of I/O faults gives the
      reply of the finite map and represents the new map, or an error that leaves
      the map as it was or the engine poisoned; on a disk without faults the map
      survives any number of processes that end without notice.
    - Threads: under every schedule of writes, reads, scans, flushes and
      compactions every call returns, a write is visible from a moment of its
      call on, a read and each key of a scan are of a moment of the call, a
      snapshot is read exactly, and a process that dies between two sections, of
      whatever calls, leaves all commits and at most one write that was still
      under way.
    - Power: with a log that is synced on every write, and from the first flush of a
      directory on, a loss of power between operations loses nothing that was
      acknowledged, through any number of lives; one inside a batch leaves all of it
      or nothing, whatever bytes are in the place of the unsynced ones, if they do
      not have the form of a frame with the right checksum.
    - Crashes: a batch is all or nothing; acknowledged batches survive a crash of
      the next append, and whatever is behind them in the log is ignored unless it
      is a frame with the right checksum; a rollover of the manifest is atomic, and
      what a cut manifest replays to is known exactly.
    - Maintenance: flush terminates, keeps the map and leaves nothing to merge;
      compaction keeps every live reader, also with writers and flushes between
      its halves; poisoning is final.  Snapshots are isolated, checkpoints are
      faithful and independent, shutdown works off the queues.
    - Reads of a table, of the merge and of the MemTable are those of the
      reference meaning in [Versions]; Bloom filters have no false negatives.
    - Robustness: no decoder panics on any bytes, but for the footer of a table,
      where one sum may overflow and one number may ask for more memory than there
      is; [FuzzTargets] shows both.
    - Findings: crashes and orders of events in which data is lost or comes back, or
      the directory is refused (a log that ends in zeros).

    ** Bounds and fuel

    - The theorems on sessions spend a budget of [SIZE_LIMIT] (1 GiB of encoded
      versions in one directory): below it no offset, length or sequence number
      reaches its width, and a compressed block fits its four-byte size.
    - The compaction threshold is at least two where termination is claimed; for
      zero and one [Guarantees.low_threshold_never_ends] shows that it fails.
    - [compact_while] runs one turn per table and one more (each turn that merges
      leaves fewer tables, [CompactSteps]); a call takes at most six sections
      ([Progress]); [join_thread] runs a turn per queued
      message; the merges run a turn per record held.  Fuel that runs out is a
      panic, so every theorem that excludes panics also shows that it does not.

    ** Not modelled

    - Preemption inside a section: the code holds the lock of the data the
      section changes, or works on a file that no other thread names (the table
      of a flush, the output of a merge).  Snapshots, checkpoints and I/O faults
      are in the theorems on whole operations, not in those on pools, and a pool
      does not end inside a section: an interrupted flush or publication of a merge
      loses data ([Findings]).
    - Running out of memory: [PlatformOk] has the allocator grant every request a
      vector may make, and only vectors whose size is a number in a file ask it.  The
      theorem on the fuzz targets does without that law.
    - The system calls behind [StdFs] ([flock], [F_FULLFSYNC]): the disk behaves
      as the traits document.
    - A loss of power inside a flush or a compaction, or inside a pool of threads: an
      interrupted flush or compaction loses data without it too ([Findings]).  A file
      keeps what its last sync covered and any bytes, at most as many as were
      written, behind that; a name is the one of the last sync of its directory or
      the current one.
    - The benchmarks: loops of operations under a timer.
    - The check in the destructor of [BufAppend] that no bytes are left in it. *)
From Stdlib Require Import NArith Lia.
From Stdlib Require Strings.Byte Init.Byte.
From stdpp Require Import base numbers list sorting strings gmap pretty.
Export Stdlib.Init.Byte.

Local Open Scope N_scope.

(** ** Machine integers

    [u8], [u16], [u32], [u64] and [usize] are [N] with the width written out
    where the code casts or adds.  [usize] is 64 bits wide. *)

Definition U16_MAX : N := 65535.
Definition U32_MAX : N := 4294967295.
Definition U64_MAX : N := 18446744073709551615.
Definition ISIZE_MAX : N := 9223372036854775807.

(** [x as u32] and [x as u64]: truncation to the width. *)
Definition as_u32 (x : N) : N := x mod 4294967296.
Definition as_u64 (x : N) : N := x mod 18446744073709551616.

(** [usize::checked_add]. *)
Definition checked_add (a b : N) : option N :=
  if a + b <=? U64_MAX then Some (a + b) else None.

(** [a.checked_add(b).filter(|&e| e <= limit)] where [limit] is the length of a
    slice.  Such a length is at most [isize::MAX], so a sum that overflows is
    also above the limit and the two tests are one
    ([checked_add_within_spec]). *)
Definition checked_add_within (a b limit : N) : option N :=
  if a + b <=? limit then Some (a + b) else None.

Lemma checked_add_within_spec a b limit :
  limit <= ISIZE_MAX ->
  checked_add_within a b limit =
    match checked_add a b with
    | Some e => if e <=? limit then Some e else None
    | None => None
    end.
Proof.
  unfold checked_add_within, checked_add, ISIZE_MAX, U64_MAX. intros.
  destruct (N.leb_spec (a + b) limit), (N.leb_spec (a + b) 18446744073709551615);
    try done; try lia; by destruct (N.leb_spec (a + b) limit); try lia.
Qed.

Lemma as_u32_small x : x <= U32_MAX -> as_u32 x = x.
Proof. unfold as_u32, U32_MAX. intros. apply N.mod_small. lia. Qed.

Lemma as_u32_le x : as_u32 x <= U32_MAX.
Proof. unfold as_u32, U32_MAX. pose proof (N.mod_lt x 4294967296). lia. Qed.

Lemma as_u64_small x : x <= U64_MAX -> as_u64 x = x.
Proof. unfold as_u64, U64_MAX. intros. apply N.mod_small. lia. Qed.

Lemma as_u64_le x : as_u64 x <= U64_MAX.
Proof. unfold as_u64, U64_MAX. pose proof (N.mod_lt x 18446744073709551616). lia. Qed.

(** ** Bytes and lengths *)

Abbreviation bytes := (list byte).

(** [v.len()], as a [usize]. *)
Abbreviation len l := (N.of_nat (length l)).

Definition byte_val (b : byte) : N := Byte.to_N b.

(** [x as u8]. *)
Definition byte_of (x : N) : byte :=
  match Byte.of_N (x mod 256) with Some b => b | None => x00 end.

Lemma byte_val_lt b : byte_val b < 256.
Proof. unfold byte_val. pose proof (Byte.to_N_bounded b). lia. Qed.

Lemma byte_val_of x : byte_val (byte_of x) = x mod 256.
Proof.
  unfold byte_val, byte_of. destruct (Byte.of_N (x mod 256)) eqn:E.
  - by apply Byte.to_of_N in E.
  - apply Byte.of_N_None_iff in E. pose proof (N.mod_lt x 256). lia.
Qed.

Lemma byte_of_val b : byte_of (byte_val b) = b.
Proof.
  unfold byte_of. rewrite N.mod_small by apply byte_val_lt.
  unfold byte_val. by rewrite Byte.of_to_N.
Qed.

Lemma byte_val_inj b1 b2 : byte_val b1 = byte_val b2 -> b1 = b2.
Proof. intros E. rewrite <- (byte_of_val b1), <- (byte_of_val b2). by rewrite E. Qed.

#[export] Instance byte_eq_decision : EqDecision byte := Byte.byte_eq_dec.
#[export] Instance byte_countable : Countable byte.
Proof. apply (inj_countable' byte_val byte_of). apply byte_of_val. Defined.

(** The bytes of a string literal such as [b"LSMW"]. *)
Definition bytes_of_string (s : string) : bytes := String.list_byte_of_string s.

(** ** Little-endian integers *)

(** [v.to_le_bytes()] for a [w]-byte integer. *)
Fixpoint le_bytes (w : nat) (v : N) : bytes :=
  match w with
  | O => []
  | S w => byte_of v :: le_bytes w (v / 256)
  end.

(** [uN::from_le_bytes(b)]. *)
Fixpoint le_value (b : bytes) : N :=
  match b with
  | [] => 0
  | x :: r => byte_val x + 256 * le_value r
  end.

Lemma length_le_bytes w v : length (le_bytes w v) = w.
Proof. revert v; induction w; simpl; intros; [done|]. by rewrite IHw. Qed.

Lemma le_value_le_bytes_mod w v : le_value (le_bytes w v) = v mod 256 ^ N.of_nat w.
Proof.
  revert v; induction w as [|w IH]; intros v; cbn [le_bytes le_value].
  - cbn. by rewrite N.mod_1_r.
  - rewrite IH, byte_val_of, Nat2N.inj_succ, N.pow_succ_r by lia.
    rewrite N.Div0.mod_mul_r. lia.
Qed.

Lemma le_value_le_bytes w v :
  v < 256 ^ N.of_nat w -> le_value (le_bytes w v) = v.
Proof. intros. rewrite le_value_le_bytes_mod. by apply N.mod_small. Qed.

Lemma le_value_lt b : le_value b < 256 ^ len b.
Proof.
  induction b as [|x b IH]; cbn [le_value length]; [done|].
  rewrite Nat2N.inj_succ, N.pow_succ_r by lia. pose proof (byte_val_lt x). nia.
Qed.

Lemma le_bytes_le_value b : le_bytes (length b) (le_value b) = b.
Proof.
  induction b as [|x b IH]; cbn [le_bytes le_value length]; [done|].
  f_equal.
  - apply byte_val_inj. rewrite byte_val_of, N.mul_comm, N.Div0.mod_add.
    apply N.mod_small, byte_val_lt.
  - rewrite N.mul_comm, N.div_add, N.div_small by (apply byte_val_lt || lia).
    by rewrite N.add_0_l.
Qed.

Lemma le_value_u32 v : v <= U32_MAX -> le_value (le_bytes 4 v) = v.
Proof. unfold U32_MAX. intros. apply le_value_le_bytes. cbn; lia. Qed.

Lemma le_value_u64 v : v <= U64_MAX -> le_value (le_bytes 8 v) = v.
Proof. unfold U64_MAX. intros. apply le_value_le_bytes. cbn; lia. Qed.

Lemma le_value_u32_bound b : length b = 4%nat -> le_value b <= U32_MAX.
Proof. intros E. pose proof (le_value_lt b) as H. rewrite E in H. unfold U32_MAX. cbn in H. lia. Qed.

Lemma le_value_u64_bound b : length b = 8%nat -> le_value b <= U64_MAX.
Proof. intros E. pose proof (le_value_lt b) as H. rewrite E in H. unfold U64_MAX. cbn in H. lia. Qed.

#[global] Arguments le_bytes : simpl never.
#[global] Arguments le_value : simpl never.

(** ** Keys: the order of [Vec<u8>]

    [Ord for [u8]] is lexicographic by unsigned byte. *)

Fixpoint key_cmp (a b : bytes) : comparison :=
  match a, b with
  | [], [] => Eq
  | [], _ :: _ => Lt
  | _ :: _, [] => Gt
  | x :: a, y :: b =>
      match byte_val x ?= byte_val y with
      | Eq => key_cmp a b
      | c => c
      end
  end.

Definition key_ltb (a b : bytes) : bool :=
  match key_cmp a b with Lt => true | _ => false end.
Definition key_lt (a b : bytes) : Prop := key_cmp a b = Lt.
Definition key_le (a b : bytes) : Prop := a = b \/ key_lt a b.

Lemma key_cmp_eq a b : key_cmp a b = Eq <-> a = b.
Proof.
  revert b; induction a as [|x a IH]; intros [|y b]; simpl; try done.
  destruct (N.compare_spec (byte_val x) (byte_val y)) as [E|E|E].
  - apply byte_val_inj in E as ->. rewrite IH. naive_solver.
  - split; [done|]. intros [= -> ->]. lia.
  - split; [done|]. intros [= -> ->]. lia.
Qed.

Lemma key_cmp_refl a : key_cmp a a = Eq.
Proof. by apply key_cmp_eq. Qed.

Lemma key_cmp_antisym a b : key_cmp b a = CompOpp (key_cmp a b).
Proof.
  revert b; induction a as [|x a IH]; intros [|y b]; simpl; try done.
  rewrite (N.compare_antisym (byte_val x)), IH. by destruct (_ ?= _).
Qed.

Lemma key_lt_trans a b c : key_lt a b -> key_lt b c -> key_lt a c.
Proof.
  unfold key_lt. revert b c; induction a as [|x a IH]; intros [|y b] [|z c]; simpl; try done.
  destruct (N.compare_spec (byte_val x) (byte_val y)),
    (N.compare_spec (byte_val y) (byte_val z)), (N.compare_spec (byte_val x) (byte_val z));
    try done; try lia.
  apply IH.
Qed.

Lemma key_lt_irrefl a : ~ key_lt a a.
Proof. unfold key_lt. by rewrite key_cmp_refl. Qed.

#[export] Instance key_lt_strict : StrictOrder key_lt.
Proof. split; [exact key_lt_irrefl | exact key_lt_trans]. Qed.

#[export] Instance key_lt_decision a b : Decision (key_lt a b).
Proof. unfold key_lt. apply _. Defined.

#[export] Instance key_le_decision a b : Decision (key_le a b).
Proof. unfold key_le. apply _. Defined.

Lemma key_cmp_gt a b : key_cmp a b = Gt <-> key_lt b a.
Proof. unfold key_lt. rewrite (key_cmp_antisym a b). by destruct (key_cmp a b). Qed.

Lemma key_ltb_lt a b : key_ltb a b = true <-> key_lt a b.
Proof. unfold key_ltb, key_lt. by destruct (key_cmp a b). Qed.

Lemma key_ltb_ge a b : key_ltb a b = false <-> key_le b a.
Proof.
  unfold key_ltb, key_le. rewrite <- key_cmp_gt. destruct (key_cmp a b) eqn:E.
  - apply key_cmp_eq in E. naive_solver.
  - split; [done|]. intros [->|]; [|done]. by rewrite key_cmp_refl in E.
  - naive_solver.
Qed.

Lemma key_total a b : key_lt a b \/ a = b \/ key_lt b a.
Proof.
  destruct (key_cmp a b) eqn:E; [right; left|by left|right; right].
  - by apply key_cmp_eq.
  - by apply key_cmp_gt.
Qed.

Lemma key_le_refl a : key_le a a.
Proof. by left. Qed.

Lemma key_le_trans a b c : key_le a b -> key_le b c -> key_le a c.
Proof. unfold key_le. intros [->|] [->|]; eauto using key_lt_trans. Qed.

Lemma key_le_lt_trans a b c : key_le a b -> key_lt b c -> key_lt a c.
Proof. intros [->|]; eauto using key_lt_trans. Qed.

Lemma key_lt_le_trans a b c : key_lt a b -> key_le b c -> key_lt a c.
Proof. intros ? [->|]; eauto using key_lt_trans. Qed.

Lemma key_lt_not_le a b : key_lt a b <-> ~ key_le b a.
Proof.
  split.
  - intros H1 [->|H2]; eapply key_lt_irrefl; [done|]. by eapply key_lt_trans.
  - intros H. destruct (key_total a b) as [|[->|]]; [done|..]; destruct H; unfold key_le; auto.
Qed.

(** ** Slices *)

(** The part [l[s..e]] of a list, for bounds known to be in range. *)
Definition sub_list {A} (s e : N) (l : list A) : list A :=
  take (N.to_nat (e - s)) (drop (N.to_nat s) l).

Lemma length_sub_list {A} s e (l : list A) :
  s <= e -> e <= len l -> len (sub_list s e l) = e - s.
Proof. intros. unfold sub_list. rewrite length_take, length_drop. lia. Qed.

Lemma sub_list_app {A} s e (p m q : list A) :
  s = len p -> e = len p + len m -> sub_list s e (p ++ m ++ q) = m.
Proof.
  intros -> ->. unfold sub_list.
  replace (N.to_nat (len p)) with (length p) by lia.
  rewrite drop_app_length. replace (N.to_nat _) with (length m) by lia.
  apply take_app_length.
Qed.

Lemma sub_list_take {A} s e (p q : list A) :
  e <= len p -> sub_list s e (p ++ q) = sub_list s e p.
Proof.
  intros. unfold sub_list.
  destruct (decide (s <= e)).
  - rewrite drop_app_le by lia. rewrite take_app_le; [done|]. rewrite length_drop. lia.
  - replace (N.to_nat (e - s)) with 0%nat by lia. done.
Qed.

Lemma length_sub_list_min {A} s n (l : list A) : len (sub_list s (s + n) l) = N.min n (len l - s).
Proof. unfold sub_list. rewrite length_take, length_drop. lia. Qed.

Lemma sub_list_join {A} s a b (l : list A) :
  sub_list s (s + a) l ++ sub_list (s + a) (s + a + b) l = sub_list s (s + (a + b)) l.
Proof.
  unfold sub_list.
  replace (N.to_nat (s + (a + b) - s)) with (N.to_nat a + N.to_nat b)%nat by lia.
  rewrite <- take_take_drop, drop_drop.
  f_equal; [f_equal; lia|]. f_equal; [lia|]. f_equal. lia.
Qed.

Lemma sub_list_nil {A} s (l : list A) : sub_list s s l = [].
Proof. unfold sub_list. by replace (N.to_nat (s - s)) with 0%nat by lia. Qed.

Lemma sub_list_all {A} (l : list A) n : n = len l -> sub_list 0 n l = l.
Proof.
  intros ->. unfold sub_list. rewrite drop_0. apply take_ge. lia.
Qed.

#[global] Arguments sub_list : simpl never.

(** ** Filtered and sorted lists *)

(** [Iterator::take_while]. *)
Fixpoint take_while {A} (f : A -> bool) (l : list A) : list A :=
  match l with
  | [] => []
  | x :: l => if f x then x :: take_while f l else []
  end.

Section filters.
Context {A : Type}.
Implicit Types (P Q : A -> Prop) (l : list A).

Lemma list_filter_ext P Q `{!forall x, Decision (P x)} `{!forall x, Decision (Q x)} l :
  (forall x, x ∈ l -> P x <-> Q x) -> filter P l = filter Q l.
Proof.
  induction l as [|x l IH]; intros He; [done|]. rewrite !filter_cons.
  rewrite IH by (intros y Hy; apply He; by right). specialize (He x ltac:(by left)).
  repeat case_decide; naive_solver.
Qed.

Lemma list_filter_all P `{!forall x, Decision (P x)} l : (forall x, x ∈ l -> P x) -> filter P l = l.
Proof.
  induction l as [|x l IH]; intros He; [done|]. rewrite filter_cons, decide_True by (apply He; by left).
  f_equal. apply IH. intros y Hy. apply He. by right.
Qed.

Lemma list_filter_none P `{!forall x, Decision (P x)} l : (forall x, x ∈ l -> ~ P x) -> filter P l = [].
Proof.
  induction l as [|x l IH]; intros He; [done|]. rewrite filter_cons, decide_False by (apply He; by left).
  apply IH. intros y Hy. apply He. by right.
Qed.

Lemma StronglySorted_filter (R : A -> A -> Prop) P `{!forall x, Decision (P x)} l :
  StronglySorted R l -> StronglySorted R (filter P l).
Proof.
  induction 1 as [|x l Hs IH Hf]; [constructor|]. rewrite filter_cons. case_decide; [|done].
  constructor; [done|]. apply Forall_forall. intros y [_ Hy]%list_elem_of_filter.
  rewrite Forall_forall in Hf. by apply Hf.
Qed.
End filters.

(** ** Automation *)

(** Rewriting of lengths, and [lia] after it. *)
Create Rewrite HintDb len.
#[export] Hint Rewrite @length_app @length_le_bytes @length_take @length_drop
  @length_nil @length_cons @length_replicate @length_fmap @length_map @length_reverse : len.

Ltac len := autorewrite with len in *; try lia.
Ltac len_goal := autorewrite with len; try lia.

(** Hints of the development: what [eauto with lsm] may use. *)
Create HintDb lsm.
#[export] Hint Resolve key_le_refl key_lt_trans key_le_trans key_le_lt_trans key_lt_le_trans : lsm.

Lemma length_concat_sum {A} (l : list (list A)) : length (concat l) = sum_list_with length l.
Proof. induction l as [|x l IH]; [done|]. cbn [concat sum_list_with]. by rewrite length_app, IH. Qed.

(** Taking the head of one of several lists. *)
Lemma concat_insert_tail {A} (ls : list (list A)) i x l :
  ls !! i = Some (x :: l) -> concat ls ≡ₚ x :: concat (<[i := l]> ls).
Proof.
  intros E. rewrite <- (take_drop_middle ls i (x :: l) E) at 1.
  rewrite insert_take_drop by (by eapply lookup_lt_Some).
  rewrite !concat_app. cbn [concat app]. by rewrite <- Permutation_middle.
Qed.

Lemma concat_insert_nil {A} (ls : list (list A)) i l :
  ls !! i = Some l -> concat ls ≡ₚ l ++ concat (<[i := []]> ls).
Proof.
  intros E. rewrite <- (take_drop_middle ls i l E) at 1.
  rewrite insert_take_drop by (by eapply lookup_lt_Some).
  rewrite !concat_app. cbn [concat app]. by rewrite Permutation_app_swap_app.
Qed.

Lemma concat_perm {A} (l1 l2 : list (list A)) : l1 ≡ₚ l2 -> concat l1 ≡ₚ concat l2.
Proof.
  induction 1 as [|x l1 l2 _ IH|x y l|l1 l2 l3 _ IH1 _ IH2]; cbn [concat]; [done|by rewrite IH| |by rewrite IH1].
  by rewrite Permutation_app_swap_app.
Qed.

Lemma concat_sublist {A} (l1 l2 : list (list A)) : Forall2 sublist l1 l2 -> concat l1 `sublist_of` concat l2.
Proof. induction 1 as [|x y l1 l2 Hx _ IH]; [done|]. cbn [concat]. by apply sublist_app. Qed.
