(* ===== verification/Errors.v ===== *)
(** * Error values and outcomes (src/src/error.rs)

    [Error] has the constructors of the enum; [outcome] is a Rust result that
    may also be a panic.  A slice or an index out of range, an [unwrap] of a
    failed conversion and an arithmetic overflow in a build with overflow
    checks are [Panic]: theorems that say "never panics" range over it. *)
From Stdlib Require Import NArith Lia.
From stdpp Require Import base numbers list strings pretty.
From S2P Require Import Prelude.

Local Open Scope N_scope.

(** The kinds of [std::io::Error] the engine tells apart, and the rest. *)
Inductive IoKind :=
| NotFound
| WouldBlock
| AlreadyExists
| UnexpectedEof
| Interrupted
| OtherIo.

#[export] Instance IoKind_eq_dec : EqDecision IoKind.
Proof. solve_decision. Defined.

Definition io_kind_to_string (k : IoKind) : string :=
  match k with
  | NotFound => "entity not found"
  | WouldBlock => "operation would block"
  | AlreadyExists => "entity already exists"
  | UnexpectedEof => "unexpected end of file"
  | Interrupted => "operation interrupted"
  | OtherIo => "other error"
  end.

Inductive Error :=
| Io (kind : IoKind)
| Corrupt (msg : string)
| BadFormat (msg : string)
| Locked (dir : string)
| Poisoned (msg : string).

#[export] Instance Error_eq_dec : EqDecision Error.
Proof. solve_decision. Defined.

(** [Display for Error], the [#[error(...)]] attributes. *)
Definition error_to_string (e : Error) : string :=
  match e with
  | Io k => "io error: " +:+ io_kind_to_string k
  | Corrupt m => "corrupt data: " +:+ m
  | BadFormat m => "unsupported sstable format: " +:+ m
  | Locked d => "database directory is already open by another handle: " +:+ d
  | Poisoned m => "engine poisoned by an earlier failure: " +:+ m
  end.

(** ** Outcomes *)

Inductive outcome (A : Type) : Type :=
| Ok (a : A)
| Err (e : Error)
| Panic.
Arguments Ok {A} a.
Arguments Err {A} e.
Arguments Panic {A}.

#[export] Instance outcome_eq_dec `{EqDecision A} : EqDecision (outcome A).
Proof. solve_decision. Defined.

#[export] Instance outcome_ret : MRet outcome := @Ok.
#[export] Instance outcome_bind : MBind outcome := fun A B f m =>
  match m with Ok a => f a | Err e => Err e | Panic => Panic end.

(** [o.ok_or(e)]. *)
Definition ok_or {A} (o : option A) (e : Error) : outcome A :=
  match o with Some a => Ok a | None => Err e end.

Definition is_panic {A} (o : outcome A) : bool :=
  match o with Panic => true | _ => false end.
Definition is_ok {A} (o : outcome A) : bool :=
  match o with Ok _ => true | _ => false end.
Definition is_err {A} (o : outcome A) : bool :=
  match o with Err _ => true | _ => false end.

(** [&l[s..e]]. *)
Definition slice {A} (l : list A) (s e : N) : outcome (list A) :=
  if (s <=? e) && (e <=? len l) then Ok (sub_list s e l) else Panic.

(** [l[i]]. *)
Definition index {A} (l : list A) (i : N) : outcome A :=
  match l !! N.to_nat i with Some a => Ok a | None => Panic end.

(** [uN::from_le_bytes(b.try_into().unwrap())] for a [w]-byte integer. *)
Definition from_le (w : nat) (b : bytes) : outcome N :=
  if Nat.eqb (length b) w then Ok (le_value b) else Panic.

Lemma bind_ok {A B} (m : outcome A) (f : A -> outcome B) b :
  m ≫= f = Ok b <-> exists a, m = Ok a /\ f a = Ok b.
Proof. destruct m; simpl; naive_solver. Qed.

Lemma bind_panic {A B} (m : outcome A) (f : A -> outcome B) :
  m ≫= f = Panic <-> m = Panic \/ exists a, m = Ok a /\ f a = Panic.
Proof. destruct m; simpl; naive_solver. Qed.

Lemma bind_err {A B} (m : outcome A) (f : A -> outcome B) e :
  m ≫= f = Err e <-> m = Err e \/ exists a, m = Ok a /\ f a = Err e.
Proof. destruct m; simpl; naive_solver. Qed.

Lemma slice_in {A} (l : list A) s e :
  s <= e -> e <= len l -> slice l s e = Ok (sub_list s e l).
Proof.
  intros. unfold slice. rewrite (proj2 (N.leb_le s e)), (proj2 (N.leb_le e _)) by lia. done.
Qed.

Lemma slice_app {A} s e (p m q : list A) :
  s = len p -> e = len p + len m -> slice (p ++ m ++ q) s e = Ok m.
Proof. intros. rewrite slice_in by len. by rewrite sub_list_app. Qed.

Lemma slice_ok {A} (l : list A) s e r :
  slice l s e = Ok r <-> s <= e /\ e <= len l /\ r = sub_list s e l.
Proof.
  unfold slice. destruct (N.leb_spec s e), (N.leb_spec e (len l)); simpl; split; try done;
    try (intros [= <-]; done); intros (?&?&?); subst; try done; lia.
Qed.

Lemma slice_not_err {A} (l : list A) s e x : slice l s e <> Err x.
Proof. unfold slice. by case_match. Qed.

Lemma from_le_ok w b : length b = w -> from_le w b = Ok (le_value b).
Proof. intros <-. unfold from_le. by rewrite Nat.eqb_refl. Qed.

Lemma from_le_bytes w v : v < 256 ^ N.of_nat w -> from_le w (le_bytes w v) = Ok v.
Proof. intros. rewrite from_le_ok by apply length_le_bytes. by rewrite le_value_le_bytes. Qed.

Lemma from_le_u32 v : v <= U32_MAX -> from_le 4 (le_bytes 4 v) = Ok v.
Proof. intros. rewrite from_le_ok by done. by rewrite le_value_u32. Qed.

Lemma from_le_u64 v : v <= U64_MAX -> from_le 8 (le_bytes 8 v) = Ok v.
Proof. intros. rewrite from_le_ok by done. by rewrite le_value_u64. Qed.

#[global] Arguments slice : simpl never.
#[global] Arguments index : simpl never.
#[global] Arguments from_le : simpl never.

(** Case analysis on an [outcome] bind in a hypothesis. *)
Ltac inv_bind :=
  repeat match goal with
  | H : (_ ≫= _) = Ok _ |- _ =>
      let a := fresh "x" in let H1 := fresh "Hx" in
      apply bind_ok in H as (a & H1 & H)
  | H : Ok _ = Ok _ |- _ => injection H as H; subst
  | H : mret _ = Ok _ |- _ => injection H as H; subst
  end.

(** Reduce the binds of an [outcome] program. *)
Ltac obind := cbn [mbind outcome_bind mret outcome_ret fst snd].
Tactic Notation "obind" "in" hyp(H) := cbn [mbind outcome_bind mret outcome_ret fst snd] in H.
