(* ===== verification/FileNames.v ===== *)
(** * File names and decimal text

    The names the engine gives its files ([format!] with a zero-padded decimal)
    and how it reads numbers back from names ([str::parse], [strip_prefix],
    [strip_suffix], [trim]).  Text is its UTF-8 bytes. *)
From Stdlib Require Import NArith Lia.
From stdpp Require Import base numbers list strings.
From S2P Require Import Prelude.

Local Open Scope N_scope.

Definition string_of_bytes (b : bytes) : string := String.string_of_list_byte b.

Lemma bytes_of_string_of_bytes b : bytes_of_string (string_of_bytes b) = b.
Proof. apply String.list_byte_of_string_of_list_byte. Qed.

Lemma string_of_bytes_inj a b : string_of_bytes a = string_of_bytes b -> a = b.
Proof. intros E. rewrite <- (bytes_of_string_of_bytes a), E. apply bytes_of_string_of_bytes. Qed.

(** ** Decimal numbers *)

Definition digit (d : N) : byte := byte_of (48 + d).

(** The decimal digits of [n] before [acc]. *)
Fixpoint dec_go (fuel : nat) (n : N) (acc : bytes) : bytes :=
  match fuel with
  | O => acc
  | S fuel =>
      let acc := digit (n mod 10) :: acc in
      if n <? 10 then acc else dec_go fuel (n / 10) acc
  end.

(** [format!("{n}")]: a number of [k] bits has at most [k] digits. *)
Definition dec (n : N) : bytes := dec_go (S (N.to_nat (N.size n))) n [].

(** [format!("{n:0w}")]. *)
Definition dec_padded (w : nat) (n : N) : bytes :=
  replicate (w - length (dec n)) (digit 0) ++ dec n.

(** The digits of [str::parse::<u64>] after [acc]. *)
Fixpoint parse_digits (acc : N) (b : bytes) : option N :=
  match b with
  | [] => Some acc
  | x :: b =>
      let d := byte_val x in
      if (48 <=? d) && (d <=? 57) then
        let v := acc * 10 + (d - 48) in
        if v <=? U64_MAX then parse_digits v b else None
      else None
  end.

(** [str::parse::<u64>]: an optional [+] and at least one digit. *)
Definition parse_u64 (b : bytes) : option N :=
  match b with
  | [] => None
  | x :: r =>
      if byte_val x =? 43 then (if bool_decide (r = []) then None else parse_digits 0 r)
      else parse_digits 0 b
  end.

(** ** Prefixes, suffixes and white space *)

(** [str::strip_prefix], [str::strip_suffix] and [str::ends_with]. *)
Definition strip_prefix (p b : bytes) : option bytes :=
  if bool_decide (take (length p) b = p) then Some (drop (length p) b) else None.

Definition strip_suffix (q b : bytes) : option bytes :=
  let n := (length b - length q)%nat in
  if bool_decide (length q <= length b)%nat && bool_decide (drop n b = q) then Some (take n b)
  else None.

Definition ends_with (q b : bytes) : bool :=
  match strip_suffix q b with Some _ => true | None => false end.

(** How many bytes of white space [b] starts with: the encodings of the
    characters with the property White_Space. *)
Definition leading_space (b : bytes) : nat :=
  match byte_val <$> b with
  | x :: r =>
      if (9 <=? x) && (x <=? 13) || (x =? 32) then 1%nat
      else match r with
           | y :: r =>
               if (x =? 194) && ((y =? 133) || (y =? 160)) then 2%nat
               else match r with
                    | z :: _ =>
                        if (x =? 225) && (y =? 154) && (z =? 128)
                           || (x =? 226) && (y =? 128)
                              && ((128 <=? z) && (z <=? 138) || (z =? 168) || (z =? 169) || (z =? 175))
                           || (x =? 226) && (y =? 129) && (z =? 159)
                           || (x =? 227) && (y =? 128) && (z =? 128)
                        then 3%nat else 0%nat
                    | [] => 0%nat
                    end
           | [] => 0%nat
           end
  | [] => 0%nat
  end.

Fixpoint trim_start (fuel : nat) (b : bytes) : bytes :=
  match fuel with
  | O => b
  | S fuel =>
      match leading_space b with
      | O => b
      | n => trim_start fuel (drop n b)
      end
  end.

(** How many bytes of white space [b] ends with. *)
Definition trailing_space (b : bytes) : nat :=
  let n := length b in
  if Nat.eqb (leading_space (drop (n - 1) b)) 1 then 1%nat
  else if Nat.eqb (leading_space (drop (n - 2) b)) 2 then 2%nat
  else if Nat.eqb (leading_space (drop (n - 3) b)) 3 then 3%nat
  else 0%nat.

Fixpoint trim_end (fuel : nat) (b : bytes) : bytes :=
  match fuel with
  | O => b
  | S fuel =>
      match trailing_space b with
      | O => b
      | n => trim_end fuel (take (length b - n) b)
      end
  end.

(** [str::trim]; every turn removes a byte. *)
Definition trim (b : bytes) : bytes :=
  let b := trim_start (length b) b in trim_end (length b) b.

(** ** The engine's names *)

Definition CURRENT_FILENAME : string := "CURRENT".
Definition CURRENT_TMP : string := "CURRENT.tmp".
Definition WAL_FILENAME : string := "wal.log".
Definition WAL_TMP_FILENAME : string := "wal.log.tmp".

(** [format!("MANIFEST-{generation:06}")]. *)
Definition manifest_text (generation : N) : bytes :=
  bytes_of_string "MANIFEST-" ++ dec_padded 6 generation.
Definition manifest_name (generation : N) : string := string_of_bytes (manifest_text generation).

(** [format!("sst_{id:010}.db")], and the same [with_extension("db.tmp")]. *)
Definition sst_stem (id : N) : bytes := bytes_of_string "sst_" ++ dec_padded 10 id.
Definition sst_name (id : N) : string := string_of_bytes (sst_stem id ++ bytes_of_string ".db").
Definition sst_tmp_name (id : N) : string :=
  string_of_bytes (sst_stem id ++ bytes_of_string ".db.tmp").

(** [parse_sst_id]. *)
Definition parse_sst_id (name : string) : option N :=
  r ← strip_prefix (bytes_of_string "sst_") (bytes_of_string name);
  d ← strip_suffix (bytes_of_string ".db") r;
  parse_u64 d.

(** ** Lemmas *)

Lemma digit_val d : d < 10 -> byte_val (digit d) = 48 + d.
Proof. intros. unfold digit. rewrite byte_val_of. apply N.mod_small. lia. Qed.

Lemma parse_digit a d b :
  d < 10 -> a * 10 + d <= U64_MAX -> parse_digits a (digit d :: b) = parse_digits (a * 10 + d) b.
Proof.
  intros Hd Ha. cbn [parse_digits]. rewrite digit_val by done.
  rewrite (proj2 (N.leb_le 48 (48 + d))), (proj2 (N.leb_le (48 + d) 57)) by lia. cbn [andb].
  replace (48 + d - 48) with d by lia. by rewrite (proj2 (N.leb_le _ _)).
Qed.

Lemma next_digit a p n d m :
  n = 10 * d + m -> a * p + d <= (a * p + d) * 10 + m /\ a * (10 * p) + n = (a * p + d) * 10 + m.
Proof. intros ->. split; [generalize (a * p + d); lia|ring]. Qed.

Lemma dec_go_parse fuel n :
  n < 10 ^ N.of_nat fuel -> (0 < fuel)%nat ->
  exists k, forall a acc, a * 10 ^ k + n <= U64_MAX ->
    parse_digits a (dec_go fuel n acc) = parse_digits (a * 10 ^ k + n) acc.
Proof.
  revert n. induction fuel as [|fuel IH]; intros n Hn Hf; [lia|]. cbn [dec_go].
  destruct (N.ltb_spec n 10) as [Hlt|Hge].
  - exists 1. intros a acc Ha. rewrite N.mod_small by done. rewrite N.pow_1_r in *.
    by apply parse_digit.
  - assert (10 ^ N.of_nat (S fuel) = 10 * 10 ^ N.of_nat fuel) as E
      by (rewrite Nat2N.inj_succ, N.pow_succ_r; lia).
    destruct (IH (n / 10)) as [k Hk].
    { apply N.Div0.div_lt_upper_bound. lia. }
    { destruct fuel; [simpl in Hn; lia|lia]. }
    exists (N.succ k). intros a acc Ha. rewrite N.pow_succ_r in * by lia.
    pose proof (N.div_mod n 10 ltac:(lia)). pose proof (N.mod_lt n 10 ltac:(lia)).
    destruct (next_digit a (10 ^ k) n (n / 10) (n mod 10)) as [E1 E2]; [done|].
    rewrite E2 in *. rewrite Hk, parse_digit by lia. done.
Qed.

Lemma dec_parse n : n <= U64_MAX -> parse_digits 0 (dec n) = Some n.
Proof.
  intros Hn. unfold dec.
  destruct (dec_go_parse (S (N.to_nat (N.size n))) n) as [k Hk]; [|lia|].
  - rewrite Nat2N.inj_succ, N2Nat.id. pose proof (N.size_gt n).
    assert (2 ^ N.size n <= 10 ^ N.size n) by (apply N.pow_le_mono_l; lia).
    assert (10 ^ N.size n <= 10 ^ N.succ (N.size n)) by (apply N.pow_le_mono_r; lia). lia.
  - rewrite Hk by lia. done.
Qed.

Lemma dec_go_nonempty fuel n acc : (length acc <= length (dec_go fuel n acc))%nat.
Proof.
  revert n acc. induction fuel as [|fuel IH]; intros n acc; cbn [dec_go]; [done|].
  case_match; simpl; [lia|]. specialize (IH (n / 10) (digit (n mod 10) :: acc)). simpl in IH. lia.
Qed.

Lemma dec_nonempty n : dec n <> [].
Proof.
  unfold dec. cbn [dec_go]. case_match; [done|]. intros E.
  pose proof (dec_go_nonempty (N.to_nat (N.size n)) (n / 10) [digit (n mod 10)]) as Hl.
  rewrite E in Hl. simpl in Hl. lia.
Qed.

Lemma parse_zeros z b : parse_digits 0 (replicate z (digit 0) ++ b) = parse_digits 0 b.
Proof.
  induction z as [|z IH]; [done|]. cbn [replicate app]. rewrite parse_digit; [|lia|done]. exact IH.
Qed.

Lemma parse_u64_digits b v : b <> [] -> parse_digits 0 b = Some v -> parse_u64 b = Some v.
Proof.
  destruct b as [|x b]; [done|]. intros _ E. unfold parse_u64.
  destruct (N.eqb_spec (byte_val x) 43) as [Ex|]; [|done].
  cbn [parse_digits] in E. rewrite Ex in E. done.
Qed.

(** [parse] inverts [format!]. *)
Lemma parse_dec_padded w n : n <= U64_MAX -> parse_u64 (dec_padded w n) = Some n.
Proof.
  intros Hn. apply parse_u64_digits.
  - unfold dec_padded. intros E. apply app_nil in E as [_ E]. by apply dec_nonempty in E.
  - unfold dec_padded. rewrite parse_zeros. by apply dec_parse.
Qed.

Lemma strip_prefix_app p b : strip_prefix p (p ++ b) = Some b.
Proof.
  unfold strip_prefix. rewrite take_app_length, bool_decide_true by done. by rewrite drop_app_length.
Qed.

Lemma strip_suffix_app q b : strip_suffix q (b ++ q) = Some b.
Proof.
  unfold strip_suffix. rewrite length_app.
  replace (length b + length q - length q)%nat with (length b) by lia.
  rewrite bool_decide_true, bool_decide_true by (lia || by rewrite drop_app_length). cbn [andb].
  by rewrite take_app_length.
Qed.

Lemma parse_sst_name id : id <= U64_MAX -> parse_sst_id (sst_name id) = Some id.
Proof.
  intros Hid. unfold parse_sst_id, sst_name, sst_stem. rewrite bytes_of_string_of_bytes, <- app_assoc.
  rewrite strip_prefix_app. cbn [mbind option_bind]. rewrite strip_suffix_app.
  cbn [mbind option_bind]. by apply parse_dec_padded.
Qed.

Lemma sst_name_inj i j : i <= U64_MAX -> j <= U64_MAX -> sst_name i = sst_name j -> i = j.
Proof.
  intros Hi Hj E. apply parse_sst_name in Hi, Hj. congruence.
Qed.

Lemma manifest_name_inj i j :
  i <= U64_MAX -> j <= U64_MAX -> manifest_name i = manifest_name j -> i = j.
Proof.
  intros Hi Hj E. apply string_of_bytes_inj in E. unfold manifest_text in E.
  apply app_inv_head in E. apply (parse_dec_padded 6) in Hi, Hj. congruence.
Qed.

(** The last byte tells a table from its scratch file. *)
Lemma sst_tmp_not_sst i j : sst_tmp_name i <> sst_name j.
Proof.
  intros E. apply string_of_bytes_inj in E. apply (f_equal last) in E.
  rewrite !last_app in E. vm_compute in E. done.
Qed.

Lemma sst_tmp_name_inj i j :
  i <= U64_MAX -> j <= U64_MAX -> sst_tmp_name i = sst_tmp_name j -> i = j.
Proof.
  intros Hi Hj E. apply string_of_bytes_inj in E. apply app_inv_tail in E.
  apply sst_name_inj; [done..|]. unfold sst_name. by rewrite E.
Qed.

(** A manifest is not taken for a table. *)
Lemma parse_manifest_name g : parse_sst_id (manifest_name g) = None.
Proof.
  unfold parse_sst_id, manifest_name, manifest_text. rewrite bytes_of_string_of_bytes. done.
Qed.

(** Names of different kinds differ in their first byte. *)
Ltac names_differ :=
  let E := fresh in
  intros E; apply (f_equal bytes_of_string) in E;
  rewrite ?bytes_of_string_of_bytes in E; done.

Lemma sst_not_manifest i g : sst_name i <> manifest_name g.
Proof. unfold sst_name, manifest_name. names_differ. Qed.
Lemma sst_tmp_not_manifest i g : sst_tmp_name i <> manifest_name g.
Proof. unfold sst_tmp_name, manifest_name. names_differ. Qed.
Lemma sst_not_wal i : sst_name i <> WAL_FILENAME.
Proof. unfold sst_name. names_differ. Qed.
Lemma sst_not_wal_tmp i : sst_name i <> WAL_TMP_FILENAME.
Proof. unfold sst_name. names_differ. Qed.
Lemma sst_not_current i : sst_name i <> CURRENT_FILENAME.
Proof. unfold sst_name. names_differ. Qed.
Lemma sst_tmp_not_current i : sst_tmp_name i <> CURRENT_FILENAME.
Proof. unfold sst_tmp_name. names_differ. Qed.
Lemma sst_tmp_not_wal i : sst_tmp_name i <> WAL_FILENAME.
Proof. unfold sst_tmp_name. names_differ. Qed.
Lemma manifest_not_current g : manifest_name g <> CURRENT_FILENAME.
Proof. unfold manifest_name. names_differ. Qed.
Lemma manifest_not_current_tmp g : manifest_name g <> CURRENT_TMP.
Proof. unfold manifest_name. names_differ. Qed.
Lemma manifest_not_wal g : manifest_name g <> WAL_FILENAME.
Proof. unfold manifest_name. names_differ. Qed.
Lemma manifest_not_wal_tmp g : manifest_name g <> WAL_TMP_FILENAME.
Proof. unfold manifest_name. names_differ. Qed.
Lemma sst_tmp_not_wal_tmp i : sst_tmp_name i <> WAL_TMP_FILENAME.
Proof. unfold sst_tmp_name. names_differ. Qed.
Lemma sst_tmp_not_current_tmp i : sst_tmp_name i <> CURRENT_TMP.
Proof. unfold sst_tmp_name. names_differ. Qed.
Lemma sst_not_current_tmp i : sst_name i <> CURRENT_TMP.
Proof. unfold sst_name. names_differ. Qed.

Create HintDb names.
#[export] Hint Resolve sst_not_manifest sst_tmp_not_manifest sst_not_wal sst_not_wal_tmp
  sst_not_current sst_tmp_not_current sst_tmp_not_wal manifest_not_current
  manifest_not_current_tmp manifest_not_wal sst_tmp_not_sst manifest_not_wal_tmp
  sst_tmp_not_wal_tmp sst_tmp_not_current_tmp sst_not_current_tmp not_eq_sym : names.
