(* ===== verification/Platform.v ===== *)
(** * What the engine calls and this repository does not hold

    The crates [crc32fast], [crc32c], [lz4_flex] and [xxhash-rust], the [f64]
    arithmetic that sizes a Bloom filter, the order in which [readdir] lists a
    directory, the memory the allocator has to give and the build profile's
    overflow checks are parameters of the model, the fields of the class [Platform].  [PlatformOk] states the
    documented laws the engine relies on: what [lz4_flex] compressed it
    decompresses to the same bytes (for blocks below 4 GiB, since their size is
    four bytes in front of the output), its output is at most the maximum output
    size it documents, a filter for a false positive rate of one in a hundred
    takes less than ten bits a key (the exact number is 9.585), a directory
    listing is the directory's entries in some order, and the allocator grants
    every request a vector may make.  The last is what a Rust program that does
    not handle a failed allocation takes for granted; what does not rest on it
    (the fuzz targets) is proved for a [Platform] without the laws. *)
From Stdlib Require Import NArith Lia.
From stdpp Require Import base numbers list strings.
From S2P Require Import Prelude Errors.

Local Open Scope N_scope.

Class Platform := {
  crc32fast_hash : bytes -> N;
  crc32c_hash : bytes -> N;
  lz4_compress_prepend_size : bytes -> bytes;
  lz4_decompress_size_prepended : bytes -> option bytes;
  xxh3_64_with_seed : bytes -> N -> N;
  (** [(-n * fp_rate.ln() / (LN2 * LN2)).ceil()] for [n] keys, and
      [((bit_count as f64 / n) * LN2).round()]. *)
  f64_bloom_bits : N -> N;
  f64_bloom_hashes : N -> N -> N;
  (** The order [readdir] happens to use. *)
  readdir_order : list string -> list string;
  (** Whether the build panics on arithmetic overflow (a debug or fuzzing
      build) or wraps (the release profile). *)
  overflow_checks : bool;
  (** The largest request, in bytes, that the allocator grants. *)
  memory : N
}.

Class PlatformOk (P : Platform) : Prop := {
  lz4_round_trip : forall raw, len raw <= U32_MAX ->
    lz4_decompress_size_prepended (lz4_compress_prepend_size raw) = Some raw;
  lz4_size_prefix : forall raw, 4 <= len (lz4_compress_prepend_size raw);
  lz4_size_bound : forall raw, len (lz4_compress_prepend_size raw) <= 20 + len raw * 110 / 100;
  bloom_bits_bound : forall n, f64_bloom_bits n <= 10 * n + 1;
  readdir_order_perm : forall l, readdir_order l ≡ₚ l;
  memory_enough : ISIZE_MAX <= memory
}.

(** [vec![0u8; n]] and [Vec::with_capacity] of [n] bytes: a vector has at most
    [isize::MAX] bytes (the code panics), and the allocator may have less to give
    (the process is aborted, which a caller cannot tell from a panic here). *)
Definition alloc `{Platform} (n : N) : outcome unit :=
  if n <=? N.min memory ISIZE_MAX then Ok tt else Panic.

Lemma alloc_small `{Platform} n : n <= memory -> n <= ISIZE_MAX -> alloc n = Ok tt.
Proof. intros. unfold alloc. by rewrite (proj2 (N.leb_le _ _)) by lia. Qed.

Lemma alloc_granted `{PlatformOk} n : n <= ISIZE_MAX -> alloc n = Ok tt.
Proof. intros. apply alloc_small; [|done]. pose proof memory_enough. lia. Qed.

(** [a + b] and [a - b] on [u64] (or [usize]) as the build profile has them. *)
Definition add_u64 `{Platform} (a b : N) : outcome N :=
  if a + b <=? U64_MAX then Ok (a + b)
  else if overflow_checks then Panic else Ok (as_u64 (a + b)).

Definition sub_u64 `{Platform} (a b : N) : outcome N :=
  if b <=? a then Ok (a - b)
  else if overflow_checks then Panic else Ok (a + 18446744073709551616 - b).

Lemma add_u64_small `{Platform} a b : a + b <= U64_MAX -> add_u64 a b = Ok (a + b).
Proof. intros. unfold add_u64. by rewrite (proj2 (N.leb_le _ _)). Qed.

Lemma sub_u64_le `{Platform} a b : b <= a -> sub_u64 a b = Ok (a - b).
Proof. intros. unfold sub_u64. by rewrite (proj2 (N.leb_le _ _)). Qed.

#[global] Arguments add_u64 : simpl never.
#[global] Arguments sub_u64 : simpl never.

(** ** A concrete platform

    For evaluating the model: small polynomial hashes in the place of the
    checksums (the second gives zero for no bytes, as CRC-32C does), a length
    prefix in the place of compression. *)

Definition poly_hash (seed mul : N) (b : bytes) : N :=
  foldl (fun h x => (h * mul + byte_val x + 1) mod 18446744073709551616) seed b.

Definition store_prepend_size (b : bytes) : bytes := le_bytes 4 (len b) ++ b.
Definition load_size_prepended (b : bytes) : option bytes :=
  if bool_decide (4 <= len b /\ le_value (take 4 b) = len (drop 4 b)) then Some (drop 4 b)
  else None.

Definition sample_platform (checks : bool) : Platform := {|
  crc32fast_hash := poly_hash 7 31;
  crc32c_hash := poly_hash 0 1000003;
  lz4_compress_prepend_size := store_prepend_size;
  lz4_decompress_size_prepended := load_size_prepended;
  xxh3_64_with_seed := fun b s => poly_hash (s + 1) 6364136223846793005 b;
  f64_bloom_bits := fun n => (958506 * n + 99999) / 100000;
  f64_bloom_hashes := fun m n => (m * 693147 / n + 500000) / 1000000;
  readdir_order := fun l => l;
  overflow_checks := checks;
  memory := ISIZE_MAX
|}.

Lemma sample_platform_ok checks : PlatformOk (sample_platform checks).
Proof.
  split; simpl; [|intros raw; unfold store_prepend_size; len|..|done|done].
  2: { intros raw. unfold store_prepend_size. assert (len raw <= len raw * 110 / 100); [|len].
    apply N.div_le_lower_bound; lia. }
  2: { intros n. apply N.lt_succ_r, N.Div0.div_lt_upper_bound; lia. }
  intros raw Hr. unfold load_size_prepended, store_prepend_size.
  rewrite bool_decide_true.
  - by rewrite drop_app_length' by by rewrite length_le_bytes.
  - rewrite take_app_length', drop_app_length' by by rewrite length_le_bytes.
    rewrite le_value_u32 by done. len.
Qed.
