(* ===== verification/State.v ===== *)
(** * Stateful programs with errors

    [ST S A] is a program over a state [S] that returns an [outcome]: the state
    reached is kept whether it returns [Ok], returns [Err] or panics, as it is
    in the code, where an early return leaves what was already done in place. *)
From Stdlib Require Import NArith Lia.
From stdpp Require Import base list.
From S2P Require Import Prelude Errors.

Definition ST (S A : Type) : Type := S -> outcome A * S.

Section monad.
Context {S : Type}.

#[global] Instance ST_ret : MRet (ST S) := fun A a s => (Ok a, s).
#[global] Instance ST_bind : MBind (ST S) := fun A B f m s =>
  match m s with
  | (Ok a, s') => f a s'
  | (Err e, s') => (Err e, s')
  | (Panic, s') => (Panic, s')
  end.

(** A step that only computes: [?] on a pure result. *)
Definition lift {A} (o : outcome A) : ST S A := fun s => (o, s).
Definition fail {A} (e : Error) : ST S A := fun s => (Err e, s).
Definition get : ST S S := fun s => (Ok s, s).
Definition gets {A} (f : S -> A) : ST S A := fun s => (Ok (f s), s).
Definition modify (f : S -> S) : ST S unit := fun s => (Ok tt, f s).

(** Inspect a [Result] instead of returning early: [match r { Ok .. Err .. }]. *)
Definition attempt {A} (m : ST S A) : ST S (A + Error) := fun s =>
  match m s with
  | (Ok a, s') => (Ok (inl a), s')
  | (Err e, s') => (Ok (inr e), s')
  | (Panic, s') => (Panic, s')
  end.

(** [let _ = m;]: a [Result] that is dropped. *)
Definition ignore {A} (m : ST S A) : ST S unit :=
  _ ← attempt m; mret tt.

(** [for x in l { f(x)? }]. *)
Fixpoint for_each {A} (l : list A) (f : A -> ST S unit) : ST S unit :=
  match l with
  | [] => mret tt
  | x :: l => _ ← f x; for_each l f
  end.

(** [l.iter().map(f).collect::<Result<Vec<_>>>()]. *)
Fixpoint map_each {A B} (l : list A) (f : A -> ST S B) : ST S (list B) :=
  match l with
  | [] => mret []
  | x :: l => y ← f x; ys ← map_each l f; mret (y :: ys)
  end.
End monad.

(** A program over a part [T] of a state [S]. *)
Definition zoom {S T A} (view : S -> T) (update : T -> S -> S) (m : ST T A) : ST S A :=
  fun s => let '(o, t) := m (view s) in (o, update t s).

(** Reduce a bind whose first step is known. *)
Lemma bind_run_ok {S A B} (m : ST S A) (f : A -> ST S B) s a s' :
  m s = (Ok a, s') -> (m ≫= f) s = f a s'.
Proof. intros E. unfold mbind, ST_bind. by rewrite E. Qed.

Lemma bind_run_err {S A B} (m : ST S A) (f : A -> ST S B) s e s' :
  m s = (Err e, s') -> (m ≫= f) s = (Err e, s').
Proof. intros E. unfold mbind, ST_bind. by rewrite E. Qed.

Lemma bind_gets {S A B} (f : S -> A) (k : A -> ST S B) s : (gets f ≫= k) s = k (f s) s.
Proof. done. Qed.

Lemma bind_modify {S B} (f : S -> S) (k : unit -> ST S B) s : (modify f ≫= k) s = k tt (f s).
Proof. done. Qed.

Lemma bind_mret {S A B} (a : A) (k : A -> ST S B) s : ((mret a : ST S A) ≫= k) s = k a s.
Proof. done. Qed.

Lemma bind_attempt_ok {S A B} (m : ST S A) (k : A + Error -> ST S B) s a s' :
  m s = (Ok a, s') -> (attempt m ≫= k) s = k (inl a) s'.
Proof. intros E. unfold attempt, mbind, ST_bind. by rewrite E. Qed.

Lemma bind_attempt_err {S A B} (m : ST S A) (k : A + Error -> ST S B) s e s' :
  m s = (Err e, s') -> (attempt m ≫= k) s = k (inr e) s'.
Proof. intros E. unfold attempt, mbind, ST_bind. by rewrite E. Qed.

Lemma bind_assoc {S A B C} (m : ST S A) (f : A -> ST S B) (g : B -> ST S C) s :
  ((m ≫= f) ≫= g) s = (m ≫= fun a => f a ≫= g) s.
Proof. unfold mbind, ST_bind. by destruct (m s) as [[?|?|] ?]. Qed.

Lemma bind_ext {S A B} (m : ST S A) (f g : A -> ST S B) s :
  (forall a s', f a s' = g a s') -> (m ≫= f) s = (m ≫= g) s.
Proof. intros E. unfold mbind, ST_bind. destruct (m s) as [[?|?|] ?]; [apply E|done..]. Qed.

(** A loop over a literal list is its calls in sequence. *)
Lemma for_each_cons {S A B} (x : A) (l : list A) (f : A -> ST S unit) (k : unit -> ST S B) s :
  (for_each (x :: l) f ≫= k) s = (f x ≫= fun _ => for_each l f ≫= k) s.
Proof. cbn [for_each]. apply bind_assoc. Qed.

Create Rewrite HintDb st.
#[export] Hint Rewrite @bind_gets @bind_modify @bind_mret : st.

(** What a bind that returned [Ok] went through. *)
Lemma bind_run_inv {S A B} (m : ST S A) (f : A -> ST S B) s b s' :
  (m ≫= f) s = (Ok b, s') -> exists a s1, m s = (Ok a, s1) /\ f a s1 = (Ok b, s').
Proof. unfold mbind, ST_bind. destruct (m s) as [[a|e|] s1]; naive_solver. Qed.

(** Run the first step of a program, given an equation for it. *)
Ltac run E := rewrite (bind_run_ok _ _ _ _ _ E).

(** ** Postconditions

    [wp m s Q]: running [m] from [s] ends with an outcome and a state that [Q]
    allows, whatever the outcome is. *)
Definition wp {S A} (m : ST S A) (s : S) (Q : outcome A -> S -> Prop) : Prop :=
  Q (m s).1 (m s).2.

(** How [Q] reads after a first step: errors and panics end the program. *)
Definition then_wp {S A B} (f : A -> ST S B) (Q : outcome B -> S -> Prop)
    (o : outcome A) (s : S) : Prop :=
  match o with
  | Ok a => wp (f a) s Q
  | Err e => Q (Err e) s
  | Panic => Q Panic s
  end.

Lemma wp_run {S A} (m : ST S A) s Q o s' : m s = (o, s') -> Q o s' -> wp m s Q.
Proof. intros E. unfold wp. by rewrite E. Qed.

(** A first step whose result is known. *)
Lemma wp_step {S A B} (m : ST S A) (f : A -> ST S B) s Q a s' :
  m s = (Ok a, s') -> wp (f a) s' Q -> wp (m ≫= f) s Q.
Proof. intros E. unfold wp. by rewrite (bind_run_ok _ _ _ _ _ E). Qed.

Lemma wp_elim {S A} (m : ST S A) s Q o s' : wp m s Q -> m s = (o, s') -> Q o s'.
Proof. intros Hw E. unfold wp in Hw. by rewrite E in Hw. Qed.

Lemma wp_mono {S A} (m : ST S A) s (Q Q' : outcome A -> S -> Prop) :
  wp m s Q -> (forall o s', Q o s' -> Q' o s') -> wp m s Q'.
Proof. unfold wp. auto. Qed.

Lemma wp_bind {S A B} (m : ST S A) (f : A -> ST S B) s Q :
  wp m s (then_wp f Q) -> wp (m ≫= f) s Q.
Proof. unfold wp, then_wp, mbind, ST_bind. by destruct (m s) as [[a|e|] s']. Qed.

Lemma wp_unbind {S A B} (m : ST S A) (f : A -> ST S B) s Q :
  wp (m ≫= f) s Q -> wp m s (then_wp f Q).
Proof. unfold wp, then_wp, mbind, ST_bind. by destruct (m s) as [[a|e|] s']. Qed.

Lemma wp_ret {S A} (a : A) (s : S) Q : Q (Ok a) s -> wp (mret a) s Q.
Proof. done. Qed.

Lemma wp_gets {S A} (f : S -> A) s Q : Q (Ok (f s)) s -> wp (gets f) s Q.
Proof. done. Qed.

Lemma wp_modify {S} (f : S -> S) s Q : Q (Ok tt) (f s) -> wp (modify f) s Q.
Proof. done. Qed.

Lemma wp_lift {S A} (o : outcome A) (s : S) Q : Q o s -> wp (lift o) s Q.
Proof. done. Qed.

Lemma wp_fail {S A} e (s : S) (Q : outcome A -> S -> Prop) : Q (Err e) s -> wp (fail e) s Q.
Proof. done. Qed.

Lemma wp_attempt {S A} (m : ST S A) s Q :
  wp m s (fun o s' => match o with
                      | Ok a => Q (Ok (inl a)) s'
                      | Err e => Q (Ok (inr e)) s'
                      | Panic => Q Panic s'
                      end) -> wp (attempt m) s Q.
Proof. unfold wp, attempt. by destruct (m s) as [[a|e|] s']. Qed.

Lemma wp_zoom {S T A} view (update : T -> S -> S) (m : ST T A) s Q :
  wp m (view s) (fun o t => Q o (update t s)) -> wp (zoom view update m) s Q.
Proof. unfold wp, zoom. by destruct (m (view s)). Qed.

(** An invariant of a loop's body is one of the loop. *)
Lemma wp_for_each {S A} (I : S -> Prop) (E : Error -> Prop) (l : list A) (f : A -> ST S unit) s :
  I s -> (forall x s, x ∈ l -> I s -> wp (f x) s (fun o s' => I s' /\ match o with
    | Ok _ => True | Err e => E e | Panic => False end)) ->
  wp (for_each l f) s (fun o s' => I s' /\ match o with
    | Ok _ => True | Err e => E e | Panic => False end).
Proof.
  revert s. induction l as [|x l IH]; intros s Hs Hf; cbn [for_each]; [by apply wp_ret|].
  apply wp_bind. eapply wp_mono; [apply Hf; [by left|done]|].
  intros [[]|e|] s' [Hs' Ho]; cbn [then_wp]; [|done|done].
  apply IH; [done|]. intros y t Hy. apply Hf. by right.
Qed.
