(* ===== verification/Bloom.v ===== *)
(** * Bloom filters (src/src/bloom.rs)

    [k] bit positions per key from two hashes of it.  An index outside the bit
    vector and a remainder by zero are panics, as in the code. *)
From Stdlib Require Import NArith Lia.
From stdpp Require Import base numbers list strings.
From S2P Require Import Prelude Errors Platform.

Local Open Scope N_scope.

(** [struct BloomFilter]. *)
Record BloomFilter := mkBloom {
  bf_bits : bytes;
  bf_bit_count : N;
  bf_k : N
}.

Definition div_ceil (a b : N) : N := (a + b - 1) / b.

Section bloom.
Context `{Platform}.

(** [BloomFilter::new], at the false-positive rate the tables use; a float is
    cast with saturation. *)
Definition bloom_new (expected_n : N) : BloomFilter :=
  let n := N.max expected_n 1 in
  let bit_count := N.min U64_MAX (N.max 1 (f64_bloom_bits n)) in
  let k := N.min U32_MAX (N.max 1 (f64_bloom_hashes bit_count n)) in
  mkBloom (replicate (N.to_nat (div_ceil bit_count 8)) x00) bit_count k.

(** [BloomFilter::hashes]. *)
Definition bloom_hashes (key : bytes) : N * N :=
  (as_u64 (xxh3_64_with_seed key 0), as_u64 (xxh3_64_with_seed key 1)).

(** The [i]th bit position: wrapping arithmetic, then a remainder. *)
Definition bit_position (hs : N * N) (i bit_count : N) : outcome N :=
  if bit_count =? 0 then Panic
  else Ok (as_u64 (hs.1 + as_u64 (i * hs.2)) mod bit_count).

(** [BloomFilter::insert]: the loop from [i] for [n] more turns. *)
Fixpoint insert_bits (n : nat) (i : N) (hs : N * N) (bit_count : N) (bits : bytes) : outcome bytes :=
  match n with
  | O => Ok bits
  | S n =>
      bit ← bit_position hs i bit_count;
      b ← index bits (bit / 8);
      insert_bits n (i + 1) hs bit_count
        (<[N.to_nat (bit / 8) := byte_of (N.lor (byte_val b) (N.shiftl 1 (bit mod 8)))]> bits)
  end.

Definition bloom_insert (key : bytes) (f : BloomFilter) : outcome BloomFilter :=
  bits ← insert_bits (N.to_nat (bf_k f)) 0 (bloom_hashes key) (bf_bit_count f) (bf_bits f);
  Ok (mkBloom bits (bf_bit_count f) (bf_k f)).

(** [BloomFilter::contains]. *)
Fixpoint contains_bits (n : nat) (i : N) (hs : N * N) (bit_count : N) (bits : bytes) : outcome bool :=
  match n with
  | O => Ok true
  | S n =>
      bit ← bit_position hs i bit_count;
      b ← index bits (bit / 8);
      if N.land (byte_val b) (N.shiftl 1 (bit mod 8)) =? 0 then Ok false
      else contains_bits n (i + 1) hs bit_count bits
  end.

Definition bloom_contains (key : bytes) (f : BloomFilter) : outcome bool :=
  contains_bits (N.to_nat (bf_k f)) 0 (bloom_hashes key) (bf_bit_count f) (bf_bits f).

(** [BloomFilter::encode]. *)
Definition bloom_encode (f : BloomFilter) : bytes :=
  le_bytes 4 (bf_k f) ++ le_bytes 8 (bf_bit_count f) ++ bf_bits f.

(** [BloomFilter::decode]. *)
Definition bloom_decode (buf : bytes) : outcome BloomFilter :=
  if len buf <? 12 then Err (Corrupt "bloom filter truncated")
  else
    kb ← slice buf 0 4;
    k ← from_le 4 kb;
    cb ← slice buf 4 12;
    bit_count ← from_le 8 cb;
    let byte_len := div_ceil bit_count 8 in
    if negb (len buf =? 12 + byte_len) then Err (Corrupt "bloom filter length mismatch")
    else if (k =? 0) || (bit_count =? 0) then Err (Corrupt "bloom filter has zero parameters")
    else
      bits ← slice buf 12 (len buf);
      Ok (mkBloom bits bit_count k).

(** The loop of [SsTableWriter::write] that adds every key. *)
Definition bloom_insert_all (keys : list bytes) (f : BloomFilter) : outcome BloomFilter :=
  foldl (fun o key => g ← o; bloom_insert key g) (Ok f) keys.

(** ** Invariant and lemmas *)

Definition bloom_ok (f : BloomFilter) : Prop :=
  1 <= bf_bit_count f <= U64_MAX /\ 1 <= bf_k f <= U32_MAX /\
  len (bf_bits f) = div_ceil (bf_bit_count f) 8.

Lemma bloom_new_ok n : bloom_ok (bloom_new n).
Proof.
  unfold bloom_ok, bloom_new, U64_MAX, U32_MAX; cbn [bf_bit_count bf_k bf_bits].
  split_and!; try lia. rewrite length_replicate. lia.
Qed.

(** The bit at a position. *)
Definition bit_set (bits : bytes) (p : N) : bool :=
  match bits !! N.to_nat (p / 8) with
  | Some b => N.testbit (byte_val b) (p mod 8)
  | None => false
  end.

Lemma land_bit x i : (N.land x (N.shiftl 1 i) =? 0) = negb (N.testbit x i).
Proof.
  rewrite N.shiftl_1_l. destruct (N.testbit x i) eqn:E; cbn [negb].
  - apply N.eqb_neq. intros E0. apply (f_equal (fun y => N.testbit y i)) in E0.
    rewrite N.land_spec, N.pow2_bits_true, E, N.bits_0 in E0. done.
  - apply N.eqb_eq, N.bits_inj. intros j. rewrite N.land_spec, N.bits_0.
    destruct (decide (i = j)) as [<-|Hne]; [by rewrite E|].
    by rewrite N.pow2_bits_false, andb_false_r.
Qed.

Lemma lor_byte b i : i < 8 -> byte_val (byte_of (N.lor (byte_val b) (N.shiftl 1 i))) =
  N.lor (byte_val b) (N.shiftl 1 i).
Proof.
  intros Hi. rewrite byte_val_of. apply N.mod_small. pose proof (byte_val_lt b).
  rewrite N.shiftl_1_l. change 256 with (2 ^ 8).
  destruct (decide (N.lor (byte_val b) (2 ^ i) = 0)) as [->|Hne]; [done|].
  apply N.log2_lt_pow2; [lia|]. rewrite N.log2_lor. apply N.max_lub_lt.
  - destruct (decide (byte_val b = 0)) as [->|]; [done|]. apply N.log2_lt_pow2; [lia|].
    by change (2 ^ 8) with 256.
  - by rewrite N.log2_pow2 by lia.
Qed.

Lemma bit_position_ok hs i bc :
  1 <= bc -> exists p, bit_position hs i bc = Ok p /\ p < bc.
Proof.
  intros Hb. unfold bit_position. destruct (N.eqb_spec bc 0); [lia|].
  eexists. split; [done|]. apply N.mod_lt. lia.
Qed.

Lemma position_in_range p bc (bits : bytes) :
  p < bc -> len bits = div_ceil bc 8 -> exists b, bits !! N.to_nat (p / 8) = Some b.
Proof.
  intros Hp Hl. apply lookup_lt_is_Some. enough (p / 8 < len bits) by lia. rewrite Hl.
  unfold div_ceil. apply N.Div0.div_lt_upper_bound.
  pose proof (N.div_mod (bc + 8 - 1) 8 ltac:(lia)). pose proof (N.mod_lt (bc + 8 - 1) 8 ltac:(lia)).
  lia.
Qed.

Lemma bit_set_insert bits p q b :
  bits !! N.to_nat (p / 8) = Some b ->
  bit_set (<[N.to_nat (p / 8) := byte_of (N.lor (byte_val b) (N.shiftl 1 (p mod 8)))]> bits) q =
    bit_set bits q || (q =? p).
Proof.
  intros Hb. pose proof (N.mod_lt p 8 ltac:(lia)) as Hm. unfold bit_set.
  destruct (decide (q / 8 = p / 8)) as [E|E].
  - rewrite E, list_lookup_insert_eq by by eapply lookup_lt_Some. rewrite Hb, lor_byte by done.
    rewrite N.lor_spec, N.shiftl_1_l. f_equal.
    destruct (N.eqb_spec q p) as [->|Hne]; [apply N.pow2_bits_true|].
    apply N.pow2_bits_false. intros Em. apply Hne.
    pose proof (N.div_mod q 8 ltac:(lia)). pose proof (N.div_mod p 8 ltac:(lia)). lia.
  - rewrite list_lookup_insert_ne by lia.
    destruct (N.eqb_spec q p) as [->|Hne]; [done|]. by rewrite orb_false_r.
Qed.

(** [insert] never panics; it sets the key's bits and clears none. *)
Lemma insert_bits_spec n i hs bc bits :
  1 <= bc -> len bits = div_ceil bc 8 ->
  exists bits', insert_bits n i hs bc bits = Ok bits' /\ length bits' = length bits /\
    (forall q, bit_set bits q = true -> bit_set bits' q = true) /\
    (forall j p, i <= j < i + N.of_nat n -> bit_position hs j bc = Ok p -> bit_set bits' p = true).
Proof.
  revert i bits. induction n as [|n IH]; intros i bits Hb Hl; cbn [insert_bits].
  { exists bits. split_and!; [done..|]. intros j p Hj. lia. }
  destruct (bit_position_ok hs i bc Hb) as (p & Ep & Hp). rewrite Ep. obind.
  destruct (position_in_range p bc bits Hp Hl) as [b Eb]. unfold index. rewrite Eb. obind.
  pose proof (bit_set_insert bits p) as Hset.
  destruct (IH (i + 1) (<[N.to_nat (p / 8) := byte_of (N.lor (byte_val b) (N.shiftl 1 (p mod 8)))]> bits))
    as (bits' & E & Hlen & Hkeep & Hnew); [done|by rewrite length_insert|].
  exists bits'. rewrite E, Hlen, length_insert. split_and!; [done..| |].
  - intros q Hq. apply Hkeep. by rewrite (Hset q b Eb), Hq.
  - intros j q Hj Eq. destruct (decide (j = i)) as [->|Hne]; [|apply (Hnew j); [lia|done]].
    apply Hkeep. rewrite (Hset q b Eb). rewrite Ep in Eq. injection Eq as ->.
    by rewrite N.eqb_refl, orb_true_r.
Qed.

Lemma contains_bits_spec n i hs bc bits :
  1 <= bc -> len bits = div_ceil bc 8 ->
  exists r, contains_bits n i hs bc bits = Ok r /\
    (r = true <-> forall j p, i <= j < i + N.of_nat n -> bit_position hs j bc = Ok p -> bit_set bits p = true).
Proof.
  intros Hb Hl. revert i. induction n as [|n IH]; intros i; cbn [contains_bits].
  { exists true. split; [done|]. split; [|done]. intros _ j p Hj. lia. }
  destruct (bit_position_ok hs i bc Hb) as (p & Ep & Hp). rewrite Ep. obind.
  destruct (position_in_range p bc bits Hp Hl) as [b Eb]. unfold index. rewrite Eb. obind.
  rewrite land_bit. assert (bit_set bits p = N.testbit (byte_val b) (p mod 8)) as Hset
    by (unfold bit_set; by rewrite Eb).
  destruct (N.testbit (byte_val b) (p mod 8)) eqn:Et; cbn [negb].
  - destruct (IH (i + 1)) as (r & -> & Hr). exists r. split; [done|]. rewrite Hr. split.
    + intros Ha j q Hj Eq. destruct (decide (j = i)) as [->|Hne]; [congruence|].
      apply (Ha j); [lia|done].
    + intros Ha j q Hj Eq. apply (Ha j); [lia|done].
  - exists false. split; [done|]. split; [done|]. intros Ha.
    rewrite (Ha i p) in Hset; [congruence|lia|done].
Qed.

(** All the bits of [key] are set. *)
Definition covers (f : BloomFilter) (key : bytes) : Prop :=
  forall j p, j < bf_k f -> bit_position (bloom_hashes key) j (bf_bit_count f) = Ok p ->
    bit_set (bf_bits f) p = true.

Lemma bloom_contains_spec f key :
  bloom_ok f -> exists r, bloom_contains key f = Ok r /\ (r = true <-> covers f key).
Proof.
  intros ([Hb _] & _ & Hl). unfold bloom_contains.
  destruct (contains_bits_spec (N.to_nat (bf_k f)) 0 (bloom_hashes key) (bf_bit_count f) (bf_bits f) Hb Hl)
    as (r & -> & Hr). exists r. split; [done|]. rewrite Hr. unfold covers.
  split; intros Ha j p Hj; apply Ha; lia.
Qed.

Lemma bloom_insert_spec f key :
  bloom_ok f -> exists f', bloom_insert key f = Ok f' /\ bloom_ok f' /\ covers f' key /\
    (forall key', covers f key' -> covers f' key') /\ bf_bit_count f' = bf_bit_count f.
Proof.
  intros (Hb & Hk & Hl). unfold bloom_insert.
  destruct (insert_bits_spec (N.to_nat (bf_k f)) 0 (bloom_hashes key) (bf_bit_count f) (bf_bits f))
    as (bits' & -> & Hlen & Hkeep & Hnew); [lia|done|]. obind.
  eexists. split; [done|]. unfold bloom_ok, covers; cbn [bf_bit_count bf_k bf_bits].
  split_and!; try lia; try done.
  - intros j p Hj. apply Hnew. lia.
  - intros key' Hc j p Hj Ep. by apply Hkeep, (Hc j).
Qed.

Lemma bloom_insert_all_spec keys f :
  bloom_ok f -> exists f', bloom_insert_all keys f = Ok f' /\ bloom_ok f' /\
    (forall key, key ∈ keys \/ covers f key -> covers f' key).
Proof.
  unfold bloom_insert_all. revert f. induction keys as [|key keys IH]; intros f Hf; cbn [foldl].
  - exists f. split_and!; [done..|]. intros key [Hk|?]; [by apply elem_of_nil in Hk|done].
  - destruct (bloom_insert_spec f key Hf) as (f1 & E & Hf1 & Hc & Hkeep & _). obind. rewrite E.
    destruct (IH f1 Hf1) as (f' & E' & Hf' & Hall). exists f'. split_and!; [done..|].
    intros key' [[->|Hk]%elem_of_cons|Hk]; apply Hall; auto.
Qed.

Lemma length_bloom_encode f : bloom_ok f -> len (bloom_encode f) = 12 + div_ceil (bf_bit_count f) 8.
Proof. intros (_ & _ & Hl). unfold bloom_encode. len. Qed.

(** [decode] inverts [encode]. *)
Lemma bloom_decode_encode f : bloom_ok f -> bloom_decode (bloom_encode f) = Ok f.
Proof.
  intros (Hb & Hk & Hl). destruct f as [bits bc k]. cbn [bf_bits bf_bit_count bf_k] in *.
  unfold bloom_decode, bloom_encode; cbn [bf_bits bf_bit_count bf_k].
  set (kb := le_bytes 4 k). set (cb := le_bytes 8 bc).
  assert (len kb = 4) as H4 by (subst kb; len). assert (len cb = 8) as H8 by (subst cb; len).
  destruct (N.ltb_spec (len (kb ++ cb ++ bits)) 12); [len|].
  assert (slice (kb ++ cb ++ bits) 0 4 = Ok kb) as ->
    by (apply (slice_app 0 4 [] kb (cb ++ bits)); simpl; lia). obind.
  assert (from_le 4 kb = Ok k) as -> by (apply from_le_u32; lia). obind.
  assert (slice (kb ++ cb ++ bits) 4 12 = Ok cb) as -> by (apply (slice_app 4 12 kb cb bits); lia). obind.
  assert (from_le 8 cb = Ok bc) as -> by (apply from_le_u64; lia). obind.
  assert (len (kb ++ cb ++ bits) = 12 + len bits) as Hlen by len.
  rewrite Hlen, Hl, N.eqb_refl. cbn [negb].
  destruct (N.eqb_spec k 0); [lia|]. destruct (N.eqb_spec bc 0); [lia|]. cbn [orb].
  assert (slice (kb ++ cb ++ bits) 12 (12 + div_ceil bc 8) = Ok bits) as ->; [|done].
  rewrite app_assoc. rewrite <- (app_nil_r bits) at 1.
  apply (slice_app 12 _ (kb ++ cb) bits []); len.
Qed.

(** Any bytes decode to a usable filter or to [Error::Corrupt]. *)
Lemma bloom_decode_cases buf :
  (exists f, bloom_decode buf = Ok f /\ bloom_ok f) \/ exists m, bloom_decode buf = Err (Corrupt m).
Proof.
  unfold bloom_decode. destruct (N.ltb_spec (len buf) 12); [eauto|].
  rewrite !slice_in by lia. obind.
  pose proof (length_sub_list 0 4 buf). pose proof (length_sub_list 4 12 buf).
  rewrite !from_le_ok by lia. obind.
  set (k := le_value (sub_list 0 4 buf)). set (bc := le_value (sub_list 4 12 buf)).
  destruct (N.eqb_spec (len buf) (12 + div_ceil bc 8)) as [El|]; cbn [negb]; [|eauto].
  destruct (N.eqb_spec k 0); [eauto|]. destruct (N.eqb_spec bc 0); cbn [orb]; [eauto|].
  left. obind. eexists. split; [done|].
  assert (k <= U32_MAX) by (subst k; apply le_value_u32_bound; lia).
  assert (bc <= U64_MAX) by (subst bc; apply le_value_u64_bound; lia).
  unfold bloom_ok; cbn [bf_bits bf_bit_count bf_k]. split_and!; try lia.
  rewrite length_sub_list by lia. lia.
Qed.
Lemma bloom_encode_decode buf f : bloom_decode buf = Ok f -> bloom_encode f = buf.
Proof.
  unfold bloom_decode. destruct (N.ltb_spec (len buf) 12); [done|].
  rewrite !slice_in by lia. obind.
  pose proof (length_sub_list 0 4 buf). pose proof (length_sub_list 4 12 buf).
  rewrite !from_le_ok by lia. obind. case_match; [done|]. case_match; [done|].
  obind. intros [= <-]. unfold bloom_encode; cbn [bf_bits bf_bit_count bf_k].
  assert (forall w (b : bytes), length b = w -> le_bytes w (le_value b) = b) as Hle
    by (intros w b <-; apply le_bytes_le_value).
  rewrite !Hle by lia.
  pose proof (sub_list_join 0 4 8 buf) as E1. pose proof (sub_list_join 0 12 (len buf - 12) buf) as E2.
  change (0 + 4) with 4 in E1. change (4 + 8) with 12 in E1.
  change (0 + 12) with 12 in E1, E2. replace (12 + (len buf - 12)) with (len buf) in E2 by lia.
  rewrite app_assoc, E1, E2. by apply sub_list_all.
Qed.
End bloom.

#[global] Arguments bloom_decode : simpl never.
#[global] Arguments bloom_encode : simpl never.

(** ** Properties *)

(** C28: a Bloom filter has no false negatives: sized for any number of keys,
    after any keys were inserted in any order, every one of them is reported as
    possibly present, also by the filter that decoding its encoding gives; no
    insert and no query panics. *)
Theorem bloom_no_false_negatives `{Platform} (n : N) (keys : list bytes) :
  exists f, bloom_insert_all keys (bloom_new n) = Ok f /\
    bloom_decode (bloom_encode f) = Ok f /\
    (forall key, key ∈ keys -> bloom_contains key f = Ok true) /\
    (forall key, bloom_contains key f <> Panic).
Proof.
  destruct (bloom_insert_all_spec keys (bloom_new n) (bloom_new_ok n)) as (f & E & Hf & Hall).
  exists f. split; [done|]. split; [by apply bloom_decode_encode|]. split.
  - intros key Hk. destruct (bloom_contains_spec f key Hf) as (r & -> & Hr).
    f_equal. apply Hr, Hall. by left.
  - intros key. by destruct (bloom_contains_spec f key Hf) as (r & -> & _).
Qed.

(** Decoding arbitrary bytes as a filter never panics: it is refused as
    corrupt, or it is a filter whose queries never index outside its bits or
    divide by zero and which encodes to the same bytes. *)
Theorem bloom_decode_any_bytes `{Platform} (buf : bytes) :
  match bloom_decode buf with
  | Ok f => (forall key, bloom_contains key f <> Panic) /\ bloom_encode f = buf
  | Err e => exists m, e = Corrupt m
  | Panic => False
  end.
Proof.
  destruct (bloom_decode_cases buf) as [(f & E & Hf)|[m ->]]; [|eauto]. rewrite E. split.
  - intros key. by destruct (bloom_contains_spec f key Hf) as (r & -> & _).
  - by apply bloom_encode_decode.
Qed.
