(* ===== verification/FileSystem.v ===== *)
(** * The filesystem seam (src/src/fs.rs, src/src/fsutil.rs)

    The traits [Fs] and [File] as operations on a store of inodes and names.
    A name maps to an inode, so a hard link is a second name of one inode, an
    unlinked or replaced file stays readable through the handles that have it
    open, and a rename moves a name.  Every operation that reaches the device
    consumes one entry of a script of faults: it may fail, an append may write
    part of its bytes and fail, a read may come up short, and the process may
    die in the middle of an append; once it is dead nothing happens any more.
    A script that is used up means that no more faults occur. *)
From Stdlib Require Import NArith Lia.
From stdpp Require Import base numbers list strings gmap.
From S2P Require Import Prelude Errors Platform State.

Local Open Scope N_scope.

(** [dir.join(name)]. *)
Record Path := mkPath { p_dir : string; p_name : string }.

#[export] Instance Path_eq_dec : EqDecision Path.
Proof. solve_decision. Defined.
#[export] Instance Path_countable : Countable Path.
Proof.
  apply (inj_countable' (fun p => (p_dir p, p_name p)) (fun p => mkPath p.1 p.2)). by intros [].
Defined.

Definition join (dir name : string) : Path := mkPath dir name.

(** [path.display()]. *)
Definition display (p : Path) : string := p_dir p +:+ "/" +:+ p_name p.

(** [enum SyncMode] and [SyncMode::is_durable]. *)
Inductive SyncMode := Durable | Barrier | NoSync.

Definition is_durable (m : SyncMode) : bool :=
  match m with Durable => true | _ => false end.

(** [enum OpenMode]. *)
Inductive OpenMode := Read | Append | Truncate | Lock.

(** A file's bytes, and how many of them the last completed durable sync covers. *)
Record Inode := mkInode { i_data : bytes; i_synced : N }.

(** What may go wrong with one operation. *)
Inductive Fault :=
| FFail (k : IoKind)             (* it fails and has no effect *)
| FPartial (n : N) (k : IoKind)  (* an append writes its first [n] bytes and fails *)
| FShort (n : N)                 (* a read returns at most [max 1 n] bytes *)
| FCrash (n : N).                (* the process dies; an append leaves its first [n] bytes *)

Record FsState := mkFs {
  fs_inodes : gmap N Inode;
  fs_names : gmap Path N;
  (** The names as they were at the last [sync_dir] of their directory. *)
  fs_durable : gmap Path N;
  fs_dirs : gset string;
  fs_locks : gset N;
  fs_next : N;
  fs_faults : list (option Fault);
  fs_dead : bool
}.

Definition set_inodes m (s : FsState) :=
  mkFs m (fs_names s) (fs_durable s) (fs_dirs s) (fs_locks s) (fs_next s) (fs_faults s) (fs_dead s).
Definition set_names m (s : FsState) :=
  mkFs (fs_inodes s) m (fs_durable s) (fs_dirs s) (fs_locks s) (fs_next s) (fs_faults s) (fs_dead s).
Definition set_durable m (s : FsState) :=
  mkFs (fs_inodes s) (fs_names s) m (fs_dirs s) (fs_locks s) (fs_next s) (fs_faults s) (fs_dead s).
Definition set_dirs d (s : FsState) :=
  mkFs (fs_inodes s) (fs_names s) (fs_durable s) d (fs_locks s) (fs_next s) (fs_faults s) (fs_dead s).
Definition set_locks l (s : FsState) :=
  mkFs (fs_inodes s) (fs_names s) (fs_durable s) (fs_dirs s) l (fs_next s) (fs_faults s) (fs_dead s).
Definition set_next n (s : FsState) :=
  mkFs (fs_inodes s) (fs_names s) (fs_durable s) (fs_dirs s) (fs_locks s) n (fs_faults s) (fs_dead s).
Definition set_faults f (s : FsState) :=
  mkFs (fs_inodes s) (fs_names s) (fs_durable s) (fs_dirs s) (fs_locks s) (fs_next s) f (fs_dead s).
Definition set_dead b (s : FsState) :=
  mkFs (fs_inodes s) (fs_names s) (fs_durable s) (fs_dirs s) (fs_locks s) (fs_next s) (fs_faults s) b.

(** A handle ([Fs::File]) is the inode it has open. *)
Abbreviation Handle := N (only parsing).
Abbreviation FsM := (ST FsState).

(** The bytes of an open file. *)
Definition file_data (s : FsState) (h : Handle) : bytes :=
  from_option i_data [] (fs_inodes s !! h).

(** The bytes at a path, if the name exists. *)
Definition path_data (s : FsState) (p : Path) : option bytes :=
  h ← fs_names s !! p; i_data <$> fs_inodes s !! h.

(** One operation reaching the device: its fault, if the script has one. *)
Definition with_fault {A} (body : option Fault -> FsM A) : FsM A := fun s =>
  if fs_dead s then (Err (Io OtherIo), s)
  else match fs_faults s with
       | [] => body None s
       | f :: r => body f (set_faults r s)
       end.

(** The process dies. *)
Definition crash {A} : FsM A := fun s => (Err (Io OtherIo), set_dead true s).

(** An operation that either happens or does not. *)
Definition guarded {A} (op : FsM A) : FsM A :=
  with_fault (fun f =>
    match f with
    | Some (FFail k) | Some (FPartial _ k) => fail (Io k)
    | Some (FCrash _) => crash
    | Some (FShort _) | None => op
    end).

(** ** [impl File] *)

(** [File::read_at]: the bytes that were read into the buffer of [n] bytes. *)
Definition read_at (h : Handle) (off n : N) : FsM bytes :=
  with_fault (fun f =>
    match f with
    | Some (FFail k) | Some (FPartial _ k) => fail (Io k)
    | Some (FCrash _) => crash
    | Some (FShort m) => gets (fun s => sub_list off (off + N.min n (N.max 1 m)) (file_data s h))
    | None => gets (fun s => sub_list off (off + n) (file_data s h))
    end).

Definition write_bytes (h : Handle) (b : bytes) (s : FsState) : FsState :=
  set_inodes (alter (fun i => mkInode (i_data i ++ b) (i_synced i)) h (fs_inodes s)) s.

(** [File::append]: [write_all], which may stop part-way. *)
Definition append (h : Handle) (b : bytes) : FsM unit :=
  with_fault (fun f =>
    match f with
    | Some (FFail k) => fail (Io k)
    | Some (FPartial n k) => _ ← modify (write_bytes h (take (N.to_nat n) b)); fail (Io k)
    | Some (FCrash n) => _ ← modify (write_bytes h (take (N.to_nat n) b)); crash
    | Some (FShort _) | None => modify (write_bytes h b)
    end).

(** [File::sync_as]. *)
Definition sync_as (h : Handle) (mode : SyncMode) : FsM unit :=
  match mode with
  | NoSync => mret tt
  | Barrier => guarded (mret tt)
  | Durable =>
      guarded (modify (fun s => set_inodes
        (alter (fun i => mkInode (i_data i) (len (i_data i))) h (fs_inodes s)) s))
  end.

(** [File::sync]. *)
Definition file_sync (h : Handle) : FsM unit := sync_as h Durable.

(** [File::size]. *)
Definition file_size (h : Handle) : FsM N := guarded (gets (fun s => len (file_data s h))).

(** [File::set_len], on a file that is at least that long. *)
Definition file_set_len (h : Handle) (n : N) : FsM unit :=
  guarded (modify (fun s => set_inodes
    (alter (fun i => mkInode (take (N.to_nat n) (i_data i)) (N.min n (i_synced i))) h (fs_inodes s)) s)).

(** [File::read_exact_at]: read until the buffer of [n] bytes is full.  A turn
    without a fault reads to the end of the file, so a turn per fault and two
    more are enough. *)
Fixpoint read_exact_loop (fuel : nat) (h : Handle) (off : N) (done : bytes) (n : N) : FsM bytes :=
  match fuel with
  | O => lift Panic
  | S fuel =>
      if len done <? n then
        r ← attempt (read_at h (off + len done) (n - len done));
        match r with
        | inl [] => fail (Io UnexpectedEof)
        | inl b => read_exact_loop fuel h off (done ++ b) n
        | inr (Io Interrupted) => read_exact_loop fuel h off done n
        | inr e => fail e
        end
      else mret done
  end.

Definition read_exact_at (h : Handle) (off n : N) : FsM bytes :=
  fuel ← gets (fun s => length (fs_faults s) + 3)%nat;
  read_exact_loop fuel h off [] n.

(** [File::read_all]. *)
Definition read_all (h : Handle) : FsM bytes :=
  n ← file_size h;
  read_exact_at h 0 n.

(** ** [impl Fs] *)

Definition create_dir_all (dir : string) : FsM unit :=
  guarded (modify (fun s => set_dirs ({[dir]} ∪ fs_dirs s) s)).

(** The names in a directory. *)
Definition dir_entries (s : FsState) (dir : string) : list string :=
  p_name <$> (filter (fun p => p_dir p = dir) (fst <$> map_to_list (fs_names s))).

(** [Fs::list], in the order the platform lists entries. *)
Definition list_dir `{Platform} (dir : string) : FsM (list Path) :=
  guarded (fun s =>
    if bool_decide (dir ∈ fs_dirs s)
    then (Ok (join dir <$> readdir_order (dir_entries s dir)), s)
    else (Err (Io NotFound), s)).

(** Give [p] a new, empty inode. *)
Definition create_inode (p : Path) : FsM Handle := fun s =>
  if bool_decide (p_dir p ∈ fs_dirs s) then
    let h := fs_next s in
    (Ok h, set_next (h + 1)
             (set_names (<[p := h]> (fs_names s))
               (set_inodes (<[h := mkInode [] 0]> (fs_inodes s)) s)))
  else (Err (Io NotFound), s).

Definition open_or_create (p : Path) : FsM Handle := fun s =>
  match fs_names s !! p with
  | Some h => (Ok h, s)
  | None => create_inode p s
  end.

(** [Fs::open]. *)
Definition open (p : Path) (mode : OpenMode) : FsM Handle :=
  guarded (
    match mode with
    | Read => fun s =>
        match fs_names s !! p with
        | Some h => (Ok h, s)
        | None => (Err (Io NotFound), s)
        end
    | Append => open_or_create p
    | Truncate =>
        h ← open_or_create p;
        _ ← modify (fun s => set_inodes (alter (fun _ => mkInode [] 0) h (fs_inodes s)) s);
        mret h
    | Lock =>
        h ← open_or_create p;
        locked ← gets (fun s => bool_decide (h ∈ fs_locks s));
        if locked : bool then fail (Io WouldBlock)
        else _ ← modify (fun s => set_locks ({[h]} ∪ fs_locks s) s); mret h
    end).

Definition rename (src dst : Path) : FsM unit :=
  guarded (fun s =>
    match fs_names s !! src with
    | Some h => (Ok tt, set_names (<[dst := h]> (delete src (fs_names s))) s)
    | None => (Err (Io NotFound), s)
    end).

Definition hard_link (original link : Path) : FsM unit :=
  guarded (fun s =>
    match fs_names s !! original, fs_names s !! link with
    | Some _, Some _ => (Err (Io AlreadyExists), s)
    | Some h, None =>
        if bool_decide (p_dir link ∈ fs_dirs s)
        then (Ok tt, set_names (<[link := h]> (fs_names s)) s)
        else (Err (Io NotFound), s)
    | None, _ => (Err (Io NotFound), s)
    end).

Definition remove (p : Path) : FsM unit :=
  guarded (fun s =>
    match fs_names s !! p with
    | Some _ => (Ok tt, set_names (delete p (fs_names s)) s)
    | None => (Err (Io NotFound), s)
    end).

Definition path_size (p : Path) : FsM N :=
  guarded (fun s =>
    match path_data s p with
    | Some d => (Ok (len d), s)
    | None => (Err (Io NotFound), s)
    end).

Definition sync_dir (dir : string) : FsM unit :=
  guarded (modify (fun s =>
    set_durable (filter (fun e => p_dir e.1 = dir) (fs_names s)
                 ∪ filter (fun e => p_dir e.1 <> dir) (fs_durable s)) s)).

(** [Fs::exists]: [self.size(path).is_ok()]. *)
Definition exists_path (p : Path) : FsM bool :=
  r ← attempt (path_size p);
  mret (match r with inl _ => true | inr _ => false end).

(** ** [BufAppend] *)

Record BufAppend := mkBuf {
  ba_file : Handle;
  ba_buf : bytes;
  ba_cap : N;
  ba_failed : bool
}.

Definition APPEND_BUFFER_BYTES : N := 64 * 1024.

(** [BufAppend::with_capacity] and [BufAppend::new]. *)
Definition buf_with_capacity (h : Handle) (cap : N) : BufAppend := mkBuf h [] (N.max cap 1) false.
Definition buf_new (h : Handle) : BufAppend := buf_with_capacity h APPEND_BUFFER_BYTES.

(** Programs over a buffer and the filesystem beneath it. *)
Abbreviation BufM := (ST (BufAppend * FsState)).

Definition on_fs {A} (m : FsM A) : BufM A := zoom snd (fun f s => (s.1, f)) m.
Definition set_buf (b : bytes) (s : BufAppend * FsState) : BufAppend * FsState :=
  (mkBuf (ba_file s.1) b (ba_cap s.1) (ba_failed s.1), s.2).
Definition set_failed (s : BufAppend * FsState) : BufAppend * FsState :=
  (mkBuf (ba_file s.1) (ba_buf s.1) (ba_cap s.1) true, s.2).

(** [BufAppend::flush]. *)
Definition buf_flush : BufM unit :=
  b ← gets fst;
  if bool_decide (ba_buf b = []) then mret tt
  else
    r ← attempt (on_fs (append (ba_file b) (ba_buf b)));
    match r with
    | inr e => _ ← modify set_failed; fail e
    | inl _ => modify (set_buf [])
    end.

(** [BufAppend::write]. *)
Definition buf_write (b : bytes) : BufM unit :=
  _ ← modify (fun s => set_buf (ba_buf s.1 ++ b) s);
  full ← gets (fun s => ba_cap s.1 <=? len (ba_buf s.1));
  if full : bool then buf_flush else mret tt.

(** [BufAppend::sync]. *)
Definition buf_sync : BufM unit :=
  _ ← buf_flush;
  h ← gets (fun s => ba_file s.1);
  r ← attempt (on_fs (file_sync h));
  match r with
  | inl _ => mret tt
  | inr e => _ ← modify set_failed; fail e
  end.

(** [self.file.get_mut().sync_as(mode)]. *)
Definition buf_sync_as (mode : SyncMode) : BufM unit :=
  h ← gets (fun s => ba_file s.1);
  on_fs (sync_as h mode).

(** Run a program on a buffer that a function owns: the buffer is returned with
    the result and dropped on an error. *)
Definition with_buf {A} (b : BufAppend) (m : BufM A) : FsM (A * BufAppend) := fun s =>
  match m (b, s) with
  | (Ok a, (b', s')) => (Ok (a, b'), s')
  | (Err e, (_, s')) => (Err e, s')
  | (Panic, (_, s')) => (Panic, s')
  end.

(** ** The directory lock ([DirLock]) *)

Definition lock_path (dir : string) : Path := join dir "LOCK".

(** Dropping the [DirLock] closes its file, which releases the lock. *)
Definition dir_lock_drop (h : Handle) : FsM unit :=
  modify (fun s => set_locks (fs_locks s ∖ {[h]}) s).

(** [DirLock::acquire].  The file is closed again if the directory cannot be synced. *)
Definition dir_lock_acquire (dir : string) : FsM Handle :=
  let path := lock_path dir in
  existed ← exists_path path;
  r ← attempt (open path Lock);
  h ← match r with
      | inl h => mret h
      | inr (Io WouldBlock) => fail (Locked dir)
      | inr e => fail e
      end;
  if existed : bool then mret h
  else
    r ← attempt (sync_dir dir);
    match r with
    | inl _ => mret h
    | inr e => _ ← dir_lock_drop h; fail e
    end.

(** The process is started again: locks were released when it died, and the
    files are what they were. *)
Definition reboot (s : FsState) : FsState :=
  set_faults [] (set_dead false (set_locks ∅ s)).

(** ** Lemmas *)

(** Names point at inodes, and fresh inode numbers are fresh. *)
Definition fs_wf (s : FsState) : Prop :=
  (forall p h, fs_names s !! p = Some h -> is_Some (fs_inodes s !! h)) /\
  (forall h, is_Some (fs_inodes s !! h) -> h < fs_next s).

(** No fault is left in the script. *)
Definition quiet (s : FsState) : Prop := fs_dead s = false /\ fs_faults s = [].

(** Two states that differ in what is left of the fault script only. *)
Definition same_store (s s' : FsState) : Prop :=
  fs_inodes s = fs_inodes s' /\ fs_names s = fs_names s' /\ fs_durable s = fs_durable s' /\
  fs_dirs s = fs_dirs s' /\ fs_locks s = fs_locks s' /\ fs_next s = fs_next s'.

#[export] Instance same_store_equiv : Equivalence same_store.
Proof.
  split; unfold same_store.
  - intros s; naive_solver.
  - intros s t; naive_solver.
  - intros s t u; intuition congruence.
Qed.

#[export] Instance file_data_proper : Proper (same_store ==> eq ==> eq) file_data.
Proof. intros s t (E & _) h ? <-. unfold file_data. by rewrite E. Qed.

#[export] Instance path_data_proper : Proper (same_store ==> eq ==> eq) path_data.
Proof. intros s t (E & E' & _) h ? <-. unfold path_data. by rewrite E, E'. Qed.

Lemma same_store_faults s f : same_store s (set_faults f s).
Proof. by unfold same_store. Qed.

Lemma same_store_dead s b : same_store s (set_dead b s).
Proof. by unfold same_store. Qed.

Lemma same_store_quiet s s' : same_store s s' -> quiet s -> quiet s' -> s = s'.
Proof.
  unfold same_store, quiet. destruct s, s'; simpl.
  intros (-> & -> & -> & -> & -> & ->) [-> ->] [-> ->]. done.
Qed.

(** Nothing changed but the script, and no fault appeared in it. *)
Definition stays (s s' : FsState) : Prop := same_store s s' /\ (quiet s -> quiet s').

#[export] Instance stays_preorder : PreOrder stays.
Proof.
  split; unfold stays.
  - intros s. by split.
  - intros s t u [H1 H2] [H3 H4]. split; [by rewrite H1|auto].
Qed.

#[export] Instance stays_same : subrelation stays same_store.
Proof. by intros s s' [Hs _]. Qed.

Lemma stays_fault s s' : same_store s s' -> ~ quiet s -> stays s s'.
Proof. intros Hs Hq. by split. Qed.

Lemma stays_quiet s s' : stays s s' -> ~ quiet s' -> ~ quiet s.
Proof. intros [_ Hq] Hn ?. by apply Hn, Hq. Qed.

Lemma with_fault_quiet {A} (body : option Fault -> FsM A) s :
  quiet s -> with_fault body s = body None s.
Proof. intros [E1 E2]. unfold with_fault. by rewrite E1, E2. Qed.

Lemma guarded_quiet {A} (op : FsM A) s : quiet s -> guarded op s = op s.
Proof. intros. unfold guarded. by rewrite with_fault_quiet. Qed.

(** A guarded operation, whatever the script says: it does not happen and
    returns an error, or it happens. *)
Lemma guarded_cases {A} (op : FsM A) s :
  (exists k s', guarded op s = (Err (Io k), s') /\ same_store s s' /\ ~ quiet s) \/
  (exists f, guarded op s = op (set_faults f s) /\ stays s (set_faults f s)).
Proof.
  unfold guarded, with_fault, stays, quiet. destruct (fs_dead s) eqn:Ed.
  { left. eexists _, _. split_and!; [done|done|]. by intros [? _]. }
  destruct (fs_faults s) as [|[f|] r] eqn:Ef.
  - right. exists []. rewrite <- Ef at 1. split; [by destruct s|]. by split.
  - destruct f; [left; eexists _, _; split_and!; [done|apply same_store_faults|by intros [_ ?]]..|right|left].
    + exists r. split; [done|]. split; [apply same_store_faults|]. by intros [_ ?].
    + eexists _, _. split_and!; [done|by unfold same_store|by intros [_ ?]].
  - right. exists r. split; [done|]. split; [apply same_store_faults|]. by intros [_ ?].
Qed.

Lemma read_at_cases h off n s :
  (exists k s', read_at h off n s = (Err (Io k), s') /\ same_store s s' /\
     (k = Interrupted -> (length (fs_faults s') < length (fs_faults s))%nat)) \/
  (exists m s', read_at h off n s = (Ok (sub_list off (off + m) (file_data s h)), s') /\
     same_store s s' /\
     ((length (fs_faults s') < length (fs_faults s))%nat /\ N.min 1 n <= m <= n \/
      fs_faults s = [] /\ fs_faults s' = [] /\ m = n)).
Proof.
  unfold read_at, with_fault. destruct (fs_dead s) eqn:Ed; [left; by eexists _, _|].
  destruct (fs_faults s) as [|[f|] r] eqn:Ef.
  - right. exists n, s. split; [done|]. split; [done|]. right. done.
  - destruct f as [k|m k|m|m].
    + left. eexists _, _; split_and!; [done|apply same_store_faults|simpl; lia].
    + left. eexists _, _; split_and!; [done|apply same_store_faults|simpl; lia].
    + right. eexists (N.min n (N.max 1 m)), _; split_and!; [done|apply same_store_faults|].
      left. simpl. lia.
    + left. eexists _, _; split_and!; [done| |simpl; lia]. by unfold same_store.
  - right. exists n, (set_faults r s). split; [done|]. split; [apply same_store_faults|].
    left. simpl. lia.
Qed.

(** The loop of [read_exact_at]: with a turn per fault and two more it returns,
    with exactly the bytes asked for or with an error. *)
Lemma read_exact_loop_spec fuel h off a n data s :
  file_data s h = data ->
  (length (fs_faults s) + 2 <= fuel)%nat \/
    (fs_faults s = [] /\ (1 <= fuel)%nat /\ (n <= a \/ len data <= off + a)) ->
  a <= n -> len (sub_list off (off + a) data) = a ->
  exists s', same_store s s' /\
    ((exists k, read_exact_loop fuel h off (sub_list off (off + a) data) n s = (Err (Io k), s')) \/
     (read_exact_loop fuel h off (sub_list off (off + a) data) n s
        = (Ok (sub_list off (off + n) data), s') /\ len (sub_list off (off + n) data) = n)).
Proof.
  revert a s. induction fuel as [|fuel IH]; intros a s Hd Hf Hn Ha; [lia|]. cbn [read_exact_loop].
  rewrite Ha. destruct (N.ltb_spec a n) as [Hlt|Hge].
  2: { exists s. split; [done|right]. replace n with a by lia. done. }
  unfold attempt, mbind, ST_bind.
  destruct (read_at_cases h (off + a) (n - a) s)
    as [(k & s' & -> & Hs & Hk)|(m & s' & -> & Hs & Hm)]; cbn beta iota.
  - destruct (decide (k = Interrupted)) as [->|Hne].
    + specialize (Hk eq_refl).
      destruct (IH a s') as (s'' & Hs' & H'); [by rewrite <- Hs| |done|done|].
      { left. destruct Hf as [|(Hf & _)]; [lia|]. rewrite Hf in Hk. simpl in Hk. lia. }
      exists s''. split; [by rewrite Hs|exact H'].
    + exists s'. split; [done|left]. exists k. by destruct k.
  - rewrite Hd. pose proof (length_sub_list_min (off + a) m data) as Hlb.
    pose proof (sub_list_join off a m data) as Ej.
    destruct (sub_list (off + a) (off + a + m) data) as [|x b] eqn:Eb.
    { exists s'. split; [done|left]. by exists UnexpectedEof. }
    pose proof (length_sub_list_min off (a + len (x :: b)) data) as Hl'.
    pose proof (length_sub_list_min off a data) as Hla. rewrite Ha in Hla.
    assert (sub_list off (off + (a + m)) data = sub_list off (off + (a + len (x :: b))) data) as E'.
    { rewrite <- Ej. rewrite <- (sub_list_join off a (len (x :: b))). f_equal.
      rewrite <- Eb at 1. unfold sub_list. rewrite Hlb.
      replace (N.to_nat (off + a + m - (off + a))) with (N.to_nat m) by lia.
      replace (N.to_nat (off + a + N.min m (len data - (off + a)) - (off + a)))
        with (Nat.min (N.to_nat m) (length (drop (N.to_nat (off + a)) data)))
        by (rewrite length_drop; lia).
      rewrite <- take_take. f_equal. symmetry. by apply take_ge. }
    rewrite Ej, E'.
    destruct (IH (a + len (x :: b)) s') as (s'' & Hs' & H').
    + by rewrite <- Hs.
    + destruct Hm as [[Hm _]|(Hm1 & Hm2 & Hm3)]; destruct Hf as [Hf|(Hf & Hfu & Heof)].
      * left. lia.
      * rewrite Hf in Hm. simpl in Hm. lia.
      * right. rewrite Hm1 in Hf. simpl in Hf. split_and!; [done|lia|]. lia.
      * exfalso. simpl length in *. lia.
    + lia.
    + lia.
    + exists s''. split; [by rewrite Hs|exact H'].
Qed.

(** [read_exact_at] under any faults. *)
Lemma read_exact_at_spec h off n s :
  exists s', same_store s s' /\
    ((exists k, read_exact_at h off n s = (Err (Io k), s')) \/
     (read_exact_at h off n s = (Ok (sub_list off (off + n) (file_data s h)), s') /\
      len (sub_list off (off + n) (file_data s h)) = n)).
Proof.
  unfold read_exact_at, gets at 1, mbind at 1, ST_bind at 1; cbn beta iota.
  destruct (read_exact_loop_spec (length (fs_faults s) + 3) h off 0 n (file_data s h) s)
    as (s' & Hs & H); [done|left; lia|lia|by rewrite N.add_0_r, sub_list_nil|].
  rewrite N.add_0_r, sub_list_nil in H. eauto.
Qed.

(** *** Opening files *)

Lemma open_read_cases p s :
  (exists k s', open p Read s = (Err (Io k), s') /\ same_store s s' /\
     (quiet s -> fs_names s !! p = None)) \/
  (exists h s', open p Read s = (Ok h, s') /\ stays s s' /\ fs_names s !! p = Some h).
Proof.
  unfold open. match goal with |- context [guarded ?op s] =>
    destruct (guarded_cases op s) as [(k & s' & -> & Hs & Hq)|(f & -> & Hs)] end.
  - left. by eexists _, _.
  - cbn [fs_names set_faults]. destruct (fs_names s !! p) as [h|] eqn:Ep.
    + right. by eexists _, _.
    + left. eexists _, _. split_and!; [done|apply Hs|done].
Qed.

Lemma open_read_quiet p s h :
  quiet s -> fs_names s !! p = Some h -> open p Read s = (Ok h, s).
Proof. intros Hq E. unfold open. rewrite guarded_quiet by done. by rewrite E. Qed.

(** What creating or truncating a file does when it succeeds. *)
Lemma open_truncate_ok p s h s' :
  fs_wf s -> open p Truncate s = (Ok h, s') ->
  fs_wf s' /\ fs_names s' = <[p := h]> (fs_names s) /\ fs_inodes s' !! h = Some (mkInode [] 0) /\
  (fs_names s !! p = Some h \/ fs_names s !! p = None /\ fs_inodes s !! h = None) /\
  (forall h', h' <> h -> fs_inodes s' !! h' = fs_inodes s !! h') /\
  fs_dirs s' = fs_dirs s /\ fs_locks s' = fs_locks s /\ fs_durable s' = fs_durable s.
Proof.
  intros [W1 W2]. unfold open. intros E.
  destruct (guarded_cases (h ← open_or_create p;
    _ ← modify (fun s => set_inodes (alter (fun _ => mkInode [] 0) h (fs_inodes s)) s); mret h) s)
    as [(k & t & E' & _)|(f & E' & _)]; rewrite E' in E; [done|]. clear E'.
  unfold open_or_create, create_inode, mbind, ST_bind, modify in E.
  cbn [fs_names set_faults fs_dirs] in E.
  destruct (fs_names s !! p) as [h0|] eqn:Ep.
  - injection E as <- <-. cbn. destruct (W1 _ _ Ep) as [i Hi].
    split_and!; try done.
    + split; cbn.
      * intros q g Hq. rewrite lookup_alter. case_decide; [subst; rewrite Hi; by eexists|by eapply W1].
      * intros g. rewrite lookup_alter. case_decide; [subst|apply W2].
        intros _. apply W2. by eexists.
    + by rewrite insert_id.
    + by rewrite lookup_alter_eq, Hi.
    + by left.
    + intros g Hg. by rewrite lookup_alter_ne.
  - case_bool_decide as Hd; [|done]. injection E as <- <-. cbn.
    assert (fs_inodes s !! fs_next s = None) as Hn.
    { destruct (fs_inodes s !! fs_next s) eqn:E; [|done]. specialize (W2 (fs_next s)). rewrite E in W2.
      assert (fs_next s < fs_next s) by (apply W2; by eexists). lia. }
    split_and!; try done.
    + split; cbn.
      * intros q g Hq. destruct (decide (fs_next s = g)) as [<-|Hne].
        -- rewrite lookup_alter_eq, lookup_insert_eq. by eexists.
        -- rewrite lookup_alter_ne, lookup_insert_ne by done.
           rewrite lookup_insert in Hq. case_decide; [congruence|by eapply W1].
      * intros g. destruct (decide (fs_next s = g)) as [<-|Hne]; [lia|].
        rewrite lookup_alter_ne, lookup_insert_ne by done. intros Hg. specialize (W2 g Hg). lia.
    + by rewrite lookup_alter_eq, lookup_insert_eq.
    + right. done.
    + intros g Hg. by rewrite lookup_alter_ne, lookup_insert_ne.
Qed.

(** *** Reads and writes when no fault is left *)

Lemma read_at_quiet h off n s :
  quiet s -> read_at h off n s = (Ok (sub_list off (off + n) (file_data s h)), s).
Proof. intros. unfold read_at. by rewrite with_fault_quiet. Qed.

Lemma read_exact_quiet h off n s :
  quiet s -> off + n <= len (file_data s h) ->
  read_exact_at h off n s = (Ok (sub_list off (off + n) (file_data s h)), s).
Proof.
  intros Hq Hn. unfold read_exact_at, gets, mbind at 1, ST_bind at 1; cbn beta iota.
  rewrite (proj2 Hq). cbn [length Nat.add]. cbn [read_exact_loop].
  pose proof (length_sub_list_min off n (file_data s h)) as Hl.
  destruct (N.ltb_spec (len (@nil byte)) n).
  - unfold attempt, mbind, ST_bind. rewrite read_at_quiet by done.
    replace (off + len []) with off by (simpl; lia). replace (n - len []) with n by (simpl; lia).
    destruct (sub_list _ _ _) as [|x b] eqn:E; [simpl in *; lia|].
    cbn [app]. destruct (N.ltb_spec (len (x :: b)) n); [lia|done].
  - assert (n = 0) as -> by (simpl in *; lia). by rewrite N.add_0_r, sub_list_nil.
Qed.

Lemma file_size_quiet h s : quiet s -> file_size h s = (Ok (len (file_data s h)), s).
Proof. intros. unfold file_size. by rewrite guarded_quiet. Qed.

Lemma read_all_quiet h s : quiet s -> read_all h s = (Ok (file_data s h), s).
Proof.
  intros. unfold read_all. run (file_size_quiet h s H).
  rewrite read_exact_quiet by (done || lia). by rewrite sub_list_all.
Qed.

Lemma write_bytes_nil h s : write_bytes h [] s = s.
Proof.
  destruct s. unfold write_bytes, set_inodes; simpl. f_equal.
  apply map_eq. intros i. rewrite lookup_alter. case_decide; [subst|done].
  destruct (fs_inodes0 !! i) as [[]|]; simpl; [|done]. by rewrite app_nil_r.
Qed.

Lemma write_bytes_app h a b s : write_bytes h b (write_bytes h a s) = write_bytes h (a ++ b) s.
Proof.
  destruct s. unfold write_bytes, set_inodes; simpl. f_equal.
  apply map_eq. intros i. rewrite !lookup_alter. repeat case_decide; subst; try done.
  destruct (fs_inodes0 !! i) as [[]|]; simpl; [|done]. by rewrite app_assoc.
Qed.

Lemma file_data_write h b s :
  is_Some (fs_inodes s !! h) -> file_data (write_bytes h b s) h = file_data s h ++ b.
Proof.
  intros [[d n] E]. unfold file_data, write_bytes, set_inodes; simpl.
  rewrite lookup_alter_eq, E. done.
Qed.

Lemma file_data_write_ne h h' b s : h <> h' -> file_data (write_bytes h b s) h' = file_data s h'.
Proof.
  intros. unfold file_data, write_bytes, set_inodes; simpl. by rewrite lookup_alter_ne.
Qed.

Lemma write_bytes_valid h h' b s :
  is_Some (fs_inodes (write_bytes h b s) !! h') <-> is_Some (fs_inodes s !! h').
Proof.
  unfold write_bytes, set_inodes; simpl. rewrite lookup_alter.
  case_decide; [subst|done]. by rewrite fmap_is_Some.
Qed.

#[export] Instance write_bytes_proper : Proper (eq ==> eq ==> same_store ==> same_store) write_bytes.
Proof.
  intros h ? <- b ? <- s t (E & ?). unfold same_store, write_bytes; simpl. by rewrite E.
Qed.

(** *** [BufAppend] under any faults *)

(** The device state a flush that succeeds would leave. *)
Definition flushed (st : BufAppend * FsState) : FsState :=
  write_bytes (ba_file st.1) (ba_buf st.1) st.2.

(** What one append to [h] of [b] does, whatever the script says. *)
Lemma append_cases h b s :
  exists w o s', append h b s = (o, s') /\ same_store (write_bytes h w s) s' /\ w `prefix_of` b /\
    ((o = Ok tt /\ w = b) \/ exists k, o = Err (Io k)) /\
    (quiet s -> o = Ok tt /\ quiet s').
Proof.
  assert (Hnil : forall t, same_store s t -> same_store (write_bytes h [] s) t)
    by (intros; by rewrite write_bytes_nil).
  unfold append, with_fault, quiet. destruct (fs_dead s) eqn:Ed.
  { exists []. eexists _, s. split_and!; [done|by apply Hnil|apply prefix_nil|right; eauto|]. by intros [? _]. }
  destruct (fs_faults s) as [|[[k|n k|n|n]|] r] eqn:Ef.
  - exists b. eexists _, (write_bytes h b s). split_and!; [done..|by left|done].
  - exists []. eexists _, (set_faults r s).
    split_and!; [done|apply Hnil, same_store_faults|apply prefix_nil|right; eauto|by intros [_ ?]].
  - exists (take (N.to_nat n) b). eexists _, _.
    split_and!; [done|by unfold same_store|apply prefix_take|right; eauto|by intros [_ ?]].
  - exists b. eexists _, _. split_and!; [done|by unfold same_store|done|by left|by intros [_ ?]].
  - exists (take (N.to_nat n) b). eexists _, _.
    split_and!; [done|by unfold same_store|apply prefix_take|right; eauto|by intros [_ ?]].
  - exists b. eexists _, _. split_and!; [done|by unfold same_store|done|by left|by intros [_ ?]].
Qed.

(** [buf_flush]: all of the buffer reaches the file, or a prefix of it and an
    error, with the buffer kept. *)
Lemma buf_flush_cases b s :
  exists w o b' s', buf_flush (b, s) = (o, (b', s')) /\
    same_store (write_bytes (ba_file b) w s) s' /\ w `prefix_of` ba_buf b /\
    ba_file b' = ba_file b /\ ba_cap b' = ba_cap b /\
    ((o = Ok tt /\ w = ba_buf b /\ ba_buf b' = []) \/
     (exists k, o = Err (Io k) /\ ba_buf b' = ba_buf b /\ ba_failed b' = true)) /\
    (quiet s -> o = Ok tt /\ quiet s').
Proof.
  unfold buf_flush, gets, mbind at 1, ST_bind at 1; cbn [fst].
  case_bool_decide as Hb.
  - exists []. eexists _, b, s. rewrite Hb, write_bytes_nil. split_and!; try done. by left.
  - unfold attempt, on_fs, zoom, mbind, ST_bind; cbn [fst snd].
    destruct (append_cases (ba_file b) (ba_buf b) s)
      as (w & o & s' & -> & Hs & Hw & [[-> ->]|[k ->]] & Hq); cbn beta iota.
    + exists (ba_buf b). eexists _, _, s'. split_and!; [done..|by left|]. intros ?%Hq. naive_solver.
    + exists w. eexists _, _, s'. split_and!; [done..|right; eauto|]. intros ?%Hq. naive_solver.
Qed.

(** [buf_write]: the bytes are in the buffer or the file, in order; or an error
    left a prefix of them in the file. *)
Lemma buf_write_cases x b s :
  exists w o b' s', buf_write x (b, s) = (o, (b', s')) /\
    same_store (write_bytes (ba_file b) w s) s' /\
    w `prefix_of` ba_buf b ++ x /\ ba_file b' = ba_file b /\ ba_cap b' = ba_cap b /\
    ((o = Ok tt /\ w ++ ba_buf b' = ba_buf b ++ x) \/
     (exists k, o = Err (Io k) /\ ba_failed b' = true)) /\
    (quiet s -> o = Ok tt /\ quiet s').
Proof.
  unfold buf_write, modify, gets, mbind, ST_bind, set_buf; cbn [fst snd ba_buf ba_cap ba_file].
  destruct (ba_cap b <=? len (ba_buf b ++ x)).
  - destruct (buf_flush_cases (mkBuf (ba_file b) (ba_buf b ++ x) (ba_cap b) (ba_failed b)) s)
      as (w & o & b' & s' & -> & Hs & Hw & Hf & Hc & Ho & Hq); cbn [ba_file ba_buf ba_cap] in *.
    exists w, o, b', s'. split_and!; try done.
    destruct Ho as [(-> & -> & ->)|(k & -> & ? & ?)]; [left; by rewrite app_nil_r|right; eauto].
  - exists []. eexists _, _, s. rewrite write_bytes_nil.
    split_and!; [done|done|apply prefix_nil|done|done|by left|done].
Qed.

(** The state [s'] is [s] with [x] appended to the file [h]: what may differ
    beyond that is the fault script and how much of the file is synced. *)
Definition appended (h : Handle) (x : bytes) (s s' : FsState) : Prop :=
  (forall h', file_data s' h' = if decide (h' = h) then file_data s h ++ x else file_data s h') /\
  (forall h', is_Some (fs_inodes s' !! h') <-> is_Some (fs_inodes s !! h')) /\
  fs_names s' = fs_names s /\ fs_durable s' = fs_durable s /\ fs_dirs s' = fs_dirs s /\
  fs_locks s' = fs_locks s /\ fs_next s' = fs_next s.

Lemma appended_write h x s s' :
  is_Some (fs_inodes s !! h) -> same_store (write_bytes h x s) s' -> appended h x s s'.
Proof.
  intros Hh Hs. pose proof Hs as (Ei & E2 & E3 & E4 & E5 & E6). split_and!; try done.
  - intros h'. rewrite <- Hs. case_decide as Hd; [subst; by apply file_data_write|].
    by apply file_data_write_ne.
  - intros h'. rewrite <- Ei. apply write_bytes_valid.
Qed.

Lemma appended_refl h s s' : same_store s s' -> appended h [] s s'.
Proof.
  intros Hs. pose proof Hs as (Ei & E2 & E3 & E4 & E5 & E6). split_and!; try done.
  - intros h'. rewrite <- Hs. by case_decide; subst; rewrite ?app_nil_r.
  - intros h'. by rewrite Ei.
Qed.

Lemma appended_trans h x y s t u : appended h x s t -> appended h y t u -> appended h (x ++ y) s u.
Proof.
  intros (D1 & V1 & N1 & R1 & I1 & L1 & X1) (D2 & V2 & N2 & R2 & I2 & L2 & X2).
  split_and!; try congruence.
  - intros h'. rewrite D2, !D1. repeat case_decide; try done. by rewrite app_assoc.
  - intros h'. by rewrite V2, V1.
Qed.

Lemma appended_data h x s s' : appended h x s s' -> file_data s' h = file_data s h ++ x.
Proof. intros (D & _). rewrite D. by rewrite decide_True. Qed.

(** A sync changes no bytes. *)
Lemma sync_as_cases h mode s :
  exists o s', sync_as h mode s = (o, s') /\ (forall g, appended g [] s s') /\
    (o = Ok tt \/ exists k, o = Err (Io k)) /\ (quiet s -> o = Ok tt /\ quiet s').
Proof.
  destruct mode; cbn [sync_as].
  - destruct (guarded_cases (modify (fun s => set_inodes
        (alter (fun i => mkInode (i_data i) (len (i_data i))) h (fs_inodes s)) s)) s)
      as [(k & s' & -> & Hs & Hq)|(f & -> & Hs)].
    + eexists _, s'. split; [done|]. split; [|split; [eauto|done]]. intros g. by apply appended_refl.
    + unfold modify. eexists _, _. split; [done|]. split; [|split; [by left|split; [done|by apply Hs]]].
      intros g. split_and!; try done; intros h'; unfold file_data, set_inodes; simpl;
        rewrite lookup_alter.
      * case_decide as E1; subst; [|by case_decide; subst; rewrite ?app_nil_r].
        case_decide; subst; destruct (fs_inodes s !! _); simpl; by rewrite ?app_nil_r.
      * case_decide; subst; [|done]. by rewrite fmap_is_Some.
  - destruct (guarded_cases (mret tt) s) as [(k & s' & -> & Hs & Hq)|(f & -> & Hs)].
    + eexists _, s'. split; [done|]. split; [|split; [eauto|done]]. intros g. by apply appended_refl.
    + eexists _, _. split; [done|]. split; [|split; [by left|split; [done|by apply Hs]]].
      intros g. by apply appended_refl, same_store_faults.
  - eexists _, s. split; [done|]. split; [|split; [by left|done]]. intros g. by apply appended_refl.
Qed.

(** A run of writes, stopping at the first error. *)
Lemma buf_writes_cases xs b s :
  exists w o b' s', for_each xs buf_write (b, s) = (o, (b', s')) /\
    same_store (write_bytes (ba_file b) w s) s' /\
    w `prefix_of` ba_buf b ++ concat xs /\ ba_file b' = ba_file b /\ ba_cap b' = ba_cap b /\
    ((o = Ok tt /\ w ++ ba_buf b' = ba_buf b ++ concat xs) \/
     (exists k, o = Err (Io k) /\ ba_failed b' = true)) /\
    (quiet s -> o = Ok tt /\ quiet s').
Proof.
  revert b s. induction xs as [|x xs IH]; intros b s; cbn [for_each concat].
  - exists [], (Ok tt), b, s. rewrite write_bytes_nil, app_nil_r.
    split_and!; [done|done|apply prefix_nil|done|done|by left|done].
  - destruct (buf_write_cases x b s)
      as (w & o & b' & s' & E & Hs & Hw & Hf & Hc & [(-> & Hx)|(k & -> & ?)] & Hq).
    + run E. destruct (IH b' s') as (w2 & o & b2 & s2 & -> & Hs2 & Hw2 & Hf2 & Hc2 & Ho & Hq2).
      assert (Hcat : ba_buf b ++ x ++ concat xs = w ++ ba_buf b' ++ concat xs)
        by (by rewrite !app_assoc, Hx).
      exists (w ++ w2), o, b2, s2. rewrite Hf2, Hc2. split_and!; try done.
      * rewrite <- write_bytes_app, Hs, <- Hf. done.
      * rewrite Hcat. by apply prefix_app.
      * destruct Ho as [(-> & Hx2)|?]; [left|by right].
        by rewrite Hcat, <- app_assoc, Hx2.
      * intros [_ ?]%Hq. by apply Hq2.
    + rewrite (bind_run_err _ _ _ _ _ E). exists w. eexists _, b', s'.
      split_and!; try done; try (right; by eauto); try (intros ?%Hq; naive_solver).
      rewrite app_assoc. by apply prefix_app_r.
Qed.

(** A buffered append: writes, a flush and a sync, from an empty buffer. *)
Lemma buf_prog_cases xs mode b s :
  ba_buf b = [] -> is_Some (fs_inodes s !! ba_file b) ->
  exists w o b' s',
    (_ ← for_each xs buf_write; _ ← buf_flush; buf_sync_as mode) (b, s) = (o, (b', s')) /\
    appended (ba_file b) w s s' /\ w `prefix_of` concat xs /\ ba_file b' = ba_file b /\
    ((o = Ok tt /\ w = concat xs /\ ba_buf b' = []) \/ exists k, o = Err (Io k)) /\
    (quiet s -> o = Ok tt /\ quiet s').
Proof.
  intros Hb Hh.
  destruct (buf_writes_cases xs b s)
    as (w & o & b1 & s1 & E & Hs & Hw & Hf & Hc & [(-> & Hx)|(k & -> & _)] & Hq); rewrite Hb in *.
  2: { rewrite (bind_run_err _ _ _ _ _ E). exists w. eexists _, b1, s1.
    split_and!; [done|by apply appended_write|done|done|right; eauto|]. intros ?%Hq; naive_solver. }
  run E. clear E. destruct (buf_flush_cases b1 s1)
    as (w2 & o & b2 & s2 & E & Hs2 & Hw2 & Hf2 & Hc2 & Ho & Hq2).
  rewrite Hf, <- Hs, write_bytes_app in Hs2. cbn [app] in Hx.
  destruct Ho as [(-> & -> & Hb2)|(k & -> & _)].
  2: { rewrite (bind_run_err _ _ _ _ _ E). exists (w ++ w2). eexists _, b2, s2.
    split_and!; [done|by apply appended_write| |by rewrite Hf2|right; eauto|].
    - rewrite <- Hx. by apply prefix_app.
    - intros [_ ?%Hq2]%Hq; naive_solver. }
  run E. clear E. unfold buf_sync_as, on_fs, zoom. rewrite bind_gets. cbn [fst snd].
  rewrite Hx in Hs2. rewrite Hf2, Hf.
  destruct (sync_as_cases (ba_file b) mode s2) as (o & s3 & -> & Ha & Ho & Hq3).
  exists (concat xs), o, b2, s3. split_and!.
  - done.
  - rewrite <- (app_nil_r (concat xs)). eapply appended_trans; [by apply appended_write|apply Ha].
  - done.
  - by rewrite Hf2.
  - destruct Ho as [->|[k ->]]; eauto.
  - intros [_ [_ ?]%Hq2]%Hq. by apply Hq3.
Qed.

(** ** Properties *)

(** C29: [read_exact_at] under any sequence of short reads, interruptions,
    failures and crashes returns (it never runs out of turns): it gives exactly
    the [n] bytes at [off], or an I/O error, and changes nothing on the device;
    a range past the end of the file is always an error. *)
Theorem read_exact_at_any_faults (h : Handle) (off n : N) (s : FsState) :
  let '(o, s') := read_exact_at h off n s in
  same_store s s' /\
  match o with
  | Ok b => b = sub_list off (off + n) (file_data s h) /\ len b = n
  | Err e => exists k, e = Io k
  | Panic => False
  end /\
  (0 < n -> len (file_data s h) < off + n -> is_err o = true).
Proof.
  destruct (read_exact_at_spec h off n s) as (s' & Hs & [[k ->]|[-> Hl]]).
  - eauto.
  - split_and!; try done. intros. pose proof (length_sub_list_min off n (file_data s h)). lia.
Qed.

(** C30: the append buffer is transparent: for every capacity, every split of
    the bytes into writes and every script of faults, the file holds what it
    held followed by a prefix of the bytes written; if the writes and the final
    flush all returned [Ok], by all of them; no other file changes. *)
Theorem buf_append_transparent (h : Handle) (cap : N) (xs : list bytes) (s : FsState) :
  is_Some (fs_inodes s !! h) ->
  let '(o, (b', s')) := (_ ← for_each xs buf_write; buf_flush) (buf_with_capacity h cap, s) in
  exists w, w `prefix_of` concat xs /\ file_data s' h = file_data s h ++ w /\
    (o = Ok tt -> w = concat xs /\ ba_buf b' = []) /\
    (forall h', h' <> h -> file_data s' h' = file_data s h').
Proof.
  intros Hh. set (b0 := buf_with_capacity h cap).
  assert (Hfin : forall w s', same_store (write_bytes h w s) s' ->
    file_data s' h = file_data s h ++ w /\ forall h', h' <> h -> file_data s' h' = file_data s h').
  { intros w s' Hs. split; [|intros h' Hne]; rewrite <- Hs; [by apply file_data_write|].
    by apply file_data_write_ne. }
  destruct (buf_writes_cases xs b0 s)
    as (w & o & b' & s' & E & Hs & Hw & Hf & Hc & [(-> & Hx)|(k & -> & ?)] & _).
  - run E. destruct (buf_flush_cases b' s') as (w2 & o & b2 & s2 & -> & Hs2 & Hw2 & _ & _ & Ho & _).
    rewrite Hf, <- Hs, write_bytes_app in Hs2. destruct (Hfin _ _ Hs2) as [Hd Hd'].
    exists (w ++ w2). split_and!; try done.
    + rewrite <- (app_nil_l (concat xs)). change [] with (ba_buf b0). rewrite <- Hx.
      by apply prefix_app.
    + intros ->. destruct Ho as [(_ & -> & ?)|(? & ? & _)]; [|done]. by rewrite Hx.
  - rewrite (bind_run_err _ _ _ _ _ E). destruct (Hfin _ _ Hs) as [Hd Hd']. exists w. done.
Qed.

Definition one_file_fs (faults : list (option Fault)) : FsState :=
  mkFs {[ 0 := mkInode [x01] 0 ]} ∅ ∅ ∅ ∅ 1 faults false.

Lemma buf_append_transparent_witness :
  let s := one_file_fs [None; Some (FPartial 1 OtherIo)] in
  let xs := [[x02; x03]; [x04; x05]; [x06]] in
  let '(o, (b', s')) := (_ ← for_each xs buf_write; buf_flush) (buf_with_capacity 0 3, s) in
  exists w, w `prefix_of` concat xs /\ file_data s' 0 = file_data s 0 ++ w /\
    (o = Ok tt -> w = concat xs /\ ba_buf b' = []) /\
    (forall h', h' <> 0 -> file_data s' h' = file_data s h').
Proof.
  intros s xs. refine (buf_append_transparent 0 3 xs s _). by eexists.
Defined.
