(* ===== verification/Store.v ===== *)
(** * The filesystem seen by path

    What the operations of the filesystem do to names and contents, whatever the
    fault script says: the lemmas that recovery and crash arguments use.  A file
    whose name is not a table's has that name only ([unaliased]; a checkpoint
    links tables and nothing else), so a change to it is seen at its path and
    nowhere else; a file that has no such name (an open table) is never written. *)
From Stdlib Require Import NArith Lia.
From stdpp Require Import base numbers list strings gmap.
From S2P Require Import Prelude Errors FileNames Platform State FileSystem.

Local Open Scope N_scope.

(** Not the name of a table. *)
Definition plain (p : Path) : Prop := parse_sst_id (p_name p) = None.

Definition unaliased (s : FsState) : Prop :=
  forall p q h, plain p -> fs_names s !! p = Some h -> fs_names s !! q = Some h -> p = q.

Definition good (s : FsState) : Prop := fs_wf s /\ unaliased s.

(** An inode that no plain path names: an open table's file. *)
Definition sealed (s : FsState) (h : Handle) : Prop :=
  is_Some (fs_inodes s !! h) /\ forall p, plain p -> fs_names s !! p <> Some h.

(** From [s] to [s'] nothing but the files at the paths [ps] changed. *)
Record touches (ps : list Path) (s s' : FsState) : Prop := mkTouches {
  touches_good : good s';
  touches_names : forall q, q ∉ ps -> fs_names s' !! q = fs_names s !! q;
  touches_data : forall q, q ∉ ps -> path_data s' q = path_data s q;
  touches_sealed : forall h, sealed s h -> sealed s' h /\ file_data s' h = file_data s h;
  touches_dirs : fs_dirs s ⊆ fs_dirs s';
  touches_quiet : quiet s -> quiet s'
}.

Lemma sst_tmp_plain dir id : plain (join dir (sst_tmp_name id)).
Proof.
  unfold plain, parse_sst_id, sst_tmp_name, sst_stem; cbn [p_name join].
  rewrite bytes_of_string_of_bytes, <- app_assoc, strip_prefix_app. cbn [mbind option_bind].
  unfold strip_suffix. rewrite length_app. cbn [length].
  set (d := dec_padded 10 id).
  replace (length d + length (bytes_of_string ".db.tmp") - length (bytes_of_string ".db"))%nat
    with (length d + 4)%nat by (simpl; lia).
  rewrite drop_app_add. rewrite (bool_decide_false (drop 4 _ = _)) by done. by rewrite andb_false_r.
Qed.

Lemma manifest_plain dir g : plain (join dir (manifest_name g)).
Proof. apply parse_manifest_name. Qed.
Lemma current_plain dir : plain (join dir CURRENT_FILENAME).
Proof. done. Qed.
Lemma current_tmp_plain dir : plain (join dir CURRENT_TMP).
Proof. done. Qed.
Lemma wal_plain dir : plain (join dir WAL_FILENAME).
Proof. done. Qed.
Lemma wal_tmp_plain dir : plain (join dir WAL_TMP_FILENAME).
Proof. done. Qed.
#[export] Hint Resolve sst_tmp_plain manifest_plain current_plain current_tmp_plain wal_plain
  wal_tmp_plain : names.

Lemma path_data_names s p h : fs_names s !! p = Some h -> fs_wf s -> path_data s p = Some (file_data s h).
Proof.
  intros E [W _]. destruct (W _ _ E) as [i Hi]. unfold path_data, file_data. rewrite E.
  cbn [mbind option_bind]. by rewrite Hi.
Qed.

Lemma path_data_no_name s p : fs_names s !! p = None -> path_data s p = None.
Proof. intros E. unfold path_data. by rewrite E. Qed.

Lemma path_data_is_name s p d :
  path_data s p = Some d -> exists h, fs_names s !! p = Some h /\ file_data s h = d.
Proof.
  unfold path_data, file_data. destruct (fs_names s !! p) as [h|]; [|done]. cbn [mbind option_bind].
  destruct (fs_inodes s !! h) as [i|] eqn:Ei; [|done]. intros [= <-]. exists h. by rewrite Ei.
Qed.

(** ** [touches] *)

Lemma good_proper s s' : same_store s s' -> good s -> good s'.
Proof.
  intros (Ei & En & _ & _ & _ & Ex) [[W1 W2] U]. split; [split|]; intros ?.
  - rewrite <- Ei, <- En. apply W1.
  - rewrite <- Ei, <- Ex. apply W2.
  - intros ? ?. rewrite <- En. apply U.
Qed.

Lemma touches_same ps s s' : good s -> stays s s' -> touches ps s s'.
Proof.
  intros Hg [Hs Hq]. pose proof Hs as (Ei & En & _ & Ed & _ & _). split.
  - by eapply good_proper.
  - intros. by rewrite En.
  - intros. by rewrite Hs.
  - intros h [H1 H2]. split; [split; [by rewrite <- Ei|by rewrite <- En]|by rewrite Hs].
  - by rewrite Ed.
  - done.
Qed.

Lemma touches_refl ps s : good s -> touches ps s s.
Proof. intros Hg. by apply touches_same. Qed.

Lemma touches_trans ps s t u : touches ps s t -> touches ps t u -> touches ps s u.
Proof.
  intros [G1 N1 D1 S1 F1 Q1] [G2 N2 D2 S2 F2 Q2]. split; [done|..|auto].
  - intros q Hq. by rewrite N2, N1.
  - intros q Hq. by rewrite D2, D1.
  - intros h Hh. destruct (S1 h Hh) as [Hh1 E1]. destruct (S2 h Hh1) as [Hh2 E2].
    split; [done|congruence].
  - by transitivity (fs_dirs t).
Qed.

Lemma touches_mono ps ps' s t : ps ⊆ ps' -> touches ps s t -> touches ps' s t.
Proof.
  intros Hsub [G N D S F Q]. split; [done|..|done|done|done]; intros q Hq; [apply N|apply D];
    intros Hq'; by apply Hq, Hsub.
Qed.

(** Nothing changed outside the directory [dir], and no fault appeared. *)
Record inside (dir : string) (s s' : FsState) : Prop := mkInside {
  in_quiet : quiet s -> quiet s';
  in_dirs : fs_dirs s ⊆ fs_dirs s';
  in_names : forall q, p_dir q <> dir -> fs_names s' !! q = fs_names s !! q;
  in_data : forall q, p_dir q <> dir -> path_data s' q = path_data s q
}.

#[export] Instance inside_preorder dir : PreOrder (inside dir).
Proof.
  split.
  - by split.
  - intros s t u [Q1 F1 N1 D1] [Q2 F2 N2 D2]. split; [auto|by etrans|..]; intros q Hq; [by rewrite N2, N1|by rewrite D2, D1].
Qed.

Lemma touches_inside ps dir s s' :
  touches ps s s' -> Forall (fun p => p_dir p = dir) ps -> inside dir s s'.
Proof.
  intros Ht Hps. rewrite Forall_forall in Hps. split; [apply Ht|apply Ht|..]; intros q Hq; apply Ht; naive_solver.
Qed.

Lemma stays_inside dir s s' : stays s s' -> inside dir s s'.
Proof.
  intros [Hs Hq]. pose proof Hs as (_ & En & _ & Ed & _). split; [done|by rewrite Ed|..]; intros q _; [by rewrite En|by rewrite Hs].
Qed.

(** ** The operations *)

(** Bytes appended to the file at [p]. *)
Lemma appended_touches p h x s s' :
  good s -> plain p -> fs_names s !! p = Some h -> appended h x s s' -> (quiet s -> quiet s') ->
  touches [p] s s' /\ path_data s' p = (fun d => d ++ x) <$> path_data s p /\
  fs_names s' = fs_names s.
Proof.
  intros [[W1 W2] U] Hp En (Hd & Hv & Hn & _ & Hdir & _ & Hx) Hqt.
  assert (good s') as Hg'.
  { split; [split|].
    - intros q g. rewrite Hn. intros Hq. apply Hv. by eapply W1.
    - intros g Hg. rewrite Hx. apply W2. by apply Hv.
    - intros q r g. rewrite Hn. apply U. }
  assert (forall q g, fs_names s !! q = Some g ->
    path_data s' q = Some (file_data s' g) /\ path_data s q = Some (file_data s g)) as Hpd.
  { intros q g Hq. split; apply path_data_names; [by rewrite Hn|apply Hg'|done|by split]. }
  split; [split|split].
  - done.
  - intros. by rewrite Hn.
  - intros q Hq. destruct (fs_names s !! q) as [g|] eqn:Eq.
    + destruct (Hpd q g Eq) as [-> ->]. rewrite Hd. rewrite decide_False; [done|].
      intros ->. apply Hq, list_elem_of_singleton. symmetry. by eapply U.
    + rewrite !path_data_no_name by (by rewrite ?Hn). done.
  - intros g [Hg1 Hg2]. split; [split; [by apply Hv|by rewrite Hn]|].
    rewrite Hd. rewrite decide_False; [done|]. intros ->. by apply (Hg2 p).
  - by rewrite Hdir.
  - done.
  - destruct (Hpd p h En) as [-> ->]. rewrite Hd, decide_True by done. done.
  - done.
Qed.

(** Creating or truncating the file at [p]. *)
Lemma wp_open_truncate p s (Q : outcome Handle -> FsState -> Prop) :
  good s -> plain p ->
  (forall k s', stays s s' -> (quiet s -> p_dir p ∉ fs_dirs s) -> Q (Err (Io k)) s') ->
  (forall h s', touches [p] s s' -> fs_names s' !! p = Some h -> path_data s' p = Some [] ->
     Q (Ok h) s') ->
  wp (open p Truncate) s Q.
Proof.
  intros Hg Hp Herr Hok. unfold wp. destruct (open p Truncate s) as [o s'] eqn:E. cbn [fst snd].
  destruct (guarded_cases (h ← open_or_create p;
      _ ← modify (fun s => set_inodes (alter (fun _ => mkInode [] 0) h (fs_inodes s)) s); mret h) s)
      as [(k & t & E' & Hs & Hnq)|(f & E' & Hst)]; pose proof E as E0; unfold open in E0; rewrite E' in E0.
  { injection E0 as <- <-. apply Herr; [|done]. by split. }
  unfold open_or_create, create_inode, mbind, ST_bind in E0. cbn [fs_names set_faults fs_dirs] in E0.
  destruct o as [h|e|].
  2: { destruct (fs_names s !! p); [done|]. case_bool_decide; [done|]. injection E0 as <- <-.
    by apply Herr. }
  2: { destruct (fs_names s !! p); [done|]. by case_bool_decide. }
  assert (quiet s -> quiet s') as Hqt.
  { intros Hq. apply Hst in Hq. clear -E0 Hq. destruct (fs_names s !! p); [by injection E0 as _ <-|].
    case_bool_decide; [|done]. by injection E0 as _ <-. }
  clear E0. destruct (open_truncate_ok p s h s' (proj1 Hg) E) as (W' & Hn & Hi & Hold & Hoth & Hdir & _).
  destruct Hg as [[W1 W2] U].
  assert (forall q, fs_names s !! q = Some h -> q = p) as Hsole.
  { intros q Hq. destruct Hold as [Hp'|[_ Hnone]]; [symmetry; by eapply U|].
    destruct (W1 _ _ Hq) as [i Hi']. congruence. }
  apply Hok; [split| |].
  - split; [done|]. intros q r g Hq. rewrite !Hn, !lookup_insert.
    repeat case_decide; subst; intros E1 E2; simplify_eq; [done|..].
    + symmetry. by apply Hsole.
    + by apply Hsole.
    + by eapply U.
  - intros q Hq. rewrite Hn, lookup_insert_ne; [done|]. intros ->. by apply Hq, list_elem_of_singleton.
  - intros q Hq. unfold path_data.
    assert (p <> q) as Hne by (intros ->; by apply Hq, list_elem_of_singleton).
    rewrite Hn, lookup_insert_ne by done.
    destruct (fs_names s !! q) as [g|] eqn:Eq; [|done]. cbn [mbind option_bind].
    rewrite Hoth; [done|]. intros ->. apply Hne. symmetry. by apply Hsole.
  - intros g [Hg1 Hg2]. assert (g <> h) as Hne.
    { intros ->. destruct Hold as [Hp'|[_ Hnone]]; [by eapply Hg2|].
      rewrite Hnone in Hg1. by destruct Hg1. }
    split; [split|].
    + by rewrite Hoth.
    + intros q Hq. rewrite Hn, lookup_insert. case_decide; [congruence|by apply Hg2].
    + unfold file_data. by rewrite Hoth.
  - by rewrite Hdir.
  - done.
  - by rewrite Hn, lookup_insert_eq.
  - unfold path_data. rewrite Hn, lookup_insert_eq. cbn [mbind option_bind]. by rewrite Hi.
Qed.

(** A rename of a plain file. *)
Lemma wp_rename src dst s (Q : outcome unit -> FsState -> Prop) :
  good s -> plain src -> src <> dst ->
  (forall k s', stays s s' -> (quiet s -> fs_names s !! src = None) -> Q (Err (Io k)) s') ->
  (forall s', touches [src; dst] s s' -> path_data s' dst = path_data s src ->
     path_data s' src = None -> fs_names s' !! src = None ->
     fs_names s' !! dst = fs_names s !! src -> is_Some (fs_names s !! src) -> Q (Ok tt) s') ->
  wp (rename src dst) s Q.
Proof.
  intros [[W1 W2] U] Hsrc Hne Herr Hok. unfold wp, rename.
  match goal with |- context [guarded ?op s] =>
    destruct (guarded_cases op s) as [(k & t & -> & Hs & Hnq)|(f & -> & Hst)] end; cbn [fst snd].
  { apply Herr; [|done]. by split. }
  cbn [fs_names set_faults]. destruct (fs_names s !! src) as [h|] eqn:Es; cbn [fst snd].
  2: { by apply Herr. }
  set (n := <[dst := h]> (delete src (fs_names s))).
  assert (forall q g, n !! q = Some g -> q = dst /\ g = h \/ q <> src /\ q <> dst /\ fs_names s !! q = Some g)
    as Hn.
  { intros q g. subst n. rewrite lookup_insert. case_decide; [intros [= <-]; subst; by left|].
    rewrite lookup_delete. case_decide; [done|]. right. split_and!; congruence. }
  apply Hok; [split| | | | |done].
  - split; [split|]; cbn.
    + intros q g Hq. destruct (Hn q g Hq) as [[_ ->]|(_ & _ & Hq')]; by eapply W1.
    + exact W2.
    + intros q r g Hq E1 E2.
      destruct (Hn q g E1) as [[-> ->]|(Hq1 & Hq2 & E1')], (Hn r _ E2) as [[-> Eh]|(Hr1 & Hr2 & E2')];
        [done|..].
      * exfalso. apply Hr1. symmetry. by apply (U src r h).
      * subst g. exfalso. apply Hq1. by apply (U q src h).
      * by eapply U.
  - intros q Hq. cbn. subst n. rewrite not_elem_of_cons, list_elem_of_singleton in Hq.
    rewrite lookup_insert_ne, lookup_delete_ne by naive_solver. done.
  - intros q Hq. unfold path_data. cbn. subst n. rewrite not_elem_of_cons, list_elem_of_singleton in Hq.
    rewrite lookup_insert_ne, lookup_delete_ne by naive_solver. done.
  - intros g [Hg1 Hg2]. split; [split; [done|]|done]. intros q Hq. cbn.
    intros E1. destruct (Hn q g E1) as [[-> ->]|(_ & _ & E1')]; [by apply (Hg2 src)|by apply (Hg2 q)].
  - done.
  - intros Hq. apply Hst in Hq. done.
  - unfold path_data. cbn. subst n. rewrite lookup_insert_eq, Es. done.
  - unfold path_data. cbn. subst n. by rewrite lookup_insert_ne, lookup_delete_eq by done.
  - cbn. subst n. by rewrite lookup_insert_ne, lookup_delete_eq by done.
  - cbn. subst n. by rewrite lookup_insert_eq.
Qed.

(** Removing a name. *)
Lemma wp_remove p s (Q : outcome unit -> FsState -> Prop) :
  good s ->
  (forall k s', stays s s' -> (quiet s -> fs_names s !! p = None) -> Q (Err (Io k)) s') ->
  (forall s', touches [p] s s' -> fs_names s' !! p = None -> Q (Ok tt) s') ->
  wp (remove p) s Q.
Proof.
  intros [[W1 W2] U] Herr Hok. unfold wp, remove.
  match goal with |- context [guarded ?op s] =>
    destruct (guarded_cases op s) as [(k & t & -> & Hs & Hnq)|(f & -> & Hst)] end; cbn [fst snd].
  { apply Herr; [|done]. by split. }
  cbn [fs_names set_faults]. destruct (fs_names s !! p) as [h|] eqn:Es; cbn [fst snd].
  2: { by apply Herr. }
  assert (forall q g, delete p (fs_names s) !! q = Some g -> q <> p /\ fs_names s !! q = Some g) as Hn.
  { intros q g. rewrite lookup_delete. case_decide; [done|]. split; congruence. }
  apply Hok; [split|].
  - split; [split|]; cbn.
    + intros q g [_ Hq]%Hn. by eapply W1.
    + exact W2.
    + intros q r g Hq [_ E1]%Hn [_ E2]%Hn. by eapply U.
  - intros q Hq. cbn. rewrite list_elem_of_singleton in Hq. by rewrite lookup_delete_ne by naive_solver.
  - intros q Hq. unfold path_data. cbn. rewrite list_elem_of_singleton in Hq.
    by rewrite lookup_delete_ne by naive_solver.
  - intros g [Hg1 Hg2]. split; [split; [done|]|done]. intros q Hq. cbn.
    intros [_ E1]%Hn. by apply (Hg2 q).
  - done.
  - intros Hq. apply Hst in Hq. done.
  - cbn. by rewrite lookup_delete_eq.
Qed.

(** Syncing a directory. *)
Lemma wp_sync_dir dir s (Q : outcome unit -> FsState -> Prop) :
  good s ->
  (forall k s', stays s s' -> ~ quiet s -> Q (Err (Io k)) s') ->
  (forall s', touches [] s s' -> fs_names s' = fs_names s -> fs_inodes s' = fs_inodes s -> Q (Ok tt) s') ->
  wp (sync_dir dir) s Q.
Proof.
  intros Hg Herr Hok. unfold wp, sync_dir.
  match goal with |- context [guarded ?op s] =>
    destruct (guarded_cases op s) as [(k & t & -> & Hs & Hnq)|(f & -> & Hst)] end; cbn [fst snd].
  { apply Herr; [|done]. by split. }
  apply Hok; [split|..]; try done. intros Hq. apply Hst in Hq. done.
Qed.

(** A raw append to the file at [p]. *)
Lemma wp_append p h x s (Q : outcome unit -> FsState -> Prop) :
  good s -> plain p -> fs_names s !! p = Some h ->
  (forall k s', touches [p] s s' -> fs_names s' = fs_names s -> ~ quiet s -> Q (Err (Io k)) s') ->
  (forall s', touches [p] s s' -> fs_names s' = fs_names s ->
     path_data s' p = (fun d => d ++ x) <$> path_data s p -> Q (Ok tt) s') ->
  wp (append h x) s Q.
Proof.
  intros Hg Hp Hn Herr Hok. unfold wp.
  destruct (append_cases h x s) as (w & o & s' & -> & Hs & _ & Ho & Hq). cbn [fst snd].
  destruct (appended_touches p h w s s' Hg Hp Hn) as (Ht & Hd & Hnm).
  { apply appended_write; [|done]. by eapply (proj1 Hg). }
  { apply Hq. }
  destruct Ho as [[-> ->]|[k ->]]; [by apply Hok|apply Herr; try done]. by intros [? _]%Hq.
Qed.

(** A sync changes no contents. *)
Lemma wp_sync p h mode s (Q : outcome unit -> FsState -> Prop) :
  good s -> plain p -> fs_names s !! p = Some h ->
  (forall o s', touches [] s s' -> fs_names s' = fs_names s -> path_data s' p = path_data s p ->
     o = Ok tt \/ (exists k, o = Err (Io k)) -> (quiet s -> o = Ok tt) -> Q o s') ->
  wp (sync_as h mode) s Q.
Proof.
  intros Hg Hp Hn Hok. unfold wp.
  destruct (sync_as_cases h mode s) as (o & s' & -> & Ha & Ho & Hq). cbn [fst snd].
  destruct (appended_touches p h [] s s' Hg Hp Hn (Ha h)) as ([G N D S F Qt] & Hd & Hnm); [apply Hq|].
  assert (path_data s' p = path_data s p) as Hpd.
  { rewrite Hd. destruct (path_data s p); simpl; by rewrite ?app_nil_r. }
  apply Hok; [|try done..]; [|by intros [? _]%Hq]. split; [done|..|done|done|done].
  - intros q _. by rewrite Hnm.
  - intros q _. destruct (decide (q = p)) as [->|Hqp]; [done|]. apply D. by rewrite list_elem_of_singleton.
Qed.

(** An I/O error that a fault of the script explains. *)
Definition io_fault (s : FsState) (e : Error) : Prop := (exists k, e = Io k) /\ ~ quiet s.

Lemma io_fault_stays s s' e : stays s s' -> io_fault s' e -> io_fault s e.
Proof. intros Hs [Hk Hq]. split; [done|]. by eapply stays_quiet. Qed.

(** ** Reading *)

Lemma wp_read_exact h off n s (Q : outcome bytes -> FsState -> Prop) :
  off + n <= len (file_data s h) ->
  (forall e s', stays s s' -> io_fault s e -> Q (Err e) s') ->
  (forall s', stays s s' -> Q (Ok (sub_list off (off + n) (file_data s h))) s') ->
  wp (read_exact_at h off n) s Q.
Proof.
  intros Hlen Herr Hok. unfold wp. destruct (decide (fs_dead s = false /\ fs_faults s = [])) as [Hq|Hq].
  { rewrite read_exact_quiet by done. by apply Hok. }
  destruct (read_exact_at_spec h off n s) as (s' & Hs & [[k ->]|[-> _]]);
    [apply Herr|apply Hok]; try by apply stays_fault. split; [eauto|done].
Qed.

Lemma wp_file_size h s (Q : outcome N -> FsState -> Prop) :
  (forall e s', stays s s' -> io_fault s e -> Q (Err e) s') ->
  (forall s', stays s s' -> Q (Ok (len (file_data s h))) s') ->
  wp (file_size h) s Q.
Proof.
  intros Herr Hok. unfold wp, file_size.
  destruct (guarded_cases (gets (fun s => len (file_data s h))) s) as [(k & s' & -> & Hs & Hq)|(f & -> & Hs)].
  - apply Herr; [by apply stays_fault|]. split; [eauto|done].
  - by apply (Hok (set_faults f s)).
Qed.

Lemma wp_open_read p s (Q : outcome Handle -> FsState -> Prop) :
  is_Some (fs_names s !! p) ->
  (forall e s', stays s s' -> io_fault s e -> Q (Err e) s') ->
  (forall h s', stays s s' -> fs_names s !! p = Some h -> Q (Ok h) s') ->
  wp (open p Read) s Q.
Proof.
  intros [g Hg] Herr Hok. unfold wp.
  destruct (open_read_cases p s) as [(k & s' & -> & Hs & Hq)|(h & s' & -> & Hs & Hn)]; [|by apply Hok].
  assert (~ quiet s) by (intros ?%Hq; congruence).
  apply Herr; [by apply stays_fault|]. split; [eauto|done].
Qed.

(** ** Programs on a buffer over the file at [p] *)

(** The writes of a buffered program: a prefix of the bytes reaches the file. *)
Lemma buf_writes_touches p xs b s :
  good s -> plain p -> fs_names s !! p = Some (ba_file b) ->
  exists w o b' s', for_each xs buf_write (b, s) = (o, (b', s')) /\
    touches [p] s s' /\ fs_names s' = fs_names s /\ ba_file b' = ba_file b /\
    path_data s' p = (fun d => d ++ w) <$> path_data s p /\ w `prefix_of` ba_buf b ++ concat xs /\
    ((o = Ok tt /\ w ++ ba_buf b' = ba_buf b ++ concat xs) \/ exists k, o = Err (Io k)) /\
    (quiet s -> o = Ok tt).
Proof.
  intros Hg Hp Hn.
  destruct (buf_writes_cases xs b s) as (w & o & b' & s' & E & Hs & Hpre & Hf & _ & Ho & Hq).
  destruct (appended_touches p (ba_file b) w s s' Hg Hp Hn) as (Ht & Hd & Hnm).
  { apply appended_write; [|done]. by eapply (proj1 Hg). }
  { apply Hq. }
  exists w, o, b', s'. split_and!; try done; [|by intros [? _]%Hq].
  destruct Ho as [?|(k & -> & _)]; [by left|right; eauto].
Qed.

Lemma buf_flush_touches p b s :
  good s -> plain p -> fs_names s !! p = Some (ba_file b) ->
  exists w o b' s', buf_flush (b, s) = (o, (b', s')) /\
    touches [p] s s' /\ fs_names s' = fs_names s /\ ba_file b' = ba_file b /\
    path_data s' p = (fun d => d ++ w) <$> path_data s p /\ w `prefix_of` ba_buf b /\
    ((o = Ok tt /\ w = ba_buf b /\ ba_buf b' = []) \/ exists k, o = Err (Io k)) /\
    (quiet s -> o = Ok tt).
Proof.
  intros Hg Hp Hn.
  destruct (buf_flush_cases b s) as (w & o & b' & s' & E & Hs & Hpre & Hf & _ & Ho & Hq).
  destruct (appended_touches p (ba_file b) w s s' Hg Hp Hn) as (Ht & Hd & Hnm).
  { apply appended_write; [|done]. by eapply (proj1 Hg). }
  { apply Hq. }
  exists w, o, b', s'. split_and!; try done; [|by intros [? _]%Hq].
  destruct Ho as [?|(k & -> & _)]; [by left|right; eauto].
Qed.

(** Writes and [BufAppend::sync]: the file holds all the bytes if it returns [Ok]. *)
Lemma buf_sync_prog_touches p xs b s :
  good s -> plain p -> fs_names s !! p = Some (ba_file b) ->
  exists w o b' s', (_ ← for_each xs buf_write; buf_sync) (b, s) = (o, (b', s')) /\
    touches [p] s s' /\ fs_names s' = fs_names s /\ ba_file b' = ba_file b /\
    path_data s' p = (fun d => d ++ w) <$> path_data s p /\ w `prefix_of` ba_buf b ++ concat xs /\
    ((o = Ok tt /\ w = ba_buf b ++ concat xs /\ ba_buf b' = []) \/ exists k, o = Err (Io k)) /\
    (quiet s -> o = Ok tt).
Proof.
  intros Hg Hp Hn.
  destruct (buf_writes_touches p xs b s Hg Hp Hn)
    as (w & o & b1 & s1 & E & Ht & Hnm & Hf & Hd & Hpre & [[-> Hw]|[k ->]] & Hq).
  2: { rewrite (bind_run_err _ _ _ _ _ E). exists w. eexists _, b1, s1. split_and!; try done. right. eauto. }
  run E. unfold buf_sync.
  destruct (buf_flush_touches p b1 s1 (touches_good _ _ _ Ht) Hp) as
    (w2 & o & b2 & s2 & E2 & Ht2 & Hnm2 & Hf2 & Hd2 & Hpre2 & Ho & Hq2); [congruence|].
  assert (path_data s2 p = (fun d => d ++ (w ++ w2)) <$> path_data s p) as Hd'.
  { rewrite Hd2, Hd. destruct (path_data s p); simpl; [|done]. by rewrite app_assoc. }
  pose proof (touches_trans _ _ _ _ Ht Ht2) as Ht'.
  assert (w ++ w2 `prefix_of` ba_buf b ++ concat xs) as Hpre' by (rewrite <- Hw; by apply prefix_app).
  destruct Ho as [(-> & -> & Hb)|[k ->]].
  2: { rewrite (bind_run_err _ _ _ _ _ E2). exists (w ++ w2). eexists _, b2, s2.
    split_and!; try done; [congruence|congruence|right; eauto|].
    intros ?%(touches_quiet _ _ _ Ht). by apply Hq2. }
  run E2. rewrite bind_gets. unfold attempt, on_fs, zoom, file_sync, mbind, ST_bind. cbn [fst snd].
  rewrite Hf2, Hf.
  assert (wp (sync_as (ba_file b) Durable) s2 (fun o s3 =>
    touches [p] s2 s3 /\ fs_names s3 = fs_names s2 /\ path_data s3 p = path_data s2 p /\
    (o = Ok tt \/ exists k, o = Err (Io k)) /\ (quiet s2 -> o = Ok tt))) as Hsync.
  { apply (wp_sync p); [apply Ht2|done|congruence|]. intros o s3 Ht3 Hn3 Hd3 Ho3 Hq3.
    split_and!; try done. eapply touches_mono; [|exact Ht3]. apply list_subseteq_nil. }
  unfold wp in Hsync. destruct (sync_as (ba_file b) Durable s2) as [o s3]. cbn [fst snd] in Hsync.
  destruct Hsync as (Ht3 & Hn3 & Hd3 & Ho3 & Hq3).
  exists (w ++ ba_buf b1).
  destruct Ho3 as [->|[k ->]]; eexists _, _, s3; (split_and!; [done|..]); try done;
    try (by eapply touches_trans); try congruence; cbn [fst set_failed ba_file]; try congruence.
  - left. split_and!; done.
  - right. eauto.
  - intros ?%(touches_quiet _ _ _ Ht'). by discriminate Hq3.
Qed.

(** An empty directory. *)
Definition empty_dir (dir : string) (faults : list (option Fault)) : FsState :=
  mkFs ∅ ∅ ∅ {[dir]} ∅ 0 faults false.

Lemma empty_dir_good dir faults : good (empty_dir dir faults).
Proof.
  split; [split|].
  - intros p h. cbn. by rewrite lookup_empty.
  - intros h [i Hi]. cbn in Hi. by rewrite lookup_empty in Hi.
  - intros p q h _. cbn. by rewrite lookup_empty.
Qed.

Lemma empty_dir_dirs dir faults : dir ∈ fs_dirs (empty_dir dir faults).
Proof. unfold empty_dir. cbn [fs_dirs]. set_solver. Qed.
