(* ===== verification/Records.v ===== *)
(** * Records and their encoding (src/src/record.rs)

    A record is one versioned mutation; its payload is
    [[seq:8][type:1][key_len:4][key][val_len:4][val]], little-endian. *)
From Stdlib Require Import NArith Lia.
From stdpp Require Import base numbers list strings pretty.
From S2P Require Import Prelude Errors.

Local Open Scope N_scope.

(** [struct Record]; [r_value = None] is a tombstone. *)
Record Rec := mkRec {
  r_key : bytes;
  r_value : option bytes;
  r_seq : N
}.

#[export] Instance Rec_eq_dec : EqDecision Rec.
Proof. solve_decision. Defined.

(** [Record::put] and [Record::tombstone]. *)
Definition put (key value : bytes) (seq : N) : Rec := mkRec key (Some value) seq.
Definition tombstone (key : bytes) (seq : N) : Rec := mkRec key None seq.

(** [Record::encoded_len]. *)
Definition encoded_len (r : Rec) : N :=
  8 + 1 + 4 + len (r_key r) + 4 + from_option (fun v => len v) 0 (r_value r).

(** [Record::encode_into]: what is appended to the buffer. *)
Definition encode_into (buf : bytes) (r : Rec) : bytes :=
  let buf := buf ++ le_bytes 8 (r_seq r) in
  let buf := buf ++ [if r_value r is Some _ then x00 else x01] in
  let buf := buf ++ le_bytes 4 (as_u32 (len (r_key r))) in
  let buf := buf ++ r_key r in
  match r_value r with
  | Some v => (buf ++ le_bytes 4 (as_u32 (len v))) ++ v
  | None => buf ++ le_bytes 4 0
  end.

(** [Record::encode]. *)
Definition encode (r : Rec) : bytes := encode_into [] r.

(** [struct Reader], a bounds-checked cursor. *)
Record Reader := mkReader { rd_buf : bytes; rd_pos : N }.

(** [Reader::bytes]. *)
Definition reader_bytes (r : Reader) (n : N) : outcome (bytes * Reader) :=
  e ← ok_or (checked_add_within (rd_pos r) n (len (rd_buf r))) (Corrupt "record truncated");
  out ← slice (rd_buf r) (rd_pos r) e;
  mret (out, mkReader (rd_buf r) e).

(** [Reader::u8], [Reader::u32], [Reader::u64]. *)
Definition reader_u8 (r : Reader) : outcome (N * Reader) :=
  '(b, r) ← reader_bytes r 1;
  x ← (y ← index b 0; mret (byte_val y));
  mret (x, r).

Definition reader_u32 (r : Reader) : outcome (N * Reader) :=
  '(b, r) ← reader_bytes r 4;
  x ← from_le 4 b;
  mret (x, r).

Definition reader_u64 (r : Reader) : outcome (N * Reader) :=
  '(b, r) ← reader_bytes r 8;
  x ← from_le 8 b;
  mret (x, r).

(** [Record::decode_at]: the record and the advanced position. *)
Definition decode_at (buf : bytes) (pos : N) : outcome (Rec * N) :=
  let r := mkReader buf pos in
  '(seq, r) ← reader_u64 r;
  '(kind, r) ← reader_u8 r;
  '(key_len, r) ← reader_u32 r;
  '(key, r) ← reader_bytes r key_len;
  '(val_len, r) ← reader_u32 r;
  '(val, r) ← reader_bytes r val_len;
  value ← (if kind =? 0 then Ok (Some val)
           else if kind =? 1 then Ok None
           else Err (Corrupt ("bad record type " +:+ pretty kind)));
  mret (mkRec key value seq, rd_pos r).

(** What the types and the [as u32] casts leave to the caller: a [u64]
    sequence number and lengths that fit their four bytes. *)
Definition wf_rec (r : Rec) : Prop :=
  r_seq r <= U64_MAX /\ len (r_key r) <= U32_MAX /\
  from_option (fun v => len v) 0 (r_value r) <= U32_MAX.

#[export] Instance wf_rec_dec r : Decision (wf_rec r).
Proof. unfold wf_rec. apply _. Defined.

(** ** Lemmas *)

Lemma encode_into_app buf r : encode_into buf r = buf ++ encode r.
Proof.
  unfold encode, encode_into. destruct (r_value r); rewrite <- ?app_assoc; reflexivity.
Qed.

Lemma encode_layout r :
  encode r =
    le_bytes 8 (r_seq r) ++ [if r_value r is Some _ then x00 else x01] ++
    le_bytes 4 (as_u32 (len (r_key r))) ++ r_key r ++
    le_bytes 4 (as_u32 (from_option (fun v => len v) 0 (r_value r))) ++ default [] (r_value r).
Proof.
  unfold encode, encode_into. destruct (r_value r); rewrite <- ?app_assoc; simpl;
    rewrite ?app_nil_r; reflexivity.
Qed.

Lemma length_encode r : len (encode r) = encoded_len r.
Proof.
  rewrite encode_layout. unfold encoded_len. destruct (r_value r); simpl; len.
Qed.

Lemma encoded_len_ge r : 17 <= encoded_len r.
Proof. unfold encoded_len. lia. Qed.

(** Reads of bytes and integers that are there. *)
Lemma reader_bytes_at buf p m q pos n :
  buf = p ++ m ++ q -> pos = len p -> n = len m ->
  reader_bytes (mkReader buf pos) n = Ok (m, mkReader buf (pos + n)).
Proof.
  intros -> -> ->. unfold reader_bytes, checked_add_within; cbn [rd_pos rd_buf].
  rewrite (proj2 (N.leb_le _ _)) by len. simpl. by rewrite slice_app.
Qed.

Lemma reader_u32_at buf p q v pos :
  buf = p ++ le_bytes 4 v ++ q -> pos = len p -> v <= U32_MAX ->
  reader_u32 (mkReader buf pos) = Ok (v, mkReader buf (pos + 4)).
Proof.
  intros ???. unfold reader_u32. rewrite (reader_bytes_at buf p (le_bytes 4 v) q) by (done || len).
  obind. by rewrite from_le_u32.
Qed.

Lemma reader_u64_at buf p q v pos :
  buf = p ++ le_bytes 8 v ++ q -> pos = len p -> v <= U64_MAX ->
  reader_u64 (mkReader buf pos) = Ok (v, mkReader buf (pos + 8)).
Proof.
  intros ???. unfold reader_u64. rewrite (reader_bytes_at buf p (le_bytes 8 v) q) by (done || len).
  obind. by rewrite from_le_u64.
Qed.

Lemma reader_u8_at buf p q b pos :
  buf = p ++ [b] ++ q -> pos = len p ->
  reader_u8 (mkReader buf pos) = Ok (byte_val b, mkReader buf (pos + 1)).
Proof. intros. unfold reader_u8. by rewrite (reader_bytes_at buf p [b] q). Qed.

(** A read either succeeds within the buffer or says the record is truncated. *)
Lemma reader_bytes_cases buf pos n :
  (pos + n <= len buf /\
   reader_bytes (mkReader buf pos) n =
     Ok (sub_list (pos) (pos + n) buf, mkReader buf (pos + n)))
  \/ (len buf < pos + n /\ reader_bytes (mkReader buf pos) n = Err (Corrupt "record truncated")).
Proof.
  unfold reader_bytes, checked_add_within; cbn [rd_pos rd_buf].
  destruct (N.leb_spec (pos + n) (len buf)); simpl; [|by right].
  left. rewrite slice_in by lia. done.
Qed.

(** The integer reads, on any buffer. *)
Lemma reader_u32_cases buf pos :
  (exists v, v <= U32_MAX /\ pos + 4 <= len buf /\
     reader_u32 (mkReader buf pos) = Ok (v, mkReader buf (pos + 4)))
  \/ reader_u32 (mkReader buf pos) = Err (Corrupt "record truncated").
Proof.
  unfold reader_u32. destruct (reader_bytes_cases buf pos 4) as [[Hp ->]|[_ ->]]; [left|by right].
  assert (length (sub_list (pos) (pos + 4) buf) = 4%nat) as Hl
    by (pose proof (length_sub_list (pos) (pos + 4) buf); lia).
  simpl. rewrite from_le_ok by done. simpl. eauto using le_value_u32_bound.
Qed.

Lemma reader_u64_cases buf pos :
  (exists v, v <= U64_MAX /\ pos + 8 <= len buf /\
     reader_u64 (mkReader buf pos) = Ok (v, mkReader buf (pos + 8)))
  \/ reader_u64 (mkReader buf pos) = Err (Corrupt "record truncated").
Proof.
  unfold reader_u64. destruct (reader_bytes_cases buf pos 8) as [[Hp ->]|[_ ->]]; [left|by right].
  assert (length (sub_list (pos) (pos + 8) buf) = 8%nat) as Hl
    by (pose proof (length_sub_list (pos) (pos + 8) buf); lia).
  simpl. rewrite from_le_ok by done. simpl. eauto using le_value_u64_bound.
Qed.

Lemma reader_u8_cases buf pos :
  (exists v, v < 256 /\ pos + 1 <= len buf /\
     reader_u8 (mkReader buf pos) = Ok (v, mkReader buf (pos + 1)))
  \/ reader_u8 (mkReader buf pos) = Err (Corrupt "record truncated").
Proof.
  unfold reader_u8. destruct (reader_bytes_cases buf pos 1) as [[Hp ->]|[_ ->]]; [left|by right].
  pose proof (length_sub_list (pos) (pos + 1) buf) as Hl.
  destruct (sub_list _ _ _) as [|b [|]] eqn:E; simpl in Hl; try lia.
  exists (byte_val b). simpl. eauto using byte_val_lt.
Qed.

#[global] Arguments reader_bytes : simpl never.

(** Close [buf = p ++ m ++ q] and length goals about a buffer written out as a
    sum of pieces. *)
Ltac pieces := first [ rewrite <- !app_assoc; reflexivity | len ].

(** [decode_at] inverts [encode_into] wherever the record lies in the buffer. *)
Lemma decode_encode_at p r q :
  wf_rec r -> decode_at (p ++ encode r ++ q) (len p) = Ok (r, len p + encoded_len r).
Proof.
  intros (Hs & Hk & Hv). destruct r as [k v s]; cbn [r_seq r_key r_value] in *.
  rewrite encode_layout; cbn [r_seq r_key r_value]. rewrite !as_u32_small by done.
  set (fl := if v is Some _ then x00 else x01). set (vl := from_option _ _ v).
  unfold decode_at.
  rewrite (reader_u64_at _ p _ s) by (done || pieces). obind.
  rewrite (reader_u8_at _ (p ++ le_bytes 8 s) _ fl) by pieces. obind.
  rewrite (reader_u32_at _ (p ++ le_bytes 8 s ++ [fl]) _ (len k)) by (done || pieces).
  obind.
  rewrite (reader_bytes_at _ (p ++ le_bytes 8 s ++ [fl] ++ le_bytes 4 (len k)) k (le_bytes 4 vl ++ default [] v ++ q)) by pieces.
  obind.
  rewrite (reader_u32_at _ (p ++ le_bytes 8 s ++ [fl] ++ le_bytes 4 (len k) ++ k) _ vl)
    by (done || pieces).
  obind.
  rewrite (reader_bytes_at _
    (p ++ le_bytes 8 s ++ [fl] ++ le_bytes 4 (len k) ++ k ++ le_bytes 4 vl) (default [] v) q)
    by first [ rewrite <- !app_assoc; reflexivity | len; subst vl; by destruct v ].
  subst fl vl. unfold encoded_len. destruct v; simpl; do 2 f_equal; lia.
Qed.

(** On any bytes a decode is a well-formed record inside the buffer or
    [Error::Corrupt]; it never panics. *)
Lemma decode_at_cases buf pos :
  (exists r pos', decode_at buf pos = Ok (r, pos') /\ wf_rec r /\
     pos + 17 <= pos' /\ pos' <= len buf)
  \/ exists m, decode_at buf pos = Err (Corrupt m).
Proof.
  unfold decode_at.
  destruct (reader_u64_cases buf pos) as [(s & Hs & ? & ->) | ->]; obind; [|eauto].
  destruct (reader_u8_cases buf (pos + 8)) as [(t & Ht & ? & ->) | ->]; obind; [|eauto].
  destruct (reader_u32_cases buf (pos + 8 + 1)) as [(kl & Hkl & ? & ->) | ->];
    obind; [|eauto].
  destruct (reader_bytes_cases buf (pos + 8 + 1 + 4) kl) as [[Hk ->]|[_ ->]];
    obind; [|eauto].
  destruct (reader_u32_cases buf (pos + 8 + 1 + 4 + kl)) as [(vl & Hvl & ? & ->) | ->];
    obind; [|eauto].
  destruct (reader_bytes_cases buf (pos + 8 + 1 + 4 + kl + 4) vl) as [[Hv ->]|[_ ->]];
    obind; [|eauto].
  cbn [rd_buf rd_pos] in *.
  destruct (t =? 0); [|destruct (t =? 1)]; obind; [left..|right; eauto];
    eexists _, _; (split; [reflexivity|]); unfold wf_rec; cbn [r_seq r_key r_value from_option];
    rewrite !length_sub_list by lia; lia.
Qed.

(** A read looks only at the bytes it returns. *)
Lemma reader_bytes_extend buf pos n q b r :
  reader_bytes (mkReader buf pos) n = Ok (b, r) ->
  reader_bytes (mkReader (buf ++ q) pos) n = Ok (b, mkReader (buf ++ q) (rd_pos r)).
Proof.
  destruct (reader_bytes_cases buf pos n) as [[Hp ->]|[_ ->]]; [|done].
  cbn [rd_buf rd_pos] in *. intros [= <- <-].
  destruct (reader_bytes_cases (buf ++ q) pos n) as [[_ ->]|[Hq _]];
    cbn [rd_buf rd_pos] in *; [by rewrite sub_list_take by lia|len].
Qed.

(** The integer reads are local too: each is [reader_bytes] and a conversion. *)
Lemma reader_int_extend (f : bytes -> outcome N) buf pos w q v r :
  ('(b, r) ← reader_bytes (mkReader buf pos) w; x ← f b; mret (x, r)) = Ok (v, r) ->
  ('(b, r) ← reader_bytes (mkReader (buf ++ q) pos) w; x ← f b; mret (x, r))
    = Ok (v, mkReader (buf ++ q) (rd_pos r)).
Proof.
  intros H. apply bind_ok in H as ([b r'] & Hb & H). apply bind_ok in H as (x & Hx & [= -> ->]).
  rewrite (reader_bytes_extend _ _ _ q _ _ Hb). obind. by rewrite Hx.
Qed.

(** The position after a successful read, and the buffer, which never changes. *)
Lemma reader_bytes_buf buf pos n b r :
  reader_bytes (mkReader buf pos) n = Ok (b, r) -> r = mkReader buf (rd_pos r).
Proof.
  destruct (reader_bytes_cases buf pos n) as [[_ ->]|[_ ->]]; [|done].
  by intros [= <- <-].
Qed.

Lemma reader_int_buf (f : bytes -> outcome N) buf pos w v r :
  ('(b, r) ← reader_bytes (mkReader buf pos) w; x ← f b; mret (x, r)) = Ok (v, r) ->
  r = mkReader buf (rd_pos r).
Proof.
  intros H. apply bind_ok in H as ([b r'] & Hb & H). apply bind_ok in H as (x & Hx & [= -> ->]).
  by eapply reader_bytes_buf.
Qed.

(** One local read of a program: the bytes after the end of the buffer do not
    change it. *)
Ltac extend_read H q :=
  let v := fresh "v" in let r := fresh "r" in let Hr := fresh "Hr" in
  apply bind_ok in H as ([v r] & Hr & H);
  first [ let E := fresh in pose proof (reader_int_buf _ _ _ _ _ _ Hr) as E;
          apply (reader_int_extend _ _ _ _ q) in Hr
        | let E := fresh in pose proof (reader_bytes_buf _ _ _ _ _ Hr) as E;
          apply (reader_bytes_extend _ _ _ q) in Hr ];
  match goal with E : r = mkReader _ _ |- _ =>
    let p := fresh "p" in set (p := rd_pos r) in *; clearbody p; subst r end;
  cbn beta iota in H.

Lemma decode_at_extend buf pos q r pos' :
  decode_at buf pos = Ok (r, pos') -> decode_at (buf ++ q) pos = Ok (r, pos').
Proof.
  unfold decode_at, reader_u64, reader_u32, reader_u8. intros H.
  extend_read H q. extend_read H q. extend_read H q. extend_read H q. extend_read H q.
  extend_read H q. apply bind_ok in H as (x & Hx & [= <- <-]).
  rewrite Hr; obind. rewrite Hr0; obind. rewrite Hr1; obind. rewrite Hr2; obind.
  rewrite Hr3; obind. rewrite Hr4; obind. by rewrite Hx.
Qed.

(** Every proper prefix of a record's encoding is refused. *)
Lemma decode_truncated_at p r n :
  wf_rec r -> N.of_nat n < encoded_len r ->
  exists m, decode_at (p ++ take n (encode r)) (len p) = Err (Corrupt m).
Proof.
  intros Hwf Hn.
  destruct (decode_at_cases (p ++ take n (encode r)) (len p))
    as [(r' & pos' & E & _ & _ & Hp)|?]; [exfalso|done].
  apply (decode_at_extend _ _ (drop n (encode r))) in E.
  rewrite <- app_assoc, take_drop in E.
  pose proof (decode_encode_at p r [] Hwf) as E'. rewrite app_nil_r in E'.
  rewrite E in E'. injection E' as -> ->. len.
Qed.

(** ** Properties *)

(** C40: [decode_at] inverts [encode_into]: whatever precedes and follows the
    record in the buffer, decoding at its offset gives the record back and
    leaves the position just after it, so consecutive records decode in turn. *)
Theorem record_decode_encode (buf : bytes) (r : Rec) (rest : bytes) :
  wf_rec r ->
  decode_at (encode_into buf r ++ rest) (len buf) = Ok (r, len (encode_into buf r)).
Proof.
  intros Hwf. rewrite encode_into_app, <- app_assoc, (decode_encode_at _ _ _ Hwf).
  do 2 f_equal. rewrite length_app, <- length_encode. lia.
Qed.

Lemma record_decode_encode_witness :
  let r := tombstone (bytes_of_string "gone") 99 in
  decode_at (encode_into [x07; x08] r ++ [xff]) 2 = Ok (r, 23).
Proof. apply (record_decode_encode [x07; x08] (tombstone (bytes_of_string "gone") 99) [xff]).
  by apply (bool_decide_unpack _). Defined.

(** Decoding arbitrary bytes never panics: it is a record whose lengths fit
    their fields, taken from inside the buffer, with the position advanced by
    at least the seventeen bytes of the fixed part, or [Error::Corrupt]; and a
    proper prefix of an encoding is always refused. *)
Theorem record_decode_any_bytes (buf : bytes) (pos : N) :
  match decode_at buf pos with
  | Ok (r, pos') => wf_rec r /\ pos + 17 <= pos' <= len buf
  | Err e => exists m, e = Corrupt m
  | Panic => False
  end /\
  (forall r n, buf = take n (encode r) -> wf_rec r -> N.of_nat n < encoded_len r -> pos = 0 ->
     is_err (decode_at buf pos) = true).
Proof.
  split.
  - by destruct (decode_at_cases buf pos) as [(r & pos' & -> & ?)|[m ->]]; eauto.
  - intros r n -> Hwf Hn ->. destruct (decode_truncated_at [] r n Hwf Hn) as [m Hm].
    change (is_err (decode_at ([] ++ take n (encode r)) (len (@nil byte))) = true). by rewrite Hm.
Qed.
