(* ===== verification/Versions.v ===== *)
(** * Versions of keys

    The order every sorted run of records is in (key ascending, sequence number
    descending within a key), and the abstract meaning of a read: [newest key
    bound recs] is the record of [key] with the largest sequence number below
    [bound], wherever it is among [recs]. *)
From Stdlib Require Import NArith Lia.
From stdpp Require Import base numbers list sorting.
From S2P Require Import Prelude Errors Records.

Local Open Scope N_scope.

(** The order of [(key, Reverse(seq))]. *)
Definition version_cmp (a b : bytes * N) : comparison :=
  match key_cmp a.1 b.1 with
  | Eq => b.2 ?= a.2
  | c => c
  end.

Definition version (r : Rec) : bytes * N := (r_key r, r_seq r).

(** Record [a] comes before record [b]. *)
Definition before (a b : Rec) : Prop :=
  key_lt (r_key a) (r_key b) \/ r_key a = r_key b /\ r_seq b < r_seq a.

#[export] Instance before_dec a b : Decision (before a b).
Proof. unfold before. apply _. Defined.

(** A sorted run: no version occurs twice. *)
Definition run_sorted (l : list Rec) : Prop := StronglySorted before l.

(** [r] may answer a read of [key] that sees sequence numbers below [bound]. *)
Definition visible (key : bytes) (bound : N) (r : Rec) : bool :=
  bool_decide (r_key r = key) && (r_seq r <? bound).

(** The visible record with the largest sequence number. *)
Fixpoint newest (key : bytes) (bound : N) (recs : list Rec) : option Rec :=
  match recs with
  | [] => None
  | r :: recs =>
      let n := newest key bound recs in
      if visible key bound r then
        match n with
        | Some r' => if r_seq r <? r_seq r' then Some r' else Some r
        | None => Some r
        end
      else n
  end.

(** What a read of [key] at [bound] returns: a tombstone reads as absent. *)
Definition lookup_at (key : bytes) (bound : N) (recs : list Rec) : option bytes :=
  newest key bound recs ≫= r_value.

(** [key] is in the half-open range [start..end]; [None] is unbounded. *)
Definition from_start (start : option bytes) (key : bytes) : bool :=
  match start with Some k => negb (key_ltb key k) | None => true end.
Definition below_end (fin : option bytes) (key : bytes) : bool :=
  match fin with Some e => key_ltb key e | None => true end.
Definition in_range (start fin : option bytes) (key : bytes) : bool :=
  from_start start key && below_end fin key.

(** One record per version. *)
Definition versions_unique (recs : list Rec) : Prop :=
  forall r r', r ∈ recs -> r' ∈ recs -> version r = version r' -> r = r'.

(** ** The order *)

Lemma version_cmp_lt a b : version_cmp (version a) (version b) = Lt <-> before a b.
Proof.
  unfold version_cmp, before, version, key_lt; cbn [fst snd].
  destruct (key_cmp (r_key a) (r_key b)) eqn:E.
  - apply key_cmp_eq in E. rewrite N.compare_lt_iff. naive_solver.
  - naive_solver.
  - split; [done|]. intros [?|[E' _]]; [done|]. rewrite E', key_cmp_refl in E. done.
Qed.

Lemma version_cmp_eq a b : version_cmp a b = Eq <-> a = b.
Proof.
  destruct a as [k s], b as [k' s']. unfold version_cmp; cbn [fst snd].
  destruct (key_cmp k k') eqn:E.
  - apply key_cmp_eq in E as ->. rewrite N.compare_eq_iff. naive_solver.
  - split; [done|]. intros [= -> _]. by rewrite key_cmp_refl in E.
  - split; [done|]. intros [= -> _]. by rewrite key_cmp_refl in E.
Qed.

Lemma version_cmp_antisym a b : version_cmp b a = CompOpp (version_cmp a b).
Proof.
  unfold version_cmp. rewrite (key_cmp_antisym a.1 b.1), (N.compare_antisym a.2 b.2).
  by destruct (key_cmp a.1 b.1); simpl; rewrite ?CompOpp_involutive.
Qed.

Lemma version_cmp_gt a b : version_cmp (version a) (version b) = Gt <-> before b a.
Proof.
  rewrite <- version_cmp_lt, (version_cmp_antisym (version a)). by destruct (version_cmp _ _).
Qed.

Lemma before_irrefl a : ~ before a a.
Proof. intros [?|[_ ?]]; [by eapply key_lt_irrefl|lia]. Qed.

Lemma before_trans a b c : before a b -> before b c -> before a c.
Proof.
  unfold before. intros [H1|[E1 H1]] [H2|[E2 H2]].
  - left. by eapply key_lt_trans.
  - left. by rewrite <- E2.
  - left. by rewrite E1.
  - right. split; [congruence|lia].
Qed.

#[export] Instance before_strict : StrictOrder before.
Proof. split; [exact before_irrefl|exact before_trans]. Qed.

Lemma before_total a b : before a b \/ version a = version b \/ before b a.
Proof.
  rewrite <- !version_cmp_lt. destruct (version_cmp (version a) (version b)) eqn:E.
  - apply version_cmp_eq in E. auto.
  - auto.
  - apply version_cmp_gt, version_cmp_lt in E. auto.
Qed.

Lemma run_sorted_app l1 l2 :
  run_sorted (l1 ++ l2) <->
  run_sorted l1 /\ run_sorted l2 /\ (forall a b, a ∈ l1 -> b ∈ l2 -> before a b).
Proof.
  unfold run_sorted. induction l1 as [|x l1 IH]; cbn [app].
  - split; [|by intros (_ & ? & _)]. intros Hs. split_and!; [constructor|done|].
    intros a b Ha. by apply elem_of_nil in Ha.
  - split.
    + intros Hs. inversion Hs as [|? ? Hs' Hf]; subst. apply Forall_app in Hf as [Hf1 Hf2].
      apply IH in Hs' as (Hs1 & Hs2 & Hb). split_and!; [by constructor|done|].
      intros a b [->|Ha]%elem_of_cons Hb'; [|by apply Hb].
      rewrite Forall_forall in Hf2. by apply Hf2.
    + intros (Hs1 & Hs2 & Hb). inversion Hs1 as [|? ? Hs' Hf]; subst. constructor.
      * apply IH. split_and!; [done|done|]. intros a b Ha Hb'. apply Hb; [by right|done].
      * apply Forall_app. split; [done|]. apply Forall_forall. intros b Hb'. apply Hb; [by left|done].
Qed.

Lemma run_sorted_cons x l :
  run_sorted (x :: l) <-> run_sorted l /\ (forall b, b ∈ l -> before x b).
Proof.
  unfold run_sorted. split.
  - intros Hs. inversion Hs as [|? ? Hs' Hf]; subst. rewrite Forall_forall in Hf. done.
  - intros [Hs Hb]. constructor; [done|]. by apply Forall_forall.
Qed.

Lemma run_sorted_unique l : run_sorted l -> versions_unique l.
Proof.
  intros Hs r r' Hr Hr' E. induction l as [|x l IH]; [by apply elem_of_nil in Hr|].
  apply run_sorted_cons in Hs as [Hs Hb].
  assert (forall y, y ∈ l -> version x = version y -> False) as Hx.
  { intros y Hy Ey. specialize (Hb y Hy). apply version_cmp_lt in Hb.
    apply version_cmp_eq in Ey. congruence. }
  apply elem_of_cons in Hr as [->|Hr], Hr' as [->|Hr']; [done|by exfalso; eapply Hx..|by apply IH].
Qed.

(** ** [newest] *)

Lemma visible_spec key bound r :
  visible key bound r = true <-> r_key r = key /\ r_seq r < bound.
Proof. unfold visible. rewrite andb_true_iff, bool_decide_eq_true, N.ltb_lt. done. Qed.

Lemma newest_some key bound recs r :
  newest key bound recs = Some r ->
  r ∈ recs /\ visible key bound r = true /\
  forall r', r' ∈ recs -> visible key bound r' = true -> r_seq r' <= r_seq r.
Proof.
  revert r. induction recs as [|x l IH]; intros r E; cbn [newest] in E; [done|].
  destruct (visible key bound x) eqn:Ex.
  - destruct (newest key bound l) as [n|] eqn:En.
    + destruct (IH n eq_refl) as (Hn & Hv & Hmax).
      destruct (N.ltb_spec (r_seq x) (r_seq n)); injection E as <-.
      * split_and!; [by right|done|]. intros r' [->|Hr']%elem_of_cons Hv'; [lia|by apply Hmax].
      * split_and!; [by left|done|]. intros r' [->|Hr']%elem_of_cons Hv'; [lia|].
        specialize (Hmax r' Hr' Hv'). lia.
    + injection E as <-. split_and!; [by left|done|].
      intros r' [->|Hr']%elem_of_cons Hv'; [lia|]. exfalso. clear IH.
      revert En Hr' Hv'. induction l as [|y l IHl]; intros En Hr' Hv'; [by apply elem_of_nil in Hr'|].
      cbn [newest] in En. destruct (visible key bound y) eqn:Ey; [by repeat case_match|].
      apply elem_of_cons in Hr' as [->|Hr']; [congruence|by apply IHl].
  - destruct (IH r E) as (Hn & Hv & Hmax). split_and!; [by right|done|].
    intros r' [->|Hr']%elem_of_cons Hv'; [congruence|by apply Hmax].
Qed.

Lemma newest_none key bound recs :
  newest key bound recs = None <-> forall r, r ∈ recs -> visible key bound r = false.
Proof.
  induction recs as [|x l IH]; cbn [newest].
  - split; [|done]. intros _ r Hr. by apply elem_of_nil in Hr.
  - destruct (visible key bound x) eqn:Ex.
    + split; [by repeat case_match|]. intros Hv. rewrite Hv in Ex by (by left). done.
    + rewrite IH. split.
      * intros Hv r [->|Hr]%elem_of_cons; auto.
      * intros Hv r Hr. apply Hv. by right.
Qed.

(** A visible record that no visible record exceeds is the answer. *)
Lemma newest_intro key bound recs r :
  versions_unique recs -> r ∈ recs -> visible key bound r = true ->
  (forall r', r' ∈ recs -> visible key bound r' = true -> r_seq r' <= r_seq r) ->
  newest key bound recs = Some r.
Proof.
  intros Hu Hr Hv Hmax. destruct (newest key bound recs) as [n|] eqn:En.
  - apply newest_some in En as (Hn & Hvn & Hmaxn). f_equal. apply Hu; [done..|].
    specialize (Hmax n Hn Hvn). specialize (Hmaxn r Hr Hv).
    apply visible_spec in Hv as [? _], Hvn as [? _]. unfold version. f_equal; [congruence|lia].
  - rewrite newest_none in En. by rewrite (En r Hr) in Hv.
Qed.

(** The answer depends on which records there are, not on their order. *)
Lemma newest_elem_of key bound l1 l2 :
  versions_unique l1 -> (forall r, visible key bound r = true -> r ∈ l1 <-> r ∈ l2) ->
  versions_unique l2 -> newest key bound l1 = newest key bound l2.
Proof.
  intros Hu1 He Hu2. destruct (newest key bound l1) as [r|] eqn:E1; symmetry.
  - apply newest_some in E1 as (Hr & Hv & Hmax).
    apply newest_intro; [done|by apply He|done|]. intros r' Hr' Hv'. apply Hmax; [by apply He|done].
  - rewrite newest_none in *. intros r Hr. destruct (visible key bound r) eqn:Ev; [|done].
    apply He in Hr; [|done]. by rewrite E1 in Ev.
Qed.

Lemma newest_app key bound l1 l2 :
  newest key bound (l1 ++ l2) =
    match newest key bound l1, newest key bound l2 with
    | Some a, Some b => if r_seq a <? r_seq b then Some b else Some a
    | Some a, None => Some a
    | None, o => o
    end.
Proof.
  induction l1 as [|x l IH]; cbn [newest app]; [by destruct (newest key bound l2)|].
  rewrite IH. destruct (visible key bound x); [|done].
  destruct (newest key bound l) as [a|], (newest key bound l2) as [b|]; try done.
  - destruct (N.ltb_spec (r_seq a) (r_seq b)), (N.ltb_spec (r_seq x) (r_seq a)),
      (N.ltb_spec (r_seq x) (r_seq b)); try done; try lia.
    all: destruct (N.ltb_spec (r_seq a) (r_seq b)); try done; lia.
  - by destruct (N.ltb_spec (r_seq x) (r_seq a)).
Qed.

(** A layer that answers hides the layers below, when its records are newer. *)
Lemma newest_layer key bound upper lower :
  (forall a b, a ∈ upper -> b ∈ lower -> r_key a = key -> r_key b = key -> r_seq b <= r_seq a) ->
  newest key bound (upper ++ lower) =
    match newest key bound upper with Some r => Some r | None => newest key bound lower end.
Proof.
  intros Hl. rewrite newest_app. destruct (newest key bound upper) as [a|] eqn:Ea; [|done].
  destruct (newest key bound lower) as [b|] eqn:Eb; [|done].
  apply newest_some in Ea as (Ha & Hva & _), Eb as (Hb & Hvb & _).
  apply visible_spec in Hva as [Hka _], Hvb as [Hkb _]. specialize (Hl a b Ha Hb Hka Hkb).
  destruct (N.ltb_spec (r_seq a) (r_seq b)); [lia|done].
Qed.

(** In a sorted run the first visible record is the answer: what a bounded
    lookup by a linear search finds. *)
Lemma newest_sorted key bound l :
  run_sorted l -> newest key bound l = head (filter (fun r => visible key bound r = true) l).
Proof.
  induction l as [|x l IH]; intros Hs; [done|]. apply run_sorted_cons in Hs as [Hs Hb].
  cbn [newest]. rewrite filter_cons. destruct (visible key bound x) eqn:Ex; [|by apply IH].
  rewrite decide_True by done. cbn [head].
  destruct (newest key bound l) as [n|] eqn:En; [|done].
  apply newest_some in En as (Hn & Hvn & _). apply visible_spec in Ex as [Ek _], Hvn as [Ekn _].
  destruct (Hb n Hn) as [Hlt|[_ ?]].
  - exfalso. rewrite Ek, Ekn in Hlt. by apply key_lt_irrefl in Hlt.
  - destruct (N.ltb_spec (r_seq x) (r_seq n)); [lia|done].
Qed.

(** *** Lists in any order *)

(** A sorted run has each version once. *)
Lemma run_sorted_versions l : run_sorted l -> NoDup (version <$> l).
Proof.
  induction 1 as [|x l Hs IH Hb]; [constructor|]. rewrite fmap_cons. apply NoDup_cons. split; [|done].
  intros (y & E & Hy)%list_elem_of_fmap. rewrite Forall_forall in Hb.
  specialize (Hb y Hy). apply version_cmp_lt in Hb. by rewrite E, (proj2 (version_cmp_eq _ _)) in Hb.
Qed.

Lemma NoDup_versions_unique l : NoDup (version <$> l) -> versions_unique l.
Proof.
  intros Hn a b Ha Hb E. apply list_elem_of_lookup in Ha as [i Ei]. apply list_elem_of_lookup in Hb as [j Ej].
  assert (i = j) as <-; [|congruence].
  eapply (NoDup_lookup _ i j (version a) Hn); rewrite list_lookup_fmap, ?Ei, ?Ej; cbn; [done|congruence].
Qed.

Lemma versions_unique_sub l l' : (forall r, r ∈ l' -> r ∈ l) -> versions_unique l -> versions_unique l'.
Proof. intros Hs Hu a b Ha Hb. apply Hu; auto. Qed.

Lemma versions_unique_perm l l' : versions_unique l -> l ≡ₚ l' -> versions_unique l'.
Proof. intros Hu Hp. apply (versions_unique_sub l); [|done]. intros r. by rewrite Hp. Qed.

Lemma newest_perm key bound l l' :
  NoDup (version <$> l) -> l ≡ₚ l' -> newest key bound l = newest key bound l'.
Proof.
  intros Hn Hp. apply newest_elem_of; [by apply NoDup_versions_unique| |].
  - intros r _. by rewrite Hp.
  - apply NoDup_versions_unique. by rewrite <- Hp.
Qed.

Lemma newest_app_l key bound l1 l2 :
  (forall r, r ∈ l2 -> r_key r <> key) -> newest key bound (l1 ++ l2) = newest key bound l1.
Proof.
  intros Hl. rewrite newest_app. assert (newest key bound l2 = None) as ->.
  { apply newest_none. intros r Hr. destruct (visible key bound r) eqn:E; [|done].
    apply visible_spec in E as [E _]. by destruct (Hl r Hr). }
  by destruct (newest key bound l1).
Qed.

Lemma newest_app_r key bound l1 l2 :
  (forall r, r ∈ l1 -> r_key r <> key) -> newest key bound (l1 ++ l2) = newest key bound l2.
Proof.
  intros Hl. rewrite newest_app. assert (newest key bound l1 = None) as ->; [|done].
  apply newest_none. intros r Hr. destruct (visible key bound r) eqn:E; [|done].
  apply visible_spec in E as [E _]. by destruct (Hl r Hr).
Qed.
