(* ===== verification/MemTable.v ===== *)
(** * The MemTable (src/src/memtable.rs)

    A [BTreeMap] from [(key, Reverse(seq))] to the record, as the list of its
    values in the map's order: a record's map key is its own key and sequence
    number.  [size] counts the encoded bytes of what is held. *)
From Stdlib Require Import NArith Lia.
From stdpp Require Import base numbers list sorting.
From S2P Require Import Prelude Errors Records Versions.

Local Open Scope N_scope.

Definition DEFAULT_THRESHOLD : N := 4 * 1024 * 1024.

(** [struct MemTable]. *)
Record MemTable := mkMem {
  mt_map : list Rec;
  mt_size : N;
  mt_threshold : N
}.

(** [MemTable::new]. *)
Definition mt_new (threshold : N) : MemTable := mkMem [] 0 threshold.

(** [BTreeMap::insert]: the new map, and the value that was replaced. *)
Fixpoint map_insert (r : Rec) (l : list Rec) : list Rec * option Rec :=
  match l with
  | [] => ([r], None)
  | x :: l' =>
      match version_cmp (version r) (version x) with
      | Lt => (r :: l, None)
      | Eq => (r :: l', Some x)
      | Gt => let '(l'', old) := map_insert r l' in (x :: l'', old)
      end
  end.

(** [MemTable::insert]. *)
Definition mt_insert (record : Rec) (m : MemTable) : MemTable :=
  let new_len := encoded_len record in
  match map_insert record (mt_map m) with
  | (l, Some old) => mkMem l (mt_size m - encoded_len old + new_len) (mt_threshold m)
  | (l, None) => mkMem l (mt_size m + new_len) (mt_threshold m)
  end.

(** [a <= b] for map keys. *)
Definition version_leb (a b : bytes * N) : bool :=
  match version_cmp a b with Gt => false | _ => true end.

(** [MemTable::versions_of]: the range from [(key, Reverse(u64::MAX))] to
    [(key, Reverse(0))]. *)
Definition versions_of (key : bytes) (m : MemTable) : list Rec :=
  filter (fun r => version_leb (key, U64_MAX) (version r) && version_leb (version r) (key, 0) = true)
    (mt_map m).

(** [MemTable::get_at] and [MemTable::get]. *)
Definition mt_get_at (key : bytes) (seq_bound : N) (m : MemTable) : option Rec :=
  head (filter (fun r => r_seq r < seq_bound) (versions_of key m)).
Definition mt_get (key : bytes) (m : MemTable) : option Rec := mt_get_at key U64_MAX m.

(** [MemTable::iter]. *)
Definition mt_iter (m : MemTable) : list Rec := mt_map m.

(** [MemTable::range]. *)
Definition mt_range (start fin : option bytes) (m : MemTable) : list Rec :=
  let from :=
    match start with
    | Some k => filter (fun r => version_leb (k, U64_MAX) (version r) = true) (mt_map m)
    | None => mt_map m
    end in
  take_while (fun r => match fin with Some e => key_ltb (r_key r) e | None => true end) from.

(** [MemTable::len], [is_empty] and [is_full]. *)
Definition mt_len (m : MemTable) : N := len (mt_map m).
Definition mt_is_empty (m : MemTable) : bool := bool_decide (mt_map m = []).
Definition mt_is_full (m : MemTable) : bool := mt_threshold m <=? mt_size m.

(** ** Invariant and lemmas *)

Definition sum_encoded (l : list Rec) : N := foldr (fun r n => encoded_len r + n) 0 l.

(** The map is in order, its sequence numbers are [u64]s, and [size] is the
    number of encoded bytes (so the subtraction in [insert] never underflows). *)
Definition mt_ok (m : MemTable) : Prop :=
  run_sorted (mt_map m) /\ Forall (fun r => r_seq r <= U64_MAX) (mt_map m) /\
  mt_size m = sum_encoded (mt_map m).

Lemma mt_new_ok t : mt_ok (mt_new t).
Proof. split_and!; [constructor|constructor|done]. Qed.

Lemma map_insert_elem_of r l x :
  run_sorted l ->
  x ∈ (map_insert r l).1 <-> x = r \/ x ∈ l /\ version x <> version r.
Proof.
  induction l as [|y l IH]; intros Hs; cbn [map_insert].
  { cbn [fst]. rewrite list_elem_of_singleton, elem_of_nil. naive_solver. }
  apply run_sorted_cons in Hs as [Hs Hb].
  destruct (version_cmp (version r) (version y)) eqn:E; cbn [fst].
  - apply version_cmp_eq in E. rewrite !elem_of_cons. split.
    + intros [->|Hx]; [by left|]. right. split; [by right|].
      intros Ex. specialize (Hb x Hx). apply version_cmp_lt in Hb. rewrite Ex, E in Hb.
      rewrite (proj2 (version_cmp_eq _ _) eq_refl) in Hb. done.
    + intros [->|[[->|Hx] Hne]]; [by left|by rewrite E in Hne|by right].
  - rewrite elem_of_cons. split; [|naive_solver].
    intros [->|Hx]; [by left|right; split; [done|]]. apply version_cmp_lt in E.
    assert (before r x) as Hrx.
    { apply elem_of_cons in Hx as [->|Hx]; [done|]. eapply before_trans; [done|by apply Hb]. }
    intros Ex. apply version_cmp_lt in Hrx. rewrite Ex in Hrx.
    rewrite (proj2 (version_cmp_eq _ _) eq_refl) in Hrx. done.
  - destruct (map_insert r l) as [l' old] eqn:El. cbn [fst] in *.
    rewrite !elem_of_cons, IH by done. split.
    + intros [->|[->|[Hx Hne]]]; [|by left|right; split; [by right|done]].
      right. split; [by left|]. intros Ex. rewrite Ex in E.
      rewrite (proj2 (version_cmp_eq _ _) eq_refl) in E. done.
    + naive_solver.
Qed.

Lemma map_insert_sorted r l : run_sorted l -> run_sorted (map_insert r l).1.
Proof.
  induction l as [|y l IH]; intros Hs; cbn [map_insert].
  { apply run_sorted_cons. split; [constructor|]. intros b Hb. by apply elem_of_nil in Hb. }
  pose proof (map_insert_elem_of r l) as He. apply run_sorted_cons in Hs as [Hs Hb].
  destruct (version_cmp (version r) (version y)) eqn:E; cbn [fst].
  - apply version_cmp_eq in E. apply run_sorted_cons. split; [done|]. intros b Hb'.
    apply version_cmp_lt. rewrite E. by apply version_cmp_lt, Hb.
  - apply version_cmp_lt in E. apply run_sorted_cons. split; [by apply run_sorted_cons|].
    intros b [->|Hb']%elem_of_cons; [done|]. eapply before_trans; [done|by apply Hb].
  - apply version_cmp_gt in E. specialize (IH Hs). destruct (map_insert r l) as [l' old].
    cbn [fst] in *. apply run_sorted_cons. split; [done|]. intros b Hb'.
    apply He in Hb' as [->|[Hb' _]]; [done|by apply Hb|done].
Qed.

Lemma map_insert_sum r l :
  sum_encoded (map_insert r l).1 + from_option encoded_len 0 (map_insert r l).2 =
    sum_encoded l + encoded_len r.
Proof.
  induction l as [|y l IH]; cbn [map_insert]; [simpl; lia|].
  destruct (version_cmp _ _); cbn [fst snd from_option]; [simpl; lia..|].
  destruct (map_insert r l) as [l' old]. cbn [fst snd] in *. simpl. lia.
Qed.

Lemma map_insert_old r l : from_option encoded_len 0 (map_insert r l).2 <= sum_encoded l.
Proof.
  induction l as [|y l IH]; cbn [map_insert]; [simpl; lia|].
  destruct (version_cmp _ _); cbn [fst snd from_option]; [simpl; lia..|].
  destruct (map_insert r l) as [l' old]. cbn [fst snd] in *. simpl. lia.
Qed.

(** [insert] keeps the invariant. *)
Lemma mt_insert_ok r m : r_seq r <= U64_MAX -> mt_ok m -> mt_ok (mt_insert r m).
Proof.
  intros Hr (Hs & Hm & Hz). unfold mt_insert.
  pose proof (map_insert_sorted r _ Hs) as Hs'. pose proof (map_insert_sum r (mt_map m)) as Hsum.
  pose proof (map_insert_old r (mt_map m)) as Hold.
  assert (Forall (fun r => r_seq r <= U64_MAX) (map_insert r (mt_map m)).1) as Hm'.
  { apply Forall_forall. intros x Hx. apply map_insert_elem_of in Hx as [->|[Hx _]]; [done| |done].
    rewrite Forall_forall in Hm. by apply Hm. }
  destruct (map_insert r (mt_map m)) as [l [old|]]; cbn [fst snd from_option] in *;
    split_and!; cbn [mt_map mt_size]; try done; lia.
Qed.

Lemma mt_insert_map r m : mt_map (mt_insert r m) = (map_insert r (mt_map m)).1.
Proof. unfold mt_insert. by destruct (map_insert r (mt_map m)) as [l [old|]]. Qed.

Lemma mt_insert_threshold r m : mt_threshold (mt_insert r m) = mt_threshold m.
Proof. unfold mt_insert. by destruct (map_insert r (mt_map m)) as [l [old|]]. Qed.

(** The records held after an insert of a version that was not there. *)
Lemma mt_insert_fresh r m x :
  mt_ok m -> (forall y, y ∈ mt_map m -> version y <> version r) ->
  x ∈ mt_map (mt_insert r m) <-> x = r \/ x ∈ mt_map m.
Proof.
  intros [Hs _] Hf. rewrite mt_insert_map, map_insert_elem_of by done. naive_solver.
Qed.

(** The range [versions_of] asks for is exactly the versions of the key. *)
Lemma versions_of_spec key m :
  mt_ok m -> versions_of key m = filter (fun r => r_key r = key) (mt_map m).
Proof.
  intros (_ & Hm & _). unfold versions_of. apply list_filter_ext.
  intros r Hr. rewrite Forall_forall in Hm. specialize (Hm r Hr). cbn beta in Hm.
  unfold version_leb, version_cmp, version; cbn [fst snd].
  rewrite (key_cmp_antisym key (r_key r)).
  destruct (key_cmp key (r_key r)) eqn:E; cbn [CompOpp].
  - apply key_cmp_eq in E. rewrite andb_true_iff.
    destruct (N.compare_spec (r_seq r) U64_MAX), (N.compare_spec 0 (r_seq r)); try lia; naive_solver.
  - split; [done|]. intros <-. by rewrite key_cmp_refl in E.
  - split; [done|]. intros <-. by rewrite key_cmp_refl in E.
Qed.

(** [get_at] is the newest visible record. *)
Lemma mt_get_at_newest key bound m :
  mt_ok m -> mt_get_at key bound m = newest key bound (mt_map m).
Proof.
  intros Hok. unfold mt_get_at. rewrite versions_of_spec by done.
  rewrite newest_sorted by apply Hok. rewrite list_filter_filter. f_equal.
  apply list_filter_iff. intros r. rewrite visible_spec. naive_solver.
Qed.

Lemma take_while_below fin l :
  run_sorted l ->
  take_while (fun r => below_end fin (r_key r)) l = filter (fun r => below_end fin (r_key r) = true) l.
Proof.
  induction l as [|x l IH]; intros Hs; [done|]. apply run_sorted_cons in Hs as [Hs Hb].
  cbn [take_while]. rewrite filter_cons. destruct (below_end fin (r_key x)) eqn:E.
  - rewrite decide_True by done. by rewrite IH.
  - rewrite decide_False by done. symmetry. apply list_filter_none. intros r Hr Hlt.
    destruct fin as [e|]; [|done]. cbn [below_end] in *.
    apply key_ltb_ge in E. apply key_ltb_lt in Hlt.
    assert (key_lt e e) as []%key_lt_irrefl.
    eapply key_le_lt_trans; [exact E|].
    destruct (Hb r Hr) as [Hx|[-> _]]; [by eapply key_lt_trans|done].
Qed.

(** [range] is the records with keys in [start..end], in order. *)
Lemma mt_range_spec start fin m :
  mt_ok m ->
  mt_range start fin m = filter (fun r => in_range start fin (r_key r) = true) (mt_map m).
Proof.
  intros (Hs & Hm & _). unfold mt_range.
  set (from := match start with Some k => filter _ (mt_map m) | None => mt_map m end).
  assert (from = filter (fun r => from_start start (r_key r) = true) (mt_map m)) as Ef.
  { subst from. destruct start as [k|]; cbn [from_start]; [|symmetry; by apply list_filter_all].
    apply list_filter_ext. intros r Hr. rewrite Forall_forall in Hm. specialize (Hm r Hr). cbn beta in Hm.
    unfold version_leb, version_cmp, version, key_ltb; cbn [fst snd].
    rewrite (key_cmp_antisym k (r_key r)).
    destruct (key_cmp k (r_key r)); cbn [CompOpp negb]; [|done..].
    destruct (N.compare_spec (r_seq r) U64_MAX); try lia; done. }
  change (take_while (fun r => below_end fin (r_key r)) from =
          filter (fun r => in_range start fin (r_key r) = true) (mt_map m)).
  rewrite take_while_below by (rewrite Ef; by apply StronglySorted_filter).
  rewrite Ef, list_filter_filter. apply list_filter_iff.
  intros r. unfold in_range. rewrite andb_true_iff. naive_solver.
Qed.

(** ** Properties *)

(** C27: the MemTable refines the set of versions it was given.  An insert keeps
    its invariant (order, one record per version, [size] the number of encoded
    bytes held), replaces the same version and no other, and afterwards every
    bounded lookup is the newest record below the bound, and every range is the
    records with keys in it, in order. *)
Theorem memtable_insert_refines (m : MemTable) (r : Rec) :
  mt_ok m -> r_seq r <= U64_MAX ->
  mt_ok (mt_insert r m) /\
  (forall x, x ∈ mt_iter (mt_insert r m) <-> x = r \/ x ∈ mt_iter m /\ version x <> version r) /\
  (forall key bound, mt_get_at key bound (mt_insert r m) =
     newest key bound (r :: filter (fun x => version x <> version r) (mt_iter m))) /\
  (forall start fin, mt_range start fin (mt_insert r m) =
     filter (fun x => in_range start fin (r_key x) = true) (mt_iter (mt_insert r m))).
Proof.
  intros Hm Hr. pose proof (mt_insert_ok r m Hr Hm) as Hok.
  assert (forall x, x ∈ mt_map (mt_insert r m) <-> x = r \/ x ∈ mt_map m /\ version x <> version r) as He.
  { intros x. rewrite mt_insert_map. apply map_insert_elem_of, Hm. }
  split; [done|]. split; [done|]. split; [|intros; by apply mt_range_spec].
  intros key bound. rewrite mt_get_at_newest by done.
  assert (forall x, x ∈ r :: filter (fun x => version x <> version r) (mt_iter m) <->
    x ∈ mt_map (mt_insert r m)) as Hl.
  { intros x. rewrite He, elem_of_cons, list_elem_of_filter. unfold mt_iter. naive_solver. }
  pose proof (run_sorted_unique _ (proj1 Hok)) as Hu. apply newest_elem_of; [done|intros; by rewrite Hl|].
  intros x y Hx%Hl Hy%Hl. by apply Hu.
Qed.

Lemma memtable_insert_refines_witness :
  let m := mt_insert (put [x61] [x01] 4) (mt_insert (put [x62] [x02] 5) (mt_new 100)) in
  let r := tombstone [x61] 7 in
  mt_ok (mt_insert r m) /\
  (forall x, x ∈ mt_iter (mt_insert r m) <-> x = r \/ x ∈ mt_iter m /\ version x <> version r) /\
  (forall key bound, mt_get_at key bound (mt_insert r m) =
     newest key bound (r :: filter (fun x => version x <> version r) (mt_iter m))) /\
  (forall start fin, mt_range start fin (mt_insert r m) =
     filter (fun x => in_range start fin (r_key x) = true) (mt_iter (mt_insert r m))).
Proof.
  intros m r. apply (memtable_insert_refines m r); [|done].
  apply mt_insert_ok; [done|]. apply mt_insert_ok; [done|]. apply mt_new_ok.
Defined.
