(* ===== verification/Headers.v ===== *)
(** * File headers (src/src/header.rs)

    The eight bytes at the front of a WAL or a manifest:
    [[magic:4][version:u16][reserved:u16]], and which checksum and frame offset
    they select. *)
From Stdlib Require Import NArith Lia.
From stdpp Require Import base numbers list strings pretty.
From S2P Require Import Prelude Errors Platform.

Local Open Scope N_scope.

Definition HEADER_LEN : N := 8.
Definition WAL_VERSION : N := 3.
Definition MANIFEST_VERSION : N := 2.
Definition WAL_MAGIC : bytes := bytes_of_string "LSMW".
Definition MANIFEST_MAGIC : bytes := bytes_of_string "LSMM".

(** [enum Checksum] and [Checksum::hash]; a checksum is a [u32]. *)
Inductive Checksum := IsoHdlc | Castagnoli.

#[export] Instance Checksum_eq_dec : EqDecision Checksum.
Proof. solve_decision. Defined.

Definition hash `{Platform} (c : Checksum) (b : bytes) : N :=
  match c with
  | IsoHdlc => as_u32 (crc32fast_hash b)
  | Castagnoli => as_u32 (crc32c_hash b)
  end.

(** [enum Kind]. *)
Inductive Kind := Empty | Versioned (v : N) | Legacy.

#[export] Instance Kind_eq_dec : EqDecision Kind.
Proof. solve_decision. Defined.

Definition wal_checksum (kind : Kind) : Checksum :=
  match kind with
  | Versioned v => if 3 <=? v then Castagnoli else IsoHdlc
  | _ => IsoHdlc
  end.

Definition manifest_checksum (kind : Kind) : Checksum :=
  match kind with
  | Versioned v => if 2 <=? v then Castagnoli else IsoHdlc
  | _ => IsoHdlc
  end.

(** [header::encode]. *)
Definition encode_header (magic : bytes) (version : N) : bytes :=
  magic ++ le_bytes 2 version ++ [x00; x00].

(** [header::classify]. *)
Definition classify (b magic : bytes) (newest : N) (what : string) : outcome Kind :=
  if len b =? 0 then Ok Empty
  else if (HEADER_LEN <=? len b) && bool_decide (sub_list 0 4 b = magic) then
    b4 ← index b 4;
    b5 ← index b 5;
    let version := le_value [b4; b5] in
    if newest <? version then
      Err (BadFormat (what +:+ " is version " +:+ pretty version +:+
                      "; this build understands up to " +:+ pretty newest))
    else Ok (Versioned version)
  else Ok Legacy.

(** [header::frames_start]. *)
Definition frames_start (kind : Kind) : N :=
  match kind with
  | Legacy => 0
  | Empty | Versioned _ => HEADER_LEN
  end.

(** ** Lemmas *)

Lemma hash_u32 `{Platform} c b : hash c b <= U32_MAX.
Proof. destruct c; apply as_u32_le. Qed.

Lemma length_encode_header magic v : length magic = 4%nat -> length (encode_header magic v) = 8%nat.
Proof. intros E. unfold encode_header. len. Qed.

(** The header a build writes is read back as its version, in front of any
    frames. *)
Lemma classify_encode magic v newest what rest :
  length magic = 4%nat -> v <= newest -> v <= U16_MAX ->
  classify (encode_header magic v ++ rest) magic newest what = Ok (Versioned v).
Proof.
  intros Hm Hv Hu. unfold classify.
  pose proof (length_encode_header magic v Hm) as Hl.
  destruct (N.eqb_spec (len (encode_header magic v ++ rest)) 0) as [E|_]; [len|].
  rewrite (proj2 (N.leb_le _ _)) by (unfold HEADER_LEN; len).
  unfold encode_header in *. rewrite <- !app_assoc.
  rewrite bool_decide_true by (apply (sub_list_app 0 4 [] magic); len).
  do 4 (destruct magic as [|? magic]; [done|]). destruct magic; [|done].
  cbn [andb app]. unfold index; simpl. obind.
  change (le_value _) with (le_value (le_bytes 2 v)).
  rewrite le_value_le_bytes by (unfold U16_MAX in Hu; cbn; lia).
  by rewrite (proj2 (N.ltb_ge newest v)).
Qed.

Lemma classify_no_panic b magic newest what : classify b magic newest what <> Panic.
Proof.
  unfold classify. destruct (len b =? 0); [done|].
  destruct (N.leb_spec HEADER_LEN (len b)) as [Hl|]; [|done]; unfold HEADER_LEN in Hl.
  destruct (bool_decide _); [|done]. cbn [andb].
  destruct (lookup_lt_is_Some_2 b 4) as [x4 H4]; [lia|].
  destruct (lookup_lt_is_Some_2 b 5) as [x5 H5]; [lia|].
  unfold index. change (N.to_nat 4) with 4%nat. change (N.to_nat 5) with 5%nat. rewrite H4. obind. rewrite H5. obind. by case_match.
Qed.

(** An unversioned, non-empty file that does not start with the magic is legacy. *)
Lemma classify_legacy b magic newest what :
  b <> [] -> sub_list 0 4 b <> magic -> classify b magic newest what = Ok Legacy.
Proof.
  intros Hb Hm. unfold classify. destruct (N.eqb_spec (len b) 0) as [E|_].
  - destruct b; [done|len].
  - rewrite (bool_decide_false _ Hm), andb_false_r. done.
Qed.

(** What [classify] accepts as versioned has a header in front, at most the
    newest version. *)
Lemma classify_versioned b magic newest what v :
  classify b magic newest what = Ok (Versioned v) ->
  8 <= len b /\ sub_list 0 4 b = magic /\ v <= newest.
Proof.
  unfold classify. destruct (len b =? 0); [done|].
  destruct (N.leb_spec HEADER_LEN (len b)) as [Hl|]; [|done]; unfold HEADER_LEN in Hl.
  destruct (bool_decide_reflect (sub_list 0 4 b = magic)) as [Hm|]; [|done]. cbn [andb].
  intros H. apply bind_ok in H as (x4 & _ & H). apply bind_ok in H as (x5 & _ & H).
  destruct (N.ltb_spec newest (le_value [x4; x5])); [done|]. by injection H as <-.
Qed.

(** ** Properties *)

(** The header [encode] writes, in front of any frames, is classified as
    the version it names while this build is new enough for it, is refused
    with [Error::BadFormat] when it is not, and is never taken for the other
    kind of file's header; frames start after it. *)
Theorem header_classify_encode (v : N) (frames : bytes) (newest : N) (what : string) :
  v <= U16_MAX ->
  (v <= newest ->
     classify (encode_header WAL_MAGIC v ++ frames) WAL_MAGIC newest what = Ok (Versioned v)) /\
  (newest < v -> exists m,
     classify (encode_header WAL_MAGIC v ++ frames) WAL_MAGIC newest what = Err (BadFormat m)) /\
  classify (encode_header MANIFEST_MAGIC v ++ frames) WAL_MAGIC newest what = Ok Legacy /\
  drop (N.to_nat (frames_start (Versioned v))) (encode_header WAL_MAGIC v ++ frames) = frames.
Proof.
  intros Hv. split_and!.
  - intros. by apply classify_encode.
  - intros. unfold classify, encode_header, index; simpl. obind.
    change (le_value _) with (le_value (le_bytes 2 v)).
    rewrite le_value_le_bytes by (unfold U16_MAX in Hv; cbn; lia).
    rewrite (proj2 (N.ltb_lt newest v)) by done.
    rewrite (proj2 (N.leb_le _ _)) by (unfold HEADER_LEN; lia). simpl. eauto.
  - by apply classify_legacy.
  - done.
Qed.

Lemma header_classify_encode_witness :
  classify (encode_header WAL_MAGIC 3 ++ [x01]) WAL_MAGIC WAL_VERSION "wal" = Ok (Versioned 3) /\
  exists m, classify (encode_header WAL_MAGIC 4) WAL_MAGIC WAL_VERSION "wal" = Err (BadFormat m).
Proof.
  split.
  - apply (header_classify_encode 3 [x01] WAL_VERSION "wal"); vm_compute; congruence.
  - rewrite <- (app_nil_r (encode_header WAL_MAGIC 4)).
    apply (header_classify_encode 4 [] WAL_VERSION "wal"); vm_compute; congruence.
Defined.
