(* ===== verification/Frames.v ===== *)
(** * Frames (the layout shared by src/src/wal.rs and src/src/manifest.rs)

    [[crc32:4][payload_len:4][payload]], the CRC over the payload.  Both replay
    loops read the next frame the same way and stop at the first one that is
    torn or does not verify. *)
From Stdlib Require Import NArith Lia.
From stdpp Require Import base numbers list strings.
From S2P Require Import Prelude Errors Platform Headers.

Local Open Scope N_scope.

Definition FRAME_HEADER : N := 8.

Section frames.
Context `{Platform}.

(** The bytes of one frame. *)
Definition frame_bytes (cs : Checksum) (payload : bytes) : bytes :=
  le_bytes 4 (hash cs payload) ++ le_bytes 4 (as_u32 (len payload)) ++ payload.

(** The head of a replay loop at [pos]: the payload of the frame there and
    where the next one starts, or [None] where the loop ends or breaks. *)
Definition read_frame (cs : Checksum) (b : bytes) (pos : N) : outcome (option (bytes * N)) :=
  if pos + FRAME_HEADER <=? len b then
    crc ← (x ← slice b pos (pos + 4); from_le 4 x);
    n ← (x ← slice b (pos + 4) (pos + 8); from_le 4 x);
    let start := pos + FRAME_HEADER in
    match checked_add_within start n (len b) with
    | None => Ok None
    | Some e =>
        payload ← slice b start e;
        if negb (hash cs payload =? crc) then Ok None
        else Ok (Some (payload, e))
    end
  else Ok None.

Lemma length_frame_bytes cs payload : len (frame_bytes cs payload) = 8 + len payload.
Proof. unfold frame_bytes. len. Qed.

(** A frame that is there is read. *)
Lemma read_frame_at cs p payload q :
  len payload <= U32_MAX ->
  read_frame cs (p ++ frame_bytes cs payload ++ q) (len p) =
    Ok (Some (payload, len p + len (frame_bytes cs payload))).
Proof.
  intros Hl. unfold read_frame, frame_bytes, FRAME_HEADER. rewrite as_u32_small by done.
  set (c := le_bytes 4 (hash cs payload)). set (n := le_bytes 4 (len payload)).
  assert (len c = 4) as Hc by (subst c; len). assert (len n = 4) as Hn by (subst n; len).
  assert (from_le 4 c = Ok (hash cs payload)) as Ec by apply from_le_u32, hash_u32.
  assert (from_le 4 n = Ok (len payload)) as En by by apply from_le_u32.
  rewrite (proj2 (N.leb_le _ _)) by len.
  rewrite <- !app_assoc. rewrite (slice_app (len p) (len p + 4) p c) by lia. obind.
  rewrite Ec. obind.
  rewrite (app_assoc p c). rewrite (slice_app (len p + 4) (len p + 8) (p ++ c) n) by len. obind.
  rewrite En. obind.
  unfold checked_add_within. rewrite (proj2 (N.leb_le _ _)) by len.
  rewrite (app_assoc (p ++ c)). rewrite (slice_app (len p + 8) (len p + 8 + len payload) ((p ++ c) ++ n) payload) by len. obind.
  rewrite N.eqb_refl. cbn [negb]. do 3 f_equal. len.
Qed.

(** What a crash in the middle of an append leaves: too few bytes for a frame
    header, or fewer than the header promises. *)
Definition torn_tail (t : bytes) : Prop :=
  len t < 8 \/ len t < 8 + le_value (sub_list 4 8 t).

Lemma read_frame_torn cs p t : torn_tail t -> read_frame cs (p ++ t) (len p) = Ok None.
Proof.
  intros Ht. unfold read_frame, FRAME_HEADER.
  destruct (N.leb_spec (len p + 8) (len (p ++ t))) as [Hl|]; [|done].
  assert (8 <= len t) as H8 by len. destruct Ht as [|Ht]; [lia|].
  assert (t = sub_list 0 4 t ++ sub_list 4 8 t ++ drop 8 t) as Et.
  { rewrite app_assoc. change (t = (sub_list 0 (0 + 4) t ++ sub_list (0 + 4) (0 + 4 + 4) t) ++ drop 8 t).
    rewrite sub_list_join. unfold sub_list. rewrite drop_0. symmetry. apply take_drop. }
  pose proof (length_sub_list 0 4 t) as L1. pose proof (length_sub_list 4 8 t) as L2.
  set (c := sub_list 0 4 t) in *. set (n := sub_list 4 8 t) in *.
  rewrite Et in *. clearbody c n.
  rewrite (slice_app (len p) (len p + 4) p c) by lia. obind. rewrite from_le_ok by lia. obind.
  rewrite (app_assoc p c). rewrite (slice_app (len p + 4) (len p + 8) (p ++ c) n) by len. obind.
  rewrite from_le_ok by lia. obind.
  unfold checked_add_within. by rewrite (proj2 (N.leb_gt _ _)) by len.
Qed.

(** Every proper prefix of a frame is torn. *)
Lemma frame_prefix_torn cs payload k :
  len payload <= U32_MAX -> (k < length (frame_bytes cs payload))%nat ->
  torn_tail (take k (frame_bytes cs payload)).
Proof.
  intros Hl Hk. unfold torn_tail. pose proof (length_frame_bytes cs payload).
  destruct (decide (k < 8)%nat); [left; len|right].
  replace (sub_list 4 8 (take k (frame_bytes cs payload))) with (le_bytes 4 (len payload)).
  - rewrite le_value_u32 by done. len.
  - unfold frame_bytes. rewrite as_u32_small by done. unfold sub_list.
    change (N.to_nat 4) with 4%nat. change (N.to_nat (8 - 4)) with 4%nat.
    rewrite skipn_firstn_comm, take_take. rewrite Nat.min_l by lia.
    rewrite drop_app_length' by by rewrite length_le_bytes.
    by rewrite take_app_length' by by rewrite length_le_bytes.
Qed.

(** On any bytes the head of the loop never panics, and a frame it accepts
    lies inside the buffer and carries the payload's checksum. *)
Lemma read_frame_cases cs b pos :
  read_frame cs b pos = Ok None \/
  exists payload e, read_frame cs b pos = Ok (Some (payload, e)) /\
    pos + 8 <= e <= len b /\ payload = sub_list (pos + 8) e b /\
    le_value (sub_list pos (pos + 4) b) = hash cs payload.
Proof.
  unfold read_frame, FRAME_HEADER.
  destruct (N.leb_spec (pos + 8) (len b)); [|by left].
  rewrite !slice_in by lia. obind.
  pose proof (length_sub_list pos (pos + 4) b). pose proof (length_sub_list (pos + 4) (pos + 8) b).
  rewrite !from_le_ok by lia. obind. unfold checked_add_within.
  destruct (N.leb_spec (pos + 8 + le_value (sub_list (pos + 4) (pos + 8) b)) (len b)); [|by left].
  rewrite slice_in by lia. obind.
  destruct (N.eqb_spec (hash cs (sub_list (pos + 8)
    (pos + 8 + le_value (sub_list (pos + 4) (pos + 8) b)) b)) (le_value (sub_list pos (pos + 4) b)));
    [right|by left].
  eexists _, _. split; [reflexivity|]. split; [lia|done].
Qed.

(** Bytes at which a replay loop stops, wherever they stand. *)
Definition no_frame (cs : Checksum) (t : bytes) : Prop := forall p, read_frame cs (p ++ t) (len p) = Ok None.

Lemma torn_no_frame cs t : torn_tail t -> no_frame cs t.
Proof. intros Ht p. by apply read_frame_torn. Qed.

Lemma no_frame_nil cs : no_frame cs [].
Proof. apply torn_no_frame. left. simpl. lia. Qed.

(** What is accepted is a frame: a payload with its length and its checksum. *)
Lemma read_frame_inv cs p t payload e :
  read_frame cs (p ++ t) (len p) = Ok (Some (payload, e)) ->
  exists rest, t = frame_bytes cs payload ++ rest /\ len payload <= U32_MAX.
Proof.
  unfold read_frame, FRAME_HEADER. destruct (N.leb_spec (len p + 8) (len (p ++ t))) as [Hl|]; [|done].
  assert (8 <= len t) as H8 by len.
  assert (t = take 4 t ++ take 4 (drop 4 t) ++ drop 8 t) as Et by (change 8%nat with (4 + 4)%nat; by rewrite <- drop_drop, !take_drop).
  assert (len (take 4 t) = 4) as L1 by (rewrite length_take; lia).
  assert (len (take 4 (drop 4 t)) = 4) as L2 by (rewrite length_take, length_drop; lia).
  set (c := take 4 t) in *. set (n := take 4 (drop 4 t)) in *. set (r := drop 8 t) in *. clearbody c n r. subst t.
  rewrite (slice_app (len p) (len p + 4) p c) by lia. obind. rewrite from_le_ok by lia. obind.
  rewrite (app_assoc p c), (slice_app (len p + 4) (len p + 8) (p ++ c) n) by len. obind. rewrite from_le_ok by lia. obind.
  unfold checked_add_within. destruct (N.leb_spec (len p + 8 + le_value n) (len ((p ++ c) ++ n ++ r))) as [Hr|]; [|done].
  assert (le_value n <= U32_MAX) as Hn by (apply le_value_u32_bound; lia).
  assert (len (take (N.to_nat (le_value n)) r) = le_value n) as Lr by (rewrite length_take; len).
  rewrite <- (take_drop (N.to_nat (le_value n)) r) at 1. set (x := take _ r) in *. set (y := drop _ r).
  rewrite (app_assoc (p ++ c)), (slice_app (len p + 8) (len p + 8 + le_value n) ((p ++ c) ++ n) x) by len. obind.
  destruct (N.eqb_spec (hash cs x) (le_value c)) as [E|]; [|done]. cbn [negb]. intros [= <- <-].
  exists y. split; [|by rewrite Lr]. unfold frame_bytes. rewrite E, Lr, as_u32_small by done.
  replace 4%nat with (length c) at 1 by lia. replace 4%nat with (length n) by lia. rewrite !le_bytes_le_value.
  rewrite <- !app_assoc. do 2 f_equal. symmetry. apply take_drop.
Qed.

(** Bytes at the head of which a frame is accepted or not. *)
Lemma frame_or_none cs t :
  no_frame cs t \/ exists payload rest, t = frame_bytes cs payload ++ rest /\ len payload <= U32_MAX.
Proof.
  destruct (read_frame_cases cs t 0) as [E|(payload & e & E & _)].
  - left. intros p. destruct (read_frame_cases cs (p ++ t) (len p)) as [?|(payload & e & E' & _)]; [done|].
    destruct (read_frame_inv _ _ _ _ _ E') as (rest & -> & Hl). pose proof (read_frame_at cs [] payload rest Hl) as E0. cbn [app length] in E0. change (N.of_nat 0) with 0 in E0. congruence.
  - right. destruct (read_frame_inv cs [] t payload e E) as (rest & ? & ?). eauto.
Qed.

(** Where a run of frames is cut: some whole frames and a torn one. *)
Lemma take_frames cs payloads n :
  Forall (fun p => len p <= U32_MAX) payloads ->
  exists j t, take n (concat (frame_bytes cs <$> payloads)) =
      concat (frame_bytes cs <$> take j payloads) ++ t /\ torn_tail t /\
    (length (concat (frame_bytes cs <$> payloads)) <= n -> j = length payloads)%nat /\
    (length (concat (frame_bytes cs <$> take j payloads)) <= n)%nat /\
    (j < length payloads ->
       n < length (concat (frame_bytes cs <$> take (S j) payloads)))%nat.
Proof.
  revert n. induction payloads as [|p l IH]; intros n Hl.
  - exists 0%nat, []. split_and!; [by destruct n|left; simpl; lia|done|simpl; lia|simpl; lia].
  - apply Forall_cons in Hl as [Hp Hl]. rewrite fmap_cons. cbn [concat].
    destruct (decide (length (frame_bytes cs p) <= n)%nat) as [Hn|Hn].
    + destruct (IH (n - length (frame_bytes cs p))%nat Hl) as (j & t & E & Ht & Hj & Hle & Hlt).
      exists (S j), t. rewrite take_app_ge by lia. rewrite E.
      rewrite !firstn_cons, !fmap_cons. cbn [concat length].
      rewrite !length_app. split_and!; [by rewrite app_assoc|done|intros; f_equal; lia|lia|].
      intros. assert (j < length l)%nat as Hjl by lia. specialize (Hlt Hjl). lia.
    + exists 0%nat, (take n (frame_bytes cs p)). rewrite take_app_le by lia.
      split_and!; [done|apply frame_prefix_torn; [done|lia]|..].
      * rewrite length_app. lia.
      * simpl. lia.
      * intros _. cbn [firstn]. rewrite take_0, fmap_cons, fmap_nil. cbn [concat].
        rewrite app_nil_r. lia.
Qed.
End frames.

#[global] Arguments read_frame : simpl never.
#[global] Arguments frame_bytes : simpl never.
