(* ===== verification/WriteAheadLog.v ===== *)
(** * The write-ahead log (src/src/wal.rs)

    A header and then frames [[crc32:4][payload_len:4][payload]]; from version 2
    a payload is a count and that many records, so a batch is one frame. *)
From Stdlib Require Import NArith Lia.
From stdpp Require Import base numbers list strings gmap pretty.
From S2P Require Import Prelude Errors Platform State FileSystem Records Headers Frames.

Local Open Scope N_scope.

(** [struct Wal]. *)
Record Wal := mkWal {
  wal_file : BufAppend;
  wal_path : Path;
  wal_sync : SyncMode;
  wal_cksum : Checksum;
  wal_counted : bool
}.

(** Programs over a log and the filesystem beneath it. *)
Abbreviation WalM := (ST (Wal * FsState)).

Definition set_wal_file (b : BufAppend) (w : Wal) : Wal :=
  mkWal b (wal_path w) (wal_sync w) (wal_cksum w) (wal_counted w).
Definition set_wal_path (p : Path) (w : Wal) : Wal :=
  mkWal (wal_file w) p (wal_sync w) (wal_cksum w) (wal_counted w).

Definition on_wal_file {A} (m : BufM A) : WalM A :=
  zoom (fun s => (wal_file s.1, s.2)) (fun t s => (set_wal_file t.1 s.1, t.2)) m.
Definition on_wal_fs {A} (m : FsM A) : WalM A := zoom snd (fun f s => (s.1, f)) m.

(** Frames of files from before version 2 hold one record and no count. *)
Definition counted_kind (kind : Kind) : bool :=
  match kind with
  | Legacy => false
  | Versioned v => negb (v =? 1)
  | Empty => true
  end.

Section wal.
Context `{Platform}.

(** [Wal::create]. *)
Definition wal_create (path : Path) (sync : SyncMode) : FsM Wal :=
  file ← open path Truncate;
  '(_, b) ← with_buf (buf_new file)
    (_ ← buf_write (encode_header WAL_MAGIC WAL_VERSION); buf_flush);
  mret (mkWal b path sync (wal_checksum (Versioned WAL_VERSION)) true).

(** [Wal::open_append]. *)
Definition wal_open_append (path : Path) (sync : SyncMode) : FsM Wal :=
  file ← open path Append;
  existing ← file_size file;
  front ← (if existing =? 0 then mret [] else read_at file 0 HEADER_LEN);
  kind ← lift (classify front WAL_MAGIC WAL_VERSION "the write-ahead log");
  let effective := match kind with Empty => Versioned WAL_VERSION | other => other end in
  let counted := counted_kind effective in
  let w b := mkWal b path sync (wal_checksum effective) counted in
  if existing =? 0 then
    '(_, b) ← with_buf (buf_new file)
      (_ ← buf_write (encode_header WAL_MAGIC WAL_VERSION); buf_flush);
    mret (w b)
  else mret (w (buf_new file)).

(** The payload [append_batch] builds. *)
Definition batch_payload (counted : bool) (records : list Rec) : bytes :=
  foldl encode_into (if counted then le_bytes 4 (as_u32 (len records)) else []) records.

(** [Wal::append_batch]. *)
Definition wal_append_batch (records : list Rec) : WalM unit :=
  w ← gets fst;
  if bool_decide (records = []) then mret tt
  else if negb (wal_counted w) && (1 <? len records) then
    fail (BadFormat (display (wal_path w) +:+
      " is a version 1 write-ahead log and cannot hold a batch of " +:+
      pretty (len records) +:+
      " records; it is replaced by a version 2 file at the next flush"))
  else
    let payload := batch_payload (wal_counted w) records in
    let crc := hash (wal_cksum w) payload in
    on_wal_file (
      _ ← buf_write (le_bytes 4 crc);
      _ ← buf_write (le_bytes 4 (as_u32 (len payload)));
      _ ← buf_write payload;
      _ ← buf_flush;
      buf_sync_as (wal_sync w)).

(** [Wal::append]. *)
Definition wal_append (record : Rec) : WalM unit := wal_append_batch [record].

(** [Wal::sync]. *)
Definition wal_sync_all : WalM unit :=
  on_wal_file (_ ← buf_flush; buf_sync_as Durable).

(** [Wal::rename_to]. *)
Definition wal_rename_to (dest : Path) : WalM unit :=
  w ← gets fst;
  _ ← on_wal_fs (rename (wal_path w) dest);
  modify (fun s => (set_wal_path dest s.1, s.2)).

(** [for _ in 0..count { batch.push(Record::decode_at(payload, &mut rpos)?) }].
    A record takes at least seventeen bytes, so a turn per byte is enough. *)
Fixpoint decode_batch (fuel : nat) (payload : bytes) (rpos count : N) (batch : list Rec)
    : outcome (list Rec * N) :=
  if count =? 0 then Ok (batch, rpos)
  else match fuel with
       | O => Panic
       | S fuel =>
           '(r, rpos) ← decode_at payload rpos;
           decode_batch fuel payload rpos (count - 1) (batch ++ [r])
       end.

(** The batch in one frame's payload. *)
Definition frame_batch (counted : bool) (payload : bytes) : outcome (list Rec) :=
  '(rpos, count) ←
    (if counted then
       if len payload <? 4 then Err (Corrupt "WAL frame too short for a batch count")
       else c ← slice payload 0 4; n ← from_le 4 c; Ok (4, n)
     else Ok (0, 1));
  '(batch, rpos) ← decode_batch (S (length payload)) payload rpos count [];
  if negb (rpos =? len payload) then Err (Corrupt "trailing bytes in WAL frame")
  else Ok batch.

(** The loop of [Wal::replay] over the frames from [pos]; a frame takes at
    least eight bytes. *)
Fixpoint replay_frames (fuel : nat) (cs : Checksum) (counted : bool) (b : bytes) (pos : N)
    (records : list Rec) : outcome (list Rec) :=
  match fuel with
  | O => Panic
  | S fuel =>
      f ← read_frame cs b pos;
      match f with
      | None => Ok records
      | Some (payload, e) =>
          batch ← frame_batch counted payload;
          replay_frames fuel cs counted b e (records ++ batch)
      end
  end.

(** [Wal::replay] on the bytes of the file. *)
Definition replay_bytes (b : bytes) : outcome (list Rec) :=
  kind ← classify b WAL_MAGIC WAL_VERSION "the write-ahead log";
  match kind with
  | Empty => Ok []
  | _ => replay_frames (S (length b)) (wal_checksum kind) (counted_kind kind) b
           (frames_start kind) []
  end.

(** [Wal::replay]. *)
Definition wal_replay (path : Path) : FsM (list Rec) :=
  r ← attempt (open path Read);
  match r with
  | inl h => b ← read_all h; lift (replay_bytes b)
  | inr (Io NotFound) => mret []
  | inr e => fail e
  end.
End wal.

(** ** Lemmas *)

Section wal_lemmas.
Context `{Platform}.

(** One frame as [append_batch] writes it. *)
Definition frame (cs : Checksum) (counted : bool) (records : list Rec) : bytes :=
  frame_bytes cs (batch_payload counted records).

(** A batch whose frame holds it: not empty, one record where frames carry no
    count, and lengths that fit their fields. *)
Definition wf_batch (counted : bool) (records : list Rec) : Prop :=
  records <> [] /\ Forall wf_rec records /\ (counted = false -> length records = 1%nat) /\
  len (batch_payload counted records) <= U32_MAX.

#[global] Instance wf_batch_dec counted records : Decision (wf_batch counted records).
Proof. unfold wf_batch. apply _. Defined.

Lemma batch_payload_layout counted records :
  batch_payload counted records =
    (if counted then le_bytes 4 (as_u32 (len records)) else []) ++ concat (encode <$> records).
Proof.
  unfold batch_payload. generalize (if counted then le_bytes 4 (as_u32 (len records)) else []).
  induction records as [|r l IH]; intros b; simpl; [by rewrite app_nil_r|].
  rewrite IH, encode_into_app, <- app_assoc. done.
Qed.

Lemma length_encodes records : 17 * len records <= len (concat (encode <$> records)).
Proof.
  induction records as [|r l IH]; [done|]. rewrite fmap_cons. cbn [concat].
  pose proof (length_encode r). pose proof (encoded_len_ge r). len.
Qed.

Lemma decode_batch_encodes fuel p records q batch :
  Forall wf_rec records -> (length records <= fuel)%nat ->
  decode_batch fuel (p ++ concat (encode <$> records) ++ q) (len p) (len records) batch =
    Ok (batch ++ records, len (p ++ concat (encode <$> records))).
Proof.
  revert fuel p batch. induction records as [|r l IH]; intros fuel p batch Hwf Hf.
  - destruct fuel; simpl; by rewrite !app_nil_r.
  - apply Forall_cons in Hwf as [Hr Hl]. destruct fuel as [|fuel]; simpl in Hf; [lia|].
    rewrite fmap_cons. cbn [decode_batch concat].
    destruct (N.eqb_spec (len (r :: l)) 0) as [E|_]; [len|].
    rewrite <- !app_assoc, decode_encode_at by done. obind.
    replace (len (r :: l) - 1) with (len l) by len.
    replace (len p + encoded_len r) with (len (p ++ encode r))
      by (rewrite <- length_encode; len).
    rewrite app_assoc, IH by (done || lia). rewrite <- !app_assoc. done.
Qed.

(** The reader of a frame's payload gives back the batch that was written. *)
Lemma frame_batch_payload counted records :
  wf_batch counted records -> frame_batch counted (batch_payload counted records) = Ok records.
Proof.
  intros (Hne & Hwf & Hone & Hlen). unfold frame_batch.
  rewrite batch_payload_layout in *. pose proof (length_encodes records) as Hn.
  set (e := concat (encode <$> records)) in *.
  destruct counted.
  - rewrite as_u32_small in * by len. set (c := le_bytes 4 (len records)) in *.
    assert (len c = 4) as Hc by (subst c; len).
    destruct (N.ltb_spec (len (c ++ e)) 4); [len|].
    assert (slice (c ++ e) 0 4 = Ok c) as -> by (apply (slice_app 0 4 [] c e); simpl; lia). obind.
    assert (from_le 4 c = Ok (len records)) as -> by (apply from_le_u32; unfold U32_MAX in *; len).
    obind. pose proof (decode_batch_encodes (S (length (c ++ e))) c records [] [] Hwf) as E.
    fold e in E. rewrite app_nil_r, Hc in E. rewrite E by len. obind. by rewrite N.eqb_refl.
  - destruct records as [|r [|]]; simpl in Hone; [done| |by specialize (Hone eq_refl)].
    obind. pose proof (decode_batch_encodes (S (length e)) [] [r] [] [] Hwf) as E.
    fold e in E. rewrite app_nil_r in E. simpl app in *.
    change (len [r]) with 1 in E. change (len (@nil byte)) with 0 in E.
    rewrite E by (simpl; lia). obind. by rewrite N.eqb_refl.
Qed.

(** Replay reads whole frames and goes on behind them. *)
Lemma replay_frames_app fuel cs counted p batches t recs :
  Forall (wf_batch counted) batches -> (length batches < fuel)%nat ->
  exists fuel', replay_frames fuel cs counted (p ++ concat (frame cs counted <$> batches) ++ t) (len p) recs =
    replay_frames (S fuel') cs counted ((p ++ concat (frame cs counted <$> batches)) ++ t)
      (len (p ++ concat (frame cs counted <$> batches))) (recs ++ concat batches).
Proof.
  revert fuel p recs. induction batches as [|r l IH]; intros fuel p recs Hwf Hf;
    (destruct fuel as [|fuel]; simpl in Hf; [lia|]).
  - exists fuel. change (concat (frame cs counted <$> [])) with (@nil byte). cbn [app concat]. by rewrite !app_nil_r.
  - apply Forall_cons in Hwf as [Hr Hl]. destruct (IH fuel (p ++ frame cs counted r) (recs ++ r)) as [fuel' E]; [done|lia|].
    exists fuel'. rewrite fmap_cons. cbn [concat]. rewrite <- !app_assoc in E. rewrite <- !app_assoc, <- E.
    cbn [replay_frames]. change (frame cs counted r) with (frame_bytes cs (batch_payload counted r)). rewrite read_frame_at by apply Hr. obind.
    rewrite frame_batch_payload by done. obind. by rewrite length_app, Nat2N.inj_add.
Qed.

(** Every frame takes room, so a turn per byte is enough. *)
Lemma length_frames cs counted (batches : list (list Rec)) :
  (length batches <= length (concat (frame cs counted <$> batches)))%nat.
Proof.
  induction batches as [|r l IH]; [done|]. rewrite fmap_cons. cbn [concat length].
  unfold frame at 1. pose proof (length_frame_bytes cs (batch_payload counted r)). len.
Qed.

(** The bytes of a log of a given kind that holds [batches]. *)
Definition wal_image (v : N) (batches : list (list Rec)) : bytes :=
  encode_header WAL_MAGIC v ++
  concat (frame (wal_checksum (Versioned v)) (counted_kind (Versioned v)) <$> batches).

Lemma length_wal_header v : len (encode_header WAL_MAGIC v) = 8.
Proof. by rewrite (length_encode_header WAL_MAGIC v). Qed.

(** What replay makes of an image and [t] is what it makes of [t] behind the batches. *)
Lemma replay_bytes_image v batches t :
  v <= WAL_VERSION -> Forall (wf_batch (counted_kind (Versioned v))) batches ->
  exists fuel, replay_bytes (wal_image v batches ++ t) =
    replay_frames (S fuel) (wal_checksum (Versioned v)) (counted_kind (Versioned v)) (wal_image v batches ++ t)
      (len (wal_image v batches)) (concat batches).
Proof.
  intros Hv Hwf. set (cs := wal_checksum (Versioned v)). set (ct := counted_kind (Versioned v)) in *.
  set (hdr := encode_header WAL_MAGIC v). set (b := concat (frame cs ct <$> batches)).
  destruct (replay_frames_app (S (length (hdr ++ b ++ t))) cs ct hdr batches t []) as [fuel E]; [done| |].
  - pose proof (length_frames cs ct batches) as Hl. fold b in Hl. len.
  - exists fuel. change (wal_image v batches) with (hdr ++ b). fold b in E. cbn [app] in E. rewrite <- E.
    unfold replay_bytes. rewrite <- app_assoc. unfold hdr.
    rewrite classify_encode by (done || unfold WAL_VERSION, U16_MAX in *; lia). obind.
    change (frames_start (Versioned v)) with 8. rewrite (length_wal_header v). done.
Qed.

Lemma replay_bytes_versioned v batches t :
  v <= WAL_VERSION -> Forall (wf_batch (counted_kind (Versioned v))) batches -> no_frame (wal_checksum (Versioned v)) t ->
  replay_bytes (wal_image v batches ++ t) = Ok (concat batches).
Proof.
  intros Hv Hwf Ht. destruct (replay_bytes_image v batches t Hv Hwf) as [fuel ->]. cbn [replay_frames]. rewrite Ht. by obind.
Qed.

(** Eight zero bytes are the frame of no bytes if the checksum of no bytes is zero, and
    a frame of no bytes has no count. *)
Lemma replay_bytes_empty_frame v batches t :
  v <= WAL_VERSION -> Forall (wf_batch (counted_kind (Versioned v))) batches -> counted_kind (Versioned v) = true ->
  replay_bytes (wal_image v batches ++ frame_bytes (wal_checksum (Versioned v)) [] ++ t) =
    Err (Corrupt "WAL frame too short for a batch count").
Proof.
  intros Hv Hwf Hc. destruct (replay_bytes_image v batches (frame_bytes (wal_checksum (Versioned v)) [] ++ t) Hv Hwf) as [fuel ->].
  cbn [replay_frames]. rewrite read_frame_at by done. obind. by rewrite Hc.
Qed.

(** Fewer bytes than a header replay to nothing. *)
Lemma replay_bytes_short b : len b < 8 -> replay_bytes b = Ok [].
Proof.
  intros Hl. unfold replay_bytes, classify, HEADER_LEN.
  destruct (N.eqb_spec (len b) 0); [done|].
  rewrite (proj2 (N.leb_gt 8 (len b))) by done. cbn [andb]. obind. cbn [replay_frames].
  assert (read_frame (wal_checksum Legacy) b (frames_start Legacy) = Ok None) as ->
    by (apply (read_frame_torn _ [] b); by left). done.
Qed.

Lemma torn_nil : torn_tail [].
Proof. left. simpl. lia. Qed.

(** A log cut anywhere replays to a run of whole batches. *)
Lemma replay_bytes_truncated v batches n :
  v <= WAL_VERSION -> Forall (wf_batch (counted_kind (Versioned v))) batches ->
  exists j, replay_bytes (take n (wal_image v batches)) = Ok (concat (take j batches)) /\
    (len (wal_image v (take j batches)) <= N.max 8 (N.of_nat n)) /\
    ((j < length batches)%nat -> N.of_nat n < len (wal_image v (take (S j) batches))).
Proof.
  intros Hv Hwf. set (cs := wal_checksum (Versioned v)). set (ct := counted_kind (Versioned v)) in *.
  assert (forall l, len (wal_image v l) = 8 + len (concat (frame cs ct <$> l))) as Himg.
  { intros l. unfold wal_image. pose proof (length_wal_header v). fold cs ct. len. }
  assert (forall l : list (list Rec), frame cs ct <$> l = frame_bytes cs <$> (batch_payload ct <$> l)) as Hfr.
  { intros l. by rewrite <- list_fmap_compose. }
  destruct (take_frames cs (batch_payload ct <$> batches) (n - 8)) as (j & t & E & Ht & Hj & Hle & Hlt).
  { apply Forall_fmap. eapply Forall_impl; [exact Hwf|]. intros r Hr. apply Hr. }
  rewrite <- !fmap_take, <- !Hfr in *. rewrite length_fmap in *.
  exists j. rewrite !Himg. split_and!; [|lia|intros; destruct (decide (8 <= n)%nat); lia].
  destruct (decide (8 <= n)%nat) as [Hn|Hn].
  - unfold wal_image. pose proof (length_wal_header v). fold cs ct.
    rewrite take_app_ge by lia. replace (n - length (encode_header WAL_MAGIC v))%nat with (n - 8)%nat by lia.
    rewrite E. rewrite app_assoc.
    apply (replay_bytes_versioned v (take j batches) t); [done|by apply Forall_take|by apply torn_no_frame].
  - replace (n - 8)%nat with 0%nat in * by lia. rewrite take_0 in E.
    symmetry in E. apply app_nil in E as [E _].
    assert (take j batches = []) as ->.
    { destruct (take j batches) as [|r l]; [done|]. rewrite fmap_cons in E. cbn [concat] in E.
      apply app_nil in E as [E _]. apply (f_equal length) in E.
      unfold frame in E. pose proof (length_frame_bytes cs (batch_payload ct r)). simpl in E. lia. }
    apply replay_bytes_short. len.
Qed.

(** [append_batch] under any faults: the whole frame is in the file and the
    call succeeded, or a prefix of it is and the call failed. *)
Lemma wal_append_batch_cases records w s :
  ba_buf (wal_file w) = [] -> is_Some (fs_inodes s !! ba_file (wal_file w)) ->
  wf_batch (wal_counted w) records ->
  exists x o w' s', wal_append_batch records (w, s) = (o, (w', s')) /\
    appended (ba_file (wal_file w)) x s s' /\
    x `prefix_of` frame (wal_cksum w) (wal_counted w) records /\
    ba_file (wal_file w') = ba_file (wal_file w) /\ wal_path w' = wal_path w /\
    wal_sync w' = wal_sync w /\ wal_cksum w' = wal_cksum w /\ wal_counted w' = wal_counted w /\
    ((o = Ok tt /\ x = frame (wal_cksum w) (wal_counted w) records /\ ba_buf (wal_file w') = []) \/
     exists k, o = Err (Io k)) /\
    (quiet s -> o = Ok tt /\ quiet s').
Proof.
  intros Hb Hh (Hne & Hwf & Hone & Hlen). destruct w as [b path sync cs counted].
  cbn [wal_file wal_path wal_sync wal_cksum wal_counted] in *.
  unfold wal_append_batch. rewrite bind_gets. cbn [fst]. rewrite bool_decide_false by done.
  cbn [wal_file wal_path wal_sync wal_cksum wal_counted].
  destruct (negb counted && (1 <? len records)) eqn:Ebad.
  { destruct counted; [done|]. rewrite (Hone eq_refl) in Ebad. done. }
  set (pl := batch_payload counted records) in *.
  set (pieces := [le_bytes 4 (hash cs pl); le_bytes 4 (as_u32 (len pl)); pl]).
  assert (frame cs counted records = concat pieces) as Efr.
  { unfold frame, frame_bytes, pieces. fold pl. cbn [concat]. by rewrite app_nil_r. }
  rewrite Efr.
  unfold on_wal_file, zoom. cbn [fst snd wal_file].
  assert ((_ ← buf_write (le_bytes 4 (hash cs pl)); _ ← buf_write (le_bytes 4 (as_u32 (len pl)));
           _ ← buf_write pl; _ ← buf_flush; buf_sync_as sync) (b, s) =
          (_ ← for_each pieces buf_write; _ ← buf_flush; buf_sync_as sync) (b, s)) as ->.
  { unfold pieces. rewrite for_each_cons. apply bind_ext. intros _ s1.
    rewrite for_each_cons. apply bind_ext. intros _ s2. rewrite for_each_cons. done. }
  destruct (buf_prog_cases pieces sync b s) as (x & o & b' & s' & E & Ha & Hx & Hf & Ho & Hq);
    [done|done|].
  rewrite E. exists x, o, (mkWal b' path sync cs counted), s'.
  split_and!; done.
Qed.
(** *** Arbitrary bytes *)

Lemma decode_batch_no_panic fuel payload rpos count batch :
  rpos <= len payload -> len payload < rpos + N.of_nat fuel ->
  decode_batch fuel payload rpos count batch <> Panic.
Proof.
  revert rpos count batch. induction fuel as [|fuel IH]; intros rpos count batch Hr Hf; [lia|].
  cbn [decode_batch]. destruct (count =? 0); [done|].
  destruct (decode_at_cases payload rpos) as [(r & pos' & -> & _ & ? & ?)|[m ->]]; obind; [|done].
  apply IH; lia.
Qed.

Lemma frame_batch_no_panic counted payload : frame_batch counted payload <> Panic.
Proof.
  unfold frame_batch. destruct counted; obind.
  - destruct (N.ltb_spec (len payload) 4); [done|]. rewrite slice_in by lia. obind.
    rewrite from_le_ok by (pose proof (length_sub_list 0 4 payload); lia). obind.
    pose proof (decode_batch_no_panic (S (length payload)) payload 4
      (le_value (sub_list 0 4 payload)) []) as Hp.
    destruct (decode_batch _ _ _ _ _) as [[? ?]|?|]; obind; [by case_match|done|]. exfalso. apply Hp; [lia..|done].
  - pose proof (decode_batch_no_panic (S (length payload)) payload 0 1 []) as Hp.
    destruct (decode_batch _ _ _ _ _) as [[? ?]|?|]; obind; [by case_match|done|]. exfalso. apply Hp; [lia..|done].
Qed.

Lemma replay_frames_no_panic fuel cs counted b pos recs :
  len b < pos + N.of_nat fuel -> pos <= len b + 8 -> (1 <= fuel)%nat ->
  replay_frames fuel cs counted b pos recs <> Panic.
Proof.
  revert pos recs. induction fuel as [|fuel IH]; intros pos recs Hf Hp H1; [lia|]. cbn [replay_frames].
  destruct (read_frame_cases cs b pos) as [->|(payload & e & -> & He & _)]; obind; [done|].
  pose proof (frame_batch_no_panic counted payload).
  destruct (frame_batch counted payload); obind; [|done|done]. apply IH; lia.
Qed.

Lemma replay_bytes_no_panic b : replay_bytes b <> Panic.
Proof.
  unfold replay_bytes. pose proof (classify_no_panic b WAL_MAGIC WAL_VERSION "the write-ahead log").
  destruct (classify b WAL_MAGIC WAL_VERSION "the write-ahead log") as [kind|e|]; obind; [|done|done].
  destruct kind; [done|..]; apply replay_frames_no_panic; cbn [frames_start]; unfold HEADER_LEN; lia.
Qed.

(** Every record replay returns is one that can be written again. *)
Lemma decode_batch_wf fuel payload rpos count batch r :
  Forall wf_rec batch -> decode_batch fuel payload rpos count batch = Ok r -> Forall wf_rec r.1.
Proof.
  revert rpos count batch. induction fuel as [|fuel IH]; intros rpos count batch Hb;
    cbn [decode_batch]; (destruct (count =? 0); [by intros [= <-]|]); [done|].
  destruct (decode_at_cases payload rpos) as [(x & pos' & -> & Hx & _)|[m ->]]; obind; [|done].
  apply IH. apply Forall_app. by split; [|apply Forall_singleton].
Qed.

Lemma replay_frames_wf fuel cs counted b pos recs out :
  Forall wf_rec recs -> replay_frames fuel cs counted b pos recs = Ok out -> Forall wf_rec out.
Proof.
  revert pos recs. induction fuel as [|fuel IH]; intros pos recs Hr E; [done|]. cbn [replay_frames] in E.
  apply bind_ok in E as ([[payload e]|] & _ & E); [|by injection E as <-].
  apply bind_ok in E as (batch & Eb & E). eapply IH; [|exact E]. apply Forall_app. split; [done|].
  unfold frame_batch in Eb. apply bind_ok in Eb as ([rpos count] & _ & Eb).
  apply bind_ok in Eb as ([batch' rpos'] & Ed & Eb).
  destruct (negb _); [done|]. injection Eb as <-.
  by eapply (decode_batch_wf _ _ _ _ [] (batch', rpos')).
Qed.

Lemma replay_bytes_wf b recs : replay_bytes b = Ok recs -> Forall wf_rec recs.
Proof.
  unfold replay_bytes. intros E. apply bind_ok in E as (kind & _ & E).
  destruct kind; [by injection E as <-|..]; (eapply replay_frames_wf; [|exact E]); done.
Qed.

(** *** The log as the engine uses it *)

(** [w] is an open log whose file holds [batches] and whose buffer is empty. *)
Definition wal_holds (w : Wal) (s : FsState) (v : N) (batches : list (list Rec)) : Prop :=
  v <= WAL_VERSION /\ fs_names s !! wal_path w = Some (ba_file (wal_file w)) /\
  is_Some (fs_inodes s !! ba_file (wal_file w)) /\ ba_buf (wal_file w) = [] /\
  wal_cksum w = wal_checksum (Versioned v) /\ wal_counted w = counted_kind (Versioned v) /\
  file_data s (ba_file (wal_file w)) = wal_image v batches.

Lemma wal_image_snoc v batches b :
  wal_image v (batches ++ [b]) =
    wal_image v batches ++ frame (wal_checksum (Versioned v)) (counted_kind (Versioned v)) b.
Proof.
  unfold wal_image. rewrite fmap_app, fmap_cons, fmap_nil, concat_app. cbn [concat].
  by rewrite app_nil_r, app_assoc.
Qed.

Lemma wal_append_batch_holds batch w s v batches :
  wal_holds w s v batches -> wf_batch (wal_counted w) batch ->
  exists o w' s' x, wal_append_batch batch (w, s) = (o, (w', s')) /\
    wal_path w' = wal_path w /\ wal_counted w' = wal_counted w /\
    fs_names s' = fs_names s /\
    x `prefix_of` frame (wal_checksum (Versioned v)) (counted_kind (Versioned v)) batch /\
    file_data s' (ba_file (wal_file w)) = wal_image v batches ++ x /\
    is_Some (fs_inodes s' !! ba_file (wal_file w)) /\
    ((o = Ok tt /\ wal_holds w' s' v (batches ++ [batch])) \/ exists k, o = Err (Io k)) /\
    (quiet s -> o = Ok tt /\ quiet s').
Proof.
  intros (Hv & Hn & Hi & Hb & Hc & Hct & Hd) Hwf.
  destruct (wal_append_batch_cases batch w s Hb Hi Hwf)
    as (x & o & w' & s' & E & Ha & Hx & Hf & Hp & _ & Hc' & Hct' & Ho & Hq).
  pose proof (appended_data _ _ _ _ Ha) as Hd'. destruct Ha as (_ & Hval & Hnm & _).
  rewrite Hc, Hct in *. rewrite Hd in Hd'.
  exists o, w', s', x. split_and!; try done; [by apply Hval|].
  destruct Ho as [(-> & -> & Hb')|?]; [left|by right]. split; [done|].
  unfold wal_holds. rewrite Hp, Hf, Hnm, Hc', Hct'. split_and!; try done; [by apply Hval|].
  by rewrite wal_image_snoc.
Qed.

(** Appends that all returned [Ok]. *)
Lemma wal_appends_ok bs w s v batches w' s' :
  wal_holds w s v batches -> Forall (wf_batch (wal_counted w)) bs ->
  for_each bs wal_append_batch (w, s) = (Ok tt, (w', s')) ->
  wal_holds w' s' v (batches ++ bs) /\ wal_path w' = wal_path w /\ wal_counted w' = wal_counted w.
Proof.
  revert w s batches. induction bs as [|b bs IH]; intros w s batches Hh Hwf E; cbn [for_each] in E.
  - injection E as <- <-. by rewrite app_nil_r.
  - apply Forall_cons in Hwf as [Hb Hwf].
    destruct (wal_append_batch_holds b w s v batches Hh Hb)
      as (o & w1 & s1 & x & E1 & Hp & Hc & _ & _ & _ & _ & [[-> Hh1]|[k ->]] & _).
    + rewrite (bind_run_ok _ _ _ _ _ E1) in E.
      destruct (IH w1 s1 (batches ++ [b])) as (? & ? & ?); [done|by rewrite Hc|done|].
      rewrite <- app_assoc in *. split_and!; [done|congruence..].
    + by rewrite (bind_run_err _ _ _ _ _ E1) in E.
Qed.

(** Replay in a new process reads the bytes the file has. *)
Lemma wal_replay_quiet path h s :
  quiet s -> fs_names s !! path = Some h ->
  wal_replay path s = (replay_bytes (file_data s h), s).
Proof.
  intros Hq Hn. unfold wal_replay. rewrite (bind_attempt_ok _ _ _ _ _ (open_read_quiet _ _ _ Hq Hn)).
  run (read_all_quiet h s Hq). done.
Qed.

Lemma wal_replay_reboot path h s :
  fs_names s !! path = Some h -> (wal_replay path (reboot s)).1 = replay_bytes (file_data s h).
Proof. intros Hn. by rewrite (wal_replay_quiet path h (reboot s)). Qed.

(** A prefix of a frame after an image: replay sees the frame or does not. *)
Lemma replay_bytes_prefix v batches batch x :
  v <= WAL_VERSION -> Forall (wf_batch (counted_kind (Versioned v))) batches ->
  wf_batch (counted_kind (Versioned v)) batch ->
  x `prefix_of` frame (wal_checksum (Versioned v)) (counted_kind (Versioned v)) batch ->
  exists kept, kept `prefix_of` [batch] /\
    replay_bytes (wal_image v batches ++ x) = Ok (concat (batches ++ kept)).
Proof.
  intros Hv Hwf Hb [y Hy]. destruct y as [|z y].
  - rewrite app_nil_r in Hy. subst x. exists [batch]. split; [done|].
    rewrite <- wal_image_snoc, <- (app_nil_r (wal_image _ _)).
    apply replay_bytes_versioned; [done| |apply no_frame_nil]. apply Forall_app. by split; [|constructor].
  - exists []. split; [apply prefix_nil|]. rewrite app_nil_r. apply replay_bytes_versioned; [done..|].
    assert (x = take (length x) (frame (wal_checksum (Versioned v)) (counted_kind (Versioned v)) batch))
      as -> by (by rewrite Hy, take_app_length).
    apply torn_no_frame, frame_prefix_torn; [apply Hb|]. unfold frame in Hy. rewrite Hy, length_app. simpl. lia.
Qed.

(** A log that was just created. *)
Lemma wal_create_ok path sync s w s' :
  fs_wf s -> wal_create path sync s = (Ok w, s') ->
  wal_holds w s' WAL_VERSION [] /\ wal_path w = path /\ wal_sync w = sync /\ wal_counted w = true.
Proof.
  intros Hwf E. unfold wal_create in E.
  apply bind_run_inv in E as (h & s1 & E1 & E).
  destruct (open_truncate_ok _ _ _ _ Hwf E1) as (_ & Hn & Hi & _).
  apply bind_run_inv in E as ([[] b] & s2 & E2 & E). injection E as <- <-.
  unfold with_buf in E2.
  assert ((_ ← buf_write (encode_header WAL_MAGIC WAL_VERSION); buf_flush) (buf_new h, s1) =
    (_ ← for_each [encode_header WAL_MAGIC WAL_VERSION] buf_write; _ ← buf_flush; buf_sync_as NoSync)
      (buf_new h, s1)) as Eq.
  { rewrite for_each_cons. apply bind_ext. intros _ t. cbn [for_each]. rewrite bind_mret.
    unfold mbind, ST_bind at 1. destruct (buf_flush t) as [[[]|?|] [? ?]]; done. }
  rewrite Eq in E2. clear Eq.
  destruct (buf_prog_cases [encode_header WAL_MAGIC WAL_VERSION] NoSync (buf_new h) s1)
    as (x & o & b' & s3 & E3 & Ha & _ & Hf & Ho & _); [done|by eexists|].
  rewrite E3 in E2. destruct Ho as [(-> & -> & Hb)|[k ->]]; [|done]. injection E2 as <- <-.
  pose proof (appended_data _ _ _ _ Ha) as Hd. destruct Ha as (_ & Hval & Hnm & _).
  split; [|done]. unfold wal_holds. cbn [wal_path wal_file wal_cksum wal_counted]. rewrite Hf.
  cbn [buf_new buf_with_capacity ba_file] in *. split_and!; try done.
  - rewrite Hnm, Hn. by rewrite lookup_insert_eq.
  - apply Hval. by eexists.
  - rewrite Hd. unfold file_data. rewrite Hi. done.
Qed.
End wal_lemmas.

(** ** Properties *)

Section wal_properties.
Context `{Platform}.

(** C31: replay inverts the log's writer, for the current format and for files
    of the older versions, and it is torn-write safe: the whole image of a run of
    batches replays to all their records in order, and the image cut after any
    number of bytes replays to the records of the batches that are completely
    inside the cut, never to part of a batch. *)
Theorem wal_replay_truncated (v : N) (batches : list (list Rec)) (n : nat) :
  v <= WAL_VERSION -> Forall (wf_batch (counted_kind (Versioned v))) batches ->
  replay_bytes (wal_image v batches) = Ok (concat batches) /\
  exists j, replay_bytes (take n (wal_image v batches)) = Ok (concat (take j batches)) /\
    (len (wal_image v (take j batches)) <= N.max 8 (N.of_nat n)) /\
    ((j < length batches)%nat -> N.of_nat n < len (wal_image v (take (S j) batches))).
Proof.
  intros Hv Hwf. split; [|by apply replay_bytes_truncated].
  rewrite <- (app_nil_r (wal_image _ _)). by apply replay_bytes_versioned, no_frame_nil.
Qed.

(** C32: replaying any file never panics and always returns: it is an error, or
    a list of records whose lengths fit their fields, so they can be logged
    again; [replay] of a log that does not exist is empty. *)
Theorem wal_replay_any_bytes (b : bytes) (path : Path) (s : FsState) :
  match replay_bytes b with
  | Ok recs => Forall wf_rec recs
  | Err _ => True
  | Panic => False
  end /\
  (fs_names s !! path = None -> (wal_replay path (reboot s)).1 = Ok []).
Proof.
  split.
  - pose proof (replay_bytes_no_panic b). destruct (replay_bytes b) eqn:E; [|done|done].
    by apply replay_bytes_wf in E.
  - intros Hn. change (fs_names (reboot s) !! path = None) in Hn.
    unfold wal_replay, open, attempt, mbind, ST_bind. by rewrite guarded_quiet, Hn by done.
Qed.

(** C33: an acknowledged batch survives a crash and a refused one is atomic.  A
    log is created, [bs] are appended and acknowledged, and one more batch is
    attempted while the device may fail, write part of the frame or die at any
    point; the process is started again and the log replayed.  Every record of
    [bs] is there in order, followed by all of the last batch or nothing of it;
    all of it if the append returned [Ok].  It never panics. *)
Theorem wal_acked_batches_survive (path : Path) (sync : SyncMode) (bs : list (list Rec))
    (last : list Rec) (s s1 s2 s3 : FsState) (w w2 w3 : Wal) (o : outcome unit) :
  fs_wf s -> wal_create path sync s = (Ok w, s1) ->
  Forall (wf_batch true) bs -> wf_batch true last ->
  for_each bs wal_append_batch (w, s1) = (Ok tt, (w2, s2)) ->
  wal_append_batch last (w2, s2) = (o, (w3, s3)) ->
  o <> Panic /\
  exists kept, kept `prefix_of` [last] /\
    (wal_replay path (reboot s3)).1 = Ok (concat (bs ++ kept)) /\
    (o = Ok tt -> kept = [last]).
Proof.
  intros Hfs Ec Hbs Hlast Ebs El.
  destruct (wal_create_ok path sync s w s1 Hfs Ec) as (Hh & Hp & _ & Hc).
  destruct (wal_appends_ok bs w s1 WAL_VERSION [] w2 s2 Hh) as (Hh2 & Hp2 & Hc2);
    [by rewrite Hc|done|]. cbn [app] in Hh2.
  destruct (wal_append_batch_holds last w2 s2 WAL_VERSION bs Hh2)
    as (o' & w' & s' & x & E & Hpw & Hcw & Hnm & Hx & Hd & Hi & Ho & _); [by rewrite Hc2, Hc|].
  rewrite E in El. injection El as -> -> ->.
  split; [by destruct Ho as [[-> _]|[k ->]]|].
  assert (fs_names s3 !! path = Some (ba_file (wal_file w2))) as Hn3
    by (rewrite Hnm, <- Hp, <- Hp2; apply Hh2).
  destruct Ho as [[-> Hh3]|[k ->]].
  - exists [last]. split_and!; [done| |done].
    rewrite (wal_replay_reboot _ _ _ Hn3).
    assert (ba_file (wal_file w3) = ba_file (wal_file w2)) as Hf.
    { destruct Hh3 as (_ & Hn' & _). rewrite Hpw, Hp2, Hp in Hn'. congruence. }
    destruct Hh3 as (_ & _ & _ & _ & _ & _ & Hd3). rewrite Hf in Hd3. rewrite Hd3.
    rewrite <- (app_nil_r (wal_image _ _)).
    apply replay_bytes_versioned; [done| |apply no_frame_nil]. apply Forall_app. by split; [|constructor].
  - destruct (replay_bytes_prefix WAL_VERSION bs last x) as (kept & Hk & Er); [done..|].
    exists kept. split_and!; [done| |done].
    by rewrite (wal_replay_reboot _ _ _ Hn3), Hd, Er.
Qed.
(** C34: whatever stands in the file behind the batches of a log, of any version, it
    does not change them: replay gives exactly the batches and ignores the rest, unless
    the rest begins with a frame whose checksum is that of its payload.  So a tail that
    a crash, the disk or a torn append left is discarded if the checksum detects it. *)
Theorem wal_replay_damaged_tail (v : N) (batches : list (list Rec)) (t : bytes) :
  v <= WAL_VERSION -> Forall (wf_batch (counted_kind (Versioned v))) batches ->
  replay_bytes (wal_image v batches ++ t) = Ok (concat batches) \/
  exists payload rest, t = frame_bytes (wal_checksum (Versioned v)) payload ++ rest /\ len payload <= U32_MAX.
Proof.
  intros Hv Hwf. destruct (frame_or_none (wal_checksum (Versioned v)) t) as [Ht|(payload & rest & -> & Hp)].
  - left. by apply replay_bytes_versioned.
  - right. eauto.
Qed.

(** C35: a log that ends in eight or more zero bytes, as a file whose length reached the
    disk before its data does, is refused, and with it the database.  CRC-32C gives zero
    for no bytes, so the zeros are a frame of no bytes with the right checksum, which is
    too short for the count of a batch: replay does not discard the tail, it returns
    [Corrupt]. *)
Theorem wal_zero_tail_refused (batches : list (list Rec)) (n : nat) :
  crc32c_hash [] = 0 -> Forall (wf_batch true) batches -> (8 <= n)%nat ->
  replay_bytes (wal_image WAL_VERSION batches ++ replicate n x00) = Err (Corrupt "WAL frame too short for a batch count").
Proof.
  intros Hcrc Hwf Hn.
  assert (replicate n x00 = frame_bytes (wal_checksum (Versioned WAL_VERSION)) [] ++ replicate (n - 8) x00) as ->.
  { replace n with (8 + (n - 8))%nat at 1 by lia. rewrite replicate_add. f_equal.
    unfold frame_bytes. change (hash (wal_checksum (Versioned WAL_VERSION)) []) with (as_u32 (crc32c_hash [])). by rewrite Hcrc. }
  by apply replay_bytes_empty_frame.
Qed.
End wal_properties.

(** An empty directory. *)
Definition empty_dir_fs (dir : string) (faults : list (option Fault)) : FsState :=
  mkFs ∅ ∅ ∅ {[dir]} ∅ 0 faults false.

Lemma empty_dir_fs_wf dir faults : fs_wf (empty_dir_fs dir faults).
Proof.
  split; simpl.
  - intros p h Hp. by rewrite lookup_empty in Hp.
  - intros h [i Hi]. by rewrite lookup_empty in Hi.
Qed.

Definition sample_batch (k : string) (seq : N) : list Rec :=
  [put (bytes_of_string k) [x01; x02] seq; tombstone (bytes_of_string "t") (seq + 1)].

Lemma wal_replay_truncated_witness :
  let _ := sample_platform true in
  let batches := [sample_batch "a" 0; sample_batch "b" 2] in
  replay_bytes (wal_image 2 batches) = Ok (concat batches) /\
  exists j, replay_bytes (take 70 (wal_image 2 batches)) = Ok (concat (take j batches)) /\
    (len (wal_image 2 (take j batches)) <= N.max 8 (N.of_nat 70)) /\
    ((j < length batches)%nat -> N.of_nat 70 < len (wal_image 2 (take (S j) batches))).
Proof.
  intros P batches. apply (wal_replay_truncated (H := P) 2 batches 70); [done|].
  by apply (bool_decide_unpack _).
Defined.

Lemma wal_replay_damaged_tail_witness :
  let _ := sample_platform true in
  let batches := [sample_batch "a" 0; sample_batch "b" 2] in
  let t := take 50 (frame Castagnoli true (sample_batch "c" 4)) ++ [xff; x00; x00; x00] in
  replay_bytes (wal_image 3 batches ++ t) = Ok (concat batches) \/
  exists payload rest, t = frame_bytes Castagnoli payload ++ rest /\ len payload <= U32_MAX.
Proof.
  intros P batches t. apply (wal_replay_damaged_tail (H := P) 3 batches t); [done|]. by apply (bool_decide_unpack _).
Defined.

Lemma wal_zero_tail_refused_witness :
  let _ := sample_platform true in
  replay_bytes (wal_image WAL_VERSION [sample_batch "a" 0] ++ replicate 20 x00) =
    Err (Corrupt "WAL frame too short for a batch count").
Proof.
  intros P. apply (wal_zero_tail_refused (H := P) [sample_batch "a" 0] 20); [done| |lia]. by apply (bool_decide_unpack _).
Defined.

Lemma wal_acked_batches_survive_witness :
  let _ := sample_platform true in
  let path := join "db" "wal.log" in
  let s := empty_dir_fs "db" [None; None; None; None; None; None; Some (FPartial 11 OtherIo)] in
  exists w s1 w2 s2 o w3 s3,
    wal_create path Durable s = (Ok w, s1) /\
    for_each [sample_batch "a" 0; sample_batch "b" 2] wal_append_batch (w, s1) = (Ok tt, (w2, s2)) /\
    wal_append_batch (sample_batch "c" 4) (w2, s2) = (o, (w3, s3)) /\
    (o <> Panic /\
     exists kept, kept `prefix_of` [sample_batch "c" 4] /\
       (wal_replay path (reboot s3)).1 =
         Ok (concat ([sample_batch "a" 0; sample_batch "b" 2] ++ kept)) /\
       (o = Ok tt -> kept = [sample_batch "c" 4])).
Proof.
  intros P path s. eexists _, _, _, _, _, _, _.
  split; [vm_compute; reflexivity|]. split; [vm_compute; reflexivity|].
  split; [vm_compute; reflexivity|].
  eapply (wal_acked_batches_survive (H := P) path Durable _ _ s).
  - apply empty_dir_fs_wf.
  - vm_compute; reflexivity.
  - by apply (bool_decide_unpack _).
  - by apply (bool_decide_unpack _).
  - vm_compute; reflexivity.
  - vm_compute; reflexivity.
Defined.

(** ** What a torn tail does to a log that is appended to again

    [open_append] does not cut the torn frame that replay stopped at, so a batch
    acknowledged after it is not found by the next replay. *)
Example torn_tail_hides_later_batches :
  let _ := sample_platform true in
  let path := join "db" "wal.log" in
  let torn := mkFs {[ 0 := mkInode (take 60 (wal_image 3 [sample_batch "a" 0; sample_batch "b" 2])) 0 ]}
                {[ path := 0 ]} ∅ {["db"%string]} ∅ 1 [] false in
  match wal_open_append path Durable torn with
  | (Ok w, s1) =>
      let '(o, (_, s2)) := wal_append_batch (sample_batch "c" 4) (w, s1) in
      o = Ok tt /\ (wal_replay path torn).1 = Ok (sample_batch "a" 0) /\
      (wal_replay path (reboot s2)).1 = Ok (sample_batch "a" 0)
  | _ => False
  end.
Proof. by vm_compute. Qed.
