(* ===== verification/Manifest.v ===== *)
(** * The manifest (src/src/manifest.rs)

    An append-only log of version edits that names the live tables and carries
    the counters, and the file [CURRENT] that names the live generation. *)
From Stdlib Require Import NArith Lia.
From stdpp Require Import base numbers list sorting strings gmap pretty.
From S2P Require Import Prelude Errors FileNames Platform State FileSystem Headers Frames.

Local Open Scope N_scope.

Definition PAYLOAD_LEN : N := 9.

(** [enum VersionEdit]. *)
Inductive VersionEdit :=
| AddTable (id : N)
| DeleteTable (id : N)
| SetNextSeq (s : N)
| SetNextSstId (id : N).

#[export] Instance VersionEdit_eq_dec : EqDecision VersionEdit.
Proof. solve_decision. Defined.

(** [VersionEdit::encode]. *)
Definition encode_edit (e : VersionEdit) : bytes :=
  let '(tag, body) :=
    match e with
    | AddTable id => (0, id)
    | DeleteTable id => (1, id)
    | SetNextSeq s => (2, s)
    | SetNextSstId id => (3, id)
    end in
  byte_of tag :: le_bytes 8 body.

(** [VersionEdit::decode]. *)
Definition decode_edit (payload : bytes) : outcome VersionEdit :=
  if negb (len payload =? PAYLOAD_LEN) then Err (Corrupt "bad manifest payload length")
  else
    b ← slice payload 1 9;
    body ← from_le 8 b;
    t ← index payload 0;
    match byte_val t with
    | 0 => Ok (AddTable body)
    | 1 => Ok (DeleteTable body)
    | 2 => Ok (SetNextSeq body)
    | 3 => Ok (SetNextSstId body)
    | other => Err (Corrupt ("bad manifest edit tag " +:+ pretty other))
    end.

(** [BTreeSet<u64>] as a strictly ascending list. *)
Fixpoint set_insert (x : N) (l : list N) : list N :=
  match l with
  | [] => [x]
  | y :: l' => if x <? y then x :: l else if x =? y then l else y :: set_insert x l'
  end.

Definition set_remove (x : N) (l : list N) : list N := filter (fun y => y <> x) l.

(** [struct ManifestState]. *)
Record ManifestState := mkState {
  live_tables : list N;
  st_next_seq : N;
  st_next_sst_id : N
}.

#[export] Instance ManifestState_eq_dec : EqDecision ManifestState.
Proof. solve_decision. Defined.

(** [ManifestState::default]. *)
Definition state_default : ManifestState := mkState [] 0 0.

(** [ManifestState::apply]. *)
Definition state_apply (st : ManifestState) (edit : VersionEdit) : ManifestState :=
  match edit with
  | AddTable id => mkState (set_insert id (live_tables st)) (st_next_seq st) (st_next_sst_id st)
  | DeleteTable id => mkState (set_remove id (live_tables st)) (st_next_seq st) (st_next_sst_id st)
  | SetNextSeq s => mkState (live_tables st) s (st_next_sst_id st)
  | SetNextSstId id => mkState (live_tables st) (st_next_seq st) id
  end.

(** [ManifestState::snapshot_edits]. *)
Definition snapshot_edits (st : ManifestState) : list VersionEdit :=
  SetNextSeq (st_next_seq st) :: SetNextSstId (st_next_sst_id st) :: (AddTable <$> live_tables st).

(** [struct Manifest]. *)
Record Manifest := mkManifest {
  m_dir : string;
  m_generation : N;
  m_file : BufAppend;
  m_cksum : Checksum
}.

Abbreviation ManifestM := (ST (Manifest * FsState)).

Definition on_manifest_file {A} (m : BufM A) : ManifestM A :=
  zoom (fun s => (m_file s.1, s.2))
    (fun t s => (mkManifest (m_dir s.1) (m_generation s.1) t.1 (m_cksum s.1), t.2)) m.
Definition on_manifest_fs {A} (m : FsM A) : ManifestM A := zoom snd (fun f s => (s.1, f)) m.

(** Run a program on a manifest that a function owns. *)
Definition with_manifest {A} (m0 : Manifest) (m : ManifestM A) : FsM (A * Manifest) := fun s =>
  match m (m0, s) with
  | (Ok a, (m', s')) => (Ok (a, m'), s')
  | (Err e, (_, s')) => (Err e, s')
  | (Panic, (_, s')) => (Panic, s')
  end.

Definition manifest_path (dir : string) (generation : N) : Path :=
  join dir (manifest_name generation).

Section manifest.
Context `{Platform}.

(** [Manifest::exists]. *)
Definition manifest_exists (dir : string) : FsM bool := exists_path (join dir CURRENT_FILENAME).

(** [read_current].  The message shows the contents as they are. *)
Definition read_current (dir : string) : FsM N :=
  h ← open (join dir CURRENT_FILENAME) Read;
  b ← read_all h;
  let name := trim b in
  lift (ok_or (strip_prefix (bytes_of_string "MANIFEST-") name ≫= parse_u64)
    (Corrupt ("bad CURRENT contents: " +:+ string_of_bytes name))).

(** [write_current]. *)
Definition write_current (dir : string) (generation : N) : FsM unit :=
  let tmp := join dir CURRENT_TMP in
  f ← open tmp Truncate;
  _ ← append f (manifest_text generation ++ [x0a]);
  _ ← file_sync f;
  _ ← rename tmp (join dir CURRENT_FILENAME);
  sync_dir dir.

(** [classify_manifest]. *)
Definition classify_manifest (dir : string) (generation : N) : FsM Kind :=
  r ← attempt (open (manifest_path dir generation) Read);
  front ← match r with
          | inl f => read_at f 0 HEADER_LEN
          | inr (Io NotFound) => mret []
          | inr e => fail e
          end;
  lift (classify front MANIFEST_MAGIC MANIFEST_VERSION "the manifest").

(** The three writes of one edit's frame in [append_batch]. *)
Definition write_edit (cs : Checksum) (edit : VersionEdit) : BufM unit :=
  let payload := encode_edit edit in
  _ ← buf_write (le_bytes 4 (hash cs payload));
  _ ← buf_write (le_bytes 4 (as_u32 (len payload)));
  buf_write payload.

(** [Manifest::append_batch]. *)
Definition manifest_append_batch (edits : list VersionEdit) : ManifestM unit :=
  m ← gets fst;
  on_manifest_file (_ ← for_each edits (write_edit (m_cksum m)); buf_sync).

(** [Manifest::create]. *)
Definition manifest_create (dir : string) : FsM Manifest :=
  let generation := 0 in
  file ← open (manifest_path dir generation) Truncate;
  let m0 := mkManifest dir generation (buf_new file) (manifest_checksum (Versioned MANIFEST_VERSION)) in
  '(_, m) ← with_manifest m0 (on_manifest_file
    (_ ← buf_write (encode_header MANIFEST_MAGIC MANIFEST_VERSION); buf_sync));
  _ ← write_current dir generation;
  mret m.

(** [Manifest::write_fresh]. *)
Definition write_fresh (dir : string) (st : ManifestState) : FsM unit :=
  e ← manifest_exists dir;
  if e : bool then
    fail (Corrupt (dir +:+ " already holds a manifest; refusing to write a second one over it"))
  else
    m ← manifest_create dir;
    _ ← with_manifest m (_ ← manifest_append_batch (snapshot_edits st); on_manifest_file buf_sync);
    sync_dir dir.

(** [Manifest::rollover].  Until the new generation is published an error
    leaves [self] as it was. *)
Definition manifest_rollover (st : ManifestState) : ManifestM unit :=
  m ← gets fst;
  let old_gen := m_generation m in
  new_gen ← lift (add_u64 old_gen 1);
  writer ← on_manifest_fs (
    file ← open (manifest_path (m_dir m) new_gen) Truncate;
    let w0 := mkManifest (m_dir m) new_gen (buf_new file)
                (manifest_checksum (Versioned MANIFEST_VERSION)) in
    '(_, w) ← with_manifest w0 (
      _ ← on_manifest_file (buf_write (encode_header MANIFEST_MAGIC MANIFEST_VERSION));
      manifest_append_batch (snapshot_edits st));
    _ ← write_current (m_dir m) new_gen;
    mret w);
  _ ← modify (fun s => (mkManifest (m_dir m) new_gen (m_file writer) (m_cksum writer), s.2));
  ignore (on_manifest_fs (remove (manifest_path (m_dir m) old_gen))).

(** The loop of [replay] over the frames from [pos], counting them. *)
Fixpoint replay_edits (fuel : nat) (cs : Checksum) (b : bytes) (pos : N) (st : ManifestState)
    (frames : N) : outcome (ManifestState * N) :=
  match fuel with
  | O => Panic
  | S fuel =>
      f ← read_frame cs b pos;
      match f with
      | None => Ok (st, frames)
      | Some (payload, e) =>
          edit ← decode_edit payload;
          replay_edits fuel cs b e (state_apply st edit) (frames + 1)
      end
  end.

(** [replay] on the bytes of the file at [path]. *)
Definition manifest_replay_bytes (path : Path) (b : bytes) : outcome ManifestState :=
  kind ← classify b MANIFEST_MAGIC MANIFEST_VERSION "the manifest";
  match kind with
  | Empty => Ok state_default
  | _ =>
      let first_frame := frames_start kind in
      '(st, frames) ← replay_edits (S (length b)) (manifest_checksum kind) b first_frame
                        state_default 0;
      if (frames =? 0) && (first_frame <? len b) then
        Err (Corrupt (display path +:+ " holds " +:+ pretty (len b - first_frame) +:+
          " bytes and not one readable frame; refusing to treat it as empty, because doing so " +:+
          "would reclaim every SSTable in the directory"))
      else Ok st
  end.

(** [replay]. *)
Definition manifest_replay (path : Path) : FsM ManifestState :=
  r ← attempt (open path Read);
  match r with
  | inl h => b ← read_all h; lift (manifest_replay_bytes path b)
  | inr (Io NotFound) => mret state_default
  | inr e => fail e
  end.

(** [Manifest::open]. *)
Definition manifest_open (dir : string) : FsM (Manifest * ManifestState) :=
  generation ← read_current dir;
  st ← manifest_replay (manifest_path dir generation);
  file ← open (manifest_path dir generation) Append;
  kind ← classify_manifest dir generation;
  let m0 := mkManifest dir generation (buf_new file) (manifest_checksum kind) in
  '(_, m) ← with_manifest m0 (manifest_rollover st);
  mret (m, st).
End manifest.

(** ** Lemmas *)

Lemma encode_edit_layout e : exists tag body,
  encode_edit e = byte_of tag :: le_bytes 8 body /\ tag < 4.
Proof. destruct e; simpl; eexists _, _; split; try reflexivity; lia. Qed.

Lemma length_encode_edit e : len (encode_edit e) = PAYLOAD_LEN.
Proof. destruct (encode_edit_layout e) as (t & b & -> & _). done. Qed.

(** The number an edit carries. *)
Definition edit_body (e : VersionEdit) : N :=
  match e with AddTable n | DeleteTable n | SetNextSeq n | SetNextSstId n => n end.

Definition wf_edit (e : VersionEdit) : Prop := edit_body e <= U64_MAX.

Lemma decode_edit_encode e : wf_edit e -> decode_edit (encode_edit e) = Ok e.
Proof.
  intros He. unfold decode_edit. rewrite length_encode_edit, N.eqb_refl. cbn [negb].
  assert (forall t, slice (byte_of t :: le_bytes 8 (edit_body e)) 1 9 =
    Ok (le_bytes 8 (edit_body e))) as Hs.
  { intros t. rewrite <- (app_nil_r (le_bytes 8 (edit_body e))) at 1.
    apply (slice_app 1 9 [byte_of t] (le_bytes 8 (edit_body e)) []); simpl; len. }
  destruct e as [n|n|n|n]; cbn [encode_edit edit_body] in *; rewrite Hs; obind;
    rewrite from_le_u64 by done; reflexivity.
Qed.

Lemma decode_edit_cases payload :
  (exists e, decode_edit payload = Ok e /\ wf_edit e) \/
  exists m, decode_edit payload = Err (Corrupt m).
Proof.
  unfold decode_edit. destruct (N.eqb_spec (len payload) PAYLOAD_LEN) as [El|]; cbn [negb]; [|eauto].
  unfold PAYLOAD_LEN in El. rewrite slice_in by lia. obind.
  pose proof (length_sub_list 1 9 payload ltac:(lia) ltac:(lia)) as Hl.
  rewrite from_le_ok by lia. obind.
  destruct payload as [|t payload]; [simpl in El; lia|].
  change (index (t :: payload) 0) with (Ok t). obind.
  assert (le_value (sub_list 1 9 (t :: payload)) <= U64_MAX) by (apply le_value_u64_bound; lia).
  unfold wf_edit. destruct (byte_val t) as [|p]; [left; eexists; split; [reflexivity|done]|].
  destruct p as [[?|?|]|[?|?|]|]; try (right; eexists; reflexivity);
    left; eexists; (split; [reflexivity|done]).
Qed.

(** *** Live tables as an ascending list *)

Definition ids_sorted (l : list N) : Prop := StronglySorted N.lt l.

Lemma set_insert_elem_of x y l : x ∈ set_insert y l <-> x = y \/ x ∈ l.
Proof.
  induction l as [|z l IH]; cbn [set_insert].
  - rewrite list_elem_of_singleton, elem_of_nil. naive_solver.
  - destruct (N.ltb_spec y z); [rewrite elem_of_cons; naive_solver|].
    destruct (N.eqb_spec y z) as [->|]; rewrite !elem_of_cons; [naive_solver|].
    rewrite IH. naive_solver.
Qed.

Lemma set_insert_sorted y l : ids_sorted l -> ids_sorted (set_insert y l).
Proof.
  unfold ids_sorted. induction 1 as [|z l Hs IH Hf]; cbn [set_insert]; [by repeat constructor|].
  destruct (N.ltb_spec y z).
  - constructor; [by constructor|]. constructor; [done|]. eapply Forall_impl; [exact Hf|].
    simpl. lia.
  - destruct (N.eqb_spec y z) as [->|]; [by constructor|]. constructor; [done|].
    apply Forall_forall. intros x Hx%set_insert_elem_of. rewrite Forall_forall in Hf.
    destruct Hx as [->|Hx]; [lia|by apply Hf].
Qed.

(** Appending a larger id. *)
Lemma set_insert_last y l : Forall (fun x => x < y) l -> set_insert y l = l ++ [y].
Proof.
  induction l as [|z l IH]; intros Hf; [done|]. apply Forall_cons in Hf as [Hz Hf]. cbn [set_insert].
  destruct (N.ltb_spec y z); [lia|]. destruct (N.eqb_spec y z); [lia|]. by rewrite IH.
Qed.

Lemma ids_sorted_ext l1 l2 :
  ids_sorted l1 -> ids_sorted l2 -> (forall x, x ∈ l1 <-> x ∈ l2) -> l1 = l2.
Proof.
  unfold ids_sorted. intros H1. revert l2. induction H1 as [|x l1 Hs1 IH Hf1]; intros l2 H2 He.
  - destruct l2 as [|y l2]; [done|]. specialize (He y). rewrite elem_of_nil in He.
    exfalso. apply He. by left.
  - destruct H2 as [|y l2 Hs2 Hf2].
    { specialize (He x). rewrite elem_of_nil in He. exfalso. apply He. by left. }
    rewrite Forall_forall in Hf1, Hf2.
    assert (x = y) as ->.
    { assert (x ∈ y :: l2) as [->|Hx]%elem_of_cons by (apply He; by left); [done|].
      assert (y ∈ x :: l1) as [->|Hy]%elem_of_cons by (apply He; by left); [done|].
      specialize (Hf1 _ Hy). specialize (Hf2 _ Hx). simpl in *. lia. }
    f_equal. apply IH; [done|]. intros z. split; intros Hz.
    + assert (z ∈ y :: l2) as [->|?]%elem_of_cons by (apply He; by right); [|done].
      specialize (Hf1 _ Hz). simpl in *. lia.
    + assert (z ∈ y :: l1) as [->|?]%elem_of_cons by (apply He; by right); [|done].
      specialize (Hf2 _ Hz). simpl in *. lia.
Qed.

(** The edits applied in order. *)
Definition apply_edits (st : ManifestState) (edits : list VersionEdit) : ManifestState :=
  foldl state_apply st edits.

Definition state_ok (st : ManifestState) : Prop :=
  ids_sorted (live_tables st) /\ Forall (fun id => id <= U64_MAX) (live_tables st) /\
  st_next_seq st <= U64_MAX /\ st_next_sst_id st <= U64_MAX.

Lemma state_default_ok : state_ok state_default.
Proof. split_and!; [constructor|constructor|done|done]. Qed.

Lemma state_apply_ok st e : state_ok st -> wf_edit e -> state_ok (state_apply st e).
Proof.
  intros (Hs & Hb & Hq & Hi) He. destruct e as [n|n|n|n]; unfold wf_edit in He; cbn in He;
    split_and!; cbn [state_apply live_tables st_next_seq st_next_sst_id]; try done.
  - by apply set_insert_sorted.
  - apply Forall_forall. intros x [->|Hx]%set_insert_elem_of; [done|].
    rewrite Forall_forall in Hb. by apply Hb.
  - by apply StronglySorted_filter.
  - apply Forall_forall. intros x [_ Hx]%list_elem_of_filter. rewrite Forall_forall in Hb. by apply Hb.
Qed.

Lemma apply_edits_ok edits st :
  state_ok st -> Forall wf_edit edits -> state_ok (apply_edits st edits).
Proof.
  intros Hst He. revert st Hst. induction He as [|e edits He Hes IH]; intros st Hst; [done|].
  apply IH. by apply state_apply_ok.
Qed.

Lemma apply_add_tables ids l s n :
  ids_sorted (l ++ ids) ->
  apply_edits (mkState l s n) (AddTable <$> ids) = mkState (l ++ ids) s n.
Proof.
  unfold apply_edits. revert l. induction ids as [|x ids IH]; intros l Hs; [by rewrite app_nil_r|].
  rewrite fmap_cons. cbn [foldl state_apply live_tables st_next_seq st_next_sst_id].
  rewrite set_insert_last.
  - rewrite IH by (by rewrite <- app_assoc). by rewrite <- app_assoc.
  - clear IH. unfold ids_sorted in Hs. induction l as [|y l IHl]; [constructor|].
    cbn [app] in Hs. inversion Hs as [|? ? Hs' Hf]; subst. constructor; [|by apply IHl].
    rewrite Forall_forall in Hf. apply Hf. apply elem_of_app. right. by left.
Qed.

(** [snapshot_edits] reproduces the state it was taken from. *)
Lemma apply_snapshot_edits st :
  ids_sorted (live_tables st) -> apply_edits state_default (snapshot_edits st) = st.
Proof.
  intros Hs. destruct st as [l s n]. unfold snapshot_edits, apply_edits. cbn [foldl].
  cbn [state_apply state_default live_tables st_next_seq st_next_sst_id].
  apply (apply_add_tables l [] s n Hs).
Qed.

Lemma snapshot_edits_wf st : state_ok st -> Forall wf_edit (snapshot_edits st).
Proof.
  intros (_ & Hb & Hq & Hi). unfold snapshot_edits. constructor; [done|]. constructor; [done|].
  apply Forall_fmap. eapply Forall_impl; [exact Hb|]. done.
Qed.

Section manifest_lemmas.
Context `{Platform}.

(** One edit's frame, and a manifest file that holds [edits]. *)
Definition edit_frame (cs : Checksum) (e : VersionEdit) : bytes := frame_bytes cs (encode_edit e).
Definition manifest_image (v : N) (edits : list VersionEdit) : bytes :=
  encode_header MANIFEST_MAGIC v ++ concat (edit_frame (manifest_checksum (Versioned v)) <$> edits).

Lemma length_manifest_header v : len (encode_header MANIFEST_MAGIC v) = 8.
Proof. by rewrite (length_encode_header MANIFEST_MAGIC v). Qed.

Lemma length_edit_frames cs edits : len (concat (edit_frame cs <$> edits)) = 17 * len edits.
Proof.
  induction edits as [|e l IH]; [done|]. rewrite fmap_cons. cbn [concat length].
  unfold edit_frame at 1. pose proof (length_frame_bytes cs (encode_edit e)) as Hl.
  rewrite length_encode_edit in Hl. unfold PAYLOAD_LEN in Hl. len.
Qed.

Lemma replay_edits_frames fuel cs p edits t st n :
  Forall wf_edit edits -> torn_tail t -> (length edits < fuel)%nat ->
  replay_edits fuel cs (p ++ concat (edit_frame cs <$> edits) ++ t) (len p) st n =
    Ok (apply_edits st edits, n + len edits).
Proof.
  revert fuel p st n. induction edits as [|e l IH]; intros fuel p st n Hwf Ht Hf;
    (destruct fuel as [|fuel]; simpl in Hf; [lia|]); cbn [replay_edits].
  - change (concat (edit_frame cs <$> [])) with (@nil byte). cbn [app].
    rewrite read_frame_torn by done. obind. by rewrite N.add_0_r.
  - apply Forall_cons in Hwf as [He Hl]. rewrite fmap_cons. cbn [concat].
    unfold edit_frame at 1 3. rewrite <- app_assoc.
    rewrite read_frame_at by (rewrite length_encode_edit; done). obind.
    rewrite decode_edit_encode by done. obind.
    rewrite (app_assoc p), <- (Nat2N.inj_add _ _), <- length_app, IH by (done || lia).
    unfold apply_edits. cbn [foldl length]. do 2 f_equal. lia.
Qed.

(** What [replay] makes of whole frames and a torn tail. *)
Lemma manifest_replay_image path v edits t :
  v <= MANIFEST_VERSION -> Forall wf_edit edits -> torn_tail t ->
  (edits = [] -> t = []) ->
  manifest_replay_bytes path (manifest_image v edits ++ t) = Ok (apply_edits state_default edits).
Proof.
  intros Hv Hwf Ht Hne. unfold manifest_replay_bytes, manifest_image. rewrite <- app_assoc.
  rewrite classify_encode by (done || unfold MANIFEST_VERSION, U16_MAX in *; lia). obind.
  change (frames_start (Versioned v)) with 8.
  set (b := encode_header MANIFEST_MAGIC v ++ _).
  assert (replay_edits (S (length b)) (manifest_checksum (Versioned v)) b 8 state_default 0 =
    Ok (apply_edits state_default edits, 0 + len edits)) as ->.
  { subst b. rewrite <- (length_manifest_header v). apply replay_edits_frames; [done..|].
    pose proof (length_edit_frames (manifest_checksum (Versioned v)) edits). len. }
  obind. destruct (N.eqb_spec (0 + len edits) 0) as [E|]; cbn [andb]; [|done].
  destruct edits as [|]; [|simpl in E; lia]. assert (len b = 8) as ->; [|done].
  subst b. rewrite (Hne eq_refl). pose proof (length_manifest_header v). rewrite fmap_nil.
  cbn [concat app]. len.
Qed.

(** Bytes with no readable first frame are refused. *)
Lemma manifest_replay_torn path v t :
  v <= MANIFEST_VERSION -> torn_tail t -> t <> [] ->
  exists m, manifest_replay_bytes path (encode_header MANIFEST_MAGIC v ++ t) = Err (Corrupt m).
Proof.
  intros Hv Ht Hne. unfold manifest_replay_bytes.
  rewrite classify_encode by (done || unfold MANIFEST_VERSION, U16_MAX in *; lia). obind.
  change (frames_start (Versioned v)) with 8.
  pose proof (length_manifest_header v) as Hl. set (b := encode_header MANIFEST_MAGIC v ++ t).
  assert (read_frame (manifest_checksum (Versioned v)) b 8 = Ok None) as Ef
    by (rewrite <- Hl; by apply read_frame_torn).
  cbn [replay_edits]. rewrite Ef. obind. cbn [andb]. subst b.
  destruct (N.ltb_spec 8 (len (encode_header MANIFEST_MAGIC v ++ t))) as [|Hge]; [by eexists|].
  destruct t; [done|]. len.
Qed.

Lemma replay_edits_cases fuel cs b pos st n :
  state_ok st -> len b < pos + N.of_nat fuel -> (1 <= fuel)%nat ->
  (exists st' n', replay_edits fuel cs b pos st n = Ok (st', n') /\ state_ok st') \/
  exists m, replay_edits fuel cs b pos st n = Err (Corrupt m).
Proof.
  revert pos st n. induction fuel as [|fuel IH]; intros pos st n Hst Hf H1; [lia|]. cbn [replay_edits].
  destruct (read_frame_cases cs b pos) as [->|(payload & e & -> & He & _)]; obind; [left; eauto|].
  destruct (decode_edit_cases payload) as [(edit & -> & Hw)|[m ->]]; obind; [|right; eauto].
  apply IH; [by apply state_apply_ok|lia|lia].
Qed.
End manifest_lemmas.
