(* ===== verification/ManifestRecovery.v ===== *)
(** * Recovery of the manifest

    [CURRENT] names a generation that replays to the state the engine last
    committed, at every point of a rollover and whatever fails. *)
From Stdlib Require Import NArith Lia.
From stdpp Require Import base numbers list sorting strings gmap pretty.
From S2P Require Import Prelude Errors FileNames Platform State FileSystem Store Headers Frames.
From S2P Require Import Manifest.

Local Open Scope N_scope.

(** ** Reading back the name in [CURRENT] *)

Definition printable (x : byte) : Prop := 33 <= byte_val x <= 126.

Lemma leading_space_printable x b : printable x -> leading_space (x :: b) = 0%nat.
Proof.
  intros [H1 H2]. unfold leading_space. cbn [fmap list_fmap].
  assert (forall n, (byte_val x =? n) = false <-> byte_val x <> n) as Hne by (intros; apply N.eqb_neq).
  rewrite (proj2 (N.leb_gt (byte_val x) 13)) by lia. rewrite andb_false_r.
  rewrite (proj2 (Hne 32)) by lia. cbn [orb].
  rewrite (proj2 (Hne 194)), (proj2 (Hne 225)), (proj2 (Hne 226)), (proj2 (Hne 227)) by lia.
  destruct (byte_val <$> b) as [|? [|? ?]]; done.
Qed.

Lemma trailing_space_printable b :
  Forall printable b -> trailing_space b = 0%nat.
Proof.
  intros Hb. unfold trailing_space.
  assert (forall n m, (0 < m)%nat -> Nat.eqb (leading_space (drop n b)) m = false) as Hl.
  { intros n m Hm. pose proof (Forall_drop printable n b Hb) as Hd.
    destruct (drop n b) as [|x r]; [by destruct m; [lia|]|]. apply Forall_cons in Hd as [Hx _].
    rewrite leading_space_printable by done. by destruct m; [lia|]. }
  rewrite !Hl by lia. done.
Qed.

Lemma trim_line b : Forall printable b -> b <> [] -> trim (b ++ [x0a]) = b.
Proof.
  intros Hb Hne. unfold trim.
  assert (trim_start (length (b ++ [x0a])) (b ++ [x0a]) = b ++ [x0a]) as ->.
  { destruct b as [|x b]; [done|]. apply Forall_cons in Hb as [Hx _].
    cbn [app length trim_start]. by rewrite leading_space_printable. }
  rewrite length_app. replace (length b + length [x0a])%nat with (S (length b)) by (simpl; lia).
  cbn [trim_end].
  assert (trailing_space (b ++ [x0a]) = 1%nat) as ->.
  { unfold trailing_space. rewrite length_app. cbn [length].
    replace (length b + 1 - 1)%nat with (length b) by lia. by rewrite drop_app_length. }
  rewrite length_app. cbn [length]. replace (length b + 1 - 1)%nat with (length b) by lia.
  rewrite take_app_length. destruct b as [|x b]; [done|]. cbn [trim_end length].
  by rewrite trailing_space_printable.
Qed.

Lemma digit_printable d : d < 10 -> printable (digit d).
Proof. intros. unfold printable. rewrite digit_val by done. lia. Qed.

Lemma dec_go_printable fuel n acc : Forall printable acc -> Forall printable (dec_go fuel n acc).
Proof.
  revert n acc. induction fuel as [|fuel IH]; intros n acc Ha; [done|]. cbn [dec_go].
  assert (Forall printable (digit (n mod 10) :: acc)).
  { constructor; [|done]. apply digit_printable. apply N.mod_lt. lia. }
  case_match; [done|by apply IH].
Qed.

Lemma manifest_text_printable g : Forall printable (manifest_text g).
Proof.
  unfold manifest_text, dec_padded. apply Forall_app. split.
  - repeat (apply Forall_cons; split; [unfold printable; vm_compute; by split|]). constructor.
  - apply Forall_app. split; [|by apply dec_go_printable].
    apply Forall_replicate. apply digit_printable. lia.
Qed.

Lemma parse_manifest_text g :
  g <= U64_MAX ->
  strip_prefix (bytes_of_string "MANIFEST-") (manifest_text g) ≫= parse_u64 = Some g.
Proof.
  intros Hg. unfold manifest_text. rewrite strip_prefix_app. cbn [mbind option_bind].
  by apply parse_dec_padded.
Qed.

Section recovery.
Context `{Platform}.

(** What [CURRENT] says for generation [g]. *)
Definition current_line (g : N) : bytes := manifest_text g ++ [x0a].

(** [CURRENT] in [dir] names generation [g], which replays to [st]. *)
Definition manifest_at (dir : string) (g : N) (st : ManifestState) (s : FsState) : Prop :=
  g <= U64_MAX /\ path_data s (join dir CURRENT_FILENAME) = Some (current_line g) /\
  exists b, path_data s (manifest_path dir g) = Some b /\
    manifest_replay_bytes (manifest_path dir g) b = Ok st.

Lemma open_read_path p s d :
  quiet s -> path_data s p = Some d ->
  exists h, open p Read s = (Ok h, s) /\ read_all h s = (Ok d, s).
Proof.
  intros Hq Hp. destruct (path_data_is_name s p d Hp) as (h & Hn & Hd).
  exists h. split; [by apply open_read_quiet|]. rewrite read_all_quiet by done. by rewrite Hd.
Qed.

(** A process that starts now reads [st]. *)
Lemma manifest_at_read dir g st s :
  quiet s -> manifest_at dir g st s ->
  read_current dir s = (Ok g, s) /\ manifest_replay (manifest_path dir g) s = (Ok st, s).
Proof.
  intros Hq (Hg & Hc & b & Hm & Hr). split.
  - unfold read_current. destruct (open_read_path _ _ _ Hq Hc) as (h & E1 & E2).
    run E1. run E2. unfold current_line. rewrite trim_line.
    + by rewrite parse_manifest_text.
    + apply manifest_text_printable.
    + unfold manifest_text. by destruct (bytes_of_string "MANIFEST-") eqn:E.
  - unfold manifest_replay. destruct (open_read_path _ _ _ Hq Hm) as (h & E1 & E2).
    rewrite (bind_attempt_ok _ _ _ _ _ E1). run E2. by rewrite Hr.
Qed.

(** Changes elsewhere leave it alone. *)
Lemma manifest_at_touches dir g st ps s s' :
  touches ps s s' -> join dir CURRENT_FILENAME ∉ ps -> manifest_path dir g ∉ ps ->
  manifest_at dir g st s -> manifest_at dir g st s'.
Proof.
  intros Ht Hc Hm (Hg & E1 & b & E2 & Hr). split; [done|].
  rewrite (touches_data _ _ _ Ht) by done. split; [done|]. exists b.
  by rewrite (touches_data _ _ _ Ht).
Qed.

(** ** Writing a generation *)

Lemma wp_with_manifest {A} m0 (m : ManifestM A) s (Q : outcome (A * Manifest) -> FsState -> Prop) :
  wp m (m0, s) (fun o t => match o with
    | Ok a => Q (Ok (a, t.1)) t.2 | Err e => Q (Err e) t.2 | Panic => Q Panic t.2 end) ->
  wp (with_manifest m0 m) s Q.
Proof. unfold wp, with_manifest. by destruct (m (m0, s)) as [[a|e|] [m' s']]. Qed.

(** The pieces [append_batch] hands to the buffer. *)
Definition edit_pieces (cs : Checksum) (e : VersionEdit) : list bytes :=
  let payload := encode_edit e in
  [le_bytes 4 (hash cs payload); le_bytes 4 (as_u32 (len payload)); payload].

Lemma concat_edit_pieces cs edits :
  concat (concat (edit_pieces cs <$> edits)) = concat (edit_frame cs <$> edits).
Proof.
  induction edits as [|e l IH]; [done|]. rewrite !fmap_cons. cbn [concat]. rewrite concat_app, IH.
  f_equal. unfold edit_pieces, edit_frame, frame_bytes. cbn [concat]. by rewrite app_nil_r.
Qed.

Lemma for_each_edits cs edits (k : unit -> BufM unit) s :
  (for_each edits (write_edit cs) ≫= k) s =
  (for_each (concat (edit_pieces cs <$> edits)) buf_write ≫= k) s.
Proof.
  revert s. induction edits as [|e l IH]; intros s; [done|].
  rewrite for_each_cons, fmap_cons. cbn [concat].
  unfold edit_pieces at 1. cbn [app]. rewrite for_each_cons.
  unfold write_edit. rewrite bind_assoc. apply bind_ext. intros _ s1.
  rewrite bind_assoc, for_each_cons. apply bind_ext. intros _ s2.
  rewrite for_each_cons. apply bind_ext. intros _ s3. apply IH.
Qed.

(** Appending edits to the manifest file at [p]: the file grows by a prefix of
    their frames, by all of them if the call succeeds. *)
Lemma manifest_append_touches p edits m s :
  good s -> plain p -> fs_names s !! p = Some (ba_file (m_file m)) ->
  exists w o b' s', manifest_append_batch edits (m, s) =
      (o, (mkManifest (m_dir m) (m_generation m) b' (m_cksum m), s')) /\
    touches [p] s s' /\ fs_names s' = fs_names s /\ ba_file b' = ba_file (m_file m) /\
    path_data s' p = (fun d => d ++ w) <$> path_data s p /\
    w `prefix_of` ba_buf (m_file m) ++ concat (edit_frame (m_cksum m) <$> edits) /\
    ((o = Ok tt /\ ba_buf b' = [] /\
      w = ba_buf (m_file m) ++ concat (edit_frame (m_cksum m) <$> edits)) \/ exists k, o = Err (Io k)) /\
    (quiet s -> o = Ok tt).
Proof.
  intros Hg Hp Hn. unfold manifest_append_batch. rewrite bind_gets. unfold on_manifest_file, zoom.
  cbn [fst snd]. rewrite for_each_edits.
  destruct (buf_sync_prog_touches p (concat (edit_pieces (m_cksum m) <$> edits)) (m_file m) s Hg Hp Hn)
    as (w & o & b' & s' & E & Ht & Hnm & Hf & Hd & Hpre & Ho & Hq).
  rewrite concat_edit_pieces in *. rewrite E. exists w, o, b', s'. split_and!; try done.
  destruct Ho as [(-> & -> & Hb)|?]; [by left|by right].
Qed.

(** The writer of [rollover] on a file that was just truncated. *)
Lemma write_generation p dir gen file edits s :
  good s -> plain p -> fs_names s !! p = Some file -> path_data s p = Some [] ->
  wp (with_manifest
        (mkManifest dir gen (buf_new file) (manifest_checksum (Versioned MANIFEST_VERSION)))
        (_ ← on_manifest_file (buf_write (encode_header MANIFEST_MAGIC MANIFEST_VERSION));
         manifest_append_batch edits)) s
    (fun o s' => touches [p] s s' /\
       match o with
       | Ok (_, w) => m_dir w = dir /\ m_generation w = gen /\
           path_data s' p = Some (manifest_image MANIFEST_VERSION edits) /\
           fs_names s' !! p = Some (ba_file (m_file w)) /\ ba_buf (m_file w) = [] /\
           m_cksum w = manifest_checksum (Versioned MANIFEST_VERSION)
       | Err e => (exists k, e = Io k) /\ ~ quiet s
       | Panic => False
       end).
Proof.
  intros Hg Hp Hn Hd. apply wp_with_manifest, wp_bind.
  set (cs := manifest_checksum (Versioned MANIFEST_VERSION)).
  set (hdr := encode_header MANIFEST_MAGIC MANIFEST_VERSION).
  unfold on_manifest_file at 1. apply wp_zoom. cbn [fst snd m_file m_dir m_generation m_cksum].
  destruct (buf_writes_touches p [hdr] (buf_new file) s Hg Hp Hn)
    as (w & o & b1 & s1 & E & Ht & Hnm & Hf & Hd1 & _ & Ho & Hq).
  assert (buf_write hdr (buf_new file, s) = (o, (b1, s1))) as E'.
  { cbn [for_each] in E. revert E. unfold mbind, ST_bind.
    by destruct (buf_write hdr (buf_new file, s)) as [[[]|?|] ?]. }
  eapply wp_run; [exact E'|]. cbn [fst snd]. destruct Ho as [[-> Hw]|[k ->]]; cbn [then_wp].
  2: { split; [done|]. split; [eauto|]. by intros ?%Hq. }
  destruct (manifest_append_touches p edits (mkManifest dir gen b1 cs) s1 (touches_good _ _ _ Ht) Hp)
    as (w2 & o2 & b2 & s2 & E2 & Ht2 & Hnm2 & Hf2 & Hd2 & _ & Ho2 & Hq2).
  { cbn [m_file]. by rewrite Hnm, Hf. }
  eapply wp_run; [exact E2|]. cbn [fst snd m_file m_dir m_generation m_cksum] in *.
  pose proof (touches_trans _ _ _ _ Ht Ht2) as Ht'.
  destruct Ho2 as [(-> & Hb2 & ->)|[k ->]].
  2: { split; [done|]. split; [eauto|]. by intros ?%(touches_quiet _ _ _ Ht)%Hq2. }
  split; [done|]. split_and!; try done.
  - rewrite Hd2, Hd1, Hd. cbn [fmap option_fmap option_map app]. f_equal.
    unfold manifest_image. fold hdr cs. rewrite app_assoc. f_equal.
    rewrite Hw. cbn [buf_new buf_with_capacity ba_buf concat app]. by rewrite app_nil_r.
  - by rewrite Hnm2, Hnm, Hf2, Hf.
Qed.

Lemma sublist_2 {A} (a b : A) : [a] ⊆ [a; b] /\ [b] ⊆ [a; b].
Proof. split; set_solver. Qed.

(** [write_current]: [CURRENT] is what it was or names [g]; the latter if it
    returns [Ok]. *)
Lemma wp_write_current dir g s (Q : outcome unit -> FsState -> Prop) :
  good s ->
  (forall o s', touches [join dir CURRENT_TMP; join dir CURRENT_FILENAME] s s' ->
     (o = Ok tt \/ exists k, o = Err (Io k)) ->
     (path_data s' (join dir CURRENT_FILENAME) = Some (current_line g) \/
      o <> Ok tt /\ path_data s' (join dir CURRENT_FILENAME) = path_data s (join dir CURRENT_FILENAME)) ->
     (quiet s -> dir ∈ fs_dirs s -> o = Ok tt) ->
     Q o s') ->
  wp (write_current dir g) s Q.
Proof.
  intros Hg HQ. unfold write_current.
  set (tmp := join dir CURRENT_TMP) in *. set (cur := join dir CURRENT_FILENAME) in *.
  assert (tmp <> cur) as Hne by done.
  assert (plain tmp) as Hp by done.
  assert (forall k s', touches [tmp] s s' -> (quiet s -> dir ∉ fs_dirs s) -> Q (Err (Io k)) s') as Herr.
  { intros k s' Ht Hno. apply HQ; [eapply (touches_mono [tmp]); [apply sublist_2|done]|eauto| |intros ?%Hno ?; done].
    right. split; [done|]. apply (touches_data _ _ _ Ht). rewrite list_elem_of_singleton. by apply not_eq_sym. }
  apply wp_bind, wp_open_truncate; [done|done|intros; apply Herr; [by apply touches_same|done]|].
  intros h s1 Ht1 Hn1 Hd1. cbn [then_wp].
  apply wp_bind, (wp_append tmp); [apply Ht1|done|done|..].
  { intros k s2 Ht2 Hn2 Hnq. apply Herr; [by eapply touches_trans|]. by intros ?%(touches_quiet _ _ _ Ht1). }
  intros s2 Ht2 Hn2 Hd2. cbn [then_wp].
  pose proof (touches_trans _ _ _ _ Ht1 Ht2) as Ht12.
  apply wp_bind. unfold file_sync. apply (wp_sync tmp); [apply Ht2|done|congruence|].
  intros o s3 Ht3 Hn3 Hd3 Ho Hqo.
  assert (touches [tmp] s s3) as Ht13.
  { eapply touches_trans; [exact Ht12|]. eapply touches_mono; [|exact Ht3]. apply list_subseteq_nil. }
  destruct Ho as [->|[k ->]]; cbn [then_wp].
  2: { apply Herr; [done|]. by intros ?%(touches_quiet _ _ _ Ht12)%Hqo. }
  apply wp_bind, wp_rename; [apply Ht3|done|done|..].
  { intros k s4 Hs4 Hno. apply Herr.
    - eapply touches_trans; [exact Ht13|]. apply touches_same; [apply Ht3|done].
    - intros ?%(touches_quiet _ _ _ Ht13)%Hno. congruence. }
  intros s4 Ht4 Hd4 _ _ _ _. cbn [then_wp].
  assert (touches [tmp; cur] s s4) as Ht14.
  { eapply touches_trans; [|exact Ht4]. eapply (touches_mono [tmp]); [apply sublist_2|done]. }
  assert (path_data s4 cur = Some (current_line g)) as Hc.
  { rewrite Hd4, Hd3, Hd2, Hd1. done. }
  apply wp_sync_dir; [apply Ht4|..].
  - intros k s5 Hs5 Hnq. apply HQ; [|eauto|left; by rewrite <- (proj1 Hs5)|by intros ?%(touches_quiet _ _ _ Ht14)].
    eapply touches_trans; [exact Ht14|]. apply touches_same; [apply Ht4|done].
  - intros s5 Ht5 _ _. apply HQ; [|by left|left|done].
    + eapply touches_trans; [exact Ht14|]. eapply touches_mono; [|exact Ht5]. apply list_subseteq_nil.
    + rewrite (touches_data _ _ _ Ht5) by apply not_elem_of_nil. done.
Qed.
(** ** An open manifest *)

(** [m] is open on the generation [CURRENT] names, its file holds [edits] and its
    buffer is empty. *)
Record manifest_holds (dir : string) (m : Manifest) (edits : list VersionEdit) (s : FsState)
    : Prop := mkHolds {
  mh_dir : m_dir m = dir;
  mh_gen : m_generation m <= U64_MAX;
  mh_name : fs_names s !! manifest_path dir (m_generation m) = Some (ba_file (m_file m));
  mh_buf : ba_buf (m_file m) = [];
  mh_cksum : m_cksum m = manifest_checksum (Versioned MANIFEST_VERSION);
  mh_data : path_data s (manifest_path dir (m_generation m)) = Some (manifest_image MANIFEST_VERSION edits);
  mh_wf : Forall wf_edit edits;
  mh_current : path_data s (join dir CURRENT_FILENAME) = Some (current_line (m_generation m))
}.

Lemma manifest_image_app edits edits' :
  manifest_image MANIFEST_VERSION (edits ++ edits') =
    manifest_image MANIFEST_VERSION edits ++
    concat (edit_frame (manifest_checksum (Versioned MANIFEST_VERSION)) <$> edits').
Proof. unfold manifest_image. by rewrite fmap_app, concat_app, app_assoc. Qed.

Lemma replay_image path edits :
  Forall wf_edit edits ->
  manifest_replay_bytes path (manifest_image MANIFEST_VERSION edits) =
    Ok (apply_edits state_default edits).
Proof.
  intros Hwf. rewrite <- (app_nil_r (manifest_image _ _)). apply manifest_replay_image; [done|done| |done].
  left. simpl. lia.
Qed.

Lemma manifest_holds_at dir m edits s :
  manifest_holds dir m edits s ->
  manifest_at dir (m_generation m) (apply_edits state_default edits) s.
Proof.
  intros []. split; [done|]. split; [done|]. eexists. split; [done|]. by apply replay_image.
Qed.

(** It survives changes to other files. *)
Lemma manifest_holds_touches dir m edits ps s s' :
  touches ps s s' -> join dir CURRENT_FILENAME ∉ ps -> manifest_path dir (m_generation m) ∉ ps ->
  manifest_holds dir m edits s -> manifest_holds dir m edits s'.
Proof.
  intros Ht Hc Hm []. split; try done.
  - by rewrite (touches_names _ _ _ Ht).
  - by rewrite (touches_data _ _ _ Ht).
  - by rewrite (touches_data _ _ _ Ht).
Qed.

(** A prefix of a run of frames is some whole ones and a torn one. *)
Lemma prefix_of_frames edits w :
  w `prefix_of` concat (edit_frame (manifest_checksum (Versioned MANIFEST_VERSION)) <$> edits) ->
  exists j t, w = concat (edit_frame (manifest_checksum (Versioned MANIFEST_VERSION)) <$> take j edits) ++ t /\
    torn_tail t.
Proof.
  set (cs := manifest_checksum (Versioned MANIFEST_VERSION)). intros [r Hr].
  assert (forall l : list VersionEdit, edit_frame cs <$> l = frame_bytes cs <$> (encode_edit <$> l)) as Hfr.
  { intros l. by rewrite <- list_fmap_compose. }
  destruct (take_frames cs (encode_edit <$> edits) (length w)) as (j & t & E & Ht & _).
  { apply Forall_fmap, Forall_true. intros x. cbn. by rewrite length_encode_edit. }
  exists j, t. split; [|done]. rewrite <- fmap_take, <- !Hfr, Hr, take_app_length in E. done.
Qed.

(** An append that succeeds adds its edits; one that fails may have added some
    of them, in order. *)
Lemma manifest_append_holds dir m edits edits' s :
  good s -> manifest_holds dir m edits s -> Forall wf_edit edits' ->
  wp (manifest_append_batch edits') (m, s) (fun o t =>
    touches [manifest_path dir (m_generation m)] s t.2 /\ m_generation t.1 = m_generation m /\
    match o with
    | Ok _ => manifest_holds dir t.1 (edits ++ edits') t.2
    | Err e => (exists k, e = Io k) /\ ~ quiet s /\ (edits <> [] ->
        exists j, manifest_at dir (m_generation m) (apply_edits state_default (edits ++ take j edits')) t.2)
    | Panic => False
    end).
Proof.
  intros Hg Hm Hwf. destruct Hm.
  set (p := manifest_path dir (m_generation m)) in *.
  assert (plain p) as Hp by apply manifest_plain.
  assert (join dir CURRENT_FILENAME ∉ [p]) as Hc.
  { rewrite list_elem_of_singleton. by intros [= ?]. }
  destruct (manifest_append_touches p edits' m s Hg Hp mh_name0)
    as (w & o & b' & s' & E & Ht & Hnm & Hf & Hd & Hpre & Ho & Hq).
  eapply wp_run; [exact E|]. cbn [fst snd m_generation]. split; [done|]. split; [done|].
  rewrite mh_data0 in Hd. cbn [fmap option_fmap option_map] in Hd.
  destruct Ho as [(-> & Hb & ->)|[k ->]].
  - split; cbn [m_dir m_generation m_file m_cksum]; try done.
    + by rewrite Hnm, Hf.
    + fold p. rewrite Hd, mh_buf0, mh_cksum0. cbn [app]. by rewrite manifest_image_app.
    + by apply Forall_app.
    + by rewrite (touches_data _ _ _ Ht).
  - split; [eauto|]. split; [by intros ?%Hq|]. intros Hne. rewrite mh_buf0, mh_cksum0 in Hpre. cbn [app] in Hpre.
    destruct (prefix_of_frames edits' w Hpre) as (j & t & -> & Htt).
    exists j. split; [done|]. split; [by rewrite (touches_data _ _ _ Ht)|].
    eexists. split; [exact Hd|]. rewrite app_assoc, <- manifest_image_app.
    apply manifest_replay_image; [done| |done|].
    + apply Forall_app. split; [done|by apply Forall_take].
    + intros E'. apply app_nil in E' as [? _]. done.
Qed.
(** ** Rolling over *)

Lemma wp_ignore {S A} (m : ST S A) s (Q : outcome unit -> S -> Prop) :
  wp m s (fun o s' => match o with Panic => Q Panic s' | _ => Q (Ok tt) s' end) -> wp (ignore m) s Q.
Proof.
  intros Hm. unfold ignore. apply wp_bind, wp_attempt. eapply wp_mono; [exact Hm|].
  by intros [a|e|] s' HQ; cbn [then_wp].
Qed.

(** The paths a rollover from generation [g] may change. *)
Definition rollover_paths (dir : string) (g : N) : list Path :=
  [manifest_path dir (g + 1); join dir CURRENT_TMP; join dir CURRENT_FILENAME; manifest_path dir g].

Lemma manifest_path_ne dir g :
  g < U64_MAX -> manifest_path dir (g + 1) <> manifest_path dir g.
Proof.
  intros Hg E. apply (f_equal p_name), manifest_name_inj in E; lia.
Qed.

(** A generation that holds nothing but the edits of a state. *)
Lemma manifest_at_image dir g st s :
  g <= U64_MAX -> state_ok st -> path_data s (manifest_path dir g) = Some (manifest_image MANIFEST_VERSION (snapshot_edits st)) ->
  path_data s (join dir CURRENT_FILENAME) = Some (current_line g) -> manifest_at dir g st s.
Proof.
  intros Hg Hst Hd Hc. split; [done|]. split; [done|]. eexists. split; [exact Hd|].
  rewrite replay_image by by apply snapshot_edits_wf. by rewrite apply_snapshot_edits by apply Hst.
Qed.

(** A rollover under any faults: the committed state can be read back at every
    outcome, and on success from the new generation. *)
Lemma wp_rollover dir st m s :
  good s -> m_dir m = dir -> m_generation m < U64_MAX -> state_ok st ->
  manifest_at dir (m_generation m) st s ->
  wp (manifest_rollover st) (m, s) (fun o t =>
    touches (rollover_paths dir (m_generation m)) s t.2 /\
    match o with
    | Ok _ => m_generation t.1 = m_generation m + 1 /\ manifest_holds dir t.1 (snapshot_edits st) t.2
    | Err e => (exists k, e = Io k) /\ (quiet s -> dir ∉ fs_dirs s) /\
        (manifest_at dir (m_generation m) st t.2 \/ manifest_at dir (m_generation m + 1) st t.2)
    | Panic => False
    end).
Proof.
  intros Hg Hdir Hlt Hst Hat. destruct m as [d g f c]. cbn [m_dir m_generation] in *. subst d.
  set (new := manifest_path dir (g + 1)). set (cur := join dir CURRENT_FILENAME).
  set (tmp := join dir CURRENT_TMP). set (old := manifest_path dir g).
  assert (plain new) as Hp by apply manifest_plain.
  pose proof (manifest_path_ne dir g Hlt) as Hno. fold new old in Hno.
  assert (forall x, x ∈ [tmp; cur] -> x <> new /\ x <> old) as Hd1.
  { intros x. rewrite !elem_of_cons, elem_of_nil. intros [->|[->|[]]]; split; by intros [= ?]. }
  assert (cur <> new /\ cur <> old /\ tmp <> new /\ tmp <> old) as (Hcn & Hco & Htn & Hto)
    by (split_and!; apply Hd1; set_solver).
  assert (forall ps t, touches ps s t -> ps ⊆ [new; tmp] -> manifest_at dir g st t) as Hstay.
  { intros ps t Ht Hsub. eapply manifest_at_touches; [exact Ht| | |exact Hat]; intros Hin%Hsub; set_solver. }
  unfold manifest_rollover, rollover_paths. apply wp_bind, wp_gets. cbn [then_wp fst m_dir m_generation].
  fold new cur tmp old. apply wp_bind, wp_lift. rewrite add_u64_small by lia. cbn [then_wp].
  apply wp_bind. unfold on_manifest_fs at 1. apply wp_zoom. cbn [fst snd]. fold new.
  apply wp_bind, wp_open_truncate; [done|done|..].
  { intros k t Ht Hnd. cbn [then_wp fst snd]. split; [by apply touches_same|].
    split; [eauto|]. split; [done|left]. apply (Hstay [] t); [by apply touches_same|set_solver]. }
  intros h s1 Ht1 Hn1 Hd1'. cbn [then_wp].
  apply wp_bind. eapply wp_mono; [by apply (write_generation new); [apply Ht1|..]|].
  intros o s2 [Ht2 Ho]. pose proof (touches_trans _ _ _ _ Ht1 Ht2) as Ht12.
  assert (touches [new; tmp; cur; old] s s2) as Ht12' by (eapply touches_mono; [|exact Ht12]; set_solver).
  destruct o as [[[] w]|e|]; cbn [then_wp fst snd]; [|split; [done|]; split; [apply Ho|]; split|done].
  2: { intros ?%(touches_quiet _ _ _ Ht1). by destruct Ho. }
  2: { left. by apply (Hstay [new] s2); [|set_solver]. }
  destruct Ho as (Hwd & Hwg & Himg & Hwn & Hwb & Hwc).
  apply wp_bind, wp_write_current; [apply Ht2|]. fold tmp cur. intros o s3 Ht3 Ho Hc Hqc.
  assert (touches [new; tmp; cur; old] s s3) as Ht13.
  { eapply touches_trans; [exact Ht12'|]. eapply touches_mono; [|exact Ht3]. set_solver. }
  assert (path_data s3 new = Some (manifest_image MANIFEST_VERSION (snapshot_edits st))) as Hnew.
  { rewrite (touches_data _ _ _ Ht3); [done|set_solver]. }
  assert (path_data s3 cur = Some (current_line (g + 1)) -> manifest_at dir (g + 1) st s3) as Hatn
    by (intros E; apply manifest_at_image; [lia|done..]).
  destruct Ho as [->|[k ->]]; cbn [then_wp fst snd].
  2: { split; [done|]. split; [eauto|]. split.
    { intros ?%(touches_quiet _ _ _ Ht12) Hin. apply (touches_dirs _ _ _ Ht12) in Hin. by discriminate Hqc. }
    destruct Hc as [Hc|[_ Hc]]; [right; by apply Hatn|left].
    destruct Hat as (Hgu & Ec & b & Eb & Er). split; [done|]. fold cur in Ec |- *. rewrite Hc.
    rewrite (touches_data _ _ _ Ht12) by set_solver. split; [done|]. exists b. fold old in Eb, Er |- *.
    rewrite (touches_data _ _ _ Ht3), (touches_data _ _ _ Ht12) by set_solver. done. }
  destruct Hc as [Hc|[? _]]; [|done].
  apply wp_ret. cbn [then_wp]. apply wp_bind, wp_modify. cbn [then_wp fst snd].
  assert (manifest_holds dir (mkManifest dir (g + 1) (m_file w) (m_cksum w)) (snapshot_edits st) s3) as Hh.
  { split; cbn [m_dir m_generation m_file m_cksum]; try done; [lia| |by apply snapshot_edits_wf].
    fold new. rewrite (touches_names _ _ _ Ht3); [done|set_solver]. }
  apply wp_ignore. unfold on_manifest_fs. apply wp_zoom. cbn [fst snd]. fold old.
  apply wp_remove; [apply Ht3|..].
  - intros k s4 Hs4 _. cbn [fst snd m_generation]. assert (touches [] s3 s4) as Ht4
      by (apply touches_same; [apply Ht3|done]).
    split; [eapply touches_trans; [exact Ht13|]; eapply touches_mono; [|exact Ht4]; set_solver|].
    split; [done|]. eapply manifest_holds_touches; [exact Ht4|set_solver..|done].
  - intros s4 Ht4 _. cbn [fst snd m_generation].
    split; [eapply touches_trans; [exact Ht13|]; eapply touches_mono; [|exact Ht4]; set_solver|].
    split; [done|]. eapply manifest_holds_touches; [exact Ht4|..|done]; cbn [m_generation].
    + fold cur. set_solver.
    + fold new. set_solver.
Qed.
End recovery.

(** ** Properties *)

Section manifest_properties.
Context `{Platform}.

Lemma manifest_replay_no_panic path b :
  match manifest_replay_bytes path b with Ok st => state_ok st | Err _ => True | Panic => False end.
Proof.
  unfold manifest_replay_bytes.
  pose proof (classify_no_panic b MANIFEST_MAGIC MANIFEST_VERSION "the manifest").
  destruct (classify b MANIFEST_MAGIC MANIFEST_VERSION "the manifest") as [kind|e|]; obind; [|done|done].
  assert (match ('(st, frames) ← replay_edits (S (length b)) (manifest_checksum kind) b
                   (frames_start kind) state_default 0;
                 if (frames =? 0) && (frames_start kind <? len b) then
                   Err (Corrupt (display path +:+ " holds " +:+ pretty (len b - frames_start kind) +:+
                   " bytes and not one readable frame; refusing to treat it as empty, because doing so " +:+
                   "would reclaim every SSTable in the directory")) else Ok st)
          with Ok st => state_ok st | Err _ => True | Panic => False end).
  { destruct (replay_edits_cases (S (length b)) (manifest_checksum kind) b (frames_start kind)
      state_default 0) as [(st & n & -> & Hst)|[m ->]]; [apply state_default_ok|lia|lia|..]; obind; [|done].
    by destruct ((n =? 0) && (frames_start kind <? len b)). }
  destruct kind; [apply state_default_ok|done|done].
Qed.

Lemma classify_short b : 0 < len b < 8 -> classify b MANIFEST_MAGIC MANIFEST_VERSION "the manifest" = Ok Legacy.
Proof.
  intros [H1 H2]. unfold classify, HEADER_LEN. destruct (N.eqb_spec (len b) 0); [lia|].
  by rewrite (proj2 (N.leb_gt 8 (len b))).
Qed.

(** What is left of the header alone holds no frame. *)
Lemma manifest_replay_cut_header path b :
  0 < len b -> len b < 8 -> exists m, manifest_replay_bytes path b = Err (Corrupt m).
Proof.
  intros H0 H8. unfold manifest_replay_bytes. rewrite classify_short by lia. obind. cbn [frames_start replay_edits].
  assert (read_frame (manifest_checksum Legacy) b 0 = Ok None) as ->
    by (apply (read_frame_torn _ [] b); left; lia).
  obind. cbn [andb]. rewrite (proj2 (N.ltb_lt 0 (len b))) by lia. by eexists.
Qed.

(** Every edit takes the same room in the file. *)
Lemma edit_frames_room cs (edits : list VersionEdit) :
  (length (concat (edit_frame cs <$> edits)) = 17 * length edits)%nat.
Proof. pose proof (length_edit_frames cs edits). lia. Qed.

(** A cut of the frames keeps the edits that fit into it. *)
Lemma take_edit_frames cs (edits : list VersionEdit) (n : nat) :
  (n <= 17 * length edits)%nat ->
  exists t, take n (concat (edit_frame cs <$> edits)) = concat (edit_frame cs <$> take (n / 17) edits) ++ t /\
    torn_tail t /\ (length t = n mod 17)%nat.
Proof.
  intros Hn.
  assert (forall l : list VersionEdit, edit_frame cs <$> l = frame_bytes cs <$> (encode_edit <$> l)) as Hfr.
  { intros l. by rewrite <- list_fmap_compose. }
  destruct (take_frames cs (encode_edit <$> edits) n) as (j & t & E & Ht & Hall & Hle & Hlt).
  { apply Forall_fmap, Forall_true. intros x. cbn. by rewrite length_encode_edit. }
  rewrite <- !fmap_take, <- !Hfr in *. rewrite length_fmap in *. rewrite !edit_frames_room, !length_take in *.
  assert (n / 17 = j `min` length edits /\ n mod 17 = n - 17 * (j `min` length edits))%nat as [Hq Hr].
  { pose proof (Nat.div_mod_eq n 17). pose proof (Nat.mod_upper_bound n 17 ltac:(lia)).
    destruct (decide (j < length edits)%nat) as [Hj|Hj]; [specialize (Hlt Hj); lia|lia]. }
  exists t. split_and!; [|done|].
  - by rewrite Hq, <- take_take, firstn_all.
  - apply (f_equal length) in E. rewrite length_app, length_take, !edit_frames_room, length_take in E. lia.
Qed.

(** C36: replay of a manifest cut after [n] of its bytes is known exactly.  An
    edit takes 17 bytes behind the header of 8.  Nothing but a file without bytes
    and a bare header is read as the state before any edit; a cut inside the
    header or inside the first edit is refused as corrupt; any other cut applies
    the edits that are there as a whole, and no other.  The refusal does not
    guard the tables of a file that was cut behind its first edits, which is why
    [rollover] syncs a generation before it is named. *)
Theorem manifest_replay_truncated (path : Path) (v : N) (edits : list VersionEdit) (n : nat) :
  v <= MANIFEST_VERSION -> Forall wf_edit edits -> (n <= length (manifest_image v edits))%nat ->
  if decide (n = 0 \/ n = 8 \/ 25 <= n)%nat
  then manifest_replay_bytes path (take n (manifest_image v edits)) =
         Ok (apply_edits state_default (take ((n - 8) / 17) edits))
  else exists m, manifest_replay_bytes path (take n (manifest_image v edits)) = Err (Corrupt m).
Proof.
  intros Hv Hwf Hn. pose proof (length_manifest_header v) as Hh. set (cs := manifest_checksum (Versioned v)).
  unfold manifest_image in Hn. rewrite length_app, (edit_frames_room cs) in Hn.
  destruct (decide (n < 8)%nat) as [Hn8|Hn8].
  { case_decide as Hc; [destruct Hc as [->|[->|?]]; [done|lia|lia]|].
    apply manifest_replay_cut_header; rewrite length_take; unfold manifest_image; rewrite length_app, (edit_frames_room cs); lia. }
  assert (take n (manifest_image v edits) = encode_header MANIFEST_MAGIC v ++
    take (n - 8) (concat (edit_frame cs <$> edits))) as ->.
  { unfold manifest_image. rewrite take_app_ge by lia. by replace (length (encode_header MANIFEST_MAGIC v)) with 8%nat by lia. }
  destruct (take_edit_frames cs edits (n - 8)) as (t & -> & Ht & Hl); [lia|]. rewrite app_assoc. case_decide as Hc.
  - apply manifest_replay_image; [done|by apply Forall_take|done|].
    intros Ht0. destruct t as [|x t]; [done|]. exfalso. destruct Hc as [?|[->|Hc]]; [lia|done|].
    apply (f_equal length) in Ht0. rewrite length_take in Ht0. change (length []) with 0%nat in Ht0.
    assert (1 <= (n - 8) / 17)%nat by (apply Nat.div_le_lower_bound; lia). lia.
  - rewrite (Nat.div_small (n - 8) 17), take_0, app_nil_r by lia. rewrite Nat.mod_small in Hl by lia.
    apply manifest_replay_torn; [done|done|]. intros ->. cbn in Hl. lia.
Qed.

(** C37: replaying any file as a manifest never panics and always returns; a
    state it returns has its tables in ascending order and every number in
    range, and the edits that [snapshot_edits] takes of such a state reproduce it
    when they are replayed, so a rollover changes nothing. *)
Theorem manifest_replay_any_bytes (path path' : Path) (b : bytes) :
  match manifest_replay_bytes path b with
  | Ok st => state_ok st /\
      manifest_replay_bytes path' (manifest_image MANIFEST_VERSION (snapshot_edits st)) = Ok st
  | Err _ => True
  | Panic => False
  end.
Proof.
  pose proof (manifest_replay_no_panic path b) as Hp.
  destruct (manifest_replay_bytes path b) as [st|e|]; [|done|done]. split; [done|].
  rewrite replay_image by by apply snapshot_edits_wf. by rewrite apply_snapshot_edits by apply Hp.
Qed.

(** C38: a rollover is atomic.  Whatever fails, stops part-way or crashes while
    the new generation is written and published, a process that opens the
    directory afterwards finds through [CURRENT] a generation that replays to
    the same state; on success it is the new one, and the old file's removal may
    fail without any effect on that.  The rollover never panics. *)
Theorem manifest_rollover_atomic (dir : string) (st : ManifestState) (m : Manifest) (s : FsState) :
  good s -> m_dir m = dir -> m_generation m < U64_MAX -> state_ok st ->
  manifest_at dir (m_generation m) st s ->
  let '(o, (m', s')) := manifest_rollover st (m, s) in
  o <> Panic /\
  exists g, (g = m_generation m \/ g = m_generation m + 1) /\
    (read_current dir (reboot s')).1 = Ok g /\
    (manifest_replay (manifest_path dir g) (reboot s')).1 = Ok st /\
    (o = Ok tt -> g = m_generation m + 1 /\ m_generation m' = g).
Proof.
  intros Hg Hd Hlt Hst Hat. pose proof (wp_rollover dir st m s Hg Hd Hlt Hst Hat) as Hw.
  unfold wp in Hw. destruct (manifest_rollover st (m, s)) as [o [m' s']]. cbn [fst snd] in Hw.
  assert (forall g, manifest_at dir g st s' -> (read_current dir (reboot s')).1 = Ok g /\
    (manifest_replay (manifest_path dir g) (reboot s')).1 = Ok st) as Hread.
  { intros g Hg'. destruct (manifest_at_read dir g st (reboot s')) as [-> ->]; done. }
  destruct Hw as [_ Ho]. destruct o as [[]|e|]; [|destruct Ho as (_ & _ & [Ho|Ho])|done].
  - destruct Ho as [Hgen Hh]. split; [done|]. exists (m_generation m'). pose proof (manifest_holds_at _ _ _ _ Hh) as Ha.
    rewrite apply_snapshot_edits in Ha by apply Hst.
    destruct (Hread _ Ha) as [? ?]. split_and!; try done. by right.
  - split; [done|]. exists (m_generation m). destruct (Hread _ Ho). split_and!; try done. by left.
  - split; [done|]. exists (m_generation m + 1). destruct (Hread _ Ho). split_and!; try done. by right.
Qed.
End manifest_properties.

Definition sample_state : ManifestState := mkState [2; 5] 17 6.

(** A directory that [CURRENT] and generation 3 describe. *)
Definition manifest_dir_fs `{Platform} (faults : list (option Fault)) : FsState :=
  mkFs {[ 0 := mkInode (current_line 3) 0;
          1 := mkInode (manifest_image MANIFEST_VERSION (snapshot_edits sample_state)) 0 ]}
       {[ join "db" CURRENT_FILENAME := 0; manifest_path "db" 3 := 1 ]} ∅ {["db"%string]} ∅ 2 faults false.

Lemma manifest_dir_good `{Platform} faults : good (manifest_dir_fs faults).
Proof.
  split; [split|].
  - intros p h Hp. cbn in Hp. apply lookup_insert_Some in Hp as [[_ <-]|[_ Hp]]; [by eexists|].
    apply lookup_singleton_Some in Hp as [_ <-]. by eexists.
  - intros h Hh. change (is_Some (({[ 0 := mkInode (current_line 3) 0;
          1 := mkInode (manifest_image MANIFEST_VERSION (snapshot_edits sample_state)) 0 ]}
          : gmap N Inode) !! h)) in Hh. change (h < 2).
    destruct (decide (h = 0)) as [->|H0]; [lia|]. destruct (decide (h = 1)) as [->|H1]; [lia|].
    rewrite lookup_insert_ne, lookup_singleton_ne in Hh by congruence. by destruct Hh.
  - intros p q h _ Hp Hq. cbn in Hp, Hq.
    apply lookup_insert_Some in Hp as [[<- <-]|[_ Hp]];
      apply lookup_insert_Some in Hq as [[<- Eh]|[_ Hq]];
      try (apply lookup_singleton_Some in Hp as [<- <-]);
      try (apply lookup_singleton_Some in Hq as [<- Eh']); done.
Qed.

Lemma manifest_replay_truncated_witness :
  let _ := sample_platform true in
  let edits := snapshot_edits sample_state in
  let path := manifest_path "db" 3 in
  manifest_replay_bytes path (take 65 (manifest_image 1 edits)) = Ok (apply_edits state_default (take 3 edits)) /\
  exists m, manifest_replay_bytes path (take 20 (manifest_image 1 edits)) = Err (Corrupt m).
Proof.
  intros P edits path.
  assert (Forall wf_edit edits) as Hwf by (repeat (apply Forall_cons; split; [done|]); apply Forall_nil; done).
  split.
  - apply (manifest_replay_truncated (H := P) path 1 edits 65); [done|done|]. apply Nat.leb_le. by vm_compute.
  - apply (manifest_replay_truncated (H := P) path 1 edits 20); [done|done|]. apply Nat.leb_le. by vm_compute.
Defined.

Lemma manifest_rollover_atomic_witness :
  let _ := sample_platform true in
  let s := manifest_dir_fs [None; None; None; None; None; Some (FFail OtherIo)] in
  let m := mkManifest "db" 3 (buf_new 1) Castagnoli in
  let '(o, (m', s')) := manifest_rollover sample_state (m, s) in
  o <> Panic /\
  exists g, (g = 3 \/ g = 3 + 1) /\
    (read_current "db" (reboot s')).1 = Ok g /\
    (manifest_replay (manifest_path "db" g) (reboot s')).1 = Ok sample_state /\
    (o = Ok tt -> g = 3 + 1 /\ m_generation m' = g).
Proof.
  intros P s m. refine (manifest_rollover_atomic (H := P) "db" sample_state m s _ _ _ _ _).
  - apply manifest_dir_good.
  - done.
  - done.
  - split_and!; [repeat constructor|repeat constructor|done|done]; done.
  - split; [done|]. split; [done|]. eexists. split; [done|]. vm_compute. done.
Defined.
