(* ===== verification/SsTables.v ===== *)
(** * SSTables (src/src/sstable/mod.rs)

    The writer, the block cache, the reader and the lazy scan of one table.  A
    reader's cache is shared by everything that holds the table, so caches live
    beside the filesystem in a [World] and a reader names its own. *)
From Stdlib Require Import NArith Lia.
From stdpp Require Import base numbers list strings gmap.
From S2P Require Import Prelude Errors Platform State FileSystem Records Versions Bloom.

Local Open Scope N_scope.

Definition MAGIC : bytes := bytes_of_string "LSM2".
Definition FORMAT_VERSION : N := 2.
Definition FOOTER_LEN : N := 44.
Definition BLOCK_SIZE : N := 4 * 1024.
Definition BLOCK_CACHE_CAP : N := 64.

(** [(first key of block, block offset, compressed length)]. *)
Abbreviation IndexEntry := (bytes * N * N)%type (only parsing).

(** ** The writer *)

(** The variables of [SsTableWriter::write] that its loop changes. *)
Record WriterState := mkWs {
  ws_bloom : BloomFilter;
  ws_index : list IndexEntry;
  ws_offset : N;
  ws_block : bytes;
  ws_first_key : bytes
}.

Section writer.
Context `{Platform}.

(** The closure [flush_block]. *)
Definition flush_block (ws : WriterState) : BufM WriterState :=
  if bool_decide (ws_block ws = []) then mret ws
  else
    let comp := lz4_compress_prepend_size (ws_block ws) in
    _ ← buf_write comp;
    mret (mkWs (ws_bloom ws) (ws_index ws ++ [(ws_first_key ws, ws_offset ws, as_u32 (len comp))])
           (ws_offset ws + len comp) [] []).

(** The loop over the records. *)
Fixpoint write_records (records : list Rec) (ws : WriterState) : BufM WriterState :=
  match records with
  | [] => mret ws
  | record :: rest =>
      bloom ← lift (bloom_insert (r_key record) (ws_bloom ws));
      let first_key := if bool_decide (ws_block ws = []) then r_key record else ws_first_key ws in
      let block := encode_into (ws_block ws) record in
      let next_differs :=
        match rest with
        | [] => true
        | next :: _ => negb (bool_decide (r_key next = r_key record))
        end in
      let ws := mkWs bloom (ws_index ws) (ws_offset ws) block first_key in
      ws ← (if (BLOCK_SIZE <=? len block) && next_differs then flush_block ws else mret ws);
      write_records rest ws
  end.

(** One entry of the index. *)
Definition write_entry (e : IndexEntry) : BufM unit :=
  let '(key, block_offset, comp_len) := e in
  _ ← buf_write (le_bytes 4 (as_u32 (len key)));
  _ ← buf_write key;
  _ ← buf_write (le_bytes 8 block_offset);
  buf_write (le_bytes 4 comp_len).

(** [SsTableWriter::write]. *)
Definition sst_write (path : Path) (records : list Rec) : FsM N :=
  file ← open path Truncate;
  let count := len records in
  '(_, _) ← with_buf (buf_new file) (
    ws ← write_records records (mkWs (bloom_new count) [] 0 [] []);
    ws ← flush_block ws;
    let index_offset := ws_offset ws in
    _ ← for_each (ws_index ws) write_entry;
    let bloom_bytes := bloom_encode (ws_bloom ws) in
    let bloom_offset :=
      foldl (fun o e => o + (4 + len e.1.1 + 8 + 4)) index_offset (ws_index ws) in
    _ ← buf_write bloom_bytes;
    _ ← buf_write (le_bytes 8 index_offset);
    _ ← buf_write (le_bytes 4 (as_u32 (len (ws_index ws))));
    _ ← buf_write (le_bytes 8 bloom_offset);
    _ ← buf_write (le_bytes 8 (len bloom_bytes));
    _ ← buf_write (le_bytes 8 count);
    _ ← buf_write (le_bytes 4 FORMAT_VERSION);
    _ ← buf_write MAGIC;
    buf_sync);
  mret count.
End writer.

(** ** The block cache *)

(** [struct BlockCache]. *)
Record BlockCache := mkCache {
  bc_map : gmap N (list Rec);
  bc_order : list N
}.

(** [BlockCache::new], [get] and [put]. *)
Definition cache_new : BlockCache := mkCache ∅ [].
Definition cache_get (offset : N) (c : BlockCache) : option (list Rec) := bc_map c !! offset.
Definition cache_put (offset : N) (block : list Rec) (c : BlockCache) : BlockCache :=
  if bc_map c !! offset is Some _ then c
  else
    let c :=
      if BLOCK_CACHE_CAP <=? len (bc_order c) then
        match bc_order c with
        | evicted :: rest => mkCache (delete evicted (bc_map c)) rest
        | [] => c
        end
      else c in
    mkCache (<[offset := block]> (bc_map c)) (bc_order c ++ [offset]).

(** ** Readers *)

(** The filesystem and the caches of the readers. *)
Record World := mkWorld {
  w_fs : FsState;
  w_caches : gmap N BlockCache;
  w_next_cache : N
}.

Abbreviation WM := (ST World).

Definition on_files {A} (m : FsM A) : WM A :=
  zoom w_fs (fun f w => mkWorld f (w_caches w) (w_next_cache w)) m.

(** [struct SsTableReader]; [rd_cache] is the cache it owns. *)
Record SsTableReader := mkTable {
  rd_file : Handle;
  rd_path : Path;
  rd_index : list IndexEntry;
  rd_bloom : BloomFilter;
  rd_bloom_enabled : bool;
  rd_record_count : N;
  rd_cache : N
}.

Definition cache_of (r : SsTableReader) (w : World) : BlockCache :=
  default cache_new (w_caches w !! rd_cache r).
Definition set_cache (r : SsTableReader) (c : BlockCache) (w : World) : World :=
  mkWorld (w_fs w) (<[rd_cache r := c]> (w_caches w)) (w_next_cache w).

(** [size_of::<Record>()]: two vectors and an integer. *)
Definition RECORD_SIZE : N := 56.

(** [size_of::<(Vec<u8>, u64, u32)>()]: a vector, an integer and a half, aligned. *)
Definition INDEX_ENTRY_SIZE : N := 40.

(** [read_bytes], [read_u32] and [read_u64]. *)
Definition read_bytes (buf : bytes) (pos n : N) : outcome (bytes * N) :=
  e ← ok_or (checked_add_within pos n (len buf)) (Corrupt "sstable index truncated");
  b ← slice buf pos e;
  Ok (b, e).
Definition read_u32 (buf : bytes) (pos : N) : outcome (N * N) :=
  '(b, p) ← read_bytes buf pos 4; v ← from_le 4 b; Ok (v, p).
Definition read_u64 (buf : bytes) (pos : N) : outcome (N * N) :=
  '(b, p) ← read_bytes buf pos 8; v ← from_le 8 b; Ok (v, p).

(** The loop of [open] over the index: an entry takes at least sixteen bytes, so
    a turn per byte is enough. *)
Fixpoint read_index (fuel : nat) (buf : bytes) (pos n : N) (index : list IndexEntry)
    : outcome (list IndexEntry) :=
  if n =? 0 then Ok index
  else match fuel with
       | O => Panic
       | S fuel =>
           '(key_len, pos) ← read_u32 buf pos;
           '(key, pos) ← read_bytes buf pos key_len;
           '(block_offset, pos) ← read_u64 buf pos;
           '(comp_len, pos) ← read_u32 buf pos;
           read_index fuel buf pos (n - 1) (index ++ [(key, block_offset, comp_len)])
       end.

(** [while pos < raw.len() { records.push(Record::decode_at(&raw, &mut pos)?) }]. *)
Fixpoint decode_block (fuel : nat) (raw : bytes) (pos : N) (records : list Rec)
    : outcome (list Rec) :=
  if pos <? len raw then
    match fuel with
    | O => Panic
    | S fuel => '(r, pos) ← decode_at raw pos; decode_block fuel raw pos (records ++ [r])
    end
  else Ok records.

(** [slice::binary_search_by] of the standard library, with the comparison of
    each element given: [inl i] is [Ok(i)] and [inr i] is [Err(i)]. *)
Fixpoint bsearch_loop (fuel : nat) (cmp : N -> comparison) (base size : N) : N :=
  match fuel with
  | O => base
  | S fuel =>
      if 1 <? size then
        let half := size / 2 in
        let mid := base + half in
        let base := match cmp mid with Gt => base | _ => mid end in
        bsearch_loop fuel cmp base (size - half)
      else base
  end.

Definition binary_search (cmp : N -> comparison) (size : N) : N + N :=
  if size =? 0 then inr 0
  else
    let base := bsearch_loop (N.to_nat size) cmp 0 size in
    match cmp base with
    | Eq => inl base
    | Lt => inr (base + 1)
    | Gt => inr base
    end.

(** [self.index.binary_search_by(|(k, _, _)| k.as_slice().cmp(key))]. *)
Definition search_index (index : list IndexEntry) (key : bytes) : N + N :=
  binary_search
    (fun i => match index !! N.to_nat i with Some e => key_cmp e.1.1 key | None => Gt end)
    (len index).

Section reader.
Context `{Platform}.

(** The file that [SsTableReader::open] reads: its footer, its index and its filter. *)
Definition read_table_file (path : Path) : FsM (Handle * list (bytes * N * N) * BloomFilter * N) :=
  file ← open path Read;
  file_len ← file_size file;
  if file_len <? FOOTER_LEN then fail (BadFormat "file smaller than footer")
  else
    footer ← read_exact_at file (file_len - FOOTER_LEN) FOOTER_LEN;
    magic ← lift (slice footer 40 44);
    if negb (bool_decide (magic = MAGIC)) then fail (BadFormat "bad magic (expected LSM2)")
    else
      index_offset ← lift (b ← slice footer 0 8; from_le 8 b);
      index_entries ← lift (b ← slice footer 8 12; from_le 4 b);
      bloom_offset ← lift (b ← slice footer 12 20; from_le 8 b);
      bloom_len ← lift (b ← slice footer 20 28; from_le 8 b);
      record_count ← lift (b ← slice footer 28 36; from_le 8 b);
      let footer_start := file_len - FOOTER_LEN in
      out_of_range ← lift (
        if bloom_offset <? index_offset then Ok true
        else e ← add_u64 bloom_offset bloom_len; Ok (footer_start <? e));
      if out_of_range : bool then fail (BadFormat "footer offsets out of range")
      else
        _ ← lift (alloc (bloom_offset - index_offset));
        ibuf ← read_exact_at file index_offset (bloom_offset - index_offset);
        _ ← lift (alloc (INDEX_ENTRY_SIZE * index_entries));
        index ← lift (read_index (S (length ibuf)) ibuf 0 index_entries []);
        _ ← lift (alloc bloom_len);
        bbuf ← read_exact_at file bloom_offset bloom_len;
        bloom ← lift (bloom_decode bbuf);
        mret (file, index, bloom, record_count).

(** [SsTableReader::open]. *)
Definition sst_open (path : Path) (bloom_enabled : bool) : WM SsTableReader :=
  '(file, index, bloom, record_count) ← on_files (read_table_file path);
  id ← gets w_next_cache;
  _ ← modify (fun w => mkWorld (w_fs w) (<[id := cache_new]> (w_caches w)) (id + 1));
  mret (mkTable file path index bloom bloom_enabled record_count id).

(** The records of a block, from its compressed bytes. *)
Definition block_of_bytes (comp : bytes) : outcome (list Rec) :=
  raw ← ok_or (lz4_decompress_size_prepended comp) (Corrupt "block decompression failed");
  decode_block (S (length raw)) raw 0 [].

(** [SsTableReader::load_block]. *)
Definition load_block (r : SsTableReader) (block_offset comp_len : N) : WM (list Rec) :=
  cached ← gets (fun w => cache_get block_offset (cache_of r w));
  match cached with
  | Some block => mret block
  | None =>
      _ ← lift (alloc comp_len);
      comp ← on_files (read_exact_at (rd_file r) block_offset comp_len);
      records ← lift (block_of_bytes comp);
      _ ← modify (fun w => set_cache r (cache_put block_offset records (cache_of r w)) w);
      mret records
  end.

(** The walk of [get_at] over one block. *)
Fixpoint find_in_block (key : bytes) (seq_bound : N) (block : list Rec) : option Rec :=
  match block with
  | [] => None
  | rec :: block =>
      match key_cmp (r_key rec) key with
      | Eq => if r_seq rec <? seq_bound then Some rec else find_in_block key seq_bound block
      | Gt => None
      | Lt => find_in_block key seq_bound block
      end
  end.

(** [SsTableReader::get_at] and [SsTableReader::get]. *)
Definition sst_get_at (r : SsTableReader) (key : bytes) (seq_bound : N) : WM (option Rec) :=
  if bool_decide (rd_index r = []) then mret None
  else
    maybe ← (if rd_bloom_enabled r then lift (bloom_contains key (rd_bloom r)) else mret true);
    if negb maybe then mret None
    else
      match (match search_index (rd_index r) key with
             | inl i => Some i
             | inr i => if i =? 0 then None else Some (i - 1)
             end) with
      | None => mret None
      | Some block_idx =>
          '(_, block_offset, comp_len) ← lift (index (rd_index r) block_idx);
          block ← load_block r block_offset comp_len;
          mret (find_in_block key seq_bound block)
      end.
Definition sst_get (r : SsTableReader) (key : bytes) : WM (option Rec) := sst_get_at r key U64_MAX.

(** [SsTableReader::block_bracketing]. *)
Definition block_bracketing (r : SsTableReader) (key : bytes) : option N :=
  if bool_decide (rd_index r = []) then None
  else match search_index (rd_index r) key with
       | inl i => Some i
       | inr i => Some (if i =? 0 then 0 else i - 1)
       end.

(** [SsTableReader::iter_all]. *)
Definition iter_all (r : SsTableReader) : WM (list Rec) :=
  _ ← lift (alloc (RECORD_SIZE * rd_record_count r));
  blocks ← map_each (rd_index r) (fun e => load_block r e.1.2 e.2);
  mret (concat blocks).
End reader.

(** ** The scan of one table *)

(** [struct TableScan]. *)
Record TableScan := mkScan {
  ts_reader : SsTableReader;
  ts_block : N;
  ts_loaded : option (list Rec);
  ts_pos : N;
  ts_start : option bytes
}.

(** [SsTableReader::scan]. *)
Definition sst_scan (r : SsTableReader) (start : option bytes) : TableScan :=
  let first_block :=
    match start with
    | Some key => block_bracketing r key
    | None => if bool_decide (rd_index r = []) then None else Some 0
    end in
  mkScan r (default (len (rd_index r)) first_block) None 0 start.

(** The turns of [next] inside one block: the first record from [pos] that is not
    below [start], and the position after it. *)
Fixpoint skip_below (start : option bytes) (rest : list Rec) (pos : N) : option (Rec * N) :=
  match rest with
  | [] => None
  | r :: rest =>
      if from_start start (r_key r) then Some (r, pos + 1) else skip_below start rest (pos + 1)
  end.

Section scan.
Context `{Platform}.

(** [TableScan::next].  A turn leaves a block, so a turn per block and one more
    are enough. *)
Fixpoint scan_loop (fuel : nat) (ts : TableScan) : WM (option (Rec + Error) * TableScan) :=
  match fuel with
  | O => lift Panic
  | S fuel =>
      let r := ts_reader ts in
      loaded ← match ts_loaded ts with
        | Some block => mret (inl (block, ts_pos ts))
        | None =>
            match rd_index r !! N.to_nat (ts_block ts) with
            | None => mret (inr None)
            | Some (_, offset, comp_len) =>
                b ← attempt (load_block r offset comp_len);
                mret (match b with inl block => inl (block, 0) | inr e => inr (Some e) end)
            end
        end;
      match loaded with
      | inr None => mret (None, ts)
      | inr (Some e) =>
          mret (Some (inr e), mkScan r (len (rd_index r)) None (ts_pos ts) (ts_start ts))
      | inl (block, pos) =>
          match skip_below (ts_start ts) (drop (N.to_nat pos) block) pos with
          | Some (rec, pos) =>
              mret (Some (inl rec), mkScan r (ts_block ts) (Some block) pos (ts_start ts))
          | None => scan_loop fuel (mkScan r (ts_block ts + 1) None (len block) None)
          end
      end
  end.

Definition scan_next (ts : TableScan) : WM (option (Rec + Error) * TableScan) :=
  scan_loop (length (rd_index (ts_reader ts)) + 2) ts.
End scan.
