(* ===== verification/TableLayout.v ===== *)
(** * What the table writer writes

    The records cut into blocks, the bytes of the finished file, and the proof
    that [SsTableWriter::write] leaves exactly these bytes at its path when it
    returns [Ok], and changes no other file whatever fails. *)
From Stdlib Require Import NArith Lia.
From stdpp Require Import base numbers list sorting strings gmap.
From S2P Require Import Prelude Errors FileNames Platform State FileSystem Store Records Versions.
From S2P Require Import Bloom SsTables.

Local Open Scope N_scope.

(** ** Cutting records into blocks *)

Definition next_differs (r : Rec) (rest : list Rec) : bool :=
  match rest with
  | [] => true
  | next :: _ => negb (bool_decide (r_key next = r_key r))
  end.

(** The raw bytes of a block. *)
Definition raw_block (b : list Rec) : bytes := concat (encode <$> b).

(** The blocks of the records [recs] after [cur] is already in the open block. *)
Fixpoint chunk (cur recs : list Rec) : list (list Rec) :=
  match recs with
  | [] => match cur with [] => [] | _ => [cur] end
  | r :: rest =>
      let cur := cur ++ [r] in
      if (BLOCK_SIZE <=? len (raw_block cur)) && next_differs r rest then cur :: chunk [] rest
      else chunk cur rest
  end.

Definition first_key (b : list Rec) : bytes :=
  match b with r :: _ => r_key r | [] => [] end.

Lemma raw_block_app a b : raw_block (a ++ b) = raw_block a ++ raw_block b.
Proof. unfold raw_block. by rewrite fmap_app, concat_app. Qed.

Lemma raw_block_single r : raw_block [r] = encode r.
Proof. unfold raw_block. rewrite fmap_cons, fmap_nil. cbn [concat]. apply app_nil_r. Qed.

Lemma raw_block_nil b : raw_block b = [] <-> b = [].
Proof.
  split; [|by intros ->]. destruct b as [|r b]; [done|]. intros E.
  unfold raw_block in E. rewrite fmap_cons in E. cbn [concat] in E. apply app_nil in E as [E _].
  pose proof (length_encode r) as Hl. pose proof (encoded_len_ge r). rewrite E in Hl. simpl in Hl. lia.
Qed.

Lemma concat_chunk cur recs : concat (chunk cur recs) = cur ++ recs.
Proof.
  revert cur. induction recs as [|r recs IH]; intros cur; cbn [chunk].
  - destruct cur; cbn [concat]; by rewrite ?app_nil_r.
  - case_match; cbn [concat]; rewrite IH; by rewrite <- app_assoc.
Qed.

Lemma chunk_nonempty cur recs : Forall (fun b => b <> []) (chunk cur recs).
Proof.
  revert cur. induction recs as [|r recs IH]; intros cur; cbn [chunk].
  - destruct cur; repeat constructor. done.
  - case_match; [constructor; [|done]|done]. by destruct cur.
Qed.

(** The keys of earlier blocks are below the keys of later ones. *)
Definition blocks_apart (blocks : list (list Rec)) : Prop :=
  forall i j bi bj a b, (i < j)%nat -> blocks !! i = Some bi -> blocks !! j = Some bj ->
    a ∈ bi -> b ∈ bj -> key_lt (r_key a) (r_key b).

Lemma next_differs_apart cur r rest :
  run_sorted (cur ++ r :: rest) -> next_differs r rest = true ->
  forall a b, a ∈ cur ++ [r] -> b ∈ rest -> key_lt (r_key a) (r_key b).
Proof.
  intros Hs Hd a b Ha Hb. apply run_sorted_app in Hs as (_ & Hs & Hc).
  apply run_sorted_cons in Hs as [Hs Hr].
  assert (key_lt (r_key r) (r_key b)) as Hrb.
  { destruct rest as [|n rest]; [by apply elem_of_nil in Hb|].
    cbn [next_differs] in Hd. rewrite negb_true_iff, bool_decide_eq_false in Hd.
    assert (key_lt (r_key r) (r_key n)) as Hrn.
    { destruct (Hr n ltac:(by left)) as [?|[E _]]; [done|congruence]. }
    apply elem_of_cons in Hb as [->|Hb]; [done|].
    apply run_sorted_cons in Hs as [_ Hn].
    destruct (Hn b Hb) as [?|[<- _]]; [by eapply key_lt_trans|done]. }
  apply elem_of_app in Ha as [Ha|Ha%list_elem_of_singleton]; [|by subst].
  destruct (Hc a r Ha ltac:(by left)) as [?|[-> _]]; [by eapply key_lt_trans|done].
Qed.

Lemma chunk_elem_of cur recs b a : b ∈ chunk cur recs -> a ∈ b -> a ∈ cur ++ recs.
Proof.
  intros Hb Ha. rewrite <- (concat_chunk cur recs). apply list_elem_of_In, in_concat.
  exists b. by rewrite <- !list_elem_of_In.
Qed.

Lemma blocks_apart_cons b blocks :
  (forall a c d, a ∈ b -> c ∈ blocks -> d ∈ c -> key_lt (r_key a) (r_key d)) ->
  blocks_apart blocks -> blocks_apart (b :: blocks).
Proof.
  intros Hb Hbs [|i] [|j] bi bj x y Hij Ei Ej Hx Hy; cbn in Ei, Ej; [lia| |lia|].
  - injection Ei as <-. eapply Hb; [done| |done]. by eapply list_elem_of_lookup_2.
  - eapply (Hbs i j); [lia|done..].
Qed.

Lemma chunk_apart cur recs : run_sorted (cur ++ recs) -> blocks_apart (chunk cur recs).
Proof.
  revert cur. induction recs as [|r recs IH]; intros cur Hs; cbn [chunk].
  { destruct cur; [intros i j ???? _ Ei; by rewrite lookup_nil in Ei|].
    apply blocks_apart_cons; [intros ???? Hc; by apply elem_of_nil in Hc|].
    intros i j ???? _ Ei. by rewrite lookup_nil in Ei. }
  destruct (_ && _) eqn:E.
  - apply andb_true_iff in E as [_ Hd]. apply blocks_apart_cons.
    + intros a c d Ha Hc Hd'. eapply next_differs_apart; [done|done|done|].
      by apply (chunk_elem_of [] recs c d).
    + apply IH. apply run_sorted_app in Hs as (_ & Hs & _). by apply run_sorted_cons in Hs as [Hs _].
  - apply IH. by rewrite <- app_assoc.
Qed.

(** ** The file *)

Section layout.
Context `{Platform}.

Definition comp_block (b : list Rec) : bytes := lz4_compress_prepend_size (raw_block b).

(** The index entries of blocks that start at [off]. *)
Fixpoint block_index (off : N) (blocks : list (list Rec)) : list (bytes * N * N) :=
  match blocks with
  | [] => []
  | b :: blocks =>
      (first_key b, off, as_u32 (len (comp_block b))) :: block_index (off + len (comp_block b)) blocks
  end.

Definition entry_bytes (e : bytes * N * N) : bytes :=
  le_bytes 4 (as_u32 (len e.1.1)) ++ e.1.1 ++ le_bytes 8 e.1.2 ++ le_bytes 4 e.2.

Definition blocks_bytes (blocks : list (list Rec)) : bytes := concat (comp_block <$> blocks).
Definition index_bytes (blocks : list (list Rec)) : bytes :=
  concat (entry_bytes <$> block_index 0 blocks).

Definition footer_bytes (blocks : list (list Rec)) (bloom : BloomFilter) (count : N) : bytes :=
  le_bytes 8 (len (blocks_bytes blocks)) ++ le_bytes 4 (as_u32 (len blocks)) ++
  le_bytes 8 (len (blocks_bytes blocks) + len (index_bytes blocks)) ++
  le_bytes 8 (len (bloom_encode bloom)) ++ le_bytes 8 count ++ le_bytes 4 FORMAT_VERSION ++ MAGIC.

(** The finished file. *)
Definition table_image (blocks : list (list Rec)) (bloom : BloomFilter) (count : N) : bytes :=
  blocks_bytes blocks ++ index_bytes blocks ++ bloom_encode bloom ++ footer_bytes blocks bloom count.

Lemma blocks_bytes_snoc blocks b : blocks_bytes (blocks ++ [b]) = blocks_bytes blocks ++ comp_block b.
Proof.
  unfold blocks_bytes. rewrite fmap_app, fmap_cons, fmap_nil, concat_app. cbn [concat].
  by rewrite app_nil_r.
Qed.

Lemma block_index_app off l1 l2 :
  block_index off (l1 ++ l2) = block_index off l1 ++ block_index (off + len (blocks_bytes l1)) l2.
Proof.
  revert off. induction l1 as [|b l1 IH]; intros off; cbn [block_index app].
  - f_equal. unfold blocks_bytes. simpl. lia.
  - rewrite IH. do 2 f_equal. unfold blocks_bytes. rewrite fmap_cons. cbn [concat]. f_equal. len.
Qed.

Lemma length_block_index off blocks : length (block_index off blocks) = length blocks.
Proof. revert off. induction blocks as [|b l IH]; intros off; cbn [block_index length]; [done|]. by rewrite IH. Qed.

Lemma length_entry_bytes e : len (entry_bytes e) = 4 + len e.1.1 + 8 + 4.
Proof. unfold entry_bytes. len. Qed.

(** The running sum the writer makes of the entries is their length. *)
Lemma index_length_fold off entries :
  foldl (fun o (e : bytes * N * N) => o + (4 + len e.1.1 + 8 + 4)) off entries =
    off + len (concat (entry_bytes <$> entries)).
Proof.
  revert off. induction entries as [|e l IH]; intros off; cbn [foldl]; [simpl; lia|].
  rewrite IH, fmap_cons. cbn [concat]. pose proof (length_entry_bytes e). len.
Qed.

(** ** The writer on a buffer *)

(** From the empty file at [p], opened as [h] in [s0], the bytes [x] were
    written: some are in the file, the rest in the buffer. *)
Definition wrote (p : Path) (h : Handle) (s0 : FsState) (x : bytes) (st : BufAppend * FsState) : Prop :=
  touches [p] s0 st.2 /\ fs_names st.2 !! p = Some h /\ ba_file st.1 = h /\
  exists d, path_data st.2 p = Some d /\ d ++ ba_buf st.1 = x.

(** The outcome of a program that writes: its result and the bytes so far, or an
    I/O error and no change elsewhere. *)
Definition writing {A} (p : Path) (h : Handle) (s0 : FsState) (Q : A -> bytes -> Prop)
    (o : outcome A) (st : BufAppend * FsState) : Prop :=
  match o with
  | Ok a => exists x, wrote p h s0 x st /\ Q a x
  | Err e => (exists k, e = Io k) /\ touches [p] s0 st.2 /\ ~ quiet s0
  | Panic => False
  end.

Lemma writing_bind {A B} p h s0 (m : BufM A) (f : A -> BufM B) st Q R :
  wp m st (writing p h s0 Q) ->
  (forall a x st', wrote p h s0 x st' -> Q a x -> wp (f a) st' (writing p h s0 R)) ->
  wp (m ≫= f) st (writing p h s0 R).
Proof.
  intros Hm Hf. apply wp_bind. eapply wp_mono; [exact Hm|].
  intros [a|e|] st' Ho; cbn [then_wp writing] in *; [|done|done].
  destruct Ho as (x & Hx & HQ). by eapply Hf.
Qed.

Lemma writing_ret {A} p h s0 (a : A) x st (Q : A -> bytes -> Prop) :
  wrote p h s0 x st -> Q a x -> wp (mret a) st (writing p h s0 Q).
Proof. intros Hx HQ. apply wp_ret. by exists x. Qed.

Lemma writing_write p h s0 x y st :
  plain p -> wrote p h s0 x st ->
  wp (buf_write y) st (writing p h s0 (fun _ z => z = x ++ y)).
Proof.
  destruct st as [b s]. intros Hp (Ht & Hn & Hf & d & Hd & Hx). cbn [fst snd] in *.
  destruct (buf_writes_touches p [y] b s (touches_good _ _ _ Ht) Hp)
    as (w & o & b' & s' & E & Ht' & Hnm & Hf' & Hd' & _ & Ho & Hq); [congruence|].
  assert (buf_write y (b, s) = (o, (b', s'))) as E'.
  { cbn [for_each] in E. revert E. unfold mbind, ST_bind.
    by destruct (buf_write y (b, s)) as [[[]|?|] ?]. }
  eapply wp_run; [exact E'|]. pose proof (touches_trans _ _ _ _ Ht Ht') as Ht2.
  destruct Ho as [[-> Hw]|[k ->]]; cbn [writing snd].
  2: { split; [eauto|]. split; [done|]. by intros ?%(touches_quiet _ _ _ Ht)%Hq. }
  exists (x ++ y). split; [|done]. split_and!; cbn [fst snd]; [done|congruence|congruence|].
  exists (d ++ w). rewrite Hd', Hd. split; [done|].
  rewrite <- app_assoc, Hw, <- Hx. cbn [concat]. by rewrite app_nil_r, app_assoc.
Qed.

Lemma writing_for_each {A} p h s0 (l : list A) (f : A -> BufM unit) (g : A -> bytes) x st :
  wrote p h s0 x st ->
  (forall a y st', wrote p h s0 y st' -> wp (f a) st' (writing p h s0 (fun _ z => z = y ++ g a))) ->
  wp (for_each l f) st (writing p h s0 (fun _ z => z = x ++ concat (g <$> l))).
Proof.
  intros Hx Hf. revert x st Hx. induction l as [|a l IH]; intros x st Hx; cbn [for_each].
  - eapply writing_ret; [done|]. simpl. by rewrite app_nil_r.
  - eapply writing_bind; [by apply Hf|]. intros _ y st' Hy ->.
    rewrite fmap_cons. cbn [concat]. rewrite app_assoc. by apply IH.
Qed.

Lemma writing_entry p h s0 e x st :
  plain p -> wrote p h s0 x st ->
  wp (write_entry e) st (writing p h s0 (fun _ z => z = x ++ entry_bytes e)).
Proof.
  intros Hp Hx. destruct e as [[key off] clen]. unfold write_entry, entry_bytes; cbn [fst snd].
  do 3 (eapply writing_bind; [by apply writing_write|]; intros _ ? ? ? ->).
  eapply wp_mono; [by apply writing_write|]. intros [[]|e|] stf; cbn [writing]; [|done|done].
  intros (z & Hz & ->). eexists. split; [exact Hz|]. by rewrite <- !app_assoc.
Qed.

(** The writer's variables when [done] blocks were written and [cur] is open. *)
Definition ws_inv (bits : N) (done : list (list Rec)) (cur : list Rec) (seen : list Rec)
    (ws : WriterState) (x : bytes) : Prop :=
  x = blocks_bytes done /\ ws_index ws = block_index 0 done /\ ws_offset ws = len x /\
  ws_block ws = raw_block cur /\ (cur <> [] -> ws_first_key ws = first_key cur) /\
  bloom_ok (ws_bloom ws) /\ bf_bit_count (ws_bloom ws) = bits /\
  forall r, r ∈ seen -> covers (ws_bloom ws) (r_key r).

Lemma flush_block_writes p h s0 bits done cur seen ws x st :
  plain p -> wrote p h s0 x st -> ws_inv bits done cur seen ws x ->
  wp (flush_block ws) st (writing p h s0 (fun ws' x' =>
    ws_inv bits (done ++ match cur with [] => [] | _ => [cur] end) [] seen ws' x')).
Proof.
  intros Hp Hx (-> & Hi & Ho & Hb & Hk & Hf & Hbits & Hc). unfold flush_block. rewrite Hb.
  destruct cur as [|r cur].
  - rewrite bool_decide_true by done. eapply writing_ret; [done|]. rewrite app_nil_r. by split_and!.
  - rewrite bool_decide_false by (intros E%raw_block_nil; done).
    eapply writing_bind; [by apply writing_write|]. intros _ y st' Hy ->.
    fold (comp_block (r :: cur)) in *.
    eapply writing_ret; [exact Hy|]. split_and!; cbn [ws_index ws_offset ws_block ws_first_key ws_bloom]; try done.
    + by rewrite blocks_bytes_snoc.
    + rewrite block_index_app, Hi. cbn [block_index]. rewrite N.add_0_l. do 2 f_equal.
      rewrite (Hk ltac:(done)), Ho. done.
    + rewrite Ho. len.
Qed.

Lemma write_records_writes p h s0 bits recs done cur seen ws x st :
  plain p -> wrote p h s0 x st -> ws_inv bits done cur seen ws x ->
  wp (write_records recs ws) st (writing p h s0 (fun ws' x' => exists done' cur',
    ws_inv bits done' cur' (seen ++ recs) ws' x' /\
    done' ++ match cur' with [] => [] | _ => [cur'] end = done ++ chunk cur recs)).
Proof.
  intros Hp. revert done cur seen ws x st. induction recs as [|r recs IH];
    intros done cur seen ws x st Hx Hw; cbn [write_records].
  - eapply writing_ret; [done|]. exists done, cur. rewrite app_nil_r. split; [done|]. by destruct cur.
  - destruct Hw as (-> & Hi & Ho & Hb & Hk & Hf & Hbits & Hc).
    destruct (bloom_insert_spec (ws_bloom ws) (r_key r) Hf) as (f' & Ef & Hf' & Hcov & Hkeep & Hbits').
    apply wp_bind, wp_lift. rewrite Ef. cbn [then_wp].
    rewrite Hb, encode_into_app, <- raw_block_single, <- raw_block_app.
    change (match recs with [] => true | next :: _ => negb (bool_decide (r_key next = r_key r)) end)
      with (next_differs r recs).
    set (ws1 := mkWs f' (ws_index ws) (ws_offset ws) (raw_block (cur ++ [r]))
      (if bool_decide (raw_block cur = []) then r_key r else ws_first_key ws)).
    assert (ws_inv bits done (cur ++ [r]) (seen ++ [r]) ws1 (blocks_bytes done)) as Hw1.
    { split_and!; try done; subst ws1; cbn [ws_first_key ws_bloom].
      - intros _. case_bool_decide as E; [apply raw_block_nil in E as ->; done|].
        rewrite raw_block_nil in E. rewrite Hk by done. by destruct cur.
      - congruence.
      - intros r' [Hr'|Hr'%list_elem_of_singleton]%elem_of_app; [by apply Hkeep, Hc|by subst]. }
    rewrite (cons_middle r seen recs), app_assoc. cbn [chunk].
    destruct ((BLOCK_SIZE <=? len (raw_block (cur ++ [r]))) && next_differs r recs).
    + eapply writing_bind; [by eapply flush_block_writes|]. intros ws2 x2 st2 Hx2 Hw2.
      eapply wp_mono; [by eapply IH|].
      intros [ws'|e|] st'; cbn [writing]; [|done|done]. intros (z & Hz & d' & c' & Hinv & Hd').
      exists z. split; [done|]. exists d', c'. split; [done|]. rewrite Hd', <- app_assoc.
      by destruct cur.
    + eapply writing_bind; [by eapply writing_ret; [exact Hx|exact Hw1]|].
      intros ws2 x2 st2 Hx2 Hw2. by eapply IH.
Qed.

Lemma writing_sync p h s0 x st :
  plain p -> wrote p h s0 x st ->
  wp buf_sync st (fun o st' => touches [p] s0 st'.2 /\
    match o with
    | Ok _ => path_data st'.2 p = Some x /\ fs_names st'.2 !! p = Some h
    | Err e => (exists k, e = Io k) /\ ~ quiet s0
    | Panic => False
    end).
Proof.
  destruct st as [b s]. intros Hp (Ht & Hn & Hf & d & Hd & Hx). cbn [fst snd] in *.
  destruct (buf_sync_prog_touches p [] b s (touches_good _ _ _ Ht) Hp)
    as (w & o & b' & s' & E & Ht' & Hnm & Hf' & Hd' & _ & Ho & Hq); [congruence|].
  cbn [for_each] in E. rewrite bind_mret in E.
  eapply wp_run; [exact E|]. cbn [snd]. split; [by eapply touches_trans|].
  destruct Ho as [(-> & -> & _)|[k ->]].
  2: { split; [eauto|]. by intros ?%(touches_quiet _ _ _ Ht)%Hq. }
  split; [|congruence].
  rewrite Hd', Hd, <- Hx. cbn [fmap option_fmap option_map concat]. by rewrite app_nil_r.
Qed.

(** The filter of a table: it covers every key. *)
Definition bloom_for (records : list Rec) (f : BloomFilter) : Prop :=
  bloom_ok f /\ forall r, r ∈ records -> covers f (r_key r).

Lemma wp_with_buf {A} b (m : BufM A) s (Q : outcome (A * BufAppend) -> FsState -> Prop) :
  wp m (b, s) (fun o t => match o with
    | Ok a => Q (Ok (a, t.1)) t.2 | Err e => Q (Err e) t.2 | Panic => Q Panic t.2 end) ->
  wp (with_buf b m) s Q.
Proof. unfold wp, with_buf. by destruct (m (b, s)) as [[a|e|] [b' s']]. Qed.

(** [SsTableWriter::write] under any faults. *)
Lemma wp_sst_write p records s :
  good s -> plain p ->
  wp (sst_write p records) s (fun o s' => touches [p] s s' /\
    match o with
    | Ok n => n = len records /\ exists f, bloom_for records f /\ bf_bit_count f = bf_bit_count (bloom_new (len records)) /\
        path_data s' p = Some (table_image (chunk [] records) f (len records)) /\
        is_Some (fs_names s' !! p)
    | Err e => (exists k, e = Io k) /\ (quiet s -> p_dir p ∉ fs_dirs s)
    | Panic => False
    end).
Proof.
  intros Hg Hp. unfold sst_write.
  apply wp_bind, wp_open_truncate; [done|done|intros k s' Hs Hnd; split; [by apply touches_same|eauto]|].
  intros h s1 Ht1 Hn1 Hd1. cbn [then_wp].
  apply wp_bind, wp_with_buf.
  set (Q := fun (o : outcome unit) (t : BufAppend * FsState) => touches [p] s t.2 /\
    match o with
    | Ok _ => exists f, bloom_for records f /\ bf_bit_count f = bf_bit_count (bloom_new (len records)) /\
        path_data t.2 p = Some (table_image (chunk [] records) f (len records)) /\
        is_Some (fs_names t.2 !! p)
    | Err e => (exists k, e = Io k) /\ (quiet s -> p_dir p ∉ fs_dirs s)
    | Panic => False
    end).
  match goal with |- wp ?m ?st _ => assert (wp m st Q) as HQ end.
  2: { eapply wp_mono; [exact HQ|]. intros [[]|e|] [b' s']; cbn [then_wp]; [|done|done].
    intros [Ht HR]. apply wp_ret. split; [done|]. split; [done|]. exact HR. }
  assert (forall e (st' : BufAppend * FsState), (exists k, e = Io k) /\ touches [p] s st'.2 /\ ~ quiet s ->
    Q (Err e) st') as Herr by (intros e st' (? & ? & ?); by split).
  assert (wrote p h s [] (buf_new h, s1)) as Hx0.
  { split_and!; try done. exists []. by split. }
  apply wp_bind. eapply wp_mono.
  { eapply (write_records_writes p h s (bf_bit_count (bloom_new (len records))) records [] [] []); [done|exact Hx0|].
    split_and!; try done; [apply bloom_new_ok|]. intros r Hr. by apply elem_of_nil in Hr. }
  intros [ws|e|] st2; cbn [then_wp writing]; [|by apply Herr|done].
  intros (x2 & Hx2 & done' & cur' & Hw2 & Hch). cbn [app] in Hch.
  apply wp_bind. eapply wp_mono; [by eapply flush_block_writes|].
  intros [ws3|e|] st3; cbn [then_wp writing]; [|by apply Herr|done].
  intros (x3 & Hx3 & Hw3). rewrite Hch in Hw3.
  set (blocks := chunk [] records) in *.
  destruct Hw3 as (-> & Hi & Ho & _ & _ & Hf & Hbits & Hc). cbn [app] in Hc.
  assert (bloom_for records (ws_bloom ws3)) as Hbf by done.
  apply wp_bind. eapply wp_mono; [eapply (writing_for_each p h s _ write_entry entry_bytes); [exact Hx3|]|].
  { intros e y st' Hy. by apply writing_entry. }
  intros [[]|e|] st4; cbn [then_wp writing]; [|by apply Herr|done]. intros (x4 & Hx4 & Ex4).
  assert (table_image blocks (ws_bloom ws3) (len records) =
    x4 ++ bloom_encode (ws_bloom ws3) ++ le_bytes 8 (ws_offset ws3) ++
      le_bytes 4 (as_u32 (len (ws_index ws3))) ++
      le_bytes 8 (foldl (fun o e => o + (4 + len e.1.1 + 8 + 4)) (ws_offset ws3) (ws_index ws3)) ++
      le_bytes 8 (len (bloom_encode (ws_bloom ws3))) ++ le_bytes 8 (len records) ++
      le_bytes 4 FORMAT_VERSION ++ MAGIC) as Himg.
  { rewrite Ex4, Hi, Ho, index_length_fold, length_block_index. unfold table_image, footer_bytes.
    unfold index_bytes. by rewrite <- !app_assoc. }
  clear Ex4.
  do 8 (apply wp_bind; eapply wp_mono; [by eapply writing_write|];
    (intros [[]|e|] ?; cbn [then_wp writing]; [|by apply Herr|done]);
    intros (? & ? & ->)).
  eapply wp_mono; [by eapply writing_sync|].
  intros [[]|e|] st'; intros [Ht Hr]; (split; [done|]); [|by destruct Hr|done].
  exists (ws_bloom ws3). split; [done|]. split; [done|]. destruct Hr as [Hr Hr2]. split; [|by eexists].
  fold blocks. rewrite Hr, Himg. by rewrite <- !app_assoc.
Qed.
End layout.
