(* ===== verification/TableReads.v ===== *)
(** * Reading a table back

    A reader opened on the file the writer leaves holds exactly the records that
    were written: through the block cache, the Bloom filter and the binary search
    a point lookup is the newest visible record, [iter_all] is every record in
    order and a scan is every record from its start key on.  All of it holds
    under any faults of the device, which can only turn an answer into an I/O
    error. *)
From Stdlib Require Import NArith Lia.
From stdpp Require Import base numbers list sorting strings gmap.
From S2P Require Import Prelude Errors FileNames Platform State FileSystem Store Records Versions.
From S2P Require Import Bloom SsTables TableLayout.

Local Open Scope N_scope.

(** ** Binary search *)

(** The standard library's search on ascending elements: the last element that
    is not above the key, if there is one. *)
Definition ascending (cmp : N -> comparison) (n : N) : Prop :=
  forall i j, i < j < n -> cmp j <> Gt -> cmp i = Lt.

Lemma ascending_gt cmp n i j : ascending cmp n -> i <= j < n -> cmp i = Gt -> cmp j = Gt.
Proof.
  intros Ha Hij Hi. destruct (decide (i = j)) as [<-|Hne]; [done|].
  destruct (cmp j) eqn:Ej; [|..|done]; rewrite (Ha i j) in Hi; (done || lia || congruence).
Qed.

Lemma bsearch_loop_spec cmp n fuel base size :
  ascending cmp n -> 0 < size -> base + size <= n -> size <= N.of_nat fuel ->
  (base = 0 \/ cmp base <> Gt) -> (forall i, base + size <= i < n -> cmp i = Gt) ->
  let r := bsearch_loop fuel cmp base size in
  r < n /\ (r = 0 \/ cmp r <> Gt) /\ (forall i, r < i < n -> cmp i = Gt).
Proof.
  intros Ha. revert base size. induction fuel as [|fuel IH]; intros base size Hs Hn Hf Hb Hg; [lia|].
  cbn [bsearch_loop]. destruct (N.ltb_spec 1 size) as [H1|H1].
  - assert (0 < size / 2 /\ size / 2 < size /\ 2 * (size / 2) <= size) as (Hh1 & Hh2 & Hh3).
    { split_and!; [apply N.div_str_pos; lia|apply N.div_lt; lia|apply N.Div0.mul_div_le]. }
    apply IH; [lia| |lia| |]; destruct (cmp (base + size / 2)) eqn:Em; try lia; try done.
    + right. by rewrite Em.
    + right. by rewrite Em.
    + intros i Hi. apply Hg. lia.
    + intros i Hi. apply Hg. lia.
    + intros i Hi. destruct (decide (base + size <= i)); [apply Hg; lia|].
      eapply (ascending_gt cmp n (base + size / 2)); [done|lia|done].
  - cbv zeta. split_and!; [lia|done|]. intros i Hi. apply Hg. lia.
Qed.

Definition bracket (s : N + N) : option N :=
  match s with inl i => Some i | inr i => if i =? 0 then None else Some (i - 1) end.

Lemma binary_search_spec cmp n :
  ascending cmp n ->
  match bracket (binary_search cmp n) with
  | Some i => i < n /\ cmp i <> Gt /\ (forall j, i < j < n -> cmp j = Gt)
  | None => forall j, j < n -> cmp j = Gt
  end.
Proof.
  intros Ha. unfold binary_search. destruct (N.eqb_spec n 0) as [->|Hn]; [cbn; lia|].
  destruct (bsearch_loop_spec cmp n (N.to_nat n) 0 n) as (Hr & Hb & Hg); try done; try lia.
  set (r := bsearch_loop (N.to_nat n) cmp 0 n) in *.
  destruct (cmp r) eqn:E; cbn [bracket].
  - split_and!; [done|by rewrite E|done].
  - destruct (N.eqb_spec (r + 1) 0); [lia|]. replace (r + 1 - 1) with r by lia.
    split_and!; [done|by rewrite E|done].
  - destruct Hb as [->|Hb]; [|done]. cbn. intros j Hj. destruct (decide (j = 0)) as [->|]; [done|].
    apply Hg. lia.
Qed.

(** ** The index *)

Section index.
Context `{Platform}.

Lemma block_index_lookup off blocks i b :
  blocks !! i = Some b ->
  block_index off blocks !! i =
    Some (first_key b, off + len (blocks_bytes (take i blocks)), as_u32 (len (comp_block b))).
Proof.
  revert off i. induction blocks as [|c blocks IH]; intros off [|i] E; cbn in E; [done..| |].
  - injection E as ->. cbn [block_index take]. change (blocks_bytes []) with (@nil byte).
    cbn. do 3 f_equal. lia.
  - cbn [block_index firstn]. rewrite lookup_cons. rewrite (IH _ _ E). do 3 f_equal.
    unfold blocks_bytes. rewrite fmap_cons. cbn [concat]. len.
Qed.

Lemma block_index_lookup_inv off blocks i e :
  block_index off blocks !! i = Some e -> exists b, blocks !! i = Some b.
Proof.
  intros E. apply lookup_lt_Some in E. rewrite length_block_index in E.
  by apply lookup_lt_is_Some in E.
Qed.

(** What must hold of the blocks of a table. *)
Record blocks_ok (blocks : list (list Rec)) : Prop := mkBlocksOk {
  bo_nonempty : Forall (fun b => b <> []) blocks;
  bo_sorted : run_sorted (concat blocks);
  bo_apart : blocks_apart blocks;
  bo_wf : Forall (Forall wf_rec) blocks;
  bo_fits : Forall (fun b => len (comp_block b) <= U32_MAX /\ len (raw_block b) <= U32_MAX) blocks
}.

Lemma blocks_elem (blocks : list (list Rec)) i b a : blocks !! i = Some b -> a ∈ b -> a ∈ concat blocks.
Proof.
  intros Eb Ha. apply list_elem_of_In, in_concat. exists b. rewrite <- !list_elem_of_In.
  split; [by eapply list_elem_of_lookup_2|done].
Qed.

Lemma concat_elem (blocks : list (list Rec)) a : a ∈ concat blocks -> exists i b, blocks !! i = Some b /\ a ∈ b.
Proof.
  intros (b & Hb & Ha)%list_elem_of_In%in_concat. apply list_elem_of_In in Hb, Ha.
  apply list_elem_of_lookup in Hb as [i Hi]. eauto.
Qed.

Lemma block_sorted blocks i b : run_sorted (concat blocks) -> blocks !! i = Some b -> run_sorted b.
Proof.
  intros Hs Eb. apply list_elem_of_split_length in Eb as (l1 & l2 & -> & _).
  rewrite concat_app in Hs. cbn [concat] in Hs.
  apply run_sorted_app in Hs as (_ & Hs & _). by apply run_sorted_app in Hs as (Hs & _ & _).
Qed.

Lemma first_key_le b a : run_sorted b -> a ∈ b -> key_le (first_key b) (r_key a).
Proof.
  destruct b as [|r b]; intros Hs Ha; [by apply elem_of_nil in Ha|]. cbn [first_key].
  apply run_sorted_cons in Hs as [_ Hr]. apply elem_of_cons in Ha as [->|Ha]; [by left|].
  destruct (Hr a Ha) as [?|[-> _]]; [by right|by left].
Qed.

Lemma first_key_elem b : b <> [] -> exists a, a ∈ b /\ r_key a = first_key b.
Proof. destruct b as [|r b]; [done|]. intros _. exists r. split; [by left|done]. Qed.

(** The comparison the search uses. *)
Definition index_cmp (blocks : list (list Rec)) (key : bytes) (i : N) : comparison :=
  match block_index 0 blocks !! N.to_nat i with Some e => key_cmp e.1.1 key | None => Gt end.

Lemma index_cmp_block blocks key i b :
  blocks !! N.to_nat i = Some b -> index_cmp blocks key i = key_cmp (first_key b) key.
Proof. intros Eb. unfold index_cmp. by rewrite (block_index_lookup 0 blocks _ b Eb). Qed.

Lemma index_ascending blocks key : blocks_ok blocks -> ascending (index_cmp blocks key) (len blocks).
Proof.
  intros [Hne Hs Hap _ _] i j Hij Hj.
  destruct (lookup_lt_is_Some_2 blocks (N.to_nat i)) as [bi Ei]; [lia|].
  destruct (lookup_lt_is_Some_2 blocks (N.to_nat j)) as [bj Ej]; [lia|].
  rewrite (index_cmp_block _ _ _ _ Ei). rewrite (index_cmp_block _ _ _ _ Ej) in Hj.
  rewrite Forall_forall in Hne.
  destruct (first_key_elem bi) as (a & Ha & <-); [apply Hne; by eapply list_elem_of_lookup_2|].
  destruct (first_key_elem bj) as (c & Hc & Ec); [apply Hne; by eapply list_elem_of_lookup_2|].
  assert (key_lt (r_key a) (r_key c)) as Hlt by (eapply (Hap (N.to_nat i) (N.to_nat j)); try done; lia).
  destruct (key_cmp (first_key bj) key) eqn:E; [|..|done].
  - apply key_cmp_eq in E. by rewrite <- E, <- Ec.
  - rewrite <- Ec in E. by eapply key_lt_trans.
Qed.

(** Where [get_at] and [block_bracketing] look: the records of [key] are in the
    bracketing block, those before are below the key and those after above. *)
Lemma bracket_spec blocks key :
  blocks_ok blocks ->
  match bracket (search_index (block_index 0 blocks) key) with
  | Some i => exists b, blocks !! N.to_nat i = Some b /\ key_le (first_key b) key /\
      (forall j c a, (j < N.to_nat i)%nat -> blocks !! j = Some c -> a ∈ c -> key_lt (r_key a) key) /\
      (forall j c a, (N.to_nat i < j)%nat -> blocks !! j = Some c -> a ∈ c -> key_lt key (r_key a))
  | None => forall a, a ∈ concat blocks -> key_lt key (r_key a)
  end.
Proof.
  intros Hok. pose proof (index_ascending blocks key Hok) as Ha.
  pose proof (binary_search_spec _ _ Ha) as Hb. destruct Hok as [Hne Hs Hap _ _].
  unfold search_index. rewrite length_block_index. fold (index_cmp blocks key).
  assert (forall j c a, index_cmp blocks key (N.of_nat j) = Gt -> blocks !! j = Some c -> a ∈ c ->
    key_lt key (r_key a)) as Hgt.
  { intros j c a Hj Ec Hac. rewrite (index_cmp_block _ _ _ c) in Hj by (by rewrite Nat2N.id).
    apply key_cmp_gt in Hj. eapply key_lt_le_trans; [done|].
    apply first_key_le; [by eapply block_sorted|done]. }
  destruct (bracket _) as [i|].
  - destruct Hb as (Hi & Hc & Hg).
    destruct (lookup_lt_is_Some_2 blocks (N.to_nat i)) as [b Eb]; [lia|]. exists b.
    rewrite (index_cmp_block _ _ _ _ Eb) in Hc.
    assert (key_le (first_key b) key) as Hle.
    { destruct (key_cmp (first_key b) key) eqn:E; [apply key_cmp_eq in E as ->; by left|by right|done]. }
    split_and!; [done|done| |].
    + intros j c a Hj Ec Hac. eapply key_lt_le_trans; [|exact Hle].
      rewrite Forall_forall in Hne.
      destruct (first_key_elem b) as (d & Hd & <-); [apply Hne; by eapply list_elem_of_lookup_2|].
      by eapply (Hap j (N.to_nat i)).
    + intros j c a Hj Ec Hac. apply (Hgt j c a); [|done|done]. apply Hg.
      apply lookup_lt_Some in Ec. lia.
  - intros a (j & c & Ec & Hac)%concat_elem. apply (Hgt j c a); [|done|done]. apply Hb.
    apply lookup_lt_Some in Ec. lia.
Qed.

(** The walk over one sorted block. *)
Lemma find_in_block_newest key bound b :
  run_sorted b -> find_in_block key bound b = newest key bound b.
Proof.
  intros Hs. rewrite newest_sorted by done. revert Hs.
  induction b as [|r b IH]; intros Hs; [done|]. apply run_sorted_cons in Hs as [Hs Hr].
  cbn [find_in_block]. rewrite filter_cons. pose proof (visible_spec key bound r) as Hv.
  destruct (key_cmp (r_key r) key) eqn:E.
  - apply key_cmp_eq in E. destruct (N.ltb_spec (r_seq r) bound).
    + rewrite decide_True by (by apply Hv). done.
    + rewrite decide_False by (rewrite Hv; lia). by apply IH.
  - rewrite decide_False by (rewrite Hv; intros [E' _]; rewrite E', key_cmp_refl in E; done). by apply IH.
  - rewrite decide_False by (rewrite Hv; intros [E' _]; rewrite E', key_cmp_refl in E; done).
    apply key_cmp_gt in E. symmetry.
    rewrite (list_filter_none (fun r => visible key bound r = true)); [done|].
    intros x Hx [Ek _]%visible_spec. destruct (Hr x Hx) as [Hlt|[Heq _]].
    + rewrite Ek in Hlt. eapply key_lt_irrefl, key_lt_trans; done.
    + rewrite Heq, Ek in E. by apply key_lt_irrefl in E.
Qed.

(** The answer of the whole table is the answer of the bracketing block. *)
Lemma newest_in_block blocks i b key bound :
  blocks_ok blocks -> blocks !! i = Some b ->
  (forall j c a, j <> i -> blocks !! j = Some c -> a ∈ c -> r_key a <> key) ->
  newest key bound (concat blocks) = newest key bound b.
Proof.
  intros Hok Eb Hother. symmetry. apply newest_elem_of.
  - eapply run_sorted_unique, block_sorted; [apply Hok|done].
  - intros r [Hk _]%visible_spec. split; [intros Hr; by eapply blocks_elem|].
    intros (j & c & Ec & Hc)%concat_elem. destruct (decide (j = i)) as [->|Hne]; [congruence|].
    exfalso. by eapply Hother.
  - apply run_sorted_unique, Hok.
Qed.
End index.

(** ** The block cache *)

(** Every cached offset is queued once, and at most [BLOCK_CACHE_CAP] of them. *)
Definition cache_ok (c : BlockCache) : Prop :=
  NoDup (bc_order c) /\ (forall o, o ∈ bc_order c <-> is_Some (bc_map c !! o)) /\
  len (bc_order c) <= BLOCK_CACHE_CAP.

Lemma cache_new_ok : cache_ok cache_new.
Proof.
  split_and!; [constructor| |done]. intros o. cbn. rewrite lookup_empty, elem_of_nil.
  split; [done|]. by intros [? ?].
Qed.

Lemma cache_put_ok off block c : cache_ok c -> cache_ok (cache_put off block c).
Proof.
  intros (Hnd & Hdom & Hcap). unfold cache_put.
  destruct (bc_map c !! off) as [b|] eqn:Eo; [done|].
  assert (off ∉ bc_order c) as Hno by (rewrite Hdom, Eo; by intros [? ?]).
  assert (forall c', NoDup (bc_order c') -> off ∉ bc_order c' ->
    (forall o, o ∈ bc_order c' <-> is_Some (bc_map c' !! o)) -> len (bc_order c') < BLOCK_CACHE_CAP ->
    cache_ok (mkCache (<[off := block]> (bc_map c')) (bc_order c' ++ [off]))) as Hins.
  { intros c' Hnd' Hno' Hdom' Hlt. split_and!; cbn [bc_order bc_map].
    - apply NoDup_app. split_and!; [done| |apply NoDup_singleton].
      intros x Hx ->%list_elem_of_singleton. done.
    - intros o. rewrite elem_of_app, list_elem_of_singleton, Hdom', lookup_insert_is_Some.
      destruct (decide (off = o)) as [->|]; naive_solver.
    - unfold BLOCK_CACHE_CAP in *. len. }
  destruct (N.leb_spec BLOCK_CACHE_CAP (len (bc_order c))) as [Hfull|]; [|by apply Hins].
  destruct (bc_order c) as [|e rest] eqn:Eor; [by simpl in Hfull|].
  apply NoDup_cons in Hnd as [He Hnd]. rewrite not_elem_of_cons in Hno.
  apply (Hins (mkCache (delete e (bc_map c)) rest)); cbn [bc_order bc_map]; [done|naive_solver| |].
  - intros o. rewrite lookup_delete_is_Some. specialize (Hdom o). rewrite elem_of_cons in Hdom.
    split; [intros Ho; split; [congruence|]; apply Hdom; by right|].
    intros [Hne Ho]. apply Hdom in Ho as [->|]; [congruence|done].
  - simpl length in *. lia.
Qed.

(** A cached block is the one that was put there, or what was cached before. *)
Lemma cache_put_get off block c o b :
  cache_get o (cache_put off block c) = Some b ->
  cache_get o c = Some b \/ o = off /\ b = block /\ cache_get off c = None.
Proof.
  unfold cache_get, cache_put. destruct (bc_map c !! off) as [x|] eqn:Eo; [by left|].
  cbn [bc_map].
  assert (forall m' : gmap N (list Rec), (forall q v, m' !! q = Some v -> bc_map c !! q = Some v) ->
    <[off := block]> m' !! o = Some b ->
    bc_map c !! o = Some b \/ o = off /\ b = block /\ @None (list Rec) = None) as Hm.
  { intros m' Hsub. rewrite lookup_insert. case_decide; [|intros ?; left; by apply Hsub].
    intros [= <-]. subst. by right. }
  apply Hm. intros q v. case_match; [|done]. case_match; [done|]. cbn [bc_map].
  rewrite lookup_delete. by case_decide.
Qed.

Section reads.
Context `{PlatformOk}.

(** A block decompresses and decodes to its records. *)
Lemma decode_block_records fuel p b recs :
  Forall wf_rec b -> (length b < fuel)%nat ->
  decode_block fuel (p ++ raw_block b) (len p) recs = Ok (recs ++ b).
Proof.
  revert fuel p recs. induction b as [|r b IH]; intros fuel p recs Hwf Hf;
    (destruct fuel as [|fuel]; [simpl in Hf; lia|]); cbn [decode_block].
  - change (raw_block []) with (@nil byte). rewrite app_nil_r.
    by rewrite N.ltb_irrefl, app_nil_r.
  - apply Forall_cons in Hwf as [Hr Hb]. change (raw_block (r :: b)) with (encode r ++ raw_block b).
    pose proof (length_encode r) as Hl. pose proof (encoded_len_ge r).
    destruct (N.ltb_spec (len p) (len (p ++ encode r ++ raw_block b))); [|len].
    rewrite decode_encode_at by done. obind.
    replace (len p + encoded_len r) with (len (p ++ encode r)) by (rewrite <- Hl; len).
    rewrite app_assoc, IH by (done || simpl in Hf; lia). by rewrite <- app_assoc.
Qed.

Lemma length_raw_block b : 17 * len b <= len (raw_block b).
Proof.
  unfold raw_block. induction b as [|r b IH]; [done|]. rewrite fmap_cons. cbn [concat].
  pose proof (length_encode r). pose proof (encoded_len_ge r). len.
Qed.

Lemma block_of_comp b :
  Forall wf_rec b -> len (raw_block b) <= U32_MAX -> block_of_bytes (comp_block b) = Ok b.
Proof.
  intros Hwf Hl. unfold block_of_bytes, comp_block. rewrite lz4_round_trip by done. obind.
  pose proof (length_raw_block b).
  apply (decode_block_records (S (length (raw_block b))) [] b []); [done|lia].
Qed.

(** ** Readers *)

(** [r] reads a table with these blocks: index, filter, file and cache agree. *)
Record table_ok (r : SsTableReader) (blocks : list (list Rec)) (w : World) : Prop := mkTableOk {
  to_index : rd_index r = block_index 0 blocks;
  to_bloom : bloom_for (concat blocks) (rd_bloom r);
  to_count : RECORD_SIZE * rd_record_count r <= ISIZE_MAX;
  to_data : exists rest, file_data (w_fs w) (rd_file r) = blocks_bytes blocks ++ rest;
  to_cache : forall off recs, cache_get off (cache_of r w) = Some recs ->
    exists i, blocks !! i = Some recs /\ off = len (blocks_bytes (take i blocks));
  to_cache_ok : cache_ok (cache_of r w)
}.

(** From [w] to [w'] only the device's script and the cache [id] changed. *)
Definition reads (id : N) (w w' : World) : Prop :=
  stays (w_fs w) (w_fs w') /\ w_next_cache w' = w_next_cache w /\
  forall i, i <> id -> w_caches w' !! i = w_caches w !! i.

Lemma reads_refl id w : reads id w w.
Proof. by split_and!. Qed.

Lemma reads_trans id w w1 w2 : reads id w w1 -> reads id w1 w2 -> reads id w w2.
Proof.
  intros (S1 & N1 & C1) (S2 & N2 & C2). split_and!; [by etrans|congruence|].
  intros i Hi. by rewrite C2, C1.
Qed.

(** Reading one table leaves the others as they were. *)
Lemma reads_other id r blocks w w' :
  rd_cache r <> id -> reads id w w' -> table_ok r blocks w -> table_ok r blocks w'.
Proof.
  intros Hne (Hs & _ & Hc) [Hi Hb Hn Hd Hca Hco].
  assert (cache_of r w' = cache_of r w) as E by (unfold cache_of; by rewrite Hc).
  split; try done; [|by rewrite E..]. destruct Hd as [rest Hd]. exists rest. by rewrite <- (proj1 Hs).
Qed.

Lemma offset_inj blocks i j a b :
  blocks !! i = Some a -> blocks !! j = Some b ->
  len (blocks_bytes (take i blocks)) = len (blocks_bytes (take j blocks)) -> i = j.
Proof.
  assert (forall i j a, blocks !! i = Some a -> (i < j)%nat ->
    len (blocks_bytes (take i blocks)) < len (blocks_bytes (take j blocks))) as Hlt.
  { clear i j a b. intros i j a Ei Hij. pose proof (lookup_lt_Some _ _ _ Ei) as Hi.
    pose proof (take_S_r blocks i a Ei) as E1.
    assert (take j blocks = take (S i) blocks ++ drop (S i) (take j blocks)) as E2.
    { rewrite <- (take_drop (S i) (take j blocks)) at 1. rewrite take_take. by rewrite Nat.min_l by lia. }
    rewrite E2, E1. unfold blocks_bytes. rewrite !fmap_app, !concat_app, fmap_cons, fmap_nil.
    cbn [concat]. pose proof (lz4_size_prefix (raw_block a)) as Hp. fold (comp_block a) in Hp.
    rewrite app_nil_r, !length_app. lia. }
  intros Ei Ej E. destruct (lt_eq_lt_dec i j) as [[Hij|?]|Hij]; [|done|].
  - specialize (Hlt i j a Ei Hij). lia.
  - specialize (Hlt j i b Ej Hij). lia.
Qed.

Lemma blocks_bytes_at blocks i b rest :
  blocks !! i = Some b ->
  sub_list (len (blocks_bytes (take i blocks)))
    (len (blocks_bytes (take i blocks)) + len (comp_block b)) (blocks_bytes blocks ++ rest) = comp_block b.
Proof.
  intros Eb. rewrite <- (take_drop_middle blocks i b Eb) at 3.
  unfold blocks_bytes at 3. rewrite fmap_app, fmap_cons, concat_app. cbn [concat].
  rewrite <- !app_assoc. apply sub_list_app; done.
Qed.

Lemma cache_of_set r c w : cache_of r (set_cache r c w) = c.
Proof. unfold cache_of, set_cache; cbn [w_caches]. by rewrite lookup_insert_eq. Qed.

Lemma blocks_bytes_fits blocks i b :
  blocks !! i = Some b ->
  len (blocks_bytes (take i blocks)) + len (comp_block b) <= len (blocks_bytes blocks).
Proof.
  intros Eb. rewrite <- (take_drop_middle blocks i b Eb) at 2.
  unfold blocks_bytes. rewrite fmap_app, fmap_cons, concat_app. cbn [concat]. len.
Qed.

Lemma as_u32_isize n : as_u32 n <= ISIZE_MAX.
Proof. unfold as_u32. pose proof (N.mod_lt n 4294967296 ltac:(lia)). unfold ISIZE_MAX. lia. Qed.

(** [load_block] gives the block, from the cache or from the file. *)
Lemma wp_load_block r blocks w i b :
  blocks_ok blocks -> table_ok r blocks w -> blocks !! i = Some b ->
  wp (load_block r (len (blocks_bytes (take i blocks))) (as_u32 (len (comp_block b)))) w (fun o w' =>
    reads (rd_cache r) w w' /\ table_ok r blocks w' /\
    match o with Ok x => x = b | Err e => io_fault (w_fs w) e | Panic => False end).
Proof.
  intros Hok Ht Eb. pose proof Ht as [Hi Hb Hn [rest Hd] Hca Hco].
  set (off := len (blocks_bytes (take i blocks))).
  destruct Hok as [_ _ _ Hwf Hfit]. rewrite Forall_forall in Hwf, Hfit.
  assert (b ∈ blocks) as Hin by by eapply list_elem_of_lookup_2.
  destruct (Hfit b Hin) as [Hf1 Hf2]. specialize (Hwf b Hin).
  unfold load_block. apply wp_bind, wp_gets. cbn [then_wp].
  destruct (cache_get off (cache_of r w)) as [x|] eqn:Ec.
  - apply wp_ret. split; [apply reads_refl|]. split; [done|].
    destruct (Hca off x Ec) as (j & Ej & Eo). rewrite (offset_inj blocks i j b x Eb Ej Eo) in Eb. congruence.
  - apply wp_bind, wp_lift. rewrite alloc_granted by (apply as_u32_isize). cbn [then_wp].
    apply wp_bind. unfold on_files. apply wp_zoom, wp_read_exact.
    + rewrite Hd. pose proof (blocks_bytes_fits blocks i b Eb) as Hfits. fold off in Hfits.
      unfold as_u32. rewrite N.mod_small by (unfold U32_MAX in Hf1; lia). len.
    + intros e s' Hs He. cbn [then_wp]. assert (reads (rd_cache r) w (mkWorld s' (w_caches w) (w_next_cache w))) as Hr
        by (by split_and!). split; [done|]. split; [|done].
      split; try done. exists rest. cbn [w_fs]. by rewrite <- (proj1 Hs).
    + intros s' Hs. cbn [then_wp]. unfold as_u32. rewrite N.mod_small by (unfold U32_MAX in Hf1; lia).
      rewrite Hd. unfold off. rewrite (blocks_bytes_at blocks i b rest Eb). fold off.
      apply wp_bind, wp_lift. rewrite block_of_comp by done. cbn [then_wp].
      apply wp_bind, wp_modify. cbn [then_wp]. apply wp_ret.
      set (w1 := mkWorld s' (w_caches w) (w_next_cache w)).
      split.
      { split_and!; [done|done|]. intros j Hj. cbn. by rewrite lookup_insert_ne. }
      split; [|done].
      change (cache_of r w1) with (cache_of r w).
      split; try done; try rewrite cache_of_set.
      * exists rest. cbn. by rewrite <- (proj1 Hs).
      * intros o recs Hg. destruct (cache_put_get _ _ _ _ _ Hg) as [Hg'|(-> & -> & _)]; [by apply Hca|].
        by exists i.
      * by apply cache_put_ok.
Qed.

(** [get_at]: the newest visible record of the table. *)
Lemma wp_sst_get_at r blocks w key bound :
  blocks_ok blocks -> table_ok r blocks w ->
  wp (sst_get_at r key bound) w (fun o w' =>
    reads (rd_cache r) w w' /\ table_ok r blocks w' /\
    match o with
    | Ok x => x = newest key bound (concat blocks)
    | Err e => io_fault (w_fs w) e
    | Panic => False
    end).
Proof.
  intros Hok Ht. pose proof Ht as [Hi [Hbf Hbc] _ _ _ _]. unfold sst_get_at. rewrite Hi.
  case_bool_decide as Hemp.
  { apply wp_ret. split; [apply reads_refl|]. split; [done|].
    destruct blocks; [done|by cbn in Hemp]. }
  assert (forall maybe, (maybe = false -> newest key bound (concat blocks) = None) ->
    wp (if negb maybe then mret None
        else match bracket (search_index (block_index 0 blocks) key) with
             | None => mret None
             | Some block_idx =>
                 '(_, block_offset, comp_len) ← lift (index (block_index 0 blocks) block_idx);
                 block ← load_block r block_offset comp_len;
                 mret (find_in_block key bound block)
             end) w (fun o w' => reads (rd_cache r) w w' /\ table_ok r blocks w' /\
      match o with Ok x => x = newest key bound (concat blocks) | Err e => io_fault (w_fs w) e
      | Panic => False end)) as Hmain.
  { intros [|] Hm; cbn [negb]; [|apply wp_ret; split; [apply reads_refl|]; split; [done|by rewrite Hm]].
    pose proof (bracket_spec blocks key Hok) as Hbr.
    destruct (bracket _) as [i|].
    - destruct Hbr as (b & Eb & _ & Hlo & Hhi).
      unfold index. rewrite (block_index_lookup 0 blocks _ b Eb).
      apply wp_bind, wp_lift. cbn [then_wp]. rewrite N.add_0_l.
      apply wp_bind. eapply wp_mono; [by apply wp_load_block|].
      intros [x|e|] w' (Hr & Ht' & Hx); cbn [then_wp]; [|done|done]. subst x.
      apply wp_ret. split; [done|]. split; [done|].
      rewrite find_in_block_newest by (eapply block_sorted; [apply Hok|done]).
      symmetry. eapply newest_in_block; [done|exact Eb|].
      intros j c a Hj Ec Ha Hk. destruct (lt_eq_lt_dec j (N.to_nat i)) as [[Hlt|?]|Hlt]; [|done|].
      + specialize (Hlo j c a Hlt Ec Ha). rewrite Hk in Hlo. by apply key_lt_irrefl in Hlo.
      + specialize (Hhi j c a Hlt Ec Ha). rewrite Hk in Hhi. by apply key_lt_irrefl in Hhi.
    - apply wp_ret. split; [apply reads_refl|]. split; [done|]. symmetry. apply newest_none.
      intros a Ha. specialize (Hbr a Ha). destruct (visible key bound a) eqn:Ev; [|done].
      apply visible_spec in Ev as [Ek _]. rewrite Ek in Hbr. by apply key_lt_irrefl in Hbr. }
  apply wp_bind. destruct (rd_bloom_enabled r).
  - destruct (bloom_contains_spec (rd_bloom r) key Hbf) as (m & -> & Hm).
    apply wp_lift. cbn [then_wp]. apply Hmain. intros ->. apply newest_none. intros a Ha.
    destruct (visible key bound a) eqn:Ev; [|done]. apply visible_spec in Ev as [Ek _].
    specialize (Hbc a Ha). rewrite Ek in Hbc. by apply Hm in Hbc.
  - apply wp_ret. cbn [then_wp]. by apply Hmain.
Qed.

(** [iter_all]: every record, in order. *)
Lemma wp_load_blocks r blocks w pre post :
  blocks = pre ++ post -> blocks_ok blocks -> table_ok r blocks w ->
  wp (map_each (block_index (len (blocks_bytes pre)) post) (fun e => load_block r e.1.2 e.2)) w
    (fun o w' => reads (rd_cache r) w w' /\ table_ok r blocks w' /\
       match o with Ok x => x = post | Err e => io_fault (w_fs w) e | Panic => False end).
Proof.
  intros Heq Hok. revert pre w Heq. induction post as [|b post IH]; intros pre w Heq Ht;
    cbn [block_index map_each].
  { apply wp_ret. split; [apply reads_refl|done]. }
  assert (blocks !! length pre = Some b) as Eb by (by rewrite Heq, list_lookup_middle).
  assert (take (length pre) blocks = pre) as Epre by (by rewrite Heq, take_app_length).
  apply wp_bind. cbn [fst snd]. pose proof (wp_load_block r blocks w (length pre) b Hok Ht Eb) as Hl.
  rewrite Epre in Hl. eapply wp_mono; [exact Hl|].
  intros [x|e|] w1 (Hr1 & Ht1 & Hx); cbn [then_wp]; [|done|done]. subst x.
  apply wp_bind. rewrite <- (Nat2N.inj_add _ _), <- length_app, <- blocks_bytes_snoc.
  eapply wp_mono; [apply IH; [by rewrite <- app_assoc|done]|].
  intros [x|e|] w2 (Hr2 & Ht2 & Hx); cbn [then_wp]; pose proof (reads_trans _ _ _ _ Hr1 Hr2);
    [|split_and!; try done; eapply io_fault_stays; [apply Hr1|done]|done].
  apply wp_ret. split; [done|]. split; [done|by subst].
Qed.

Lemma wp_iter_all r blocks w :
  blocks_ok blocks -> table_ok r blocks w ->
  wp (iter_all r) w (fun o w' => reads (rd_cache r) w w' /\ table_ok r blocks w' /\
    match o with Ok x => x = concat blocks | Err e => io_fault (w_fs w) e | Panic => False end).
Proof.
  intros Hok Ht. pose proof Ht as [Hi _ Hn _ _ _]. unfold iter_all.
  rewrite (alloc_granted _ Hn). apply wp_bind, wp_lift. cbn [then_wp].
  apply wp_bind. rewrite Hi. eapply wp_mono; [by apply (wp_load_blocks r blocks w [] blocks)|].
  intros [x|e|] w1 (Hr1 & Ht1 & Hx); cbn [then_wp]; [|done|done]. apply wp_ret. by subst x.
Qed.
End reads.

(** ** Opening *)

Section opening.
Context `{PlatformOk}.

Lemma read_bytes_at buf p m q :
  buf = p ++ m ++ q -> read_bytes buf (len p) (len m) = Ok (m, len p + len m).
Proof.
  intros ->. unfold read_bytes, checked_add_within.
  destruct (N.leb_spec (len p + len m) (len (p ++ m ++ q))); [|len]. cbn [ok_or]. obind.
  by rewrite (slice_app _ _ p m q).
Qed.

Lemma read_u32_at buf p v q :
  buf = p ++ le_bytes 4 v ++ q -> v <= U32_MAX -> read_u32 buf (len p) = Ok (v, len p + 4).
Proof.
  intros E Hv. unfold read_u32. pose proof (read_bytes_at _ _ _ _ E) as Hr.
  rewrite length_le_bytes in Hr. change (N.of_nat 4) with 4 in Hr. rewrite Hr. obind.
  by rewrite from_le_u32.
Qed.

Lemma read_u64_at buf p v q :
  buf = p ++ le_bytes 8 v ++ q -> v <= U64_MAX -> read_u64 buf (len p) = Ok (v, len p + 8).
Proof.
  intros E Hv. unfold read_u64. pose proof (read_bytes_at _ _ _ _ E) as Hr.
  rewrite length_le_bytes in Hr. change (N.of_nat 8) with 8 in Hr. rewrite Hr. obind.
  by rewrite from_le_u64.
Qed.

Definition wf_entry (e : bytes * N * N) : Prop :=
  len e.1.1 <= U32_MAX /\ e.1.2 <= U64_MAX /\ e.2 <= U32_MAX.

(** The index that was written is the index that is read. *)
Lemma read_index_entries fuel p entries acc :
  Forall wf_entry entries -> (length entries < fuel)%nat ->
  read_index fuel (p ++ concat (entry_bytes <$> entries)) (len p) (len entries) acc =
    Ok (acc ++ entries).
Proof.
  revert fuel p acc. induction entries as [|[[key off] clen] l IH]; intros fuel p acc Hwf Hf;
    (destruct fuel as [|fuel]; [simpl in Hf; lia|]); cbn [read_index].
  { by rewrite (app_nil_r acc). }
  apply Forall_cons in Hwf as [(Hk & Ho & Hc) Hl]. cbn [fst snd] in Hk, Ho, Hc.
  destruct (N.eqb_spec (len ((key, off, clen) :: l)) 0) as [E|_]; [simpl in E; lia|].
  rewrite fmap_cons. cbn [concat].
  assert (entry_bytes (key, off, clen) = le_bytes 4 (len key) ++ key ++ le_bytes 8 off ++ le_bytes 4 clen)
    as -> by (unfold entry_bytes; cbn [fst snd]; by rewrite as_u32_small).
  set (tail := concat (entry_bytes <$> l)). set (n4 := le_bytes 4 (len key)).
  set (o8 := le_bytes 8 off). set (c4 := le_bytes 4 clen).
  set (buf := p ++ (n4 ++ key ++ o8 ++ c4) ++ tail).
  assert (len n4 = 4 /\ len o8 = 8 /\ len c4 = 4) as (L1 & L2 & L3) by (subst n4 o8 c4; split_and!; len).
  rewrite (read_u32_at buf p (len key) (key ++ o8 ++ c4 ++ tail)) by (by subst buf; rewrite <- ?app_assoc || done).
  obind. pose proof (read_bytes_at buf (p ++ n4) key (o8 ++ c4 ++ tail)) as E1.
  replace (len (p ++ n4)) with (len p + 4) in E1 by len.
  rewrite E1 by (by subst buf; rewrite <- ?app_assoc). obind.
  pose proof (read_u64_at buf (p ++ n4 ++ key) off (c4 ++ tail)) as E2.
  replace (len (p ++ n4 ++ key)) with (len p + 4 + len key) in E2 by len.
  rewrite E2 by (by subst buf; rewrite <- ?app_assoc || done). obind.
  pose proof (read_u32_at buf (p ++ n4 ++ key ++ o8) clen tail) as E3.
  replace (len (p ++ n4 ++ key ++ o8)) with (len p + 4 + len key + 8) in E3 by len.
  rewrite E3 by (by subst buf; rewrite <- ?app_assoc || done). obind.
  replace (len ((key, off, clen) :: l) - 1) with (len l) by (simpl; lia).
  replace (len p + 4 + len key + 8 + 4) with (len (p ++ n4 ++ key ++ o8 ++ c4)) by len.
  replace buf with ((p ++ n4 ++ key ++ o8 ++ c4) ++ tail) by (subst buf; by rewrite <- !app_assoc).
  subst tail. rewrite IH by (done || simpl in Hf; lia). by rewrite <- app_assoc.
Qed.

(** The sizes of a table fit the fields of its file. *)
Record table_fits (blocks : list (list Rec)) (f : BloomFilter) (count : N) : Prop := mkFits {
  tf_image : len (table_image blocks f count) <= ISIZE_MAX;
  tf_blocks : len blocks <= U32_MAX;
  tf_count : RECORD_SIZE * count <= ISIZE_MAX
}.

Lemma length_footer blocks f count : len (footer_bytes blocks f count) = 44.
Proof. unfold footer_bytes. change (length MAGIC) with 4%nat. len. change (length MAGIC) with 4%nat. lia. Qed.

Lemma index_entries_wf blocks f count :
  blocks_ok blocks -> table_fits blocks f count -> Forall wf_entry (block_index 0 blocks).
Proof.
  intros [Hne _ _ Hwf Hfit] [Himg _ _]. apply Forall_lookup. intros i e Ee.
  destruct (block_index_lookup_inv _ _ _ _ Ee) as [b Eb].
  rewrite (block_index_lookup 0 blocks i b Eb) in Ee. injection Ee as <-.
  rewrite Forall_forall in Hne, Hwf, Hfit. assert (b ∈ blocks) as Hin by by eapply list_elem_of_lookup_2.
  destruct (Hfit b Hin) as [Hf _]. specialize (Hwf b Hin). split_and!; cbn [fst snd].
  - destruct (first_key_elem b (Hne b Hin)) as (a & Ha & <-). rewrite Forall_forall in Hwf.
    by destruct (Hwf a Ha) as (_ & ? & _).
  - assert (len (blocks_bytes (take i blocks)) <= len (blocks_bytes blocks)) as Hle.
    { rewrite <- (take_drop i blocks) at 2. unfold blocks_bytes. rewrite fmap_app, concat_app. len. }
    unfold table_image in Himg. unfold ISIZE_MAX, U64_MAX in *. len.
  - unfold as_u32. rewrite N.mod_small; [done|]. unfold U32_MAX in Hf. lia.
Qed.

(** The fields of the footer. *)
Lemma footer_fields blocks f count :
  table_fits blocks f count ->
  let ft := footer_bytes blocks f count in
  slice ft 40 44 = Ok MAGIC /\
  (b ← slice ft 0 8; from_le 8 b) = Ok (len (blocks_bytes blocks)) /\
  (b ← slice ft 8 12; from_le 4 b) = Ok (len blocks) /\
  (b ← slice ft 12 20; from_le 8 b) = Ok (len (blocks_bytes blocks) + len (index_bytes blocks)) /\
  (b ← slice ft 20 28; from_le 8 b) = Ok (len (bloom_encode f)) /\
  (b ← slice ft 28 36; from_le 8 b) = Ok count.
Proof.
  intros [Himg Hb Hc]. cbv zeta. unfold footer_bytes.
  assert (len (blocks_bytes blocks) + len (index_bytes blocks) + len (bloom_encode f) <= U64_MAX).
  { unfold table_image in Himg. unfold ISIZE_MAX, U64_MAX in *. len. }
  assert (count <= U64_MAX) by (unfold ISIZE_MAX, U64_MAX, RECORD_SIZE in *; lia).
  rewrite as_u32_small by done.
  set (a := le_bytes 8 (len (blocks_bytes blocks))). set (b := le_bytes 4 (len blocks)).
  set (c := le_bytes 8 (len (blocks_bytes blocks) + len (index_bytes blocks))).
  set (d := le_bytes 8 (len (bloom_encode f))). set (e := le_bytes 8 count).
  set (v := le_bytes 4 FORMAT_VERSION).
  assert (len a = 8 /\ len b = 4 /\ len c = 8 /\ len d = 8 /\ len e = 8 /\ len v = 4 /\ len MAGIC = 4)
    as (La & Lb & Lc & Ld & Le & Lv & Lm) by (subst a b c d e v; split_and!; (done || len)).
  split_and!.
  - rewrite <- (app_nil_r MAGIC). pose proof (slice_app 40 44 (a ++ b ++ c ++ d ++ e ++ v) MAGIC []) as E.
    rewrite <- !app_assoc in E. apply E; len.
  - pose proof (slice_app 0 8 [] a (b ++ c ++ d ++ e ++ v ++ MAGIC)) as E. cbn [app] in E.
    rewrite E by (simpl; lia). obind. apply from_le_u64. lia.
  - rewrite (slice_app 8 12 a b (c ++ d ++ e ++ v ++ MAGIC)) by lia. obind. by apply from_le_u32.
  - pose proof (slice_app 12 20 (a ++ b) c (d ++ e ++ v ++ MAGIC)) as E. rewrite <- !app_assoc in E.
    rewrite E by len. obind. apply from_le_u64. lia.
  - pose proof (slice_app 20 28 (a ++ b ++ c) d (e ++ v ++ MAGIC)) as E. rewrite <- !app_assoc in E.
    rewrite E by len. obind. apply from_le_u64. lia.
  - pose proof (slice_app 28 36 (a ++ b ++ c ++ d) e (v ++ MAGIC)) as E. rewrite <- !app_assoc in E.
    rewrite E by len. obind. by apply from_le_u64.
Qed.

(** The parts of the file. *)
Lemma image_parts blocks f count :
  let img := table_image blocks f count in
  let n1 := len (blocks_bytes blocks) in
  let n2 := len (index_bytes blocks) in
  let n3 := len (bloom_encode f) in
  len img = n1 + n2 + n3 + 44 /\
  sub_list (n1 + n2 + n3) (n1 + n2 + n3 + 44) img = footer_bytes blocks f count /\
  sub_list n1 (n1 + n2) img = index_bytes blocks /\
  sub_list (n1 + n2) (n1 + n2 + n3) img = bloom_encode f.
Proof.
  cbv zeta. pose proof (length_footer blocks f count) as Lf. unfold table_image.
  set (x1 := blocks_bytes blocks) in *. set (x2 := index_bytes blocks) in *.
  set (x3 := bloom_encode f) in *. set (x4 := footer_bytes blocks f count) in *.
  split_and!.
  - len.
  - pose proof (sub_list_app (len x1 + len x2 + len x3) (len x1 + len x2 + len x3 + 44) (x1 ++ x2 ++ x3) x4 []) as E.
    rewrite app_nil_r, <- !app_assoc in E. apply E; len.
  - by apply (sub_list_app _ _ x1 x2 (x3 ++ x4)).
  - pose proof (sub_list_app (len x1 + len x2) (len x1 + len x2 + len x3) (x1 ++ x2) x3 x4) as E.
    rewrite <- !app_assoc in E. apply E; len.
Qed.
End opening.

Section open_spec.
Context `{PlatformOk}.

(** The index is read back. *)
Lemma read_index_block blocks :
  Forall wf_entry (block_index 0 blocks) ->
  read_index (S (length (index_bytes blocks))) (index_bytes blocks) 0 (len blocks) [] = Ok (block_index 0 blocks).
Proof.
  intros Hent. rewrite <- (length_block_index 0 blocks).
  apply (read_index_entries _ [] (block_index 0 blocks) []); [done|].
  unfold index_bytes. generalize (block_index 0 blocks). intros l.
  enough (length l <= length (concat (entry_bytes <$> l)))%nat by lia.
  induction l as [|e l IH]; [done|]. rewrite fmap_cons. cbn [concat length]. rewrite length_app.
  pose proof (length_entry_bytes e). lia.
Qed.

(** The file part of [open] on a table's image. *)
Lemma wp_read_table_file path blocks f s :
  blocks_ok blocks -> bloom_for (concat blocks) f -> fs_wf s ->
  table_fits blocks f (len (concat blocks)) ->
  path_data s path = Some (table_image blocks f (len (concat blocks))) ->
  wp (read_table_file path) s (fun o s' => stays s s' /\
    match o with
    | Ok (h, ix, bl, rc) => fs_names s !! path = Some h /\ ix = block_index 0 blocks /\ bl = f /\ rc = len (concat blocks)
    | Err e => io_fault s e
    | Panic => False
    end).
Proof.
  intros Hok Hbf Hwf Hfit Hp. set (cnt := len (concat blocks)) in *.
  pose proof (image_parts blocks f cnt) as (Lm & Pf & Pi & Pb).
  pose proof (footer_fields blocks f cnt Hfit) as (Fm & F1 & F2 & F3 & F4 & F5).
  pose proof (index_entries_wf blocks f cnt Hok Hfit) as Hent.
  pose proof Hfit as [Himg Hnb Hcnt]. set (img := table_image blocks f cnt) in *.
  set (n1 := len (blocks_bytes blocks)) in *. set (n2 := len (index_bytes blocks)) in *.
  set (n3 := len (bloom_encode f)) in *. unfold read_table_file.
  apply wp_bind, wp_open_read; [|by intros e s' Hs He|].
  { destruct (path_data_is_name _ _ _ Hp) as (g & Hg & _). by eexists. }
  intros h s1 Hs1 Hn. cbn [then_wp].
  assert (forall t, stays s t -> file_data t h = img) as Hdata.
  { intros t Hs. rewrite <- (proj1 Hs). rewrite (path_data_names _ _ _ Hn Hwf) in Hp. by injection Hp. }
  assert (forall e t t', stays s t -> stays t t' -> io_fault t e -> stays s t' /\ io_fault s e) as Herr.
  { intros e t t' H1 H2 He. split; [by etrans|]. by eapply io_fault_stays. }
  apply wp_bind, wp_file_size; [intros e s2 ??; by eapply (Herr e s1)|].
  intros s2 Hs2. cbn [then_wp]. rewrite Hdata by done. rewrite Lm.
  assert (stays s s2) as Hs02 by (etrans; eassumption).
  destruct (N.ltb_spec (n1 + n2 + n3 + 44) FOOTER_LEN); [unfold FOOTER_LEN in *; lia|].
  replace (n1 + n2 + n3 + 44 - FOOTER_LEN) with (n1 + n2 + n3) by (unfold FOOTER_LEN; lia).
  apply wp_bind, wp_read_exact; [rewrite Hdata by done; unfold FOOTER_LEN; lia|intros e ? ? ?; by apply (Herr e s2)|].
  intros s3 Hs3. cbn [then_wp]. rewrite (Hdata s2) by done. change FOOTER_LEN with 44. rewrite Pf.
  assert (stays s s3) as Hs03 by (etrans; eassumption).
  apply wp_bind, wp_lift. rewrite Fm. cbn [then_wp]. rewrite bool_decide_true by done. cbn [negb].
  rewrite F1, F2, F3, F4, F5. do 5 (apply wp_bind, wp_lift; cbn [then_wp]). apply wp_bind, wp_lift. fold n1 n2 n3.
  destruct (N.ltb_spec (n1 + n2) n1); [lia|].
  rewrite add_u64_small by (unfold ISIZE_MAX, U64_MAX in *; lia). obind. cbn [then_wp].
  destruct (N.ltb_spec (n1 + n2 + n3) (n1 + n2 + n3)); [lia|].
  replace (n1 + n2 - n1) with n2 by lia.
  rewrite (alloc_granted n2) by lia. apply wp_bind, wp_lift. cbn [then_wp].
  apply wp_bind, wp_read_exact; [rewrite Hdata by done; lia|intros e ? ? ?; by apply (Herr e s3)|].
  intros s4 Hs4. cbn [then_wp]. rewrite (Hdata s3) by done. rewrite Pi.
  assert (stays s s4) as Hs04 by (etrans; eassumption).
  apply wp_bind, wp_lift. rewrite (alloc_granted (INDEX_ENTRY_SIZE * len blocks)) by (unfold INDEX_ENTRY_SIZE, U32_MAX, ISIZE_MAX in *; lia). cbn [then_wp].
  apply wp_bind, wp_lift. rewrite read_index_block by done. cbn [then_wp].
  rewrite (alloc_granted n3) by lia. apply wp_bind, wp_lift. cbn [then_wp].
  apply wp_bind, wp_read_exact; [rewrite Hdata by done; lia|intros e ? ? ?; by apply (Herr e s4)|].
  intros s5 Hs5. cbn [then_wp]. rewrite (Hdata s4) by done. rewrite Pb.
  apply wp_bind, wp_lift. rewrite bloom_decode_encode by apply Hbf. cbn [then_wp].
  apply wp_ret. split; [etrans; eassumption|]. done.
Qed.

Lemma wp_sst_open path enabled blocks f w :
  blocks_ok blocks -> bloom_for (concat blocks) f -> fs_wf (w_fs w) ->
  table_fits blocks f (len (concat blocks)) ->
  path_data (w_fs w) path = Some (table_image blocks f (len (concat blocks))) ->
  wp (sst_open path enabled) w (fun o w' => stays (w_fs w) (w_fs w') /\
    match o with
    | Ok r => table_ok r blocks w' /\ rd_cache r = w_next_cache w /\ rd_path r = path /\
        rd_bloom_enabled r = enabled /\ rd_record_count r = len (concat blocks) /\
        fs_names (w_fs w) !! path = Some (rd_file r) /\ w_next_cache w' = w_next_cache w + 1 /\
        (forall i, i <> w_next_cache w -> w_caches w' !! i = w_caches w !! i)
    | Err e => io_fault (w_fs w) e /\ w_caches w' = w_caches w /\ w_next_cache w' = w_next_cache w
    | Panic => False
    end).
Proof.
  intros Hok Hbf Hwf Hfit Hp. unfold sst_open. apply wp_bind. unfold on_files. apply wp_zoom.
  eapply wp_mono; [by apply (wp_read_table_file path blocks f)|].
  intros [[[[h ix] bl] rc]|e|] s' [Hs Ho]; cbn [then_wp]; [|done|done]. destruct Ho as (Hn & -> & -> & ->).
  apply wp_bind, wp_gets. cbn [then_wp w_next_cache]. apply wp_bind, wp_modify. cbn [then_wp].
  apply wp_ret. cbn [w_fs w_caches w_next_cache]. split; [done|]. split_and!; try done.
  - split; cbn [rd_index rd_bloom rd_record_count rd_file rd_cache]; try done.
    + apply Hfit.
    + exists (index_bytes blocks ++ bloom_encode f ++ footer_bytes blocks f (len (concat blocks))). cbn [w_fs].
      rewrite <- (proj1 Hs). rewrite (path_data_names _ _ _ Hn Hwf) in Hp. by injection Hp as ->.
    + intros off recs. unfold cache_of; cbn [w_caches rd_cache]. rewrite lookup_insert_eq.
      unfold cache_get, cache_new; cbn [default from_option id bc_map]. by rewrite lookup_empty.
    + unfold cache_of; cbn [w_caches rd_cache]. rewrite lookup_insert_eq. apply cache_new_ok.
  - intros i Hi. by rewrite lookup_insert_ne.
Qed.

(** ** Scanning *)

(** The records a scan still has to give. *)
Definition scan_rest (blocks : list (list Rec)) (ts : TableScan) : list Rec :=
  let keep := filter (fun r => from_start (ts_start ts) (r_key r) = true) in
  keep (match ts_loaded ts with
        | Some b => drop (N.to_nat (ts_pos ts)) b
        | None => default [] (blocks !! N.to_nat (ts_block ts))
        end)
    ++ concat (drop (S (N.to_nat (ts_block ts))) blocks).

(** A scan of [r] in a state the iterator can be in. *)
Definition scan_ok (r : SsTableReader) (blocks : list (list Rec)) (ts : TableScan) : Prop :=
  ts_reader ts = r /\ (forall b, ts_loaded ts = Some b -> blocks !! N.to_nat (ts_block ts) = Some b).

Lemma skip_below_spec start rest pos :
  match skip_below start rest pos with
  | Some (r, p) => pos < p /\
      filter (fun r => from_start start (r_key r) = true) rest =
        r :: filter (fun r => from_start start (r_key r) = true) (drop (N.to_nat (p - pos)) rest)
  | None => filter (fun r => from_start start (r_key r) = true) rest = []
  end.
Proof.
  revert pos. induction rest as [|x rest IH]; intros pos; cbn [skip_below]; [done|].
  rewrite filter_cons. destruct (from_start start (r_key x)) eqn:E.
  - split; [lia|]. rewrite decide_True by done.
    by replace (N.to_nat (pos + 1 - pos)) with 1%nat by lia.
  - rewrite decide_False by done. specialize (IH (pos + 1)).
    destruct (skip_below start rest (pos + 1)) as [[r p]|]; [|done]. destruct IH as [Hp ->].
    split; [lia|]. by replace (N.to_nat (p - pos)) with (S (N.to_nat (p - (pos + 1)))) by lia.
Qed.

Lemma filter_no_start (l : list Rec) : filter (fun r => from_start None (r_key r) = true) l = l.
Proof. by apply list_filter_all. Qed.

(** One while the scan may still load a block. *)
Definition scan_slack (ts : TableScan) : nat :=
  if (N.to_nat (ts_block ts) <? length (rd_index (ts_reader ts)))%nat then 1 else 0.

(** [next] gives the records of [scan_rest] one by one, and at most one error. *)
Definition scan_post (r : SsTableReader) (blocks : list (list Rec)) (w : World) (ts : TableScan)
    (o : outcome (option (Rec + Error) * TableScan)) (w' : World) : Prop :=
  reads (rd_cache r) w w' /\ table_ok r blocks w' /\
  match o with
  | Ok (Some (inl x), ts') => scan_ok r blocks ts' /\ scan_rest blocks ts = x :: scan_rest blocks ts' /\
      (scan_slack ts' <= scan_slack ts)%nat
  | Ok (None, ts') => scan_ok r blocks ts' /\ scan_rest blocks ts = [] /\ scan_rest blocks ts' = []
  | Ok (Some (inr e), ts') => io_fault (w_fs w) e /\ scan_ok r blocks ts' /\ scan_rest blocks ts' = [] /\
      (scan_slack ts' < scan_slack ts)%nat
  | _ => False
  end.

(** The next block, of which nothing was read. *)
Lemma scan_next_block r blocks ts n :
  let ts' := mkScan r (ts_block ts + 1) None n None in
  ts_reader ts = r ->
  scan_rest blocks ts' = concat (drop (S (N.to_nat (ts_block ts))) blocks) /\ (scan_slack ts' <= scan_slack ts)%nat.
Proof.
  intros ts' Hr. split.
  - unfold scan_rest, ts'; cbn [ts_start ts_loaded ts_pos ts_block]. rewrite filter_no_start.
    replace (N.to_nat (ts_block ts + 1)) with (S (N.to_nat (ts_block ts))) by lia.
    destruct (blocks !! S (N.to_nat (ts_block ts))) as [c|] eqn:Ec; cbn [default].
    + by rewrite (drop_S blocks c _ Ec).
    + rewrite lookup_ge_None in Ec. rewrite !drop_ge by lia. done.
  - unfold scan_slack, ts'; cbn [ts_block ts_reader]. rewrite Hr. repeat case_match; try lia;
      rewrite ?Nat.ltb_lt, ?Nat.ltb_ge in *; lia.
Qed.

(** A scan that has gone on to [ts1] without giving anything. *)
Lemma scan_post_skip r blocks w w1 ts ts1 o w2 :
  reads (rd_cache r) w w1 -> scan_rest blocks ts = scan_rest blocks ts1 -> (scan_slack ts1 <= scan_slack ts)%nat ->
  scan_post r blocks w1 ts1 o w2 -> scan_post r blocks w ts o w2.
Proof.
  intros Hrd Er Hsl (Hrd2 & Ht2 & Ho). split; [by eapply reads_trans|]. split; [done|].
  destruct o as [[[[x|e]|] ts2]|e|]; try done.
  - destruct Ho as (? & ? & ?). split_and!; [done|congruence|lia].
  - destruct Ho as (He & ? & ? & ?). split_and!; [|done|done|lia]. eapply io_fault_stays; [apply Hrd|done].
  - destruct Ho as (? & ? & ?). split_and!; [done|congruence|done].
Qed.

Lemma wp_scan_loop fuel r blocks w ts :
  blocks_ok blocks -> table_ok r blocks w -> scan_ok r blocks ts ->
  (length blocks < N.to_nat (ts_block ts) + fuel)%nat -> (1 <= fuel)%nat ->
  wp (scan_loop fuel ts) w (scan_post r blocks w ts).
Proof.
  intros Hok. revert w ts. induction fuel as [|fuel IH]; intros w ts Ht [Hr Hl] Hf H1; [lia|].
  pose proof Ht as [Hi _ _ _ _ _]. cbn [scan_loop]. rewrite Hr.
  set (R := fun (o : outcome ((list Rec * N) + option Error)) (w' : World) =>
    reads (rd_cache r) w w' /\ table_ok r blocks w' /\
    match o with
    | Ok (inl (b, pos)) => blocks !! N.to_nat (ts_block ts) = Some b /\
        scan_rest blocks ts = filter (fun r => from_start (ts_start ts) (r_key r) = true)
          (drop (N.to_nat pos) b) ++ concat (drop (S (N.to_nat (ts_block ts))) blocks)
    | Ok (inr None) => blocks !! N.to_nat (ts_block ts) = None /\ ts_loaded ts = None
    | Ok (inr (Some e)) => io_fault (w_fs w) e /\ is_Some (blocks !! N.to_nat (ts_block ts))
    | _ => False
    end).
  apply wp_bind. match goal with |- wp ?m ?s _ => assert (wp m s R) as HR end.
  { unfold scan_rest in R. destruct (ts_loaded ts) as [b|] eqn:El.
    - apply wp_ret. split; [apply reads_refl|]. split; [done|]. split; [by apply Hl|done].
    - rewrite Hi. destruct (blocks !! N.to_nat (ts_block ts)) as [b|] eqn:Eb.
      + rewrite (block_index_lookup 0 blocks _ b Eb), N.add_0_l.
        apply wp_bind, wp_attempt. eapply wp_mono; [by apply wp_load_block|].
        intros [x|e|] w' (Hrd & Ht' & Hx); cbn [then_wp]; [|by apply wp_ret; split_and!; eauto|done].
        subst x. apply wp_ret. split; [done|]. split; [done|]. split; [done|]. done.
      + assert (block_index 0 blocks !! N.to_nat (ts_block ts) = None) as ->.
        { apply lookup_ge_None. rewrite length_block_index. by apply lookup_ge_None. }
        apply wp_ret. split; [apply reads_refl|]. split; [done|]. done. }
  eapply wp_mono; [exact HR|]. clear HR.
  intros [[[b pos]|[e|]]|e|] w' (Hrd & Ht' & Ho); cbn [then_wp]; [..|done|done].
  - destruct Ho as [Eb Erest].
    pose proof (skip_below_spec (ts_start ts) (drop (N.to_nat pos) b) pos) as Hs.
    destruct (skip_below _ _ _) as [[x p]|].
    + destruct Hs as [Hp Hs]. apply wp_ret. split; [done|]. split; [done|]. split_and!.
      * split; [done|]. by intros b' [= <-].
      * rewrite Erest, Hs. unfold scan_rest; cbn [ts_start ts_loaded ts_pos ts_block].
        rewrite drop_drop. replace (N.to_nat pos + N.to_nat (p - pos))%nat with (N.to_nat p) by lia. done.
      * unfold scan_slack; cbn [ts_block ts_reader]. by rewrite Hr.
    + rewrite Hs in Erest. cbn [app] in Erest. destruct (scan_next_block r blocks ts (len b) Hr) as [E' Hsl].
      apply lookup_lt_Some in Eb.
      eapply wp_mono; [apply IH; [done|by split|cbn [ts_block]; lia|by destruct fuel; lia]|].
      intros o w2. apply scan_post_skip; [done|congruence|done].
  - destruct Ho as [He Hb]. apply wp_ret. split; [done|]. split; [done|]. split; [done|].
    apply lookup_lt_is_Some in Hb. split; [by split|].
    unfold scan_rest, scan_slack; cbn [ts_start ts_loaded ts_pos ts_block ts_reader].
    rewrite Hr, Hi, length_block_index. split.
    + rewrite lookup_ge_None_2 by lia. rewrite drop_ge by lia. done.
    + rewrite (proj2 (Nat.ltb_lt _ _) Hb), (proj2 (Nat.ltb_ge _ _)); lia.
  - destruct Ho as [Eb El]. apply wp_ret. split; [done|]. split; [done|].
    assert (scan_rest blocks ts = []) as E; [|by split_and!; [split| |]].
    unfold scan_rest. rewrite El, Eb. apply lookup_ge_None in Eb. by rewrite drop_ge by lia.
Qed.

Lemma wp_scan_next r blocks w ts :
  blocks_ok blocks -> table_ok r blocks w -> scan_ok r blocks ts ->
  wp (scan_next ts) w (scan_post r blocks w ts).
Proof.
  intros Hok Ht Hs. unfold scan_next. apply wp_scan_loop; [done..| |lia].
  destruct Hs as [-> _]. destruct Ht as [-> _ _ _ _ _]. rewrite length_block_index. lia.
Qed.

(** A new scan has every record from its start key on. *)
Lemma sst_scan_spec r blocks w start :
  blocks_ok blocks -> table_ok r blocks w ->
  scan_ok r blocks (sst_scan r start) /\
  scan_rest blocks (sst_scan r start) =
    filter (fun x => from_start start (r_key x) = true) (concat blocks).
Proof.
  intros Hok [Hi _ _ _ _ _]. split; [by split|].
  unfold scan_rest, sst_scan; cbn [ts_start ts_loaded ts_pos ts_block]. rewrite Hi, length_block_index.
  assert (forall i b, blocks !! i = Some b ->
    (forall j c a, (j < i)%nat -> blocks !! j = Some c -> a ∈ c -> from_start start (r_key a) = false) ->
    (forall j c a, (i < j)%nat -> blocks !! j = Some c -> a ∈ c -> from_start start (r_key a) = true) ->
    filter (fun x => from_start start (r_key x) = true) (default [] (blocks !! i)) ++
      concat (drop (S i) blocks) =
    filter (fun x => from_start start (r_key x) = true) (concat blocks)) as Hcut.
  { intros i b Eb Hlo Hhi. rewrite Eb. cbn [default].
    assert (forall l k, (forall j c, l !! j = Some c -> blocks !! (k + j)%nat = Some c) ->
      (i < k)%nat -> filter (fun x => from_start start (r_key x) = true) (concat l) = concat l) as Hall.
    { intros l k Hl Hk. apply list_filter_all. intros a (j & c & Ec & Ha)%concat_elem.
      apply (Hhi (k + j)%nat c); [lia|by apply Hl|done]. }
    rewrite <- (take_drop_middle blocks i b Eb) at 2. rewrite concat_app. cbn [concat].
    rewrite !filter_app. rewrite (Hall (drop (S i) blocks) (S i));
      [|intros j c; by rewrite lookup_drop|lia].
    rewrite (list_filter_none _ (concat (take i blocks))); [done|].
    intros a (j & c & Ec & Ha)%concat_elem. apply lookup_take_Some in Ec as [Ec Hj].
    by rewrite (Hlo j c a Hj Ec Ha). }
  destruct blocks as [|b0 blocks'] eqn:Ebl.
  { destruct start; cbn; done. }
  rewrite <- Ebl in *. assert (block_index 0 blocks <> []) as Hne by (by rewrite Ebl).
  assert (blocks !! 0%nat = Some b0) as E0 by (by rewrite Ebl).
  destruct start as [key|].
  - unfold block_bracketing. rewrite Hi. rewrite bool_decide_false by done.
    pose proof (bracket_spec blocks key Hok) as Hbr.
    assert (forall a, key_lt key (r_key a) -> from_start (Some key) (r_key a) = true) as Hge.
    { intros a Ha. cbn. apply negb_true_iff, key_ltb_ge. by right. }
    assert (forall s, bracket s = None -> match s with inl i => Some i | inr i => Some (if i =? 0 then 0 else i - 1) end = Some 0) as Hb0.
    { intros [i|i]; cbn [bracket]; [done|]. by destruct (i =? 0). }
    assert (forall s i, bracket s = Some i -> match s with inl i => Some i | inr i => Some (if i =? 0 then 0 else i - 1) end = Some i) as Hb1.
    { intros [j|j] i; cbn [bracket]; [done|]. by destruct (j =? 0). }
    destruct (bracket (search_index (block_index 0 blocks) key)) as [i|] eqn:Eb.
    + rewrite (Hb1 _ i Eb). cbn [default]. destruct Hbr as (b & Ebi & _ & Hlo & Hhi).
      apply (Hcut (N.to_nat i) b Ebi).
      * intros j c a Hj Ec Ha. cbn. apply negb_false_iff, key_ltb_lt. by eapply Hlo.
      * intros j c a Hj Ec Ha. apply Hge. by eapply Hhi.
    + rewrite (Hb0 _ Eb). cbn [default]. apply (Hcut 0%nat b0 E0); [lia|].
      intros j c a _ Ec Ha. apply Hge, Hbr. by eapply blocks_elem.
  - rewrite bool_decide_false by done. cbn [default]. apply (Hcut 0%nat b0 E0); [lia|done].
Qed.
End open_spec.
