(* ===== verification/Tables.v ===== *)
(** * Tables, end to end

    What the writer, the reader and the scan of one table promise together: the
    records written are the records found, whatever is asked and whatever fails
    in between, and the block cache is bounded and never stale. *)
From Stdlib Require Import NArith Lia.
From stdpp Require Import base numbers list sorting strings gmap.
From S2P Require Import Prelude Errors FileNames Platform State FileSystem Store Records Versions.
From S2P Require Import Bloom MemTable SsTables TableLayout TableReads.

Local Open Scope N_scope.

(** The open tables, by the cache each owns: readers and the records they hold. *)
Abbreviation Tables := (gmap N (SsTableReader * list Rec)).

Section tables.
Context `{PlatformOk}.

(** The length of the file the writer makes of [records]. *)
Definition table_size (records : list Rec) : N :=
  len (blocks_bytes (chunk [] records)) + len (index_bytes (chunk [] records)) +
  (12 + div_ceil (bf_bit_count (bloom_new (len records))) 8) + 44.

(** Every length the file format stores in a field fits the field, and the file
    fits in memory. *)
Record records_fit (records : list Rec) : Prop := mkRecordsFit {
  rf_blocks : Forall (fun b => len (comp_block b) <= U32_MAX /\ len (raw_block b) <= U32_MAX)
                (chunk [] records);
  rf_index : len (chunk [] records) <= U32_MAX;
  rf_size : table_size records <= ISIZE_MAX;
  rf_alloc : RECORD_SIZE * len records <= ISIZE_MAX
}.

#[export] Instance records_fit_dec records : Decision (records_fit records).
Proof.
  refine (cast_if (decide (Forall (fun b => len (comp_block b) <= U32_MAX /\ len (raw_block b) <= U32_MAX)
      (chunk [] records) /\ len (chunk [] records) <= U32_MAX /\ table_size records <= ISIZE_MAX /\
      RECORD_SIZE * len records <= ISIZE_MAX))).
  - abstract (destruct_and?; by split).
  - abstract (intros []; naive_solver).
Defined.

(** Records a table can hold. *)
Record table_records (records : list Rec) : Prop := mkTableRecords {
  tr_sorted : run_sorted records;
  tr_wf : Forall wf_rec records;
  tr_fit : records_fit records
}.

(** [d] is the file of a table that holds [records]. *)
Definition table_bytes (records : list Rec) (d : bytes) : Prop :=
  exists f, bloom_for records f /\ bf_bit_count f = bf_bit_count (bloom_new (len records)) /\
    d = table_image (chunk [] records) f (len records).

Lemma chunk_ok records : table_records records -> blocks_ok (chunk [] records).
Proof.
  intros [Hs Hwf [Hb _ _ _]]. split; [apply chunk_nonempty|by rewrite concat_chunk|by apply chunk_apart| |done].
  apply Forall_forall. intros b Hb'. apply Forall_forall. intros r Hr. rewrite Forall_forall in Hwf.
  apply Hwf. by apply (chunk_elem_of [] records b r).
Qed.

Lemma table_size_image records f :
  bloom_for records f -> bf_bit_count f = bf_bit_count (bloom_new (len records)) ->
  len (table_image (chunk [] records) f (len records)) = table_size records.
Proof.
  intros [Hf _] Hb. unfold table_image, table_size.
  pose proof (length_footer (chunk [] records) f (len records)).
  pose proof (length_bloom_encode f Hf) as Hl. rewrite Hb in Hl. len.
Qed.

(** [open] on the file of a table. *)
Lemma wp_open_table path enabled records w :
  table_records records -> fs_wf (w_fs w) ->
  (exists d, path_data (w_fs w) path = Some d /\ table_bytes records d) ->
  wp (sst_open path enabled) w (fun o w' => stays (w_fs w) (w_fs w') /\
    match o with
    | Ok r => table_ok r (chunk [] records) w' /\ rd_cache r = w_next_cache w /\ rd_path r = path /\
        rd_bloom_enabled r = enabled /\ rd_record_count r = len records /\
        fs_names (w_fs w) !! path = Some (rd_file r) /\ w_next_cache w' = w_next_cache w + 1 /\
        (forall i, i <> w_next_cache w -> w_caches w' !! i = w_caches w !! i)
    | Err e => io_fault (w_fs w) e /\ w_caches w' = w_caches w /\ w_next_cache w' = w_next_cache w
    | Panic => False
    end).
Proof.
  intros Hr Hwf (d & Hp & f & Hf & Hb & ->).
  pose proof (wp_sst_open path enabled (chunk [] records) f w) as Hw.
  rewrite concat_chunk in Hw. cbn [app] in Hw.
  apply Hw; [by apply chunk_ok|done|done| |done].
  destruct Hr as [_ _ [_ Hi Hsz Ha]]. split; [by rewrite table_size_image|done|done].
Qed.

(** Writing a table. *)
Lemma wp_write_table p records s :
  good s -> plain p ->
  wp (sst_write p records) s (fun o s' => touches [p] s s' /\
    match o with
    | Ok n => n = len records /\ is_Some (fs_names s' !! p) /\
        exists d, path_data s' p = Some d /\ table_bytes records d
    | Err e => (exists k, e = Io k) /\ (quiet s -> p_dir p ∉ fs_dirs s)
    | Panic => False
    end).
Proof.
  intros Hg Hp. eapply wp_mono; [by apply wp_sst_write|]. intros [n|e|] s' [Ht Ho]; [|done|done].
  destruct Ho as (-> & f & Hf & Hb & Hd & Hn). split_and!; [done..|]. eexists. split; [done|]. by exists f.
Qed.

(** Reads of an open table. *)
Lemma wp_table_get r records w key bound :
  table_records records -> table_ok r (chunk [] records) w ->
  wp (sst_get_at r key bound) w (fun o w' =>
    reads (rd_cache r) w w' /\ table_ok r (chunk [] records) w' /\
    match o with
    | Ok x => x = newest key bound records
    | Err e => io_fault (w_fs w) e
    | Panic => False
    end).
Proof.
  intros Hr Ht. eapply wp_mono; [by apply wp_sst_get_at; [apply chunk_ok|]|]. cbv beta.
  by rewrite concat_chunk.
Qed.

Lemma wp_table_iter r records w :
  table_records records -> table_ok r (chunk [] records) w ->
  wp (iter_all r) w (fun o w' => reads (rd_cache r) w w' /\ table_ok r (chunk [] records) w' /\
    match o with Ok x => x = records | Err e => io_fault (w_fs w) e | Panic => False end).
Proof.
  intros Hr Ht. eapply wp_mono; [by apply wp_iter_all; [apply chunk_ok|]|]. cbv beta.
  by rewrite concat_chunk.
Qed.

(** At most [n] records of a scan, up to its end or its first error. *)
Fixpoint scan_collect (n : nat) (ts : TableScan) : WM (list Rec * option Error) :=
  match n with
  | O => mret ([], None)
  | S n =>
      '(x, ts) ← scan_next ts;
      match x with
      | None => mret ([], None)
      | Some (inr e) => mret ([], Some e)
      | Some (inl r) => '(l, e) ← scan_collect n ts; mret (r :: l, e)
      end
  end.

Lemma wp_scan_collect n r blocks w ts :
  blocks_ok blocks -> table_ok r blocks w -> scan_ok r blocks ts ->
  wp (scan_collect n ts) w (fun o w' => reads (rd_cache r) w w' /\ table_ok r blocks w' /\
    match o with
    | Ok (l, None) => l = take n (scan_rest blocks ts)
    | Ok (l, Some e) => l `prefix_of` scan_rest blocks ts /\ io_fault (w_fs w) e
    | _ => False
    end).
Proof.
  intros Hok. revert w ts. induction n as [|n IH]; intros w ts Ht Hs; cbn [scan_collect].
  { apply wp_ret. split; [apply reads_refl|done]. }
  apply wp_bind. eapply wp_mono; [by apply wp_scan_next|].
  intros [[[[x|e]|] ts']|e|] w1 (Hr & Ht1 & Ho); cbn [then_wp]; try done.
  - destruct Ho as (Hs' & Hrest & _). apply wp_bind. eapply wp_mono; [by apply IH|].
    intros [[l [e|]]|e|] w2 (Hr2 & Ht2 & Ho2); cbn [then_wp]; try done; apply wp_ret;
      (split; [by eapply reads_trans|]); (split; [done|]); rewrite Hrest.
    + destruct Ho2 as [? He]. split; [by apply prefix_cons|].
      eapply io_fault_stays; [apply Hr|done].
    + cbn [take]. by subst l.
  - destruct Ho as (He & _). apply wp_ret. split_and!; try done. apply prefix_nil.
  - destruct Ho as (_ & -> & _). apply wp_ret. split_and!; try done.
Qed.
(** With no fault pending, writing and opening succeed. *)
Lemma write_then_open p records w enabled :
  table_records records -> good (w_fs w) -> plain p -> p_dir p ∈ fs_dirs (w_fs w) -> quiet (w_fs w) ->
  exists w1 r w2, on_files (sst_write p records) w = (Ok (len records), w1) /\
    sst_open p enabled w1 = (Ok r, w2) /\ table_ok r (chunk [] records) w2 /\ quiet (w_fs w2).
Proof.
  intros Hr Hg Hp Hdir Hq. unfold on_files, zoom.
  pose proof (wp_write_table p records (w_fs w) Hg Hp) as Hw. unfold wp in Hw.
  destruct (sst_write p records (w_fs w)) as [o s1]. cbn [fst snd] in Hw. destruct Hw as [Ht Ho].
  destruct o as [n|e|]; [|exfalso; by apply (proj2 Ho)|done]. destruct Ho as (-> & _ & Hd).
  set (w1 := mkWorld s1 (w_caches w) (w_next_cache w)). exists w1.
  pose proof (wp_open_table p enabled records w1 Hr (proj1 (touches_good _ _ _ Ht)) Hd) as Hw.
  apply (touches_quiet _ _ _ Ht) in Hq.
  unfold wp in Hw. destruct (sst_open p enabled w1) as [[r|e|] w2]; cbn [fst snd] in Hw;
    [|by destruct Hw as (_ & [_ ?] & _)|by destruct Hw].
  destruct Hw as (Hs & Hok & _). exists r, w2. split_and!; [done..|]. by apply Hs.
Qed.

(** ** How large a table may be *)

(** Records of up to a GiB in all always fit a table. *)
Definition SIZE_LIMIT : N := 1024 * 1024 * 1024.

Lemma length_raw_sum l : len (raw_block l) = sum_encoded l.
Proof.
  unfold raw_block. induction l as [|r l IH]; [done|]. rewrite fmap_cons. cbn [concat sum_encoded foldr].
  fold (sum_encoded l). pose proof (length_encode r). len.
Qed.

Lemma comp_block_bound b : len (comp_block b) <= 20 + 2 * len (raw_block b).
Proof.
  pose proof (lz4_size_bound (raw_block b)) as Hb. fold (comp_block b) in Hb.
  assert (len (raw_block b) * 110 / 100 <= 2 * len (raw_block b)); [|lia].
  apply N.Div0.div_le_upper_bound; lia.
Qed.

Lemma blocks_bytes_bound bs :
  len (blocks_bytes bs) <= 20 * len bs + 2 * len (raw_block (concat bs)).
Proof.
  induction bs as [|b bs IH]; [done|]. unfold blocks_bytes in *. rewrite fmap_cons. cbn [concat].
  rewrite raw_block_app. pose proof (comp_block_bound b). len.
Qed.

Lemma index_bytes_bound off bs :
  Forall (fun b => b <> []) bs ->
  len (concat (entry_bytes <$> block_index off bs)) <= len (raw_block (concat bs)).
Proof.
  intros Hne. revert off. induction Hne as [|b bs Hb _ IH]; intros off; [done|].
  cbn [block_index]. rewrite fmap_cons. cbn [concat]. rewrite raw_block_app, length_app, length_app.
  specialize (IH (off + len (comp_block b))).
  pose proof (length_entry_bytes (first_key b, off, as_u32 (len (comp_block b)))) as He. cbn [fst] in He.
  destruct b as [|r b]; [done|]. cbn [first_key] in *.
  assert (encoded_len r <= len (raw_block (r :: b))) as Hr.
  { rewrite length_raw_sum. cbn [sum_encoded foldr]. lia. }
  unfold encoded_len in Hr. lia.
Qed.

Lemma length_blocks_le (bs : list (list Rec)) : Forall (fun b => b <> []) bs -> len bs <= len (concat bs).
Proof. induction 1 as [|b bs Hb _ IH]; [done|]. cbn [concat length]. destruct b; [done|]. len. Qed.

Lemma small_fits records : sum_encoded records <= SIZE_LIMIT -> records_fit records.
Proof.
  unfold SIZE_LIMIT. intros Hs. set (bs := chunk [] records).
  assert (concat bs = records) as Ec by (unfold bs; by rewrite concat_chunk).
  assert (Forall (fun b => b <> []) bs) as Hne by apply chunk_nonempty.
  pose proof (length_blocks_le bs Hne) as Hb. rewrite Ec in Hb.
  pose proof (blocks_bytes_bound bs) as Hbb. pose proof (index_bytes_bound 0 bs Hne) as Hib.
  fold (index_bytes bs) in Hib. rewrite Ec in Hbb, Hib. pose proof (length_raw_block records) as Hr.
  rewrite length_raw_sum in *. split; fold bs.
  - apply Forall_forall. intros b Hin. apply list_elem_of_lookup in Hin as [i Ei].
    assert (len (raw_block b) <= sum_encoded records) as Hle.
    { rewrite <- length_raw_sum, <- Ec, <- (take_drop_middle bs i b Ei), concat_app. cbn [concat].
      rewrite !raw_block_app. len. }
    pose proof (comp_block_bound b). unfold U32_MAX. lia.
  - unfold U32_MAX. lia.
  - unfold table_size. fold bs.
    assert (bf_bit_count (bloom_new (len records)) <= 10 * len records + 11) as Hbits.
    { unfold bloom_new; cbn [bf_bit_count]. pose proof (bloom_bits_bound (N.max (len records) 1)). lia. }
    assert (div_ceil (bf_bit_count (bloom_new (len records))) 8 <= 10 * len records + 20).
    { unfold div_ceil. apply N.Div0.div_le_upper_bound; lia. }
    unfold ISIZE_MAX. lia.
  - unfold RECORD_SIZE, ISIZE_MAX. lia.
Qed.

Lemma small_table l :
  run_sorted l -> Forall wf_rec l -> sum_encoded l <= SIZE_LIMIT -> table_records l.
Proof. intros. split; [done|done|by apply small_fits]. Qed.

(** Fewer records take less room. *)
Lemma sum_encoded_app a b : sum_encoded (a ++ b) = sum_encoded a + sum_encoded b.
Proof. unfold sum_encoded. induction a as [|x a IH]; cbn [app foldr]; [done|]. rewrite IH. lia. Qed.

Lemma sum_encoded_perm a b : a ≡ₚ b -> sum_encoded a = sum_encoded b.
Proof. induction 1; unfold sum_encoded in *; cbn [foldr] in *; lia. Qed.

Lemma sum_encoded_subset a b :
  NoDup a -> (forall x, x ∈ a -> x ∈ b) -> sum_encoded a <= sum_encoded b.
Proof.
  intros Hn Hs. destruct (submseteq_Permutation a b) as [k ->%sum_encoded_perm].
  - by apply NoDup_submseteq.
  - rewrite sum_encoded_app. lia.
Qed.

(** ** Several open tables *)

(** The reader [r] is open on a table of [l] in [w]. *)
Record opened (w : World) (r : SsTableReader) (l : list Rec) : Prop := mkOpened {
  op_fresh : rd_cache r < w_next_cache w;
  op_records : table_records l;
  op_table : table_ok r (chunk [] l) w;
  op_sealed : sealed (w_fs w) (rd_file r)
}.

Record world_ok (T : Tables) (w : World) : Prop := mkWorldOk {
  wo_good : good (w_fs w);
  wo_table : forall id r l, T !! id = Some (r, l) -> rd_cache r = id /\ opened w r l
}.

(** A read of one table keeps all of them. *)
Lemma world_ok_reads T w w' id r l :
  world_ok T w -> T !! id = Some (r, l) -> reads id w w' -> table_ok r (chunk [] l) w' -> world_ok T w'.
Proof.
  intros [Hg Ht] Hid Hr Hok. pose proof Hr as ((Hs & _) & Hn & _).
  pose proof Hs as (Ei & En & _). split; [by eapply good_proper|].
  intros id' r' l' Hid'. destruct (Ht id' r' l' Hid') as [Hc [Hf Hrec Hok' [Hse1 Hse2]]]. split; [done|].
  split; [by rewrite Hn|done| |by split; [rewrite <- Ei|rewrite <- En]].
  destruct (decide (id' = id)) as [->|Hne]; [congruence|].
  apply (reads_other id _ _ w); [congruence|done|done].
Qed.

(** From [w] to [w'] nothing but caches and the fault script changed. *)
Definition quiescent (w w' : World) : Prop :=
  stays (w_fs w) (w_fs w') /\ w_next_cache w' = w_next_cache w.

#[export] Instance quiescent_preorder : PreOrder quiescent.
Proof.
  split; [by intros w|]. intros a b c [S1 N1] [S2 N2]. split; [by etrans|congruence].
Qed.

Lemma reads_quiescent id w w' : reads id w w' -> quiescent w w'.
Proof. intros (Hs & Hn & _). by split. Qed.

Lemma wp_world_get T w id r l key bound :
  world_ok T w -> T !! id = Some (r, l) ->
  wp (sst_get_at r key bound) w (fun o w' => world_ok T w' /\ quiescent w w' /\
    match o with
    | Ok x => x = newest key bound l
    | Err e => io_fault (w_fs w) e
    | Panic => False
    end).
Proof.
  intros Hw Hid. destruct (wo_table _ _ Hw _ _ _ Hid) as [Hc [_ Hrec Hok _]].
  eapply wp_mono; [by apply wp_table_get|]. intros o w' (Hr & Hok' & Ho). rewrite Hc in Hr.
  split; [by eapply world_ok_reads|]. split; [by eapply reads_quiescent|done].
Qed.

Lemma wp_world_iter T w id r l :
  world_ok T w -> T !! id = Some (r, l) ->
  wp (iter_all r) w (fun o w' => world_ok T w' /\ quiescent w w' /\
    match o with Ok x => x = l | Err e => io_fault (w_fs w) e | Panic => False end).
Proof.
  intros Hw Hid. destruct (wo_table _ _ Hw _ _ _ Hid) as [Hc [_ Hrec Hok _]].
  eapply wp_mono; [by apply wp_table_iter|]. intros o w' (Hr & Hok' & Ho). rewrite Hc in Hr.
  split; [by eapply world_ok_reads|]. split; [by eapply reads_quiescent|done].
Qed.

(** The next record of a scan over one of the tables. *)
Lemma wp_world_scan_next T w id r l ts :
  world_ok T w -> T !! id = Some (r, l) -> scan_ok r (chunk [] l) ts ->
  wp (scan_next ts) w (fun o w' => world_ok T w' /\ quiescent w w' /\
    let rest := scan_rest (chunk [] l) in
    match o with
    | Ok (Some (inl x), ts') => scan_ok r (chunk [] l) ts' /\ rest ts = x :: rest ts' /\
        (scan_slack ts' <= scan_slack ts)%nat
    | Ok (None, ts') => scan_ok r (chunk [] l) ts' /\ rest ts = [] /\ rest ts' = []
    | Ok (Some (inr e), ts') => io_fault (w_fs w) e /\ scan_ok r (chunk [] l) ts' /\ rest ts' = [] /\
        (scan_slack ts' < scan_slack ts)%nat
    | _ => False
    end).
Proof.
  intros Hw Hid Hs. destruct (wo_table _ _ Hw _ _ _ Hid) as [Hc [_ Hrec Hok _]].
  eapply wp_mono; [by apply wp_scan_next; [apply chunk_ok| |]|]. intros o w' (Hr & Hok' & Ho). rewrite Hc in Hr.
  split; [by eapply world_ok_reads|]. split; [by eapply reads_quiescent|done].
Qed.
End tables.

(** ** Properties *)

Section table_properties.
Context `{PlatformOk}.

(** C24: a table gives back what was written.  Writing sorted records never
    panics, touches no other file and fails with an I/O error only if the device
    failed; a table that was written opens (or the device failed), and then a
    lookup of any key at any bound gives the newest record of the list visible
    at that bound, with the filter switched on or off, and [iter_all] gives the
    list. *)
Theorem table_write_read (p : Path) (records : list Rec) (w : World) (enabled : bool) :
  table_records records -> good (w_fs w) -> plain p -> p_dir p ∈ fs_dirs (w_fs w) ->
  let '(o, w1) := on_files (sst_write p records) w in
  (forall q, q <> p -> path_data (w_fs w1) q = path_data (w_fs w) q) /\
  match o with
  | Err e => io_fault (w_fs w) e
  | Panic => False
  | Ok n =>
      n = len records /\
      match sst_open p enabled w1 with
      | (Err e, _) => io_fault (w_fs w1) e
      | (Panic, _) => False
      | (Ok r, w2) =>
          (forall key bound, match (sst_get_at r key bound w2).1 with
             | Ok x => x = newest key bound records
             | Err e => io_fault (w_fs w2) e
             | Panic => False
             end) /\
          match (iter_all r w2).1 with
          | Ok l => l = records
          | Err e => io_fault (w_fs w2) e
          | Panic => False
          end
      end
  end.
Proof.
  intros Hr Hg Hp Hdir. unfold on_files, zoom.
  pose proof (wp_write_table p records (w_fs w) Hg Hp) as Hw. unfold wp in Hw.
  destruct (sst_write p records (w_fs w)) as [o s1]. cbn [fst snd w_fs] in *.
  destruct Hw as [Ht Ho]. split.
  { intros q Hq. apply (touches_data _ _ _ Ht). by rewrite list_elem_of_singleton. }
  destruct o as [n|e|]; [|split; [apply Ho|]; intros Hq; by apply (proj2 Ho)|done].
  destruct Ho as (-> & _ & Hd). split; [done|].
  set (w1 := mkWorld s1 _ _).
  pose proof (wp_open_table p enabled records w1 Hr (proj1 (touches_good _ _ _ Ht)) Hd) as Hw.
  unfold wp in Hw. destruct (sst_open p enabled w1) as [[r|e|] w2]; cbn [fst snd] in Hw;
    [|by destruct Hw as [_ [? _]]|by destruct Hw]. destruct Hw as (_ & Hok & _). split.
  - intros key bound. pose proof (wp_table_get r records w2 key bound Hr Hok) as Hw'.
    unfold wp in Hw'. destruct (sst_get_at r key bound w2) as [[x|e|] w3]; apply Hw'.
  - pose proof (wp_table_iter r records w2 Hr Hok) as Hw'.
    unfold wp in Hw'. destruct (iter_all r w2) as [[x|e|] w3]; apply Hw'.
Qed.

(** C25: the lazy scan of an open table gives, in order, exactly the records
    whose key is not below the start key (all of them if there is none): as many
    as are asked for, or a prefix of them and an I/O error of the device.  It
    never panics, and its search for the first block never skips a record. *)
Theorem table_scan_complete (r : SsTableReader) (records : list Rec) (w : World)
    (start : option bytes) (n : nat) :
  table_records records -> table_ok r (chunk [] records) w ->
  let expected := filter (fun x => from_start start (r_key x) = true) records in
  match (scan_collect n (sst_scan r start) w).1 with
  | Ok (l, None) => l = take n expected
  | Ok (l, Some e) => l `prefix_of` expected /\ io_fault (w_fs w) e
  | _ => False
  end.
Proof.
  intros Hr Ht. cbv zeta. destruct (sst_scan_spec r (chunk [] records) w start) as [Hs Erest];
    [by apply chunk_ok|done|]. rewrite concat_chunk in Erest. cbn [app] in Erest.
  pose proof (wp_scan_collect n r (chunk [] records) w (sst_scan r start) (chunk_ok _ Hr) Ht Hs) as Hw.
  unfold wp in Hw. destruct (scan_collect n (sst_scan r start) w) as [[[l [e|]]|e|] w']; rewrite ?Erest in Hw;
    apply Hw.
Qed.
End table_properties.

(** C26: the block cache after any sequence of insertions holds at most
    [BLOCK_CACHE_CAP] blocks, every block it gives is one that was put at that
    offset, and the offset put last is always there. *)
Theorem block_cache_bounded (puts : list (N * list Rec)) (off : N) (block : list Rec) :
  let c := foldl (fun c e => cache_put e.1 e.2 c) cache_new (puts ++ [(off, block)]) in
  N.of_nat (size (bc_map c)) <= BLOCK_CACHE_CAP /\ len (bc_order c) = N.of_nat (size (bc_map c)) /\
  (forall o b, cache_get o c = Some b -> (o, b) ∈ puts ++ [(off, block)]) /\
  is_Some (cache_get off c).
Proof.
  cbv zeta. rewrite foldl_app. cbn [foldl fst snd].
  set (c := foldl (fun c e => cache_put e.1 e.2 c) cache_new puts).
  assert (cache_ok c /\ forall o b, cache_get o c = Some b -> (o, b) ∈ puts) as [Hc Hin].
  { unfold c. clear c. induction puts as [|[o b] puts IH] using rev_ind.
    - split; [apply cache_new_ok|]. intros o b. unfold cache_get, cache_new. cbn [bc_map foldl]. by rewrite lookup_empty.
    - rewrite foldl_app. cbn [foldl fst snd]. destruct IH as [Hc Hin]. split; [by apply cache_put_ok|].
      intros o' b' [Hg|(-> & -> & _)]%cache_put_get; set_solver. }
  pose proof (cache_put_ok off block c Hc) as (Hnd & Hdom & Hcap).
  assert (len (bc_order (cache_put off block c)) = N.of_nat (size (bc_map (cache_put off block c)))) as Hsz.
  { f_equal. rewrite <- size_dom. rewrite <- (size_list_to_set (C := gset N) _ Hnd). f_equal.
    apply set_eq. intros o. by rewrite elem_of_list_to_set, elem_of_dom. }
  split_and!; [lia|done| |].
  - intros o b [Hg|(-> & -> & _)]%cache_put_get; set_solver.
  - unfold cache_get, cache_put. destruct (bc_map c !! off) as [x|] eqn:E; [by rewrite E|].
    cbn [bc_map]. rewrite lookup_insert_eq. done.
Qed.

(** ** Instances *)

Definition sample_records : list Rec :=
  [mkRec (bytes_of_string "a") None 7; mkRec (bytes_of_string "a") (Some (bytes_of_string "old")) 3;
   mkRec (bytes_of_string "b") (Some []) 5; mkRec (bytes_of_string "d") (Some (bytes_of_string "x")) 1].

Lemma sample_records_ok : table_records (P := sample_platform true) sample_records.
Proof.
  split.
  - repeat (constructor; [|repeat (constructor; [vm_compute; tauto|]); constructor]). constructor.
  - repeat (constructor; [done|]). constructor.
  - apply (bool_decide_unpack _). vm_compute. done.
Qed.

Definition sample_world (faults : list (option Fault)) : World := mkWorld (empty_dir "db" faults) ∅ 0.

Lemma table_write_read_witness :
  let _ := sample_platform true in
  let w := sample_world [None; None; None; None; Some (FShort 3); Some (FFail Interrupted)] in
  let p := join "db" (sst_tmp_name 4) in
  let '(o, w1) := on_files (sst_write p sample_records) w in
  (forall q, q <> p -> path_data (w_fs w1) q = path_data (w_fs w) q) /\
  match o with
  | Err e => io_fault (w_fs w) e
  | Panic => False
  | Ok n =>
      n = len sample_records /\
      match sst_open p true w1 with
      | (Err e, _) => io_fault (w_fs w1) e
      | (Panic, _) => False
      | (Ok r, w2) =>
          (forall key bound, match (sst_get_at r key bound w2).1 with
             | Ok x => x = newest key bound sample_records
             | Err e => io_fault (w_fs w2) e
             | Panic => False
             end) /\
          match (iter_all r w2).1 with
          | Ok l => l = sample_records
          | Err e => io_fault (w_fs w2) e
          | Panic => False
          end
      end
  end.
Proof.
  intros P w p.
  apply (table_write_read (P := P) (H := sample_platform_ok true) p sample_records w true).
  - apply sample_records_ok.
  - apply empty_dir_good.
  - apply sst_tmp_plain.
  - apply empty_dir_dirs.
Defined.

Lemma table_scan_complete_witness :
  let _ := sample_platform true in
  let p := join "db" (sst_tmp_name 4) in
  exists r w, table_ok r (chunk [] sample_records) w /\
  let expected := filter (fun x => from_start (Some (bytes_of_string "aa")) (r_key x) = true) sample_records in
  match (scan_collect 9 (sst_scan r (Some (bytes_of_string "aa"))) w).1 with
  | Ok (l, None) => l = take 9 expected
  | Ok (l, Some e) => l `prefix_of` expected /\ io_fault (w_fs w) e
  | _ => False
  end.
Proof.
  intros P p.
  destruct (write_then_open (P := P) (H := sample_platform_ok true) p sample_records (sample_world []) true)
    as (w1 & r & w2 & _ & _ & Hok & _).
  - apply sample_records_ok.
  - apply empty_dir_good.
  - apply sst_tmp_plain.
  - apply empty_dir_dirs.
  - done.
  - exists r, w2. split; [exact Hok|].
    apply (table_scan_complete (P := P) (H := sample_platform_ok true) r sample_records w2
      (Some (bytes_of_string "aa")) 9 sample_records_ok Hok).
Defined.
