(* ===== verification/Merging.v ===== *)
(** * Merging a key range (src/src/scan.rs)

    The k-way merge behind [Db::scan]: one head held back per source, the source
    whose head sorts first is advanced, shadowed and invisible versions are
    dropped and tombstones are resolved. *)
From Stdlib Require Import NArith Lia.
From stdpp Require Import base numbers list strings gmap.
From S2P Require Import Prelude Errors Platform State FileSystem Records Versions SsTables.

Local Open Scope N_scope.

(** [scan::Item]. *)
Abbreviation Item := (Rec + Error)%type (only parsing).

(** The iterators that are merged: a copied MemTable range or a table's scan. *)
Inductive Source :=
| SVec (items : list Item)
| STable (ts : TableScan).

(** [struct Peeking]. *)
Record Peeking := mkPeek { pk_iter : Source; pk_head : option Item }.

(** [struct Merge]. *)
Record Merge := mkMerge {
  mg_sources : list Peeking;
  mg_seq_bound : N;
  mg_end : option bytes;
  mg_done : option bytes
}.

(** [Merge::next_source]: the loop from source [i] with the best head so far. *)
Fixpoint next_source_loop (sources : list Peeking) (i : N) (best : option (N * Rec)) : option N :=
  match sources with
  | [] => fst <$> best
  | s :: sources =>
      match pk_head s with
      | Some (inr _) => Some i
      | None => next_source_loop sources (i + 1) best
      | Some (inl head) =>
          let better :=
            match best with
            | None => true
            | Some (_, current) =>
                match key_cmp (r_key head) (r_key current) with
                | Lt => true
                | Gt => false
                | Eq => r_seq current <? r_seq head
                end
            end in
          next_source_loop sources (i + 1) (if better then Some (i, head) else best)
      end
  end.

Definition next_source (m : Merge) : option N := next_source_loop (mg_sources m) 0 None.

Section merge.
Context `{Platform}.

(** [Iterator::next] of a source. *)
Definition source_next (s : Source) : WM (option Item * Source) :=
  match s with
  | SVec [] => mret (None, SVec [])
  | SVec (x :: l) => mret (Some x, SVec l)
  | STable ts => '(o, ts) ← scan_next ts; mret (o, STable ts)
  end.

(** [Peeking::new] and [Peeking::advance]. *)
Definition peeking_new (s : Source) : WM Peeking :=
  '(head, s) ← source_next s; mret (mkPeek s head).
Definition peeking_advance (p : Peeking) : WM (option Item * Peeking) :=
  '(head, s) ← source_next (pk_iter p); mret (pk_head p, mkPeek s head).

(** [Merge::new]. *)
Definition merge_new (sources : list Source) (seq_bound : N) (fin : option bytes) : WM Merge :=
  ps ← map_each sources peeking_new;
  mret (mkMerge ps seq_bound fin None).

(** The records of a block as [load_block] would return them. *)
Definition block_in (w : World) (r : SsTableReader) (e : bytes * N * N) : list Rec :=
  match cache_get e.1.2 (cache_of r w) with
  | Some block => block
  | None =>
      match block_of_bytes (sub_list e.1.2 (e.1.2 + e.2) (file_data (w_fs w) (rd_file r))) with
      | Ok block => block
      | _ => []
      end
  end.

(** At most how many items a source has left: what bounds the loops below. *)
Definition source_bound (w : World) (s : Source) : nat :=
  match s with
  | SVec l => length l
  | STable ts =>
      S (match ts_loaded ts with Some block => length block | None => 0%nat end +
         sum_list_with (fun e => length (block_in w (ts_reader ts) e)) (rd_index (ts_reader ts)))
  end.

(** [iter.by_ref().for_each(drop)]. *)
Fixpoint drain_loop (fuel : nat) (s : Source) : WM Source :=
  match fuel with
  | O => lift Panic
  | S fuel =>
      '(o, s) ← source_next s;
      match o with
      | None => mret s
      | Some _ => drain_loop fuel s
      end
  end.
Definition drain (s : Source) : WM Source :=
  n ← gets (fun w => source_bound w s);
  drain_loop (S n) s.

(** [Merge::next]: every turn takes a head, so a turn per item is enough. *)
Fixpoint merge_loop (fuel : nat) (m : Merge) : WM (option ((bytes * bytes) + Error) * Merge) :=
  match fuel with
  | O => lift Panic
  | S fuel =>
      match next_source m with
      | None => mret (None, m)
      | Some i =>
          p ← lift (index (mg_sources m) i);
          '(item, p) ← peeking_advance p;
          let with_source q done :=
            mkMerge (<[N.to_nat i := q]> (mg_sources m)) (mg_seq_bound m) (mg_end m) done in
          match item with
          | None => mret (None, with_source p (mg_done m))
          | Some (inr e) => mret (Some (inr e), with_source p (mg_done m))
          | Some (inl record) =>
              if negb (below_end (mg_end m) (r_key record)) then
                s ← drain (pk_iter p);
                merge_loop fuel (with_source (mkPeek s None) (mg_done m))
              else if bool_decide (mg_done m = Some (r_key record)) then
                merge_loop fuel (with_source p (mg_done m))
              else if mg_seq_bound m <=? r_seq record then
                merge_loop fuel (with_source p (mg_done m))
              else
                let m := with_source p (Some (r_key record)) in
                match r_value record with
                | Some value => mret (Some (inl (r_key record, value)), m)
                | None => merge_loop fuel m
                end
          end
      end
  end.

Definition merge_bound (w : World) (m : Merge) : nat :=
  sum_list_with (fun p => S (source_bound w (pk_iter p))) (mg_sources m).

Definition merge_next (m : Merge) : WM (option ((bytes * bytes) + Error) * Merge) :=
  n ← gets (fun w => merge_bound w m);
  merge_loop (S n) m.

(** [for item in Merge::new(..) { merged.push(item?); if merged.len() == limit { break } }]. *)
Fixpoint collect_loop (fuel : nat) (m : Merge) (merged : list (bytes * bytes)) (limit : N)
    : WM (list (bytes * bytes)) :=
  match fuel with
  | O => lift Panic
  | S fuel =>
      '(item, m) ← merge_next m;
      match item with
      | None => mret merged
      | Some (inr e) => fail e
      | Some (inl kv) =>
          let merged := merged ++ [kv] in
          if len merged =? limit then mret merged else collect_loop fuel m merged limit
      end
  end.

Definition collect (m : Merge) (limit : N) : WM (list (bytes * bytes)) :=
  n ← gets (fun w => merge_bound w m);
  collect_loop (S n) m [] limit.
End merge.
