(* ===== verification/Compaction.v ===== *)
(** * Compaction (src/src/compaction.rs)

    The k-way merge of whole tables, the retention of versions that a snapshot
    may read and the removal of tombstones that shadow nothing. *)
From Stdlib Require Import NArith Lia.
From stdpp Require Import base numbers list sorting strings gmap.
From S2P Require Import Prelude Errors Platform State FileSystem Records Versions SsTables.

Local Open Scope N_scope.

(** [struct MergeItem]. *)
Record MergeItem := mkItem { mi_record : Rec; mi_input_idx : N }.

(** [Ord for MergeItem]. *)
Definition item_cmp (a b : MergeItem) : comparison :=
  match key_cmp (r_key (mi_record a)) (r_key (mi_record b)) with
  | Eq => mi_input_idx a ?= mi_input_idx b
  | c => c
  end.

(** [BinaryHeap::pop] of a heap of [Reverse] items: a least item, and the rest. *)
Fixpoint pop_min (heap : list MergeItem) : option (MergeItem * list MergeItem) :=
  match heap with
  | [] => None
  | x :: heap =>
      match pop_min heap with
      | None => Some (x, [])
      | Some (y, rest) =>
          match item_cmp y x with
          | Lt => Some (y, x :: rest)
          | _ => Some (x, y :: rest)
          end
      end
  end.

(** The first loop of [compact]: one item per input in the heap. *)
Fixpoint fill_heap (idx : N) (iters : list (list Rec)) : list MergeItem * list (list Rec) :=
  match iters with
  | [] => ([], [])
  | it :: iters =>
      let '(heap, rest) := fill_heap (idx + 1) iters in
      match it with
      | [] => (heap, [] :: rest)
      | record :: it => (mkItem record idx :: heap, it :: rest)
      end
  end.

(** The second loop: drain the heap into a stream. *)
Fixpoint drain_heap (fuel : nat) (heap : list MergeItem) (iters : list (list Rec))
    (stream : list Rec) : outcome (list Rec) :=
  match pop_min heap with
  | None => Ok stream
  | Some (item, heap) =>
      match fuel with
      | O => Panic
      | S fuel =>
          it ← index iters (mi_input_idx item);
          let '(heap, iters) :=
            match it with
            | [] => (heap, iters)
            | next :: it =>
                (mkItem next (mi_input_idx item) :: heap,
                 <[N.to_nat (mi_input_idx item) := it]> iters)
            end in
          drain_heap fuel heap iters (stream ++ [mi_record item])
      end
  end.

Definition merge_stream (inputs : list (list Rec)) : outcome (list Rec) :=
  let '(heap, iters) := fill_heap 0 inputs in
  drain_heap (S (sum_list_with length inputs)) heap iters [].

(** [group.sort_by_key(|r| Reverse(r.seq))], a stable sort. *)
Fixpoint seq_insert (r : Rec) (l : list Rec) : list Rec :=
  match l with
  | [] => [r]
  | x :: l' => if r_seq r <? r_seq x then x :: seq_insert r l' else r :: l
  end.
Definition sort_seq_desc (l : list Rec) : list Rec := foldr seq_insert [] l.

(** The retention loop over one key's versions. *)
Fixpoint retain (min_snapshot_seq : N) (group : list Rec) (taken : bool) : list Rec :=
  match group with
  | [] => []
  | rec :: group =>
      if min_snapshot_seq <=? r_seq rec then rec :: retain min_snapshot_seq group taken
      else if negb taken then rec :: retain min_snapshot_seq group true
      else retain min_snapshot_seq group taken
  end.

(** [while kept.last().is_some_and(|r| r.value.is_none()) { kept.pop(); }]. *)
Definition is_tombstone (r : Rec) : bool := match r_value r with None => true | Some _ => false end.
Fixpoint peel_tombstones (kept : list Rec) : list Rec :=
  match kept with
  | [] => []
  | r :: kept =>
      match peel_tombstones kept with
      | [] => if is_tombstone r then [] else [r]
      | kept => r :: kept
      end
  end.

(** [j]: how many records from the front have the key. *)
Fixpoint run_length (key : bytes) (l : list Rec) : nat :=
  match l with
  | [] => 0
  | r :: l => if bool_decide (r_key r = key) then S (run_length key l) else 0
  end.

(** The body of the group loop for one key's versions. *)
Definition compact_group (drop_tombstones : bool) (min_snapshot_seq : N) (group : list Rec)
    : list Rec :=
  let kept := retain min_snapshot_seq (sort_seq_desc group) false in
  if drop_tombstones then peel_tombstones kept else kept.

(** The third loop: a group per key; every turn takes at least one record. *)
Fixpoint compact_groups (fuel : nat) (drop_tombstones : bool) (min_snapshot_seq : N)
    (stream out : list Rec) : outcome (list Rec) :=
  match stream with
  | [] => Ok out
  | r :: rest =>
      match fuel with
      | O => Panic
      | S fuel =>
          let j := S (run_length (r_key r) rest) in
          compact_groups fuel drop_tombstones min_snapshot_seq (drop j stream)
            (out ++ compact_group drop_tombstones min_snapshot_seq (take j stream))
      end
  end.

(** The records [compact] writes for the given inputs, oldest input first. *)
Definition compact_records (inputs : list (list Rec)) (drop_tombstones : bool)
    (min_snapshot_seq : N) : outcome (list Rec) :=
  stream ← merge_stream inputs;
  compact_groups (length stream) drop_tombstones min_snapshot_seq stream [].

(** [compact]. *)
Definition compact `{Platform} (out_path : Path) (inputs : list SsTableReader)
    (drop_tombstones : bool) (min_snapshot_seq : N) : WM N :=
  runs ← map_each inputs iter_all;
  out ← lift (compact_records runs drop_tombstones min_snapshot_seq);
  on_files (sst_write out_path out).

(** ** The merge *)

Definition key_ordered (l : list Rec) : Prop :=
  StronglySorted (fun a b => key_le (r_key a) (r_key b)) l.

Lemma run_sorted_key_ordered l : run_sorted l -> key_ordered l.
Proof.
  unfold run_sorted, key_ordered. induction 1 as [|x l _ IH Hf]; constructor; [done|].
  eapply Forall_impl; [exact Hf|]. intros y [Hlt|[E _]]; [by right|by left].
Qed.

Lemma key_ordered_cons x l :
  key_ordered (x :: l) <-> (forall y, y ∈ l -> key_le (r_key x) (r_key y)) /\ key_ordered l.
Proof. unfold key_ordered. by rewrite StronglySorted_cons, Forall_forall. Qed.

Lemma item_cmp_le a b : item_cmp a b <> Gt -> key_le (r_key (mi_record a)) (r_key (mi_record b)).
Proof.
  unfold item_cmp. destruct (key_cmp (r_key (mi_record a)) (r_key (mi_record b))) eqn:E;
    [apply key_cmp_eq in E; by left|by right|done].
Qed.

Lemma item_cmp_ge a b : item_cmp a b <> Lt -> key_le (r_key (mi_record b)) (r_key (mi_record a)).
Proof.
  unfold item_cmp. destruct (key_cmp (r_key (mi_record a)) (r_key (mi_record b))) eqn:E;
    [apply key_cmp_eq in E; by left|done|right; by apply key_cmp_gt].
Qed.

(** A least item is taken and the others stay. *)
Lemma pop_min_spec heap :
  match pop_min heap with
  | None => heap = []
  | Some (x, rest) => heap ≡ₚ x :: rest /\
      forall y, y ∈ rest -> key_le (r_key (mi_record x)) (r_key (mi_record y))
  end.
Proof.
  induction heap as [|x heap IH]; cbn [pop_min]; [done|].
  destruct (pop_min heap) as [[y rest]|].
  2: { subst heap. split; [done|]. intros y Hy. by apply elem_of_nil in Hy. }
  destruct IH as [Hp Hmin].
  assert (item_cmp y x <> Lt -> x :: heap ≡ₚ x :: y :: rest /\
    forall z, z ∈ y :: rest -> key_le (r_key (mi_record x)) (r_key (mi_record z))) as Hge.
  { intros E%item_cmp_ge. split; [by rewrite Hp|]. intros z [->|Hz]%elem_of_cons; [done|].
    eapply key_le_trans; [done|by apply Hmin]. }
  destruct (item_cmp y x) eqn:E; [by apply Hge| |by apply Hge].
  split; [by rewrite Hp, Permutation_swap|]. intros z [->|Hz]%elem_of_cons; [|by apply Hmin].
  apply item_cmp_le. by rewrite E.
Qed.

(** The heap and the iterators behind it. *)
Record heap_ok (heap : list MergeItem) (iters : list (list Rec)) : Prop := mkHeapOk {
  ho_idx : forall x, x ∈ heap -> exists it, iters !! N.to_nat (mi_input_idx x) = Some it /\
    forall r, r ∈ it -> key_le (r_key (mi_record x)) (r_key r);
  ho_head : forall i it, iters !! i = Some it -> it <> [] ->
    exists x, x ∈ heap /\ N.to_nat (mi_input_idx x) = i;
  ho_sorted : Forall key_ordered iters
}.

Lemma fill_heap_spec idx inputs :
  Forall run_sorted inputs ->
  let '(heap, iters) := fill_heap idx inputs in
  (mi_record <$> heap) ++ concat iters ≡ₚ concat inputs /\ length iters = length inputs /\
  (forall x, x ∈ heap -> exists j it, mi_input_idx x = idx + N.of_nat j /\ iters !! j = Some it /\
    forall r, r ∈ it -> key_le (r_key (mi_record x)) (r_key r)) /\
  (forall j it, iters !! j = Some it -> it <> [] ->
    exists x, x ∈ heap /\ mi_input_idx x = idx + N.of_nat j) /\
  Forall key_ordered iters.
Proof.
  intros Hs. revert idx. induction Hs as [|run inputs Hr _ IH]; intros idx; cbn [fill_heap].
  { split_and!; [done|done|..]; [|done|constructor]. intros x Hx. by apply elem_of_nil in Hx. }
  specialize (IH (idx + 1)). destruct (fill_heap (idx + 1) inputs) as [heap iters].
  destruct IH as (Hp & Hl & Hi & Hh & Ho).
  assert (forall x, x ∈ heap -> exists j it, mi_input_idx x = idx + N.of_nat (S j) /\ iters !! j = Some it /\
    forall r, r ∈ it -> key_le (r_key (mi_record x)) (r_key r)) as Hi'.
  { intros x Hx. destruct (Hi x Hx) as (j & it & E & ?). exists j, it. split; [lia|done]. }
  destruct run as [|r run].
  - split_and!; cbn [concat app length]; [done|lia|..|constructor; [constructor|done]].
    + intros x Hx. destruct (Hi' x Hx) as (j & it & E & ?). by exists (S j), it.
    + intros [|j] it; cbn; [by intros [= <-]|]. intros Ej Hne. destruct (Hh j it Ej Hne) as (x & Hx & E).
      exists x. split; [done|lia].
  - pose proof (run_sorted_key_ordered _ Hr) as Hk. apply key_ordered_cons in Hk as [Hle Hk].
    rewrite fmap_cons. split_and!; cbn [concat app length]; [|lia|..|by constructor].
    + cbn [mi_record]. constructor. rewrite <- Hp. by rewrite (Permutation_app_swap_app _ run).
    + intros x [->|Hx]%elem_of_cons; [exists 0%nat, run; cbn [mi_input_idx mi_record]; split; [lia|done]|].
      destruct (Hi' x Hx) as (j & it & E & ?). by exists (S j), it.
    + intros [|j] it; cbn; [intros _ _; eexists; split; [by left|cbn; lia]|].
      intros Ej Hne. destruct (Hh j it Ej Hne) as (x & Hx & E). exists x. split; [by right|lia].
Qed.

(** The whole of the inputs comes out, in the order of the keys. *)
(** The least item is taken and its source gives nothing more, or its next record. *)
Lemma heap_ok_pop x rest heap iters :
  heap_ok heap iters -> heap ≡ₚ x :: rest -> iters !! N.to_nat (mi_input_idx x) = Some [] -> heap_ok rest iters.
Proof.
  intros [Hi Hh Ho] Hp Ei. split; [intros y Hy; apply Hi; rewrite Hp; by right| |done].
  intros i it' Ei' Hne. destruct (Hh i it' Ei' Hne) as (y & Hy & <-).
  rewrite Hp in Hy. apply elem_of_cons in Hy as [->|Hy]; [congruence|by exists y].
Qed.

Lemma heap_ok_push x rest heap iters next it :
  heap_ok heap iters -> heap ≡ₚ x :: rest -> iters !! N.to_nat (mi_input_idx x) = Some (next :: it) ->
  heap_ok (mkItem next (mi_input_idx x) :: rest) (<[N.to_nat (mi_input_idx x) := it]> iters).
Proof.
  intros [Hi Hh Ho] Hp Ei. set (i := N.to_nat (mi_input_idx x)) in *. set (item := mkItem next (mi_input_idx x)).
  assert (key_ordered (next :: it)) as Hk by (by eapply (Forall_lookup_1 _ _ _ _ Ho)). apply key_ordered_cons in Hk as [Hnext Hk].
  split.
  - intros y [->|Hy]%elem_of_cons.
    { exists it. cbn [item mi_input_idx mi_record]. split; [|done].
      rewrite list_lookup_insert_eq; [done|by eapply lookup_lt_Some]. }
    destruct (Hi y ltac:(rewrite Hp; by right)) as (it' & Ei' & Hit').
    destruct (decide (N.to_nat (mi_input_idx y) = i)) as [E|E].
    { rewrite E in *. rewrite Ei in Ei'. injection Ei' as <-. exists it.
      rewrite list_lookup_insert_eq by (by eapply lookup_lt_Some). split; [done|].
      intros r Hr. apply Hit'. by right. }
    exists it'. rewrite list_lookup_insert_ne by done. done.
  - intros j it' Ej Hne. destruct (decide (j = i)) as [->|E]; [exists item; split; [by left|done]|].
    rewrite list_lookup_insert_ne in Ej by done. destruct (Hh j it' Ej Hne) as (y & Hy & Ey).
    rewrite Hp in Hy. apply elem_of_cons in Hy as [->|Hy]; [by destruct E|]. exists y. split; [by right|done].
  - by apply Forall_insert.
Qed.

Lemma drain_heap_spec fuel heap iters stream :
  (length heap + length (concat iters) <= fuel)%nat -> heap_ok heap iters -> key_ordered stream ->
  (forall a x, a ∈ stream -> x ∈ heap -> key_le (r_key a) (r_key (mi_record x))) ->
  exists out, drain_heap fuel heap iters stream = Ok out /\ key_ordered out /\
    out ≡ₚ stream ++ (mi_record <$> heap) ++ concat iters.
Proof.
  revert heap iters stream. induction fuel as [|fuel IH]; intros heap iters stream Hf Hok Hs Hle;
    cbn [drain_heap]; pose proof Hok as [Hi Hh Ho]; pose proof (pop_min_spec heap) as Hpop; destruct (pop_min heap) as [[x rest]|].
  1: { destruct Hpop as [Hp _]. apply Permutation_length in Hp. simpl in Hp. lia. }
  2: destruct Hpop as [Hp Hmin].
  1, 3: exists stream; split_and!; [done|done|]; subst heap; assert (concat iters = []) as ->; [|by rewrite app_nil_r];
    apply concat_nil_Forall, Forall_lookup; intros i it Ei; destruct it as [|r it]; [done|];
    destruct (Hh i _ Ei ltac:(done)) as (x & Hx & _); by apply elem_of_nil in Hx.
  assert (x ∈ heap) as Hx by (rewrite Hp; by left).
  destruct (Hi x Hx) as (it & Ei & Hit). unfold index. rewrite Ei. obind.
  assert (key_ordered (stream ++ [mi_record x])) as Hs'.
  { unfold key_ordered in *. apply StronglySorted_app. split_and!; [|done|repeat constructor].
    intros a b Ha ->%list_elem_of_singleton. by apply Hle. }
  assert (forall a y, a ∈ stream ++ [mi_record x] -> y ∈ rest -> key_le (r_key a) (r_key (mi_record y))) as Hle'.
  { intros a y [Ha| ->%list_elem_of_singleton]%elem_of_app Hy; [|by apply Hmin].
    apply Hle; [done|]. rewrite Hp. by right. }
  assert (length heap = S (length rest)) as Hlen by (by rewrite Hp).
  destruct it as [|next it].
  - destruct (IH rest iters (stream ++ [mi_record x])) as (out & -> & Hout & Hpo); [lia|by eapply heap_ok_pop|done|done|].
    exists out. split_and!; [done|done|]. rewrite Hpo, Hp, fmap_cons. cbn [app]. by rewrite <- app_assoc.
  - set (i := N.to_nat (mi_input_idx x)) in *. set (item := mkItem next (mi_input_idx x)).
    assert (concat iters ≡ₚ next :: concat (<[i := it]> iters)) as Hcat.
    { by apply concat_insert_tail. }
    destruct (IH (item :: rest) (<[i := it]> iters) (stream ++ [mi_record x])) as (out & -> & Hout & Hpo);
      [|by eapply heap_ok_push|done| |].
    + apply Permutation_length in Hcat. simpl in *. lia.
    + intros a y Ha [->|Hy]%elem_of_cons; [|by apply Hle']. cbn [item mi_record].
      apply elem_of_app in Ha as [Ha|Ha%list_elem_of_singleton].
      * eapply key_le_trans; [by apply (Hle a x)|]. apply Hit. by left.
      * subst a. apply Hit. by left.
    + exists out. split_and!; [done|done|]. rewrite Hpo, Hp, Hcat, !fmap_cons. cbn [app mi_record item].
      rewrite <- app_assoc. cbn [app]. do 2 f_equiv. by rewrite <- Permutation_middle.
Qed.

Lemma merge_stream_spec inputs :
  Forall run_sorted inputs ->
  exists out, merge_stream inputs = Ok out /\ key_ordered out /\ out ≡ₚ concat inputs.
Proof.
  intros Hs. unfold merge_stream. pose proof (fill_heap_spec 0 inputs Hs) as Hfill.
  destruct (fill_heap 0 inputs) as [heap iters]. destruct Hfill as (Hp & Hl & Hi & Hh & Ho).
  destruct (drain_heap_spec (S (sum_list_with length inputs)) heap iters []) as (out & -> & Hk & Hpo).
  - apply Permutation_length in Hp. rewrite length_app, length_fmap in Hp. rewrite <- length_concat_sum.
    lia.
  - split; [|..|done].
    + intros x Hx. destruct (Hi x Hx) as (j & it & -> & Ej & Hle). exists it.
      by replace (N.to_nat (0 + N.of_nat j)) with j by lia.
    + intros i it Ei Hne. destruct (Hh i it Ei Hne) as (x & Hx & E). exists x. split; [done|lia].
  - constructor.
  - intros a x Ha. by apply elem_of_nil in Ha.
  - exists out. split_and!; [done|done|]. by rewrite Hpo, <- Hp.
Qed.

(** ** One key's versions *)

Lemma seq_insert_perm r l : seq_insert r l ≡ₚ r :: l.
Proof.
  induction l as [|x l IH]; cbn [seq_insert]; [done|]. case_match; [|done].
  by rewrite IH, Permutation_swap.
Qed.

Lemma sort_seq_desc_perm l : sort_seq_desc l ≡ₚ l.
Proof. induction l as [|x l IH]; cbn; [done|]. by rewrite seq_insert_perm, IH. Qed.

Lemma seq_insert_sorted r l :
  run_sorted l -> (forall x, x ∈ l -> r_key x = r_key r /\ r_seq x <> r_seq r) ->
  run_sorted (seq_insert r l).
Proof.
  induction l as [|x l IH]; intros Hs Hk; cbn [seq_insert].
  { apply run_sorted_cons. split; [constructor|]. intros b Hb. by apply elem_of_nil in Hb. }
  pose proof Hs as Hs0. apply run_sorted_cons in Hs as [Hs Hb].
  destruct (Hk x ltac:(by left)) as [Ek Hne].
  destruct (N.ltb_spec (r_seq r) (r_seq x)); apply run_sorted_cons.
  - split; [apply IH; [done|]; intros; apply Hk; by right|].
    intros y. rewrite seq_insert_perm, elem_of_cons. intros [->|Hy]; [by right|by apply Hb].
  - split; [done|]. assert (before r x) as Hrx by (right; split; [done|lia]).
    intros y [->|Hy]%elem_of_cons; [done|]. eapply before_trans; [done|by apply Hb].
Qed.

(** The versions of one key, each once. *)
Definition one_key (key : bytes) (g : list Rec) : Prop :=
  Forall (fun r => r_key r = key) g /\ NoDup (r_seq <$> g).

Lemma sort_seq_desc_sorted key g : one_key key g -> run_sorted (sort_seq_desc g).
Proof.
  intros [Hk Hn]. induction g as [|x g IH]; [constructor|]. cbn.
  apply Forall_cons in Hk as [Ek Hk]. rewrite fmap_cons in Hn. apply NoDup_cons in Hn as [Hx Hn].
  apply seq_insert_sorted; [by apply IH|]. intros y. change (foldr seq_insert [] g) with (sort_seq_desc g).
  rewrite sort_seq_desc_perm. intros Hy. rewrite Forall_forall in Hk. split; [by rewrite Ek, Hk|].
  intros E. apply Hx. rewrite <- E. by apply list_elem_of_fmap_2.
Qed.

Lemma retain_elem m g taken r : r ∈ retain m g taken -> r ∈ g.
Proof.
  revert taken. induction g as [|x g IH]; intros taken; cbn [retain]; [done|].
  repeat case_match; rewrite ?elem_of_cons; naive_solver.
Qed.

Lemma retain_sorted m g taken : run_sorted g -> run_sorted (retain m g taken).
Proof.
  revert taken. induction g as [|x g IH]; intros taken Hs; cbn [retain]; [done|].
  apply run_sorted_cons in Hs as [Hs Hb].
  repeat case_match; try (apply run_sorted_cons; split; [by apply IH|]; intros b ?%retain_elem; by apply Hb).
  by apply IH.
Qed.

(** Nobody who reads at [m] or above can tell what was dropped. *)
Lemma retain_newest m key bound g :
  m <= bound -> run_sorted g -> Forall (fun r => r_key r = key) g ->
  newest key bound (retain m g false) = newest key bound g.
Proof.
  intros Hm Hs Hk. rewrite !newest_sorted by (done || by apply retain_sorted).
  induction g as [|x g IH]; [done|]. apply run_sorted_cons in Hs as [Hs _].
  apply Forall_cons in Hk as [Ex Hk]. specialize (IH Hs Hk). cbn [retain].
  destruct (N.leb_spec m (r_seq x)).
  - rewrite !filter_cons. case_decide; [done|apply IH].
  - cbn [negb]. rewrite !filter_cons.
    rewrite !decide_True by (apply visible_spec; split; [done|lia]). done.
Qed.

(** At most one version below [m] is kept. *)
Lemma retain_taken m g : Forall (fun r => m <= r_seq r) (retain m g true).
Proof.
  induction g as [|x g IH]; cbn [retain negb]; [constructor|].
  destruct (N.leb_spec m (r_seq x)); [by constructor|done].
Qed.

Lemma retain_old m g a b :
  run_sorted g -> a ∈ retain m g false -> b ∈ retain m g false -> r_seq a < m -> r_seq b < m -> a = b.
Proof.
  induction g as [|x g IH]; intros Hs; cbn [retain]; [intros Ha; by apply elem_of_nil in Ha|].
  apply run_sorted_cons in Hs as [Hs _]. destruct (N.leb_spec m (r_seq x)).
  - intros [->|Ha]%elem_of_cons [->|Hb]%elem_of_cons ??; [done|lia|lia|by apply IH].
  - cbn [negb]. pose proof (retain_taken m g) as Ht. rewrite Forall_forall in Ht.
    intros [->|Ha]%elem_of_cons [->|Hb]%elem_of_cons ??; [done| | |];
      [specialize (Ht b Hb)|specialize (Ht a Ha)|specialize (Ht a Ha)]; lia.
Qed.

(** Peeling removes tombstones from the old end only. *)
Lemma peel_tombstones_spec kept :
  exists tail, kept = peel_tombstones kept ++ tail /\ Forall (fun r => r_value r = None) tail /\
    (forall r, last (peel_tombstones kept) = Some r -> r_value r <> None).
Proof.
  induction kept as [|x kept (tail & E & Ht & Hl)]; [by exists []|]. cbn [peel_tombstones].
  destruct (peel_tombstones kept) as [|y p] eqn:Ep.
  - cbn [app] in E. subst kept. unfold is_tombstone. destruct (r_value x) eqn:Ev.
    + exists tail. split_and!; [done|done|]. intros r [= <-]. congruence.
    + exists (x :: tail). split_and!; [done|by constructor|done].
  - exists tail. split_and!; [by rewrite E at 1|done|]. intros r Hr. apply Hl. done.
Qed.

Lemma peel_lookup key bound kept :
  run_sorted kept -> lookup_at key bound (peel_tombstones kept) = lookup_at key bound kept.
Proof.
  intros Hs. destruct (peel_tombstones_spec kept) as (tail & E & Ht & _).
  revert Hs. rewrite E at 1 3. intros Hs. pose proof Hs as (Hs1 & Hs2 & _)%run_sorted_app.
  unfold lookup_at. rewrite !newest_sorted by done. rewrite filter_app.
  destruct (filter _ (peel_tombstones kept)) as [|x l]; [|done]. cbn [app head mbind option_bind].
  destruct (filter (fun r => visible key bound r = true) tail) as [|y l] eqn:Ef; [done|].
  cbn [head mbind option_bind]. symmetry.
  assert (y ∈ tail) as Hy by (apply (list_elem_of_filter (fun r => visible key bound r = true)); rewrite Ef; by left).
  rewrite Forall_forall in Ht. by apply Ht.
Qed.

(** ** All keys *)

(** What [compact] promises of its output [res] for the versions [l]. *)
Record compacted (drop : bool) (m : N) (l res : list Rec) : Prop := mkCompacted {
  co_sorted : run_sorted res;
  co_elem : forall r, r ∈ res -> r ∈ l;
  co_newest : drop = false -> forall key bound, m <= bound -> newest key bound res = newest key bound l;
  co_some : forall key bound r, m <= bound -> newest key bound res = Some r -> newest key bound l = Some r;
  co_lookup : forall key bound, m <= bound -> lookup_at key bound res = lookup_at key bound l;
  co_old : forall a b, a ∈ res -> b ∈ res -> r_key a = r_key b -> r_seq a < m -> r_seq b < m -> a = b;
  co_tombs : drop = true -> forall a, a ∈ res -> r_value a = None ->
    exists b, b ∈ res /\ r_key b = r_key a /\ r_seq b < r_seq a
}.

Lemma compacted_perm drop m l l' res :
  NoDup (version <$> l) -> l ≡ₚ l' -> compacted drop m l res -> compacted drop m l' res.
Proof.
  intros Hn Hp [H1 H2 H3 Hs H4 H5 H6]. split; try done.
  - intros r Hr. rewrite <- Hp. by apply H2.
  - intros Hd key bound Hb. rewrite <- (newest_perm _ _ _ _ Hn Hp). by apply H3.
  - intros key bound r Hb. rewrite <- (newest_perm _ _ _ _ Hn Hp). by apply Hs.
  - intros key bound Hb. unfold lookup_at at 2. rewrite <- (newest_perm _ _ _ _ Hn Hp). by apply H4.
Qed.

Lemma compact_group_spec drop m key g :
  one_key key g -> compacted drop m g (compact_group drop m g).
Proof.
  intros Hg. set (s := sort_seq_desc g). assert (s ≡ₚ g) as Hp by apply sort_seq_desc_perm.
  assert (NoDup (version <$> s)) as Hn.
  { destruct Hg as [_ Hg]. rewrite Hp. apply (NoDup_fmap_1 snd). rewrite <- list_fmap_compose. exact Hg. }
  assert (run_sorted s) as Hs by by eapply sort_seq_desc_sorted.
  assert (Forall (fun r => r_key r = key) s) as Hk by (rewrite Hp; apply Hg).
  apply (compacted_perm drop m s g _ Hn Hp). unfold compact_group. fold s.
  set (kept := retain m s false).
  assert (run_sorted kept) as Hks by by apply retain_sorted.
  assert (forall r, r ∈ kept -> r ∈ s) as Hkel by (intros r; apply retain_elem).
  assert (forall k bound, m <= bound -> newest k bound kept = newest k bound s) as Hkn.
  { intros k bound Hb. destruct (decide (k = key)) as [->|Hne]; [by apply retain_newest|].
    assert (forall r, r ∈ s -> visible k bound r = false) as Hv.
    { intros r Hr. rewrite Forall_forall in Hk. destruct (visible k bound r) eqn:E; [|done].
      apply visible_spec in E as [E _]. rewrite (Hk r Hr) in E. by destruct Hne. }
    rewrite (proj2 (newest_none k bound s) Hv). apply newest_none. intros r Hr. by apply Hv, Hkel. }
  assert (forall a b, a ∈ kept -> b ∈ kept -> r_key a = r_key b -> r_seq a < m -> r_seq b < m -> a = b) as Hold.
  { intros a b Ha Hb _. by apply (retain_old m s a b). }
  destruct drop; [|by split; try done; [intros k bound r Hb|intros k bound Hb; unfold lookup_at]; rewrite Hkn].
  destruct (peel_tombstones_spec kept) as (tail & E & _ & Hlast).
  assert (forall r, r ∈ peel_tombstones kept -> r ∈ kept) as Hpel by (intros r Hr; rewrite E; set_solver).
  assert (run_sorted (peel_tombstones kept)) as Hps.
  { rewrite E in Hks. by apply run_sorted_app in Hks as (? & _). }
  split; [done|by auto|done|..].
  - intros k bound r Hb Hr. rewrite <- Hkn by done. revert Hr.
    rewrite !newest_sorted by done. rewrite E at 2. rewrite filter_app.
    by destruct (filter _ (peel_tombstones kept)).
  - intros k bound Hb. rewrite peel_lookup by done. unfold lookup_at. by rewrite Hkn.
  - by auto.
  - intros _ a Ha Hv. destruct (last (peel_tombstones kept)) as [b|] eqn:El.
    2: { apply last_None in El. rewrite El in Ha. by apply elem_of_nil in Ha. }
    specialize (Hlast b eq_refl). apply last_Some in El as [p El].
    assert (b ∈ peel_tombstones kept) as Hb by (rewrite El; set_solver). exists b. split; [done|].
    rewrite Forall_forall in Hk. rewrite (Hk b), (Hk a) by auto. split; [done|].
    rewrite El in Ha, Hps. apply run_sorted_app in Hps as (_ & _ & Hb'').
    apply elem_of_app in Ha as [Ha|Ha%list_elem_of_singleton]; [|congruence].
    destruct (Hb'' a b Ha ltac:(by left)) as [Hlt|[_ ?]]; [|done].
    rewrite (Hk a), (Hk b) in Hlt; [by apply key_lt_irrefl in Hlt|..].
    + by auto.
    + apply Hkel, Hpel. rewrite El. set_solver.
Qed.

(** Outputs for keys apart can be put one after the other. *)
Lemma compacted_app drop m l1 l2 r1 r2 :
  (forall a b, a ∈ l1 -> b ∈ l2 -> key_lt (r_key a) (r_key b)) ->
  compacted drop m l1 r1 -> compacted drop m l2 r2 -> compacted drop m (l1 ++ l2) (r1 ++ r2).
Proof.
  intros Hlt [S1 E1 N1 B1 L1 O1 T1] [S2 E2 N2 B2 L2 O2 T2].
  assert (forall a b, a ∈ l1 -> b ∈ l2 -> r_key a <> r_key b) as Hne.
  { intros a b Ha Hb E. specialize (Hlt a b Ha Hb). rewrite E in Hlt. by apply key_lt_irrefl in Hlt. }
  assert (forall key, (forall r, r ∈ l2 -> r_key r <> key) \/ (forall r, r ∈ l1 -> r_key r <> key)) as Hside.
  { intros key. destruct (decide (Exists (fun r => r_key r = key) l1)) as [Hx|Hx].
    - apply Exists_exists in Hx as (a & Ha & <-). left. intros r Hr E. by apply (Hne a r).
    - right. intros r Hr E. apply Hx, Exists_exists. eauto. }
  assert (forall key bound, newest key bound (r1 ++ r2) = newest key bound r1 /\
      newest key bound (l1 ++ l2) = newest key bound l1 \/
    newest key bound (r1 ++ r2) = newest key bound r2 /\
      newest key bound (l1 ++ l2) = newest key bound l2) as Hcase.
  { intros key bound. destruct (Hside key) as [Hs|Hs]; [left|right].
    - by rewrite !newest_app_l by auto.
    - by rewrite !newest_app_r by auto. }
  split.
  - apply run_sorted_app. split_and!; [done|done|]. intros a b Ha Hb. left. auto.
  - intros r. rewrite !elem_of_app. naive_solver.
  - intros Hd key bound Hb. destruct (Hcase key bound) as [[-> ->]|[-> ->]]; auto.
  - intros key bound r Hb. destruct (Hcase key bound) as [[-> ->]|[-> ->]]; auto.
  - intros key bound Hb. unfold lookup_at. destruct (Hcase key bound) as [[-> ->]|[-> ->]]; [by apply L1|by apply L2].
  - intros a b [Ha|Ha]%elem_of_app [Hb|Hb]%elem_of_app Ek; [by apply O1| | |by apply O2]; exfalso.
    + by apply (Hne a b); auto.
    + by apply (Hne b a); auto.
  - intros Hd a [Ha|Ha]%elem_of_app Hv; [destruct (T1 Hd a Ha Hv) as (b & Hb & ?)|destruct (T2 Hd a Ha Hv) as (b & Hb & ?)];
      exists b; rewrite elem_of_app; auto.
Qed.

(** The run of one key at the front. *)
Lemma run_length_spec key l :
  key_ordered l -> (forall r, r ∈ l -> key_le key (r_key r)) ->
  Forall (fun r => r_key r = key) (take (run_length key l) l) /\
  (forall r, r ∈ drop (run_length key l) l -> key_lt key (r_key r)).
Proof.
  induction l as [|x l IH]; intros Hk Hle; cbn [run_length].
  { split; [constructor|]. intros r Hr. by apply elem_of_nil in Hr. }
  apply key_ordered_cons in Hk as [Hx Hk]. case_bool_decide as E; cbn [take drop].
  - destruct IH as [H1 H2]; [done|by intros; apply Hle; right|]. split; [by constructor|done].
  - split; [constructor|]. assert (key_lt key (r_key x)) as Hlt.
    { destruct (Hle x ltac:(by left)) as [->|?]; done. }
    intros r [->|Hr]%elem_of_cons; [done|]. eapply key_lt_le_trans; [done|by apply Hx].
Qed.

Lemma compact_groups_spec fuel drop_t m stream out :
  (length stream <= fuel)%nat -> key_ordered stream -> NoDup (version <$> stream) ->
  exists res, compact_groups fuel drop_t m stream out = Ok (out ++ res) /\ compacted drop_t m stream res.
Proof.
  revert stream out. induction fuel as [|fuel IH]; intros [|r rest] out Hf Hk Hn; cbn [compact_groups];
    try (exists []; rewrite app_nil_r; split; [done|];
      split; try done; [constructor|intros a b Ha; by apply elem_of_nil in Ha|intros _ a Ha; by apply elem_of_nil in Ha]).
  { simpl in Hf. lia. }
  apply key_ordered_cons in Hk as [Hx Hk]. set (j := run_length (r_key r) rest).
  destruct (run_length_spec (r_key r) rest Hk Hx) as [Htake Hdrop]. fold j in Htake, Hdrop.
  cbn [drop take]. set (g := r :: take j rest).
  assert (r :: rest = g ++ drop j rest) as Esplit by (unfold g; cbn [app]; by rewrite take_drop).
  rewrite Esplit, fmap_app in Hn. apply NoDup_app in Hn as (Hn1 & _ & Hn2).
  assert (Forall (fun x => r_key x = r_key r) g) as Hg by (by constructor).
  assert (one_key (r_key r) g) as Hone.
  { split; [done|]. clear -Hn1 Hg. induction Hg as [|x l Ex Hl IHl]; [constructor|].
    rewrite fmap_cons in *. apply NoDup_cons in Hn1 as [Hx Hn]. apply NoDup_cons. split; [|by apply IHl].
    intros Hin. apply Hx. apply list_elem_of_fmap in Hin as (y & E & Hy). apply list_elem_of_fmap.
    exists y. split; [|done]. rewrite Forall_forall in Hl. unfold version. rewrite Ex, (Hl y Hy), E. done. }
  destruct (IH (drop j rest) (out ++ compact_group drop_t m g)) as (res & -> & Hres).
  - rewrite length_drop. simpl in Hf. lia.
  - unfold key_ordered in *. rewrite <- (take_drop j rest) in Hk. by apply StronglySorted_app_1_r in Hk.
  - done.
  - exists (compact_group drop_t m g ++ res). rewrite <- app_assoc. split; [done|].
    rewrite Esplit. apply compacted_app; [|by eapply compact_group_spec|done].
    intros a b Ha Hb. rewrite Forall_forall in Hg. rewrite (Hg a Ha). by apply Hdrop.
Qed.

Lemma compact_records_spec inputs drop_t m :
  Forall run_sorted inputs -> NoDup (version <$> concat inputs) ->
  exists res, compact_records inputs drop_t m = Ok res /\ compacted drop_t m (concat inputs) res.
Proof.
  intros Hs Hn. unfold compact_records. destruct (merge_stream_spec inputs Hs) as (st & -> & Hk & Hp). obind.
  rewrite <- Hp in Hn. destruct (compact_groups_spec (length st) drop_t m st []) as (res & -> & Hr); [done..|].
  exists res. split; [done|]. by eapply compacted_perm.
Qed.

(** ** Properties *)

(** C22: compaction of sorted tables never panics and its output is a sorted
    run of versions of the inputs.  Every reader whose bound is not below
    [min_snapshot_seq] (every live snapshot and the latest state) reads the same
    value of every key before and after; if tombstones are kept it even finds the
    same record, so what lies below the compacted tables stays shadowed. *)
Theorem compaction_preserves_reads (inputs : list (list Rec)) (drop_tombstones : bool)
    (min_snapshot_seq : N) :
  Forall run_sorted inputs -> NoDup (version <$> concat inputs) ->
  exists out, compact_records inputs drop_tombstones min_snapshot_seq = Ok out /\
    run_sorted out /\ (forall r, r ∈ out -> r ∈ concat inputs) /\
    forall key bound, min_snapshot_seq <= bound ->
      lookup_at key bound out = lookup_at key bound (concat inputs) /\
      (drop_tombstones = false -> newest key bound out = newest key bound (concat inputs)).
Proof.
  intros Hs Hn. destruct (compact_records_spec inputs drop_tombstones min_snapshot_seq Hs Hn) as (out & E & []).
  exists out. split_and!; try done. intros key bound Hb. split; [by apply co_lookup0|].
  intros Hd. by apply co_newest0.
Qed.

(** C23: compaction into the oldest table, when no snapshot is live, reclaims
    all the space it can: one record remains per key, the newest version, and
    none for a key whose newest version is a tombstone. *)
Theorem compaction_reclaims (inputs : list (list Rec)) (min_snapshot_seq : N) :
  Forall run_sorted inputs -> NoDup (version <$> concat inputs) ->
  Forall (fun r => r_seq r < min_snapshot_seq) (concat inputs) ->
  exists out, compact_records inputs true min_snapshot_seq = Ok out /\
    NoDup (r_key <$> out) /\
    forall r, r ∈ out <-> newest (r_key r) min_snapshot_seq (concat inputs) = Some r /\ r_value r <> None.
Proof.
  intros Hs Hn Hm. rewrite Forall_forall in Hm. set (m := min_snapshot_seq) in *.
  destruct (compact_records_spec inputs true m Hs Hn) as (out & E & [Ho He _ Hsome Hl Hold Ht]).
  assert (forall a b, a ∈ out -> b ∈ out -> r_key a = r_key b -> a = b) as Hone.
  { intros a b Ha Hb Ek. apply Hold; auto. }
  assert (forall r, r ∈ out -> r_value r <> None) as Hval.
  { intros r Hr Hv. destruct (Ht eq_refl r Hr Hv) as (b & Hb & Ek & Hlt).
    rewrite (Hone b r Hb Hr Ek) in Hlt. lia. }
  assert (forall r, r ∈ out -> newest (r_key r) m out = Some r) as Hnew.
  { intros r Hr. apply newest_intro; [by apply run_sorted_unique|done|apply visible_spec; split; [done|by auto]|].
    intros r' Hr' [Ek _]%visible_spec. by rewrite (Hone r' r Hr' Hr Ek). }
  exists out. split_and!; [done|..].
  - clear -Ho Hone. induction out as [|x out IH]; [constructor|]. rewrite fmap_cons. apply NoDup_cons.
    apply run_sorted_cons in Ho as [Ho Hb]. split; [|apply IH; [done|]; intros; apply Hone; by try right].
    intros (y & Ey & Hy)%list_elem_of_fmap. specialize (Hb y Hy).
    rewrite (Hone x y) in Hb; [by apply before_irrefl in Hb|by left|by right|done].
  - intros r. specialize (Hl (r_key r) m ltac:(done)). unfold lookup_at in Hl.
    split; [intros Hr; split; [apply Hsome; [done|]|]; by auto|].
    intros [Hr Hv]. rewrite Hr in Hl. cbn [mbind option_bind] in Hl.
    destruct (newest (r_key r) m out) as [x|] eqn:Ex; cbn [mbind option_bind] in Hl; [|congruence].
    pose proof (Hsome _ _ x ltac:(done) Ex) as Hx. rewrite Hr in Hx. injection Hx as ->.
    by apply newest_some in Ex as (? & _).
Qed.

Definition sample_inputs : list (list Rec) :=
  [[mkRec (bytes_of_string "a") (Some (bytes_of_string "1")) 1; mkRec (bytes_of_string "b") (Some []) 2];
   [mkRec (bytes_of_string "a") None 4; mkRec (bytes_of_string "c") (Some []) 3];
   [mkRec (bytes_of_string "b") (Some (bytes_of_string "2")) 6]].

Lemma sample_inputs_ok :
  Forall run_sorted sample_inputs /\ NoDup (version <$> concat sample_inputs).
Proof.
  split; [repeat (constructor; [apply (bool_decide_unpack _); vm_compute; done|]); constructor|].
  apply (bool_decide_unpack _). vm_compute. done.
Qed.

Lemma compaction_preserves_reads_witness :
  exists out, compact_records sample_inputs true 5 = Ok out /\
    run_sorted out /\ (forall r, r ∈ out -> r ∈ concat sample_inputs) /\
    forall key bound, 5 <= bound ->
      lookup_at key bound out = lookup_at key bound (concat sample_inputs) /\
      (true = false -> newest key bound out = newest key bound (concat sample_inputs)).
Proof.
  apply (compaction_preserves_reads sample_inputs true 5); apply sample_inputs_ok.
Defined.

Lemma compaction_reclaims_witness :
  exists out, compact_records sample_inputs true 7 = Ok out /\
    NoDup (r_key <$> out) /\
    forall r, r ∈ out <-> newest (r_key r) 7 (concat sample_inputs) = Some r /\ r_value r <> None.
Proof.
  apply (compaction_reclaims sample_inputs 7); [apply sample_inputs_ok..|].
  apply (bool_decide_unpack _). vm_compute. done.
Defined.
