(* ===== verification/Scans.v ===== *)
(** * Range scans, end to end

    The merge of [src/src/scan.rs] over the sources of a scan yields the live
    keys of the range in order, each once, with the value the newest visible
    version has; its loops end. *)
From Stdlib Require Import NArith Lia.
From stdpp Require Import base numbers list sorting strings gmap.
From S2P Require Import Prelude Errors FileNames Platform State FileSystem Store Records Versions.
From S2P Require Import Bloom SsTables TableLayout TableReads Tables Merging Compaction.

Local Open Scope N_scope.

(** ** What a scan of versions is *)

Definition after (done : option bytes) (key : bytes) : Prop :=
  match done with Some d => key_lt d key | None => True end.

(** [out] lists the keys beyond [done] and below [fin] that have a value at
    [bound], in order. *)
Definition is_scan (bound : N) (fin done : option bytes) (l : list Rec)
    (out : list (bytes * bytes)) : Prop :=
  StronglySorted key_lt out.*1 /\
  forall k v, (k, v) ∈ out <-> after done k /\ below_end fin k = true /\ lookup_at k bound l = Some v.

(** Look up every one of the keys that is in the range, in order. *)
Definition read_keys (f : bytes -> option bytes) (start fin : option bytes) (keys : list bytes)
    : list (bytes * bytes) :=
  omap (fun k => pair k <$> f k) (filter (fun k => in_range start fin k = true) (merge_sort key_le keys)).

(** The reference: look every key up. *)
Definition scan_ref (bound : N) (start fin : option bytes) (l : list Rec) : list (bytes * bytes) :=
  read_keys (fun k => lookup_at k bound l) start fin (remove_dups (r_key <$> l)).

Lemma key_lt_sorted_unique (l1 l2 : list bytes) :
  StronglySorted key_lt l1 -> StronglySorted key_lt l2 -> (forall k, k ∈ l1 <-> k ∈ l2) -> l1 = l2.
Proof.
  intros H1. revert l2. induction H1 as [|x l1 Hs IH Hf]; intros l2 H2 He.
  - destruct l2 as [|y l2]; [done|]. exfalso. apply (elem_of_nil y), He. by left.
  - destruct H2 as [|y l2 Hs2 Hf2]; [exfalso; apply (elem_of_nil x), He; by left|].
    rewrite Forall_forall in Hf, Hf2.
    assert (x = y) as <-.
    { assert (x ∈ y :: l2) as Hx by (apply He; by left). assert (y ∈ x :: l1) as Hy by (apply He; by left).
      apply elem_of_cons in Hx as [?|Hx], Hy as [?|Hy]; try done.
      exfalso. eapply key_lt_irrefl, key_lt_trans; [by apply Hf|by apply Hf2]. }
    f_equal. apply IH; [done|]. intros k. specialize (He k). rewrite !elem_of_cons in He. split; intros Hk.
    + destruct (proj1 He (or_intror Hk)) as [->|?]; [|done]. by apply Hf, key_lt_irrefl in Hk.
    + destruct (proj2 He (or_intror Hk)) as [->|?]; [|done]. by apply Hf2, key_lt_irrefl in Hk.
Qed.

(** A scan is determined by what it lists. *)
(** Strictly ascending bindings are determined by their elements. *)
Lemma entries_unique (o1 o2 : list (bytes * bytes)) :
  StronglySorted key_lt o1.*1 -> StronglySorted key_lt o2.*1 -> (forall k v, (k, v) ∈ o1 <-> (k, v) ∈ o2) -> o1 = o2.
Proof.
  intros S1 S2 E.
  assert (o1.*1 = o2.*1) as Ek.
  { apply key_lt_sorted_unique; [done..|]. intros k. rewrite !list_elem_of_fmap.
    split; intros ([k' v] & -> & Hk); exists (k', v); (split; [done|]); by apply E. }
  assert (forall k v v', (k, v) ∈ o1 -> (k, v') ∈ o1 -> v = v') as Hf.
  { clear -S1. intros k v v' H1 H2. induction o1 as [|[k0 v0] o1 IH]; [by apply elem_of_nil in H1|].
    rewrite fmap_cons in S1. apply StronglySorted_inv in S1 as [S1 Hlt]. rewrite Forall_forall in Hlt.
    assert (forall v, (k0, v) ∉ o1) as Hno.
    { intros x Hx%(list_elem_of_fmap_2 fst). by apply Hlt, key_lt_irrefl in Hx. }
    apply elem_of_cons in H1 as [E1|H1], H2 as [E2|H2]; simplify_eq; [done|by destruct (Hno v')|by destruct (Hno v)|by apply IH]. }
  assert (forall k v v', (k, v) ∈ o1 -> (k, v') ∈ o2 -> v = v') as Hv.
  { intros k v v' H1 H2%E. by eapply Hf. }
  clear E S1 S2 Hf. revert o2 Ek Hv. induction o1 as [|[k v] o1 IH]; intros [|[k' v'] o2] Ek Hv; try done.
  rewrite !fmap_cons in Ek. injection Ek as -> Ek. f_equal.
  - f_equal. apply (Hv k'); by left.
  - apply IH; [done|]. intros k2 x y Hx Hy. apply (Hv k2); by right.
Qed.

Lemma is_scan_unique bound fin done l o1 o2 :
  is_scan bound fin done l o1 -> is_scan bound fin done l o2 -> o1 = o2.
Proof. intros [S1 E1] [S2 E2]. apply entries_unique; [done..|]. intros k v. by rewrite E1, E2. Qed.

Lemma lookup_at_key k bound l v : lookup_at k bound l = Some v -> k ∈ r_key <$> l.
Proof.
  unfold lookup_at. destruct (newest k bound l) as [r|] eqn:E; [|done]. intros _.
  apply newest_some in E as (Hr & [<- _]%visible_spec & _). by apply list_elem_of_fmap_2.
Qed.

#[export] Instance key_le_trans' : Transitive key_le.
Proof. intros a b c. apply key_le_trans. Qed.
#[export] Instance key_le_total : Total key_le.
Proof. intros a b. unfold key_le. destruct (key_total a b) as [|[->|]]; auto. Qed.

Lemma read_keys_spec f start fin keys :
  NoDup keys -> (forall k v, f k = Some v -> k ∈ keys) ->
  StronglySorted key_lt (read_keys f start fin keys).*1 /\
  forall k v, (k, v) ∈ read_keys f start fin keys <-> in_range start fin k = true /\ f k = Some v.
Proof.
  intros Hn Hcov. unfold read_keys.
  assert (StronglySorted key_lt (filter (fun k => in_range start fin k = true) (merge_sort key_le keys))) as Hs.
  { apply StronglySorted_filter. rewrite <- (merge_sort_Permutation key_le keys) in Hn.
    pose proof (StronglySorted_merge_sort key_le keys) as Hm.
    induction Hm as [|x s Hm IH Hf]; [constructor|]. apply NoDup_cons in Hn as [Hx Hn].
    constructor; [by apply IH|]. rewrite Forall_forall in *. intros y Hy. destruct (Hf y Hy) as [->|?]; done. }
  split.
  - induction Hs as [|k ks Hs IH Hf]; [constructor|]. cbn [omap list_omap].
    destruct (f k) as [v|] eqn:E; cbn [fmap option_fmap option_map]; [|done]. rewrite fmap_cons. cbn [fst].
    constructor; [done|]. rewrite Forall_forall in *. intros y (kv & -> & Hkv)%list_elem_of_fmap.
    apply list_elem_of_omap in Hkv as (k2 & Hk2 & E2).
    assert (kv.1 = k2) as -> by (destruct (f k2); cbn in E2; simplify_eq; done).
    by apply Hf.
  - intros k v. rewrite list_elem_of_omap. split.
    + intros (k' & Hk & E). destruct (f k') as [v'|] eqn:El; cbn in E; [|done]. simplify_eq.
      apply list_elem_of_filter in Hk as [? _]. done.
    + intros [Hr Hl]. exists k. rewrite Hl. split; [|done]. apply list_elem_of_filter. split; [done|].
      rewrite merge_sort_Permutation. by eapply Hcov.
Qed.

(** What is read depends on what is bound to the keys only. *)
Lemma read_keys_ext f g start fin keys keys' :
  NoDup keys -> NoDup keys' -> (forall k, f k = g k) ->
  (forall k v, f k = Some v -> k ∈ keys) -> (forall k v, f k = Some v -> k ∈ keys') ->
  read_keys f start fin keys = read_keys g start fin keys'.
Proof.
  intros Hn Hn' E Hc Hc'. destruct (read_keys_spec f start fin keys Hn Hc) as [S1 E1].
  destruct (read_keys_spec g start fin keys' Hn') as [S2 E2]; [intros k v; rewrite <- E; apply Hc'|].
  apply (entries_unique _ _ S1 S2). intros k v. by rewrite E1, E2, E.
Qed.

Lemma scan_ref_spec bound start fin l :
  StronglySorted key_lt (scan_ref bound start fin l).*1 /\
  forall k v, (k, v) ∈ scan_ref bound start fin l <->
    in_range start fin k = true /\ lookup_at k bound l = Some v.
Proof.
  apply read_keys_spec; [apply NoDup_remove_dups|]. intros k v Hk. rewrite elem_of_remove_dups. by eapply lookup_at_key.
Qed.

(** The scan of the versions from the start key on is the scan of the range. *)
Lemma scan_ref_is_scan bound start fin l :
  is_scan bound fin None (filter (fun r => from_start start (r_key r) = true) l)
    (scan_ref bound start fin l).
Proof.
  destruct (scan_ref_spec bound start fin l) as [Hs He]. split; [done|]. intros k v. rewrite He.
  unfold in_range. rewrite andb_true_iff.
  assert (forall r, newest k bound (filter (fun r => from_start start (r_key r) = true) l) = Some r ->
    from_start start k = true) as Hf.
  { intros r (Hr & [<- _]%visible_spec & _)%newest_some. by apply list_elem_of_filter in Hr as [? _]. }
  assert (from_start start k = true ->
    newest k bound (filter (fun r => from_start start (r_key r) = true) l) = newest k bound l) as Hn.
  { intros Hk. clear He Hs Hf. induction l as [|x l IH]; [done|]. rewrite filter_cons. cbn [newest].
    case_decide as Hd; cbn [newest]; rewrite IH; [done|].
    destruct (visible k bound x) eqn:Ev; [|done]. apply visible_spec in Ev as [Ek _]. by rewrite Ek in Hd. }
  unfold lookup_at. split.
  - intros [[H1 H2] H3]. split; [done|]. split; [done|]. by rewrite Hn.
  - intros (_ & H2 & H3). destruct (newest k bound (filter _ l)) as [r|] eqn:E; [|done].
    pose proof (Hf r eq_refl) as Hk. split; [done|]. by rewrite <- Hn.
Qed.

(** ** How the scan moves over a version *)

Lemma is_scan_perm bound fin done l l' out :
  versions_unique l -> l ≡ₚ l' -> is_scan bound fin done l out -> is_scan bound fin done l' out.
Proof.
  intros Hu Hp [Hs He]. split; [done|]. intros k v. rewrite He. unfold lookup_at.
  rewrite (newest_elem_of k bound l l'); [done|done| |by apply (versions_unique_perm l)]. intros r _. by rewrite Hp.
Qed.

Lemma newest_skip k bound r l : visible k bound r = false -> newest k bound (r :: l) = newest k bound l.
Proof. intros E. cbn [newest]. by rewrite E. Qed.

(** A version that is not visible. *)
Lemma scan_skip_invisible bound fin done r l out :
  bound <= r_seq r -> is_scan bound fin done (r :: l) out -> is_scan bound fin done l out.
Proof.
  intros Hb [Hs He]. split; [done|]. intros k v. rewrite He. unfold lookup_at. rewrite newest_skip; [done|].
  destruct (visible k bound r) eqn:E; [|done]. apply visible_spec in E. lia.
Qed.

(** A version of the key that was resolved last. *)
Lemma scan_skip_done bound fin r l out :
  is_scan bound fin (Some (r_key r)) (r :: l) out -> is_scan bound fin (Some (r_key r)) l out.
Proof.
  intros [Hs He]. split; [done|]. intros k v. rewrite He. cbn [after]. unfold lookup_at.
  assert (key_lt (r_key r) k -> newest k bound (r :: l) = newest k bound l) as Hn.
  { intros Hlt. apply newest_skip. destruct (visible k bound r) eqn:E; [|done].
    apply visible_spec in E as [<- _]. by apply key_lt_irrefl in Hlt. }
  split; intros (H1 & H2); (split; [done|]); [rewrite <- Hn|rewrite Hn]; done.
Qed.

Section resolve.
Context (bound : N) (fin done : option bytes) (r : Rec) (l : list Rec) (out : list (bytes * bytes)).
Hypothesis (Hafter : after done (r_key r)) (Hend : below_end fin (r_key r) = true) (Hseq : r_seq r < bound).
Hypothesis (Hmin : forall x, x ∈ l -> before r x \/ x = r) (Hu : versions_unique (r :: l)).
Hypothesis (Hscan : is_scan bound fin done (r :: l) out).

Lemma resolve_newest : newest (r_key r) bound (r :: l) = Some r.
Proof.
  apply newest_intro; [done|by left|by apply visible_spec|].
  intros x [->|Hx]%elem_of_cons [Ek _]%visible_spec; [lia|]. destruct (Hmin x Hx) as [[Hlt|[_ ?]]| ->]; [|lia|lia].
  rewrite Ek in Hlt. by apply key_lt_irrefl in Hlt.
Qed.

Lemma resolve_lookup k :
  key_lt (r_key r) k -> lookup_at k bound (r :: l) = lookup_at k bound l.
Proof.
  intros Hlt. unfold lookup_at. rewrite newest_skip; [done|]. destruct (visible k bound r) eqn:E; [|done].
  apply visible_spec in E as [<- _]. by apply key_lt_irrefl in Hlt.
Qed.

Lemma resolve_after k v : (k, v) ∈ out -> k <> r_key r -> key_lt (r_key r) k.
Proof.
  intros (_ & _ & Hl)%(proj2 Hscan) Hne. apply lookup_at_key in Hl. rewrite fmap_cons in Hl.
  apply elem_of_cons in Hl as [->|Hl]; [done|]. apply list_elem_of_fmap in Hl as (x & -> & Hx).
  destruct (Hmin x Hx) as [[?|[E _]]| ->]; [done|congruence|done].
Qed.

(** Resolving a key moves past it. *)
Lemma resolve_rest rest :
  (forall k v, (k, v) ∈ rest <-> (k, v) ∈ out /\ k <> r_key r) -> StronglySorted key_lt rest.*1 ->
  is_scan bound fin (Some (r_key r)) l rest.
Proof.
  intros Hrest Hs. split; [done|]. intros k v. rewrite Hrest. cbn [after]. split.
  - intros [Hin Hne]. pose proof (resolve_after k v Hin Hne) as Hlt.
    apply (proj2 Hscan) in Hin as (_ & He & Hl). rewrite resolve_lookup in Hl by done. done.
  - intros (Hlt & He & Hl). split; [|intros ->; by apply key_lt_irrefl in Hlt].
    apply (proj2 Hscan). split_and!; [|done|by rewrite resolve_lookup].
    destruct done as [d|]; [|done]. cbn [after] in *. by eapply key_lt_trans.
Qed.

Lemma scan_tombstone : r_value r = None -> is_scan bound fin (Some (r_key r)) l out.
Proof.
  intros Hv. apply resolve_rest; [|apply Hscan]. intros k v. split; [|by intros [? _]].
  intros Hin. split; [done|]. intros ->. apply (proj2 Hscan) in Hin as (_ & _ & Hl).
  unfold lookup_at in Hl. rewrite resolve_newest in Hl. cbn in Hl. congruence.
Qed.

Lemma scan_emit v :
  r_value r = Some v ->
  exists rest, out = (r_key r, v) :: rest /\ is_scan bound fin (Some (r_key r)) l rest.
Proof.
  intros Hv. assert ((r_key r, v) ∈ out) as Hin.
  { apply (proj2 Hscan). split_and!; [done|done|]. unfold lookup_at. by rewrite resolve_newest. }
  assert (exists k v' rest, out = (k, v') :: rest) as (k & v' & rest & Eo).
  { destruct out as [|[k v'] rest]; [by apply elem_of_nil in Hin|eauto]. }
  pose proof (proj1 Hscan) as Hs. rewrite Eo, fmap_cons in Hs. cbn [fst] in Hs.
  apply StronglySorted_cons in Hs as [Hf Hs']. rewrite Forall_forall in Hf.
  assert ((k, v') = (r_key r, v)) as E.
  { rewrite Eo in Hin. apply elem_of_cons in Hin as [?|Hin]; [done|]. exfalso.
    assert (key_lt k (r_key r)) as Hlt by (apply Hf, list_elem_of_fmap; by eexists (_, _)).
    destruct (decide (k = r_key r)) as [->|Hne]; [by apply key_lt_irrefl in Hlt|].
    eapply key_lt_irrefl, key_lt_trans; [exact Hlt|]. apply (resolve_after k v'); [rewrite Eo; by left|done]. }
  injection E as -> ->. exists rest. split; [done|]. apply resolve_rest; [|done].
  intros k' v0. rewrite Eo. split.
  - intros Hk. split; [by right|]. intros ->. apply (key_lt_irrefl (r_key r)), Hf, list_elem_of_fmap.
    by eexists (_, _).
  - intros [[E|?]%elem_of_cons Hne]; [congruence|done].
Qed.
End resolve.

(** Once the smallest key is past the end there is nothing left. *)
Lemma scan_past_end bound fin done l l' key out :
  below_end fin key = false -> (forall x, x ∈ l -> key_le key (r_key x)) ->
  (forall x, x ∈ l' -> x ∈ l) -> is_scan bound fin done l out -> out = [] /\ is_scan bound fin done l' [].
Proof.
  intros Hend Hle Hsub [_ He].
  assert (forall x, x ∈ l -> below_end fin (r_key x) = false) as Hpast.
  { intros x Hx. destruct fin as [e|]; [|done]. cbn in *. apply key_ltb_ge in Hend. apply key_ltb_ge.
    eapply key_le_trans; [done|by apply Hle]. }
  assert (forall k bound l0 v, (forall x, x ∈ l0 -> x ∈ l) -> lookup_at k bound l0 = Some v ->
    below_end fin k = false) as Hk.
  { intros k b l0 v Hs Hl. apply lookup_at_key, list_elem_of_fmap in Hl as (x & -> & Hx). by apply Hpast, Hs. }
  split.
  - destruct out as [|[k v] out]; [done|]. exfalso.
    destruct (proj1 (He k v) ltac:(by left)) as (_ & Hb & Hl). rewrite (Hk k bound l v) in Hb; done.
  - split; [constructor|]. intros k v. split; [intros Hin; by apply elem_of_nil in Hin|].
    intros (_ & Hb & Hl). rewrite (Hk k bound l' v) in Hb; done.
Qed.

(** ** The sources of a merge *)

Section merge_proofs.
Context `{PlatformOk}.

(** The source [s] has the records [l] left. *)
Definition source_holds (T : Tables) (s : Source) (l : list Rec) : Prop :=
  match s with
  | SVec items => items = inl <$> l
  | STable ts => exists id r recs, T !! id = Some (r, recs) /\ scan_ok r (chunk [] recs) ts /\
      scan_rest (chunk [] recs) ts = l
  end.

(** One while a source may still fail. *)
Definition source_slack (s : Source) : nat :=
  match s with SVec _ => 0 | STable ts => scan_slack ts end.

Lemma wp_source_next T w s l :
  world_ok T w -> source_holds T s l ->
  wp (source_next s) w (fun o w' => world_ok T w' /\ quiescent w w' /\
    match o with
    | Ok (Some (inl x), s') => exists l', l = x :: l' /\ source_holds T s' l' /\
        (source_slack s' <= source_slack s)%nat
    | Ok (Some (inr e), s') => io_fault (w_fs w) e /\ source_holds T s' [] /\
        (source_slack s' < source_slack s)%nat
    | Ok (None, s') => l = [] /\ source_holds T s' []
    | _ => False
    end).
Proof.
  intros Hw Hs. destruct s as [items|ts]; cbn [source_next source_holds] in *.
  - subst items. destruct l as [|x l]; apply wp_ret; (split; [done|]); (split; [done|]); [done|]. by exists l.
  - destruct Hs as (id & r & recs & Hid & Hok & <-). apply wp_bind.
    eapply wp_mono; [by eapply wp_world_scan_next|].
    intros [[[[x|e]|] ts']|e|] w' (Hw' & Hq & Ho); cbn [then_wp] in *; try done; apply wp_ret;
      (split; [done|]); (split; [done|]).
    + destruct Ho as (Hok' & E & ?). eexists. split; [exact E|]. split; [by exists id, r, recs|done].
    + destruct Ho as (He & Hok' & E & ?). split; [done|]. split; [by exists id, r, recs|done].
    + destruct Ho as (Hok' & E & E'). split; [done|]. by exists id, r, recs.
Qed.

(** The blocks that bound the loops are the blocks of the table. *)
Lemma blocks_in r blocks w :
  blocks_ok blocks -> table_ok r blocks w -> block_in w r <$> rd_index r = blocks.
Proof.
  intros Hok [Hi _ _ [rest Hd] Hca _]. rewrite Hi. apply list_eq. intros i. rewrite list_lookup_fmap.
  destruct (blocks !! i) as [b|] eqn:Eb.
  - rewrite (block_index_lookup 0 blocks i b Eb). cbn [fmap option_fmap option_map]. f_equal.
    unfold block_in; cbn [fst snd]. rewrite N.add_0_l.
    destruct (cache_get (len (blocks_bytes (take i blocks))) (cache_of r w)) as [x|] eqn:Ec.
    + destruct (Hca _ _ Ec) as (j & Ej & Eo). rewrite (offset_inj blocks i j b x Eb Ej Eo) in Eb. congruence.
    + destruct Hok as [_ _ _ Hwf Hfit]. rewrite Forall_forall in Hwf, Hfit.
      assert (b ∈ blocks) as Hin by by eapply list_elem_of_lookup_2.
      destruct (Hfit b Hin). unfold as_u32. rewrite N.mod_small by (unfold U32_MAX in *; lia).
      rewrite Hd, blocks_bytes_at by done. by rewrite block_of_comp by auto.
  - assert (block_index 0 blocks !! i = None) as ->; [|done].
    apply lookup_ge_None. rewrite length_block_index. by apply lookup_ge_None.
Qed.

Lemma length_filter_le {A} (Q : A -> Prop) `{!forall x, Decision (Q x)} (l : list A) :
  (length (filter Q l) <= length l)%nat.
Proof. induction l as [|x l IH]; [done|]. rewrite filter_cons. case_decide; simpl; lia. Qed.

Lemma length_concat_drop {A} (blocks : list (list A)) n :
  (length (concat (drop n blocks)) <= length (concat blocks))%nat.
Proof. rewrite <- (take_drop n blocks) at 2. rewrite concat_app, length_app. lia. Qed.

(** The bound is enough. *)
Lemma source_bound_ok T w s l :
  world_ok T w -> source_holds T s l -> (length l + source_slack s <= source_bound w s)%nat.
Proof.
  intros Hw Hs. destruct s as [items|ts]; cbn [source_holds source_bound source_slack] in *.
  { subst items. rewrite length_fmap. lia. }
  destruct Hs as (id & r & recs & Hid & [Hr Hl] & <-).
  destruct (wo_table _ _ Hw _ _ _ Hid) as [_ [_ Hrec Hok _]]. pose proof (chunk_ok _ Hrec) as Hb.
  set (blocks := chunk [] recs) in *. rewrite Hr.
  assert (sum_list_with (fun e => length (block_in w r e)) (rd_index r) = length (concat blocks)) as ->.
  { rewrite <- (blocks_in r blocks w Hb Hok). rewrite length_concat_sum.
    induction (rd_index r) as [|e l IH]; [done|]. rewrite fmap_cons. cbn [sum_list_with]. by rewrite IH. }
  assert (scan_slack ts <= 1)%nat by (unfold scan_slack; case_match; lia).
  enough (length (scan_rest blocks ts) <=
    match ts_loaded ts with Some block => length block | None => 0 end + length (concat blocks))%nat by lia.
  unfold scan_rest. rewrite length_app. set (k := N.to_nat (ts_block ts)) in *.
  pose proof (length_concat_drop blocks (S k)).
  destruct (ts_loaded ts) as [b|].
  - pose proof (length_filter_le (fun r => from_start (ts_start ts) (r_key r) = true)
      (drop (N.to_nat (ts_pos ts)) b)) as Hf. rewrite length_drop in Hf. lia.
  - destruct (blocks !! k) as [b|] eqn:Eb; cbn [default].
    2: { apply lookup_ge_None in Eb. rewrite drop_ge by lia. simpl. lia. }
    pose proof (length_filter_le (fun r => from_start (ts_start ts) (r_key r) = true) b) as Hf.
    rewrite <- (take_drop_middle blocks k b Eb) at 2. rewrite concat_app. cbn [concat from_option]. change (Datatypes.id b) with b.
    rewrite !length_app. lia.
Qed.

(** Draining a source ends, and leaves it empty. *)
Lemma wp_drain_loop fuel T w s l :
  world_ok T w -> source_holds T s l -> (length l + source_slack s < fuel)%nat ->
  wp (drain_loop fuel s) w (fun o w' => world_ok T w' /\ quiescent w w' /\
    match o with Ok s' => source_holds T s' [] | _ => False end).
Proof.
  revert w s l. induction fuel as [|fuel IH]; intros w s l Hw Hs Hf; [lia|]. cbn [drain_loop].
  apply wp_bind. eapply wp_mono; [by apply wp_source_next|].
  intros [[[[x|e]|] s']|e|] w' (Hw' & Hq & Ho); cbn [then_wp]; try done.
  - destruct Ho as (l' & -> & Hs' & Hsl). eapply wp_mono; [apply (IH w' s' l'); [done|done|simpl in Hf; lia]|].
    intros o w2 (? & ? & ?). split_and!; [done|by etrans|done].
  - destruct Ho as (_ & Hs' & Hsl). eapply wp_mono; [apply (IH w' s' []); [done|done|simpl; lia]|].
    intros o w2 (? & ? & ?). split_and!; [done|by etrans|done].
  - apply wp_ret. destruct Ho. split_and!; done.
Qed.

Lemma wp_drain T w s l :
  world_ok T w -> source_holds T s l ->
  wp (drain s) w (fun o w' => world_ok T w' /\ quiescent w w' /\
    match o with Ok s' => source_holds T s' [] | _ => False end).
Proof.
  intros Hw Hs. unfold drain. apply wp_bind, wp_gets. cbn [then_wp].
  eapply wp_drain_loop; [done|done|]. pose proof (source_bound_ok T w s l Hw Hs). lia.
Qed.

(** ** The heads *)

(** A source and its head have the records [l] left, or failed since [s0]. *)
Definition peek_holds (T : Tables) (s0 : FsState) (p : Peeking) (l : list Rec) : Prop :=
  match pk_head p with
  | Some (inl r) => exists l', l = r :: l' /\ source_holds T (pk_iter p) l'
  | Some (inr e) => io_fault s0 e /\ source_holds T (pk_iter p) []
  | None => l = [] /\ source_holds T (pk_iter p) []
  end.

(** [next_source]: a failed source, or the one whose head sorts first. *)
Lemma next_source_loop_spec T s0 all ls pre sources best :
  Forall2 (peek_holds T s0) all ls -> all = pre ++ sources ->
  match best with
  | None => forall p, p ∈ pre -> pk_head p = None
  | Some (j, c) => (exists p, all !! N.to_nat j = Some p /\ pk_head p = Some (inl c)) /\
      forall p, p ∈ pre -> pk_head p = None \/ exists h, pk_head p = Some (inl h) /\ ~ before h c
  end ->
  match next_source_loop sources (len pre) best with
  | None => forall p, p ∈ all -> pk_head p = None
  | Some i => exists p, all !! N.to_nat i = Some p /\
      match pk_head p with
      | Some (inr _) => True
      | Some (inl c) => forall q, q ∈ all -> pk_head q = None \/ exists h, pk_head q = Some (inl h) /\ ~ before h c
      | None => False
      end
  end.
Proof.
  intros Hall. revert pre best. induction sources as [|p sources IH]; intros pre best Eall Hbest;
    cbn [next_source_loop].
  { rewrite app_nil_r in Eall. subst pre. destruct best as [[j c]|]; cbn [fmap option_fmap option_map fst]; [|done].
    destruct Hbest as [(p & Ep & Eh) Hq]. exists p. by rewrite Eh. }
  assert (all !! length pre = Some p) as Ep by (by rewrite Eall, list_lookup_middle).
  replace (len pre + 1) with (len (pre ++ [p])) by len.
  assert (all = (pre ++ [p]) ++ sources) as Eall' by (by rewrite <- app_assoc).
  destruct (pk_head p) as [[h|e]|] eqn:Eh.
  - set (better := match best with
      | None => true
      | Some (_, current) => match key_cmp (r_key h) (r_key current) with
                             | Lt => true | Gt => false | Eq => r_seq current <? r_seq h end
      end).
    apply (IH (pre ++ [p]) _ Eall'). destruct better eqn:Eb.
    + split; [exists p; by rewrite Nat2N.id|].
      intros q [Hq|Hq%list_elem_of_singleton]%elem_of_app.
      2: { subst q. right. exists h. split; [done|apply before_irrefl]. }
      destruct best as [[j c]|]; [|left; by apply Hbest].
      destruct Hbest as [_ Hb]. destruct (Hb q Hq) as [?|(h' & Eh' & Hn)]; [by left|]. right. exists h'.
      split; [done|]. intros Hbf. apply Hn. eapply before_trans; [exact Hbf|].
      unfold better in Eb. apply version_cmp_lt. unfold version_cmp, version; cbn [fst snd].
      destruct (key_cmp (r_key h) (r_key c)); [|done|done]. by rewrite N.compare_lt_iff, <- N.ltb_lt.
    + destruct best as [[j c]|]; [|done]. destruct Hbest as [Hj Hb]. split; [done|].
      intros q [Hq|Hq%list_elem_of_singleton]%elem_of_app; [by apply Hb|]. subst q. right. exists h.
      split; [done|]. rewrite <- version_cmp_lt. unfold version_cmp, version; cbn [fst snd].
      unfold better in Eb. destruct (key_cmp (r_key h) (r_key c)); [|done|done].
      apply N.ltb_ge in Eb. rewrite N.compare_lt_iff. lia.
  - exists p. rewrite Nat2N.id. by rewrite Eh.
  - apply (IH (pre ++ [p]) best Eall'). destruct best as [[j c]|].
    + destruct Hbest as [Hj Hb]. split; [done|].
      intros q [Hq|Hq%list_elem_of_singleton]%elem_of_app; [by apply Hb|]. subst q. by left.
    + intros q [Hq|Hq%list_elem_of_singleton]%elem_of_app; [by apply Hbest|]. by subst q.
Qed.

Lemma io_fault_quiescent s0 w e : stays s0 (w_fs w) -> io_fault (w_fs w) e -> io_fault s0 e.
Proof. apply io_fault_stays. Qed.

Lemma wp_advance T s0 w p l :
  world_ok T w -> stays s0 (w_fs w) -> source_holds T (pk_iter p) l ->
  wp (peeking_advance p) w (fun o w' => world_ok T w' /\ quiescent w w' /\
    match o with
    | Ok (item, p') => item = pk_head p /\ peek_holds T s0 p' l /\ exists l', source_holds T (pk_iter p') l'
    | _ => False
    end).
Proof.
  intros Hw Hst Hs. unfold peeking_advance. apply wp_bind. eapply wp_mono; [by apply wp_source_next|].
  intros [[[[x|e]|] s']|e|] w' (Hw' & Hq & Ho); cbn [then_wp]; try done; apply wp_ret;
    (split; [done|]); (split; [done|]); (split; [done|]); unfold peek_holds; cbn [pk_head pk_iter].
  - destruct Ho as (l' & -> & Hs' & _). eauto.
  - destruct Ho as (He & Hs' & _). split; [|eauto]. split; [by eapply io_fault_stays|done].
  - destruct Ho as [-> Hs']. eauto.
Qed.

(** The merge [m] has the records [ls] left in its sources. *)
Record merge_ok (T : Tables) (s0 : FsState) (m : Merge) (ls : list (list Rec)) : Prop := mkMergeOk {
  mo_heads : Forall2 (peek_holds T s0) (mg_sources m) ls;
  mo_sorted : Forall run_sorted ls;
  mo_unique : versions_unique (concat ls);
  mo_done : forall d x, mg_done m = Some d -> x ∈ concat ls -> key_le d (r_key x)
}.

(** The least version is at the head that [next_source] picks. *)
Lemma least_head T s0 m ls i p c l :
  merge_ok T s0 m ls ->
  (forall q, q ∈ mg_sources m -> pk_head q = None \/ exists h, pk_head q = Some (inl h) /\ ~ before h c) ->
  mg_sources m !! i = Some p -> ls !! i = Some (c :: l) ->
  forall x, x ∈ concat (<[i := l]> ls) -> before c x \/ x = c.
Proof.
  intros [Hh Hs Hu _] Hleast Ep El x Hx. pose proof (concat_insert_tail ls i c l El) as Hp.
  assert (x ∈ concat ls) as Hx' by (rewrite Hp; by right).
  destruct (before_total c x) as [?|[E|Hb]]; [by left|right|].
  { apply Hu; [done|rewrite Hp; by left|done]. }
  exfalso.
  apply list_elem_of_In, in_concat in Hx' as (lj & Hlj & Hxj).
  apply list_elem_of_In, list_elem_of_lookup in Hlj as [j Ej]. apply list_elem_of_In in Hxj.
  destruct (Forall2_lookup_r _ _ _ _ _ Hh Ej) as (q & Eq & Hq).
  pose proof (Forall_lookup_1 _ _ _ _ Hs Ej) as Hsj. unfold peek_holds in Hq.
  destruct (Hleast q ltac:(by eapply list_elem_of_lookup_2)) as [E|(h & E & Hn)]; rewrite E in Hq.
  - destruct Hq as [-> _]. by apply elem_of_nil in Hxj.
  - destruct Hq as (l' & -> & _). apply run_sorted_cons in Hsj as [_ Hbj].
    apply Hn. apply elem_of_cons in Hxj as [->|Hxj]; [done|]. eapply before_trans; [by apply Hbj|done].
Qed.

Lemma merge_ok_step T s0 m ls i c l p done :
  merge_ok T s0 m ls -> ls !! i = Some (c :: l) -> peek_holds T s0 p l ->
  (done = mg_done m \/ done = Some (r_key c) /\ forall x, x ∈ concat (<[i := l]> ls) -> before c x \/ x = c) ->
  merge_ok T s0 (mkMerge (<[i := p]> (mg_sources m)) (mg_seq_bound m) (mg_end m) done) (<[i := l]> ls).
Proof.
  intros [Hh Hs Hu Hd] El Hp Hdone. pose proof (concat_insert_tail ls i c l El) as Hperm.
  split; cbn [mg_sources mg_done].
  - by apply Forall2_insert.
  - apply Forall_insert; [done|]. pose proof (Forall_lookup_1 _ _ _ _ Hs El) as Hl.
    by apply run_sorted_cons in Hl as [? _].
  - apply (versions_unique_sub (concat ls)); [|done]. intros x Hx. rewrite Hperm. by right.
  - intros d x Ed Hx. destruct Hdone as [->|[-> Hb]].
    + apply (Hd d x Ed). rewrite Hperm. by right.
    + injection Ed as <-. destruct (Hb x Hx) as [[?|[-> _]]| ->]; [by right|by left|by left].
Qed.

Lemma is_scan_nil bound fin done out : is_scan bound fin done [] out -> out = [].
Proof.
  intros [_ He]. destruct out as [|[k v] out]; [done|]. by destruct (proj1 (He k v) ltac:(by left)) as (_ & _ & ?).
Qed.

Lemma all_exhausted T s0 sources ls :
  Forall2 (peek_holds T s0) sources ls -> (forall p, p ∈ sources -> pk_head p = None) -> concat ls = [].
Proof.
  induction 1 as [|p l sources ls Hp Hf IH]; intros Hn; [done|]. cbn [concat].
  unfold peek_holds in Hp. rewrite (Hn p ltac:(by left)) in Hp. destruct Hp as [-> _].
  apply IH. intros q Hq. apply Hn. by right.
Qed.

(** What one [next] of the merge leaves. *)
Definition merge_post (T : Tables) (s0 : FsState) (bound : N) (fin : option bytes) (n : nat)
    (out : list (bytes * bytes)) (w : World)
    (o : outcome (option ((bytes * bytes) + Error) * Merge)) (w' : World) : Prop :=
  world_ok T w' /\ quiescent w w' /\
  match o with
  | Ok (None, _) => out = []
  | Ok (Some (inl kv), m') => exists ls' out', out = kv :: out' /\ merge_ok T s0 m' ls' /\
      mg_seq_bound m' = bound /\ mg_end m' = fin /\ (length (concat ls') < n)%nat /\
      is_scan bound fin (mg_done m') (concat ls') out'
  | Ok (Some (inr e), _) => io_fault s0 e
  | _ => False
  end.

Lemma merge_post_trans T s0 bound fin n n' out w w1 o w' :
  (n' <= n)%nat -> quiescent w w1 ->
  merge_post T s0 bound fin n' out w1 o w' -> merge_post T s0 bound fin n out w o w'.
Proof.
  intros Hn Hq (Hw & Hq' & Ho). split; [done|]. split; [by etrans|].
  destruct o as [[[[kv|e]|] m']|e|]; try done.
  destruct Ho as (ls' & out' & ? & ? & ? & ? & ? & ?). exists ls', out'. split_and!; try done. lia.
Qed.

(** A source whose head is past the end is drained: nothing of the range is left. *)
Lemma merge_drained T s0 m ls j c l q out :
  merge_ok T s0 m ls -> source_holds T q [] -> ls !! j = Some (c :: l) -> below_end (mg_end m) (r_key c) = false ->
  (forall x, x ∈ concat (<[j := l]> ls) -> before c x \/ x = c) ->
  is_scan (mg_seq_bound m) (mg_end m) (mg_done m) (concat ls) out ->
  out = [] /\ is_scan (mg_seq_bound m) (mg_end m) (mg_done m) (concat (<[j := []]> ls)) [] /\
  merge_ok T s0 (mkMerge (<[j := mkPeek q None]> (mg_sources m)) (mg_seq_bound m) (mg_end m) (mg_done m)) (<[j := []]> ls) /\
  (length (concat (<[j := []]> ls)) < length (concat ls))%nat.
Proof.
  intros [Hh Hs Hu Hd] Hq El Ebe Hleast Hscan. pose proof (concat_insert_nil ls j _ El) as Hperm.
  assert (forall x, x ∈ concat (<[j := []]> ls) -> x ∈ concat ls) as Hsub by (intros x Hx; rewrite Hperm; set_solver).
  destruct (scan_past_end (mg_seq_bound m) (mg_end m) (mg_done m) (concat ls)
    (concat (<[j := []]> ls)) (r_key c) out Ebe) as [-> Hnil]; [|done|done|].
  { intros x Hx. rewrite (concat_insert_tail ls j c l El) in Hx. apply elem_of_cons in Hx as [->|Hx]; [apply key_le_refl|].
    destruct (Hleast x Hx) as [[?|[-> _]]| ->]; [by right|by left|by left]. }
  split_and!; [done|done| |rewrite Hperm, length_app; cbn; lia].
  split; cbn [mg_sources mg_done].
  - by apply Forall2_insert; [|split].
  - by apply Forall_insert; [|constructor].
  - by apply (versions_unique_sub (concat ls)).
  - intros d x Ed Hx. apply (Hd d x Ed). by apply Hsub.
Qed.

(** A key that is not the last one resolved comes after it. *)
Lemma merge_after T s0 m ls c : merge_ok T s0 m ls -> c ∈ concat ls -> mg_done m <> Some (r_key c) -> after (mg_done m) (r_key c).
Proof.
  intros [_ _ _ Hd] Hc Hne. destruct (mg_done m) as [d|] eqn:Ed; [|done]. cbn [after].
  by destruct (Hd d c eq_refl Hc) as [->|?].
Qed.

Lemma wp_merge_loop fuel T s0 m ls w out :
  world_ok T w -> stays s0 (w_fs w) -> merge_ok T s0 m ls ->
  is_scan (mg_seq_bound m) (mg_end m) (mg_done m) (concat ls) out ->
  (length (concat ls) < fuel)%nat ->
  wp (merge_loop fuel m) w
    (merge_post T s0 (mg_seq_bound m) (mg_end m) (length (concat ls)) out w).
Proof.
  revert m ls w. induction fuel as [|fuel IH]; intros m ls w Hw Hst Hm Hscan Hf; [lia|]. cbn [merge_loop].
  pose proof Hm as [Hh Hs Hu Hd].
  pose proof (next_source_loop_spec T s0 (mg_sources m) ls [] (mg_sources m) None Hh eq_refl
    ltac:(intros p Hp; by apply elem_of_nil in Hp)) as Hnext.
  unfold next_source. change (len []) with 0 in Hnext.
  destruct (next_source_loop (mg_sources m) 0 None) as [i|].
  2: { apply wp_ret. split; [done|]. split; [done|].
    rewrite (all_exhausted T s0 _ _ Hh Hnext) in Hscan. by eapply is_scan_nil. }
  destruct Hnext as (p & Ep & Hhead). unfold index. rewrite Ep. apply wp_bind, wp_lift. cbn [then_wp].
  destruct (Forall2_lookup_l _ _ _ _ _ Hh Ep) as (lp & El & Hp). unfold peek_holds in Hp.
  destruct (pk_head p) as [[c|e]|] eqn:Eh; [| |done].
  2: { destruct Hp as [He Hp]. apply wp_bind. eapply wp_mono; [by apply wp_advance|].
    intros [[item p']|e'|] w1 (Hw1 & Hq1 & Ho); cbn [then_wp]; try done.
    destruct Ho as (-> & _). rewrite Eh. by apply wp_ret. }
  destruct Hp as (l & -> & Hp). set (j := N.to_nat i) in *.
  pose proof (least_head T s0 m ls j p c l Hm Hhead Ep El) as Hleast.
  pose proof (concat_insert_tail ls j c l El) as Hperm.
  pose proof (is_scan_perm _ _ _ _ _ _ Hu Hperm Hscan) as Hscan'.
  assert (length (concat ls) = S (length (concat (<[j := l]> ls)))) as Hlen by (by rewrite Hperm).
  apply wp_bind. eapply wp_mono; [by apply (wp_advance T s0)|].
  intros [[item p']|e'|] w1 (Hw1 & Hq1 & Ho); cbn [then_wp]; try done.
  destruct Ho as (-> & Hp' & l2 & Hl2). rewrite Eh.
  assert (stays s0 (w_fs w1)) as Hst1 by (etrans; [exact Hst|apply Hq1]).
  set (next done := mkMerge (<[j := p']> (mg_sources m)) (mg_seq_bound m) (mg_end m) done).
  assert (forall done, done = mg_done m \/ done = Some (r_key c) -> merge_ok T s0 (next done) (<[j := l]> ls)) as Hstep.
  { intros done Hdone. apply (merge_ok_step _ _ _ _ _ c); [done|done|done|]. destruct Hdone as [-> | ->]; auto. }
  assert (forall done, done = mg_done m \/ done = Some (r_key c) ->
    is_scan (mg_seq_bound m) (mg_end m) done (concat (<[j := l]> ls)) out ->
    wp (merge_loop fuel (next done)) w1 (merge_post T s0 (mg_seq_bound m) (mg_end m) (length (concat ls)) out w)) as Hgo.
  { intros done Hdone Hsc. eapply wp_mono; [apply (IH (next done) (<[j := l]> ls) w1); [done|done|by apply Hstep|done|lia]|].
    intros o w3. apply merge_post_trans; [lia|done]. }
  destruct (below_end (mg_end m) (r_key c)) eqn:Ebe; cbn [negb].
  2: { apply wp_bind. eapply wp_mono; [by apply (wp_drain T w1 _ l2)|].
    intros [s'|e|] w2 (Hw2 & Hq2 & Ho); cbn [then_wp]; try done.
    destruct (merge_drained T s0 m ls j c l s' out Hm Ho El Ebe Hleast Hscan) as (-> & Hnil & Hm2 & Hlt).
    eapply wp_mono; [apply (IH _ (<[j := []]> ls) w2); [done|by etrans; [exact Hst1|apply Hq2]|done|done|lia]|].
    intros o w3. apply merge_post_trans; [lia|by etrans]. }
  case_bool_decide as Edone; [|destruct (N.leb_spec (mg_seq_bound m) (r_seq c)) as [Hinv|Hvis]].
  - rewrite Edone in Hscan'. apply scan_skip_done in Hscan'. rewrite <- Edone in Hscan'. by apply Hgo; [left|].
  - apply scan_skip_invisible in Hscan'; [|done]. by apply Hgo; [left|].
  - assert (after (mg_done m) (r_key c)) as Hafter by (eapply merge_after; [done|rewrite Hperm; by left|done]).
    assert (versions_unique (c :: concat (<[j := l]> ls))) as Huniq by (by apply (versions_unique_perm (concat ls))).
    destruct (r_value c) as [v|] eqn:Ev.
    + destruct (scan_emit (mg_seq_bound m) (mg_end m) (mg_done m) c (concat (<[j := l]> ls)) out
        Hafter Ebe Hvis Hleast Huniq Hscan' v Ev) as (rest & -> & Hrest).
      apply wp_ret. split; [done|]. split; [done|]. exists (<[j := l]> ls), rest.
      split_and!; try done; [by apply Hstep; right|lia].
    + apply Hgo; [by right|]. by apply (scan_tombstone (mg_seq_bound m) (mg_end m) (mg_done m) c (concat (<[j := l]> ls)) out).
Qed.

(** A failed source is reported at once. *)
Definition has_failed (m : Merge) : Prop := Exists (fun p => exists e, pk_head p = Some (inr e)) (mg_sources m).

#[local] Instance has_failed_dec m : Decision (has_failed m).
Proof.
  apply Exists_dec. intros p. destruct (pk_head p) as [[r|e]|].
  - right. by intros [? ?].
  - left. by exists e.
  - right. by intros [? ?].
Defined.

Lemma wp_merge_failed fuel T s0 m ls w :
  world_ok T w -> stays s0 (w_fs w) -> merge_ok T s0 m ls -> has_failed m ->
  wp (merge_loop (S fuel) m) w (fun o w' => world_ok T w' /\ quiescent w w' /\
    match o with Ok (Some (inr e), _) => io_fault s0 e | _ => False end).
Proof.
  intros Hw Hst [Hh _ _ _] (p0 & Hp0 & e0 & E0)%Exists_exists. cbn [merge_loop].
  pose proof (next_source_loop_spec T s0 (mg_sources m) ls [] (mg_sources m) None Hh eq_refl
    ltac:(intros p Hp; by apply elem_of_nil in Hp)) as Hnext.
  unfold next_source. change (len []) with 0 in Hnext.
  destruct (next_source_loop (mg_sources m) 0 None) as [i|]; [|specialize (Hnext p0 Hp0); congruence].
  destruct Hnext as (p & Ep & Hhead). unfold index. rewrite Ep. apply wp_bind, wp_lift. cbn [then_wp].
  destruct (Forall2_lookup_l _ _ _ _ _ Hh Ep) as (lp & El & Hp). unfold peek_holds in Hp.
  destruct (pk_head p) as [[c|e]|] eqn:Eh; [| |done].
  { destruct (Hhead p0 Hp0) as [?|(h & ? & _)]; congruence. }
  destruct Hp as [He Hp]. apply wp_bind. eapply wp_mono; [by apply wp_advance|].
  intros [[item p']|e'|] w1 (Hw1 & Hq1 & Ho); cbn [then_wp]; try done.
  destruct Ho as (-> & _). rewrite Eh. by apply wp_ret.
Qed.

Lemma merge_bound_ok T s0 w m ls :
  world_ok T w -> merge_ok T s0 m ls -> has_failed m \/ (length (concat ls) <= merge_bound w m)%nat.
Proof.
  intros Hw [Hh _ _ _]. unfold has_failed, merge_bound.
  induction Hh as [|p l sources ls Hp Hh IH]; [right; done|]. cbn [sum_list_with concat]. rewrite length_app.
  destruct IH as [Hx|Hle]; [left; by right|]. unfold peek_holds in Hp.
  destruct (pk_head p) as [[r|e]|] eqn:Eh; [right|left; left; eauto|right].
  - destruct Hp as (l' & -> & Hs). pose proof (source_bound_ok T w _ _ Hw Hs). simpl. lia.
  - destruct Hp as [-> _]. simpl. lia.
Qed.

Lemma wp_merge_next T s0 m ls w out :
  world_ok T w -> stays s0 (w_fs w) -> merge_ok T s0 m ls ->
  is_scan (mg_seq_bound m) (mg_end m) (mg_done m) (concat ls) out ->
  wp (merge_next m) w (merge_post T s0 (mg_seq_bound m) (mg_end m) (length (concat ls)) out w).
Proof.
  intros Hw Hst Hm Hscan. unfold merge_next. apply wp_bind, wp_gets. cbn [then_wp].
  destruct (merge_bound_ok T s0 w m ls Hw Hm) as [Hx|Hle]; [|apply wp_merge_loop; [done..|lia]].
  eapply wp_mono; [by eapply wp_merge_failed|].
  intros [[[[kv|e]|] m']|e|] w' (? & ? & ?); try done.
Qed.

Lemma wp_collect_loop fuel T s0 m ls w out merged limit :
  world_ok T w -> stays s0 (w_fs w) -> merge_ok T s0 m ls ->
  is_scan (mg_seq_bound m) (mg_end m) (mg_done m) (concat ls) out ->
  len merged < limit -> has_failed m /\ (1 <= fuel)%nat \/ (length (concat ls) < fuel)%nat ->
  wp (collect_loop fuel m merged limit) w (fun o w' => world_ok T w' /\ quiescent w w' /\
    match o with
    | Ok l => l = merged ++ take (N.to_nat limit - length merged) out
    | Err e => io_fault s0 e
    | Panic => False
    end).
Proof.
  revert m ls w out merged. induction fuel as [|fuel IH]; intros m ls w out merged Hw Hst Hm Hscan Hl Hf; [lia|].
  cbn [collect_loop]. apply wp_bind.
  destruct Hf as [[Hx _]|Hf].
  { unfold merge_next. apply wp_bind, wp_gets. cbn [then_wp].
    eapply wp_mono; [by eapply wp_merge_failed|].
    intros [[[[kv|e]|] m']|e|] w' (? & ? & ?); cbn [then_wp]; done. }
  eapply wp_mono; [by apply wp_merge_next|].
  intros [[[[kv|e]|] m']|e|] w' (Hw' & Hq & Ho); cbn [then_wp]; try done.
  - destruct Ho as (ls' & out' & -> & Hm' & Eb & Ee & Hlen & Hscan').
    replace (N.to_nat limit - length merged)%nat with (S (N.to_nat limit - length (merged ++ [kv])))
      by (rewrite length_app; simpl; lia).
    cbn [take]. destruct (N.eqb_spec (len (merged ++ [kv])) limit) as [E|E].
    + apply wp_ret. split; [done|]. split; [done|].
      replace (N.to_nat limit - length (merged ++ [kv]))%nat with 0%nat by lia. done.
    + eapply wp_mono; [apply (IH m' ls' w' out'); [done| |done|by rewrite Eb, Ee| |right; lia]|].
      * etrans; [exact Hst|apply Hq].
      * rewrite length_app in *. simpl in *. lia.
      * intros o w2 (? & ? & Ho). split; [done|]. split; [by etrans|].
        destruct o; try done. rewrite <- app_assoc in Ho. exact Ho.
  - apply wp_ret. subst out. split; [done|]. split; [done|]. by rewrite take_nil, app_nil_r.
Qed.

Lemma wp_peeks T s0 sources ls w :
  world_ok T w -> stays s0 (w_fs w) -> Forall2 (source_holds T) sources ls ->
  wp (map_each sources peeking_new) w (fun o w' => world_ok T w' /\ quiescent w w' /\
    match o with Ok ps => Forall2 (peek_holds T s0) ps ls | _ => False end).
Proof.
  intros Hw Hst Hs. revert w Hw Hst. induction Hs as [|s l sources ls Hs _ IH]; intros w Hw Hst; cbn [map_each].
  { apply wp_ret. by split. }
  apply wp_bind. unfold peeking_new at 1. apply wp_bind. eapply wp_mono; [by apply wp_source_next|].
  intros [[item s']|e|] w1 (Hw1 & Hq1 & Ho); cbn [then_wp]; try done.
  assert (peek_holds T s0 (mkPeek s' item) l) as Hp.
  { unfold peek_holds; cbn [pk_head pk_iter]. destruct item as [[x|e]|].
    - destruct Ho as (l' & -> & Hs' & _). eauto.
    - destruct Ho as (He & Hs' & _). split; [by eapply io_fault_stays|done].
    - by destruct Ho as [-> ?]. }
  apply wp_ret. cbn [then_wp]. apply wp_bind. eapply wp_mono; [apply IH; [done|]|].
  { etrans; [exact Hst|apply Hq1]. }
  intros [ps|e|] w2 (Hw2 & Hq2 & Ho2); cbn [then_wp]; try done.
  apply wp_ret. split; [done|]. split; [by etrans|]. by constructor.
Qed.

(** The whole scan: merge the sources and collect at most [limit] entries. *)
Lemma wp_scan_sources T sources ls w bound fin limit out :
  world_ok T w -> Forall2 (source_holds T) sources ls -> Forall run_sorted ls ->
  versions_unique (concat ls) -> is_scan bound fin None (concat ls) out -> 0 < limit ->
  wp (m ← merge_new sources bound fin; collect m limit) w (fun o w' => world_ok T w' /\ quiescent w w' /\
    match o with
    | Ok l => l = take (N.to_nat limit) out
    | Err e => io_fault (w_fs w) e
    | Panic => False
    end).
Proof.
  intros Hw Hs Hrun Hn Hscan Hl. unfold merge_new. apply wp_bind, wp_bind.
  eapply wp_mono; [by apply (wp_peeks T (w_fs w))|].
  intros [ps|e|] w1 (Hw1 & Hq1 & Ho); cbn [then_wp]; try done. apply wp_ret. cbn [then_wp].
  set (m := mkMerge ps bound fin None).
  assert (merge_ok T (w_fs w) m ls) as Hm by done.
  unfold collect. apply wp_bind, wp_gets. cbn [then_wp].
  eapply wp_mono; [eapply (wp_collect_loop _ T (w_fs w) m ls w1 out []); [done|apply Hq1|done|done|simpl; lia|]|].
  { destruct (merge_bound_ok T _ w1 m ls Hw1 Hm); [left; split; [done|lia]|right; lia]. }
  intros o w2 (? & ? & Ho2). split; [done|]. split; [by etrans|]. destruct o; try done.
  rewrite Ho2. cbn [app length]. by rewrite Nat.sub_0_r.
Qed.
End merge_proofs.
