(* ===== verification/Engine.v ===== *)
(** * The engine (src/src/db.rs, src/src/compactor.rs)

    [DbInner] and its operations over a [World].  An operation is the sequence of
    the sections that its locks make atomic, so that [Threads] can interleave them;
    the messages to the two background threads are queues, and a turn of each
    thread's loop is an operation of its own. *)
From Stdlib Require Import NArith Lia.
From stdpp Require Import base numbers list strings gmap pretty.
From S2P Require Import Prelude Errors FileNames Platform State FileSystem Records Versions.
From S2P Require Import MemTable Headers Frames WriteAheadLog Manifest SsTables Merging Compaction.

Local Open Scope N_scope.

(** [enum Maintenance] and [struct Options]. *)
Inductive Maintenance := Threads | Manual.

Record Options := mkOptions {
  o_memtable_threshold : N;
  o_sync_wal : SyncMode;
  o_compaction_threshold : N;
  o_bloom_enabled : bool;
  o_maintenance : Maintenance
}.

(** [Options::default]. *)
Definition options_default : Options := mkOptions DEFAULT_THRESHOLD Durable 4 true Threads.

(** [struct WriteBatch] and its builder. *)
Abbreviation WriteBatch := (list (bytes * option bytes)).

Definition batch_put (batch : WriteBatch) (key value : bytes) : WriteBatch :=
  batch ++ [(key, Some value)].
Definition batch_delete (batch : WriteBatch) (key : bytes) : WriteBatch := batch ++ [(key, None)].

(** [struct SsTable]. *)
Record SsTable := mkSst { t_id : N; t_reader : SsTableReader }.

(** [enum Task] and [enum CompactMsg]. *)
Inductive Task := TaskFlush | TaskShutdown.
Inductive CompactMsg := CompactRun | CompactShutdown.

(** [struct DbInner].  A queue is [None] when nothing receives from it, so that
    every [send] to it fails. *)
Record DbInner := mkDb {
  db_dir : string;
  db_opts : Options;
  db_lock : Handle;
  db_wal : Wal;
  db_active : MemTable;
  db_frozen : option MemTable;
  db_sstables : list SsTable;
  db_next_sst_id : N;
  db_next_seq : N;
  db_manifest : Manifest;
  db_snapshots : list (N * N);
  db_tasks : option (list Task);
  db_compact : option (list CompactMsg);
  db_failed : option Error
}.

Definition set_db_wal x (d : DbInner) := mkDb (db_dir d) (db_opts d) (db_lock d) x (db_active d)
  (db_frozen d) (db_sstables d) (db_next_sst_id d) (db_next_seq d) (db_manifest d)
  (db_snapshots d) (db_tasks d) (db_compact d) (db_failed d).
Definition set_db_active x (d : DbInner) := mkDb (db_dir d) (db_opts d) (db_lock d) (db_wal d) x
  (db_frozen d) (db_sstables d) (db_next_sst_id d) (db_next_seq d) (db_manifest d)
  (db_snapshots d) (db_tasks d) (db_compact d) (db_failed d).
Definition set_db_frozen x (d : DbInner) := mkDb (db_dir d) (db_opts d) (db_lock d) (db_wal d)
  (db_active d) x (db_sstables d) (db_next_sst_id d) (db_next_seq d) (db_manifest d)
  (db_snapshots d) (db_tasks d) (db_compact d) (db_failed d).
Definition set_db_sstables x (d : DbInner) := mkDb (db_dir d) (db_opts d) (db_lock d) (db_wal d)
  (db_active d) (db_frozen d) x (db_next_sst_id d) (db_next_seq d) (db_manifest d)
  (db_snapshots d) (db_tasks d) (db_compact d) (db_failed d).
Definition set_db_next_sst_id x (d : DbInner) := mkDb (db_dir d) (db_opts d) (db_lock d) (db_wal d)
  (db_active d) (db_frozen d) (db_sstables d) x (db_next_seq d) (db_manifest d)
  (db_snapshots d) (db_tasks d) (db_compact d) (db_failed d).
Definition set_db_next_seq x (d : DbInner) := mkDb (db_dir d) (db_opts d) (db_lock d) (db_wal d)
  (db_active d) (db_frozen d) (db_sstables d) (db_next_sst_id d) x (db_manifest d)
  (db_snapshots d) (db_tasks d) (db_compact d) (db_failed d).
Definition set_db_manifest x (d : DbInner) := mkDb (db_dir d) (db_opts d) (db_lock d) (db_wal d)
  (db_active d) (db_frozen d) (db_sstables d) (db_next_sst_id d) (db_next_seq d) x
  (db_snapshots d) (db_tasks d) (db_compact d) (db_failed d).
Definition set_db_snapshots x (d : DbInner) := mkDb (db_dir d) (db_opts d) (db_lock d) (db_wal d)
  (db_active d) (db_frozen d) (db_sstables d) (db_next_sst_id d) (db_next_seq d) (db_manifest d)
  x (db_tasks d) (db_compact d) (db_failed d).
Definition set_db_tasks x (d : DbInner) := mkDb (db_dir d) (db_opts d) (db_lock d) (db_wal d)
  (db_active d) (db_frozen d) (db_sstables d) (db_next_sst_id d) (db_next_seq d) (db_manifest d)
  (db_snapshots d) x (db_compact d) (db_failed d).
Definition set_db_compact x (d : DbInner) := mkDb (db_dir d) (db_opts d) (db_lock d) (db_wal d)
  (db_active d) (db_frozen d) (db_sstables d) (db_next_sst_id d) (db_next_seq d) (db_manifest d)
  (db_snapshots d) (db_tasks d) x (db_failed d).
Definition set_db_failed x (d : DbInner) := mkDb (db_dir d) (db_opts d) (db_lock d) (db_wal d)
  (db_active d) (db_frozen d) (db_sstables d) (db_next_sst_id d) (db_next_seq d) (db_manifest d)
  (db_snapshots d) (db_tasks d) (db_compact d) x.

(** Programs over an engine and the world. *)
Abbreviation DbM := (ST (DbInner * World)).

Definition update (f : DbInner -> DbInner) : DbM unit := modify (fun s => (f s.1, s.2)).
Definition on_world {A} (m : WM A) : DbM A := zoom snd (fun w s => (s.1, w)) m.
Definition on_db_fs {A} (m : FsM A) : DbM A := on_world (on_files m).

Definition world_set_fs (f : FsState) (w : World) : World :=
  mkWorld f (w_caches w) (w_next_cache w).
Definition on_db_wal {A} (m : WalM A) : DbM A :=
  zoom (fun s => (db_wal s.1, w_fs s.2))
    (fun t s => (set_db_wal t.1 s.1, world_set_fs t.2 s.2)) m.
Definition on_db_manifest {A} (m : ManifestM A) : DbM A :=
  zoom (fun s => (db_manifest s.1, w_fs s.2))
    (fun t s => (set_db_manifest t.1 s.1, world_set_fs t.2 s.2)) m.

(** Run a program on a log that a function owns. *)
Definition with_wal {A} (w : Wal) (m : WalM A) : FsM (A * Wal) := fun s =>
  match m (w, s) with
  | (Ok a, (w', s')) => (Ok (a, w'), s')
  | (Err e, (_, s')) => (Err e, s')
  | (Panic, (_, s')) => (Panic, s')
  end.

(** [self.worker_tx.send(..)] and [self.compact_tx.send(..)], result ignored. *)
Definition send_task (t : Task) : DbM unit :=
  update (fun d => set_db_tasks (fmap (fun q => q ++ [t]) (db_tasks d)) d).
Definition send_compact (c : CompactMsg) : DbM unit :=
  update (fun d => set_db_compact (fmap (fun q => q ++ [c]) (db_compact d)) d).

Definition sst_path (dir : string) (id : N) : Path := join dir (sst_name id).
Definition sst_tmp_path (dir : string) (id : N) : Path := join dir (sst_tmp_name id).

(** [DbInner::health]. *)
Definition db_health : DbM unit :=
  f ← gets (fun s => db_failed s.1);
  match f with
  | Some e => fail (Poisoned (error_to_string e))
  | None => mret tt
  end.

(** [DbInner::fail]: the error to return, after latching the first failure. *)
Definition db_fail (e : Error) : DbM Error :=
  slot ← gets (fun s => db_failed s.1);
  _ ← (if slot is Some _ then mret tt else update (set_db_failed (Some e)));
  mret (Poisoned (error_to_string (default e slot))).

(** [m.map_err(|e| self.fail(e))]. *)
Definition latching {A} (m : DbM A) : DbM A :=
  r ← attempt m;
  match r with
  | inl a => mret a
  | inr e => e' ← db_fail e; fail e'
  end.

Section engine.
Context `{Platform}.

(** ** Writing *)

Definition make_record (key : bytes) (value : option bytes) (seq : N) : Rec :=
  match value with
  | Some v => put key v seq
  | None => tombstone key seq
  end.

(** [next_seq.fetch_add(n)], which wraps. *)
Definition fetch_seq (n : N) : DbM N :=
  seq ← gets (fun s => db_next_seq s.1);
  _ ← update (set_db_next_seq (as_u64 (seq + n)));
  mret seq.

Definition insert_active (records : list Rec) : DbM bool :=
  _ ← update (fun d => set_db_active (foldl (fun m r => mt_insert r m) (db_active d) records) d);
  gets (fun s => mt_is_full (db_active s.1)).

(** The sections of a write.  Both run under the log's lock; between them the
    MemTable is free, so others read and freeze it. *)
Definition log_write (key : bytes) (value : option bytes) : DbM (list Rec) :=
  seq ← fetch_seq 1;
  let record := make_record key value seq in
  _ ← on_db_wal (wal_append record);
  mret [record].

Definition insert_logged (records : list Rec) : DbM unit :=
  trigger_flush ← insert_active records;
  if trigger_flush : bool then send_task TaskFlush else mret tt.

(** [DbInner::write]. *)
Definition db_write (key : bytes) (value : option bytes) : DbM unit :=
  _ ← db_health;
  records ← log_write key value;
  insert_logged records.

(** The records of a batch, numbered from [first_seq + i]. *)
Fixpoint batch_records (first_seq i : N) (ops : WriteBatch) : outcome (list Rec) :=
  match ops with
  | [] => Ok []
  | (key, value) :: ops =>
      seq ← add_u64 first_seq i;
      rest ← batch_records first_seq (i + 1) ops;
      Ok (make_record key value seq :: rest)
  end.

Definition log_batch (batch : WriteBatch) : DbM (list Rec) :=
  first_seq ← fetch_seq (len batch);
  records ← lift (batch_records first_seq 0 batch);
  _ ← on_db_wal (wal_append_batch records);
  mret records.

(** [DbInner::write_batch]. *)
Definition db_write_batch (batch : WriteBatch) : DbM unit :=
  _ ← db_health;
  if bool_decide (batch = []) then mret tt
  else
    records ← log_batch batch;
    insert_logged records.

(** [Db::put] and [Db::delete]. *)
Definition db_put (key value : bytes) : DbM unit := db_write key (Some value).
Definition db_delete (key : bytes) : DbM unit := db_write key None.

(** ** Reading *)

(** The loop of [get_at] over the tables, newest first. *)
Fixpoint get_in_tables (tables : list SsTable) (key : bytes) (seq_bound : N) : WM (option bytes) :=
  match tables with
  | [] => mret None
  | t :: tables =>
      r ← sst_get_at (t_reader t) key seq_bound;
      match r with
      | Some record => mret (r_value record)
      | None => get_in_tables tables key seq_bound
      end
  end.

(** The looks of [get_at], each under a lock of its own: the MemTable, the frozen
    MemTable and the list of tables, which is searched without a lock. *)
Definition look_active (key : bytes) (seq_bound : N) : DbM (option Rec) :=
  gets (fun s => mt_get_at key seq_bound (db_active s.1)).
Definition look_frozen (key : bytes) (seq_bound : N) : DbM (option Rec) :=
  gets (fun s => db_frozen s.1 ≫= mt_get_at key seq_bound).
Definition live_set : DbM (list SsTable) := gets (fun s => db_sstables s.1).
Definition search_tables (tables : list SsTable) (key : bytes) (seq_bound : N) : DbM (option bytes) :=
  on_world (get_in_tables (reverse tables) key seq_bound).

(** [DbInner::get_at]. *)
Definition db_get_at (key : bytes) (seq_bound : N) : DbM (option bytes) :=
  _ ← db_health;
  found ← look_active key seq_bound;
  match found with
  | Some record => mret (r_value record)
  | None =>
      found ← look_frozen key seq_bound;
      match found with
      | Some record => mret (r_value record)
      | None => tables ← live_set; search_tables tables key seq_bound
      end
  end.

(** [Db::get]. *)
Definition db_get (key : bytes) : DbM (option bytes) := db_get_at key U64_MAX.

(** The looks of [scan_at]: the ranges of the two MemTables are copied out, and the
    list of tables is merged with them without a lock. *)
Definition copy_active (start fin : option bytes) : DbM (list Rec) :=
  gets (fun s => mt_range start fin (db_active s.1)).
Definition copy_frozen (start fin : option bytes) : DbM (option (list Rec)) :=
  gets (fun s => mt_range start fin <$> db_frozen s.1).
Definition merge_sources (active : list Rec) (frozen : option (list Rec)) (tables : list SsTable)
    (start fin : option bytes) (limit seq_bound : N) : DbM (list (bytes * bytes)) :=
  let from_memtable (records : list Rec) := SVec (inl <$> records) in
  let sources :=
    from_memtable active
      :: match frozen with Some records => [from_memtable records] | None => [] end
      ++ ((fun t => STable (sst_scan (t_reader t) start)) <$> tables) in
  on_world (m ← merge_new sources seq_bound fin; collect m limit).

(** [DbInner::scan_at]. *)
Definition db_scan_at (start fin : option bytes) (limit seq_bound : N)
    : DbM (list (bytes * bytes)) :=
  _ ← db_health;
  if limit =? 0 then mret []
  else
    active ← copy_active start fin;
    frozen ← copy_frozen start fin;
    tables ← live_set;
    merge_sources active frozen tables start fin limit seq_bound.

(** [Db::scan]. *)
Definition db_scan (start fin : option bytes) (limit : N) : DbM (list (bytes * bytes)) :=
  db_scan_at start fin limit U64_MAX.

(** ** Snapshots *)

(** [*snapshots.entry(horizon).or_insert(0) += 1]. *)
Fixpoint snap_add (h : N) (l : list (N * N)) : list (N * N) :=
  match l with
  | [] => [(h, 1)]
  | (k, c) :: l' =>
      if h <? k then (h, 1) :: l
      else if h =? k then (k, c + 1) :: l'
      else (k, c) :: snap_add h l'
  end.

Fixpoint snap_remove (h : N) (l : list (N * N)) : list (N * N) :=
  match l with
  | [] => []
  | (k, c) :: l' =>
      if h =? k then (if c - 1 =? 0 then l' else (k, c - 1) :: l')
      else (k, c) :: snap_remove h l'
  end.

(** [Db::snapshot] takes two steps: it loads the counter, and it registers what it
    loaded.  No lock spans the two, so in the code another thread can come between
    them; [db_snapshot] is the call with no other thread in it. *)
Definition snapshot_load : DbM N := gets (fun s => db_next_seq s.1).
Definition snapshot_register (horizon : N) : DbM unit :=
  update (fun d => set_db_snapshots (snap_add horizon (db_snapshots d)) d).
Definition db_snapshot : DbM N :=
  horizon ← snapshot_load;
  _ ← snapshot_register horizon;
  mret horizon.

(** [Drop for Snapshot]. *)
Definition snapshot_drop (horizon : N) : DbM unit :=
  update (fun d => set_db_snapshots (snap_remove horizon (db_snapshots d)) d).

(** [DbInner::min_snapshot_seq]. *)
Definition min_snapshot_seq (d : DbInner) : N :=
  match db_snapshots d with
  | (h, _) :: _ => h
  | [] => U64_MAX
  end.

(** ** Flushing *)

(** The WAL rewrite at the end of [flush_impl]. *)
Definition rewrite_wal : DbM unit :=
  d ← gets fst;
  fresh ← on_db_fs (
    fresh ← wal_create (join (db_dir d) WAL_TMP_FILENAME) (o_sync_wal (db_opts d));
    '(_, fresh) ← with_wal fresh (
      _ ← for_each (mt_iter (db_active d)) wal_append;
      _ ← wal_sync_all;
      wal_rename_to (join (db_dir d) WAL_FILENAME));
    _ ← sync_dir (db_dir d);
    mret fresh);
  update (set_db_wal fresh).

(** The sections of a flush, all under the flush lock.  The MemTable is swapped for
    a fresh one and put into the frozen slot under its write lock. *)
Definition flush_freeze : DbM (option MemTable) :=
  d ← gets fst;
  if mt_is_empty (db_active d) then mret None
  else
    let frozen := db_active d in
    _ ← update (set_db_active (mt_new (o_memtable_threshold (db_opts d))));
    _ ← update (set_db_frozen (Some frozen));
    mret (Some frozen).

(** The table is written, named, opened and recorded in the manifest. *)
Definition flush_table (frozen : MemTable) : DbM SsTable :=
  d ← gets fst;
  let id := db_next_sst_id d in
  _ ← update (set_db_next_sst_id (as_u64 (id + 1)));
  let final_path := sst_path (db_dir d) id in
  let tmp_path := sst_tmp_path (db_dir d) id in
  _ ← on_db_fs (sst_write tmp_path (mt_iter frozen));
  _ ← on_db_fs (rename tmp_path final_path);
  _ ← on_db_fs (sync_dir (db_dir d));
  reader ← on_world (sst_open final_path (o_bloom_enabled (db_opts d)));
  next_sst_id ← gets (fun s => db_next_sst_id s.1);
  next_seq ← gets (fun s => db_next_seq s.1);
  _ ← on_db_manifest (manifest_append_batch
    [AddTable id; SetNextSstId next_sst_id; SetNextSeq next_seq]);
  mret (mkSst id reader).

(** The table joins the live set; later the frozen slot is cleared. *)
Definition flush_publish (t : SsTable) : DbM unit :=
  update (fun d => set_db_sstables (db_sstables d ++ [t]) d).
Definition flush_retire : DbM unit :=
  _ ← update (set_db_frozen None);
  send_compact CompactRun.

(** [DbInner::flush_impl]. *)
Definition flush_impl : DbM unit :=
  frozen ← flush_freeze;
  match frozen with
  | None => mret tt
  | Some frozen =>
      t ← flush_table frozen;
      _ ← flush_publish t;
      _ ← rewrite_wal;
      flush_retire
  end.

(** [DbInner::flush_inner]. *)
Definition flush_inner : DbM unit :=
  _ ← db_health;
  latching flush_impl.

(** [Db::flush_only]. *)
Definition db_flush_only : DbM unit := flush_inner.

(** [DbInner::flush_is_due] and [DbInner::compaction_is_due]. *)
Definition flush_is_due (d : DbInner) : bool :=
  if db_frozen d is Some _ then true
  else negb (mt_is_empty (db_active d)) && mt_is_full (db_active d).
Definition compaction_is_due (d : DbInner) : bool :=
  o_compaction_threshold (db_opts d) <=? len (db_sstables d).

(** ** Compaction *)

(** How many of the tiers from the front equal [t]. *)
Fixpoint tier_run (t : N) (tiers : list N) : nat :=
  match tiers with
  | [] => 0
  | u :: tiers => if u =? t then S (tier_run t tiers) else 0
  end.

(** The loop of [pick_compaction] from position [i]; a turn takes a tier. *)
Fixpoint pick_run (fuel : nat) (tiers : list N) (i threshold : N) : option (N * N) :=
  match tiers, fuel with
  | t :: _, S fuel =>
      let n := tier_run t tiers in
      let j := i + N.of_nat n in
      if threshold <=? j - i then Some (i, j) else pick_run fuel (drop n tiers) j threshold
  | _, _ => None
  end.

(** [pick_compaction].  [64 - len.leading_zeros()] is the bit width. *)
Definition pick_compaction (tables : list SsTable) (threshold : N) : FsM (option (N * N)) :=
  if len tables <? threshold then mret None
  else
    tiers ← map_each tables (fun t => n ← path_size (rd_path (t_reader t)); mret (N.size n));
    mret (pick_run (length tiers) tiers 0 threshold).

(** [cur.iter().position(|t| t.id == id)]. *)
Fixpoint position_of (id : N) (tables : list SsTable) (i : N) : option N :=
  match tables with
  | [] => None
  | t :: tables => if t_id t =? id then Some i else position_of id tables (i + 1)
  end.

(** Splice the merged table into the live set in the place of the run. *)
Definition splice_run (cur : list SsTable) (run_len max_id : N) (reader : SsTableReader)
    : outcome (list SsTable) :=
  end_pos ← ok_or (position_of max_id cur 0)
    (Corrupt ("compacted run vanished from the live set: sst " +:+ pretty max_id));
  start_pos ← sub_u64 (end_pos + 1) run_len;
  _ ← sub_u64 (len cur) run_len;
  lo ← slice cur 0 start_pos;
  hi ← slice cur (end_pos + 1) (len cur);
  Ok (lo ++ mkSst max_id reader :: hi).

(** The first half of [DbInner::compact_step_impl], without the flush lock: pick a
    run and merge it into a file under a temporary name. *)
Definition merge_picked (tables : list SsTable) : DbM (option (list SsTable * N)) :=
  d ← gets fst;
  picked ← on_db_fs (pick_compaction tables (o_compaction_threshold (db_opts d)));
  match picked with
  | None => mret None
  | Some (start, fin) =>
      run ← lift (slice tables start fin);
      match last run with
      | None => mret None
      | Some last =>
          let max_id := t_id last in
          first ← lift (index run 0);
          oldest ← lift (index tables 0);
          let drop_tombstones := t_id first =? t_id oldest in
          let min_seq := min_snapshot_seq d in
          let tmp_path := sst_tmp_path (db_dir d) max_id in
          _ ← on_world (compact tmp_path (t_reader <$> run) drop_tombstones min_seq);
          mret (Some (run, max_id))
      end
  end.
Definition merge_run : DbM (option (list SsTable * N)) :=
  tables ← live_set;
  merge_picked tables.

(** The second half, under the flush lock: publish the merged table in the place
    of the run. *)
Definition publish_run (run : list SsTable) (max_id : N) : DbM unit :=
  d ← gets fst;
  let final_path := sst_path (db_dir d) max_id in
  let tmp_path := sst_tmp_path (db_dir d) max_id in
  _ ← on_db_fs (rename tmp_path final_path);
  _ ← on_db_fs (sync_dir (db_dir d));
  reader ← on_world (sst_open final_path (o_bloom_enabled (db_opts d)));
  let stale_ids := t_id <$> take (length run - 1) run in
  _ ← on_db_manifest (manifest_append_batch (DeleteTable <$> stale_ids));
  cur ← gets (fun s => db_sstables s.1);
  next ← lift (splice_run cur (len run) max_id reader);
  _ ← update (set_db_sstables next);
  _ ← for_each stale_ids (fun id => on_db_fs (remove (sst_path (db_dir d) id)));
  on_db_fs (sync_dir (db_dir d)).

(** [DbInner::compact_step_impl]. *)
Definition compact_step_impl : DbM bool :=
  merged ← merge_run;
  match merged with
  | None => mret false
  | Some (run, max_id) => _ ← publish_run run max_id; mret true
  end.

(** [DbInner::compact_step]. *)
Definition compact_step : DbM bool :=
  _ ← db_health;
  latching compact_step_impl.

(** [while self.inner.compact_step()? {}], for at most [fuel] turns. *)
Fixpoint compact_while (fuel : nat) : DbM unit :=
  match fuel with
  | O => lift Panic
  | S fuel =>
      more ← compact_step;
      if more : bool then compact_while fuel else mret tt
  end.

(** [Db::flush].  A step that merges leaves fewer tables when the threshold is
    at least two, so a turn per table and one more are enough then. *)
Definition db_flush : DbM unit :=
  _ ← flush_inner;
  n ← gets (fun s => length (db_sstables s.1));
  compact_while (S n).

(** [Db::maintain] and [Db::pending_work]. *)
Definition db_maintain : DbM bool :=
  due ← gets (fun s => flush_is_due s.1);
  if due : bool then _ ← flush_inner; mret true
  else compact_step.
Definition pending_work (d : DbInner) : bool := flush_is_due d || compaction_is_due d.

(** [Db::sstable_count]. *)
Definition sstable_count (d : DbInner) : N := len (db_sstables d).

(** ** Checkpoints *)

(** What [DbInner::checkpoint] does after the flush. *)
Definition checkpoint_files (dir : string) : DbM unit :=
  _ ← on_db_fs (create_dir_all dir);
  entries ← on_db_fs (list_dir dir);
  if negb (bool_decide (entries = [])) then
    fail (Corrupt (dir +:+ " is not empty; refusing to write a checkpoint over it"))
  else
    d ← gets fst;
    let tables := db_sstables d in
    _ ← for_each tables (fun t =>
          on_db_fs (hard_link (sst_path (db_dir d) (t_id t)) (sst_path dir (t_id t))));
    let st := mkState (foldr set_insert [] (t_id <$> tables)) (db_next_seq d) (db_next_sst_id d) in
    _ ← on_db_fs (write_fresh dir st);
    on_db_fs (sync_dir dir).

(** [DbInner::checkpoint]. *)
Definition db_checkpoint (dir : string) : DbM unit :=
  _ ← db_health;
  _ ← flush_inner;
  checkpoint_files dir.

(** ** Opening *)

Fixpoint sort_insert (x : N) (l : list N) : list N :=
  match l with
  | [] => [x]
  | y :: l' => if x <=? y then x :: l else y :: sort_insert x l'
  end.
Definition sort_ids (l : list N) : list N := foldr sort_insert [] l.

(** [Db::migrate_dir]. *)
Definition migrate_dir (dir : string) : FsM (Manifest * ManifestState) :=
  paths ← list_dir dir;
  let sst_ids := sort_ids (omap (fun p => parse_sst_id (p_name p)) paths) in
  next_sst_id ← match last sst_ids with
                | Some id => lift (add_u64 id 1)
                | None => mret 0
                end;
  manifest ← manifest_create dir;
  '(_, manifest) ← with_manifest manifest
    (manifest_append_batch (SetNextSstId next_sst_id :: (AddTable <$> sst_ids)));
  mret (manifest, mkState (foldr set_insert [] sst_ids) 0 next_sst_id).

(** The reclamation loop of [assemble]. *)
Definition reclaim (dir : string) (live : list N) (path : Path) : FsM unit :=
  if bool_decide (path = lock_path dir) then mret tt
  else
    let name := p_name path in
    match parse_sst_id name with
    | Some id => if bool_decide (id ∈ live) then mret tt else remove path
    | None =>
        if ends_with (bytes_of_string ".db.tmp") (bytes_of_string name)
           || bool_decide (name = WAL_TMP_FILENAME)
        then remove path else mret tt
    end.

(** The loop of [assemble] over the replayed records. *)
Fixpoint replay_into (records : list Rec) (m : MemTable) (next_seq : N) : outcome (MemTable * N) :=
  match records with
  | [] => Ok (m, next_seq)
  | record :: records =>
      s ← add_u64 (r_seq record) 1;
      replay_into records (mt_insert record m) (N.max next_seq s)
  end.

(** What [assemble] does once it has the manifest. *)
Definition load_dir (dir : string) (opts : Options) (lock : Handle) (manifest : Manifest)
    (st : ManifestState) : WM DbInner :=
  paths ← on_files (list_dir dir);
  _ ← on_files (for_each paths (reclaim dir (live_tables st)));
  sstables ← map_each (live_tables st) (fun id =>
    reader ← sst_open (sst_path dir id) (o_bloom_enabled opts);
    mret (mkSst id reader));
  let wal_path := join dir WAL_FILENAME in
  replayed ← on_files (wal_replay wal_path);
  '(memtable, next_seq) ← lift (replay_into replayed (mt_new (o_memtable_threshold opts))
                                  (st_next_seq st));
  wal ← on_files (wal_open_append wal_path (o_sync_wal opts));
  let queue {A} : option (list A) := match o_maintenance opts with Threads => Some [] | Manual => None end in
  mret (mkDb dir opts lock wal memtable None sstables (st_next_sst_id st) next_seq manifest
          [] queue queue None).

(** Everything [assemble] does once it holds the lock. *)
Definition recover (dir : string) (opts : Options) (lock : Handle) : WM DbInner :=
  '(manifest, st) ← on_files (
    e ← manifest_exists dir;
    if e : bool then manifest_open dir else migrate_dir dir);
  load_dir dir opts lock manifest st.

(** [Db::assemble] with [open_on] (the threads' queues) or [open_manual] (none).
    An error drops the lock. *)
Definition db_open (dir : string) (opts : Options) : WM DbInner :=
  _ ← on_files (create_dir_all dir);
  lock ← on_files (dir_lock_acquire dir);
  r ← attempt (recover dir opts lock);
  match r with
  | inl d => mret d
  | inr e => _ ← on_files (dir_lock_drop lock); fail e
  end.
Definition db_open_manual (dir : string) (opts : Options) : WM DbInner :=
  db_open dir (mkOptions (o_memtable_threshold opts) (o_sync_wal opts) (o_compaction_threshold opts)
                 (o_bloom_enabled opts) Manual).

(** ** The background threads *)

(** A turn of [worker_loop]: [None] is left of the queue when the loop ends. *)
Definition worker_turn : DbM unit :=
  q ← gets (fun s => db_tasks s.1);
  match q with
  | Some (TaskShutdown :: _) => update (set_db_tasks None)
  | Some (TaskFlush :: q) =>
      _ ← update (set_db_tasks (Some q));
      r ← attempt flush_inner;
      match r with
      | inl _ => mret tt
      | inr _ => update (set_db_tasks None)
      end
  | _ => mret tt
  end.

(** A turn of [compaction_loop]: an error of a step ends the inner loop only. *)
Definition compactor_turn : DbM unit :=
  q ← gets (fun s => db_compact s.1);
  match q with
  | Some (CompactShutdown :: _) => update (set_db_compact None)
  | Some (CompactRun :: q) =>
      _ ← update (set_db_compact (Some q));
      n ← gets (fun s => length (db_sstables s.1));
      ignore (compact_while (S n))
  | _ => mret tt
  end.

(** ** Dropping the handle *)

(** Joining a thread: it takes turns until it has ended, at most [fuel] of them. *)
Fixpoint join_thread (ended : DbInner -> bool) (turn : DbM unit) (fuel : nat) : DbM unit :=
  e ← gets (fun s => ended s.1);
  if e : bool then mret tt
  else match fuel with
    | O => lift Panic
    | S fuel => _ ← turn; join_thread ended turn fuel
    end.

Definition ended {A} (q : option A) : bool := if q is None then true else false.
Definition pending {A} (q : option (list A)) : nat := length (default [] q).

(** [Drop for Workers].  A turn takes a message, so the messages are turns enough. *)
Definition workers_drop : DbM unit :=
  _ ← send_task TaskShutdown;
  n ← gets (fun s => pending (db_tasks s.1));
  _ ← join_thread (fun d => ended (db_tasks d)) worker_turn n;
  _ ← send_compact CompactShutdown;
  n ← gets (fun s => pending (db_compact s.1));
  join_thread (fun d => ended (db_compact d)) compactor_turn n.

(** Dropping the last reference to a [Db]: the threads, if there are any, then the
    state with the lock. *)
Definition db_drop : DbM unit :=
  d ← gets fst;
  _ ← match o_maintenance (db_opts d) with
      | Threads => workers_drop
      | Manual => mret tt
      end;
  on_db_fs (dir_lock_drop (db_lock d)).
End engine.
