(* ===== verification/Layers.v ===== *)
(** * The layers of the engine

    The state of an open engine as a stack of layers (the MemTable, the frozen
    MemTable, the tables from the newest to the oldest), the invariant of the
    engine, and the relation between the layers and the history of everything
    that was written: every reader that is allowed to look reads the history. *)
From Stdlib Require Import NArith Lia.
From stdpp Require Import base numbers list sorting strings gmap.
From S2P Require Import Prelude Errors FileNames Platform State FileSystem Store Records Versions MemTable.
From S2P Require Import Headers Frames WriteAheadLog Manifest ManifestRecovery.
From S2P Require Import Bloom SsTables TableLayout TableReads Tables Merging Compaction Scans Engine.

Local Open Scope N_scope.

(** ** Worlds that change on disk *)

Section worlds.
Context `{PlatformOk}.

(** Files other than the open tables' may change. *)
Lemma world_ok_touches T w ps s' :
  world_ok T w -> touches ps (w_fs w) s' -> world_ok T (world_set_fs s' w).
Proof.
  intros [Hg Ht] Hto. split; [apply Hto|]. intros id r l Hid.
  destruct (Ht id r l Hid) as [Hc [Hf Hrec [Hi Hb Hn [rest Hd] Hca Hco] Hse]]. split; [done|].
  destruct (touches_sealed _ _ _ Hto _ Hse) as [Hse' Hd'].
  split; [done|done| |done]. split; try done. exists rest. cbn [world_set_fs w_fs]. by rewrite Hd'.
Qed.

Lemma sst_path_not_plain dir id : id <= U64_MAX -> ~ plain (sst_path dir id).
Proof. intros Hid. unfold plain, sst_path; cbn [p_name join]. by rewrite parse_sst_name. Qed.

(** A table that is opened joins the open tables. *)
Lemma wp_world_open T w dir id enabled l :
  world_ok T w -> id <= U64_MAX -> table_records l ->
  (exists d, path_data (w_fs w) (sst_path dir id) = Some d /\ table_bytes l d) ->
  wp (sst_open (sst_path dir id) enabled) w (fun o w' => stays (w_fs w) (w_fs w') /\
    match o with
    | Ok r => world_ok (<[rd_cache r := (r, l)]> T) w' /\ T !! rd_cache r = None /\
        rd_path r = sst_path dir id /\ fs_names (w_fs w') !! sst_path dir id = Some (rd_file r)
    | Err e => io_fault (w_fs w) e /\ world_ok T w'
    | Panic => False
    end).
Proof.
  intros Hw Hid Hl Hd. pose proof Hw as [Hg Ht].
  eapply wp_mono; [apply (wp_open_table _ _ l); [done|apply Hg|done]|].
  intros o w' [Hs Ho]. split; [done|]. pose proof Hs as [(Ei & En & _) _].
  assert (good (w_fs w')) as Hg' by (eapply good_proper; [apply Hs|done]).
  assert (forall (Hcc : forall i, i < w_next_cache w -> w_caches w' !! i = w_caches w !! i)
      (Hnn : w_next_cache w <= w_next_cache w') id r l, T !! id = Some (r, l) -> rd_cache r = id /\ opened w' r l) as Hkeep.
  { clear l Hl Hd Ho. intros Hcc Hnn id' r l Hid'. destruct (Ht id' r l Hid') as [Hc [Hf Hrec Hok Hse]]. split; [done|].
    split; [lia|done| |].
    - destruct Hok as [Hi Hb Hn [rest Hd] Hca Hco].
      assert (cache_of r w' = cache_of r w) as Ec by (unfold cache_of; rewrite Hcc; [done|done]).
      split; try done; [|by rewrite Ec..]. exists rest. by rewrite <- (proj1 Hs).
    - destruct Hse as [H1 H2]. split; [by rewrite <- Ei|by rewrite <- En]. }
  destruct o as [r|e|]; [|split; [apply Ho|]|done].
  - destruct Ho as (Hok & Hc & Hp & _ & _ & Hn & Hnext & Hother).
    assert (T !! rd_cache r = None) as Hnew.
    { destruct (T !! rd_cache r) as [[r' l']|] eqn:E; [|done]. destruct (Ht _ _ _ E) as [Hc' [Hf _ _ _]]. lia. }
    split_and!; [|done|done|by rewrite <- En]. split; [done|].
    intros id' r' l'. rewrite lookup_insert. case_decide as Hdec.
    + intros [= <- <-]. split; [done|]. split; [lia|done|done|].
      rewrite En in Hn. split; [eapply (proj1 Hg'); exact Hn|].
      intros p Hpl E. destruct Hg' as [_ U]. pose proof (U p _ _ Hpl E Hn) as ->.
      by apply (sst_path_not_plain dir id).
    + intros Hid'. apply Hkeep; [|lia|done]. intros i Hi. apply Hother. lia.
  - destruct Ho as (_ & Hcs & Hnc). split; [done|]. intros id' r' l' Hid'.
    apply Hkeep; [by intros; rewrite Hcs|by rewrite Hnc|done].
Qed.
End worlds.

(** ** Appending to the log of an open engine *)

Section wal.
Context `{Platform}.

(** Whatever its buffer holds, an append changes the log's file only. *)
Lemma wal_append_touches p records w s :
  good s -> plain p -> fs_names s !! p = Some (ba_file (wal_file w)) -> wal_counted w = true ->
  exists o w' s', wal_append_batch records (w, s) = (o, (w', s')) /\
    touches [p] s s' /\ fs_names s' = fs_names s /\ ba_file (wal_file w') = ba_file (wal_file w) /\
    wal_path w' = wal_path w /\ wal_counted w' = true /\
    (o = Ok tt \/ exists k, o = Err (Io k)) /\ (quiet s -> o = Ok tt).
Proof.
  intros Hg Hp Hn Hc. unfold wal_append_batch. rewrite bind_gets. cbn [fst].
  destruct w as [b path sync cs counted]. cbn [wal_file wal_path wal_sync wal_cksum wal_counted] in *. subst counted.
  case_bool_decide as Hr.
  { eexists _, _, s. split; [done|]. split; [by apply touches_refl|]. split_and!; try done. by left. }
  cbn [negb andb]. set (pl := batch_payload true records).
  set (xs := [le_bytes 4 (hash cs pl); le_bytes 4 (as_u32 (len pl)); pl]).
  assert (forall st : BufAppend * FsState, (_ ← buf_write (le_bytes 4 (hash cs pl));
      _ ← buf_write (le_bytes 4 (as_u32 (len pl))); _ ← buf_write pl; _ ← buf_flush; buf_sync_as sync) st =
    (_ ← for_each xs buf_write; _ ← buf_flush; buf_sync_as sync) st) as Eprog.
  { intros st. unfold xs. rewrite for_each_cons. apply bind_ext. intros _ s1. rewrite for_each_cons.
    apply bind_ext. intros _ s2. rewrite for_each_cons. apply bind_ext. intros _ s3. done. }
  unfold on_wal_file, zoom. cbn [fst snd wal_file]. rewrite Eprog. clear Eprog.
  destruct (buf_writes_touches p xs b s Hg Hp Hn)
    as (x & o & b1 & s1 & E & Ht & Hnm & Hf & _ & _ & Ho & Hq).
  assert (forall o (b' : BufAppend) s', (_ ← for_each xs buf_write; _ ← buf_flush; buf_sync_as sync) (b, s) = (o, (b', s')) ->
    touches [p] s s' -> fs_names s' = fs_names s -> ba_file b' = ba_file b ->
    (o = Ok tt \/ exists k, o = Err (Io k)) -> (quiet s -> o = Ok tt) ->
    exists o w' s', (let '(o, t) := (_ ← for_each xs buf_write; _ ← buf_flush; buf_sync_as sync) (b, s) in
        (o, (set_wal_file t.1 (mkWal b path sync cs true), t.2))) = (o, (w', s')) /\
      touches [p] s s' /\ fs_names s' = fs_names s /\ ba_file (wal_file w') = ba_file b /\
      wal_path w' = path /\ wal_counted w' = true /\
      (o = Ok tt \/ exists k, o = Err (Io k)) /\ (quiet s -> o = Ok tt)) as Hfin.
  { intros o' b' s' -> ?????. eexists o', _, s'. split; [done|]. by split_and!. }
  destruct Ho as [[-> _]|[k ->]].
  2: { eapply Hfin; [by rewrite (bind_run_err _ _ _ _ _ E)|done..|eauto|done]. }
  destruct (buf_flush_touches p b1 s1 (touches_good _ _ _ Ht) Hp) as
    (x2 & o2 & b2 & s2 & E2 & Ht2 & Hnm2 & Hf2 & _ & _ & Ho2 & Hq2); [congruence|].
  pose proof (touches_trans _ _ _ _ Ht Ht2) as Ht'.
  destruct Ho2 as [(-> & _)|[k ->]].
  2: { eapply Hfin; [rewrite (bind_run_ok _ _ _ _ _ E); by rewrite (bind_run_err _ _ _ _ _ E2)|done|congruence|congruence|eauto|].
    by intros ?%(touches_quiet _ _ _ Ht)%Hq2. }
  assert (wp (sync_as (ba_file b2) sync) s2 (fun o s3 => touches [p] s2 s3 /\ fs_names s3 = fs_names s2 /\
    (o = Ok tt \/ exists k, o = Err (Io k)) /\ (quiet s2 -> o = Ok tt))) as Hs.
  { apply (wp_sync p); [apply Ht2|done|congruence|]. intros o s3 Ht3 Hn3 _ Ho3 Hq3.
    split_and!; try done. eapply touches_mono; [|exact Ht3]. apply list_subseteq_nil. }
  unfold wp in Hs. destruct (sync_as (ba_file b2) sync s2) as [o3 s3] eqn:E3. cbn [fst snd] in Hs.
  destruct Hs as (Ht3 & Hn3 & Ho3 & Hq3).
  eapply (Hfin o3 b2 s3).
  - rewrite (bind_run_ok _ _ _ _ _ E), (bind_run_ok _ _ _ _ _ E2). unfold buf_sync_as. rewrite bind_gets.
    unfold on_fs, zoom. cbn [fst snd]. by rewrite E3.
  - by eapply touches_trans.
  - congruence.
  - congruence.
  - done.
  - by intros ?%(touches_quiet _ _ _ Ht')%Hq3.
Qed.
End wal.

(** ** The invariant of an open engine *)

(** Newer layers first: every version of a layer is newer than those below it. *)
Fixpoint layered (ls : list (list Rec)) : Prop :=
  match ls with
  | [] => True
  | l :: ls => (forall a b, a ∈ l -> b ∈ concat ls -> r_seq b < r_seq a) /\ layered ls
  end.

Lemma layered_app l1 l2 :
  layered (l1 ++ l2) <-> layered l1 /\ layered l2 /\
    (forall a b, a ∈ concat l1 -> b ∈ concat l2 -> r_seq b < r_seq a).
Proof.
  induction l1 as [|l l1 IH]; cbn [app layered concat].
  { split; [intros ?; split_and!; try done; intros a b Ha; by apply elem_of_nil in Ha|by intros (_ & ? & _)]. }
  rewrite IH. split.
  - intros (Hl & Hl1 & Hl2 & Hc). split_and!; try done.
    + intros a b Ha Hb. apply Hl; [done|]. rewrite concat_app. set_solver.
    + intros a b [Ha|Ha]%elem_of_app Hb; [|by apply Hc]. apply Hl; [done|]. rewrite concat_app. set_solver.
  - intros ((Hl & Hl1) & Hl2 & Hc). split_and!; try done.
    + intros a b Ha. rewrite concat_app. intros [Hb|Hb]%elem_of_app; [by apply Hl|]. apply Hc; [set_solver|done].
    + intros a b Ha Hb. apply Hc; [set_solver|done].
Qed.

(** A search from the top finds the newest version. *)
Lemma layered_newest key bound l ls :
  layered (l :: ls) ->
  newest key bound (concat (l :: ls)) =
    match newest key bound l with Some r => Some r | None => newest key bound (concat ls) end.
Proof.
  intros [Hl _]. cbn [concat]. apply newest_layer. intros a b Ha Hb _ _. specialize (Hl a b Ha Hb). lia.
Qed.

Lemma and_iff_compat_l' (A B C : Prop) : (A -> B <-> C) -> A /\ B <-> A /\ C.
Proof. tauto. Qed.

Section invariant.
Context `{PlatformOk}.

Definition table_recs (T : Tables) (t : SsTable) : list Rec := from_option snd [] (T !! rd_cache (t_reader t)).

(** The layers a read looks at, in its order. *)
Definition layers (T : Tables) (d : DbInner) : list (list Rec) :=
  mt_iter (db_active d) :: from_option (fun m => [mt_iter m]) [] (db_frozen d) ++
    (table_recs T <$> reverse (db_sstables d)).

(** A table of the live set, in memory and on disk. *)
Definition table_live (T : Tables) (dir : string) (w : World) (t : SsTable) : Prop :=
  exists l b, T !! rd_cache (t_reader t) = Some (t_reader t, l) /\
    rd_path (t_reader t) = sst_path dir (t_id t) /\
    fs_names (w_fs w) !! sst_path dir (t_id t) = Some (rd_file (t_reader t)) /\
    path_data (w_fs w) (sst_path dir (t_id t)) = Some b /\ table_bytes l b.

(** The manifest on disk names exactly the live tables. *)
Definition manifest_live (T : Tables) (d : DbInner) (w : World) (edits : list VersionEdit) : Prop :=
  let st := apply_edits state_default edits in
  manifest_holds (db_dir d) (db_manifest d) edits (w_fs w) /\ edits <> [] /\
  live_tables st = t_id <$> db_sstables d /\ st_next_sst_id st = db_next_sst_id d /\
  st_next_seq st <= db_next_seq d /\
  forall t r, t ∈ db_sstables d -> r ∈ table_recs T t -> r_seq r < st_next_seq st.

Record db_ok (T : Tables) (d : DbInner) (w : World) : Prop := mkDbOk {
  dk_world : world_ok T w;
  dk_dir : db_dir d ∈ fs_dirs (w_fs w);
  dk_table : forall t, t ∈ db_sstables d -> table_live T (db_dir d) w t;
  dk_ids : StronglySorted N.lt (t_id <$> db_sstables d);
  dk_next_id : forall t, t ∈ db_sstables d -> t_id t < db_next_sst_id d;
  dk_id_max : db_next_sst_id d <= U64_MAX;
  dk_seq_max : db_next_seq d <= U64_MAX;
  dk_active : mt_ok (db_active d);
  dk_frozen : db_frozen d = None;
  dk_failed : db_failed d = None;
  dk_wal : fs_names (w_fs w) !! join (db_dir d) WAL_FILENAME = Some (ba_file (wal_file (db_wal d)));
  dk_wal_path : wal_path (db_wal d) = join (db_dir d) WAL_FILENAME;
  dk_wal_counted : wal_counted (db_wal d) = true;
  dk_manifest : exists edits, manifest_live T d w edits
}.

(** The log holds what the MemTable holds: what a crash now would not lose. *)
Definition log_ok (d : DbInner) (w : World) : Prop :=
  exists batches, wal_holds (db_wal d) (w_fs w) WAL_VERSION batches /\
    Forall (wf_batch true) batches /\
    db_active d = foldl (fun m r => mt_insert r m) (mt_new (o_memtable_threshold (db_opts d))) (concat batches).

(** The bounds that may be read at: of live snapshots, and beyond the last write. *)
Definition live_bound (d : DbInner) (b : N) : Prop := b ∈ (db_snapshots d).*1 \/ db_next_seq d <= b.

(** The layers answer every live reader as the history [hist] of all writes. *)
Record history_ok (hist : list Rec) (T : Tables) (d : DbInner) : Prop := mkHistOk {
  ho_layered : layered (layers T d);
  ho_unique : NoDup (version <$> concat (layers T d));
  ho_sub : forall r, r ∈ concat (layers T d) -> r ∈ hist;
  ho_versions : NoDup (version <$> hist);
  ho_wf : Forall wf_rec hist;
  ho_seq : Forall (fun r => r_seq r < db_next_seq d) hist;
  ho_snapshots : StronglySorted N.lt (db_snapshots d).*1;
  ho_horizons : Forall (fun h => h <= db_next_seq d) (db_snapshots d).*1;
  ho_reads : forall key b, live_bound d b ->
    lookup_at key b (concat (layers T d)) = lookup_at key b hist
}.

(** What others may do to the engine while a compaction merges its run: tables are
    added at the new end only, no reader goes further back than the readers there
    were, and the temporary files of the tables there are stay as they are. *)
Record grows (T : Tables) (s : DbInner * World) (T' : Tables) (s' : DbInner * World) : Prop := mkGrows {
  gr_dir : db_dir s'.1 = db_dir s.1;
  gr_tables : db_sstables s.1 `prefix_of` db_sstables s'.1;
  gr_recs : forall t, t ∈ db_sstables s.1 -> table_recs T' t = table_recs T t;
  gr_bounds : forall b, live_bound s'.1 b -> live_bound s.1 b;
  gr_next_id : db_next_sst_id s.1 <= db_next_sst_id s'.1;
  gr_tmp : forall id, id < db_next_sst_id s.1 -> id <= U64_MAX ->
    path_data (w_fs s'.2) (sst_tmp_path (db_dir s.1) id) = path_data (w_fs s.2) (sst_tmp_path (db_dir s.1) id)
}.

Lemma grows_refl T s : grows T s T s.
Proof. by split. Qed.

Lemma grows_trans T s T1 s1 T2 s2 : grows T s T1 s1 -> grows T1 s1 T2 s2 -> grows T s T2 s2.
Proof.
  intros [D1 P1 R1 B1 N1 F1] [D2 P2 R2 B2 N2 F2]. split; [congruence|by etrans|..|by auto|lia|].
  - intros t Ht. rewrite R2, R1; [done|done|]. destruct P1 as [more ->]. set_solver.
  - intros id Hid Hm. rewrite <- F1, <- D1 by done. apply F2; [lia|done].
Qed.

(** An engine that serves [hist]; once an operation failed for good, every
    operation refuses, and nothing more is said. *)
Definition db_serves (hist : list Rec) (s : DbInner * World) : Prop :=
  db_failed s.1 = None -> exists T, db_ok T s.1 s.2 /\ history_ok hist T s.1.

(** *** Steps that only read *)

Lemma db_ok_quiescent T d w w' :
  db_ok T d w -> world_ok T w' -> quiescent w w' -> db_ok T d w'.
Proof.
  intros [] Hw [[Hs _] _]. pose proof Hs as (Ei & En & _ & Ed & _). split; try done.
  - by rewrite <- Ed.
  - intros t Ht. destruct (dk_table0 t Ht) as (l & b & ? & ? & ? & ? & ?). exists l, b.
    rewrite <- En, <- Hs. done.
  - by rewrite <- En.
  - destruct dk_manifest0 as (edits & Hm & Hrest). exists edits. split; [|done].
    destruct Hm. split; try done; [by rewrite <- En|by rewrite <- Hs..].
Qed.

Lemma log_ok_stays d w w' : log_ok d w -> stays (w_fs w) (w_fs w') -> log_ok d w'.
Proof.
  intros (batches & (Hv & Hn & Hi & Hb & Hc & Hct & Hd) & Hwf & E) [Hs _]. pose proof Hs as (Ei & En & _).
  exists batches. split_and!; try done. unfold wal_holds. by rewrite <- Ei, <- En, <- Hs.
Qed.

(** ** Reading *)

Lemma table_recs_live T dir w t : table_live T dir w t -> T !! rd_cache (t_reader t) = Some (t_reader t, table_recs T t).
Proof. intros (l & b & E & _). unfold table_recs. by rewrite E. Qed.

(** The search over the tables. *)
Lemma wp_get_in_tables T tables w key bound :
  world_ok T w ->
  (forall t, t ∈ tables -> T !! rd_cache (t_reader t) = Some (t_reader t, table_recs T t)) ->
  layered (table_recs T <$> tables) ->
  wp (get_in_tables tables key bound) w (fun o w' => world_ok T w' /\ quiescent w w' /\
    match o with
    | Ok x => x = lookup_at key bound (concat (table_recs T <$> tables))
    | Err e => io_fault (w_fs w) e
    | Panic => False
    end).
Proof.
  intros Hw Ht Hl. revert w Hw. induction tables as [|t tables IH]; intros w Hw; cbn [get_in_tables].
  { apply wp_ret. by split. }
  rewrite fmap_cons in Hl |- *. apply wp_bind.
  eapply wp_mono; [eapply (wp_world_get T); [done|apply Ht; by left]|].
  intros [x|e|] w1 (Hw1 & Hq1 & Ho); cbn [then_wp]; [|done|done]. subst x.
  unfold lookup_at. rewrite layered_newest by done.
  destruct (newest key bound (table_recs T t)) as [r|]; [by apply wp_ret|].
  eapply wp_mono; [apply IH; [by intros; apply Ht; right|apply Hl|done]|].
  intros o w2 (? & ? & Ho). split; [done|]. split; [by etrans|]. destruct o; try done.
  eapply io_fault_stays; [apply Hq1|done].
Qed.

(** Whoever holds a list of open tables may search it. *)
Lemma wp_search_tables T tables d w key bound :
  world_ok T w ->
  (forall t, t ∈ tables -> T !! rd_cache (t_reader t) = Some (t_reader t, table_recs T t)) ->
  layered (table_recs T <$> reverse tables) ->
  wp (search_tables tables key bound) (d, w) (fun o s' => s'.1 = d /\ world_ok T s'.2 /\ quiescent w s'.2 /\
    match o with
    | Ok x => x = lookup_at key bound (concat (table_recs T <$> reverse tables))
    | Err e => io_fault (w_fs w) e
    | Panic => False
    end).
Proof.
  intros Hw Ht Hl. unfold search_tables, on_world. apply wp_zoom. cbn [fst snd].
  eapply wp_mono; [apply (wp_get_in_tables T); [done| |done]|].
  { intros t Hin. apply Ht. by apply elem_of_reverse. }
  by intros o w'.
Qed.

(** What a search from the top needs.  A version may be in the MemTable and in a table,
    as after a crash before the log was rewritten. *)
Definition stacked (T : Tables) (d : DbInner) : Prop :=
  (forall a x, a ∈ mt_iter (db_active d) -> x ∈ concat (table_recs T <$> reverse (db_sstables d)) ->
     r_seq x < r_seq a \/ x ∈ mt_iter (db_active d)) /\
  layered (table_recs T <$> reverse (db_sstables d)).

Lemma layered_stacked T d : db_frozen d = None -> layered (layers T d) -> stacked T d.
Proof. unfold layers. intros ->. cbn [from_option app layered]. intros [Hl Ht]. split; [by left; apply Hl|done]. Qed.

Lemma stacked_newest T d key b :
  stacked T d ->
  newest key b (mt_iter (db_active d) ++ concat (table_recs T <$> reverse (db_sstables d))) =
    match newest key b (mt_iter (db_active d)) with
    | Some r => Some r
    | None => newest key b (concat (table_recs T <$> reverse (db_sstables d)))
    end.
Proof.
  intros [Hs _]. rewrite newest_app. destruct (newest key b (mt_iter (db_active d))) as [r|] eqn:Er; [|done].
  destruct (newest key b (concat _)) as [x|] eqn:Ex; [|done]. apply newest_some in Er as (Hr & _ & Hmax), Ex as (Hx & Hv & _).
  destruct (N.ltb_spec (r_seq r) (r_seq x)) as [Hlt|]; [|done]. exfalso.
  destruct (Hs r x Hr Hx) as [?|Hin]; [lia|]. specialize (Hmax x Hin Hv). lia.
Qed.

(** [get_at] reads the layers. *)
Lemma wp_db_get_at T d w key bound :
  db_ok T d w -> stacked T d ->
  wp (db_get_at key bound) (d, w) (fun o s' => s'.1 = d /\ db_ok T d s'.2 /\ quiescent w s'.2 /\
    match o with
    | Ok x => x = lookup_at key bound (concat (layers T d))
    | Err e => io_fault (w_fs w) e
    | Panic => False
    end).
Proof.
  intros Hok Hl. pose proof Hok as []. unfold db_get_at, db_health. apply wp_bind, wp_bind, wp_gets.
  cbn [then_wp fst]. rewrite dk_failed0. apply wp_ret. cbn [then_wp].
  unfold look_active, look_frozen, live_set. apply wp_bind, wp_gets. cbn [then_wp fst].
  unfold lookup_at, layers. rewrite dk_frozen0. cbn [from_option app concat].
  rewrite mt_get_at_newest by done. rewrite stacked_newest by done. change (mt_map (db_active d)) with (mt_iter (db_active d)).
  destruct (newest key bound (mt_iter (db_active d))) as [r|]; [by apply wp_ret|].
  apply wp_bind, wp_gets. cbn [then_wp fst]. rewrite dk_frozen0. cbn [mbind option_bind].
  apply wp_bind, wp_gets. cbn [then_wp fst].
  eapply wp_mono; [apply (wp_search_tables T); [done| |apply Hl]|].
  { intros t Ht. by eapply table_recs_live, dk_table0. }
  intros o [d' w'] (-> & Hw' & Hq & Ho). cbn [fst snd] in *. split; [done|].
  split; [by apply (db_ok_quiescent T d w)|]. by split.
Qed.

Lemma concat_table_elem T ts x :
  x ∈ concat (table_recs T <$> ts) <-> exists t, t ∈ ts /\ x ∈ table_recs T t.
Proof.
  rewrite list_elem_of_In, in_concat. setoid_rewrite <- list_elem_of_In. split.
  - intros (l & (t & -> & Ht)%list_elem_of_fmap & Hx). eauto.
  - intros (t & Ht & Hx). exists (table_recs T t). split; [|done]. by apply list_elem_of_fmap_2.
Qed.

(** Merging copies of MemTables and a list of open tables that together hold the
    versions [l] of the range. *)
Lemma wp_merge_sources T d w active frozen tables start fin limit bound l :
  let inside r := r ∈ active \/ r ∈ default [] frozen \/ exists t, t ∈ tables /\ r ∈ table_recs T t in
  world_ok T w ->
  (forall t, t ∈ tables -> T !! rd_cache (t_reader t) = Some (t_reader t, table_recs T t)) ->
  run_sorted active -> run_sorted (default [] frozen) ->
  (forall r, r ∈ active ++ default [] frozen -> in_range start fin (r_key r) = true) ->
  versions_unique l -> (forall r, inside r -> r ∈ l) ->
  (forall r, r ∈ l -> in_range start fin (r_key r) = true -> inside r) -> 0 < limit ->
  wp (merge_sources active frozen tables start fin limit bound) (d, w) (fun o s' =>
    s'.1 = d /\ world_ok T s'.2 /\ quiescent w s'.2 /\
    match o with
    | Ok x => x = take (N.to_nat limit) (scan_ref bound start fin l)
    | Err e => io_fault (w_fs w) e
    | Panic => False
    end).
Proof.
  intros inside Hw Hlive Hsa Hsf Hrange Hu Hsub Hcov Hlim.
  set (keep := fun l : list Rec => filter (fun r => from_start start (r_key r) = true) l).
  set (ls := active :: (match frozen with Some f => [f] | None => [] end) ++ (keep <$> (table_recs T <$> tables))).
  assert (forall x, x ∈ concat ls <-> inside x /\ from_start start (r_key x) = true) as Hin.
  { intros x. unfold ls. cbn [concat]. rewrite concat_app, !elem_of_app.
    assert (x ∈ concat (keep <$> (table_recs T <$> tables)) <-> (exists t, t ∈ tables /\ x ∈ table_recs T t) /\ from_start start (r_key x) = true) as ->.
    { rewrite <- concat_table_elem. unfold keep. induction (table_recs T <$> tables) as [|y ys IH]; [set_solver|].
      cbn [fmap list_fmap concat]. rewrite !elem_of_app, IH, list_elem_of_filter. naive_solver. }
    assert (x ∈ concat (match frozen with Some f => [f] | None => [] end) <-> x ∈ default [] frozen) as ->.
    { destruct frozen; cbn [concat default from_option id]; by rewrite ?app_nil_r. }
    assert (x ∈ active \/ x ∈ default [] frozen -> from_start start (r_key x) = true) as HP; [|unfold inside; tauto].
    intros Hx. assert (in_range start fin (r_key x) = true) as Hr by (apply Hrange; set_solver).
    by apply andb_true_iff in Hr as [? _]. }
  assert (versions_unique (concat ls)) as Huls.
  { apply (versions_unique_sub l); [|done]. intros r Hr. by apply Hsub, Hin. }
  assert (is_scan bound fin None (concat ls) (scan_ref bound start fin l)) as Hscan.
  { destruct (scan_ref_is_scan bound start fin l) as [Hs He]. split; [done|].
    intros k v. rewrite He. do 2 (apply and_iff_compat_l'; intros ?). unfold lookup_at.
    rewrite (newest_elem_of k bound _ (concat ls)); [done| | |done].
    - apply (versions_unique_sub l); [|done]. intros r. rewrite list_elem_of_filter. by intros [_ ?].
    - intros r [Ek _]%visible_spec. rewrite list_elem_of_filter, Hin. specialize (Hcov r). unfold in_range in Hcov.
      rewrite Ek in *. destruct (from_start start k), (below_end fin k); naive_solver. }
  unfold merge_sources, on_world. apply wp_zoom. cbn [fst snd].
  eapply wp_mono; [eapply (wp_scan_sources T _ ls w bound fin limit _); [done| | |done|exact Hscan|done]|by intros o w'].
  - unfold ls. constructor; [done|]. apply Forall2_app; [by destruct frozen; repeat constructor|].
    rewrite <- list_fmap_compose. apply Forall2_fmap, Forall_Forall2_diag, Forall_forall.
    intros t Ht. pose proof (Hlive t Ht) as E. exists (rd_cache (t_reader t)), (t_reader t), (table_recs T t).
    split; [done|]. destruct (wo_table _ _ Hw _ _ _ E) as [_ [_ Hrec Hok' _]].
    destruct (sst_scan_spec (t_reader t) (chunk [] (table_recs T t)) w start) as [Hsc Er]; [by apply chunk_ok|done|].
    split; [done|]. rewrite Er, concat_chunk. done.
  - unfold ls. constructor; [done|]. apply Forall_app. split; [by destruct frozen; repeat constructor|].
    apply Forall_fmap, Forall_fmap, Forall_forall. intros t Ht. cbn. apply StronglySorted_filter.
    destruct (wo_table _ _ Hw _ _ _ (Hlive t Ht)) as [_ [_ Hrec _ _]]. apply Hrec.
Qed.

(** [scan_at] reads the layers. *)
Lemma wp_db_scan_at T d w start fin limit bound :
  db_ok T d w -> versions_unique (concat (layers T d)) ->
  wp (db_scan_at start fin limit bound) (d, w) (fun o s' => s'.1 = d /\ db_ok T d s'.2 /\ quiescent w s'.2 /\
    match o with
    | Ok x => x = take (N.to_nat limit) (scan_ref bound start fin (concat (layers T d)))
    | Err e => io_fault (w_fs w) e
    | Panic => False
    end).
Proof.
  intros Hok Hn. pose proof Hok as []. unfold db_scan_at, db_health. apply wp_bind, wp_bind, wp_gets.
  cbn [then_wp fst]. rewrite dk_failed0. apply wp_ret. cbn [then_wp].
  destruct (N.eqb_spec limit 0) as [->|Hlim]; [by apply wp_ret|].
  unfold copy_active, copy_frozen, live_set. do 3 (apply wp_bind, wp_gets; cbn [then_wp fst]). rewrite dk_frozen0.
  cbn [fmap option_fmap option_map]. rewrite mt_range_spec by done.
  eapply wp_mono; [eapply (wp_merge_sources T); try done|].
  - intros t Ht. by eapply table_recs_live, dk_table0.
  - apply StronglySorted_filter, dk_active0.
  - constructor.
  - intros r. cbn [default from_option id]. rewrite app_nil_r, list_elem_of_filter. by intros [? _].
  - unfold layers. rewrite dk_frozen0. cbn [from_option app concat default id]. intros r.
    rewrite list_elem_of_filter, elem_of_app, concat_table_elem. setoid_rewrite elem_of_reverse. set_solver.
  - unfold layers. rewrite dk_frozen0. cbn [from_option app concat default id]. intros r.
    rewrite list_elem_of_filter, elem_of_app, concat_table_elem. setoid_rewrite elem_of_reverse. naive_solver.
  - lia.
  - intros o [d' w'] (E & Hw' & Hq & Ho). cbn [fst snd] in *. subst d'.
    split_and!; try done. by apply (db_ok_quiescent T d w).
Qed.
End invariant.
