(* ===== verification/Writes.v ===== *)
(** * Writing and snapshots

    [put], [delete], [write_batch], [snapshot] and the drop of a snapshot on an
    engine that serves a history: what each adds to the history, and what an
    I/O error leaves. *)
From Stdlib Require Import NArith Lia.
From stdpp Require Import base numbers list sorting strings gmap.
From S2P Require Import Prelude Errors FileNames Platform State FileSystem Store Records Versions MemTable.
From S2P Require Import Headers Frames WriteAheadLog Manifest ManifestRecovery.
From S2P Require Import Bloom SsTables TableLayout TableReads Tables Merging Compaction Scans Engine Layers.

Local Open Scope N_scope.

(** ** The records of a batch *)

(** The operations of a batch, numbered from [seq]. *)
Fixpoint numbered (seq : N) (ops : WriteBatch) : list Rec :=
  match ops with
  | [] => []
  | (key, value) :: ops => make_record key value seq :: numbered (seq + 1) ops
  end.

Lemma make_record_fields key value seq :
  r_key (make_record key value seq) = key /\ r_value (make_record key value seq) = value /\
  r_seq (make_record key value seq) = seq.
Proof. by destruct value. Qed.

Lemma batch_records_numbered `{Platform} first i ops :
  first + i + len ops <= U64_MAX -> batch_records first i ops = Ok (numbered (first + i) ops).
Proof.
  revert i. induction ops as [|[k v] ops IH]; intros i Hle; cbn [batch_records numbered]; [done|].
  rewrite add_u64_small by (simpl in Hle; lia). obind. rewrite IH by (simpl in Hle; lia). obind.
  by rewrite N.add_assoc.
Qed.

Lemma numbered_seq seq ops r : r ∈ numbered seq ops -> seq <= r_seq r < seq + len ops.
Proof.
  revert seq. induction ops as [|[k v] ops IH]; intros seq; cbn [numbered]; [intros Hr; by apply elem_of_nil in Hr|].
  intros [->|Hr]%elem_of_cons.
  - destruct (make_record_fields k v seq) as (_ & _ & ->). simpl. lia.
  - apply IH in Hr. simpl. lia.
Qed.

Lemma length_numbered seq ops : length (numbered seq ops) = length ops.
Proof. revert seq. induction ops as [|[k v] ops IH]; intros seq; cbn [numbered length]; [done|by rewrite IH]. Qed.

Lemma numbered_unique seq ops : NoDup (version <$> numbered seq ops).
Proof.
  revert seq. induction ops as [|[k v] ops IH]; intros seq; cbn [numbered]; [constructor|].
  rewrite fmap_cons. apply NoDup_cons. split; [|done].
  intros (r & E & Hr)%list_elem_of_fmap. apply numbered_seq in Hr.
  apply (f_equal snd) in E. cbn in E. destruct (make_record_fields k v seq) as (_ & _ & E').
  rewrite E' in E. lia.
Qed.

(** An operation whose key and value fit their length fields. *)
Definition wf_op (op : bytes * option bytes) : Prop :=
  len op.1 <= U32_MAX /\ from_option (fun v => len v) 0 op.2 <= U32_MAX.

Lemma numbered_wf seq ops :
  Forall wf_op ops -> seq + len ops <= U64_MAX -> Forall wf_rec (numbered seq ops).
Proof.
  intros Hops. revert seq. induction Hops as [|[k v] ops [Hk Hv] _ IH]; intros seq Hle; cbn [numbered]; [constructor|].
  constructor; [|apply IH; simpl in Hle; lia].
  unfold wf_rec. destruct (make_record_fields k v seq) as (-> & -> & ->). cbn [fst snd] in *. simpl in Hle.
  split_and!; try done; lia.
Qed.

(** ** The MemTable *)

Lemma mt_insert_perm r m :
  (forall y, y ∈ mt_map m -> version y <> version r) -> mt_map (mt_insert r m) ≡ₚ r :: mt_map m.
Proof.
  intros Hf. rewrite mt_insert_map. induction (mt_map m) as [|x l IH]; cbn [map_insert]; [done|].
  destruct (version_cmp (version r) (version x)) eqn:E; [|done|].
  - apply version_cmp_eq in E. by destruct (Hf x ltac:(by left)).
  - destruct (map_insert r l) as [l' o]. cbn [fst] in *. rewrite IH by (intros; apply Hf; by right).
    apply Permutation_swap.
Qed.

Definition mt_insert_all (records : list Rec) (m : MemTable) : MemTable :=
  foldl (fun m r => mt_insert r m) m records.

Lemma mt_insert_all_ok records m :
  mt_ok m -> Forall (fun r => r_seq r <= U64_MAX) records -> mt_ok (mt_insert_all records m).
Proof.
  intros Hm Hr. revert m Hm. induction Hr as [|r rs Hr _ IH]; intros m Hm; [done|]. cbn. apply IH. by apply mt_insert_ok.
Qed.

Lemma mt_insert_all_threshold records m : mt_threshold (mt_insert_all records m) = mt_threshold m.
Proof.
  revert m. induction records as [|r rs IH]; intros m; [done|]. cbn.
  change (foldl _ (mt_insert r m) rs) with (mt_insert_all rs (mt_insert r m)). by rewrite IH, mt_insert_threshold.
Qed.

Lemma mt_insert_all_perm records m :
  NoDup (version <$> records ++ mt_map m) -> mt_map (mt_insert_all records m) ≡ₚ records ++ mt_map m.
Proof.
  revert m. induction records as [|r rs IH]; intros m Hn; [done|]. cbn.
  change (foldl _ (mt_insert r m) rs) with (mt_insert_all rs (mt_insert r m)).
  cbn [app] in Hn. rewrite fmap_cons in Hn. apply NoDup_cons in Hn as [Hr Hn].
  assert (mt_map (mt_insert r m) ≡ₚ r :: mt_map m) as Hp.
  { apply mt_insert_perm. intros y Hy E. apply Hr. rewrite <- E. apply list_elem_of_fmap_2. set_solver. }
  rewrite IH, Hp; [by rewrite Permutation_middle|].
  rewrite Hp, <- Permutation_middle, fmap_cons. by apply NoDup_cons.
Qed.

(** ** The history grows *)

Section writes.
Context `{PlatformOk}.

(** The layers of an engine with no frozen MemTable. *)
Lemma layers_thawed T d :
  db_frozen d = None -> layers T d = mt_iter (db_active d) :: (table_recs T <$> reverse (db_sstables d)).
Proof. intros E. unfold layers. by rewrite E. Qed.

(** Newer records on top answer first, in the layers and in the history. *)
Lemma lookup_on_top key b recs l :
  (forall a x, a ∈ recs -> x ∈ l -> r_seq x < r_seq a) ->
  lookup_at key b (recs ++ l) =
    match newest key b recs with Some r => r_value r | None => lookup_at key b l end.
Proof.
  intros Hn. unfold lookup_at. rewrite newest_layer; [by destruct (newest key b recs)|].
  intros a x Ha Hx _ _. specialize (Hn a x Ha Hx). lia.
Qed.

Lemma history_write hist T d d' recs :
  history_ok hist T d -> db_frozen d = None -> db_frozen d' = None ->
  db_sstables d' = db_sstables d -> db_snapshots d' = db_snapshots d ->
  db_next_seq d <= db_next_seq d' ->
  mt_map (db_active d') ≡ₚ recs ++ mt_map (db_active d) ->
  NoDup (version <$> recs) -> Forall wf_rec recs ->
  (forall x r, x ∈ hist -> r ∈ recs -> r_seq x < r_seq r) -> (forall r, r ∈ recs -> r_seq r < db_next_seq d') ->
  history_ok (hist ++ recs) T d'.
Proof.
  intros Hh Hf Hf' Et Es Hle Hp Hn Hwf Hnew Hseq. pose proof Hh as [].
  clear Hh.
  rewrite layers_thawed in * by done. rewrite Forall_forall in ho_seq. rewrite Forall_forall in ho_horizons.
  set (tabs := table_recs T <$> reverse (db_sstables d)) in *.
  assert (layers T d' = mt_iter (db_active d') :: tabs) as EL by (rewrite layers_thawed, Et by done; done).
  assert (concat (layers T d') ≡ₚ recs ++ (mt_iter (db_active d) ++ concat tabs)) as HP.
  { rewrite EL. cbn [concat]. unfold mt_iter. by rewrite Hp, app_assoc. }
  assert (forall a x, a ∈ recs -> x ∈ mt_iter (db_active d) ++ concat tabs -> r_seq x < r_seq a) as Hold.
  { intros a x Ha Hx. by apply Hnew; [apply ho_sub|]. }
  assert (forall l, (forall a x, a ∈ recs -> x ∈ l -> r_seq x < r_seq a) -> NoDup (version <$> l) ->
    NoDup (version <$> recs ++ l)) as Hnd.
  { intros l Hl Hnl. rewrite fmap_app. apply NoDup_app. split_and!; [done| |done].
    intros v (a & -> & Ha)%list_elem_of_fmap (x & E & Hx)%list_elem_of_fmap.
    apply (f_equal snd) in E. cbn in E. specialize (Hl a x Ha Hx). lia. }
  assert (NoDup (version <$> recs ++ hist)) as Hnh by (apply Hnd; auto).
  split.
  - rewrite EL. split; [|apply ho_layered]. intros a b Ha Hb. unfold mt_iter in Ha. rewrite Hp in Ha.
    apply elem_of_app in Ha as [Ha|Ha]; [|by apply ho_layered].
    apply Hold; [done|set_solver].
  - rewrite HP. by apply Hnd.
  - intros r. rewrite HP. intros [Hr|Hr]%elem_of_app; [set_solver|]. apply ho_sub in Hr. set_solver.
  - by rewrite (Permutation_app_comm hist).
  - by apply Forall_app.
  - apply Forall_app. split; apply Forall_forall; intros r Hr; [specialize (ho_seq r Hr); lia|by apply Hseq].
  - by rewrite Es.
  - rewrite Es. apply Forall_forall. intros h Hh. specialize (ho_horizons h Hh). lia.
  - intros key b Hb.
    assert (live_bound d b) as Hb' by (destruct Hb as [Hb|Hb]; [left; by rewrite <- Es|right; lia]).
    unfold lookup_at. rewrite (newest_perm key b (concat (layers T d')) _) by first [exact HP|rewrite HP; by apply Hnd].
    rewrite (newest_perm key b (hist ++ recs) (recs ++ hist)) by
      (try apply Permutation_app_comm; by rewrite Permutation_app_comm).
    fold (lookup_at key b (recs ++ (mt_iter (db_active d) ++ concat tabs))).
    fold (lookup_at key b (recs ++ hist)).
    rewrite (lookup_on_top key b recs hist), (lookup_on_top key b recs (mt_iter (db_active d) ++ concat tabs)).
    + specialize (ho_reads key b Hb'). cbn [concat] in ho_reads. by rewrite ho_reads.
    + done.
    + auto.
Qed.

(** The history after numbered records went into the MemTable. *)
Lemma history_insert hist T d d' seq ops :
  history_ok hist T d -> db_frozen d = None -> db_frozen d' = None ->
  db_sstables d' = db_sstables d -> db_snapshots d' = db_snapshots d ->
  (forall x, x ∈ hist -> r_seq x < seq) -> db_next_seq d <= db_next_seq d' ->
  seq + len ops <= db_next_seq d' -> db_next_seq d' <= U64_MAX -> Forall wf_op ops ->
  db_active d' = mt_insert_all (numbered seq ops) (db_active d) ->
  history_ok (hist ++ numbered seq ops) T d' /\
  mt_map (db_active d') ≡ₚ numbered seq ops ++ mt_map (db_active d).
Proof.
  intros Hh Hf Hf' Et Es Hold Hle Hn Hmax Hops Ea. set (recs := numbered seq ops) in *.
  assert (forall r, r ∈ recs -> seq <= r_seq r < seq + len ops) as Hseq by (intros r; apply numbered_seq).
  assert (mt_map (db_active d') ≡ₚ recs ++ mt_map (db_active d)) as Hp; [|split; [|done]].
  { rewrite Ea. apply mt_insert_all_perm. rewrite fmap_app. apply NoDup_app. split_and!; [apply numbered_unique| |].
    - intros v (a & -> & Ha)%list_elem_of_fmap (x & Ex & Hx)%list_elem_of_fmap.
      apply (f_equal snd) in Ex. cbn in Ex. destruct (Hseq a Ha).
      assert (r_seq x < seq); [|lia]. apply Hold, (ho_sub _ _ _ Hh). rewrite layers_thawed by done. cbn [concat]. set_solver.
    - pose proof (ho_unique _ _ _ Hh) as Hu. rewrite layers_thawed in Hu by done. cbn [concat] in Hu.
      rewrite fmap_app in Hu. by apply NoDup_app in Hu as (? & _). }
  apply (history_write hist T d d' recs); try done; [apply numbered_unique|apply numbered_wf; [done|lia]|..].
  - intros x r Hx Hr. specialize (Hold x Hx). specialize (Hseq r Hr). lia.
  - intros r Hr. specialize (Hseq r Hr). lia.
Qed.

(** The engine after its log, MemTable or counter changed. *)
Lemma db_ok_write T d w d' s' :
  db_ok T d w -> touches [join (db_dir d) WAL_FILENAME] (w_fs w) s' ->
  fs_names s' = fs_names (w_fs w) ->
  d' = mkDb (db_dir d) (db_opts d) (db_lock d) (db_wal d') (db_active d') (db_frozen d) (db_sstables d)
         (db_next_sst_id d) (db_next_seq d') (db_manifest d) (db_snapshots d') (db_tasks d') (db_compact d')
         (db_failed d) ->
  mt_ok (db_active d') -> db_next_seq d <= db_next_seq d' <= U64_MAX ->
  ba_file (wal_file (db_wal d')) = ba_file (wal_file (db_wal d)) ->
  wal_path (db_wal d') = wal_path (db_wal d) -> wal_counted (db_wal d') = true ->
  db_ok T d' (world_set_fs s' w).
Proof.
  intros Hok Ht Hn Ed Hm Hseq Hf Hp Hc. pose proof Hok as [].
  rewrite Ed. split; cbn; try done; try lia.
  - by eapply world_ok_touches.
  - by apply (touches_dirs _ _ _ Ht).
  - intros t Hin. destruct (dk_table t Hin) as (l & b & ? & ? & Hnm & Hpd & ?). exists l, b. cbn.
    rewrite Hn. split_and!; try done. rewrite (touches_data _ _ _ Ht); [done|].
    rewrite list_elem_of_singleton. intros E. apply (f_equal p_name) in E. cbn in E. by apply sst_not_wal in E.
  - by rewrite Hn, Hf.
  - by rewrite Hp.
  - destruct dk_manifest as (edits & Hm' & Hne & Hlv & Hni & Hns & Hsq). exists edits.
    split_and!; cbn; try done; [|lia].
    eapply manifest_holds_touches; [exact Ht| | |exact Hm'].
    + rewrite list_elem_of_singleton. by intros [= ?].
    + rewrite list_elem_of_singleton. intros E. apply (f_equal p_name) in E. cbn in E.
      by apply manifest_not_wal in E.
Qed.

(** An engine that works and serves [hist]. *)
Definition serving (hist : list Rec) (T : Tables) (s : DbInner * World) : Prop :=
  db_ok T s.1 s.2 /\ history_ok hist T s.1.

(** What no operation but [snapshot] and its drop changes. *)
Definition same_config (d d' : DbInner) : Prop :=
  db_dir d' = db_dir d /\ db_opts d' = db_opts d /\ db_snapshots d' = db_snapshots d /\
  m_generation (db_manifest d') = m_generation (db_manifest d).

#[export] Instance same_config_preorder : PreOrder same_config.
Proof. split; [by intros d|]. intros a b c (? & ? & ? & ?) (? & ? & ? & ?). split_and!; congruence. Qed.

(** The log of an engine that was to append [recs]: what it held, and a prefix of
    the new frame. *)
Definition log_partial (d : DbInner) (s0 : FsState) (recs : list Rec) (s : FsState) : Prop :=
  exists batches x, Forall (wf_batch true) batches /\ wf_batch true recs /\
    db_active d = mt_insert_all (concat batches) (mt_new (o_memtable_threshold (db_opts d))) /\
    x `prefix_of` frame (wal_checksum (Versioned WAL_VERSION)) true recs /\
    path_data s0 (join (db_dir d) WAL_FILENAME) = Some (wal_image WAL_VERSION batches) /\
    path_data s (join (db_dir d) WAL_FILENAME) = Some (wal_image WAL_VERSION batches ++ x).

Lemma wal_holds_data `{Platform} T d w batches :
  db_ok T d w -> wal_holds (db_wal d) (w_fs w) WAL_VERSION batches ->
  path_data (w_fs w) (join (db_dir d) WAL_FILENAME) = Some (wal_image WAL_VERSION batches).
Proof.
  intros Hok (_ & Hn & _ & _ & _ & _ & Hd). rewrite <- Hd. rewrite (dk_wal_path _ _ _ Hok) in Hn.
  apply path_data_names; [done|apply (dk_world _ _ _ Hok)].
Qed.

(** What a write of [recs] leaves. *)
Definition write_post (hist recs : list Rec) (T : Tables) (d : DbInner) (w : World)
    (o : outcome unit) (s' : DbInner * World) : Prop :=
  same_config d s'.1 /\ db_sstables s'.1 = db_sstables d /\ db_next_sst_id s'.1 = db_next_sst_id d /\ db_next_seq s'.1 = db_next_seq d + len recs /\
  inside (db_dir d) (w_fs w) (w_fs s'.2) /\ grows T (d, w) T s' /\
  match o with
  | Ok _ => serving (hist ++ recs) T s' /\ (log_ok d w -> log_ok s'.1 s'.2)
  | Err e => io_fault (w_fs w) e /\ serving hist T s' /\ db_active s'.1 = db_active d /\
      (log_ok d w -> log_partial d (w_fs w) recs (w_fs s'.2))
  | Panic => False
  end.

Lemma length_payload_sum records : len (batch_payload true records) = 4 + sum_encoded records.
Proof.
  rewrite batch_payload_layout, length_app, <- length_raw_sum. unfold raw_block. cbn [length].
  rewrite length_le_bytes. lia.
Qed.

Lemma wp_send_task t s (Q : outcome unit -> DbInner * World -> Prop) :
  Q (Ok tt) (set_db_tasks (fmap (fun q => q ++ [t]) (db_tasks s.1)) s.1, s.2) -> wp (send_task t) s Q.
Proof. intros HQ. unfold send_task, update. by apply wp_modify. Qed.

(** What an append leaves of the log of [v], whatever it returns. *)
Record log_step (v : DbInner) (w : World) (wl : Wal) (s' : FsState) : Prop := mkLogStep {
  ls_touches : touches [join (db_dir v) WAL_FILENAME] (w_fs w) s';
  ls_names : fs_names s' = fs_names (w_fs w);
  ls_file : ba_file (wal_file wl) = ba_file (wal_file (db_wal v));
  ls_path : wal_path wl = wal_path (db_wal v);
  ls_counted : wal_counted wl = true
}.

(** The log of an engine [d] whose log is that of [v], which works. *)
Lemma wp_append_log T d v w recs (Q : outcome unit -> DbInner * World -> Prop) :
  db_ok T v w -> db_wal d = db_wal v -> wf_batch true recs ->
  (forall wl s', log_step v w wl s' ->
     (forall batches, wal_holds (db_wal v) (w_fs w) WAL_VERSION batches -> wal_holds wl s' WAL_VERSION (batches ++ [recs])) ->
     Q (Ok tt) (set_db_wal wl d, world_set_fs s' w)) ->
  (forall k wl s', log_step v w wl s' -> ~ quiet (w_fs w) ->
     (forall batches, wal_holds (db_wal v) (w_fs w) WAL_VERSION batches -> exists x,
        x `prefix_of` frame (wal_checksum (Versioned WAL_VERSION)) true recs /\
        path_data s' (join (db_dir v) WAL_FILENAME) = Some (wal_image WAL_VERSION batches ++ x)) ->
     Q (Err (Io k)) (set_db_wal wl d, world_set_fs s' w)) ->
  wp (on_db_wal (wal_append_batch recs)) (d, w) Q.
Proof.
  intros [] Ew Hwb HQ Herr. unfold on_db_wal. apply wp_zoom. cbn [fst snd]. rewrite Ew.
  destruct (wal_append_touches (join (db_dir v) WAL_FILENAME) recs (db_wal v) (w_fs w))
    as (o & wl & s' & E & Ht & Hnm & Hf & Hp & Hc & Ho & Hq); [apply dk_world|apply wal_plain|done|done|].
  assert (log_step v w wl s') as Hls by by split.
  assert (forall batches, wal_holds (db_wal v) (w_fs w) WAL_VERSION batches -> (o = Ok tt -> wal_holds wl s' WAL_VERSION (batches ++ [recs])) /\
    exists x, x `prefix_of` frame (wal_checksum (Versioned WAL_VERSION)) true recs /\
      path_data s' (join (db_dir v) WAL_FILENAME) = Some (wal_image WAL_VERSION batches ++ x)) as Hholds.
  { intros batches Hwh.
    destruct (wal_append_batch_holds recs (db_wal v) (w_fs w) WAL_VERSION batches Hwh) as
      (o' & w' & s2 & x & E2 & _ & _ & Hnm2 & Hx & Hd & Hi & Ho' & _); [by rewrite dk_wal_counted|].
    rewrite E in E2. injection E2 as <- <- <-. split.
    - intros ->. by destruct Ho' as [[_ ?]|[? ?]].
    - exists x. split; [done|]. rewrite <- Hd. apply path_data_names; [by rewrite Hnm|apply Ht]. }
  eapply wp_run; [exact E|]. cbn [fst snd]. destruct Ho as [->|[k ->]].
  - apply HQ; [done|]. intros batches Hwh. by apply (Hholds batches).
  - apply Herr; [done|by intros ?%Hq|]. intros batches Hwh. by apply (Hholds batches).
Qed.

(** The engine that logged. *)
Lemma db_ok_log_step T v w wl s' act n tasks :
  db_ok T v w -> log_step v w wl s' -> mt_ok act -> db_next_seq v <= n <= U64_MAX ->
  db_ok T (mkDb (db_dir v) (db_opts v) (db_lock v) wl act (db_frozen v) (db_sstables v) (db_next_sst_id v)
    n (db_manifest v) (db_snapshots v) tasks (db_compact v) (db_failed v)) (world_set_fs s' w).
Proof. intros Hok [] Hact Hn. by eapply db_ok_write. Qed.

Lemma grows_log_step T v w wl s' act n tasks :
  log_step v w wl s' -> db_next_seq v <= n ->
  grows T (v, w) T (mkDb (db_dir v) (db_opts v) (db_lock v) wl act (db_frozen v) (db_sstables v) (db_next_sst_id v)
    n (db_manifest v) (db_snapshots v) tasks (db_compact v) (db_failed v), world_set_fs s' w).
Proof.
  intros [Ht _ _ _ _] Hn. split; cbn; try done.
  - intros b [Hb|Hb]; [by left|right; cbn in *; lia].
  - intros i _ _. rewrite (touches_data _ _ _ Ht); [done|]. rewrite list_elem_of_singleton.
    intros E'. apply (f_equal p_name) in E'. cbn in E'. by apply sst_tmp_not_wal in E'.
Qed.

(** Inserting what was logged. *)
Lemma wp_insert_logged recs d w (Q : outcome unit -> DbInner * World -> Prop) :
  (forall tasks, Q (Ok tt) (set_db_tasks tasks (set_db_active (mt_insert_all recs (db_active d)) d), w)) ->
  wp (insert_logged recs) (d, w) Q.
Proof.
  intros HQ. unfold insert_logged, insert_active, update. apply wp_bind, wp_bind, wp_modify. cbn [then_wp].
  apply wp_gets. cbn [then_wp fst snd]. destruct (mt_is_full _); [apply wp_send_task; apply HQ|apply wp_ret].
  apply (HQ (db_tasks d)).
Qed.

Lemma numbered_batch seq ops :
  ops <> [] -> Forall wf_op ops -> seq + len ops <= U64_MAX -> sum_encoded (numbered seq ops) <= SIZE_LIMIT ->
  wf_batch true (numbered seq ops).
Proof.
  intros Hne Hops Hmax Hsz. pose proof (numbered_wf seq ops Hops Hmax) as Hwf. pose proof (length_numbered seq ops) as Hl.
  split_and!; [|done| |].
  - intros E0. rewrite E0 in Hl. by destruct ops.
  - by rewrite Hl.
  - rewrite length_payload_sum. unfold SIZE_LIMIT, U32_MAX in *. lia.
Qed.

Lemma wp_commit hist T d w ops :
  serving hist T (d, w) -> ops <> [] -> Forall wf_op ops -> db_next_seq d + len ops <= U64_MAX ->
  let recs := numbered (db_next_seq d) ops in
  sum_encoded recs <= SIZE_LIMIT ->
  wp (_ ← on_db_wal (wal_append_batch recs); insert_logged recs)
    (set_db_next_seq (db_next_seq d + len ops) d, w) (write_post hist recs T d w).
Proof.
  intros [Hok Hh] Hne Hops Hmax recs Hsz. cbn [fst snd] in Hok, Hh.
  assert (len recs = len ops) as Hlen by (unfold recs; by rewrite length_numbered).
  pose proof (numbered_batch _ _ Hne Hops Hmax Hsz) as Hwb. fold recs in Hwb.
  assert (forall wl s' o act tasks, log_step d w wl s' ->
    let d' := mkDb (db_dir d) (db_opts d) (db_lock d) wl act (db_frozen d) (db_sstables d) (db_next_sst_id d)
       (db_next_seq d + len ops) (db_manifest d) (db_snapshots d) tasks (db_compact d) (db_failed d) in
    (mt_ok act -> db_ok T d' (world_set_fs s' w) -> match o with
     | Ok _ => history_ok (hist ++ recs) T d' /\ (log_ok d w -> log_ok d' (world_set_fs s' w))
     | Err e => io_fault (w_fs w) e /\ history_ok hist T d' /\ act = db_active d /\
         (log_ok d w -> log_partial d (w_fs w) recs s')
     | Panic => False
     end) -> mt_ok act -> write_post hist recs T d w o (d', world_set_fs s' w)) as Hpost.
  { intros wl s' o act tasks Hls d' Ho Hact.
    assert (db_ok T d' (world_set_fs s' w)) as Hok' by (apply db_ok_log_step; [done|done|done|lia]).
    specialize (Ho Hact Hok'). split; [done|]. split; [done|]. split; [done|]. split; [cbn; lia|].
    split; [eapply touches_inside; [apply Hls|by constructor]|]. split; [apply grows_log_step; [done|lia]|].
    by destruct o; [destruct Ho|destruct Ho as (? & ? & ? & ?)|]. }
  apply wp_bind, (wp_append_log T _ d); [done|done|done|..].
  - intros wl s' Hls Hholds. cbn [then_wp]. apply wp_insert_logged. intros tasks.
    apply (Hpost wl s' (Ok tt) (mt_insert_all recs (db_active d)) tasks Hls).
    2: { apply mt_insert_all_ok; [apply Hok|]. eapply Forall_impl; [apply Hwb|]. by intros r (? & _). }
    intros _ _. split.
    { pose proof (ho_seq _ _ _ Hh) as Hold. rewrite Forall_forall in Hold.
      eapply (history_insert hist T d); try apply Hok; cbn; (done || lia). }
    intros (batches & Hwh & Hbs & Eact). exists (batches ++ [recs]). split; [by apply Hholds|].
    split; [by apply Forall_app; split; [|constructor]|].
    cbn. rewrite concat_app, foldl_app, <- Eact. cbn [concat]. by rewrite app_nil_r.
  - intros k wl s' Hls Hnq Hpart. cbn [then_wp].
    apply (Hpost wl s' (Err (Io k)) (db_active d) (db_tasks d) Hls); [|apply Hok].
    intros _ _. split; [split; [by eexists|done]|]. split; [|split; [done|]].
    + rewrite <- (app_nil_r hist). apply (history_write hist T d _ []); cbn; try done; try apply Hok; [lia|constructor|..];
        intros; by match goal with Hx : _ ∈ [] |- _ => apply elem_of_nil in Hx end.
    + intros (batches & Hwh & Hbs & Eact). destruct (Hpart _ Hwh) as (x & Hx & Hd). exists batches, x.
      split_and!; try done. by eapply wal_holds_data.
Qed.

Lemma wp_health T d w (Q : outcome unit -> DbInner * World -> Prop) :
  db_ok T d w -> Q (Ok tt) (d, w) -> wp db_health (d, w) Q.
Proof.
  intros Hok HQ. unfold db_health. apply wp_bind, wp_gets. cbn [then_wp fst]. rewrite (dk_failed _ _ _ Hok).
  by apply wp_ret.
Qed.

Lemma wp_fetch_seq n d w (Q : outcome N -> DbInner * World -> Prop) :
  db_next_seq d + n <= U64_MAX ->
  Q (Ok (db_next_seq d)) (set_db_next_seq (db_next_seq d + n) d, w) -> wp (fetch_seq n) (d, w) Q.
Proof.
  intros Hn HQ. unfold fetch_seq, update. apply wp_bind, wp_gets. cbn [then_wp fst].
  apply wp_bind, wp_modify. cbn [then_wp fst snd]. apply wp_ret.
  unfold as_u64. rewrite N.mod_small; [done|]. unfold U64_MAX in Hn. lia.
Qed.

(** What [log_batch] and [log_write] do is to append the numbered records. *)
Lemma wp_log_batch ops d w (Q : outcome (list Rec) -> DbInner * World -> Prop) :
  db_next_seq d + len ops <= U64_MAX ->
  let recs := numbered (db_next_seq d) ops in
  wp (on_db_wal (wal_append_batch recs)) (set_db_next_seq (db_next_seq d + len ops) d, w)
    (then_wp (fun _ => mret recs) Q) ->
  wp (log_batch ops) (d, w) Q.
Proof.
  intros Hmax recs Hw. unfold log_batch. apply wp_bind, wp_fetch_seq; [done|]. cbn [then_wp]. apply wp_bind, wp_lift.
  rewrite batch_records_numbered by lia. cbn [then_wp]. rewrite N.add_0_r. by apply wp_bind.
Qed.

Lemma wp_log_write key value d w (Q : outcome (list Rec) -> DbInner * World -> Prop) :
  db_next_seq d + 1 <= U64_MAX ->
  let recs := numbered (db_next_seq d) [(key, value)] in
  wp (on_db_wal (wal_append_batch recs)) (set_db_next_seq (db_next_seq d + 1) d, w)
    (then_wp (fun _ => mret recs) Q) ->
  wp (log_write key value) (d, w) Q.
Proof.
  intros Hmax recs Hw. unfold log_write. apply wp_bind, wp_fetch_seq; [done|]. cbn [then_wp]. unfold wal_append.
  by apply wp_bind.
Qed.

(** [write_batch]. *)
Lemma wp_db_write_batch hist T d w ops :
  serving hist T (d, w) -> Forall wf_op ops -> db_next_seq d + len ops <= U64_MAX ->
  let recs := numbered (db_next_seq d) ops in
  sum_encoded recs <= SIZE_LIMIT ->
  wp (db_write_batch ops) (d, w) (write_post hist recs T d w).
Proof.
  intros Hs Hops Hmax recs Hsz. unfold db_write_batch.
  apply wp_bind, (wp_health T); [apply Hs|]. cbn [then_wp]. case_bool_decide as Hne.
  { apply wp_ret. unfold recs. subst ops. cbn [numbered length]. split; [done|]. split; [done|]. split; [done|]. split; [simpl; lia|].
    split; [done|]. split; [by apply grows_refl|]. by rewrite app_nil_r. }
  apply wp_bind, wp_log_batch; [done|]. eapply wp_mono; [by eapply wp_unbind, wp_commit|].
  by intros [[]|e|] s'.
Qed.

(** [write]: a batch of one. *)
Lemma wp_db_write hist T d w key value :
  serving hist T (d, w) -> wf_op (key, value) -> db_next_seq d + 1 <= U64_MAX ->
  let recs := [make_record key value (db_next_seq d)] in
  sum_encoded recs <= SIZE_LIMIT ->
  wp (db_write key value) (d, w) (write_post hist recs T d w).
Proof.
  intros Hs Hop Hmax recs Hsz. unfold db_write.
  apply wp_bind, (wp_health T); [apply Hs|]. cbn [then_wp].
  apply wp_bind, wp_log_write; [done|]. eapply wp_mono.
  - by eapply wp_unbind, (wp_commit hist T d w [(key, value)]); [|..|repeat constructor; apply Hop| |].
  - by intros [[]|e|] s'.
Qed.
End writes.

(** ** Snapshots *)

(** How many snapshots pin the horizon [h]. *)
Fixpoint snap_count (h : N) (l : list (N * N)) : N :=
  match l with
  | [] => 0
  | (k, c) :: l => if h =? k then c else snap_count h l
  end.

(** The registry [l] counts the live snapshots with horizons [hs]. *)
Definition pins (hs : list N) (l : list (N * N)) : Prop :=
  StronglySorted N.lt l.*1 /\ Forall (fun e => 1 <= e.2) l /\
  forall h, snap_count h l = len (filter (fun x => x = h) hs).

Lemma snap_count_elem h l : Forall (fun e => 1 <= e.2) l -> 0 < snap_count h l <-> h ∈ l.*1.
Proof.
  induction 1 as [|[k c] l Hc _ IH]; cbn [snap_count]; [split; [lia|intros Hh; by apply elem_of_nil in Hh]|].
  rewrite fmap_cons, elem_of_cons. cbn [fst snd] in *. destruct (N.eqb_spec h k) as [->|Hne]; [|rewrite IH]; naive_solver lia.
Qed.

Lemma snap_add_spec h l :
  StronglySorted N.lt l.*1 ->
  StronglySorted N.lt (snap_add h l).*1 /\ (forall x, x ∈ (snap_add h l).*1 <-> x = h \/ x ∈ l.*1) /\
  forall x, snap_count x (snap_add h l) = snap_count x l + if x =? h then 1 else 0.
Proof.
  induction l as [|[k c] l IH]; intros Hs; cbn [snap_add].
  { split_and!; [repeat constructor|set_solver|]. intros x. cbn. by destruct (N.eqb_spec x h). }
  rewrite fmap_cons in Hs. apply StronglySorted_cons in Hs as [Hk Hs]. rewrite Forall_forall in Hk. cbn [fst] in Hk.
  destruct (N.ltb_spec h k) as [Hlt|Hge]; [|destruct (N.eqb_spec h k) as [->|Hne]].
  - split_and!.
    + rewrite !fmap_cons. constructor; [constructor; [done|by apply Forall_forall]|].
      constructor; [done|]. apply Forall_forall. intros x Hx. specialize (Hk x Hx). cbn. lia.
    + intros x. rewrite fmap_cons. set_solver.
    + intros x. cbn [snap_count]. destruct (N.eqb_spec x h) as [->|]; [|lia].
      destruct (N.eqb_spec h k); [lia|]. assert (snap_count h l = 0) as ->; [|lia].
      assert (h ∉ l.*1) as Hn by (intros Hin%Hk; lia). clear -Hn. induction l as [|[k c] l IH]; [done|].
      cbn [snap_count]. rewrite fmap_cons, not_elem_of_cons in Hn. destruct (N.eqb_spec h k); [naive_solver|]. apply IH, Hn.
  - split_and!.
    + rewrite fmap_cons. constructor; [done|by apply Forall_forall].
    + intros x. rewrite fmap_cons. set_solver.
    + intros x. cbn [snap_count]. destruct (N.eqb_spec x k); lia.
  - destruct (IH Hs) as (H1 & H2 & H3). split_and!.
    + rewrite fmap_cons. constructor; [done|]. apply Forall_forall. intros x [->|Hx]%H2; [cbn; lia|by apply Hk].
    + intros x. rewrite !fmap_cons, !elem_of_cons, H2. naive_solver.
    + intros x. cbn [snap_count]. rewrite H3. destruct (N.eqb_spec x k), (N.eqb_spec x h); lia.
Qed.

Lemma snap_add_counts h l : Forall (fun e => 1 <= e.2) l -> Forall (fun e => 1 <= e.2) (snap_add h l).
Proof.
  intros Hc. induction Hc as [|[k c] l Hc Hl IH]; cbn [snap_add]; [by repeat constructor|]. cbn [snd] in Hc.
  destruct (h <? k); [|destruct (h =? k)]; repeat (constructor; [cbn [snd]; lia|]); done.
Qed.

Lemma pins_add h hs l : pins hs l -> pins (h :: hs) (snap_add h l).
Proof.
  intros (Hs & Hc & Hn). destruct (snap_add_spec h l Hs) as (H1 & H2 & H3).
  split_and!; [done|by apply snap_add_counts|]. intros x. rewrite H3, Hn, filter_cons.
  destruct (N.eqb_spec x h) as [->|Hne]; [rewrite decide_True by done; simpl; lia|].
  rewrite decide_False by congruence. lia.
Qed.

Lemma snap_remove_spec h l :
  StronglySorted N.lt l.*1 -> Forall (fun e => 1 <= e.2) l ->
  StronglySorted N.lt (snap_remove h l).*1 /\ Forall (fun e => 1 <= e.2) (snap_remove h l) /\
  (forall x, x ∈ (snap_remove h l).*1 -> x ∈ l.*1) /\
  forall x, snap_count x (snap_remove h l) = snap_count x l - if x =? h then 1 else 0.
Proof.
  induction l as [|[k c] l IH]; intros Hs Hc; cbn [snap_remove].
  { split_and!; [done|done|done|]. intros x. cbn. lia. }
  rewrite fmap_cons in Hs. apply StronglySorted_cons in Hs as [Hk Hs]. cbn [fst] in Hk.
  apply Forall_cons in Hc as [Hc1 Hc]. cbn [snd] in Hc1.
  destruct (IH Hs Hc) as (H1 & H2 & H3 & H4). rewrite Forall_forall in Hk.
  destruct (N.eqb_spec h k) as [->|Hne]; [destruct (N.eqb_spec (c - 1) 0)|].
  - split_and!; [done|done|intros x; rewrite fmap_cons; set_solver|]. intros x. cbn [snap_count].
    destruct (N.eqb_spec x k) as [->|]; [|lia].
    destruct (N.eq_0_gt_0_cases (snap_count k l)) as [->|Hp]; [lia|].
    apply (snap_count_elem k l Hc), Hk in Hp. lia.
  - split_and!; [rewrite fmap_cons; constructor; [done|by apply Forall_forall]|constructor; [cbn; lia|done]|done|].
    intros x. cbn [snap_count]. destruct (N.eqb_spec x k); lia.
  - split_and!.
    + rewrite fmap_cons. constructor; [done|]. apply Forall_forall. intros x Hx%H3. by apply Hk.
    + by constructor.
    + intros x. rewrite !fmap_cons, !elem_of_cons. naive_solver.
    + intros x. cbn [snap_count]. rewrite H4. destruct (N.eqb_spec x k), (N.eqb_spec x h); lia.
Qed.

(** Dropping one of the snapshots at [h]. *)
Lemma pins_remove h hs1 hs2 l : pins (hs1 ++ h :: hs2) l -> pins (hs1 ++ hs2) (snap_remove h l).
Proof.
  intros (Hs & Hc & Hn). destruct (snap_remove_spec h l Hs Hc) as (H1 & H2 & _ & H4). split_and!; [done|done|].
  intros x. rewrite H4, Hn, !filter_app, filter_cons, !length_app.
  destruct (N.eqb_spec x h) as [->|Hne]; [rewrite decide_True by done; simpl; lia|].
  rewrite decide_False by congruence. lia.
Qed.

Lemma pins_elem h hs l : pins hs l -> h ∈ hs -> h ∈ l.*1.
Proof.
  intros (_ & Hc & Hn) Hh. apply (snap_count_elem h l Hc). rewrite Hn.
  assert (h ∈ filter (fun x => x = h) hs) as Hf by by apply list_elem_of_filter.
  destruct (filter (fun x => x = h) hs); [by apply elem_of_nil in Hf|simpl; lia].
Qed.

Section snapshots.
Context `{PlatformOk}.

(** Changing which snapshots are registered, or the queues. *)
Lemma serving_snapshots hist T d w l :
  serving hist T (d, w) -> StronglySorted N.lt l.*1 ->
  (forall x, x ∈ l.*1 -> x = db_next_seq d \/ x ∈ (db_snapshots d).*1) ->
  serving hist T (set_db_snapshots l d, w).
Proof.
  intros [Hok Hh] Hs Hx. cbn [fst snd] in *. split; cbn [fst snd].
  - pose proof Hok as []. by split.
  - pose proof Hh as []. rewrite Forall_forall in ho_horizons. split; cbn; try done.
    + apply Forall_forall. intros x [->|Hin]%Hx; [lia|by apply ho_horizons].
    + intros key b Hb. apply ho_reads. destruct Hb as [Hb|Hb]; [|by right].
      cbn in Hb. destruct (Hx b Hb) as [->|?]; [by right|by left].
Qed.

Lemma wp_db_snapshot hist T d w hs :
  serving hist T (d, w) -> pins hs (db_snapshots d) ->
  wp db_snapshot (d, w) (fun o s' => serving hist T s' /\ s'.2 = w /\ db_next_seq s'.1 = db_next_seq d /\
    db_wal s'.1 = db_wal d /\ db_active s'.1 = db_active d /\ db_opts s'.1 = db_opts d /\ db_dir s'.1 = db_dir d /\
    db_sstables s'.1 = db_sstables d /\ db_next_sst_id s'.1 = db_next_sst_id d /\
    m_generation (db_manifest s'.1) = m_generation (db_manifest d) /\ grows T (d, w) T s' /\
    match o with Ok h => h = db_next_seq d /\ pins (h :: hs) (db_snapshots s'.1) | _ => False end).
Proof.
  intros Hs Hp. unfold db_snapshot, snapshot_load, snapshot_register, update. apply wp_bind, wp_gets. cbn [then_wp fst].
  apply wp_bind, wp_modify. cbn [then_wp fst snd]. apply wp_ret.
  destruct (snap_add_spec (db_next_seq d) (db_snapshots d) (proj1 Hp)) as (H1 & H2 & _).
  split; [|split_and!; try done; [|by apply pins_add]]; [apply serving_snapshots; [done|done|]; intros x; by rewrite H2|].
  split; cbn; try done. intros b [[->|Hb]%H2|Hb]; [by right|by left|by right].
Qed.

Lemma wp_snapshot_drop hist T d w h hs1 hs2 :
  serving hist T (d, w) -> pins (hs1 ++ h :: hs2) (db_snapshots d) ->
  wp (snapshot_drop h) (d, w) (fun o s' => serving hist T s' /\ s'.2 = w /\ db_next_seq s'.1 = db_next_seq d /\
    db_wal s'.1 = db_wal d /\ db_active s'.1 = db_active d /\ db_opts s'.1 = db_opts d /\ db_dir s'.1 = db_dir d /\
    db_sstables s'.1 = db_sstables d /\ db_next_sst_id s'.1 = db_next_sst_id d /\
    m_generation (db_manifest s'.1) = m_generation (db_manifest d) /\ grows T (d, w) T s' /\
    o = Ok tt /\ pins (hs1 ++ hs2) (db_snapshots s'.1)).
Proof.
  intros Hs Hp. unfold snapshot_drop, update. apply wp_modify. cbn [fst snd].
  destruct (snap_remove_spec h (db_snapshots d) (proj1 Hp) (proj1 (proj2 Hp))) as (H1 & _ & H3 & _).
  split; [|split_and!; try done; [|by apply pins_remove]]; [apply serving_snapshots; [done|done|]; intros x Hx%H3; by right|].
  split; cbn; try done. intros b [Hb%H3|Hb]; [by left|by right].
Qed.
End snapshots.
