(* ===== verification/Flushes.v ===== *)
(** * Flushing

    [DbInner::flush_impl] on an engine that serves a history: the MemTable becomes
    a table, the manifest names it, the log is replaced by a fresh one, and every
    reader reads what it read before.  If anything fails the engine is poisoned. *)
From Stdlib Require Import NArith Lia.
From stdpp Require Import base numbers list sorting strings gmap.
From S2P Require Import Prelude Errors FileNames Platform State FileSystem Store Records Versions MemTable.
From S2P Require Import Headers Frames WriteAheadLog Manifest ManifestRecovery.
From S2P Require Import Bloom SsTables TableLayout TableReads Tables Merging Compaction Scans Engine Layers Writes.

Local Open Scope N_scope.

(** ** A fresh log *)

Section fresh_wal.
Context `{Platform}.

Lemma wp_with_wal {A} w0 (m : WalM A) s (Q : outcome (A * Wal) -> FsState -> Prop) :
  wp m (w0, s) (fun o t => match o with
    | Ok a => Q (Ok (a, t.1)) t.2 | Err e => Q (Err e) t.2 | Panic => Q Panic t.2 end) ->
  wp (with_wal w0 m) s Q.
Proof. unfold wp, with_wal. by destruct (m (w0, s)) as [[a|e|] [w' s']]. Qed.

(** [w] is open on a log of [batches] at [p]. *)
Definition wal_fresh (p : Path) (w : Wal) (s : FsState) (batches : list (list Rec)) : Prop :=
  wal_path w = p /\ wal_counted w = true /\ wal_cksum w = wal_checksum (Versioned WAL_VERSION) /\
  ba_buf (wal_file w) = [] /\ fs_names s !! p = Some (ba_file (wal_file w)) /\
  path_data s p = Some (wal_image WAL_VERSION batches).

Lemma wp_wal_create p sync s :
  good s -> plain p ->
  wp (wal_create p sync) s (fun o s' => touches [p] s s' /\
    match o with
    | Ok w => wal_fresh p w s' []
    | Err e => (exists k, e = Io k) /\ (quiet s -> p_dir p ∉ fs_dirs s)
    | Panic => False
    end).
Proof.
  intros Hg Hp. unfold wal_create. set (hdr := encode_header WAL_MAGIC WAL_VERSION).
  apply wp_bind, wp_open_truncate; [done|done|intros k s' Hs Hnd; split; [by apply touches_same|eauto]|].
  intros h s1 Ht1 Hn1 Hd1. cbn [then_wp]. apply wp_bind, wp_with_buf, wp_bind.
  assert (wrote p h s [] (buf_new h, s1)) as Hx0 by (split_and!; try done; exists []; by split).
  eapply wp_mono; [by eapply writing_write|].
  intros [[]|e|] [b2 s2]; cbn [then_wp writing]; [|intros (? & ? & ?); by split_and!|done].
  intros (x & (Ht2 & Hn2 & Hf2 & d & Hd2 & Hx) & ->). cbn [fst snd app] in *.
  destruct (buf_flush_touches p b2 s2 (touches_good _ _ _ Ht2) Hp) as
    (w & o & b3 & s3 & E & Ht3 & Hnm & Hf3 & Hd3 & _ & Ho & Hq); [congruence|].
  pose proof (touches_trans _ _ _ _ Ht2 Ht3) as Ht. eapply wp_run; [exact E|]. cbn [fst snd].
  destruct Ho as [(-> & -> & Hb)|[k ->]]; cbn [then_wp].
  2: { split; [done|]. split; [eauto|]. by intros ?%(touches_quiet _ _ _ Ht2)%Hq. }
  apply wp_ret. split; [done|]. split_and!; try done; cbn [wal_file]; [congruence|].
  rewrite Hd3, Hd2. cbn [fmap option_fmap option_map]. rewrite Hx. unfold wal_image. by rewrite app_nil_r.
Qed.

(** [Wal::sync] with nothing buffered. *)
Lemma wp_wal_sync p w s batches :
  good s -> plain p -> wal_fresh p w s batches ->
  wp wal_sync_all (w, s) (fun o t => touches [] s t.2 /\
    match o with
    | Ok _ => wal_fresh p t.1 t.2 batches
    | Err e => io_fault s e
    | Panic => False
    end).
Proof.
  intros Hg Hp (Hpa & Hc & Hck & Hb & Hn & Hd). unfold wal_sync_all, on_wal_file. apply wp_zoom. cbn [fst snd].
  apply wp_bind. unfold buf_flush. apply wp_bind, wp_gets. cbn [then_wp fst]. rewrite bool_decide_true by done.
  apply wp_ret. cbn [then_wp]. unfold buf_sync_as. apply wp_bind, wp_gets. cbn [then_wp fst].
  unfold on_fs. apply wp_zoom. cbn [fst snd]. apply (wp_sync p); [done|done|done|].
  intros o s' Ht Hnm Hdt Ho Hq. split; [done|]. destruct Ho as [->|[k ->]].
  - unfold wal_fresh. cbn. rewrite Hnm, Hdt. by split_and!.
  - split; [eauto|]. by intros ?%Hq.
Qed.

(** [Wal::rename_to]. *)
Lemma wp_wal_rename p dest w s batches :
  good s -> plain p -> p <> dest -> wal_fresh p w s batches ->
  wp (wal_rename_to dest) (w, s) (fun o t => touches [p; dest] s t.2 /\
    match o with
    | Ok _ => wal_fresh dest t.1 t.2 batches
    | Err e => io_fault s e
    | Panic => False
    end).
Proof.
  intros Hg Hp Hne (Hpa & Hc & Hck & Hb & Hn & Hd). unfold wal_rename_to. apply wp_bind, wp_gets.
  cbn [then_wp fst]. rewrite Hpa. apply wp_bind. unfold on_wal_fs. apply wp_zoom. cbn [fst snd].
  apply wp_rename; [done|done|done|..].
  - intros k s' Hs Hq. cbn [then_wp]. split; [by apply touches_same|]. split; [eauto|]. intros ?%Hq. congruence.
  - intros s' Ht Hd' _ _ Hn' _. cbn [then_wp]. apply wp_modify. cbn [fst snd]. split; [done|].
    unfold wal_fresh. cbn. rewrite Hn', Hd', Hn, Hd. by split_and!.
Qed.

Lemma wal_fresh_touches p w ps s s' batches :
  touches ps s s' -> p ∉ ps -> wal_fresh p w s batches -> wal_fresh p w s' batches.
Proof.
  intros Ht Hp (? & ? & ? & ? & ? & ?). unfold wal_fresh.
  rewrite (touches_names _ _ _ Ht), (touches_data _ _ _ Ht) by done. by split_and!.
Qed.

Lemma wal_fresh_holds p w s batches : fs_wf s -> wal_fresh p w s batches -> wal_holds w s WAL_VERSION batches.
Proof.
  intros Hwf (Hpa & Hc & Hck & Hb & Hn & Hd). split_and!; try done.
  - by rewrite Hpa.
  - by eapply (proj1 Hwf).
  - rewrite (path_data_names _ _ _ Hn Hwf) in Hd. by injection Hd.
Qed.

Lemma wal_holds_fresh p w s batches :
  fs_wf s -> wal_path w = p -> wal_holds w s WAL_VERSION batches -> wal_fresh p w s batches.
Proof.
  intros Hwf <- (_ & Hn & _ & Hb & Hck & Hct & Hd). unfold wal_fresh. split_and!; try done.
  by rewrite (path_data_names _ _ _ Hn Hwf), Hd.
Qed.

(** A record appended to it. *)
Lemma wp_wal_append p r w s batches :
  good s -> plain p -> wal_fresh p w s batches -> wf_batch true [r] ->
  wp (wal_append r) (w, s) (fun o t => touches [p] s t.2 /\
    match o with
    | Ok _ => wal_fresh p t.1 t.2 (batches ++ [[r]])
    | Err e => io_fault s e
    | Panic => False
    end).
Proof.
  intros Hg Hp Hf Hwf. pose proof Hf as (Hpa & Hc & _ & _ & Hn & _).
  destruct (wal_append_touches p [r] w s Hg Hp Hn Hc) as (o & w' & s' & E & Ht & _ & _ & Hp' & _ & Ho & Hq).
  destruct (wal_append_batch_holds [r] w s WAL_VERSION batches) as (o' & ? & ? & x & E' & _ & _ & _ & _ & _ & _ & Ho' & _);
    [eapply wal_fresh_holds; [apply Hg|done]|by rewrite Hc|].
  rewrite E in E'. injection E' as <- <- <-. unfold wal_append. eapply wp_run; [exact E|]. cbn [fst snd].
  split; [done|]. destruct Ho as [->|[k ->]].
  - destruct Ho' as [[_ Hh]|[? ?]]; [|done]. apply wal_holds_fresh; [apply Ht|congruence|done].
  - split; [eauto|]. by intros ?%Hq.
Qed.

Lemma wp_wal_appends p records w s batches :
  good s -> plain p -> wal_fresh p w s batches -> Forall (fun r => wf_batch true [r]) records ->
  wp (for_each records wal_append) (w, s) (fun o t => touches [p] s t.2 /\
    match o with
    | Ok _ => wal_fresh p t.1 t.2 (batches ++ ((fun r => [r]) <$> records))
    | Err e => io_fault s e
    | Panic => False
    end).
Proof.
  intros Hg Hp Hf Hr. revert w s batches Hg Hf. induction Hr as [|r rs Hr _ IH]; intros w s batches Hg Hf; cbn [for_each].
  { apply wp_ret. cbn [fst snd]. split; [by apply touches_refl|]. by rewrite app_nil_r. }
  apply wp_bind. eapply wp_mono; [by apply (wp_wal_append p r w s batches)|].
  intros [[]|e|] [w1 s1] [Ht1 Ho1]; cbn [then_wp fst snd] in *; [|done|done].
  eapply wp_mono; [apply (IH w1 s1 (batches ++ [[r]])); [apply Ht1|done]|].
  intros o [w2 s2] [Ht2 Ho2]; cbn [fst snd] in *. split; [by eapply touches_trans|].
  destruct o; [by rewrite fmap_cons, cons_middle, app_assoc| |done].
  destruct Ho2 as [He Hq]. split; [done|]. by intros ?%(touches_quiet _ _ _ Ht1).
Qed.

End fresh_wal.

(** ** The steps of a flush *)

Section flush.
Context `{PlatformOk}.

Lemma wp_rewrite_wal d w (Q : outcome unit -> DbInner * World -> Prop) :
  let wal := join (db_dir d) WAL_FILENAME in
  let tmp := join (db_dir d) WAL_TMP_FILENAME in
  good (w_fs w) -> Forall (fun r => wf_batch true [r]) (mt_iter (db_active d)) -> db_dir d ∈ fs_dirs (w_fs w) ->
  (forall e s', io_fault (w_fs w) e -> Q (Err e) s') ->
  (forall fresh s', touches [tmp; wal] (w_fs w) s' ->
     wal_fresh wal fresh s' ((fun r => [r]) <$> mt_iter (db_active d)) ->
     Q (Ok tt) (set_db_wal fresh d, world_set_fs s' w)) ->
  wp rewrite_wal (d, w) Q.
Proof.
  intros wal tmp Hg Hact Hdir Herr HQ. unfold rewrite_wal. apply wp_bind, wp_gets. cbn [then_wp fst].
  fold wal tmp. apply wp_bind. unfold on_db_fs, on_world. apply wp_zoom. unfold on_files. apply wp_zoom. cbn [fst snd].
  apply wp_bind. eapply wp_mono; [by apply (wp_wal_create tmp)|].
  intros [fresh|e|] s1 [Ht1 Ho1]; cbn [then_wp]; [|apply Herr; split; [apply Ho1|]; intros Hq; by apply (proj2 Ho1)|done].
  assert (forall s2 e, touches [tmp; wal] (w_fs w) s2 -> io_fault s2 e -> io_fault (w_fs w) e) as Hback.
  { intros s2 e Ht [He Hq]. split; [done|]. intros ?%(touches_quiet _ _ _ Ht). done. }
  assert (forall s2 s3 ps, touches [tmp; wal] (w_fs w) s2 -> touches ps s2 s3 -> ps ⊆ [tmp; wal] ->
    touches [tmp; wal] (w_fs w) s3) as Hnext.
  { intros s2 s3 ps Ht Ht' Hps. eapply touches_trans; [exact Ht|]. by eapply touches_mono. }
  assert (touches [tmp; wal] (w_fs w) s1) as Ht01 by (eapply (touches_mono [tmp]); [set_solver|done]).
  apply wp_bind, wp_with_wal, wp_bind.
  eapply wp_mono; [apply (wp_wal_appends tmp _ fresh s1 []); [apply Ht1|apply wal_tmp_plain|done|done]|].
  intros [[]|e|] [fr1 s1'] [Ht1' Ho1']; cbn [then_wp fst snd app] in *; [|by apply Herr; eapply Hback|done].
  assert (touches [tmp; wal] (w_fs w) s1') as Ht01' by (eapply Hnext; [exact Ht01|exact Ht1'|set_solver]).
  apply wp_bind. eapply wp_mono; [eapply (wp_wal_sync tmp fr1 s1'); [apply Ht1'|apply wal_tmp_plain|done]|].
  intros [[]|e|] [fr2 s2] [Ht2 Ho2]; cbn [then_wp fst snd] in *; [|by apply Herr; eapply Hback|done].
  assert (touches [tmp; wal] (w_fs w) s2) as Ht02 by (eapply Hnext; [exact Ht01'|exact Ht2|apply list_subseteq_nil]).
  eapply wp_mono; [eapply (wp_wal_rename tmp wal fr2 s2); [apply Ht2|apply wal_tmp_plain|by intros [= ?]|done]|].
  intros [[]|e|] [fr3 s3] [Ht3 Ho3]; cbn [then_wp fst snd] in *; [|by apply Herr; eapply Hback|done].
  pose proof (touches_trans _ _ _ _ Ht02 Ht3) as Ht03.
  apply wp_bind, wp_sync_dir; [apply Ht3|..].
  { intros k s4 Hs Hq. cbn [then_wp]. apply Herr, (Hback s3); [done|]. split; [eauto|done]. }
  intros s4 Ht4 _ _. cbn [then_wp]. apply wp_ret. cbn [then_wp]. unfold update. apply wp_modify. cbn [fst snd].
  apply HQ; [eapply Hnext; [exact Ht03|exact Ht4|apply list_subseteq_nil]|].
  eapply wal_fresh_touches; [exact Ht4|apply not_elem_of_nil|done].
Qed.

(** Writing a table under its temporary name, renaming it over [final] and
    opening it: what [flush_impl] and [compact_step_impl] do to publish one. *)
Definition published (T : Tables) (dir : string) (id : N) (l : list Rec) (w : World)
    (r : SsTableReader) (w' : World) : Prop :=
  touches [sst_tmp_path dir id; sst_path dir id] (w_fs w) (w_fs w') /\
  world_ok (<[rd_cache r := (r, l)]> T) w' /\ T !! rd_cache r = None /\
  rd_path r = sst_path dir id /\ fs_names (w_fs w') !! sst_path dir id = Some (rd_file r) /\
  exists b, path_data (w_fs w') (sst_path dir id) = Some b /\ table_bytes l b.

Lemma wp_publish T d w dir id enabled l (Q : outcome SsTableReader -> DbInner * World -> Prop) :
  world_ok T w -> id <= U64_MAX -> table_records l ->
  (exists b, path_data (w_fs w) (sst_tmp_path dir id) = Some b /\ table_bytes l b) ->
  (forall e s', io_fault (w_fs w) e -> Q (Err e) s') ->
  (forall r w', published T dir id l w r w' -> Q (Ok r) (d, w')) ->
  wp (_ ← on_db_fs (rename (sst_tmp_path dir id) (sst_path dir id));
      _ ← on_db_fs (sync_dir dir);
      on_world (sst_open (sst_path dir id) enabled)) (d, w) Q.
Proof.
  intros Hw Hid Hl (b & Hb & Htb) Herr HQ. pose proof (wo_good _ _ Hw) as Hg.
  set (tmp := sst_tmp_path dir id) in *. set (fin := sst_path dir id) in *.
  assert (tmp <> fin) as Hne.
  { intros E. apply (f_equal p_name) in E. cbn in E. by apply sst_tmp_not_sst in E. }
  assert (forall s2 e, touches [tmp; fin] (w_fs w) s2 -> io_fault s2 e -> io_fault (w_fs w) e) as Hback.
  { intros s2 e Ht [He Hq]. split; [done|]. intros ?%(touches_quiet _ _ _ Ht). done. }
  apply wp_bind. unfold on_db_fs, on_world. apply wp_zoom. unfold on_files. apply wp_zoom. cbn [fst snd].
  destruct (path_data_is_name _ _ _ Hb) as (h & Hh & _).
  apply wp_rename; [done|apply sst_tmp_plain|done|..].
  { intros k s1 Hs Hq. cbn [then_wp]. apply Herr. split; [eauto|]. intros ?%Hq. congruence. }
  intros s1 Ht1 Hd1 _ _ _ _. cbn [then_wp]. apply wp_bind, wp_zoom, wp_zoom. cbn [fst snd w_fs].
  apply wp_sync_dir; [apply Ht1|..].
  { intros k s2 Hs Hq. cbn [then_wp]. apply Herr, (Hback s1); [done|]. split; [eauto|done]. }
  intros s2 Ht2 _ _. cbn [then_wp]. apply wp_zoom. cbn [fst snd].
  assert (touches [tmp; fin] (w_fs w) s2) as Ht02.
  { eapply touches_trans; [exact Ht1|]. eapply touches_mono; [|exact Ht2]. apply list_subseteq_nil. }
  assert (path_data s2 fin = Some b) as Hfin.
  { rewrite (touches_data _ _ _ Ht2) by apply not_elem_of_nil. by rewrite Hd1. }
  set (w2 := mkWorld s2 _ _).
  eapply wp_mono; [apply (wp_world_open T w2 dir id enabled l)|].
  - by apply (world_ok_touches T w [tmp; fin]).
  - done.
  - done.
  - exists b. done.
  - intros [r|e|] w' [Hs Ho]; cbn [fst snd]; [|by apply Herr, (Hback s2); [|apply Ho]|done].
    apply HQ. destruct Ho as (Hw' & Hnew & Hp & Hn). split_and!; try done.
    + eapply touches_trans; [exact Ht02|]. apply touches_same; [apply Ht2|done].
    + exists b. split; [|done]. by rewrite <- (proj1 Hs).
Qed.

Lemma wp_assoc3 {A B} (m1 : DbM unit) (m2 : DbM unit) (m3 : DbM A) (K : A -> DbM B) s Q :
  wp ((_ ← m1; _ ← m2; m3) ≫= K) s Q -> wp (_ ← m1; _ ← m2; r ← m3; K r) s Q.
Proof.
  unfold wp. rewrite bind_assoc.
  assert ((m1 ≫= (fun x => (_ ← m2; m3) ≫= K)) s = (_ ← m1; _ ← m2; r ← m3; K r) s) as ->; [|done].
  apply bind_ext. intros _ s1. by rewrite bind_assoc.
Qed.

(** A table of the live set stays one when other files change. *)
Lemma table_live_touches T T' dir w w' ps t :
  touches ps (w_fs w) (w_fs w') -> sst_path dir (t_id t) ∉ ps ->
  (forall x, T !! rd_cache (t_reader t) = Some x -> T' !! rd_cache (t_reader t) = Some x) ->
  table_live T dir w t -> table_live T' dir w' t.
Proof.
  intros Ht Hp HT (l & b & E & ? & Hn & Hd & ?). exists l, b.
  rewrite (touches_names _ _ _ Ht), (touches_data _ _ _ Ht) by done. split_and!; auto.
Qed.

Lemma sst_path_inj dir i j : i <= U64_MAX -> j <= U64_MAX -> sst_path dir i = sst_path dir j -> i = j.
Proof. intros Hi Hj E. apply (f_equal p_name) in E. by apply sst_name_inj in E. Qed.

Lemma sst_name_ne i j : i <= U64_MAX -> j <= U64_MAX -> i <> j -> sst_name i <> sst_name j.
Proof. intros Hi Hj Hne E. by apply sst_name_inj in E. Qed.
End flush.

Lemma join_ne dir a b : a <> b -> join dir a <> join dir b.
Proof. by intros Hne [= ?]. Qed.

(** Paths of files of different kinds, or of different tables, differ. *)
Ltac paths :=
  unfold sst_path, sst_tmp_path, manifest_path;
  rewrite ?not_elem_of_cons; split_and?; try apply not_elem_of_nil;
  apply join_ne; first [done|by auto with names|by apply not_eq_sym; auto with names|apply sst_name_ne; lia].

(** ** The flush *)

Section flush_proof.
Context `{PlatformOk}.

(** What a background operation leaves when it works, and when it fails. *)
Definition maintained {A} (hist : list Rec) (d : DbInner) (w : World) (o : outcome A) (s' : DbInner * World) : Prop :=
  match o with
  | Ok _ => (exists T', serving hist T' s') /\ same_config d s'.1 /\ (db_next_seq s'.1 = db_next_seq d /\ db_tasks s'.1 = db_tasks d) /\
      inside (db_dir d) (w_fs w) (w_fs s'.2)
  | Err e => io_fault (w_fs w) e
  | Panic => False
  end.

(** What a flush leaves of the MemTable, the log and the counters. *)
Definition flushed (d : DbInner) (w : World) (s' : DbInner * World) : Prop :=
  mt_map (db_active s'.1) = [] /\ (mt_map (db_active d) <> [] \/ log_ok d w -> log_ok s'.1 s'.2) /\
  len (db_sstables s'.1) <= len (db_sstables d) + 1 /\ db_next_sst_id s'.1 <= db_next_sst_id d + 1.

(** The records of one layer fit a table when the history is small. *)
Lemma layer_table hist T d l :
  history_ok hist T d -> sum_encoded hist <= SIZE_LIMIT -> run_sorted l ->
  (forall r, r ∈ l -> r ∈ hist) -> table_records l.
Proof.
  intros Hh Hsz Hs Hsub. pose proof (ho_wf _ _ _ Hh) as Hwf. rewrite Forall_forall in Hwf.
  apply small_table; [done|apply Forall_forall; auto|].
  etrans; [|exact Hsz]. apply sum_encoded_subset; [|done].
  clear -Hs. induction l as [|x l IH]; [constructor|]. apply run_sorted_cons in Hs as [Hs Hb].
  apply NoDup_cons. split; [|by apply IH]. intros Hx%Hb. by apply before_irrefl in Hx.
Qed.

(** The history relation after the older part [l] of the MemTable became the newest
    table. *)
Lemma history_flush hist T T' v v' t l :
  history_ok hist T v -> db_frozen v = None -> db_frozen v' = None ->
  mt_map (db_active v) ≡ₚ mt_map (db_active v') ++ l ->
  (forall a x, a ∈ mt_map (db_active v') -> x ∈ l -> r_seq x < r_seq a) ->
  db_sstables v' = db_sstables v ++ [t] -> table_recs T' t = l ->
  db_snapshots v' = db_snapshots v -> db_next_seq v' = db_next_seq v ->
  (forall u, u ∈ db_sstables v -> table_recs T' u = table_recs T u) ->
  history_ok hist T' v'.
Proof.
  intros Hh Hf Hf' Hp Hnew Et Er Es En Hold. set (tabs := table_recs T <$> reverse (db_sstables v)).
  assert (table_recs T' <$> reverse (db_sstables v) = tabs) as Eold.
  { apply list_fmap_ext. intros i u Hu. apply Hold. apply elem_of_reverse. by eapply list_elem_of_lookup_2. }
  assert (layers T v = mt_iter (db_active v) :: tabs) as EL by (by rewrite layers_thawed).
  assert (layers T' v' = mt_iter (db_active v') :: l :: tabs) as EL'.
  { by rewrite layers_thawed, Et, reverse_snoc, fmap_cons, Er, Eold by done. }
  assert (concat (layers T v) ≡ₚ concat (layers T' v')) as HP.
  { rewrite EL, EL'. cbn [concat]. unfold mt_iter. by rewrite Hp, app_assoc. }
  pose proof Hh as []. split; try (rewrite ?En, ?Es; done).
  - rewrite EL in ho_layered. destruct ho_layered as [Ha Hl]. rewrite EL'. cbn [layered concat]. split_and!; [|intros a x Ha' Hx|done].
    + intros a x Ha' [Hx|Hx]%elem_of_app; [by apply Hnew|]. apply Ha; [|done]. unfold mt_iter in *. rewrite Hp. set_solver.
    + apply Ha; [|done]. unfold mt_iter. rewrite Hp. set_solver.
  - by rewrite <- HP.
  - intros r. rewrite <- HP. apply ho_sub.
  - intros key b Hb. unfold lookup_at. rewrite <- (newest_perm key b _ _ ho_unique HP). apply ho_reads.
    unfold live_bound in *. by rewrite <- Es, <- En.
Qed.

Lemma wp_on_manifest {A} (m : ManifestM A) d w (Q : outcome A -> DbInner * World -> Prop) :
  wp m (db_manifest d, w_fs w) (fun o t => Q o (set_db_manifest t.1 d, world_set_fs t.2 w)) ->
  wp (on_db_manifest m) (d, w) Q.
Proof. intros Hm. unfold on_db_manifest. by apply wp_zoom. Qed.

(** What the manifest says after the flush. *)
Lemma apply_flush_edits edits id seq ids :
  live_tables (apply_edits state_default edits) = ids -> Forall (fun x => x < id) ids ->
  apply_edits state_default (edits ++ [AddTable id; SetNextSstId (id + 1); SetNextSeq seq]) =
    mkState (ids ++ [id]) seq (id + 1).
Proof.
  intros Hl Hlt. unfold apply_edits in *. rewrite foldl_app. cbn [foldl state_apply].
  destruct (foldl state_apply state_default edits) as [l s n]. cbn in *. subst l. by rewrite set_insert_last.
Qed.

(** A table that was opened does not concern the readers there are. *)
Lemma insert_fresh_recs T dir w r l u :
  T !! rd_cache r = None -> table_live T dir w u ->
  (forall x, T !! rd_cache (t_reader u) = Some x -> <[rd_cache r := (r, l)]> T !! rd_cache (t_reader u) = Some x) /\
  table_recs (<[rd_cache r := (r, l)]> T) u = table_recs T u.
Proof.
  intros Hnew (lu & b & E & _). unfold table_recs.
  assert (rd_cache r <> rd_cache (t_reader u)) as Hne by (intros E'; rewrite <- E' in E; congruence).
  by rewrite lookup_insert_ne.
Qed.

(** The engine after a table of the records [l] joined it. *)
Lemma db_ok_flush T v w v' w' r edits m' l act :
  db_ok T v w ->
  let id := db_next_sst_id v in
  let T' := <[rd_cache r := (r, l)]> T in
  let dir := db_dir v in
  id + 1 <= U64_MAX ->
  touches [sst_tmp_path dir id; sst_path dir id; manifest_path dir (m_generation m')] (w_fs w) (w_fs w') ->
  world_ok T' w' -> T !! rd_cache r = None -> table_live T' dir w' (mkSst id r) ->
  live_tables (apply_edits state_default edits) = t_id <$> db_sstables v ->
  manifest_holds dir m' (edits ++ [AddTable id; SetNextSstId (id + 1); SetNextSeq (db_next_seq v)]) (w_fs w') ->
  (forall x, x ∈ concat (layers T v) -> r_seq x < db_next_seq v) -> (forall x, x ∈ l -> r_seq x < db_next_seq v) ->
  mt_ok act ->
  v' = mkDb dir (db_opts v) (db_lock v) (db_wal v) act None (db_sstables v ++ [mkSst id r]) (id + 1)
         (db_next_seq v) m' (db_snapshots v) (db_tasks v) (db_compact v) None ->
  db_ok T' v' w'.
Proof.
  intros Hok id T' dir Hid Ht Hw' Hnew Hlive Hids Hm Hseq Hseql Hact ->. pose proof Hok as [].
  assert (forall u, u ∈ db_sstables v -> t_id u < id) as Hlt by done.
  assert (table_recs T' (mkSst id r) = l) as Hrecs'.
  { unfold table_recs, T'. cbn [t_reader]. by rewrite lookup_insert_eq. }
  split; cbn [db_dir db_sstables db_next_sst_id db_active db_frozen db_failed db_wal db_next_seq]; try done.
  - by apply (touches_dirs _ _ _ Ht).
  - intros u [Hu| ->%list_elem_of_singleton]%elem_of_app; [|done].
    eapply table_live_touches; [exact Ht| |by eapply insert_fresh_recs; [|apply dk_table]|by apply dk_table].
    assert (t_id u < id) by auto. unfold id in *. paths.
  - rewrite fmap_app. apply StronglySorted_app. split_and!; [|done|repeat constructor].
    intros a b Ha Hb%list_elem_of_singleton. apply list_elem_of_fmap in Ha as (u & -> & Hu). subst b. by apply Hlt.
  - intros u [Hu| ->%list_elem_of_singleton]%elem_of_app; [specialize (Hlt u Hu); lia|cbn; lia].
  - rewrite (touches_names _ _ _ Ht); [done|paths].
  - eexists. split; [exact Hm|]. assert (Forall (fun x => x < id) (t_id <$> db_sstables v)) as Hall.
    { apply Forall_fmap, Forall_forall. intros u Hu. by apply Hlt. }
    rewrite (apply_flush_edits edits id (db_next_seq v) _ Hids Hall).
    split_and!; cbn [live_tables st_next_seq st_next_sst_id db_sstables db_next_sst_id db_next_seq].
    + intros [_ ?]%app_nil. done.
    + by rewrite fmap_app.
    + done.
    + done.
    + intros u x [Hu| ->%list_elem_of_singleton]%elem_of_app Hx; [|by apply Hseql; rewrite Hrecs' in Hx].
      apply Hseq. unfold layers. rewrite dk_frozen. cbn [from_option app concat]. apply elem_of_app. right.
      unfold T' in Hx. rewrite (proj2 (insert_fresh_recs T dir w r l u Hnew (dk_table u Hu))) in Hx.
      apply list_elem_of_In, in_concat. exists (table_recs T u). rewrite <- !list_elem_of_In.
      split; [|done]. apply list_elem_of_fmap. exists u. by rewrite elem_of_reverse.
Qed.

(** The engine after its log was replaced. *)
Lemma db_ok_rewal T v w s' fresh batches :
  db_ok T v w -> touches [join (db_dir v) WAL_TMP_FILENAME; join (db_dir v) WAL_FILENAME] (w_fs w) s' ->
  wal_fresh (join (db_dir v) WAL_FILENAME) fresh s' batches ->
  db_ok T (set_db_wal fresh v) (world_set_fs s' w).
Proof.
  intros [] Ht (Hp & Hc & _ & _ & Hn & _). split; try done.
  - by eapply world_ok_touches.
  - by apply (touches_dirs _ _ _ Ht).
  - intros u Hu. eapply (table_live_touches T T _ w); [exact Ht|paths|done|by apply dk_table].
  - destruct dk_manifest as (edits & Hm & Hrest). exists edits. split; [|done].
    eapply manifest_holds_touches; [exact Ht|paths|paths|done].
Qed.

(** A MemTable is rebuilt from its records. *)
Lemma mt_rebuild m : mt_ok m -> mt_insert_all (mt_iter m) (mt_new (mt_threshold m)) = m.
Proof.
  intros Hm. set (m' := mt_insert_all _ _).
  assert (NoDup (version <$> mt_iter m)) as Hnd by apply run_sorted_versions, Hm.
  assert (mt_ok m') as Hm'.
  { apply mt_insert_all_ok; [apply mt_new_ok|]. apply Hm. }
  assert (mt_map m' ≡ₚ mt_map m) as Hp.
  { unfold m'. rewrite mt_insert_all_perm; cbn [mt_new mt_map]; by rewrite ?app_nil_r. }
  assert (mt_map m' = mt_map m) as E.
  { apply (StronglySorted_unique_strong before); [|apply Hm'|apply Hm|done].
    intros x y _ _ Hxy Hyx. destruct (before_irrefl x). by eapply before_trans. }
  assert (mt_threshold m' = mt_threshold m) as Et.
  { unfold m'. by rewrite mt_insert_all_threshold. }
  clearbody m'.
  destruct Hm as (_ & _ & Hs), Hm' as (_ & _ & Hs'). destruct m as [l s th], m' as [l' s' th']. cbn in *. congruence.
Qed.

Lemma wp_update f s (Q : outcome unit -> DbInner * World -> Prop) :
  Q (Ok tt) (f s.1, s.2) -> wp (update f) s Q.
Proof. intros HQ. unfold update. by apply wp_modify. Qed.

(** [v] is the engine [d] with its frozen MemTable [m] still part of the active one. *)
Record unfrozen (m : MemTable) (d v : DbInner) : Prop := mkUnfrozen {
  uf_frozen : db_frozen d = Some m;
  uf_engine : exists m', v = set_db_active m' (set_db_frozen None d) /\ mt_map m' ≡ₚ mt_map (db_active d) ++ mt_map m;
  uf_active : mt_ok (db_active d);
  uf_ok : mt_ok m;
  uf_newer : forall a x, a ∈ mt_map (db_active d) -> x ∈ mt_map m -> r_seq x < r_seq a
}.

(** [d] with nothing frozen, and with the table [t] in its live set. *)
Definition thawed (d : DbInner) : DbInner := set_db_frozen None d.
Definition with_table (t : SsTable) (d : DbInner) : DbInner :=
  thawed (set_db_sstables (db_sstables d ++ [t]) d).

(** The paths a flush writes before it publishes its table. *)
Definition flush_paths (d : DbInner) : list Path :=
  let id := db_next_sst_id d in
  [sst_tmp_path (db_dir d) id; sst_path (db_dir d) id; manifest_path (db_dir d) (m_generation (db_manifest d))].

(** What is frozen can be written as a table. *)
Lemma frozen_records hist T d v w m :
  serving hist T (v, w) -> unfrozen m d v -> sum_encoded hist <= SIZE_LIMIT ->
  table_records (mt_iter m) /\ (forall r, r ∈ mt_iter m -> r ∈ concat (layers T v)) /\
  (forall r, r ∈ concat (layers T v) -> r_seq r < db_next_seq v).
Proof.
  intros [Hok Hh] [Hf (m' & -> & Hp) Hact Hmt Hnewer] Hsz. cbn [fst snd] in Hok, Hh. set (v := set_db_active m' _) in *.
  assert (forall r, r ∈ mt_iter m -> r ∈ concat (layers T v)) as Hlv.
  { intros r Hr. rewrite layers_thawed by done. cbn [concat]. apply elem_of_app. left.
    unfold mt_iter. change (db_active v) with m'. rewrite Hp. set_solver. }
  split_and!; [|done|].
  - eapply layer_table; [exact Hh|done|apply Hmt|]. intros r Hr. by apply (ho_sub _ _ _ Hh), Hlv.
  - intros r Hr. pose proof (ho_seq _ _ _ Hh) as Hs. rewrite Forall_forall in Hs. by apply Hs, (ho_sub _ _ _ Hh).
Qed.

(** The engine with its new table, when the files are there and the manifest names it. *)
Lemma flush_table_serves hist T d v w m r edits mf w' :
  serving hist T (v, w) -> unfrozen m d v -> sum_encoded hist <= SIZE_LIMIT -> db_next_sst_id d + 1 <= U64_MAX ->
  let id := db_next_sst_id d in let t := mkSst id r in let T' := <[rd_cache r := (r, mt_iter m)]> T in
  let d' := set_db_manifest mf (set_db_next_sst_id (id + 1) d) in
  T !! rd_cache r = None -> world_ok T' w' -> table_live T' (db_dir d) w' t -> touches (flush_paths d) (w_fs w) (w_fs w') ->
  m_generation mf = m_generation (db_manifest d) -> live_tables (apply_edits state_default edits) = t_id <$> db_sstables d ->
  manifest_holds (db_dir d) mf (edits ++ [AddTable id; SetNextSstId (id + 1); SetNextSeq (db_next_seq d)]) (w_fs w') ->
  serving hist T' (with_table t d', w') /\ table_recs T' t = mt_iter m /\ T ⊆ T' /\ grows T (v, w) T' (with_table t d', w').
Proof.
  intros Hs Hu Hsz Hid id t T' d' Hnew Hw' Hlive Ht Hgen Hids Hm. destruct (frozen_records _ _ _ _ _ _ Hs Hu Hsz) as (_ & Hlv & Hseq).
  destruct Hs as [Hok Hh], Hu as [Hf (m' & -> & Hp) Hact Hmt Hnewer]. cbn [fst snd] in Hok, Hh. pose proof Hok as [].
  set (v := set_db_active m' (set_db_frozen None d)) in *. cbn in dk_failed.
  assert (forall u, u ∈ db_sstables d -> table_recs T' u = table_recs T u) as Hrecs.
  { intros u Hu. by eapply insert_fresh_recs, dk_table. }
  assert (table_recs T' t = mt_iter m) as Hrec by (unfold table_recs, T'; cbn [t t_reader]; by rewrite lookup_insert_eq).
  split; [split; cbn [fst snd]|split; [done|split; [by apply insert_subseteq|split; try done]]].
  - apply (db_ok_flush T v w _ w' r edits mf (mt_iter m) (db_active d)); try done.
    + by rewrite Hgen.
    + intros x Hx. by apply Hseq, Hlv.
    + unfold d', with_table, thawed, set_db_sstables, set_db_frozen, set_db_manifest. cbn. by rewrite dk_failed.
  - by apply (history_flush hist T T' v _ t (mt_iter m)).
  - by apply prefix_app_r.
  - cbn. lia.
  - intros i Hi Him. cbn in Hi. rewrite (touches_data _ _ _ Ht); [done|]. unfold flush_paths. fold id.
    rewrite !not_elem_of_cons. split_and!; [|paths..]. intros E%(f_equal p_name). cbn in E.
    apply sst_tmp_name_inj in E; [lia|done|lia].
Qed.

(** The frozen MemTable becomes a table beside the live set. *)
Lemma wp_flush_table hist T d v w m :
  serving hist T (v, w) -> unfrozen m d v -> sum_encoded hist <= SIZE_LIMIT -> db_next_sst_id d + 1 <= U64_MAX ->
  wp (flush_table m) (d, w) (fun o s' => match o with
    | Ok t => exists T' mf, s'.1 = set_db_manifest mf (set_db_next_sst_id (db_next_sst_id d + 1) d) /\
        m_generation mf = m_generation (db_manifest d) /\ serving hist T' (with_table t s'.1, s'.2) /\
        table_recs T' t = mt_iter m /\ T ⊆ T' /\ grows T (v, w) T' (with_table t s'.1, s'.2) /\
        touches (flush_paths d) (w_fs w) (w_fs s'.2)
    | Err e => io_fault (w_fs w) e
    | Panic => False
    end).
Proof.
  intros Hs Hu Hsz Hid. destruct (frozen_records _ _ _ _ _ _ Hs Hu Hsz) as (Hl & _). pose proof Hs as [Hok _].
  pose proof Hu as [_ (m' & -> & _) _ _ _]. cbn [fst snd] in Hok. pose proof Hok as [].
  set (l := mt_iter m). set (id := db_next_sst_id d) in *. set (dir := db_dir d).
  assert (forall ps e (f : FsState), touches ps (w_fs w) f -> io_fault f e -> io_fault (w_fs w) e) as Herr.
  { intros ps e f Ht [He Hq]. split; [done|]. by intros ?%(touches_quiet _ _ _ Ht). }
  unfold flush_table. apply wp_bind, wp_gets. cbn [then_wp fst]. fold dir id.
  apply wp_bind, wp_update. cbn [then_wp fst snd].
  rewrite (as_u64_small (id + 1)) by done. set (d1 := set_db_next_sst_id (id + 1) d).
  (* the table is written under its temporary name *)
  apply wp_bind. unfold on_db_fs at 1, on_world at 1. apply wp_zoom. unfold on_files. apply wp_zoom. cbn [fst snd].
  eapply wp_mono; [apply wp_write_table; [apply dk_world|apply sst_tmp_plain]|].
  intros o s1 [Ht1 Ho1].
  destruct o as [n|e|]; cbn [then_wp]; [|split; [apply Ho1|]; intros Hq; by apply (proj2 Ho1)|done].
  destruct Ho1 as (_ & _ & Hfile). fold (on_files (rename (sst_tmp_path dir id) (sst_path dir id))).
  set (w1 := mkWorld s1 (w_caches w) (w_next_cache w)).
  assert (world_ok T w1) as Hw1 by by apply (world_ok_touches T w _ s1 dk_world Ht1).
  (* renamed and opened *)
  apply wp_assoc3, wp_bind.
  apply (wp_publish T d1 w1 dir id _ l); [done|lia|done|done|intros e s' He; by eapply Herr|].
  intros r w2 (Ht2 & Hw2 & Hnew & Hpath & Hname & Hbytes). cbn [then_wp]. cbn [w1 w_fs] in Ht2.
  assert (touches [sst_tmp_path dir id; sst_path dir id] (w_fs w) (w_fs w2)) as Ht02.
  { eapply touches_trans; [eapply touches_mono; [|exact Ht1]; set_solver|exact Ht2]. }
  (* the manifest names it *)
  apply wp_bind, wp_gets. cbn [then_wp fst]. apply wp_bind, wp_gets. cbn [then_wp fst].
  destruct dk_manifest as (edits & Hm & Hne & Hids & _).
  assert (manifest_holds dir (db_manifest d) edits (w_fs w2)) as Hm2.
  { eapply manifest_holds_touches; [exact Ht02|paths|paths|done]. }
  apply wp_bind, wp_on_manifest. cbn [d1 db_manifest set_db_next_sst_id db_next_sst_id db_next_seq].
  eapply wp_mono; [apply (manifest_append_holds dir); [apply Hw2|done|]|].
  { repeat constructor; unfold wf_edit; cbn; (done || lia). }
  intros o [mf s3] (Ht3 & Hgen & Ho3). cbn [fst snd] in *. fold dir in Ht3.
  destruct o as [[]|e|]; cbn [then_wp]; [|eapply Herr; [exact Ht02|]; split; apply Ho3|done].
  assert (touches (flush_paths d) (w_fs w) s3) as Ht03.
  { eapply touches_trans; [eapply touches_mono; [|exact Ht02]; set_solver|].
    eapply touches_mono; [|exact Ht3]. set_solver. }
  apply wp_ret. exists (<[rd_cache r := (r, l)]> T), mf. cbn [fst snd]. split; [done|]. split; [done|].
  edestruct (flush_table_serves hist T d _ w m r edits mf (world_set_fs s3 w2) Hs Hu Hsz Hid) as (? & ? & ? & ?); try done.
  - exact (world_ok_touches _ _ _ _ Hw2 Ht3).
  - eapply (table_live_touches _ _ dir w2); [exact Ht3|paths|done|].
    destruct Hbytes as (b & Hb & Htb). exists l, b. cbn [t_reader t_id]. by rewrite lookup_insert_eq.
Qed.

(** The log is replaced by one of the records that are not in a table. *)
Lemma wp_flush_rewrite hist T d v w (Q : outcome unit -> DbInner * World -> Prop) :
  serving hist T (v, w) -> v = thawed d -> sum_encoded hist <= SIZE_LIMIT ->
  (forall e s', io_fault (w_fs w) e -> Q (Err e) s') ->
  (forall fresh s',
     let v' := set_db_wal fresh v in let w' := world_set_fs s' w in
     serving hist T (v', w') -> grows T (v, w) T (v', w') ->
     (exists batches, wal_holds fresh s' WAL_VERSION batches /\ Forall (wf_batch true) batches /\
        concat batches = mt_iter (db_active d)) ->
     touches [join (db_dir d) WAL_TMP_FILENAME; join (db_dir d) WAL_FILENAME] (w_fs w) s' ->
     Q (Ok tt) (set_db_wal fresh d, w')) ->
  wp rewrite_wal (d, w) Q.
Proof.
  intros [Hok Hh] -> Hsz Herr HQ. cbn [fst snd] in Hok, Hh. pose proof Hok as [].
  assert (Forall (fun r => wf_batch true [r]) (mt_iter (db_active d))) as Hwf.
  { apply Forall_forall. intros r Hr.
    assert (r ∈ hist) as Hin.
    { apply (ho_sub _ _ _ Hh). rewrite layers_thawed by done. cbn [concat]. set_solver. }
    pose proof (ho_wf _ _ _ Hh) as Hw. rewrite Forall_forall in Hw.
    split_and!; [done|repeat constructor; by apply Hw|done|]. rewrite length_payload_sum.
    assert (sum_encoded [r] <= sum_encoded hist); [|unfold SIZE_LIMIT, U32_MAX in *; lia].
    apply sum_encoded_subset; [apply NoDup_singleton|]. by intros x ->%list_elem_of_singleton. }
  apply wp_rewrite_wal; [apply dk_world|done|done|done|]. intros fresh s' Ht Hfresh.
  apply HQ; [|split; cbn; try done|..|done].
  - split; cbn [fst snd]; [by eapply db_ok_rewal|]. destruct Hh. by split.
  - intros i _ _. rewrite (touches_data _ _ _ Ht); [done|]. rewrite !not_elem_of_cons. split_and!; [..|apply not_elem_of_nil]; paths.
  - eexists. split; [eapply wal_fresh_holds; [apply Ht|done]|]. split.
    + apply Forall_fmap. eapply Forall_impl; [exact Hwf|]. done.
    + clear. induction (mt_iter (db_active d)) as [|r rs IH]; [done|]. cbn. by f_equal.
Qed.

(** Freezing changes nothing but where the records are. *)
Lemma wp_flush_freeze hist T d w (Q : outcome (option MemTable) -> DbInner * World -> Prop) :
  serving hist T (d, w) ->
  (mt_map (db_active d) = [] -> Q (Ok None) (d, w)) ->
  (forall d', d' = set_db_frozen (Some (db_active d)) (set_db_active (mt_new (o_memtable_threshold (db_opts d))) d) ->
     mt_map (db_active d) <> [] -> unfrozen (db_active d) d' d -> Q (Ok (Some (db_active d))) (d', w)) ->
  wp flush_freeze (d, w) Q.
Proof.
  intros [Hok Hh] Hempty HQ. unfold flush_freeze. apply wp_bind, wp_gets. cbn [then_wp fst].
  unfold mt_is_empty. case_bool_decide as Hemp; [by apply wp_ret, Hempty|].
  do 2 (apply wp_bind, wp_update; cbn [then_wp fst snd]). apply wp_ret. apply HQ; [done|done|].
  pose proof Hok as []. cbn [fst] in *. split; try done.
  - exists (db_active d). split; [|done]. destruct d. cbn in *. by subst.
  - apply mt_new_ok.
  - intros a x Ha. by apply elem_of_nil in Ha.
Qed.

(** An empty MemTable is not flushed; any other becomes a table. *)
Lemma wp_flush_impl hist T d w :
  serving hist T (d, w) -> sum_encoded hist <= SIZE_LIMIT -> db_next_sst_id d + 1 <= U64_MAX ->
  wp flush_impl (d, w) (fun o s' => maintained hist d w o s' /\
    (o = Ok tt -> flushed d w s' /\ exists T', serving hist T' s' /\ grows T (d, w) T' s')).
Proof.
  intros Hs Hsz Hid. unfold flush_impl. apply wp_bind, (wp_flush_freeze hist T); [done|..].
  { intros Hemp. cbn [then_wp]. apply wp_ret. split; [split; [by exists T|done]|]. intros _.
    split; [split; [done|split; [naive_solver|cbn; lia]]|]. exists T. split; [done|apply grows_refl]. }
  intros d1 -> Hne Hunf. cbn [then_wp]. apply wp_bind.
  eapply wp_mono; [by eapply (wp_flush_table hist T _ d)|].
  intros [t|e|] [d2 w2] Ho; cbn [then_wp fst snd] in *; [|done|done].
  destruct Ho as (T2 & mf & -> & Hgen & Hs2 & _ & _ & Hg2 & Ht2).
  unfold flush_publish. apply wp_bind, wp_update. cbn [then_wp fst snd].
  apply wp_bind. eapply (wp_flush_rewrite hist T2); [exact Hs2|done|done|..].
  { intros e s' [He Hq]. cbn [then_wp]. split; [|done]. split; [done|]. by intros ?%(touches_quiet _ _ _ Ht2). }
  intros fresh s' v' w' Hs3 Hg3 (batches & Hwh & Hwf & Ecat) Ht3. cbn [then_wp].
  unfold flush_retire. apply wp_bind, wp_update. cbn [then_wp fst snd]. unfold send_compact. apply wp_update. cbn [fst snd].
  set (d4 := set_db_compact _ _).
  assert (serving hist T2 (d4, w')) as Hs4.
  { destruct Hs3 as [[] []]. split; by split. }
  assert (inside (db_dir d) (w_fs w) s') as Hin.
  { etrans; [eapply touches_inside; [exact Ht2|by repeat constructor]|].
    eapply touches_inside; [exact Ht3|by repeat constructor]. }
  split; [by split; [exists T2|split; [split_and!|]]|]. intros _. split.
  - split; [done|]. split; [|unfold d4; cbn; rewrite length_app; simpl; lia].
    intros _. exists batches. split; [done|]. split; [done|]. by rewrite Ecat.
  - exists T2. split; [done|]. eapply grows_trans; [exact Hg2|]. eapply grows_trans; [exact Hg3|]. by split.
Qed.

(** ** Failing for good *)

(** [latching]: an error is remembered, and from then on the engine refuses. *)
Lemma wp_latching {A} (m : DbM A) s (Q : outcome A -> DbInner * World -> Prop) :
  wp m s (fun o s' => match o with
    | Err e => forall e' d', db_failed d' <> None -> Q (Err e') (d', s'.2)
    | _ => Q o s'
    end) ->
  wp (latching m) s Q.
Proof.
  intros Hm. unfold latching. apply wp_bind, wp_attempt. eapply wp_mono; [exact Hm|].
  intros [a|e|] [d' w'] Ho; cbn [then_wp]; [by apply wp_ret| |done].
  unfold db_fail. apply wp_bind, wp_bind, wp_gets. cbn [then_wp fst]. apply wp_bind.
  destruct (db_failed d') as [e0|] eqn:Ef.
  - apply wp_ret. cbn [then_wp]. apply wp_ret. cbn [then_wp]. apply wp_fail. apply Ho. congruence.
  - apply wp_update. cbn [then_wp]. apply wp_ret. cbn [then_wp]. apply wp_fail. by apply Ho.
Qed.

(** What a whole maintenance operation leaves. *)
Definition maintenance_post {A} (hist : list Rec) (d : DbInner) (w : World) (o : outcome A)
    (s' : DbInner * World) : Prop :=
  match o with
  | Ok _ => (exists T', serving hist T' s') /\ same_config d s'.1 /\ (db_next_seq s'.1 = db_next_seq d /\ db_tasks s'.1 = db_tasks d) /\
      inside (db_dir d) (w_fs w) (w_fs s'.2)
  | Err e => db_failed s'.1 <> None /\ ~ quiet (w_fs w)
  | Panic => False
  end.

Lemma wp_flush_inner hist T d w :
  serving hist T (d, w) -> sum_encoded hist <= SIZE_LIMIT -> db_next_sst_id d + 1 <= U64_MAX ->
  wp flush_inner (d, w) (fun o s' => maintenance_post hist d w o s' /\
    (o = Ok tt -> flushed d w s' /\ exists T', serving hist T' s' /\ grows T (d, w) T' s')).
Proof.
  intros Hs Hsz Hid. unfold flush_inner. apply wp_bind, (wp_health T); [apply Hs|]. cbn [then_wp].
  apply wp_latching. eapply wp_mono; [by eapply wp_flush_impl|].
  intros [[]|e|] s' [Hm Ho]; [done| |done]. intros e' d' Hf. split; [|done]. split; [done|apply Hm].
Qed.
End flush_proof.
