(* ===== verification/CompactSteps.v ===== *)
(** * Compaction steps

    [DbInner::compact_step_impl] on an engine that serves a history: the picked
    run of tables becomes one table, every live reader reads what it read before,
    and with a threshold of at least two each step leaves fewer tables, so the
    loops that run steps to the end terminate. *)
From Stdlib Require Import NArith Lia.
From stdpp Require Import base numbers list sorting strings gmap.
From S2P Require Import Prelude Errors FileNames Platform State FileSystem Store Records Versions MemTable.
From S2P Require Import Headers Frames WriteAheadLog Manifest ManifestRecovery.
From S2P Require Import Bloom SsTables TableLayout TableReads Tables Merging Compaction Scans Engine.
From S2P Require Import Layers Writes Flushes.

Local Open Scope N_scope.

(** ** Picking *)

Lemma tier_run_spec t tiers : (tier_run t tiers <= length tiers)%nat /\ Forall (fun u => u = t) (take (tier_run t tiers) tiers).
Proof.
  induction tiers as [|u tiers [IH1 IH2]]; cbn [tier_run]; [split; [done|constructor]|].
  destruct (N.eqb_spec u t) as [->|]; cbn [take length]; [|split; [lia|constructor]]. split; [lia|by constructor].
Qed.

(** A pick is a run of at least [threshold] tables. *)
Lemma pick_run_spec fuel tiers i threshold a b :
  pick_run fuel tiers i threshold = Some (a, b) ->
  i <= a /\ a < b <= i + len tiers /\ threshold <= b - a.
Proof.
  revert tiers i. induction fuel as [|fuel IH]; intros [|t tiers] i; cbn [pick_run]; try done.
  assert (exists n, tier_run t (t :: tiers) = S n) as [n En].
  { cbn [tier_run]. rewrite N.eqb_refl. eauto. }
  destruct (tier_run_spec t (t :: tiers)) as [Hle Hall]. rewrite En in *.
  destruct (N.leb_spec threshold (i + N.of_nat (S n) - i)) as [Hth|_].
  - intros [= <- <-]. lia.
  - intros E. apply IH in E as (H1 & [H2 H3] & H4). rewrite length_drop in H3. lia.
Qed.

(** No [threshold] adjacent tables are in the same size tier. *)
Definition no_run (threshold : N) (tiers : list N) : Prop :=
  forall i n t, (0 < n)%nat -> (forall j, (i <= j < i + n)%nat -> tiers !! j = Some t) -> N.of_nat n < threshold.

Lemma tier_run_next t tiers : tiers !! tier_run t tiers <> Some t.
Proof.
  induction tiers as [|u tiers IH]; [done|]. cbn [tier_run]. destruct (N.eqb_spec u t) as [->|Hne]; [done|].
  cbn. congruence.
Qed.

(** The picker misses no run. *)
Lemma pick_run_none fuel tiers i threshold :
  (length tiers <= fuel)%nat -> pick_run fuel tiers i threshold = None -> no_run threshold tiers.
Proof.
  revert tiers i. induction fuel as [|fuel IH]; intros [|t0 tiers] i Hf; cbn [length] in Hf; try lia.
  1,2: intros _ a n t Hn Ha; specialize (Ha a ltac:(lia)); by rewrite lookup_nil in Ha.
  cbn [pick_run]. destruct (tier_run_spec t0 (t0 :: tiers)) as [Hle Hall].
  assert (0 < tier_run t0 (t0 :: tiers))%nat as Hpos by (cbn [tier_run]; rewrite N.eqb_refl; lia).
  pose proof (tier_run_next t0 (t0 :: tiers)) as Hnext.
  set (k := tier_run t0 (t0 :: tiers)) in *. destruct (N.leb_spec threshold (i + N.of_nat k - i)); [done|].
  intros E. assert (no_run threshold (drop k (t0 :: tiers))) as Hrest.
  { eapply IH; [|exact E]. rewrite length_drop. cbn [length] in *. lia. }
  intros a n t Hn Ha. destruct (decide (a < k)%nat) as [Hak|Hak].
  - assert (t = t0) as ->.
    { rewrite Forall_lookup in Hall. apply (Hall a). rewrite lookup_take_lt by done. apply Ha. lia. }
    destruct (decide (k < a + n)%nat); [|lia]. exfalso. apply Hnext, Ha. lia.
  - apply (Hrest (a - k)%nat n t Hn). intros j Hj. rewrite lookup_drop. apply Ha. lia.
Qed.

(** A picked range splits the tables in three. *)
Lemma slice_split {A} (l : list A) a b :
  a < b -> b <= len l ->
  exists lo run hi, l = lo ++ run ++ hi /\ slice l a b = Ok run /\ len lo = a /\ len run = b - a.
Proof.
  intros Hab Hb. exists (take (N.to_nat a) l), (sub_list a b l), (drop (N.to_nat b) l).
  assert (sub_list a b l ++ drop (N.to_nat b) l = drop (N.to_nat a) l) as E.
  { unfold sub_list. replace (N.to_nat b) with (N.to_nat a + N.to_nat (b - a))%nat by lia.
    by rewrite <- drop_drop, take_drop. }
  rewrite E, take_drop. split_and!; [done| |rewrite length_take; lia|by apply length_sub_list; lia].
  unfold slice. by rewrite (proj2 (N.leb_le a b)), (proj2 (N.leb_le b (len l))) by lia.
Qed.

Lemma position_of_mid lo t hi i :
  t_id t ∉ t_id <$> lo -> position_of (t_id t) (lo ++ t :: hi) i = Some (i + len lo).
Proof.
  revert i. induction lo as [|u lo IH]; intros i Hn; cbn [app position_of].
  - rewrite N.eqb_refl. f_equal. simpl. lia.
  - rewrite fmap_cons, not_elem_of_cons in Hn. destruct Hn as [Hne Hn].
    rewrite (proj2 (N.eqb_neq _ _)) by congruence. rewrite IH by done. f_equal. simpl. lia.
Qed.

(** The run is replaced by the one table that takes the id of its last. *)
Lemma splice_run_spec `{Platform} lo init t hi reader :
  NoDup (t_id <$> lo ++ (init ++ [t]) ++ hi) ->
  splice_run (lo ++ (init ++ [t]) ++ hi) (len (init ++ [t])) (t_id t) reader =
    Ok (lo ++ mkSst (t_id t) reader :: hi).
Proof.
  intros Hn. unfold splice_run.
  assert (lo ++ (init ++ [t]) ++ hi = (lo ++ init) ++ t :: hi) as E by (by rewrite <- !app_assoc).
  rewrite E in Hn |- *. rewrite fmap_app, fmap_cons in Hn.
  apply NoDup_app in Hn as (_ & Hn & _).
  rewrite position_of_mid by (intros Hx; by apply (Hn (t_id t) Hx); left). cbn [ok_or].
  obind. rewrite sub_u64_le by (rewrite !length_app; simpl; lia). obind.
  rewrite sub_u64_le by (rewrite !length_app; simpl; lia). obind.
  replace (0 + len (lo ++ init) + 1 - len (init ++ [t])) with (len lo) by (rewrite !length_app; simpl; lia).
  assert (slice ((lo ++ init) ++ t :: hi) 0 (len lo) = Ok lo) as ->.
  { unfold slice. rewrite (proj2 (N.leb_le 0 _)), (proj2 (N.leb_le (len lo) _)) by (rewrite ?length_app; lia).
    cbn [andb]. rewrite <- app_assoc, sub_list_take by lia. by rewrite sub_list_all. }
  obind. replace (0 + len (lo ++ init) + 1) with (len ((lo ++ init) ++ [t])) by (rewrite !length_app; simpl; lia).
  replace ((lo ++ init) ++ t :: hi) with (((lo ++ init) ++ [t]) ++ hi ++ []) by (by rewrite app_nil_r, <- !app_assoc).
  unfold slice. rewrite (proj2 (N.leb_le _ _)), (proj2 (N.leb_le (len _) _)) by (rewrite ?length_app; simpl; lia).
  cbn [andb]. rewrite sub_list_app by (rewrite ?length_app; simpl; lia). done.
Qed.

(** ** The history *)

(** A search through a middle layer. *)
Lemma newest_stack key b upper mid lower :
  (forall x y, x ∈ upper -> y ∈ mid ++ lower -> r_seq y < r_seq x) ->
  (forall x y, x ∈ mid -> y ∈ lower -> r_seq y < r_seq x) ->
  newest key b (upper ++ mid ++ lower) =
    match newest key b upper with
    | Some r => Some r
    | None => match newest key b mid with Some r => Some r | None => newest key b lower end
    end.
Proof.
  intros H1 H2. rewrite newest_layer by (intros x y Hx Hy _ _; specialize (H1 x y Hx Hy); lia).
  destruct (newest key b upper); [done|].
  apply newest_layer. intros x y Hx Hy _ _. specialize (H2 x y Hx Hy). lia.
Qed.

(** A bound beyond every version reads like a larger one. *)
Lemma newest_above key b b' l :
  (forall r, r ∈ l -> r_seq r < b) -> b <= b' -> newest key b l = newest key b' l.
Proof.
  intros Hl Hb. induction l as [|x l IH]; [done|]. cbn [newest].
  rewrite IH by (intros; apply Hl; by right).
  assert (visible key b x = visible key b' x) as ->; [|done].
  assert (r_seq x < b) by (apply Hl; by left).
  apply eq_iff_eq_true. rewrite !visible_spec. split; intros [? _]; (split; [done|lia]).
Qed.

(** Replacing the middle layers by their compaction changes no allowed read. *)
Lemma compacted_reads drop m upper mid lower res key b :
  compacted drop m mid res -> (drop = true -> lower = []) -> m <= b \/ (forall x, x ∈ mid -> r_seq x < b) ->
  (forall x y, x ∈ upper -> y ∈ mid ++ lower -> r_seq y < r_seq x) ->
  (forall x y, x ∈ mid -> y ∈ lower -> r_seq y < r_seq x) ->
  lookup_at key b (upper ++ res ++ lower) = lookup_at key b (upper ++ mid ++ lower).
Proof.
  intros [_ He Hn _ Hl _ _] Hd Hb H1 H2. unfold lookup_at in *.
  set (b' := N.max b m).
  assert (newest key b mid = newest key b' mid /\ newest key b res = newest key b' res) as [Em Er].
  { destruct Hb as [Hb|Hb]; [by replace b' with b by lia|].
    split; apply newest_above; auto; lia. }
  assert (forall y, y ∈ res ++ lower -> y ∈ mid ++ lower) as Hsub.
  { intros y. rewrite !elem_of_app. intros [?|?]; [left; by apply He|by right]. }
  rewrite !newest_stack by (try done; auto).
  destruct (newest key b upper); [done|]. rewrite Em, Er. destruct drop.
  - rewrite Hd by done. specialize (Hl key b' ltac:(lia)). cbn [newest].
    by destruct (newest key b' res), (newest key b' mid).
  - by rewrite Hn by (done || lia).
Qed.

Section history.
Context `{PlatformOk}.

(** A reader may be served from a compaction below [m] if it reads no earlier
    than [m], or later than every version that was merged. *)
Definition may_merge (m : N) (l : list Rec) (d : DbInner) : Prop :=
  forall b, live_bound d b -> m <= b \/ forall r, r ∈ l -> r_seq r < b.

(** The horizon that is read when a compaction starts allows it. *)
Lemma min_snapshot_may_merge hist T d l :
  history_ok hist T d -> (forall r, r ∈ l -> r ∈ hist) -> may_merge (min_snapshot_seq d) l d.
Proof.
  intros [] Hl b [Hb|Hb].
  - left. unfold min_snapshot_seq. destruct (db_snapshots d) as [|[h n] ss]; [by apply elem_of_nil in Hb|].
    rewrite fmap_cons in *. apply StronglySorted_inv in ho_snapshots as [_ Hs]. rewrite Forall_forall in Hs.
    apply elem_of_cons in Hb as [->|Hb]; [done|]. specialize (Hs b Hb). cbn in *. lia.
  - right. intros r Hr. rewrite Forall_forall in ho_seq. specialize (ho_seq r (Hl r Hr)). lia.
Qed.

(** Reading the live set, under any newer records, after a run was replaced by its
    compaction. *)
Lemma splice_reads T T' lo run hi t out drop m upper key b :
  layered (table_recs T <$> reverse (lo ++ run ++ hi)) ->
  NoDup (version <$> concat (table_recs T <$> run)) ->
  (forall x y, x ∈ upper -> y ∈ concat (table_recs T <$> reverse (lo ++ run ++ hi)) -> r_seq y < r_seq x) ->
  table_recs T' t = out -> (forall u, u ∈ lo ++ hi -> table_recs T' u = table_recs T u) ->
  compacted drop m (concat (table_recs T <$> run)) out -> (drop = true -> lo = []) ->
  m <= b \/ (forall r, r ∈ concat (table_recs T <$> run) -> r_seq r < b) ->
  lookup_at key b (upper ++ concat (table_recs T' <$> reverse (lo ++ t :: hi))) =
    lookup_at key b (upper ++ concat (table_recs T <$> reverse (lo ++ run ++ hi))).
Proof.
  intros Hl Hn Hup Er Hold Hco Hdrop Hb. set (M := table_recs T <$> reverse run).
  set (U := table_recs T <$> reverse hi). set (L := table_recs T <$> reverse lo).
  assert (table_recs T <$> reverse (lo ++ run ++ hi) = U ++ M ++ L) as EL by (by rewrite !reverse_app, !fmap_app, <- app_assoc).
  assert (table_recs T' <$> reverse (lo ++ t :: hi) = U ++ [out] ++ L) as EL'.
  { rewrite reverse_app, reverse_cons, !fmap_app, <- app_assoc. cbn [fmap list_fmap].
    rewrite Er. unfold U, L. f_equal; [|f_equal]; apply list_fmap_ext; intros i u Hu;
      apply Hold, elem_of_app; [right|left]; apply elem_of_reverse; by eapply list_elem_of_lookup_2. }
  assert (concat M ≡ₚ concat (table_recs T <$> run)) as HM.
  { apply concat_perm. unfold M. by rewrite reverse_Permutation. }
  rewrite EL, !concat_app in Hup. rewrite EL in Hl |- *. rewrite EL', !concat_app, !(app_assoc upper). cbn [concat]. rewrite app_nil_r.
  apply layered_app in Hl as (HU & (HM' & HL & HML)%layered_app & HUML). rewrite concat_app in HUML.
  eapply compacted_reads; [eapply compacted_perm; [done|symmetry; exact HM|exact Hco]|..].
  - intros Hd. unfold L. by rewrite Hdrop.
  - setoid_rewrite HM. done.
  - intros x y [Hx|Hx]%elem_of_app Hy; [|by apply HUML]. apply Hup; [done|]. set_solver.
  - done.
Qed.

Lemma history_compact hist T T' d d' lo run hi t out drop m :
  history_ok hist T d -> db_frozen d = None -> db_frozen d' = None ->
  db_active d' = db_active d -> db_snapshots d' = db_snapshots d -> db_next_seq d' = db_next_seq d ->
  db_sstables d = lo ++ run ++ hi -> db_sstables d' = lo ++ t :: hi ->
  table_recs T' t = out -> (forall u, u ∈ lo ++ hi -> table_recs T' u = table_recs T u) ->
  compacted drop m (concat (table_recs T <$> run)) out ->
  (drop = true -> lo = []) -> may_merge m (concat (table_recs T <$> run)) d ->
  history_ok hist T' d' /\
  (forall key b, live_bound d b -> lookup_at key b (concat (table_recs T' <$> reverse (db_sstables d'))) =
    lookup_at key b (concat (table_recs T <$> reverse (db_sstables d)))) /\
  forall r, r ∈ concat (table_recs T' <$> reverse (db_sstables d')) ->
    r ∈ concat (table_recs T <$> reverse (db_sstables d)).
Proof.
  intros Hh Hf Hf' Ea Es En Et Et' Er Hold Hco Hdrop Hmay. pose proof Hh as [].
  set (U := mt_iter (db_active d) :: (table_recs T <$> reverse hi)).
  set (M := table_recs T <$> reverse run). set (L := table_recs T <$> reverse lo).
  assert (layers T d = U ++ M ++ L) as EL.
  { rewrite layers_thawed, Et, !reverse_app, !fmap_app, <- app_assoc by done. done. }
  assert (layers T' d' = U ++ [out] ++ L) as EL'.
  { rewrite layers_thawed, Et', reverse_app, reverse_cons, !fmap_app, Ea, <- app_assoc by done. cbn [fmap list_fmap].
    rewrite Er. unfold U, L. cbn [app]. f_equal. f_equal; [|f_equal]; apply list_fmap_ext; intros i u Hu;
      apply Hold, elem_of_app; [right|left]; apply elem_of_reverse; by eapply list_elem_of_lookup_2. }
  assert (concat M ≡ₚ concat (table_recs T <$> run)) as HM.
  { apply concat_perm. unfold M. by rewrite reverse_Permutation. }
  assert (forall upper key b, live_bound d b -> (forall x y, x ∈ upper -> y ∈ concat (table_recs T <$> reverse (db_sstables d)) -> r_seq y < r_seq x) ->
    lookup_at key b (upper ++ concat (table_recs T' <$> reverse (db_sstables d'))) =
    lookup_at key b (upper ++ concat (table_recs T <$> reverse (db_sstables d)))) as Hread.
  { intros upper key b Hb Hup. rewrite layers_thawed in ho_layered, ho_unique by done. rewrite Et, Et' in *.
    eapply splice_reads; try done; [apply ho_layered| |by apply Hmay]. rewrite <- HM.
    cbn [concat] in ho_unique. rewrite !reverse_app, !fmap_app, !concat_app, !fmap_app in ho_unique.
    apply NoDup_app in ho_unique as (_ & _ & Hu). by apply NoDup_app in Hu as ((_ & _ & ?)%NoDup_app & _). }
  split; [|split; [intros key b Hb; apply (Hread [] key b Hb); intros x y Hx; by apply elem_of_nil in Hx|]].
  2: { intros r. rewrite Et', Et, !concat_table_elem. setoid_rewrite elem_of_reverse. intros (u & Hu & Hr).
    assert (u = t \/ u ∈ lo ++ hi) as [->|Hin] by set_solver; [|exists u; rewrite Hold in Hr by done; split; [set_solver|done]].
    rewrite Er in Hr. apply (co_elem _ _ _ _ Hco), concat_table_elem in Hr as (x & Hx & Hr).
    exists x. split; [set_solver|done]. }
  rewrite EL in ho_layered. rewrite EL, !concat_app in ho_unique, ho_sub.
  assert (forall r, r ∈ out -> r ∈ concat M) as Hsub by (intros r Hr; rewrite HM; by apply (co_elem _ _ _ _ Hco)).
  apply layered_app in ho_layered as (HU & (HM' & HL & HML)%layered_app & HUML). rewrite concat_app in HUML.
  assert (concat (layers T' d') = concat U ++ out ++ concat L) as EC by (rewrite EL', !concat_app; cbn [concat]; by rewrite app_nil_r).
  split; rewrite ?Es, ?En; try done.
  - rewrite EL'. apply layered_app. split_and!; [done|apply layered_app; split_and!; [by split; [intros a b _ Hb; by apply elem_of_nil in Hb|]|done|]|].
    + cbn [concat]. rewrite app_nil_r. auto.
    + intros a b Ha. rewrite concat_app. cbn [concat]. rewrite app_nil_r. intros Hb. apply HUML; [done|].
      rewrite elem_of_app in *. destruct Hb; auto.
  - rewrite EC. rewrite !fmap_app in *. apply NoDup_app in ho_unique as (HnU & HdU & HnML). apply NoDup_app in HnML as (_ & HdM & HnL).
    assert (forall v, v ∈ version <$> out -> v ∈ version <$> concat M) as Hv.
    { intros v (r & -> & Hr)%list_elem_of_fmap. apply list_elem_of_fmap_2. by apply Hsub. }
    apply NoDup_app. split_and!; [done|intros v Hx; specialize (HdU v Hx); rewrite elem_of_app in *; naive_solver|].
    apply NoDup_app. split_and!; [|by auto|done].
    apply run_sorted_versions, (co_sorted _ _ _ _ Hco).
  - intros r Hr. apply ho_sub. rewrite EC in Hr. rewrite !elem_of_app in *. destruct Hr as [?|[?|?]]; auto.
  - intros key b Hb. assert (live_bound d b) as Hb' by (unfold live_bound in *; by rewrite <- Es, <- En).
    rewrite <- ho_reads by done. rewrite !layers_thawed, Ea by done. cbn [concat]. apply Hread; [done|].
    intros x y Hx Hy. rewrite Et, !reverse_app, !fmap_app, !concat_app, <- !app_assoc in Hy.
    apply elem_of_app in Hy as [Hy|Hy].
    + destruct HU as [HU _]. by apply HU.
    + apply HUML; [|done]. unfold U. cbn [concat]. set_solver.
Qed.
End history.

(** ** The steps of a compaction *)

Lemma wp_path_size p s (Q : outcome N -> FsState -> Prop) :
  is_Some (path_data s p) ->
  (forall e s', stays s s' -> io_fault s e -> Q (Err e) s') ->
  (forall d s', path_data s p = Some d -> stays s s' -> Q (Ok (len d)) s') ->
  wp (path_size p) s Q.
Proof.
  intros [d Hd] Herr Hok. unfold wp, path_size.
  match goal with |- context [guarded ?op s] =>
    destruct (guarded_cases op s) as [(k & t & -> & Hs & Hnq)|(f & -> & Hst)] end; cbn [fst snd].
  - apply Herr; [by apply stays_fault|]. split; [eauto|done].
  - change (path_data (set_faults f s) p) with (path_data s p). rewrite Hd. cbn [fst snd]. by apply Hok.
Qed.

(** The size tiers of the tables' files. *)
Definition tiers_of (s : FsState) (tables : list SsTable) : list N :=
  (fun t => N.size (len (default [] (path_data s (rd_path (t_reader t)))))) <$> tables.

#[export] Instance tiers_of_proper : Proper (same_store ==> (=) ==> (=)) tiers_of.
Proof. intros s s' Hs tables ? <-. apply list_fmap_ext. intros i t _. by rewrite Hs. Qed.

(** Sizing the tables. *)
Lemma wp_tiers (tables : list SsTable) s :
  (forall t, t ∈ tables -> is_Some (path_data s (rd_path (t_reader t)))) ->
  wp (map_each tables (fun t => n ← path_size (rd_path (t_reader t)); mret (N.size n))) s (fun o s' => stays s s' /\
    match o with Ok l => l = tiers_of s tables | Err e => io_fault s e | Panic => False end).
Proof.
  revert s. induction tables as [|t tables IH]; intros s Ht; cbn [map_each]; [by apply wp_ret|].
  apply wp_bind, wp_bind, wp_path_size; [apply Ht; by left|done|].
  intros b s1 Hb Hs1. cbn [then_wp]. apply wp_ret. cbn [then_wp].
  apply wp_bind. eapply wp_mono; [apply IH|].
  { intros u Hu. rewrite <- (proj1 Hs1). apply Ht. by right. }
  intros [l|e|] s2 [Hs2 Ho]; cbn [then_wp]; [|split; [by etrans|by eapply io_fault_stays]|done].
  apply wp_ret. split; [by etrans|]. unfold tiers_of. rewrite fmap_cons, Hb. cbn [default from_option]. f_equal.
  by rewrite Ho, <- (proj1 Hs1).
Qed.

Lemma wp_pick_compaction tables threshold s :
  (forall t, t ∈ tables -> is_Some (path_data s (rd_path (t_reader t)))) ->
  wp (pick_compaction tables threshold) s (fun o s' => stays s s' /\
    match o with
    | Ok None => no_run threshold (tiers_of s tables)
    | Ok (Some (a, b)) => a < b <= len tables /\ threshold <= b - a
    | Err e => io_fault s e
    | Panic => False
    end).
Proof.
  intros Ht. unfold pick_compaction. destruct (N.ltb_spec (len tables) threshold) as [Hlt|_].
  { apply wp_ret. split; [done|]. intros i n t Hn Hi. specialize (Hi (i + n - 1)%nat ltac:(lia)).
    apply lookup_lt_Some in Hi. unfold tiers_of in Hi. rewrite length_fmap in Hi. lia. }
  apply wp_bind. eapply wp_mono; [by apply wp_tiers|].
  intros [l|e|] s' [Hs Ho]; cbn [then_wp]; [|done|done]. apply wp_ret. split; [done|].
  destruct (pick_run (length l) l 0 threshold) as [[a b]|] eqn:E.
  - apply pick_run_spec in E. rewrite Ho in E. unfold tiers_of in E. rewrite length_fmap in E. lia.
  - rewrite <- Ho. by eapply pick_run_none; [|exact E].
Qed.

Lemma ids_NoDup (l : list N) : StronglySorted N.lt l -> NoDup l.
Proof.
  induction 1 as [|x l _ IH Hf]; [constructor|]. apply NoDup_cons. split; [|done].
  intros Hx. rewrite Forall_forall in Hf. specialize (Hf x Hx). lia.
Qed.

(** The run holds the oldest table only if nothing is below it. *)
Lemma run_ends (tables lo : list SsTable) init t hi :
  tables = lo ++ (init ++ [t]) ++ hi -> StronglySorted N.lt (t_id <$> tables) ->
  exists first oldest, (init ++ [t]) !! 0%nat = Some first /\ tables !! 0%nat = Some oldest /\
    (t_id first = t_id oldest -> lo = []).
Proof.
  intros Et Hs.
  assert (exists first rest, init ++ [t] = first :: rest) as (first & rest & Efirst).
  { destruct init as [|x init]; [by exists t, []|]. by exists x, (init ++ [t]). }
  exists first. rewrite Et, Efirst. destruct lo as [|x lo]; [by exists first|].
  exists x. split_and!; [done..|]. intros E. exfalso.
  rewrite Et, Efirst in Hs. cbn [app] in Hs. rewrite fmap_cons in Hs. apply StronglySorted_inv in Hs as [_ Hf].
  rewrite Forall_forall in Hf. assert (t_id x < t_id first); [|lia]. apply Hf. apply list_elem_of_fmap_2. set_solver.
Qed.

(** [set_remove] of several ids. *)
Lemma apply_delete_edits edits ids st :
  apply_edits state_default edits = st ->
  apply_edits state_default (edits ++ (DeleteTable <$> ids)) =
    mkState (filter (fun x => x ∉ ids) (live_tables st)) (st_next_seq st) (st_next_sst_id st).
Proof.
  unfold apply_edits. intros E. rewrite foldl_app, E. clear E edits. revert st.
  induction ids as [|x ids IH]; intros [l s n]; cbn [fmap list_fmap foldl live_tables st_next_seq st_next_sst_id].
  { f_equal. symmetry. apply list_filter_all. intros y _. apply not_elem_of_nil. }
  change (DeleteTable <$> ids) with (list_fmap _ _ DeleteTable ids) in IH.
  rewrite IH. cbn [state_apply live_tables st_next_seq st_next_sst_id]. f_equal.
  unfold set_remove. rewrite list_filter_filter. apply list_filter_ext. intros y. rewrite not_elem_of_cons. tauto.
Qed.

(** Removing ids from the middle of an ascending list. *)
Lemma filter_middle (lo init hi : list N) :
  StronglySorted N.lt (lo ++ init ++ hi) -> filter (fun x => x ∉ init) (lo ++ init ++ hi) = lo ++ hi.
Proof.
  intros Hn%ids_NoDup. apply NoDup_app in Hn as (_ & H1 & (_ & H2 & _)%NoDup_app).
  rewrite !filter_app, (list_filter_none _ init) by (intros x Hx ?; done). cbn [app].
  rewrite !list_filter_all; [done|..]; intros x Hx Hi; [by apply (H2 x Hi)|apply (H1 x Hx); set_solver].
Qed.

Section compact.
Context `{PlatformOk}.

(** The tables of the run are read in full. *)
Lemma wp_iter_tables T ts w :
  world_ok T w -> (forall t, t ∈ ts -> T !! rd_cache (t_reader t) = Some (t_reader t, table_recs T t)) ->
  wp (map_each (t_reader <$> ts) iter_all) w (fun o w' => world_ok T w' /\ quiescent w w' /\
    match o with Ok x => x = table_recs T <$> ts | Err e => io_fault (w_fs w) e | Panic => False end).
Proof.
  revert w. induction ts as [|t ts IH]; intros w Hw Ht; [by apply wp_ret|].
  rewrite fmap_cons. cbn [map_each]. apply wp_bind.
  eapply wp_mono; [eapply (wp_world_iter T); [done|apply Ht; by left]|].
  intros [x|e|] w1 (Hw1 & Hq1 & Ho); cbn [then_wp]; [|done|done]. subst x.
  apply wp_bind. eapply wp_mono; [apply IH; [done|by intros; apply Ht; right]|].
  intros [x|e|] w2 (Hw2 & Hq2 & Ho); cbn [then_wp]; [|split; [done|split; [by etrans|]]|done].
  - subst x. apply wp_ret. split; [done|]. by split; [etrans|].
  - eapply io_fault_stays; [apply Hq1|done].
Qed.

(** [compact]: the run is merged into one table under a temporary name. *)
Lemma wp_compact T ts w p drop m :
  world_ok T w -> plain p -> p_dir p ∈ fs_dirs (w_fs w) ->
  (forall t, t ∈ ts -> T !! rd_cache (t_reader t) = Some (t_reader t, table_recs T t)) ->
  NoDup (version <$> concat (table_recs T <$> ts)) ->
  wp (compact p (t_reader <$> ts) drop m) w (fun o w' => touches [p] (w_fs w) (w_fs w') /\ world_ok T w' /\
    match o with
    | Ok _ => exists out b, compacted drop m (concat (table_recs T <$> ts)) out /\
        path_data (w_fs w') p = Some b /\ table_bytes out b
    | Err e => io_fault (w_fs w) e
    | Panic => False
    end).
Proof.
  intros Hw Hp Hdir Ht Hn. unfold compact. apply wp_bind. eapply wp_mono; [by apply (wp_iter_tables T)|].
  intros [x|e|] w1 (Hw1 & Hq1 & Ho); cbn [then_wp]; [|split; [apply touches_same; [apply Hw|apply Hq1]|done]|done].
  subst x. destruct (compact_records_spec (table_recs T <$> ts) drop m) as (out & E & Hc); [|done|].
  { apply Forall_fmap, Forall_forall. intros t Hin. destruct (wo_table _ _ Hw _ _ _ (Ht t Hin)) as [_ [_ Hrec _ _]]. apply Hrec. }
  rewrite E. apply wp_bind, wp_lift. cbn [then_wp]. unfold on_files. apply wp_zoom. cbn [fst snd].
  assert (touches [p] (w_fs w) (w_fs w1)) as Ht1 by (apply touches_same; [apply Hw|apply Hq1]).
  eapply wp_mono; [apply wp_write_table; [apply Hw1|done]|].
  intros o s2 [Ht2 Ho]. cbn [w_fs]. split; [by eapply touches_trans|].
  split; [by apply (world_ok_touches T w1 [p])|]. destruct o as [n|e|]; [|split; [apply Ho|]|done].
  - destruct Ho as (_ & _ & b & Hb & Htb). by exists out, b.
  - intros ?%(touches_quiet _ _ _ Ht1)%(proj2 Ho). by apply (touches_dirs _ _ _ Ht1) in Hdir.
Qed.

(** Removing the files of the stale tables. *)
Lemma wp_remove_stale d w dir ids (Q : outcome unit -> DbInner * World -> Prop) :
  good (w_fs w) -> NoDup ids -> Forall (fun i => i <= U64_MAX) ids ->
  (forall i, i ∈ ids -> is_Some (fs_names (w_fs w) !! sst_path dir i)) ->
  (forall e s', io_fault (w_fs w) e -> Q (Err e) s') ->
  (forall s', touches (sst_path dir <$> ids) (w_fs w) s' -> Q (Ok tt) (d, world_set_fs s' w)) ->
  wp (for_each ids (fun i => on_db_fs (remove (sst_path dir i)))) (d, w) Q.
Proof.
  revert w Q. induction ids as [|i ids IH]; intros w Q Hg Hn Hmax Hnm Herr HQ; cbn [for_each].
  { apply wp_ret. destruct w. apply (HQ w_fs). by apply touches_refl. }
  apply NoDup_cons in Hn as [Hi Hn]. apply Forall_cons in Hmax as [Him Hmax].
  apply wp_bind. unfold on_db_fs at 1, on_world. apply wp_zoom. unfold on_files. apply wp_zoom. cbn [fst snd].
  apply wp_remove; [done|..].
  { intros k s1 Hs Hq. cbn [then_wp]. apply Herr. split; [eauto|]. intros ?%Hq.
    destruct (Hnm i) as [h Hh]; [by left|]. congruence. }
  intros s1 Ht1 _. cbn [then_wp]. change (mkWorld s1 (w_caches w) (w_next_cache w)) with (world_set_fs s1 w).
  eapply (IH (world_set_fs s1 w) Q); [apply Ht1|done|done|..]; cbn [world_set_fs w_fs].
  - intros j Hj. rewrite (touches_names _ _ _ Ht1); [apply Hnm; by right|].
    rewrite list_elem_of_singleton. intros E. apply sst_path_inj in E; [congruence| |done].
    rewrite Forall_forall in Hmax. by apply Hmax.
  - intros e s' [He Hq]. apply Herr. split; [done|]. by intros ?%(touches_quiet _ _ _ Ht1).
  - intros s' Ht. rewrite fmap_cons in HQ. apply HQ. eapply touches_trans.
    + eapply (touches_mono [sst_path dir i]); [set_solver|done].
    + eapply touches_mono; [|exact Ht]. set_solver.
Qed.
End compact.

(** ** The compaction step *)

Section compact_proof.
Context `{PlatformOk}.

(** Whatever the log held it still holds. *)
Definition wal_kept (d : DbInner) (w : World) (s' : DbInner * World) : Prop :=
  db_wal s'.1 = db_wal d /\ forall batches,
    wal_holds (db_wal d) (w_fs w) WAL_VERSION batches -> wal_holds (db_wal d) (w_fs s'.2) WAL_VERSION batches.

Lemma wal_kept_refl d w : wal_kept d w (d, w).
Proof. by split. Qed.

Lemma wal_kept_trans d w d1 w1 s2 : wal_kept d w (d1, w1) -> wal_kept d1 w1 s2 -> wal_kept d w s2.
Proof. intros [E1 H1] [E2 H2]. cbn [fst snd] in *. split; [congruence|]. rewrite <- E1 in *. auto. Qed.

Lemma wal_kept_touches d d' w w' ps :
  good (w_fs w) -> touches ps (w_fs w) (w_fs w') -> wal_path (db_wal d) ∉ ps -> db_wal d' = db_wal d ->
  wal_kept d w (d', w').
Proof.
  intros Hg Ht Hp Ew. split; [done|]. intros batches (Hv & Hn & Hi & Hb & Hc & Hct & Hd). cbn [fst snd].
  pose proof (touches_good _ _ _ Ht) as [Hwf' _].
  assert (fs_names (w_fs w') !! wal_path (db_wal d) = Some (ba_file (wal_file (db_wal d)))) as Hn'
    by (by rewrite (touches_names _ _ _ Ht)).
  split_and!; try done; [by eapply (proj1 Hwf')|]. rewrite <- Hd.
  pose proof (touches_data _ _ _ Ht _ Hp) as E2.
  rewrite (path_data_names _ _ _ Hn' Hwf'), (path_data_names _ _ _ Hn (proj1 Hg)) in E2. by injection E2.
Qed.

Lemma wal_kept_log d w s' :
  wal_kept d w s' -> db_active s'.1 = db_active d -> db_opts s'.1 = db_opts d -> log_ok d w -> log_ok s'.1 s'.2.
Proof.
  intros [Ew Hk] Ea Eo (batches & Hwh & Hwf & E). exists batches. rewrite Ew, Ea, Eo. auto.
Qed.

(** The log is as good as before when other files change. *)
Lemma log_ok_touches d d' w w' ps :
  good (w_fs w) -> touches ps (w_fs w) (w_fs w') -> wal_path (db_wal d) ∉ ps ->
  db_wal d' = db_wal d -> db_active d' = db_active d -> db_opts d' = db_opts d ->
  log_ok d w -> log_ok d' w'.
Proof.
  intros Hg Ht Hp Ew Ea Eo. apply (wal_kept_log d w (d', w')); [by eapply wal_kept_touches|done|done].
Qed.

(** The ids of a live set whose middle is the run [init ++ [t]]. *)
Lemma run_ids (lo init hi : list SsTable) (t : SsTable) :
  let ids := t_id <$> (lo ++ (init ++ [t]) ++ hi) in
  StronglySorted N.lt ids ->
  (forall u, u ∈ lo ++ hi -> t_id u ∉ t_id t :: (t_id <$> init)) /\
  filter (fun x => x ∉ t_id <$> init) ids = (t_id <$> lo) ++ [t_id t] ++ (t_id <$> hi) /\
  NoDup (t_id <$> init) /\ (forall u, u ∈ init -> t_id u <> t_id t).
Proof.
  intros ids Hs. assert (ids = (t_id <$> lo) ++ (t_id <$> init) ++ [t_id t] ++ (t_id <$> hi)) as E.
  { unfold ids. rewrite !fmap_app. cbn. by rewrite <- app_assoc. }
  pose proof (ids_NoDup _ Hs) as Hn. rewrite E in Hs, Hn |- *.
  split; [|split; [by apply filter_middle|]]; apply NoDup_app in Hn as (_ & H1 & (H0 & H2 & (H3 & H4)%NoDup_cons)%NoDup_app).
  - intros u [Hu%(list_elem_of_fmap_2 t_id)|Hu%(list_elem_of_fmap_2 t_id)]%elem_of_app [Eu|Hi]%elem_of_cons.
    + apply (H1 _ Hu). rewrite Eu. set_solver.
    + apply (H1 _ Hu). set_solver.
    + apply H3. by rewrite <- Eu.
    + apply (H2 _ Hi). set_solver.
  - split; [done|]. intros u Hu Eu. apply (H2 (t_id u)); [by apply list_elem_of_fmap_2|]. rewrite Eu. set_solver.
Qed.

(** The manifest after a compaction. *)
Lemma manifest_live_spliced T T' d w w' lo init t hi t' m' edits :
  StronglySorted N.lt (t_id <$> db_sstables d) -> db_sstables d = lo ++ (init ++ [t]) ++ hi -> t_id t' = t_id t ->
  (forall u, u ∈ db_sstables d -> table_recs T' u = table_recs T u) ->
  (forall x, x ∈ table_recs T' t' -> exists u, u ∈ init ++ [t] /\ x ∈ table_recs T u) ->
  manifest_live T d w edits ->
  manifest_holds (db_dir d) m' (edits ++ (DeleteTable <$> (t_id <$> init))) (w_fs w') ->
  manifest_live T' (set_db_sstables (lo ++ t' :: hi) (set_db_manifest m' d)) w' (edits ++ (DeleteTable <$> (t_id <$> init))).
Proof.
  intros Hs Et Eid Hrecs Hl (Hm & Hne & Hids & Hni & Hns & Hsq) Hm'. unfold manifest_live. cbn zeta. rewrite Et in Hs.
  destruct (run_ids lo init hi t Hs) as (_ & Efil & _).
  rewrite (apply_delete_edits edits (t_id <$> init) _ eq_refl), Hids, Et, Efil.
  cbn [db_dir db_sstables db_next_sst_id db_next_seq db_manifest set_db_sstables set_db_manifest live_tables st_next_seq st_next_sst_id].
  split_and!; [done|by intros [? _]%app_nil|by rewrite fmap_app, fmap_cons, Eid|done|done|].
  intros u x. rewrite elem_of_app, elem_of_cons. intros [Hu|[->|Hu]] Hx.
  - rewrite Hrecs in Hx by (rewrite Et; set_solver). eapply Hsq; [|exact Hx]. rewrite Et. set_solver.
  - destruct (Hl x Hx) as (v & Hv & Hx'). eapply Hsq; [|exact Hx']. rewrite Et. set_solver.
  - rewrite Hrecs in Hx by (rewrite Et; set_solver). eapply Hsq; [|exact Hx]. rewrite Et. set_solver.
Qed.

(** The engine after a compaction. *)
Lemma db_ok_compact T d w w' lo init t hi r l m' edits :
  db_ok T d w ->
  let id := t_id t in
  let T' := <[rd_cache r := (r, l)]> T in
  let dir := db_dir d in
  let stale := t_id <$> init in
  let d' := set_db_sstables (lo ++ mkSst id r :: hi) (set_db_manifest m' d) in
  db_sstables d = lo ++ (init ++ [t]) ++ hi ->
  touches (sst_tmp_path dir id :: sst_path dir id :: manifest_path dir (m_generation m') ::
           (sst_path dir <$> stale)) (w_fs w) (w_fs w') ->
  world_ok T' w' -> T !! rd_cache r = None -> table_live T' dir w' (mkSst id r) ->
  (forall x, x ∈ l -> exists u, u ∈ init ++ [t] /\ x ∈ table_recs T u) ->
  manifest_live T d w edits ->
  manifest_holds dir m' (edits ++ (DeleteTable <$> stale)) (w_fs w') ->
  db_ok T' d' w' /\ wal_kept d w (d', w').
Proof.
  intros Hok id T' dir stale d' Et Ht Hw' Hnew Hlive Hl Hman Hm'. pose proof Hok as [].
  pose proof dk_ids as Hsorted. rewrite Et in Hsorted. destruct (run_ids lo init hi t Hsorted) as (Hids' & Efil & _). rewrite <- Et in Efil. fold id stale in Hids', Efil.
  assert (forall u x, T !! rd_cache (t_reader u) = Some x -> T' !! rd_cache (t_reader u) = Some x) as HT.
  { intros u x E. unfold T'. rewrite lookup_insert_ne; [done|]. intros E'. rewrite <- E' in E. congruence. }
  assert (forall u, u ∈ db_sstables d -> table_recs T' u = table_recs T u) as Hrecs.
  { intros u Hu. destruct (dk_table u Hu) as (lu & b & E & _). unfold table_recs. by rewrite E, (HT u _ E). }
  assert (table_recs T' (mkSst id r) = l) as Hrecs'.
  { unfold table_recs, T'. cbn [t_reader]. by rewrite lookup_insert_eq. }
  assert (forall u, u ∈ lo ++ hi -> u ∈ db_sstables d) as Hin by (intros u; rewrite Et; set_solver).
  assert (t ∈ db_sstables d) as Hint by (rewrite Et; set_solver).
  assert (forall u, u ∈ db_sstables d -> t_id u <= U64_MAX) as Hmax by (intros u Hu%dk_next_id; lia).
  assert (forall u, u ∈ lo ++ hi -> table_live T' dir w' u) as Hold.
  { intros u Hu. pose proof (Hids' u Hu) as Hnot. rewrite not_elem_of_cons in Hnot. destruct Hnot as [Hn1 Hn2].
    specialize (Hmax u (Hin u Hu)) as Hu'. specialize (Hmax t Hint) as Ht'. fold id in Ht'.
    eapply table_live_touches; [exact Ht| |by apply HT|by apply dk_table, Hin].
    rewrite !not_elem_of_cons. split_and!; [paths..|].
    intros (i & E & Hi)%list_elem_of_fmap. apply sst_path_inj in E; [congruence|done|].
    apply list_elem_of_fmap in Hi as (v & -> & Hv). apply Hmax. rewrite Et. set_solver. }
  assert (join dir WAL_FILENAME ∉ sst_path dir <$> stale) as Hwal.
  { intros (i & E & Hi)%list_elem_of_fmap. revert E. change (join dir WAL_FILENAME <> sst_path dir i). paths. }
  assert (join dir WAL_FILENAME ∉ sst_tmp_path dir id :: sst_path dir id :: manifest_path dir (m_generation m') ::
           (sst_path dir <$> stale)) as Hwal'.
  { rewrite !not_elem_of_cons. split_and!; [paths..|done]. }
  split; [split; cbn [d' db_dir db_sstables db_next_sst_id db_active db_frozen db_failed db_wal db_next_seq set_db_sstables set_db_manifest]; try done|].
  - by apply (touches_dirs _ _ _ Ht).
  - intros u. rewrite elem_of_app, elem_of_cons. intros [Hu|[->|Hu]]; [apply Hold; set_solver|done|apply Hold; set_solver].
  - rewrite fmap_app, fmap_cons.
    change (StronglySorted N.lt ((t_id <$> lo) ++ [id] ++ (t_id <$> hi))). rewrite <- Efil. by apply StronglySorted_filter.
  - intros u. rewrite elem_of_app, elem_of_cons. intros [Hu|[->|Hu]]; [apply dk_next_id, Hin; set_solver|exact (dk_next_id t Hint)|apply dk_next_id, Hin; set_solver].
  - by rewrite (touches_names _ _ _ Ht).
  - eexists. eapply (manifest_live_spliced T T' d w w' lo init t hi); try done. intros x. rewrite Hrecs'. apply Hl.
  - eapply wal_kept_touches; [apply dk_world|exact Ht|by rewrite dk_wal_path|done].
Qed.

(** The versions of a run are distinct. *)
Lemma run_versions hist T d lo run hi :
  history_ok hist T d -> db_frozen d = None -> db_sstables d = lo ++ run ++ hi ->
  NoDup (version <$> concat (table_recs T <$> run)).
Proof.
  intros Hh Hf Et. pose proof (ho_unique _ _ _ Hh) as Hu. rewrite layers_thawed in Hu by done.
  cbn [concat] in Hu. rewrite fmap_app in Hu. apply NoDup_app in Hu as (_ & _ & Hu).
  rewrite (concat_perm _ (table_recs T <$> db_sstables d)) in Hu by by rewrite reverse_Permutation.
  rewrite Et, !fmap_app, !concat_app, !fmap_app in Hu. apply NoDup_app in Hu as (_ & _ & Hu). by apply NoDup_app in Hu as (? & _).
Qed.

(** A file under a temporary name concerns nobody. *)
Lemma db_ok_tmp T d w w' id :
  db_ok T d w -> world_ok T w' -> touches [sst_tmp_path (db_dir d) id] (w_fs w) (w_fs w') -> db_ok T d w'.
Proof.
  intros [] Hw Ht. split; try done.
  - by apply (touches_dirs _ _ _ Ht).
  - intros u Hu. eapply table_live_touches; [exact Ht|paths|done|by apply dk_table].
  - rewrite (touches_names _ _ _ Ht); [done|paths].
  - destruct dk_manifest as (edits & Hm & Hrest). exists edits. split; [|done].
    eapply manifest_holds_touches; [exact Ht|paths|paths|done].
Qed.

(** The picked run is merged under a temporary name. *)
Definition merged (T : Tables) (run : list SsTable) (max_id : N) (d : DbInner) (w : World) : Prop :=
  exists lo init t hi drop m out b,
    run = init ++ [t] /\ max_id = t_id t /\ db_sstables d = lo ++ run ++ hi /\ (drop = true -> lo = []) /\
    compacted drop m (concat (table_recs T <$> run)) out /\ may_merge m (concat (table_recs T <$> run)) d /\
    path_data (w_fs w) (sst_tmp_path (db_dir d) max_id) = Some b /\ table_bytes out b.

(** A merge of a run of [tables], which were the live set or the older part of it, by
    an engine [d] whose files are those of [v]. *)
Lemma wp_merge_picked hist T d v w tables :
  serving hist T (v, w) -> db_dir d = db_dir v -> db_snapshots d = db_snapshots v ->
  tables `prefix_of` db_sstables v ->
  wp (merge_picked tables) (d, w) (fun o s' => s'.1 = d /\ serving hist T (v, s'.2) /\
    inside (db_dir v) (w_fs w) (w_fs s'.2) /\ wal_kept v w (v, s'.2) /\
    match o with
    | Ok (Some (run, max_id)) => merged T run max_id v s'.2 /\ o_compaction_threshold (db_opts d) <= len run
    | Ok None => no_run (o_compaction_threshold (db_opts d)) (tiers_of (w_fs s'.2) tables)
    | Err e => io_fault (w_fs w) e
    | Panic => False
    end).
Proof.
  intros [Hok Hh] Edir Esn [more Emore]. cbn [fst snd] in Hok, Hh. pose proof Hok as [].
  unfold merge_picked. apply wp_bind, wp_gets. cbn [then_wp fst].
  apply wp_bind. unfold on_db_fs at 1, on_world at 1. apply wp_zoom. unfold on_files at 1. apply wp_zoom. cbn [fst snd].
  eapply wp_mono; [apply wp_pick_compaction|].
  { intros t Ht. destruct (dk_table t) as (l & b & _ & -> & _ & -> & _); [rewrite Emore; set_solver|]. eauto. }
  intros o s1 [Hs1 Ho1]. set (w1 := mkWorld s1 _ _). change w1 with (world_set_fs s1 w) in *. clear w1.
  assert (touches [] (w_fs w) s1) as Ht01 by (apply touches_same; [apply dk_world|done]).
  assert (db_ok T v (world_set_fs s1 w)) as Hok1 by (apply (db_ok_quiescent T v w); [done|by eapply world_ok_touches|done]).
  assert (forall w2 ps, touches ps (w_fs w) (w_fs w2) -> join (db_dir v) WAL_FILENAME ∉ ps -> wal_kept v w (v, w2)) as Hkept.
  { intros w2 ps Ht Hp. eapply wal_kept_touches; [apply dk_world|exact Ht|by rewrite dk_wal_path|done]. }
  assert (forall R : Prop, R -> d = d /\ serving hist T (v, world_set_fs s1 w) /\ inside (db_dir v) (w_fs w) s1 /\
    wal_kept v w (v, world_set_fs s1 w) /\ R) as Hsame.
  { intros R HR. split_and!; try done; [by apply stays_inside|by apply (Hkept (world_set_fs s1 w) [] Ht01), not_elem_of_nil]. }
  destruct o as [[[start fin]|]|e|]; cbn [then_wp]; [| |by apply Hsame|done].
  2: { apply wp_ret, Hsame. cbn [world_set_fs w_fs snd]. by rewrite <- (proj1 Hs1). }
  destruct Ho1 as [Hab Hth].
  destruct (slice_split tables start fin) as (lo & run & hi & Et & Erun & Hlo & Hrun); [lia|lia|].
  rewrite Erun. apply wp_bind, wp_lift. cbn [then_wp].
  destruct (last run) as [t|] eqn:Elast.
  2: { apply last_None in Elast. subst run. simpl in Hrun. lia. }
  apply last_Some in Elast as [init ->].
  assert (db_sstables v = lo ++ (init ++ [t]) ++ hi ++ more) as Etv by (by rewrite Emore, Et, <- !app_assoc).
  assert (StronglySorted N.lt (t_id <$> tables)) as Hids.
  { rewrite Emore, fmap_app in dk_ids. by apply StronglySorted_app in dk_ids as (_ & ? & _). }
  destruct (run_ends tables lo init t hi) as (first & oldest & Efirst & Eold & Hdrop); [done|done|].
  unfold index. replace (N.to_nat 0) with 0%nat by lia. rewrite Efirst, Eold.
  apply wp_bind, wp_lift. cbn [then_wp]. apply wp_bind, wp_lift. cbn [then_wp].
  apply wp_bind. unfold on_world. apply wp_zoom. cbn [fst snd].
  replace (min_snapshot_seq d) with (min_snapshot_seq v) by (unfold min_snapshot_seq; by rewrite Esn). rewrite Edir.
  assert (forall r, r ∈ concat (table_recs T <$> (init ++ [t])) -> r ∈ concat (layers T v)) as Hsub.
  { intros r (u & Hu & Hr)%concat_table_elem. rewrite layers_thawed by done. cbn [concat]. apply elem_of_app. right.
    apply concat_table_elem. exists u. rewrite elem_of_reverse, Etv. split; [set_solver|done]. }
  eapply wp_mono; [apply (wp_compact T); [apply Hok1|apply sst_tmp_plain|apply Hok1| |]|].
  { intros u Hu. eapply table_recs_live, dk_table. rewrite Etv. set_solver. }
  { eapply run_versions; [exact Hh|done|exact Etv]. }
  intros o w2 (Ht2 & Hw2 & Ho). cbn [fst snd world_set_fs w_fs] in *.
  assert (db_ok T v w2) as Hok2 by (eapply db_ok_tmp; [exact Hok1|exact Hw2|exact Ht2]).
  assert (touches [sst_tmp_path (db_dir v) (t_id t)] (w_fs w) (w_fs w2)) as Ht02.
  { eapply touches_trans; [eapply touches_mono; [apply list_subseteq_nil|exact Ht01]|exact Ht2]. }
  assert (forall R : Prop, R -> d = d /\ serving hist T (v, w2) /\ inside (db_dir v) (w_fs w) (w_fs w2) /\
    wal_kept v w (v, w2) /\ R) as Hsame2.
  { intros R HR. split_and!; try done; [eapply touches_inside; [exact Ht02|by constructor]|eapply Hkept; [exact Ht02|paths]]. }
  destruct o as [n|e|]; cbn [then_wp]; [apply wp_ret| |done]; apply Hsame2.
  - destruct Ho as (out & b & Hc & Hb & Htb). split; [|lia].
    eexists lo, init, t, (hi ++ more), _, _, out, b. split_and!; [done|done|done| |exact Hc| |done|done].
    + intros E%N.eqb_eq. by apply Hdrop.
    + eapply min_snapshot_may_merge; [exact Hh|]. intros r Hr. by apply (ho_sub _ _ _ Hh), Hsub.
  - eapply io_fault_stays; [exact Hs1|done].
Qed.

Lemma wp_merge_run hist T d w :
  serving hist T (d, w) ->
  wp merge_run (d, w) (fun o s' => s'.1 = d /\ serving hist T s' /\ inside (db_dir d) (w_fs w) (w_fs s'.2) /\
    (log_ok d w -> log_ok d s'.2) /\
    match o with
    | Ok (Some (run, max_id)) => merged T run max_id d s'.2 /\ o_compaction_threshold (db_opts d) <= len run
    | Ok None => no_run (o_compaction_threshold (db_opts d)) (tiers_of (w_fs s'.2) (db_sstables d))
    | Err e => io_fault (w_fs w) e
    | Panic => False
    end).
Proof.
  intros Hs. unfold merge_run, live_set. apply wp_bind, wp_gets. cbn [then_wp fst].
  eapply wp_mono; [by apply (wp_merge_picked hist T d d w)|].
  intros o [d' w'] (E & Hs' & Hin & Hk & Ho). cbn [fst snd] in *. subst d'. split_and!; try done.
  by apply (wal_kept_log d w (d, w')).
Qed.

(** What publishing a merged run leaves of the engine: every reader of the live set
    reads what it read before, and whoever holds an old table keeps it. *)
Definition spliced (hist : list Rec) (T : Tables) (d : DbInner) (w : World) (s' : DbInner * World) : Prop :=
  exists T' tables mf, s'.1 = set_db_sstables tables (set_db_manifest mf d) /\ serving hist T' s' /\ T ⊆ T' /\
    m_generation mf = m_generation (db_manifest d) /\ wal_kept d w s' /\
    (forall key b, live_bound d b -> lookup_at key b (concat (table_recs T' <$> reverse tables)) =
      lookup_at key b (concat (table_recs T <$> reverse (db_sstables d)))) /\
    forall r, r ∈ concat (table_recs T' <$> reverse tables) -> r ∈ concat (table_recs T <$> reverse (db_sstables d)).

Definition publish_post (hist : list Rec) (T : Tables) (n : N) (d : DbInner) (w : World) (o : outcome unit)
    (s' : DbInner * World) : Prop :=
  match o with
  | Ok _ => spliced hist T d w s' /\ inside (db_dir d) (w_fs w) (w_fs s'.2) /\
      len (db_sstables s'.1) + n = len (db_sstables d) + 1
  | Err e => io_fault (w_fs w) e
  | Panic => False
  end.

(** The files of the run that are not needed any more go. *)
Lemma wp_unlink_stale d w dir ids (Q : outcome unit -> DbInner * World -> Prop) :
  good (w_fs w) -> NoDup ids -> Forall (fun i => i <= U64_MAX) ids ->
  (forall i, i ∈ ids -> is_Some (fs_names (w_fs w) !! sst_path dir i)) ->
  (forall e s', io_fault (w_fs w) e -> Q (Err e) s') ->
  (forall s', touches (sst_path dir <$> ids) (w_fs w) s' -> Q (Ok tt) (d, world_set_fs s' w)) ->
  wp (_ ← for_each ids (fun id => on_db_fs (remove (sst_path dir id))); on_db_fs (sync_dir dir)) (d, w) Q.
Proof.
  intros Hg Hn Hids Hnames Herr HQ. apply wp_bind, wp_remove_stale; [done..|].
  intros s4 Ht4. cbn [then_wp]. unfold on_db_fs, on_world. apply wp_zoom. unfold on_files. apply wp_zoom. cbn [fst snd].
  apply wp_sync_dir; [apply Ht4|..].
  - intros k s5 Hs Hq. apply Herr. split; [eauto|]. by intros ?%(touches_quiet _ _ _ Ht4).
  - intros s5 Ht5 _ _. change (mkWorld s5 _ _) with (world_set_fs s5 w). apply HQ.
    eapply touches_trans; [exact Ht4|]. eapply touches_mono; [|exact Ht5]. apply list_subseteq_nil.
Qed.

(** The engine once the merged table [mkSst (t_id t) r] took the place of the run. *)
Lemma spliced_serving hist T d w w' lo init t hi drop m out r mf edits :
  serving hist T (d, w) -> db_sstables d = lo ++ (init ++ [t]) ++ hi -> (drop = true -> lo = []) ->
  compacted drop m (concat (table_recs T <$> (init ++ [t]))) out ->
  may_merge m (concat (table_recs T <$> (init ++ [t]))) d ->
  let id := t_id t in
  let T' := <[rd_cache r := (r, out)]> T in
  touches (sst_tmp_path (db_dir d) id :: sst_path (db_dir d) id :: manifest_path (db_dir d) (m_generation mf) ::
           (sst_path (db_dir d) <$> (t_id <$> init))) (w_fs w) (w_fs w') ->
  world_ok T' w' -> T !! rd_cache r = None -> table_live T' (db_dir d) w' (mkSst id r) ->
  manifest_live T d w edits -> m_generation mf = m_generation (db_manifest d) ->
  manifest_holds (db_dir d) mf (edits ++ (DeleteTable <$> (t_id <$> init))) (w_fs w') ->
  spliced hist T d w (set_db_sstables (lo ++ mkSst id r :: hi) (set_db_manifest mf d), w').
Proof.
  intros [Hok Hh] Et Hdrop Hc Hmay id T' Ht Hw Hnew Hlv Hlive Hgen Hm. cbn [fst snd] in *.
  destruct (db_ok_compact T d w w' lo init t hi r out mf edits Hok Et Ht Hw Hnew Hlv) as [Hdb Hlog]; [|done|done|].
  { intros x Hx%(co_elem _ _ _ _ Hc). by apply concat_table_elem. }
  destruct (history_compact hist T T' d (set_db_sstables (lo ++ mkSst id r :: hi) (set_db_manifest mf d)) lo (init ++ [t]) hi
    (mkSst id r) out drop m) as (Hh' & Hreads & Hsub); try done; try apply Hok.
  - unfold table_recs, T'. cbn [t_reader]. by rewrite lookup_insert_eq.
  - intros u Hu. eapply insert_fresh_recs; [done|]. apply (dk_table _ _ _ Hok). rewrite Et. set_solver.
  - exists T', (lo ++ mkSst id r :: hi), mf. split_and!; try done. by apply insert_subseteq.
Qed.

(** A merged table can be written. *)
Lemma merged_records hist T d w lo init t hi out drop m :
  serving hist T (d, w) -> sum_encoded hist <= SIZE_LIMIT -> db_sstables d = lo ++ (init ++ [t]) ++ hi ->
  compacted drop m (concat (table_recs T <$> (init ++ [t]))) out -> table_records out.
Proof.
  intros [Hok Hh] Hsz Et Hc. cbn [fst snd] in *. eapply layer_table; [exact Hh|done|apply Hc|]. intros r Hr%(co_elem _ _ _ _ Hc).
  apply concat_table_elem in Hr as (u & Hu & Hr). apply (ho_sub _ _ _ Hh). rewrite layers_thawed by apply Hok. cbn [concat].
  apply elem_of_app. right. apply concat_table_elem. exists u. rewrite elem_of_reverse. split; [|done]. rewrite Et. set_solver.
Qed.

(** Publishing the merged table changes no read.  Between the merge and this
    step others may have written and flushed. *)
Lemma wp_publish_run hist T d w run max_id :
  serving hist T (d, w) -> sum_encoded hist <= SIZE_LIMIT -> merged T run max_id d w ->
  wp (publish_run run max_id) (d, w) (publish_post hist T (len run) d w).
Proof.
  intros Hs Hsz (lo & init & t & hi & drop & m & out & b & -> & -> & Et & Hdrop & Hc & Hmay & Hb & Htb).
  pose proof Hs as [Hok Hh]. cbn [fst snd] in Hok, Hh. pose proof Hok as [].
  set (dir := db_dir d) in *. set (id := t_id t) in *. set (stale := t_id <$> init).
  assert (forall u, u ∈ init ++ [t] -> u ∈ db_sstables d) as Hrun by (intros u Hu; rewrite Et; set_solver).
  assert (forall u, u ∈ init ++ [t] -> t_id u <= U64_MAX) as Hmax.
  { intros u Hu%Hrun. specialize (dk_next_id u Hu). lia. }
  assert (id <= U64_MAX) as Hid by (apply Hmax; set_solver).
  assert (table_records out) as Hout by (by eapply merged_records).
  assert (forall e ps (f : FsState), touches ps (w_fs w) f -> io_fault f e -> io_fault (w_fs w) e) as Herr.
  { intros e ps f Ht [He Hq]. split; [done|]. by intros ?%(touches_quiet _ _ _ Ht). }
  unfold publish_run. apply wp_bind, wp_gets. cbn [then_wp fst]. fold dir.
  (* renamed and opened *)
  apply wp_assoc3, wp_bind.
  apply (wp_publish T d w dir id _ out); [done|done|done|by exists b|done|].
  intros r w2 (Ht2 & Hw2 & Hnew & Hpath & Hname & Hbytes). cbn [then_wp].
  replace (take (length (init ++ [t]) - 1) (init ++ [t])) with init
    by (rewrite length_app, Nat.add_sub, take_app_length; done).
  fold stale.
  (* the manifest forgets the rest of the run *)
  pose proof dk_manifest as (edits & Hlive). pose proof Hlive as (Hm & Hne & _).
  assert (manifest_holds dir (db_manifest d) edits (w_fs w2)) as Hm2.
  { eapply manifest_holds_touches; [exact Ht2|paths|paths|done]. }
  apply wp_bind, wp_on_manifest. eapply wp_mono; [apply (manifest_append_holds dir); [apply Hw2|done|]|].
  { apply Forall_fmap, Forall_fmap, Forall_forall. intros u Hu. unfold wf_edit; cbn. apply Hmax. set_solver. }
  intros o [m' s3] (Ht3 & Hgen & Ho3). cbn [fst snd] in *. fold dir in Ht3.
  destruct o as [[]|e|]; cbn [then_wp]; [|eapply Herr; [exact Ht2|]; split; apply Ho3|done].
  (* the live set *)
  apply wp_bind, wp_gets. cbn [then_wp fst set_db_manifest db_sstables].
  pose proof dk_ids as Hsorted. rewrite Et in Hsorted. destruct (run_ids lo init hi t Hsorted) as (_ & _ & Hnd & Hother).
  assert (splice_run (db_sstables d) (len (init ++ [t])) id r = Ok (lo ++ mkSst id r :: hi)) as ->
    by (rewrite Et; apply splice_run_spec, ids_NoDup, Hsorted).
  apply wp_bind, wp_lift. cbn [then_wp]. apply wp_bind, wp_update. cbn [then_wp fst snd].
  (* the files *)
  assert (world_ok (<[rd_cache r := (r, out)]> T) (world_set_fs s3 w2)) as Hw3 by by eapply world_ok_touches.
  set (ps := sst_tmp_path dir id :: sst_path dir id :: manifest_path dir (m_generation m') :: (sst_path dir <$> stale)).
  assert (touches ps (w_fs w) s3) as Ht03.
  { eapply touches_trans; [eapply touches_mono; [|exact Ht2]; set_solver|]. eapply touches_mono; [|exact Ht3]. rewrite <- Hgen. set_solver. }
  apply wp_unlink_stale; [apply Hw3|done| | |intros e s' He; by eapply Herr; [exact Ht03|]|].
  { apply Forall_fmap, Forall_forall. intros u Hu. apply Hmax. set_solver. }
  { intros i (u & -> & Hu)%list_elem_of_fmap. cbn [world_set_fs w_fs]. assert (t_id u <= U64_MAX) by (apply Hmax; set_solver).
    specialize (Hother u Hu). destruct (dk_table u) as (lu & bu & _ & _ & Hn & _); [apply Hrun; set_solver|].
    rewrite (touches_names _ _ _ Ht3) by paths. rewrite (touches_names _ _ _ Ht2) by paths. eauto. }
  intros s5 Ht35. cbn [world_set_fs w_fs] in *.
  assert (touches ps (w_fs w) s5) as Ht05.
  { eapply touches_trans; [exact Ht03|]. eapply touches_mono; [|exact Ht35]. set_solver. }
  assert (forall q, (forall i, i <= U64_MAX -> i <> id -> q <> sst_path dir i) -> q ∉ sst_path dir <$> stale) as Hstale.
  { intros q Hq (i & E & Hi)%list_elem_of_fmap. revert E. apply list_elem_of_fmap in Hi as (u & -> & Hu).
    apply Hq; [apply Hmax; set_solver|by apply Hother]. }
  assert (table_live (<[rd_cache r := (r, out)]> T) dir w2 (mkSst id r)) as Hl2.
  { destruct Hbytes as (b2 & Hb2 & Htb2). exists out, b2. cbn [t_reader t_id]. by rewrite lookup_insert_eq. }
  split; [|split; [eapply touches_inside; [exact Ht05|]; repeat constructor; by apply Forall_fmap, Forall_true|]].
  - apply (spliced_serving hist T d w (world_set_fs s5 (world_set_fs s3 w2)) lo init t hi drop m out r m' edits); try done.
    + exact (world_ok_touches _ _ _ _ Hw3 Ht35).
    + eapply (table_live_touches _ _ dir (world_set_fs s3 w2)); [exact Ht35|apply Hstale; intros i Hi Hne'; cbn [t_id]; paths|done|].
      eapply (table_live_touches _ _ dir w2); [exact Ht3|paths|done|done].
    + eapply manifest_holds_touches; [exact Ht35| | |exact Ho3]; apply Hstale; intros i _ _; paths.
  - cbn. rewrite Et, !length_app. simpl. lia.
Qed.

(** What [spliced] says of the rest of the engine. *)
Lemma spliced_maintained hist T d w s' :
  spliced hist T d w s' -> inside (db_dir d) (w_fs w) (w_fs s'.2) ->
  maintained hist d w (Ok tt) s' /\ (db_wal s'.1 = db_wal d /\ db_compact s'.1 = db_compact d) /\
  db_active s'.1 = db_active d /\ db_next_sst_id s'.1 = db_next_sst_id d /\ (log_ok d w -> log_ok s'.1 s'.2).
Proof.
  intros (T' & tables & mf & E & Hs & _ & Hgen & Hk & _) Hin. pose proof (wal_kept_log _ _ _ Hk) as Hlog.
  destruct s' as [d' w']. cbn [fst snd] in *. subst d'. split; [|by split_and!; auto].
  split; [by exists T'|]. by split_and!.
Qed.

(** What others do while the run is merged leaves the merge as good as it was. *)
Lemma merged_grows T s T' s' run max_id :
  db_ok T s.1 s.2 -> grows T s T' s' -> merged T run max_id s.1 s.2 -> merged T' run max_id s'.1 s'.2.
Proof.
  intros Hok [Hd [more Ht] Hr Hb Hn Hf] (lo & init & t & hi & drop & m & out & b & -> & -> & Et & Hdrop & Hc & Hmay & Hpd & Htb).
  assert (t ∈ db_sstables s.1) as Hin by (rewrite Et; set_solver).
  assert (table_recs T' <$> (init ++ [t]) = table_recs T <$> (init ++ [t])) as E.
  { apply list_fmap_ext. intros i u Hu%list_elem_of_lookup_2. apply Hr. rewrite Et. set_solver. }
  exists lo, init, t, (hi ++ more), drop, m, out, b. rewrite E. split_and!; try done.
  - by rewrite Ht, Et, <- !app_assoc.
  - intros b' Hb'. by apply Hmay, Hb.
  - pose proof (dk_next_id _ _ _ Hok t Hin). pose proof (dk_id_max _ _ _ Hok). rewrite Hd, Hf; [done|lia|lia].
Qed.

(** A whole step: with [true], a run of at least [threshold] tables became one. *)
Definition stepped (d : DbInner) (w : World) (o : outcome bool) (s' : DbInner * World) : Prop :=
  match o with
  | Ok more =>
      (db_wal s'.1 = db_wal d /\ db_compact s'.1 = db_compact d) /\
      db_active s'.1 = db_active d /\ db_next_sst_id s'.1 = db_next_sst_id d /\
      (log_ok d w -> log_ok s'.1 s'.2) /\
      if more then
        1 <= len (db_sstables s'.1) /\
        len (db_sstables s'.1) + o_compaction_threshold (db_opts d) <= len (db_sstables d) + 1
      else db_sstables s'.1 = db_sstables d /\
        no_run (o_compaction_threshold (db_opts d)) (tiers_of (w_fs s'.2) (db_sstables d))
  | _ => True
  end.

Lemma wp_compact_step_impl hist T d w :
  serving hist T (d, w) -> sum_encoded hist <= SIZE_LIMIT ->
  wp compact_step_impl (d, w) (fun o s' => maintained hist d w o s' /\ stepped d w o s').
Proof.
  intros Hs Hsz. unfold compact_step_impl. apply wp_bind. eapply wp_mono; [by apply (wp_merge_run hist T)|].
  intros [[[run max_id]|]|e|] [d1 w1] (E & Hs1 & Hq1 & Hlog1 & Ho); cbn [then_wp fst snd] in *; subst d1; [| |done|done].
  2: { apply wp_ret. split; [split; [by exists T|by split_and!]|by split_and!]. }
  destruct Ho as [Hm Hth]. apply wp_bind. eapply wp_mono; [by apply (wp_publish_run hist T)|].
  intros [[]|e|] [d2 w2] Hmt; cbn [then_wp]; [apply wp_ret| |done].
  - destruct Hmt as (Hspl & Hin2 & Hlen). destruct (spliced_maintained _ _ _ _ _ Hspl Hin2) as ((Hs2 & Hsc & Hseq & Hq2) & [? ?] & ? & ? & Hlog2).
    assert (len run <= len (db_sstables d)).
    { destruct Hm as (lo & init & t & hi & ? & ? & ? & ? & _ & _ & -> & _). rewrite !length_app. lia. }
    split; [split_and!; [done|done|apply Hseq|apply Hseq|by etrans]|]. split_and!; auto; cbn [fst] in *; lia.
  - split; [|done]. destruct Hmt as [He Hq]. split; [done|]. by intros ?%(in_quiet _ _ _ Hq1).
Qed.

Lemma wp_compact_step hist T d w :
  serving hist T (d, w) -> sum_encoded hist <= SIZE_LIMIT ->
  wp compact_step (d, w) (fun o s' => maintenance_post hist d w o s' /\ stepped d w o s').
Proof.
  intros Hs Hsz. unfold compact_step. apply wp_bind, (wp_health T); [apply Hs|]. cbn [then_wp].
  apply wp_latching. eapply wp_mono; [by eapply wp_compact_step_impl|].
  intros [more|e|] s' [Hm Ho]; [done| |done]. intros e' d' Hf. split; [|done]. split; [done|apply Hm].
Qed.

(** ** Running steps to the end *)

(** What running steps to the end leaves, apart from the history: no run is left to merge. *)
Definition settled (d : DbInner) (w : World) (o : outcome unit) (s' : DbInner * World) : Prop :=
  o = Ok tt -> (db_wal s'.1 = db_wal d /\ db_compact s'.1 = db_compact d) /\ db_active s'.1 = db_active d /\ db_next_sst_id s'.1 = db_next_sst_id d /\
    (log_ok d w -> log_ok s'.1 s'.2) /\ len (db_sstables s'.1) <= len (db_sstables d) /\
    no_run (o_compaction_threshold (db_opts d)) (tiers_of (w_fs s'.2) (db_sstables s'.1)).

(** With a threshold of two or more every step that merges leaves fewer tables,
    so as many turns as there are tables, and one more, reach the end. *)
Lemma wp_compact_while hist fuel T d w :
  serving hist T (d, w) -> sum_encoded hist <= SIZE_LIMIT -> 2 <= o_compaction_threshold (db_opts d) ->
  (length (db_sstables d) < fuel)%nat ->
  wp (compact_while fuel) (d, w) (fun o s' => maintenance_post hist d w o s' /\ settled d w o s').
Proof.
  intros Hs Hsz Hth. revert T d w Hs Hth. induction fuel as [|fuel IH]; intros T d w Hs Hth Hf; [lia|].
  cbn [compact_while]. apply wp_bind. eapply wp_mono; [by apply (wp_compact_step hist T)|].
  intros [more|e|] [d1 w1] [Hm Hst]; cbn [then_wp]; [|by split; [apply Hm|]|done].
  destruct Hm as ([T1 Hs1] & Hsc & [Hseq Htk] & Hq1), Hst as ([Hw Hcq] & Ha & Hi & Hlog & Hmore). cbn [fst snd] in *.
  destruct more.
  2: { apply wp_ret. split; [split; [by exists T1|by split_and!]|]. intros _. destruct Hmore as [Hmore Hnone].
    cbn [fst snd]. rewrite Hmore. by split_and!. }
  pose proof Hsc as (_ & Eo & _). eapply wp_mono; [apply (IH T1); [done|by rewrite Eo|lia]|].
  intros [[]|e|] s2 [Hm2 Ho2]; [|split; [|done]; destruct Hm2 as [He Hq]; split; [done|by intros ?%(in_quiet _ _ _ Hq1)]|done].
  destruct Hm2 as (Hs2 & Hsc2 & [Hseq2 Htk2] & Hq2), (Ho2 eq_refl) as ([? ?] & ? & ? & ? & ? & Hnone).
  split; [split_and!; [done|by etrans|congruence|congruence|etrans; [done|by rewrite <- (proj1 Hsc)]]|]. intros _. rewrite Eo in Hnone.
  split_and!; [congruence..|auto|lia|done].
Qed.

(** With a threshold of zero or one, a table is a run by itself: every step asks
    for another one, as long as nothing fails. *)
Lemma compact_steps_forever hist (l : list nat) T d w :
  serving hist T (d, w) -> sum_encoded hist <= SIZE_LIMIT -> o_compaction_threshold (db_opts d) <= 1 ->
  db_sstables d <> [] -> quiet (w_fs w) ->
  wp (map_each l (fun _ => compact_step)) (d, w) (fun o _ => o = Ok (replicate (length l) true)).
Proof.
  intros Hs Hsz Hth. revert T d w Hs Hth. induction l as [|x l IH]; intros T d w Hs Hth Hne Hq; cbn [map_each]; [by apply wp_ret|].
  apply wp_bind. eapply wp_mono; [by apply (wp_compact_step hist T)|].
  intros [more|e|] [d1 w1] [Hm Hst]; cbn [then_wp]; [|by destruct Hm|done].
  destruct Hm as ([T1 Hs1] & (_ & Eo & _) & _ & Hq1), Hst as (_ & _ & _ & _ & Hmore). cbn [fst snd] in *.
  destruct more.
  - apply wp_bind. eapply wp_mono; [apply (IH T1 d1 w1); [done|by rewrite Eo| |by apply Hq1]|].
    { intros E. rewrite E in Hmore. simpl in Hmore. lia. }
    intros o s' ->. cbn [then_wp]. by apply wp_ret.
  - exfalso. destruct Hmore as [_ Hno]. destruct (db_sstables d) as [|t tables]; [done|].
    assert (N.of_nat 1 < o_compaction_threshold (db_opts d)); [|lia].
    apply (Hno 0%nat 1%nat (N.size (len (default [] (path_data (w_fs w1) (rd_path (t_reader t))))))); [lia|].
    intros j Hj. by replace j with 0%nat by lia.
Qed.

(** [Db::flush]: the MemTable becomes a table and compaction runs to its end. *)
Lemma wp_db_flush hist T d w :
  serving hist T (d, w) -> sum_encoded hist <= SIZE_LIMIT -> db_next_sst_id d + 1 <= U64_MAX ->
  2 <= o_compaction_threshold (db_opts d) ->
  wp db_flush (d, w) (fun o s' => maintenance_post hist d w o s' /\
    (o = Ok tt -> flushed d w s' /\ no_run (o_compaction_threshold (db_opts d)) (tiers_of (w_fs s'.2) (db_sstables s'.1)))).
Proof.
  intros Hs Hsz Hid Hth. unfold db_flush. apply wp_bind. eapply wp_mono; [by apply (wp_flush_inner hist T)|].
  intros [[]|e|] [d1 w1] [Hm Ho]; cbn [then_wp]; [|by split; [apply Hm|]|done].
  destruct Hm as ([T1 Hs1] & Hsc & [Hseq Htk] & Hq1), (Ho eq_refl) as ((Ha & Hlog & Hlen & Hnid) & _). cbn [fst snd] in *.
  pose proof Hsc as (_ & Eo & _).
  apply wp_bind, wp_gets. cbn [then_wp fst]. eapply wp_mono; [apply (wp_compact_while hist _ T1); [done|done|by rewrite Eo|lia]|].
  intros [[]|e|] s2 [Hm2 Ho2]; [|split; [|done]; destruct Hm2 as [He Hq]; split; [done|by intros ?%(in_quiet _ _ _ Hq1)]|done].
  destruct Hm2 as (Hs2 & Hsc2 & [Hseq2 Htk2] & Hq2), (Ho2 eq_refl) as (Ew & Ea & Ei & Hl2 & ? & Hnone).
  split; [split_and!; [done|by etrans|congruence|congruence|etrans; [done|by rewrite <- (proj1 Hsc)]]|]. intros _. unfold flushed. rewrite Ea, Ei, <- Eo.
  split_and!; [done|auto|lia|lia|done].
Qed.

(** [Db::maintain]: one flush or one compaction step. *)
Lemma wp_db_maintain hist T d w :
  serving hist T (d, w) -> sum_encoded hist <= SIZE_LIMIT -> db_next_sst_id d + 1 <= U64_MAX ->
  wp db_maintain (d, w) (fun o s' => maintenance_post hist d w o s' /\
    forall b, o = Ok b -> (log_ok d w -> log_ok s'.1 s'.2) /\ db_next_sst_id s'.1 <= db_next_sst_id d + 1).
Proof.
  intros Hs Hsz Hid. unfold db_maintain. apply wp_bind, wp_gets. cbn [then_wp fst].
  destruct (flush_is_due d).
  - apply wp_bind. eapply wp_mono; [by apply (wp_flush_inner hist T)|].
    intros [[]|e|] s1 [Hm Ho]; cbn [then_wp]; [apply wp_ret|by split; [apply Hm|]|done].
    split; [done|]. intros b _. destruct (Ho eq_refl) as ((_ & Hlog & _ & Hn) & _). auto.
  - eapply wp_mono; [by apply (wp_compact_step hist T)|]. intros o s' [Hm Hst]. split; [done|].
    intros b ->. destruct Hst as (_ & _ & -> & Hlog & _). split; [done|lia].
Qed.
End compact_proof.
