(* ===== verification/Specification.v ===== *)
(** * What the store promises

    The abstract store: a finite map from keys to values, and a frozen copy of it
    per snapshot.  Every client operation has a meaning on it ([spec_exec]);
    maintenance has none.  The lemmas relate the map to a history of versions. *)
From Stdlib Require Import NArith Lia.
From stdpp Require Import base numbers list sorting strings gmap.
From S2P Require Import Prelude Errors FileNames Platform State FileSystem Store Records Versions MemTable.
From S2P Require Import Headers Frames WriteAheadLog Manifest ManifestRecovery.
From S2P Require Import Bloom SsTables TableLayout TableReads Tables Merging Compaction Scans Engine Layers Writes.

Local Open Scope N_scope.

(** What a client and the background threads may ask of an engine.  A client names
    its live snapshots by their position, the latest first. *)
Inductive Op :=
| Put (key value : bytes)
| Delete (key : bytes)
| Batch (ops : WriteBatch)
| Get (key : bytes)
| Scan (start fin : option bytes) (limit : N)
| TakeSnapshot
| SnapshotGet (i : nat) (key : bytes)
| SnapshotScan (i : nat) (start fin : option bytes) (limit : N)
| DropSnapshot (i : nat)
| FlushOnly
| Flush
| Maintain
| Worker
| Compactor.

Inductive Reply :=
| Done
| Value (value : option bytes)
| Entries (entries : list (bytes * bytes))
| NoSnapshot.

(** ** The abstract store *)

Record KV := mkKV { kv_map : gmap bytes bytes; kv_snaps : list (gmap bytes bytes) }.

Definition kv_write (m : gmap bytes bytes) (op : bytes * option bytes) : gmap bytes bytes :=
  match op.2 with
  | Some v => <[op.1 := v]> m
  | None => delete op.1 m
  end.

(** The first [limit] bindings of the range, in the order of the keys. *)
Definition kv_entries (m : gmap bytes bytes) (start fin : option bytes) (limit : N) : list (bytes * bytes) :=
  take (N.to_nat limit) (read_keys (fun k => m !! k) start fin (map_to_list m).*1).

Definition kv_update (ops : WriteBatch) (sp : KV) : KV := mkKV (foldl kv_write (kv_map sp) ops) (kv_snaps sp).

Definition spec_exec (sp : KV) (op : Op) : Reply * KV :=
  match op with
  | Put key value => (Done, kv_update [(key, Some value)] sp)
  | Delete key => (Done, kv_update [(key, None)] sp)
  | Batch ops => (Done, kv_update ops sp)
  | Get key => (Value (kv_map sp !! key), sp)
  | Scan start fin limit => (Entries (kv_entries (kv_map sp) start fin limit), sp)
  | TakeSnapshot => (Done, mkKV (kv_map sp) (kv_map sp :: kv_snaps sp))
  | SnapshotGet i key =>
      (match kv_snaps sp !! i with Some m => Value (m !! key) | None => NoSnapshot end, sp)
  | SnapshotScan i start fin limit =>
      (match kv_snaps sp !! i with Some m => Entries (kv_entries m start fin limit) | None => NoSnapshot end, sp)
  | DropSnapshot i =>
      (match kv_snaps sp !! i with Some _ => Done | None => NoSnapshot end,
       mkKV (kv_map sp) (delete i (kv_snaps sp)))
  | FlushOnly | Flush | Maintain | Worker | Compactor => (Done, sp)
  end.

(** ** Maps and histories *)

(** The map [m] is what a reader at [bound] sees of the history. *)
Definition tracks (hist : list Rec) (bound : N) (m : gmap bytes bytes) : Prop :=
  forall key, m !! key = lookup_at key bound hist.

Lemma lookup_snoc key b hist r :
  (forall x, x ∈ hist -> r_seq x < r_seq r) ->
  lookup_at key b (hist ++ [r]) = if visible key b r then r_value r else lookup_at key b hist.
Proof.
  intros Hn. unfold lookup_at. rewrite newest_app. cbn [newest]. destruct (visible key b r).
  - destruct (newest key b hist) as [x|] eqn:E; [|done]. apply newest_some in E as (Hx & _).
    specialize (Hn x Hx). by rewrite (proj2 (N.ltb_lt _ _)).
  - by destruct (newest key b hist).
Qed.

(** Writes that a reader is too early to see. *)
Lemma lookup_invisible key b hist recs :
  (forall r, r ∈ recs -> b <= r_seq r) -> lookup_at key b (hist ++ recs) = lookup_at key b hist.
Proof.
  intros Hr. unfold lookup_at. rewrite newest_app.
  rewrite (proj2 (newest_none key b recs)); [by destruct (newest key b hist)|].
  intros r Hin. destruct (visible key b r) eqn:E; [|done]. apply visible_spec in E as [_ ?]. specialize (Hr r Hin). lia.
Qed.

Lemma tracks_invisible hist b m recs :
  (forall r, r ∈ recs -> b <= r_seq r) -> tracks hist b m -> tracks (hist ++ recs) b m.
Proof. intros Hr Hm key. by rewrite lookup_invisible. Qed.

Lemma tracks_snaps hist hs ms n recs :
  Forall2 (tracks hist) hs ms -> Forall (fun h => h <= n) hs -> (forall r, r ∈ recs -> n <= r_seq r) ->
  Forall2 (tracks (hist ++ recs)) hs ms.
Proof.
  intros Hm Hh Hr. induction Hm as [|h m hs ms Hm _ IH]; constructor.
  - apply Forall_cons in Hh as [Hh _]. apply tracks_invisible; [|done]. intros r Hin%Hr. lia.
  - apply Forall_cons in Hh as [_ Hh]. by apply IH.
Qed.

(** A batch of writes is seen as the batch of updates, in order. *)
Lemma tracks_write hist b m seq ops :
  (forall r, r ∈ hist -> r_seq r < seq) -> seq + len ops <= b -> tracks hist b m ->
  tracks (hist ++ numbered seq ops) b (foldl kv_write m ops).
Proof.
  revert hist m seq. induction ops as [|[k v] ops IH]; intros hist m seq Hlt Hb Hm; [by rewrite app_nil_r|].
  cbn [numbered foldl]. destruct (make_record_fields k v seq) as (Ek & Ev & Es).
  set (r := make_record k v seq) in *. simpl in Hb.
  change (r :: numbered (seq + 1) ops) with ([r] ++ numbered (seq + 1) ops). rewrite app_assoc. apply IH.
  - intros x [Hx| ->%list_elem_of_singleton]%elem_of_app; [specialize (Hlt x Hx)|rewrite Es]; lia.
  - lia.
  - intros key. rewrite lookup_snoc by (rewrite Es; auto). unfold kv_write. cbn [fst snd].
    destruct (decide (k = key)) as [<-|Hne].
    + rewrite (proj2 (visible_spec _ _ _)), Ev by (split; [done|lia]).
      destruct v; [by rewrite lookup_insert_eq|by rewrite lookup_delete_eq].
    + assert (visible key b r = false) as ->.
      { destruct (visible key b r) eqn:E; [|done]. apply visible_spec in E as [? _]. congruence. }
      rewrite <- Hm. destruct v; [by rewrite lookup_insert_ne|by rewrite lookup_delete_ne].
Qed.

(** Scans read the bindings of the range. *)
Lemma entries_in_range m b start fin limit l :
  (forall key, in_range start fin key = true -> m !! key = lookup_at key b l) ->
  kv_entries m start fin limit = take (N.to_nat limit) (scan_ref b start fin l).
Proof.
  intros E. unfold kv_entries. f_equal. destruct (scan_ref_spec b start fin l) as [S2 E2].
  destruct (read_keys_spec (fun k => m !! k) start fin (map_to_list m).*1) as [S1 E1]; [apply NoDup_fst_map_to_list|..].
  { intros k v Hk. apply list_elem_of_fmap. exists (k, v). split; [done|]. by apply elem_of_map_to_list. }
  apply (entries_unique _ _ S1 S2). intros k v. rewrite E1, E2. split; intros [Hr Hk]; (split; [done|]); specialize (E k Hr); congruence.
Qed.

Lemma tracks_entries hist b m start fin limit :
  tracks hist b m -> kv_entries m start fin limit = take (N.to_nat limit) (scan_ref b start fin hist).
Proof. intros Hm. apply entries_in_range. intros key _. apply Hm. Qed.

(** A reader sees some map. *)
Lemma tracks_exists hist b : exists m, tracks hist b m.
Proof.
  assert (forall keys : list bytes, exists m : gmap bytes bytes, forall k, m !! k = if decide (k ∈ keys) then lookup_at k b hist else None) as Hm.
  { intros keys. induction keys as [|x keys [m Hm]]; [by exists ∅|]. exists (partial_alter (fun _ => lookup_at x b hist) x m).
    intros k. destruct (decide (x = k)) as [<-|Hne].
    - rewrite lookup_partial_alter_eq, decide_True by set_solver. done.
    - rewrite lookup_partial_alter_ne, Hm by done. repeat case_decide; set_solver. }
  destruct (Hm (r_key <$> hist)) as [m E]. exists m. intros k. rewrite E. case_decide as Hk; [done|].
  destruct (lookup_at k b hist) as [v|] eqn:Ek; [|done]. by apply lookup_at_key in Ek.
Qed.

(** Equal reads give equal scans. *)
Lemma scan_ref_ext b start fin l l' :
  (forall key, lookup_at key b l = lookup_at key b l') -> scan_ref b start fin l = scan_ref b start fin l'.
Proof.
  intros E. unfold scan_ref. apply read_keys_ext; [apply NoDup_remove_dups..|done| |].
  - intros k v Hk. rewrite elem_of_remove_dups. by eapply lookup_at_key.
  - intros k v Hk. rewrite elem_of_remove_dups. rewrite E in Hk. by eapply lookup_at_key.
Qed.
