(* ===== verification/Sessions.v ===== *)
(** * Sessions: the engine refines the abstract store

    Whatever a client and the background threads ask of an engine, in whatever
    order, the replies are those of the abstract store of [Specification].  I/O
    errors refuse operations, or poison the engine; they never produce a wrong
    reply. *)
From Stdlib Require Import NArith Lia.
From stdpp Require Import base numbers list sorting strings gmap.
From S2P Require Import Prelude Errors FileNames Platform State FileSystem Store Records Versions MemTable.
From S2P Require Import Headers Frames WriteAheadLog Manifest ManifestRecovery.
From S2P Require Import Bloom SsTables TableLayout TableReads Tables Merging Compaction Scans Engine.
From S2P Require Import Layers Writes Flushes CompactSteps Specification.

Local Open Scope N_scope.

(** ** Operations on the engine *)

Section exec.
Context `{Platform}.

(** [hs] are the horizons of the client's live [Snapshot]s. *)
Definition with_snapshot (hs : list N) (i : nat) (f : N -> DbM Reply) : DbM Reply :=
  match hs !! i with Some h => f h | None => mret NoSnapshot end.

Definition exec (hs : list N) (op : Op) : DbM (Reply * list N) :=
  match op with
  | Put key value => _ ← db_put key value; mret (Done, hs)
  | Delete key => _ ← db_delete key; mret (Done, hs)
  | Batch ops => _ ← db_write_batch ops; mret (Done, hs)
  | Get key => v ← db_get key; mret (Value v, hs)
  | Scan start fin limit => l ← db_scan start fin limit; mret (Entries l, hs)
  | TakeSnapshot => h ← db_snapshot; mret (Done, h :: hs)
  | SnapshotGet i key =>
      r ← with_snapshot hs i (fun h => v ← db_get_at key h; mret (Value v)); mret (r, hs)
  | SnapshotScan i start fin limit =>
      r ← with_snapshot hs i (fun h => l ← db_scan_at start fin limit h; mret (Entries l)); mret (r, hs)
  | DropSnapshot i =>
      r ← with_snapshot hs i (fun h => _ ← snapshot_drop h; mret Done); mret (r, delete i hs)
  | FlushOnly => _ ← db_flush_only; mret (Done, hs)
  | Flush => _ ← db_flush; mret (Done, hs)
  | Maintain => _ ← db_maintain; mret (Done, hs)
  | Worker => _ ← worker_turn; mret (Done, hs)
  | Compactor => _ ← compactor_turn; mret (Done, hs)
  end.
End exec.

(** The writes of an operation, and what they take of the room that is left. *)
Definition op_writes (op : Op) : WriteBatch :=
  match op with
  | Put key value => [(key, Some value)]
  | Delete key => [(key, None)]
  | Batch ops => ops
  | _ => []
  end.
Definition writes_size (ops : WriteBatch) : N := sum_encoded (numbered 0 ops).
Definition op_cost (op : Op) : N := 1 + writes_size (op_writes op).

Lemma sum_numbered seq ops : sum_encoded (numbered seq ops) = writes_size ops.
Proof.
  unfold writes_size. generalize 0 at 1. revert seq. induction ops as [|[k v] ops IH]; intros seq n; [done|].
  cbn [numbered sum_encoded foldr]. fold (sum_encoded (numbered (seq + 1) ops)). fold (sum_encoded (numbered (n + 1) ops)).
  rewrite (IH _ (n + 1)). f_equal. unfold encoded_len.
  destruct (make_record_fields k v seq) as (-> & -> & _), (make_record_fields k v n) as (-> & -> & _). done.
Qed.

Lemma writes_size_len ops : len ops <= writes_size ops.
Proof.
  unfold writes_size. generalize 0 at 1. induction ops as [|[k v] ops IH]; intros n; [cbn; lia|].
  cbn [numbered sum_encoded foldr length]. fold (sum_encoded (numbered (n + 1) ops)).
  pose proof (encoded_len_ge (make_record k v n)). specialize (IH (n + 1)). lia.
Qed.

Lemma writes_size_wf ops : writes_size ops <= SIZE_LIMIT -> Forall wf_op ops.
Proof.
  unfold writes_size. generalize 0 at 1. induction ops as [|[k v] ops IH]; intros n Hs; constructor.
  - cbn [numbered sum_encoded foldr] in Hs. unfold wf_op. cbn [fst snd].
    unfold encoded_len in Hs. destruct (make_record_fields k v n) as (Ek & Ev & _). rewrite Ek, Ev in Hs.
    unfold SIZE_LIMIT, U32_MAX in *. lia.
  - apply (IH (n + 1)). cbn [numbered sum_encoded foldr] in Hs. fold (sum_encoded (numbered (n + 1) ops)) in Hs. lia.
Qed.

Lemma delete_beyond {A} (l : list A) i : (length l <= i)%nat -> delete i l = l.
Proof. intros Hi. rewrite delete_take_drop, take_ge, drop_ge, app_nil_r by lia. done. Qed.

(** ** The refinement relation *)

Section refinement.
Context `{PlatformOk}.

Definition poisoned (d : DbInner) : Prop := db_failed d <> None.

(** The engine state [s] represents the abstract store [sp], with room for
    writes of [room] more bytes (and as many sequence numbers, tables and restarts). *)
Definition represents_by (hist : list Rec) (T : Tables) (room : N) (sp : KV) (hs : list N)
    (s : DbInner * World) : Prop :=
  serving hist T s /\ tracks hist U64_MAX (kv_map sp) /\
    Forall2 (tracks hist) hs (kv_snaps sp) /\ pins hs (db_snapshots s.1) /\
    sum_encoded hist + room <= SIZE_LIMIT /\ db_next_seq s.1 + room <= U64_MAX /\
    db_next_sst_id s.1 + room <= U64_MAX /\ m_generation (db_manifest s.1) + room <= U64_MAX /\ 2 <= o_compaction_threshold (db_opts s.1).
Definition represents (room : N) (sp : KV) (hs : list N) (s : DbInner * World) : Prop :=
  exists hist T, represents_by hist T room sp hs s.

Lemma represents_room room room' sp hs s : room' <= room -> represents room sp hs s -> represents room' sp hs s.
Proof. intros Hr (hist & T & ? & ? & ? & ? & ? & ? & ? & ? & ?). exists hist, T. split_and!; try done; lia. Qed.

(** What no successful operation loses: a quiet disk, the files of other directories,
    a log that holds the MemTable, and the directory. *)
Definition keeps (s s' : DbInner * World) : Prop :=
  inside (db_dir s.1) (w_fs s.2) (w_fs s'.2) /\ (log_ok s.1 s.2 -> log_ok s'.1 s'.2) /\ db_dir s'.1 = db_dir s.1.

(** What an operation may leave of an engine that represents [sp]. *)
Definition exec_post (room : N) (sp : KV) (hs : list N) (op : Op) (s : DbInner * World)
    (o : outcome (Reply * list N)) (s' : DbInner * World) : Prop :=
  match o with
  | Ok (r, hs') =>
      r = (spec_exec sp op).1 /\
      (represents (room - op_cost op) (spec_exec sp op).2 hs' s' /\ keeps s s' \/
       poisoned s'.1 /\ ~ quiet (w_fs s.2))
  | Err e => ~ quiet (w_fs s.2) /\ (represents (room - op_cost op) sp hs s' \/ poisoned s'.1)
  | Panic => False
  end.

(** *** Writes *)

(** The room that [ops] take is there. *)
Lemma represents_fits hist T room sp hs s ops :
  represents_by hist T room sp hs s -> 1 + writes_size ops <= room ->
  Forall wf_op ops /\ db_next_seq s.1 + len ops <= U64_MAX /\
  sum_encoded (numbered (db_next_seq s.1) ops) <= SIZE_LIMIT.
Proof.
  intros (Hs & Hm & Hsn & Hp & Hsz & Hseq & Hid & Hgn & Hth) Hc. pose proof (writes_size_len ops) as Hlen.
  split_and!; [apply writes_size_wf; lia|lia|rewrite sum_numbered; lia].
Qed.

Lemma write_represents hist T room sp hs s ops o s' :
  represents_by hist T room sp hs s -> 1 + writes_size ops <= room ->
  let recs := numbered (db_next_seq s.1) ops in
  write_post hist recs T s.1 s.2 o s' ->
  match o with
  | Ok _ => represents_by (hist ++ recs) T (room - (1 + writes_size ops)) (kv_update ops sp) hs s' /\ keeps s s'
  | Err e => represents_by hist T (room - (1 + writes_size ops)) sp hs s' /\ ~ quiet (w_fs s.2)
  | Panic => False
  end.
Proof.
  intros (Hs & Hm & Hsn & Hp & Hsz & Hseq & Hid & Hgn & Hth) Hc recs (Hsc & _ & Hi & Hn & Hq & _ & Ho).
  pose proof (writes_size_len ops) as Hlen. pose proof Hsc as (Ed & Eo & Es & Eg).
  assert (sum_encoded recs = writes_size ops) as Hrs by apply sum_numbered.
  assert (len recs = len ops) as Hlr by (unfold recs; by rewrite length_numbered).
  assert (forall r, r ∈ hist -> r_seq r < db_next_seq s.1) as Hlt.
  { intros r Hr. pose proof (ho_seq _ _ _ (proj2 Hs)) as Hx. rewrite Forall_forall in Hx. by apply Hx. }
  assert (Forall (fun h => h <= db_next_seq s.1) hs) as Hhs.
  { apply Forall_forall. intros h Hh. pose proof (ho_horizons _ _ _ (proj2 Hs)) as Hx. rewrite Forall_forall in Hx.
    apply Hx. by eapply pins_elem. }
  destruct o as [[]|e|]; [| |done].
  - destruct Ho as [Hs' Hlog]. split; [|done].
    unfold represents_by. rewrite Es, Eo, Eg, sum_encoded_app, Hi, Hn. split_and!; try done; try lia.
    + apply tracks_write; [done|lia|done].
    + eapply tracks_snaps; [exact Hsn|exact Hhs|]. intros r Hr%numbered_seq. lia.
  - split; [|apply Ho]. unfold represents_by. rewrite Es, Eo, Eg, Hi, Hn. split_and!; try done; try lia. apply Ho.
Qed.

Lemma exec_write room sp hs op s (m : DbM unit) :
  represents room sp hs s -> op_cost op <= room -> spec_exec sp op = (Done, kv_update (op_writes op) sp) ->
  (forall hist T, serving hist T s -> Forall wf_op (op_writes op) -> db_next_seq s.1 + len (op_writes op) <= U64_MAX ->
     let recs := numbered (db_next_seq s.1) (op_writes op) in
     sum_encoded recs <= SIZE_LIMIT -> wp m s (write_post hist recs T s.1 s.2)) ->
  wp (_ ← m; mret (Done, hs)) s (exec_post room sp hs op s).
Proof.
  intros (hist & T & Hr) Hc Hspec Hwp. destruct (represents_fits _ _ _ _ _ _ _ Hr Hc) as (Hwf & Hseq & Hsz).
  apply wp_bind. eapply wp_mono; [apply (Hwp hist T); [apply Hr|done..]|].
  intros o s' Hpost. pose proof (write_represents _ _ _ _ _ _ _ _ _ Hr Hc Hpost) as Ho.
  destruct o as [[]|e|]; cbn [then_wp]; [apply wp_ret| |done]; unfold exec_post.
  - rewrite Hspec. cbn [fst snd]. split; [done|]. left. destruct Ho as [Ho Hk]. split; [by eexists _, _|done].
  - destruct Ho as [Ho Hq]. split; [done|]. left. by eexists _, _.
Qed.

(** *** Reads *)

(** A map that the store holds, live or frozen, and the bound that reads it. *)
Definition view (sp : KV) (hs : list N) (b : N) (m : gmap bytes bytes) : Prop :=
  (b, m) = (U64_MAX, kv_map sp) \/ exists i, hs !! i = Some b /\ kv_snaps sp !! i = Some m.

Lemma represents_view room sp hs d w b m :
  represents room sp hs (d, w) -> view sp hs b m ->
  exists hist T, db_ok T d w /\ history_ok hist T d /\ live_bound d b /\ tracks hist b m /\
    forall w', db_ok T d w' -> quiescent w w' -> represents room sp hs (d, w') /\ keeps (d, w) (d, w').
Proof.
  intros (hist & T & [Hok Hh] & Hm & Hsn & Hp & Hrest) Hv. cbn [fst snd] in *.
  exists hist, T. split; [done|]. split; [done|].
  assert (live_bound d b /\ tracks hist b m) as [Hb Ht].
  { destruct Hv as [[= -> ->]|(i & Hi & Hi')]; [split; [right; apply Hok|done]|].
    split; [left; eapply pins_elem; [exact Hp|by eapply list_elem_of_lookup_2]|].
    by eapply (Forall2_lookup_lr _ _ _ _ _ _ Hsn). }
  split; [done|]. split; [done|]. intros w' Hok' Hq.
  split; [exists hist, T; split_and!; by try apply Hrest|].
  split_and!; cbn [fst snd]; [by apply stays_inside, Hq|intros Hl; eapply log_ok_stays; [done|apply Hq]|done].
Qed.

Lemma exec_get {A} room sp hs s b m key (K : option bytes -> DbM A) Q :
  represents room sp hs s -> view sp hs b m ->
  (forall e s', represents room sp hs s' -> ~ quiet (w_fs s.2) -> Q (Err e) s') ->
  (forall s', represents room sp hs s' -> keeps s s' -> wp (K (m !! key)) s' Q) ->
  wp (db_get_at key b ≫= K) s Q.
Proof.
  destruct s as [d w]. intros Hr Hv Herr HQ.
  destruct (represents_view _ _ _ _ _ _ _ Hr Hv) as (hist & T & Hok & Hh & Hb & Ht & Hback).
  apply wp_bind. eapply wp_mono; [apply (wp_db_get_at T d w); [done|apply layered_stacked; [apply Hok|apply Hh]]|].
  intros o [d' w'] (E & Hok' & Hq & Ho). cbn [fst snd] in *. subst d'. destruct (Hback w' Hok' Hq) as [Hr' Hk].
  destruct o as [x|e|]; cbn [then_wp]; [|apply Herr; [done|apply Ho]|done].
  subst x. rewrite (ho_reads _ _ _ Hh key b Hb), <- Ht. by apply HQ.
Qed.

Lemma exec_scan {A} room sp hs s b m start fin limit (K : list (bytes * bytes) -> DbM A) Q :
  represents room sp hs s -> view sp hs b m ->
  (forall e s', represents room sp hs s' -> ~ quiet (w_fs s.2) -> Q (Err e) s') ->
  (forall s', represents room sp hs s' -> keeps s s' -> wp (K (kv_entries m start fin limit)) s' Q) ->
  wp (db_scan_at start fin limit b ≫= K) s Q.
Proof.
  destruct s as [d w]. intros Hr Hv Herr HQ.
  destruct (represents_view _ _ _ _ _ _ _ Hr Hv) as (hist & T & Hok & Hh & Hb & Ht & Hback).
  apply wp_bind. eapply wp_mono; [apply (wp_db_scan_at T d w); [done|apply NoDup_versions_unique, Hh]|].
  intros o [d' w'] (E & Hok' & Hq & Ho). cbn [fst snd] in *. subst d'. destruct (Hback w' Hok' Hq) as [Hr' Hk].
  destruct o as [x|e|]; cbn [then_wp]; [|apply Herr; [done|apply Ho]|done].
  subst x. rewrite (scan_ref_ext b start fin _ hist) by (intros key; by apply (ho_reads _ _ _ Hh)).
  rewrite <- (tracks_entries hist b m) by done. by apply HQ.
Qed.

(** *** Snapshots *)

Lemma exec_snapshot_by hist T room sp hs s :
  represents_by hist T room sp hs s ->
  wp db_snapshot s (fun o s' => keeps s s' /\ grows T s T s' /\
    match o with
    | Ok h => represents_by hist T room (mkKV (kv_map sp) (kv_map sp :: kv_snaps sp)) (h :: hs) s'
    | _ => False
    end).
Proof.
  destruct s as [d w]. intros (Hs & Hm & Hsn & Hp & Hsz & Hseq & Hid & Hgn & Hth). cbn [fst snd] in *.
  eapply wp_mono; [by apply (wp_db_snapshot hist T d w hs)|].
  intros o [d' w'] (Hs' & E & En & Ew & Ea & Eo & Ed & Et & Ei & Eg & Hgr & Ho). cbn [fst snd] in *. subst w'.
  split.
  { split; [done|]. cbn [fst snd]. split; [|done]. intros (bs & Hwh & Hwf & E'). exists bs. by rewrite Ew, Ea, Eo. }
  split; [done|]. destruct o as [h|e|]; [|done|done]. destruct Ho as [-> Hp'].
  unfold represents_by. cbn [fst kv_map kv_snaps]. rewrite En, Ei, Eg, Eo. split_and!; try done.
  constructor; [|done]. intros key. rewrite Hm. unfold lookup_at.
  rewrite (newest_above key (db_next_seq d) U64_MAX hist); [done| |apply Hs].
  intros r Hr. pose proof (ho_seq _ _ _ (proj2 Hs)) as Hq. rewrite Forall_forall in Hq. by apply Hq.
Qed.

Lemma exec_snapshot room sp hs s :
  represents room sp hs s ->
  wp db_snapshot s (fun o s' => keeps s s' /\
    match o with Ok h => represents room (mkKV (kv_map sp) (kv_map sp :: kv_snaps sp)) (h :: hs) s' | _ => False end).
Proof.
  intros (hist & T & Hr). eapply wp_mono; [by apply exec_snapshot_by|].
  intros [h|e|] s' (Hk & _ & Ho); (split; [done|]); [by exists hist, T|done|done].
Qed.

Lemma exec_drop room sp hs s i h :
  represents room sp hs s -> hs !! i = Some h ->
  wp (snapshot_drop h) s (fun o s' => keeps s s' /\ o = Ok tt /\
    represents room (mkKV (kv_map sp) (delete i (kv_snaps sp))) (delete i hs) s').
Proof.
  destruct s as [d w]. intros (hist & T & Hs & Hm & Hsn & Hp & Hsz & Hseq & Hid & Hgn & Hth) Hi. cbn [fst snd] in *.
  assert (hs = take i hs ++ h :: drop (S i) hs) as Esp by (by rewrite take_drop_middle).
  rewrite Esp in Hp. eapply wp_mono; [by eapply (wp_snapshot_drop hist T d w h (take i hs) (drop (S i) hs))|].
  intros o [d' w'] (Hs' & E & En & Ew & Ea & Eo & Ed & Et & Ei & Eg & Hgr & -> & Hp'). cbn [fst snd] in *. subst w'.
  split.
  { split; [done|]. cbn [fst snd]. split; [|done]. intros (bs & Hwh & Hwf & E'). exists bs. by rewrite Ew, Ea, Eo. }
  split; [done|]. exists hist, T. unfold represents_by. cbn [fst kv_map kv_snaps]. rewrite En, Ei, Eg, Eo, delete_take_drop.
  split_and!; try done. rewrite delete_take_drop. by apply Forall2_app; [apply Forall2_take|apply Forall2_drop].
Qed.

(** *** Maintenance *)

(** Work that the store does not show. *)
Definition maint_post {A} (room : N) (sp : KV) (hs : list N) (s : DbInner * World) (o : outcome A)
    (s' : DbInner * World) : Prop :=
  match o with
  | Ok _ => represents (room - 1) sp hs s' /\ keeps s s'
  | Err _ => poisoned s'.1 /\ ~ quiet (w_fs s.2)
  | Panic => False
  end.

(** What maintenance that takes at most [c] table ids leaves. *)
Lemma represents_kept {A} hist T room c sp hs s (a : A) s' :
  represents_by hist T room sp hs s -> maintenance_post hist s.1 s.2 (Ok a) s' -> c <= room ->
  db_next_sst_id s'.1 <= db_next_sst_id s.1 + c -> (log_ok s.1 s.2 -> log_ok s'.1 s'.2) ->
  represents (room - c) sp hs s' /\ keeps s s'.
Proof.
  intros (Hs & Hm & Hsn & Hp & Hsz & Hseq & Hid & Hgn & Hth) ([T' Hs'] & (Ed & Eo & Es & Eg) & [En _] & Hq) Hc Hni Hlog.
  split; [|by split_and!]. exists hist, T'. unfold represents_by. rewrite En, Es, Eg, Eo. split_and!; try done; lia.
Qed.

Lemma exec_maintenance {A} room sp hs s (m : DbM A) :
  represents room sp hs s -> 1 <= room ->
  (forall hist T, serving hist T s -> sum_encoded hist <= SIZE_LIMIT -> db_next_sst_id s.1 + 1 <= U64_MAX ->
     2 <= o_compaction_threshold (db_opts s.1) ->
     wp m s (fun o s' => maintenance_post hist s.1 s.2 o s' /\ forall a, o = Ok a ->
       (log_ok s.1 s.2 -> log_ok s'.1 s'.2) /\ db_next_sst_id s'.1 <= db_next_sst_id s.1 + 1)) ->
  wp m s (maint_post room sp hs s).
Proof.
  intros (hist & T & Hr) Hroom Hwp. pose proof Hr as (Hs & Hm & Hsn & Hp & Hsz & Hseq & Hid & Hgn & Hth).
  eapply wp_mono; [apply (Hwp hist T Hs); [lia..|done]|].
  intros [a|e|] s' [Hpost Ho]; [|done|done]. destruct (Ho a eq_refl) as [Hlog Hni]. by eapply represents_kept.
Qed.

Lemma exec_flush_inner room sp hs s :
  represents room sp hs s -> 1 <= room -> wp flush_inner s (maint_post room sp hs s).
Proof.
  destruct s as [d w]. intros Hr Hroom. apply exec_maintenance; [done|done|]. intros hist T Hs Hsz Hid Hth.
  eapply wp_mono; [by apply (wp_flush_inner hist T)|]. intros o s' [Hm Ho]. split; [done|].
  intros [] E. destruct (Ho E) as ((_ & Hlog & _ & Hn) & _). split; [auto|done].
Qed.

Lemma exec_flush room sp hs s :
  represents room sp hs s -> 1 <= room -> wp db_flush s (maint_post room sp hs s).
Proof.
  destruct s as [d w]. intros Hr Hroom. apply exec_maintenance; [done|done|]. intros hist T Hs Hsz Hid Hth.
  eapply wp_mono; [by apply (wp_db_flush hist T)|]. intros o s' [Hm Ho]. split; [done|].
  intros [] E. destruct (Ho E) as [(_ & Hlog & _ & Hn) _]. split; [auto|done].
Qed.

Lemma exec_maintain room sp hs s :
  represents room sp hs s -> 1 <= room -> wp db_maintain s (maint_post room sp hs s).
Proof.
  destruct s as [d w]. intros Hr Hroom. apply exec_maintenance; [done|done|]. intros hist T Hs Hsz Hid Hth.
  by apply (wp_db_maintain hist T).
Qed.

Lemma exec_compact_while room sp hs s :
  represents room sp hs s -> 1 <= room ->
  wp (compact_while (S (length (db_sstables s.1)))) s (maint_post room sp hs s).
Proof.
  destruct s as [d w]. intros Hr Hroom. apply exec_maintenance; [done|done|]. intros hist T Hs Hsz Hid Hth.
  eapply wp_mono; [apply (wp_compact_while hist _ T); [done|done|done|cbn; lia]|].
  intros o s' [Hm Ho]. split; [done|]. intros [] E. destruct (Ho E) as (_ & _ & -> & Hlog & _). split; [done|cbn; lia].
Qed.

(** The queues are nobody's business. *)
Lemma represents_queues room sp hs d w q q' :
  represents room sp hs (d, w) -> represents room sp hs (set_db_tasks q (set_db_compact q' d), w).
Proof.
  intros (hist & T & [[] []] & Hrest). exists hist, T. split; [|done]. split; by split.
Qed.

Lemma keeps_queues d w q q' : keeps (d, w) (set_db_tasks q (set_db_compact q' d), w).
Proof. by split. Qed.

#[export] Instance keeps_preorder : PreOrder keeps.
Proof. split; [by split|]. intros a b c (Q1 & L1 & D1) (Q2 & L2 & D2). rewrite D1 in Q2.
  split_and!; [by etrans|auto|congruence].
Qed.

(** *** Every operation *)

(** What a background turn does: its failure is its own. *)
Lemma exec_turn room sp hs s (m : DbM unit) (K : unit + Error -> DbM unit) Q :
  represents room sp hs s -> wp m s (maint_post room sp hs s) ->
  (forall r s', represents (room - 1) sp hs s' /\ keeps s s' /\ r = inl tt \/ poisoned s'.1 /\ ~ quiet (w_fs s.2) ->
     wp (K r) s' Q) ->
  wp (attempt m ≫= K) s Q.
Proof.
  intros Hr Hm HK. apply wp_bind, wp_attempt. eapply wp_mono; [exact Hm|].
  intros [[]|e|] s' Ho; cbn [then_wp]; [|by apply HK; right|done]. apply HK. left. by destruct Ho.
Qed.

Lemma exec_worker room sp hs s :
  represents room sp hs s -> 1 <= room ->
  wp worker_turn s (fun o s' => o = Ok tt /\
    (represents (room - 1) sp hs s' /\ keeps s s' \/ poisoned s'.1 /\ ~ quiet (w_fs s.2))).
Proof.
  destruct s as [d w]. intros Hr Hroom. unfold worker_turn. apply wp_bind, wp_gets. cbn [then_wp fst].
  assert (forall q, represents room sp hs (set_db_tasks q d, w) /\ keeps (d, w) (set_db_tasks q d, w)) as Hq.
  { intros q. split; [|by split]. apply (represents_queues _ _ _ d w q (db_compact d)) in Hr. by destruct d. }
  assert (represents (room - 1) sp hs (d, w)) as Hless by (eapply represents_room; [|exact Hr]; lia).
  destruct (db_tasks d) as [[|[] q]|]; try (apply wp_ret; split; [done|]; left; done).
  - apply wp_bind, wp_update. cbn [then_wp fst snd]. destruct (Hq (Some q)) as [Hr1 Hk1].
    apply (exec_turn room sp hs); [done|by apply exec_flush_inner|].
    intros r s' [(Hr' & Hk' & ->)|Hp]; [apply wp_ret; split; [done|]; left; split; [done|by etrans]|].
    destruct r as [[]|e]; [apply wp_ret; split; [done|by right]|].
    apply wp_update. cbn [fst snd]. split; [done|]. right. exact Hp.
  - apply wp_update. cbn [fst snd]. destruct (Hq None) as [Hr1 Hk1]. split; [done|]. left. split; [|done].
    eapply represents_room; [|exact Hr1]. lia.
Qed.

Lemma exec_compactor room sp hs s :
  represents room sp hs s -> 1 <= room ->
  wp compactor_turn s (fun o s' => o = Ok tt /\
    (represents (room - 1) sp hs s' /\ keeps s s' \/ poisoned s'.1 /\ ~ quiet (w_fs s.2))).
Proof.
  destruct s as [d w]. intros Hr Hroom. unfold compactor_turn. apply wp_bind, wp_gets. cbn [then_wp fst].
  assert (forall q, represents room sp hs (set_db_compact q d, w) /\ keeps (d, w) (set_db_compact q d, w)) as Hq.
  { intros q. split; [|by split]. apply (represents_queues _ _ _ d w (db_tasks d) q) in Hr. by destruct d. }
  assert (represents (room - 1) sp hs (d, w)) as Hless by (eapply represents_room; [|exact Hr]; lia).
  destruct (db_compact d) as [[|[] q]|]; try (apply wp_ret; split; [done|]; left; done).
  - apply wp_bind, wp_update. cbn [then_wp fst snd]. destruct (Hq (Some q)) as [Hr1 Hk1].
    apply wp_bind, wp_gets. cbn [then_wp fst]. unfold ignore.
    apply (exec_turn room sp hs); [done|by apply (exec_compact_while room sp hs (_, w))|].
    intros r s' [(Hr' & Hk' & ->)|Hp]; apply wp_ret; (split; [done|]); [left; split; [done|by etrans]|by right].
  - apply wp_update. cbn [fst snd]. destruct (Hq None) as [Hr1 Hk1]. split; [done|]. left. split; [|done].
    eapply represents_room; [|exact Hr1]. lia.
Qed.

(** The snapshots of the engine and of the abstract store are in the same places. *)
Lemma snaps_lookup room sp hs s i :
  represents room sp hs s ->
  match hs !! i with Some _ => exists m, kv_snaps sp !! i = Some m | None => kv_snaps sp !! i = None end.
Proof.
  intros (hist & T & _ & _ & Hsn & _). destruct (hs !! i) as [h|] eqn:Ei.
  - destruct (Forall2_lookup_l _ _ _ _ _ Hsn Ei) as (m & ? & _). eauto.
  - revert Ei. rewrite !lookup_ge_None, (Forall2_length _ _ _ Hsn). done.
Qed.

(** Operations that only rearrange, and the turns of the threads, which return nothing. *)
Lemma exec_maint room sp hs op s (m : DbM unit) :
  wp m s (maint_post room sp hs s) -> op_writes op = [] -> spec_exec sp op = (Done, sp) ->
  wp (_ ← m; mret (Done, hs)) s (exec_post room sp hs op s).
Proof.
  intros Hm E Es. apply wp_bind. eapply wp_mono; [exact Hm|]. unfold exec_post, op_cost. rewrite E, Es.
  intros [[]|e|] s' Ho; cbn [then_wp]; [apply wp_ret| |done]; cbn [fst snd].
  - split; [done|]. left. destruct Ho. split; [eapply represents_room; [|eassumption]; cbn; lia|done].
  - destruct Ho. auto.
Qed.

Lemma exec_silent room sp hs op s (m : DbM unit) :
  wp m s (fun o s' => o = Ok tt /\
    (represents (room - 1) sp hs s' /\ keeps s s' \/ poisoned s'.1 /\ ~ quiet (w_fs s.2))) ->
  op_writes op = [] -> spec_exec sp op = (Done, sp) ->
  wp (_ ← m; mret (Done, hs)) s (exec_post room sp hs op s).
Proof.
  intros Hm E Es. apply wp_bind. eapply wp_mono; [exact Hm|]. unfold exec_post, op_cost. rewrite E, Es.
  intros o s' [-> Ho]. cbn [then_wp]. apply wp_ret. cbn [fst snd].
  split; [done|]. destruct Ho as [[]|]; [left|by right]. split; [eapply represents_room; [|eassumption]; cbn; lia|done].
Qed.

(** Every operation. *)
Lemma exec_refines room sp hs op s :
  represents room sp hs s -> op_cost op <= room -> wp (exec hs op) s (exec_post room sp hs op s).
Proof.
  intros Hr Hc. assert (1 <= room) as Hroom by (unfold op_cost in Hc; lia).
  assert (forall sp' hs' s', represents room sp' hs' s' -> represents (room - op_cost op) sp' hs' s') as Hless.
  { intros sp' hs' s'. apply represents_room. lia. }
  assert (forall e s', represents room sp hs s' -> ~ quiet (w_fs s.2) -> exec_post room sp hs op s (Err e) s') as Herr.
  { intros e s' Hr' Hq. split; [done|]. left. by apply Hless. }
  pose proof (fun i => snaps_lookup room sp hs s i Hr) as Hsnap.
  destruct op as [key value|key|ops|key|start fin limit| |i key|i start fin limit|i| | | | |]; cbn [exec].
  - apply exec_write; [done..|]. intros hist T Hs Hwf Hseq recs Hsz. destruct s as [d w]. by apply wp_db_write; [|apply Forall_cons in Hwf as [? _]|..].
  - apply exec_write; [done..|]. intros hist T Hs Hwf Hseq recs Hsz. destruct s as [d w]. by apply wp_db_write; [|apply Forall_cons in Hwf as [? _]|..].
  - apply exec_write; [done..|]. intros hist T Hs Hwf Hseq recs Hsz. destruct s as [d w]. by apply wp_db_write_batch.
  - eapply (exec_get room sp hs s U64_MAX); [done|by left|done|].
    intros s' Hr' Hk. apply wp_ret. split; [done|]. left. split; [by apply Hless|done].
  - eapply (exec_scan room sp hs s U64_MAX); [done|by left|done|].
    intros s' Hr' Hk. apply wp_ret. split; [done|]. left. split; [by apply Hless|done].
  - apply wp_bind. eapply wp_mono; [by apply (exec_snapshot room sp hs)|].
    intros [h|e|] s' [Hk Ho]; cbn [then_wp]; [|done|done]. apply wp_ret. split; [done|]. left. split; [by apply Hless|done].
  - apply wp_bind. unfold with_snapshot. specialize (Hsnap i). destruct (hs !! i) as [h|] eqn:Ei.
    + destruct Hsnap as [m Em]. eapply (exec_get room sp hs s h m); [done|right; eauto|done|].
      intros s' Hr' Hk. apply wp_ret. cbn [then_wp]. apply wp_ret. cbn [exec_post spec_exec fst snd]. rewrite Em.
      split; [done|]. left. split; [by apply Hless|done].
    + apply wp_ret. cbn [then_wp]. apply wp_ret. cbn [exec_post spec_exec fst snd]. rewrite Hsnap.
      split; [done|]. left. split; [by apply Hless|done].
  - apply wp_bind. unfold with_snapshot. specialize (Hsnap i). destruct (hs !! i) as [h|] eqn:Ei.
    + destruct Hsnap as [m Em]. eapply (exec_scan room sp hs s h m); [done|right; eauto|done|].
      intros s' Hr' Hk. apply wp_ret. cbn [then_wp]. apply wp_ret. cbn [exec_post spec_exec fst snd]. rewrite Em.
      split; [done|]. left. split; [by apply Hless|done].
    + apply wp_ret. cbn [then_wp]. apply wp_ret. cbn [exec_post spec_exec fst snd]. rewrite Hsnap.
      split; [done|]. left. split; [by apply Hless|done].
  - apply wp_bind. unfold with_snapshot. specialize (Hsnap i). destruct (hs !! i) as [h|] eqn:Ei.
    + destruct Hsnap as [m Em]. apply wp_bind. eapply wp_mono; [by apply (exec_drop room sp hs s i h)|].
      intros o s' (Hk & -> & Hr'). cbn [then_wp]. apply wp_ret. cbn [then_wp]. apply wp_ret.
      cbn [exec_post spec_exec fst snd]. rewrite Em. split; [done|]. left. split; [by apply Hless|done].
    + apply wp_ret. cbn [then_wp]. apply wp_ret. cbn [exec_post spec_exec fst snd]. rewrite Hsnap.
      split; [done|]. left. split; [|done]. apply Hless.
      apply lookup_ge_None in Ei, Hsnap. rewrite !delete_beyond by done. by destruct sp.
  - apply exec_maint; [by apply exec_flush_inner|done..].
  - apply exec_maint; [by apply exec_flush|done..].
  - apply wp_bind. eapply wp_mono; [by apply (exec_maintain room sp hs)|].
    intros [b|e|] s' Ho; cbn [then_wp]; [apply wp_ret| |done].
    + split; [done|]. left. destruct Ho. split; [eapply represents_room; [|eassumption]; unfold op_cost; cbn; lia|done].
    + destruct Ho. split; auto.
  - apply exec_silent; [by apply exec_worker|done..].
  - apply exec_silent; [by apply exec_compactor|done..].
Qed.

(** ** A poisoned engine *)

(** What a client may hear of a poisoned engine: nothing that was read. *)
Definition refused (op : Op) (o : outcome (Reply * list N)) : Prop :=
  match o with
  | Err (Poisoned _) => True
  | Ok (r, _) =>
      match op with
      | TakeSnapshot | DropSnapshot _ | Worker | Compactor => r = Done \/ r = NoSnapshot
      | SnapshotGet _ _ | SnapshotScan _ _ _ _ => r = NoSnapshot
      | _ => False
      end
  | _ => False
  end.

Lemma wp_health_poisoned s (Q : outcome unit -> DbInner * World -> Prop) :
  poisoned s.1 -> (forall msg, Q (Err (Poisoned msg)) s) -> wp db_health s Q.
Proof.
  intros Hp HQ. unfold db_health. apply wp_bind, wp_gets. cbn [then_wp]. destruct (db_failed s.1) eqn:E; [|done].
  by apply wp_fail.
Qed.

(** An engine that failed for good touches nothing, and stays that way. *)
Lemma exec_poisoned hs op s :
  poisoned s.1 ->
  wp (exec hs op) s (fun o s' => s'.2 = s.2 /\ db_failed s'.1 = db_failed s.1 /\ refused op o).
Proof.
  intros Hp.
  assert (forall A B (m : DbM A) (K : A -> DbM B) Q,
    (forall msg, Q (Err (Poisoned msg)) s) -> wp ((_ ← db_health; m) ≫= K) s Q) as Hh.
  { intros A B m K Q HQ. apply wp_bind, wp_bind, wp_health_poisoned; [done|]. intros msg. cbn [then_wp]. apply HQ. }
  assert (forall s' : DbInner * World, db_failed s'.1 = db_failed s.1 ->
    wp flush_inner s' (fun o s2 => s2 = s' /\ exists msg, o = Err (Poisoned msg))) as Hfl.
  { intros s' E. unfold flush_inner. apply wp_bind, wp_health_poisoned; [unfold poisoned; by rewrite E|]. cbn [then_wp]. eauto. }
  assert (forall s' : DbInner * World, db_failed s'.1 = db_failed s.1 ->
    wp compact_step s' (fun o s2 => s2 = s' /\ exists msg, o = Err (Poisoned msg))) as Hcs.
  { intros s' E. unfold compact_step. apply wp_bind, wp_health_poisoned; [unfold poisoned; by rewrite E|]. cbn [then_wp]. eauto. }
  destruct op as [key value|key|ops|key|start fin limit| |i key|i start fin limit|i| | | | |]; cbn [exec].
  - by apply Hh.
  - by apply Hh.
  - by apply Hh.
  - by apply Hh.
  - by apply Hh.
  - unfold db_snapshot, snapshot_load, snapshot_register. apply wp_bind, wp_bind, wp_gets. cbn [then_wp]. apply wp_bind, wp_update. cbn [then_wp].
    apply wp_ret. cbn [then_wp]. apply wp_ret. split_and!; [done|done|by left].
  - unfold with_snapshot. destruct (hs !! i); [|apply wp_bind, wp_ret; cbn [then_wp]; by apply wp_ret].
    apply wp_bind, Hh. by intros msg; cbn [then_wp].
  - unfold with_snapshot. destruct (hs !! i); [|apply wp_bind, wp_ret; cbn [then_wp]; by apply wp_ret].
    apply wp_bind, Hh. by intros msg; cbn [then_wp].
  - unfold with_snapshot. destruct (hs !! i); apply wp_bind.
    + unfold snapshot_drop. apply wp_bind, wp_update. cbn [then_wp]. apply wp_ret. cbn [then_wp]. apply wp_ret.
      split_and!; [done|done|by left].
    + apply wp_ret. cbn [then_wp]. apply wp_ret. split_and!; [done|done|by right].
  - apply wp_bind. eapply wp_mono; [by apply Hfl|]. by intros o s' [-> [msg ->]].
  - apply wp_bind. unfold db_flush. apply wp_bind. eapply wp_mono; [by apply Hfl|]. by intros o s' [-> [msg ->]].
  - apply wp_bind. unfold db_maintain. apply wp_bind, wp_gets. cbn [then_wp]. destruct (flush_is_due s.1).
    + apply wp_bind. eapply wp_mono; [by apply Hfl|]. by intros o s' [-> [msg ->]].
    + eapply wp_mono; [by apply Hcs|]. by intros o s' [-> [msg ->]].
  - apply wp_bind. unfold worker_turn. apply wp_bind, wp_gets. cbn [then_wp].
    destruct (db_tasks s.1) as [[|[] q]|]; try (apply wp_ret; cbn [then_wp]; apply wp_ret; split_and!; [done|done|by left]).
    + apply wp_bind, wp_update. cbn [then_wp fst snd]. apply wp_bind, wp_attempt.
      eapply wp_mono; [by apply Hfl|]. intros o s' [-> [msg ->]]. cbn [then_wp]. apply wp_update. cbn [then_wp].
      apply wp_ret. split_and!; [done|done|by left].
    + apply wp_update. cbn [then_wp]. apply wp_ret. split_and!; [done|done|by left].
  - apply wp_bind. unfold compactor_turn. apply wp_bind, wp_gets. cbn [then_wp].
    destruct (db_compact s.1) as [[|[] q]|]; try (apply wp_ret; cbn [then_wp]; apply wp_ret; split_and!; [done|done|by left]).
    + apply wp_bind, wp_update. cbn [then_wp fst snd]. apply wp_bind, wp_gets. cbn [then_wp fst].
      apply wp_ignore. cbn [compact_while]. apply wp_bind.
      eapply wp_mono; [by apply Hcs|]. intros o s' [-> [msg ->]]. cbn [then_wp]. apply wp_ret. split_and!; [done|done|by left].
    + apply wp_update. cbn [then_wp]. apply wp_ret. split_and!; [done|done|by left].
Qed.

(** ** Sessions *)

(** A client goes on after an error. *)
Fixpoint session (hs : list N) (ops : list Op) : DbM (list (Reply + Error)) :=
  match ops with
  | [] => mret []
  | op :: ops =>
      r ← attempt (exec hs op);
      match r with
      | inl (reply, hs') => rs ← session hs' ops; mret (inl reply :: rs)
      | inr e => rs ← session hs ops; mret (inr e :: rs)
      end
  end.

(** Replies that are not errors. *)
Definition answered (rs : list Reply) : list (Reply + Error) := inl <$> rs.

(** The replies of the abstract store. *)
Fixpoint spec_session (sp : KV) (ops : list Op) : list Reply * KV :=
  match ops with
  | [] => ([], sp)
  | op :: ops => let '(rs, sp') := spec_session (spec_exec sp op).2 ops in ((spec_exec sp op).1 :: rs, sp')
  end.

Lemma spec_session_app sp ops ops' :
  (spec_session sp (ops ++ ops')).1 = (spec_session sp ops).1 ++ (spec_session (spec_session sp ops).2 ops').1.
Proof.
  revert sp. induction ops as [|op ops IH]; intros sp; [done|]. cbn [app spec_session]. specialize (IH (spec_exec sp op).2).
  destruct (spec_session _ (ops ++ ops')), (spec_session _ ops). cbn in *. by rewrite IH.
Qed.

(** Where the snapshot in slot [i] is after [ops], unless it was dropped. *)
Fixpoint slot_after (i : nat) (ops : list Op) : option nat :=
  match ops with
  | [] => Some i
  | TakeSnapshot :: ops => slot_after (S i) ops
  | DropSnapshot j :: ops =>
      if decide (j = i) then None else if decide (j < i)%nat then slot_after (i - 1) ops else slot_after i ops
  | _ :: ops => slot_after i ops
  end.

(** A snapshot never changes. *)
Lemma slot_after_snaps sp ops i j m :
  kv_snaps sp !! i = Some m -> slot_after i ops = Some j -> kv_snaps (spec_session sp ops).2 !! j = Some m.
Proof.
  revert sp i. induction ops as [|op ops IH]; intros sp i Hi; cbn [slot_after spec_session]; [by intros [= <-]|].
  assert (forall i', kv_snaps (spec_exec sp op).2 !! i' = Some m -> slot_after i' ops = Some j ->
    kv_snaps (let '(rs, sp') := spec_session (spec_exec sp op).2 ops in ((spec_exec sp op).1 :: rs, sp')).2 !! j = Some m) as Hgo.
  { intros i' Hi' Hs. specialize (IH _ i' Hi' Hs). by destruct (spec_session (spec_exec sp op).2 ops). }
  destruct op; try (by apply Hgo).
  repeat case_decide; [done| |]; apply Hgo; cbn [spec_exec snd kv_snaps].
  - rewrite list_lookup_delete_ge by lia. by replace (S (i - 1)) with i by lia.
  - by rewrite list_lookup_delete_lt by lia.
Qed.

(** Replies that the abstract store explains: an operation is answered, or refused
    without effect, or the engine is poisoned and answers nothing from then on. *)
Inductive explains : KV -> list Op -> list (Reply + Error) -> Prop :=
| explains_nil sp : explains sp [] []
| explains_ok sp op ops rs :
    explains (spec_exec sp op).2 ops rs -> explains sp (op :: ops) (inl (spec_exec sp op).1 :: rs)
| explains_err sp op ops e rs : explains sp ops rs -> explains sp (op :: ops) (inr e :: rs)
| explains_poisoned sp op ops r rs :
    Forall2 (fun op r => match r with inl r => refused op (Ok (r, [])) | inr e => refused op (Err e) end) ops rs ->
    r = inl (spec_exec sp op).1 \/ (exists e, r = inr e) -> explains sp (op :: ops) (r :: rs).

Lemma session_poisoned hs ops s :
  poisoned s.1 ->
  wp (session hs ops) s (fun o s' => s'.2 = s.2 /\ poisoned s'.1 /\ exists rs, o = Ok rs /\
    Forall2 (fun op r => match r with inl r => refused op (Ok (r, [])) | inr e => refused op (Err e) end) ops rs).
Proof.
  revert hs s. induction ops as [|op ops IH]; intros hs s Hp; cbn [session].
  { apply wp_ret. split_and!; [done|done|]. exists []. split; [done|constructor]. }
  apply wp_bind, wp_attempt. eapply wp_mono; [by apply exec_poisoned|].
  intros o s1 (Ew & Ef & Ho). assert (poisoned s1.1) as Hp1 by (unfold poisoned; by rewrite Ef).
  destruct o as [[r hs']|e|]; cbn [then_wp]; [| |done]; apply wp_bind;
    (eapply wp_mono; [by apply IH|]); intros o2 s2 (Ew2 & Hp2 & rs & -> & Hrs); cbn [then_wp]; apply wp_ret;
    (split_and!; [congruence|done|]); eexists; (split; [done|]); by constructor.
Qed.

Definition session_cost (ops : list Op) : N := foldr (fun op n => op_cost op + n) 0 ops.

Lemma session_explained room sp hs ops s :
  represents room sp hs s -> session_cost ops <= room ->
  wp (session hs ops) s (fun o s' => exists rs, o = Ok rs /\ explains sp ops rs).
Proof.
  revert room sp hs s. induction ops as [|op ops IH]; intros room sp hs s Hr Hc; cbn [session].
  { apply wp_ret. exists []. split; [done|constructor]. }
  cbn [session_cost foldr] in Hc. fold (session_cost ops) in Hc.
  apply wp_bind, wp_attempt. eapply wp_mono; [apply (exec_refines room sp hs op s); [done|lia]|].
  intros [[r hs']|e|] s1 Ho; cbn [then_wp]; [| |done]; unfold exec_post in Ho; apply wp_bind.
  - destruct Ho as [-> [[Hr1 _]|[Hp _]]].
    + eapply wp_mono; [apply (IH (room - op_cost op)); [exact Hr1|lia]|].
      intros o s2 (rs & -> & Hx). cbn [then_wp]. apply wp_ret. eexists. split; [done|]. by constructor.
    + eapply wp_mono; [by apply session_poisoned|]. intros o s2 (_ & _ & rs & -> & Hrs). cbn [then_wp].
      apply wp_ret. eexists. split; [done|]. apply explains_poisoned; [done|by left].
  - destruct Ho as [_ [Hr1|Hp]].
    + eapply wp_mono; [apply (IH (room - op_cost op)); [exact Hr1|lia]|].
      intros o s2 (rs & -> & Hx). cbn [then_wp]. apply wp_ret. eexists. split; [done|]. by constructor.
    + eapply wp_mono; [by apply session_poisoned|]. intros o s2 (_ & _ & rs & -> & Hrs). cbn [then_wp].
      apply wp_ret. eexists. split; [done|]. apply explains_poisoned; [done|eauto].
Qed.

(** On a disk without faults the replies are those of the abstract store. *)
Lemma session_quiet room sp hs ops s :
  represents room sp hs s -> session_cost ops <= room -> quiet (w_fs s.2) ->
  wp (session hs ops) s (fun o s' => o = Ok (answered (spec_session sp ops).1) /\ keeps s s' /\
    exists hs', represents (room - session_cost ops) (spec_session sp ops).2 hs' s').
Proof.
  revert room sp hs s. induction ops as [|op ops IH]; intros room sp hs s Hr Hc Hq; cbn [session].
  { apply wp_ret. split; [done|]. split; [done|]. exists hs. cbn. by rewrite N.sub_0_r. }
  cbn [session_cost foldr] in Hc |- *. fold (session_cost ops) in Hc |- *.
  apply wp_bind, wp_attempt. eapply wp_mono; [apply (exec_refines room sp hs op s); [done|lia]|].
  intros [[r hs']|e|] s1 Ho; cbn [then_wp]; [|by destruct Ho|done]; unfold exec_post in Ho; apply wp_bind.
  destruct Ho as [-> [[Hr1 Hk]|[_ Hn]]]; [|done].
  eapply wp_mono; [apply (IH (room - op_cost op)); [exact Hr1|lia|by apply Hk]|].
  intros o s2 (-> & Hk2 & hs2 & Hr2). cbn [then_wp]. apply wp_ret. cbn [spec_session].
  destruct (spec_session (spec_exec sp op).2 ops) as [rs sp']. cbn [fst snd] in *.
  split; [done|]. split; [by etrans|]. exists hs2. by rewrite N.sub_add_distr.
Qed.
End refinement.
