(* ===== verification/Threads.v ===== *)
(** * Threads (the locks of src/src/db.rs)

    The operations of [DbInner] in the sections that its locks make atomic, and a
    pool of threads that take sections in any order.  A thread that needs a lock
    another one holds waits.  A call begins with the health check.  [wal] is held from
    logging a write to its insert, [flush_lock] during a flush and to publish a compaction, [compaction_lock]
    during a compaction step; a read takes the locks of the MemTable, of the frozen
    MemTable and of the live set one after the other and holds none in between. *)
From Stdlib Require Import NArith Lia.
From stdpp Require Import base numbers list strings gmap.
From S2P Require Import Prelude Errors FileNames Platform State FileSystem Records Versions.
From S2P Require Import MemTable Headers Frames WriteAheadLog Manifest SsTables Merging Compaction Engine.

Local Open Scope N_scope.

(** ** Calls and where a thread is inside of one *)

Inductive Call :=
| CallWrite (key : bytes) (value : option bytes)
| CallBatch (batch : WriteBatch)
| CallGet (key : bytes) (seq_bound : N)
| CallScan (start fin : option bytes) (limit seq_bound : N)
| CallFlush
| CallCompact.

Inductive Answer :=
| AnsDone
| AnsValue (value : option bytes)
| AnsEntries (entries : list (bytes * bytes))
| AnsMore (more : bool).

(** The next section of a call that has begun, with what it holds. *)
Inductive Pc :=
| AtStart (c : Call)
| AtInsert (records : list Rec)
| AtFrozen (key : bytes) (seq_bound : N)
| AtTables (key : bytes) (seq_bound : N)
| AtSearch (key : bytes) (seq_bound : N) (tables : list SsTable)
| AtScanFrozen (start fin : option bytes) (limit seq_bound : N) (active : list Rec)
| AtScanTables (start fin : option bytes) (limit seq_bound : N) (active : list Rec) (frozen : option (list Rec))
| AtScanMerge (start fin : option bytes) (limit seq_bound : N) (active : list Rec) (frozen : option (list Rec))
    (tables : list SsTable)
| AtTable (frozen : MemTable)
| AtPublish (t : SsTable)
| AtRewrite
| AtRetire
| AtMerge (tables : list SsTable)
| AtPublishRun (run : list SsTable) (max_id : N).

Inductive Lock := WalLock | FlushLock | CompactionLock.

#[export] Instance Lock_eq_dec : EqDecision Lock.
Proof. solve_decision. Defined.

(** The lock held between two sections, and those that a section waits for.  Only the
    three mutexes that the code keeps from one section to the next are here.  The
    [RwLock]s of the MemTable, the frozen MemTable, the live set and the latched failure,
    and the mutexes of the manifest and of the snapshots, are taken and released inside
    one section each ([Engine]), so between sections they are free. *)
Definition holds (pc : Pc) : option Lock :=
  match pc with
  | AtInsert _ => Some WalLock
  | AtTable _ | AtPublish _ | AtRewrite | AtRetire => Some FlushLock
  | AtMerge _ | AtPublishRun _ _ => Some CompactionLock
  | _ => None
  end.
Definition start_needs (c : Call) : option Lock :=
  match c with
  | CallWrite _ _ => Some WalLock
  | CallBatch batch => if bool_decide (batch = []) then None else Some WalLock
  | CallGet _ _ | CallScan _ _ _ _ => None
  | CallFlush => Some FlushLock
  | CallCompact => Some CompactionLock
  end.
Definition turn_needs (pc : Pc) : option Lock :=
  match pc with
  | AtStart c => start_needs c
  | AtRewrite => Some WalLock
  | AtPublishRun _ _ => Some FlushLock
  | _ => None
  end.

Section threads.
Context `{Platform}.

(** ** Sections *)

(** The health check, which waits for none of the three locks. *)
Definition begin (c : Call) : DbM (Pc + Answer) := _ ← db_health; mret (inl (AtStart c)).

(** What follows it. *)
Definition first_section (c : Call) : DbM (Pc + Answer) :=
  match c with
  | CallWrite key value => records ← log_write key value; mret (inl (AtInsert records))
  | CallBatch batch =>
      if bool_decide (batch = []) then mret (inr AnsDone)
      else records ← log_batch batch; mret (inl (AtInsert records))
  | CallGet key bound =>
      found ← look_active key bound;
      match found with
      | Some record => mret (inr (AnsValue (r_value record)))
      | None => mret (inl (AtFrozen key bound))
      end
  | CallScan start fin limit bound =>
      if limit =? 0 then mret (inr (AnsEntries []))
      else active ← copy_active start fin; mret (inl (AtScanFrozen start fin limit bound active))
  | CallFlush =>
      frozen ← flush_freeze;
      match frozen with
      | None => mret (inr AnsDone)
      | Some frozen => mret (inl (AtTable frozen))
      end
  | CallCompact => tables ← live_set; mret (inl (AtMerge tables))
  end.

(** The section at [pc].  The file operations of a flush ([flush_table]: the table is
    written, renamed and recorded) and of the publication of a merge ([publish_run]) are
    a section each: no other thread comes between them, because the flush lock is held,
    and a pool does not end among them either. *)
Definition turn (pc : Pc) : DbM (Pc + Answer) :=
  match pc with
  | AtStart c => first_section c
  | AtInsert records => _ ← insert_logged records; mret (inr AnsDone)
  | AtFrozen key bound =>
      found ← look_frozen key bound;
      match found with
      | Some record => mret (inr (AnsValue (r_value record)))
      | None => mret (inl (AtTables key bound))
      end
  | AtTables key bound => tables ← live_set; mret (inl (AtSearch key bound tables))
  | AtSearch key bound tables => v ← search_tables tables key bound; mret (inr (AnsValue v))
  | AtScanFrozen start fin limit bound active =>
      frozen ← copy_frozen start fin; mret (inl (AtScanTables start fin limit bound active frozen))
  | AtScanTables start fin limit bound active frozen =>
      tables ← live_set; mret (inl (AtScanMerge start fin limit bound active frozen tables))
  | AtScanMerge start fin limit bound active frozen tables =>
      l ← merge_sources active frozen tables start fin limit bound; mret (inr (AnsEntries l))
  | AtTable frozen => latching (t ← flush_table frozen; mret (inl (AtPublish t)))
  | AtPublish t => _ ← flush_publish t; mret (inl AtRewrite)
  | AtRewrite => latching (_ ← rewrite_wal; mret (inl AtRetire))
  | AtRetire => _ ← flush_retire; mret (inr AnsDone)
  | AtMerge tables =>
      latching (merged ← merge_picked tables;
        match merged with
        | None => mret (inr (AnsMore false))
        | Some (run, max_id) => mret (inl (AtPublishRun run max_id))
        end)
  | AtPublishRun run max_id => latching (_ ← publish_run run max_id; mret (inr (AnsMore true)))
  end.

(** ** The pool *)

Definition call_writes (c : Call) : WriteBatch :=
  match c with
  | CallWrite key value => [(key, value)]
  | CallBatch batch => batch
  | _ => []
  end.

(** A call that returned: when it began and when it ended, counted in writes that had
    become visible. *)
Record Finished := mkFinished {
  f_call : Call;
  f_from : nat;
  f_to : nat;
  f_answer : outcome Answer
}.

Record Thread := mkThread {
  th_calls : list Call;
  th_pc : option (Call * nat * Pc);
  th_done : list Finished
}.

(** [p_commits]: the writes in the order in which they became visible, with the
    thread each comes from. *)
Record Pool := mkPool {
  p_state : DbInner * World;
  p_threads : list Thread;
  p_commits : list (nat * WriteBatch)
}.

Definition th_holds (th : Thread) : option Lock :=
  match th_pc th with Some (_, _, pc) => holds pc | None => None end.
Definition lock_free (p : Pool) (l : option Lock) : bool :=
  match l with
  | None => true
  | Some l => forallb (fun th => negb (bool_decide (th_holds th = Some l))) (p_threads p)
  end.

(** The thread after a section of the call [c]. *)
Definition settle (th : Thread) (calls : list Call) (c : Call) (from upto : nat) (o : outcome (Pc + Answer)) : Thread :=
  match o with
  | Ok (inl pc) => mkThread calls (Some (c, from, pc)) (th_done th)
  | Ok (inr a) => mkThread calls None (th_done th ++ [mkFinished c from upto (Ok a)])
  | Err e => mkThread calls None (th_done th ++ [mkFinished c from upto (Err e)])
  | Panic => mkThread calls None (th_done th ++ [mkFinished c from upto Panic])
  end.

Definition is_insert (pc : Pc) : bool := if pc is AtInsert _ then true else false.

(** Thread [i] takes its next section, if it has one and no lock is in its way. *)
Definition advance (p : Pool) (i : nat) : Pool :=
  match p_threads p !! i with
  | None => p
  | Some th =>
      match th_pc th, th_calls th with
      | None, [] => p
      | None, c :: calls =>
          let '(o, s) := begin c (p_state p) in
          let n := length (p_commits p) in
          mkPool s (<[i := settle th calls c n n o]> (p_threads p)) (p_commits p)
      | Some (c, from, pc), calls =>
          if lock_free p (turn_needs pc) then
            let '(o, s) := turn pc (p_state p) in
            let commits := if is_insert pc then p_commits p ++ [(i, call_writes c)] else p_commits p in
            mkPool s (<[i := settle th calls c from (length commits) o]> (p_threads p)) commits
          else p
      end
  end.

(** The threads run in the order of a schedule. *)
Definition run_schedule (schedule : list nat) (p : Pool) : Pool := foldl advance p schedule.

(** Threads that are about to make their calls on an open engine. *)
Definition start_pool (calls : list (list Call)) (s : DbInner * World) : Pool :=
  mkPool s ((fun cs => mkThread cs None []) <$> calls) [].

(** ** A call that nobody interrupts *)

Fixpoint finish (fuel : nat) (r : Pc + Answer) : DbM Answer :=
  match r, fuel with
  | inr a, _ => mret a
  | inl pc, S fuel => r ← turn pc; finish fuel r
  | inl _, O => lift Panic
  end.
Definition alone (c : Call) : DbM Answer := r ← begin c; finish 5 r.

(** The operation of the engine that a call is. *)
Definition whole (c : Call) : DbM Answer :=
  match c with
  | CallWrite key value => _ ← db_write key value; mret AnsDone
  | CallBatch batch => _ ← db_write_batch batch; mret AnsDone
  | CallGet key bound => v ← db_get_at key bound; mret (AnsValue v)
  | CallScan start fin limit bound => l ← db_scan_at start fin limit bound; mret (AnsEntries l)
  | CallFlush => _ ← flush_inner; mret AnsDone
  | CallCompact => more ← compact_step; mret (AnsMore more)
  end.

(** What an error becomes. *)
Lemma latching_run e (s : DbInner * World) : exists e' s', forall A (m : DbM A) s0,
  m s0 = (Err e, s) -> latching m s0 = (Err e', s').
Proof.
  destruct (db_fail e s) as [o s'] eqn:E.
  assert (exists e', o = Ok e') as [e' ->].
  { revert E. unfold db_fail. rewrite bind_gets. destruct (db_failed s.1); cbn; intros [= <- <-]; eauto. }
  exists e', s'. intros A m s0 Em. unfold latching, attempt, mbind, ST_bind, fail. by rewrite Em, E.
Qed.

Lemma latching_ok {A} (m : DbM A) s a s' : m s = (Ok a, s') -> latching m s = (Ok a, s').
Proof. intros E. unfold latching, attempt, mbind, ST_bind. by rewrite E. Qed.

Lemma latching_panic {A} (m : DbM A) s s' : m s = (Panic, s') -> latching m s = (Panic, s').
Proof. intros E. unfold latching, attempt, mbind, ST_bind. by rewrite E. Qed.

Lemma latching_inv {A} (m : DbM A) s a s' : latching m s = (Ok a, s') -> m s = (Ok a, s').
Proof.
  unfold latching, attempt, mbind, ST_bind. destruct (m s) as [[x|e|] s1]; [by intros [= -> ->]| |done].
  destruct (db_fail e s1) as [[e'|e'|] s2]; done.
Qed.

(** A latch around a whole is a latch around its parts. *)
Lemma latching_bind {A B C} (m : DbM A) (f : A -> DbM B) (k : B -> DbM C) s :
  (latching (m ≫= f) ≫= k) s = (latching m ≫= fun a => latching (f a) ≫= k) s.
Proof.
  destruct (m s) as [[a|e|] s1] eqn:E.
  - rewrite (bind_run_ok _ _ _ _ _ (latching_ok _ _ _ _ E)).
    unfold mbind at 1 3, ST_bind. destruct (f a s1) as [[b|e|] s2] eqn:E2.
    + rewrite (latching_ok (m ≫= f) s b s2) by (by rewrite (bind_run_ok _ _ _ _ _ E)). by rewrite (latching_ok _ _ _ _ E2).
    + destruct (latching_run e s2) as (e' & s' & El).
      rewrite (El _ (m ≫= f) s) by (by rewrite (bind_run_ok _ _ _ _ _ E)). by rewrite (El _ _ _ E2).
    + rewrite (latching_panic (m ≫= f) s s2) by (by rewrite (bind_run_ok _ _ _ _ _ E)). by rewrite (latching_panic _ _ _ E2).
  - destruct (latching_run e s1) as (e' & s' & El). unfold mbind at 1 3, ST_bind.
    rewrite (El _ (m ≫= f) s) by (by rewrite (bind_run_err _ _ _ _ _ E)). by rewrite (El _ _ _ E).
  - unfold mbind at 1 3, ST_bind. rewrite (latching_panic m s s1 E).
    rewrite (latching_panic (m ≫= f) s s1); [done|]. unfold mbind, ST_bind. by rewrite E.
Qed.

(** Sections that always return need none. *)
Lemma latching_total {A B} (m : DbM A) (k : A -> DbM B) s :
  (exists a s', m s = (Ok a, s')) -> (latching m ≫= k) s = (m ≫= k) s.
Proof. intros (a & s' & E). by rewrite (bind_run_ok _ _ _ _ _ (latching_ok _ _ _ _ E)), (bind_run_ok _ _ _ _ _ E). Qed.

Lemma alone_run c s : alone c s = (db_health ≫= fun _ => first_section c ≫= finish 4) s.
Proof. unfold alone, begin. rewrite bind_assoc. apply bind_ext. intros [] s1. by rewrite bind_mret. Qed.

Lemma alone_flush s : alone CallFlush s = whole CallFlush s.
Proof.
  rewrite alone_run. unfold whole, first_section, flush_inner. rewrite bind_assoc. apply bind_ext. intros [] s1.
  rewrite bind_assoc. unfold flush_impl. rewrite latching_bind, latching_total.
  2: { unfold flush_freeze. rewrite bind_gets. case_match; by eexists _, _. }
  apply bind_ext. intros [m|] s2; [|done]. rewrite bind_mret, latching_bind.
  cbn [finish turn]. rewrite latching_bind. apply bind_ext. intros t s3.
  rewrite latching_total by (by eexists _, _). rewrite bind_mret. cbn [turn].
  rewrite latching_bind, latching_total by (by eexists _, _). rewrite bind_assoc. apply bind_ext. intros [] s4.
  rewrite bind_mret. cbn [turn]. rewrite !latching_bind. apply bind_ext. intros [] s5.
  rewrite latching_total by (by eexists _, _). rewrite bind_mret. cbn [turn].
  rewrite latching_total by (by eexists _, _). rewrite bind_assoc. apply bind_ext. by intros [] s6.
Qed.

(** The sections are the code: a call whose sections run back to back does what
    the operation of the engine does, errors and panics included. *)
Theorem sections_compose (c : Call) (s : DbInner * World) : alone c s = whole c s.
Proof.
  destruct c as [key value|batch|key bound|start fin limit bound| |].
  - rewrite alone_run. unfold whole, first_section, db_write. rewrite !bind_assoc. apply bind_ext. intros [] s1.
    rewrite !bind_assoc. apply bind_ext. intros records s2. rewrite bind_mret. cbn [finish turn].
    rewrite bind_assoc. apply bind_ext. by intros [] s3.
  - rewrite alone_run. unfold whole, first_section, db_write_batch. rewrite !bind_assoc. apply bind_ext. intros [] s1.
    case_bool_decide; [done|]. rewrite !bind_assoc. apply bind_ext. intros records s2. rewrite bind_mret. cbn [finish turn].
    rewrite bind_assoc. apply bind_ext. by intros [] s3.
  - rewrite alone_run. unfold whole, first_section, db_get_at. rewrite !bind_assoc. apply bind_ext. intros [] s1.
    rewrite !bind_assoc. apply bind_ext. intros [r|] s2; [done|]. rewrite bind_mret. cbn [finish turn].
    rewrite !bind_assoc. apply bind_ext. intros [r|] s3; [done|]. rewrite bind_mret. cbn [finish turn].
    rewrite !bind_assoc. apply bind_ext. intros tables s4. rewrite bind_mret. cbn [finish turn].
    rewrite bind_assoc. apply bind_ext. by intros v s5.
  - rewrite alone_run. unfold whole, first_section, db_scan_at. rewrite !bind_assoc. apply bind_ext. intros [] s1.
    case_match; [done|]. rewrite !bind_assoc. apply bind_ext. intros active s2. rewrite bind_mret. cbn [finish turn].
    rewrite !bind_assoc. apply bind_ext. intros frozen s3. rewrite bind_mret. cbn [finish turn].
    rewrite !bind_assoc. apply bind_ext. intros tables s4. rewrite bind_mret. cbn [finish turn].
    rewrite bind_assoc. apply bind_ext. by intros l s5.
  - apply alone_flush.
  - rewrite alone_run. unfold whole, first_section, compact_step, compact_step_impl, merge_run. rewrite !bind_assoc. apply bind_ext. intros [] s1.
    rewrite !latching_bind, latching_total by (by eexists _, _). rewrite ?bind_assoc. apply bind_ext. intros tables s2.
    rewrite ?bind_mret. cbn [finish turn]. rewrite latching_bind. apply bind_ext. intros [[run max_id]|] s3.
    + rewrite latching_total by (by eexists _, _). rewrite bind_mret. cbn [turn]. rewrite !latching_bind.
      apply bind_ext. by intros [] s4.
    + done.
Qed.
End threads.
