(* ===== verification/Progress.v ===== *)
(** * Progress

    The locks are taken in one order (the compaction lock before the flush lock before
    the log's), and every section brings its call closer to its end: some thread can
    always go on, and threads that keep getting turns return from all their calls,
    whatever the disk does. *)
From Stdlib Require Import NArith Lia.
From stdpp Require Import base numbers list strings gmap.
From S2P Require Import Prelude Errors FileNames Platform State FileSystem Records Versions.
From S2P Require Import MemTable Headers Frames WriteAheadLog Manifest SsTables Merging Compaction Engine Threads.

Local Open Scope nat_scope.

(** ** Work that is left *)

(** The sections a call is still to take, at most. *)
Definition pc_left (pc : Pc) : nat :=
  match pc with
  | AtInsert _ | AtSearch _ _ _ | AtScanMerge _ _ _ _ _ _ _ | AtRetire | AtPublishRun _ _ => 1
  | AtTables _ _ | AtScanTables _ _ _ _ _ _ | AtRewrite | AtMerge _ => 2
  | AtFrozen _ _ | AtScanFrozen _ _ _ _ _ | AtPublish _ => 3
  | AtTable _ => 4
  | AtStart _ => 5
  end.
Definition at_left (at_pc : option (Call * nat * Pc)) : nat :=
  match at_pc with Some (_, _, pc) => pc_left pc | None => 0 end.
Definition th_left (th : Thread) : nat := 6 * length (th_calls th) + at_left (th_pc th).
Definition pool_left (threads : list Thread) : nat := foldr (fun th n => th_left th + n) 0 threads.

(** The calls of a thread, the ones that returned first. *)
Definition th_program (th : Thread) : list Call :=
  (f_call <$> th_done th) ++ match th_pc th with Some (c, _, _) => [c] | None => [] end ++ th_calls th.

Lemma pool_left_insert threads i th th' :
  threads !! i = Some th -> pool_left (<[i := th']> threads) + th_left th = pool_left threads + th_left th'.
Proof.
  unfold pool_left. revert i. induction threads as [|x threads IH]; intros [|i] Hi; try done.
  - injection Hi as ->. cbn [insert list_insert foldr]. lia.
  - specialize (IH i Hi). change (<[S i := th']> (x :: threads)) with (x :: <[i := th']> threads). cbn [foldr]. lia.
Qed.

Lemma pool_left_elem threads th : th ∈ threads -> th_left th <= pool_left threads.
Proof.
  unfold pool_left. induction threads as [|x threads IH]; [by intros ?%elem_of_nil|]. cbn [foldr].
  intros [->|Hth]%elem_of_cons; [lia|]. specialize (IH Hth). lia.
Qed.

Lemma pool_left_zero threads th :
  pool_left threads = 0 -> th ∈ threads -> th_pc th = None /\ th_calls th = [].
Proof.
  intros E Hth. pose proof (pool_left_elem _ _ Hth) as Hle. unfold th_left, at_left in Hle.
  destruct (th_calls th); cbn [length] in Hle; [|lia]. destruct (th_pc th) as [[[c from] pc]|]; [|done].
  destruct pc; cbn in Hle; lia.
Qed.

Lemma pool_left_some threads : pool_left threads <> 0 -> exists i th, threads !! i = Some th /\ th_left th <> 0.
Proof.
  induction threads as [|x threads IH]; [done|]. unfold pool_left in *. cbn [foldr]. intros Hn.
  destruct (decide (th_left x = 0)); [|by exists 0, x]. destruct IH as (i & th & Hi & Hl); [lia|]. by exists (S i), th.
Qed.

Section progress.
Context `{Platform}.

(** ** Sections end *)

Lemma begin_left c s pc s' : begin c s = (Ok (inl pc), s') -> pc_left pc < 6.
Proof. intros _. destruct pc; cbn; lia. Qed.

Lemma turn_left pc s pc' s' : turn pc s = (Ok (inl pc'), s') -> pc_left pc' < pc_left pc.
Proof.
  destruct pc; cbn [turn]; unfold first_section; intros E.
  all: repeat first
    [ apply latching_inv in E
    | apply bind_run_inv in E as (? & ? & _ & E)
    | match type of E with context [match ?x with _ => _ end] => destruct x end
    | match type of E with mret _ _ = _ => apply (f_equal fst) in E; cbn in E; injection E as <-; cbn; lia end
    | match type of E with mret _ _ = _ => by apply (f_equal fst) in E end ].
Qed.

(** ** Who can go on *)

Definition can_advance (p : Pool) (i : nat) : bool :=
  match p_threads p !! i with
  | None => false
  | Some th =>
      match th_pc th, th_calls th with
      | None, [] => false
      | None, _ :: _ => true
      | Some (_, _, pc), _ => lock_free p (turn_needs pc)
      end
  end.

Lemma advance_blocked p i : can_advance p i = false -> advance p i = p.
Proof.
  unfold can_advance, advance. destruct (p_threads p !! i) as [th|]; [|done].
  destruct (th_pc th) as [[[c from] pc]|]; [by intros ->|]. destruct (th_calls th); done.
Qed.

(** A turn is one section less, and no call is lost. *)
Lemma advance_left p i :
  can_advance p i = true ->
  pool_left (p_threads (advance p i)) < pool_left (p_threads p) /\
  th_program <$> p_threads (advance p i) = th_program <$> p_threads p.
Proof.
  unfold can_advance, advance. destruct (p_threads p !! i) as [th|] eqn:Hi; [|done].
  assert (forall s commits th', th_left th' < th_left th -> th_program th' = th_program th ->
    pool_left (p_threads (mkPool s (<[i := th']> (p_threads p)) commits)) < pool_left (p_threads p) /\
    th_program <$> p_threads (mkPool s (<[i := th']> (p_threads p)) commits) = th_program <$> p_threads p) as Hset.
  { intros s commits th' Hlt E. cbn [p_threads]. pose proof (pool_left_insert (p_threads p) i th th' Hi). split; [lia|].
    rewrite list_fmap_insert, E. apply list_insert_id. by rewrite list_lookup_fmap, Hi. }
  unfold th_left, th_program in Hset. destruct (th_pc th) as [[[c from] pc]|]; [|destruct (th_calls th) as [|c calls]; [done|]].
  - intros ->. destruct (turn pc (p_state p)) as [o s'] eqn:E. apply Hset; unfold settle; destruct o as [[pc'|a]|e|]; cbn;
      try (by rewrite ?fmap_app, <- ?app_assoc); try (apply turn_left in E; lia); destruct pc; cbn; lia.
  - intros _. destruct (begin c (p_state p)) as [o s'] eqn:E. apply Hset; unfold settle; destruct o as [[pc'|a]|e|]; cbn;
      try (by rewrite ?fmap_app, <- ?app_assoc); try (apply begin_left in E; lia); lia.
Qed.

Lemma advance_mono p i :
  pool_left (p_threads (advance p i)) <= pool_left (p_threads p) /\
  th_program <$> p_threads (advance p i) = th_program <$> p_threads p.
Proof.
  destruct (can_advance p i) eqn:E; [|by rewrite advance_blocked]. destruct (advance_left p i E). split; [lia|done].
Qed.

Lemma run_mono p schedule :
  pool_left (p_threads (run_schedule schedule p)) <= pool_left (p_threads p) /\
  th_program <$> p_threads (run_schedule schedule p) = th_program <$> p_threads p.
Proof.
  revert p. induction schedule as [|i schedule IH]; intros p; [done|].
  change (run_schedule (i :: schedule) p) with (run_schedule schedule (advance p i)).
  destruct (IH (advance p i)), (advance_mono p i). split; [lia|congruence].
Qed.

(** ** No deadlock *)

Lemma holder_or_free p l :
  (exists i th, p_threads p !! i = Some th /\ th_holds th = Some l) \/ lock_free p (Some l) = true.
Proof.
  destruct (lock_free p (Some l)) eqn:E; [by right|]. left. unfold lock_free in E. apply not_true_iff_false in E.
  rewrite forallb_forall in E. destruct (decide (Exists (fun th => th_holds th = Some l) (p_threads p))) as [Hex|Hno].
  - apply Exists_exists in Hex as (th & Hth & Hl). apply list_elem_of_lookup in Hth as [i Hi]. eauto.
  - exfalso. apply E. intros th Hth%list_elem_of_In. apply negb_true_iff, bool_decide_eq_false. intros Hl.
    apply Hno, Exists_exists. eauto.
Qed.

(** The holder of a lock waits for later locks only. *)
Lemma some_can_advance p :
  pool_left (p_threads p) <> 0 -> exists i, i < length (p_threads p) /\ can_advance p i = true.
Proof.
  intros Hleft.
  assert (forall i th c from pc, p_threads p !! i = Some th -> th_pc th = Some (c, from, pc) -> lock_free p (turn_needs pc) = true ->
    exists i, i < length (p_threads p) /\ can_advance p i = true) as Hgo.
  { intros i th c from pc Hi Hpc Hf. exists i. split; [by eapply lookup_lt_Some|]. unfold can_advance. by rewrite Hi, Hpc. }
  assert (forall l, (exists i th, p_threads p !! i = Some th /\ th_holds th = Some l) ->
    exists i th c from pc, p_threads p !! i = Some th /\ th_pc th = Some (c, from, pc) /\ holds pc = Some l) as Hpc.
  { intros l (i & th & Hi & Hl). unfold th_holds in Hl. destruct (th_pc th) as [[[c from] pc]|] eqn:E; [|done].
    by exists i, th, c, from, pc. }
  destruct (holder_or_free p WalLock) as [(i & th & c & from & pc & Hi & Ep & Hl)%Hpc|Hwal].
  { eapply Hgo; [exact Hi|exact Ep|]. by destruct pc. }
  destruct (holder_or_free p FlushLock) as [(i & th & c & from & pc & Hi & Ep & Hl)%Hpc|Hflush].
  { eapply Hgo; [exact Hi|exact Ep|]. by destruct pc. }
  destruct (holder_or_free p CompactionLock) as [(i & th & c & from & pc & Hi & Ep & Hl)%Hpc|Hcompact].
  { eapply Hgo; [exact Hi|exact Ep|]. by destruct pc. }
  assert (forall l, lock_free p l = true) as Hfree by (by intros [[]|]).
  destruct (pool_left_some _ Hleft) as (i & th & Hi & Hn). exists i. split; [by eapply lookup_lt_Some|].
  unfold can_advance. rewrite Hi. unfold th_left in Hn.
  destruct (th_pc th) as [[[c from] pc]|]; [apply Hfree|by destruct (th_calls th)].
Qed.

(** A round in which every thread gets a turn. *)
Lemma round_progress p round :
  (forall i, i < length (p_threads p) -> i ∈ round) -> pool_left (p_threads p) <> 0 ->
  pool_left (p_threads (run_schedule round p)) < pool_left (p_threads p).
Proof.
  intros Hall Hleft. destruct (some_can_advance p Hleft) as (i & Hi & Hcan). specialize (Hall i Hi). clear Hi Hleft.
  induction round as [|j round IH]; [by apply elem_of_nil in Hall|]. cbn.
  destruct (can_advance p j) eqn:E.
  - destruct (advance_left p j E), (run_mono (advance p j) round). unfold run_schedule in *. lia.
  - rewrite advance_blocked by done. apply IH. apply elem_of_cons in Hall as [<-|?]; [congruence|done].
Qed.

Lemma rounds_progress p rounds :
  Forall (fun round => forall i, i < length (p_threads p) -> i ∈ round) rounds -> pool_left (p_threads p) <= length rounds ->
  pool_left (p_threads (run_schedule (concat rounds) p)) = 0.
Proof.
  revert p. induction rounds as [|round rounds IH]; intros p Hall Hle; cbn in *; [unfold run_schedule; cbn; lia|].
  apply Forall_cons in Hall as [Hr Hall]. unfold run_schedule in *. rewrite foldl_app. fold (run_schedule round p) in *.
  destruct (run_mono p round) as [Hmono Hprog]. apply IH.
  - apply (f_equal length) in Hprog. rewrite !length_fmap in Hprog. by rewrite Hprog.
  - destruct (decide (pool_left (p_threads p) = 0)); [lia|]. pose proof (round_progress p round Hr ltac:(done)). lia.
Qed.

Lemma start_left calls s : pool_left (p_threads (start_pool calls s)) = 6 * length (concat calls).
Proof.
  cbn [start_pool p_threads]. unfold pool_left. induction calls as [|c calls IH]; [done|]. rewrite fmap_cons. cbn [foldr concat].
  rewrite IH, length_app. unfold th_left. cbn. lia.
Qed.

(** No deadlock.  Threads that make any calls on any engine, over any disk: in every
    pool a schedule reaches, if a call is left some thread can take its next section. *)
Theorem no_deadlock (calls : list (list Call)) (s : DbInner * World) (schedule : list nat) :
  let p := run_schedule schedule (start_pool calls s) in
  Forall (fun th => th_pc th = None /\ th_calls th = []) (p_threads p) \/
  exists i, can_advance p i = true /\ advance p i <> p.
Proof.
  intros p. destruct (decide (pool_left (p_threads p) = 0)) as [Hz|Hn].
  - left. apply Forall_forall. intros th Hth. by apply (pool_left_zero (p_threads p)).
  - right. destruct (some_can_advance p Hn) as (i & _ & Hi). exists i. split; [done|]. intros E.
    destruct (advance_left p i Hi) as [Hlt _]. rewrite E in Hlt. lia.
Qed.

(** C13: every call returns.  If each of [rounds] gives every thread a turn and there are
    six of them per call, then after them every thread has returned from all of its
    calls, in their order, on any engine and over any disk. *)
Theorem fair_schedules_finish (calls : list (list Call)) (s : DbInner * World) (rounds : list (list nat)) :
  Forall (fun round => forall i, i < length calls -> i ∈ round) rounds -> 6 * length (concat calls) <= length rounds ->
  let p := run_schedule (concat rounds) (start_pool calls s) in
  (fun th => f_call <$> th_done th) <$> p_threads p = calls /\
  Forall (fun th => th_pc th = None /\ th_calls th = []) (p_threads p).
Proof.
  intros Hall Hle p. assert (pool_left (p_threads p) = 0) as Hz.
  { apply rounds_progress; [|by rewrite start_left]. cbn [start_pool p_threads]. by rewrite length_fmap. }
  assert (forall th, th ∈ p_threads p -> th_pc th = None /\ th_calls th = []) as Hdone
    by (intros th Hth; by apply (pool_left_zero (p_threads p))).
  split; [|by apply Forall_forall]. destruct (run_mono (start_pool calls s) (concat rounds)) as [_ Hprog]. fold p in Hprog.
  transitivity (th_program <$> p_threads p).
  - apply list_fmap_ext. intros i th Hth%list_elem_of_lookup_2. destruct (Hdone th Hth) as [E1 E2].
    unfold th_program. by rewrite E1, E2, app_nil_r.
  - rewrite Hprog. cbn [start_pool p_threads]. rewrite <- list_fmap_compose. apply list_fmap_id.
Qed.
End progress.
