(* ===== verification/Looks.v ===== *)
(** * Readers beside flushes and compactions

    A read takes its looks at the MemTable, at the frozen MemTable and at the live
    set one after the other, while writes are inserted and flushes and compactions
    move records between the three.  What it puts together is what the store held
    at some moment of the read. *)
From Stdlib Require Import NArith Lia.
From stdpp Require Import base numbers list.
From S2P Require Import Prelude Records Versions.

Local Open Scope N_scope.

(** ** Moments *)

(** The history [base] after the first [n] of the commits [cs]. *)
Definition at_commit (base : list Rec) (cs : list (list Rec)) (n : nat) : list Rec :=
  base ++ concat (take n cs).

(** [x] was the value of [key] for readers at [b] some time since commit [from]. *)
Definition sometime (base : list Rec) (cs : list (list Rec)) (from : nat) (key : bytes) (b : N)
    (x : option bytes) : Prop :=
  exists n, (from <= n <= length cs)%nat /\ x = lookup_at key b (at_commit base cs n).

Lemma sometime_more base cs cs' from key b x :
  cs `prefix_of` cs' -> sometime base cs from key b x -> sometime base cs' from key b x.
Proof.
  intros [more ->] (n & Hn & ->). exists n. rewrite length_app. split; [lia|].
  unfold at_commit. by rewrite take_app_le by lia.
Qed.

Lemma sometime_now base cs from key b :
  (from <= length cs)%nat -> sometime base cs from key b (lookup_at key b (base ++ concat cs)).
Proof. intros Hf. exists (length cs). split; [lia|]. unfold at_commit. by rewrite take_ge. Qed.

Lemma history_more base cs cs' (r : Rec) : cs `prefix_of` cs' -> r ∈ base ++ concat cs -> r ∈ base ++ concat cs'.
Proof. intros [more ->]. rewrite concat_app, !elem_of_app. tauto. Qed.

(** ** What is in memory *)

(** The three places a read looks at, in its order, and the history they stand for.
    While a flush publishes its table, the frozen records are in the tables too. *)
Record mem_ok (hist : list Rec) (live : N -> Prop) (active frozen tables : list Rec) : Prop := mkMemOk {
  mm_unique : versions_unique hist;
  mm_sub : forall r, r ∈ active ++ frozen ++ tables -> r ∈ hist;
  mm_active : forall a x, a ∈ active -> x ∈ frozen ++ tables -> r_seq x < r_seq a;
  mm_frozen : forall a x, a ∈ frozen -> x ∈ tables -> r_seq x < r_seq a \/ x ∈ frozen;
  mm_reads : forall key b, live b -> lookup_at key b (active ++ frozen ++ tables) = lookup_at key b hist
}.

(** Lists of versions of one history are read alike if they hold the same versions. *)
Lemma newest_same hist key b l l' :
  versions_unique hist -> (forall r, r ∈ l -> r ∈ hist) -> (forall r, r ∈ l' -> r ∈ hist) ->
  (forall r, visible key b r = true -> r ∈ l <-> r ∈ l') -> newest key b l = newest key b l'.
Proof. intros Hu Hl Hl' He. apply newest_elem_of; [by apply (versions_unique_sub hist)|done|by apply (versions_unique_sub hist)]. Qed.

(** A hit in the frozen MemTable is newer than what the tables hold. *)
Lemma newest_frozen hist live active frozen tables key b :
  mem_ok hist live active frozen tables ->
  newest key b (frozen ++ tables) =
    match newest key b frozen with Some r => Some r | None => newest key b tables end.
Proof.
  intros []. rewrite newest_app. destruct (newest key b frozen) as [r|] eqn:Er; [|done].
  destruct (newest key b tables) as [x|] eqn:Ex; [|done]. apply newest_some in Er as (Hr & _ & Hmax), Ex as (Hx & Hv & _).
  destruct (N.ltb_spec (r_seq r) (r_seq x)) as [Hlt|]; [|done]. exfalso.
  destruct (mm_frozen0 r x Hr Hx) as [?|Hin]; [lia|]. specialize (Hmax x Hin Hv). lia.
Qed.

Lemma newest_active hist live active frozen tables key b :
  mem_ok hist live active frozen tables ->
  newest key b (active ++ frozen ++ tables) =
    match newest key b active with Some r => Some r | None => newest key b (frozen ++ tables) end.
Proof. intros []. apply newest_layer. intros a x Ha Hx _ _. specialize (mm_active0 a x Ha Hx). lia. Qed.

(** ** A read that has begun

    [seen] are the versions it has copied so far.  Whatever it returns for the key,
    if it looks at the frozen MemTable and the tables now, was right some time; so
    it is if it has looked at the frozen MemTable already ([deep]). *)
Record reader (base : list Rec) (cs : list (list Rec)) (from : nat) (key : bytes) (b : N)
    (seen frozen tables : list Rec) (deep : bool) : Prop := mkReader {
  rd_from : (from <= length cs)%nat;
  rd_sub : forall r, r ∈ seen -> r ∈ base ++ concat cs;
  rd_seen : forall r, newest key b seen = Some r -> sometime base cs from key b (r_value r);
  rd_next : sometime base cs from key b (lookup_at key b (seen ++ frozen ++ tables));
  rd_deep : deep = true -> sometime base cs from key b (lookup_at key b (seen ++ tables))
}.

Section looks.
Context (base : list Rec) (cs : list (list Rec)) (live : N -> Prop) (from : nat) (key : bytes) (b : N).
Context (active frozen tables : list Rec).
Hypothesis Hmem : mem_ok (base ++ concat cs) live active frozen tables.
Hypothesis Hlive : live b.
Hypothesis Hfrom : (from <= length cs)%nat.

(** What the store holds now. *)
Lemma read_now : sometime base cs from key b (lookup_at key b (active ++ frozen ++ tables)).
Proof. rewrite (mm_reads _ _ _ _ _ Hmem) by done. by apply sometime_now. Qed.

Lemma found_active r : newest key b active = Some r -> sometime base cs from key b (r_value r).
Proof.
  intros E. pose proof read_now as Hn. unfold lookup_at in Hn. by rewrite (newest_active _ _ _ _ _ _ _ Hmem), E in Hn.
Qed.

Lemma missed_active : newest key b active = None -> reader base cs from key b [] frozen tables false.
Proof.
  intros E. split; [done|intros r Hr; by apply elem_of_nil in Hr|done| |done]. cbn [app].
  pose proof read_now as Hn. unfold lookup_at in *. by rewrite (newest_active _ _ _ _ _ _ _ Hmem), E in Hn.
Qed.

(** A copy of the MemTable that has all of the key's versions. *)
Lemma copied_active seen :
  (forall r, r ∈ seen -> r ∈ active) -> newest key b seen = newest key b active ->
  reader base cs from key b seen frozen tables false.
Proof.
  intros Hs E. split; [done| | | |done].
  - intros r Hr. apply (mm_sub _ _ _ _ _ Hmem). rewrite elem_of_app. auto.
  - rewrite E. apply found_active.
  - pose proof read_now as Hn. unfold lookup_at in *. rewrite newest_app in *. by rewrite E.
Qed.

Lemma found_frozen r :
  reader base cs from key b [] frozen tables false -> newest key b frozen = Some r ->
  sometime base cs from key b (r_value r).
Proof.
  intros [_ _ _ Hn _] E. unfold lookup_at in Hn. cbn [app] in Hn. by rewrite (newest_frozen _ _ _ _ _ _ _ Hmem), E in Hn.
Qed.

Lemma missed_frozen :
  reader base cs from key b [] frozen tables false -> newest key b frozen = None ->
  reader base cs from key b [] frozen tables true.
Proof.
  intros [? ? ? Hn _] E. split; try done. intros _. unfold lookup_at in *. cbn [app] in *.
  by rewrite (newest_frozen _ _ _ _ _ _ _ Hmem), E in Hn.
Qed.

Lemma copied_frozen seen copy :
  reader base cs from key b seen frozen tables false ->
  (forall r, r ∈ copy -> r ∈ frozen) -> newest key b copy = newest key b frozen ->
  reader base cs from key b (seen ++ copy) frozen tables true.
Proof.
  intros [? Hsub Hseen Hn _] Hc E.
  assert (newest key b (seen ++ frozen ++ tables) = newest key b ((seen ++ copy) ++ tables)) as E2.
  { rewrite <- app_assoc, (newest_app _ _ seen), (newest_frozen _ _ _ _ _ _ _ Hmem). rewrite (newest_app _ _ seen (copy ++ tables)).
    rewrite <- E. rewrite newest_app. destruct (newest key b copy) as [r|] eqn:Er; [|done].
    destruct (newest key b tables) as [x|] eqn:Ex; [|done]. destruct (N.ltb_spec (r_seq r) (r_seq x)) as [Hlt|]; [|done].
    exfalso. symmetry in E. apply newest_some in E as (Hr & _ & Hmax), Ex as (Hx & Hv & _).
    destruct (mm_frozen _ _ _ _ _ Hmem r x Hr Hx) as [?|Hin]; [lia|]. specialize (Hmax x Hin Hv). lia. }
  split; [done| | | |].
  - intros r [Hr|Hr]%elem_of_app; [by apply Hsub|]. apply (mm_sub _ _ _ _ _ Hmem). rewrite !elem_of_app. auto.
  - intros r Er. rewrite newest_app in Er. destruct (newest key b seen) as [a|] eqn:Ea.
    + destruct (newest key b copy) as [c|] eqn:Ec; [|by injection Er as <-; apply Hseen].
      destruct (N.ltb_spec (r_seq a) (r_seq c)) as [Hlt|]; injection Er as <-; [|by apply Hseen].
      unfold lookup_at in Hn. rewrite newest_app, (newest_frozen _ _ _ _ _ _ _ Hmem), <- E, Ea in Hn.
      by rewrite (proj2 (N.ltb_lt _ _) Hlt) in Hn.
    + unfold lookup_at in Hn. by rewrite newest_app, (newest_frozen _ _ _ _ _ _ _ Hmem), <- E, Ea, Er in Hn.
  - assert (newest key b ((seen ++ copy) ++ frozen ++ tables) = newest key b (seen ++ frozen ++ tables)) as E3.
    { apply (newest_same (base ++ concat cs)); [apply Hmem|..].
      - intros r. rewrite !elem_of_app. intros [[?|?]|?]; [by rewrite <- elem_of_app; apply Hsub|..];
          rewrite <- elem_of_app; apply (mm_sub _ _ _ _ _ Hmem); rewrite !elem_of_app; auto.
      - intros r. rewrite elem_of_app. intros [?|?]; [by apply Hsub|]. apply (mm_sub _ _ _ _ _ Hmem). rewrite elem_of_app. auto.
      - intros r _. rewrite !elem_of_app. split; [intros [[?|?]|?]|intros [?|?]]; auto. }
    unfold lookup_at in *. by rewrite E3.
  - intros _. unfold lookup_at in *. by rewrite <- E2.
Qed.
End looks.

(** ** What others do meanwhile *)

Section stable.
Context (base : list Rec) (cs cs' : list (list Rec)) (live : N -> Prop) (from : nat) (key : bytes) (b : N).
Context (seen active frozen tables : list Rec) (deep : bool).
Hypothesis Hcs : cs `prefix_of` cs'.
Hypothesis Hrd : reader base cs from key b seen frozen tables deep.

(** Commits. *)
Lemma reader_more : reader base cs' from key b seen frozen tables deep.
Proof.
  pose proof (prefix_length _ _ Hcs) as Hlen. destruct Hrd. split; try (intros; eapply sometime_more; eauto); [lia|].
  intros r Hr. by eapply history_more, rd_sub0.
Qed.

(** The versions are elsewhere, or in two places. *)
Lemma reader_moved frozen' tables' :
  versions_unique (base ++ concat cs) -> (forall r, r ∈ frozen ++ tables -> r ∈ base ++ concat cs) ->
  (forall r, r ∈ frozen' ++ tables' <-> r ∈ frozen ++ tables) ->
  (forall r, r ∈ tables' <-> r ∈ tables) \/ (forall r, r ∈ tables' <-> r ∈ frozen ++ tables) ->
  reader base cs from key b seen frozen' tables' deep.
Proof.
  intros Hu Hsub Hall Htab. destruct Hrd.
  assert (forall l l', (forall r, r ∈ l -> r ∈ frozen ++ tables) -> (forall r, r ∈ l' <-> r ∈ l) ->
    lookup_at key b (seen ++ l') = lookup_at key b (seen ++ l)) as Hsame.
  { intros l l' Hl Hl'. unfold lookup_at. f_equal. apply (newest_same (base ++ concat cs)); [done|..].
    - intros r. rewrite elem_of_app, Hl'. intros [?|?]; auto.
    - intros r. rewrite elem_of_app. intros [?|?]; auto.
    - intros r _. by rewrite !elem_of_app, Hl'. }
  split; [done|done|done| |].
  - by rewrite (Hsame (frozen ++ tables) (frozen' ++ tables')).
  - intros Hd. destruct Htab as [Ht|Ht]; [rewrite (Hsame tables tables')|rewrite (Hsame (frozen ++ tables) tables')]; auto.
    intros r Hr. apply elem_of_app. auto.
Qed.

(** The MemTable is frozen. *)
Lemma reader_frozen :
  mem_ok (base ++ concat cs) live active [] tables -> live b -> frozen = [] ->
  reader base cs from key b seen active tables deep.
Proof.
  intros Hmem Hlive ->. destruct Hrd. split; try done.
  pose proof (read_now base cs live from key b active [] tables Hmem Hlive rd_from0) as Hnow. cbn [app] in Hnow.
  unfold lookup_at in *. rewrite newest_app. destruct (newest key b seen) as [a|] eqn:Ea.
  - destruct (newest key b (active ++ tables)) as [x|]; [|by apply rd_seen0].
    destruct (r_seq a <? r_seq x); [done|by apply rd_seen0].
  - done.
Qed.

(** A compaction replaces a part of the tables. *)
Lemma reader_spliced tables' :
  frozen = [] -> (forall r, r ∈ tables' -> r ∈ tables) ->
  lookup_at key b tables' = lookup_at key b tables ->
  reader base cs from key b seen frozen tables' deep.
Proof.
  intros -> Hsub E. destruct Hrd. cbn [app] in *.
  assert (sometime base cs from key b (lookup_at key b (seen ++ tables'))) as Hn; [|by split].
  unfold lookup_at in *. rewrite newest_app in *. destruct (newest key b seen) as [a|] eqn:Ea; [|by rewrite E].
  destruct (newest key b tables') as [x'|] eqn:Ex'; [|by apply rd_seen0].
  destruct (N.ltb_spec (r_seq a) (r_seq x')) as [Hlt|]; [|by apply rd_seen0].
  apply newest_some in Ex' as (Hx' & Hv & _). destruct (newest key b tables) as [x|] eqn:Ex.
  - apply newest_some in Ex as (_ & _ & Hmax). specialize (Hmax x' (Hsub x' Hx') Hv).
    rewrite (proj2 (N.ltb_lt (r_seq a) (r_seq x))) in rd_next0 by lia. cbn [mbind option_bind] in *. by rewrite E.
  - rewrite newest_none in Ex. by rewrite (Ex x' (Hsub x' Hx')) in Hv.
Qed.
End stable.
