(* ===== verification/Schedules.v ===== *)
(** * Every schedule

    Threads that write, read, flush and compact in the sections of [Threads], in any
    order that the locks allow.  The invariant relates the engine inside a flush to
    an engine without one ([view]), so that every section is a step of the
    sequential proofs or no step at all. *)
From Stdlib Require Import NArith Lia.
From stdpp Require Import base numbers list sorting strings gmap.
From S2P Require Import Prelude Errors FileNames Platform State FileSystem Store Records Versions MemTable.
From S2P Require Import Headers Frames WriteAheadLog Manifest ManifestRecovery.
From S2P Require Import Bloom SsTables TableLayout TableReads Tables Merging Compaction Scans Engine.
From S2P Require Import Layers Writes Flushes CompactSteps Specification Sessions Threads Looks.

Local Open Scope N_scope.

(** ** Inside a flush *)

(** How far the flush is that some thread is in. *)
Inductive Stage :=
| Idle
| Froze (m : MemTable)
| Wrote (m : MemTable) (t : SsTable)
| Joined (m : MemTable)
| Rewrote (m : MemTable).

Section schedules.
Context `{PlatformOk}.

Definition froz (d : DbInner) : list Rec := from_option mt_iter [] (db_frozen d).
Definition tabs (T : Tables) (d : DbInner) : list Rec := concat (table_recs T <$> reverse (db_sstables d)).

(** The engine [v] without a flush that the engine [d] stands for. *)
Definition view (st : Stage) (T : Tables) (d v : DbInner) : Prop :=
  match st with
  | Idle => v = d
  | Froze m => unfrozen m d v
  | Wrote m t => db_frozen d = Some m /\ mt_ok m /\ v = with_table t d /\ table_recs T t = mt_iter m
  | Joined m | Rewrote m => db_frozen d = Some m /\ mt_ok m /\ v = thawed d /\
      exists tables t, db_sstables d = tables ++ [t] /\ table_recs T t = mt_iter m
  end.

(** All that the two do not share. *)
Lemma view_same st T d v :
  view st T d v -> v = mkDb (db_dir d) (db_opts d) (db_lock d) (db_wal d) (db_active v) (db_frozen v) (db_sstables v)
    (db_next_sst_id d) (db_next_seq d) (db_manifest d) (db_snapshots d) (db_tasks d) (db_compact d) (db_failed d).
Proof. destruct st; cbn; [intros ->|intros [_ (m' & -> & _) _ _ _]|intros (_ & _ & -> & _)..]; by destruct d. Qed.

(** Only a table that is not yet published is missing. *)
Lemma view_tables st T d v : view st T d v -> db_sstables d `prefix_of` db_sstables v.
Proof.
  destruct st; cbn; [intros ->|intros [_ (m' & -> & _) _ _ _]|intros (_ & _ & -> & _)..]; cbn; try done.
  by apply prefix_app_r.
Qed.

Lemma view_active_ok st T d v w : view st T d v -> db_ok T v w -> mt_ok (db_active d).
Proof.
  intros Hv Hok. pose proof (dk_active _ _ _ Hok).
  destruct st; cbn in Hv; [by subst|apply Hv|destruct Hv as (_ & _ & -> & _)..]; done.
Qed.

Lemma view_frozen_ok st T d v m w : view st T d v -> db_ok T v w -> db_frozen d = Some m -> mt_ok m.
Proof.
  intros Hv Hok E. pose proof (dk_frozen _ _ _ Hok) as Ef.
  destruct st as [|m'|m' t|m'|m']; cbn in Hv; [subst; congruence|destruct Hv as [E' _ _ ? _]|destruct Hv as (E' & ? & _)..]; congruence.
Qed.

Lemma tabs_snoc T d tables t :
  db_sstables d = tables ++ [t] -> tabs T d = table_recs T t ++ concat (table_recs T <$> reverse tables).
Proof. intros E. unfold tabs. by rewrite E, reverse_snoc, fmap_cons. Qed.

(** Records that are in the frozen MemTable and in the newest table. *)
Lemma mem_twice hist live active frozen tables :
  mem_ok hist live active frozen tables -> mem_ok hist live active frozen (frozen ++ tables).
Proof.
  intros []. assert (forall r, r ∈ active ++ frozen ++ frozen ++ tables <-> r ∈ active ++ frozen ++ tables) as Hsame
    by (intros r; rewrite !elem_of_app; tauto).
  split; [done|..].
  - intros r Hr. by apply mm_sub, Hsame.
  - intros a x Ha Hx. apply mm_active; [done|]. rewrite !elem_of_app in *. tauto.
  - intros a x Ha [Hx|Hx]%elem_of_app; [by right|by apply mm_frozen].
  - intros key b Hb. rewrite <- mm_reads by done. unfold lookup_at. f_equal.
    apply (newest_same hist); [done|intros r Hr; by apply mm_sub, Hsame|by apply mm_sub|]. intros r _. apply Hsame.
Qed.

(** What a read finds in the three places. *)
Lemma view_mem hist st T d v w :
  serving hist T (v, w) -> view st T d v ->
  mem_ok hist (live_bound v) (mt_iter (db_active d)) (froz d) (tabs T d).
Proof.
  intros [Hok Hh] Hv. cbn [fst snd] in *. pose proof Hh as []. pose proof (dk_frozen _ _ _ Hok) as Hf.
  rewrite layers_thawed in * by done. cbn [concat layered] in *.
  assert (versions_unique hist) as Hu by by apply NoDup_versions_unique.
  destruct ho_layered as [Hnew Hlay]. fold (tabs T v) in *.
  assert (forall m rest, tabs T v = mt_iter m ++ rest -> (forall a x, a ∈ mt_iter m -> x ∈ rest -> r_seq x < r_seq a) ->
    mem_ok hist (live_bound v) (mt_iter (db_active v)) (mt_iter m) rest) as Hnext.
  { intros m rest E Hm. rewrite E in *. split; [done|done|done|by left; apply Hm|done]. }
  assert (forall tables t, db_sstables v = tables ++ [t] -> forall a x, a ∈ table_recs T t ->
    x ∈ concat (table_recs T <$> reverse tables) -> r_seq x < r_seq a) as Htop.
  { intros tables t E. rewrite E, reverse_snoc, fmap_cons in Hlay. apply Hlay. }
  destruct st as [|m|m t|m|m]; cbn in Hv.
  { subst v. unfold froz. rewrite Hf. by split; try done; intros a x Ha; apply elem_of_nil in Ha. }
  { destruct Hv as [Ef (m' & -> & Hp) _ _ Hnewer]. unfold froz. rewrite Ef. cbn [from_option].
    change (tabs T d) with (tabs T (set_db_active m' (set_db_frozen None d))). set (v := set_db_active _ _) in *.
    change (mt_iter (db_active v)) with (mt_map m') in *. unfold mt_iter.
    assert (mt_map m' ++ tabs T v ≡ₚ mt_map (db_active d) ++ mt_map m ++ tabs T v) as HP by (by rewrite Hp, app_assoc).
    split; [done|..].
    + intros r. rewrite <- HP. apply ho_sub.
    + intros a x Ha [Hx|Hx]%elem_of_app; [by apply Hnewer|]. apply Hnew; [|done]. rewrite Hp. set_solver.
    + intros a x Ha Hx. left. apply Hnew; [|done]. rewrite Hp. set_solver.
    + intros key b Hb. rewrite <- ho_reads by done. unfold lookup_at. f_equal. symmetry. by apply newest_perm. }
  { destruct Hv as (Ef & _ & -> & Et). unfold froz. rewrite Ef.
    apply (Hnext m); rewrite <- Et; [by apply (tabs_snoc T _ (db_sstables d) t)|by apply Htop]. }
  all: destruct Hv as (Ef & _ & -> & tables & t & Es & Et); unfold froz; rewrite Ef; cbn [from_option].
  all: change (tabs T d) with (tabs T (thawed d)); rewrite (tabs_snoc T (thawed d) tables t), Et by done; apply mem_twice.
  all: apply (Hnext m); rewrite <- Et; [by apply tabs_snoc|by apply Htop].
Qed.
End schedules.

(** ** What is said of a pool *)

(** The map after the first [n] commits. *)
Definition map_at (m : gmap bytes bytes) (commits : list WriteBatch) (n : nat) : gmap bytes bytes :=
  foldl kv_write m (concat (take n commits)).

(** [x] was the value of [key] at some moment from commit [from] to commit [upto]. *)
Definition read_between (m : gmap bytes bytes) (commits : list WriteBatch) (from upto : nat) (key : bytes)
    (x : option bytes) : Prop :=
  exists n, (from <= n <= upto)%nat /\ x = map_at m commits n !! key.

(** A right answer.  A write is one of the commits of its time.  A read of the latest
    version returns a value of its time, a scan of them a map every binding of which is
    of its time; a read at a snapshot returns the snapshot's value. *)
Definition answer_ok (sp : KV) (hs : list N) (commits : list WriteBatch) (c : Call) (from upto : nat) (a : Answer) : Prop :=
  match c with
  | CallWrite _ _ | CallBatch _ => a = AnsDone /\
      (call_writes c <> [] -> exists n, (from <= n < upto)%nat /\ commits !! n = Some (call_writes c))
  | CallGet key b => exists x, a = AnsValue x /\
      (b = U64_MAX -> read_between (kv_map sp) commits from upto key x) /\
      (forall i m, hs !! i = Some b -> kv_snaps sp !! i = Some m -> x = m !! key)
  | CallScan start fin limit b => exists l, a = AnsEntries l /\
      (b = U64_MAX -> exists m, l = kv_entries m start fin limit /\
         forall key, in_range start fin key = true -> read_between (kv_map sp) commits from upto key (m !! key)) /\
      (forall i m, hs !! i = Some b -> kv_snaps sp !! i = Some m -> l = kv_entries m start fin limit)
  | CallFlush => a = AnsDone
  | CallCompact => exists more, a = AnsMore more
  end.

Lemma map_at_more m commits commits' n :
  commits `prefix_of` commits' -> (n <= length commits)%nat -> map_at m commits' n = map_at m commits n.
Proof. intros [more ->] Hn. unfold map_at. by rewrite take_app_le. Qed.

Lemma answer_more sp hs commits commits' c from upto a :
  commits `prefix_of` commits' -> (upto <= length commits)%nat ->
  answer_ok sp hs commits c from upto a -> answer_ok sp hs commits' c from upto a.
Proof.
  intros Hc Hu.
  assert (forall key x, read_between (kv_map sp) commits from upto key x -> read_between (kv_map sp) commits' from upto key x) as Hr.
  { intros key x (n & Hn & ->). exists n. split; [done|]. by rewrite (map_at_more _ commits commits') by (done || lia). }
  assert (forall n x, commits !! n = Some x -> commits' !! n = Some x) as Hl.
  { intros n x Hn. by eapply prefix_lookup_Some. }
  destruct c; cbn; [naive_solver..| | |done|done].
  - intros (x & -> & ? & ?). exists x. split_and!; auto.
  - intros (l & -> & Hm & ?). exists l. split_and!; [done| |done]. intros Hb. destruct (Hm Hb) as (m & ? & ?). eauto.
Qed.

(** What a call costs of the room that is left. *)
Definition call_cost (c : Call) : N := 1 + writes_size (call_writes c).
Definition calls_cost (cs : list Call) : N := foldr (fun c n => call_cost c + n) 0 cs.

(** Reads look at the latest versions, or at a registered snapshot. *)
Definition bound_ok (hs : list N) (b : N) : Prop := b = U64_MAX \/ b ∈ hs.
Definition call_ok (hs : list N) (c : Call) : Prop :=
  match c with
  | CallGet _ b | CallScan _ _ _ b => bound_ok hs b
  | _ => True
  end.

(** What the engine is in the middle of: the records and the batches of the writes that
    became visible, the open tables, the flush, the write that is logged and not yet
    inserted, and the engine without the flush. *)
Record Ghost := mkGhost {
  g_cs : list (list Rec);
  g_commits : list WriteBatch;
  g_tables : Tables;
  g_stage : Stage;
  g_pend : option (N * WriteBatch);
  g_view : DbInner
}.

Definition pending_recs (g : Ghost) : list Rec :=
  from_option (fun e => numbered e.1 e.2) [] (g_pend g).

(** The table that a flush is about to number. *)
Definition stage_ids (st : Stage) : N := if st is Froze _ then 1 else 0.

(** What of the log belongs to the frozen MemTable. *)
Definition stage_log (st : Stage) (threshold : N) (l : list Rec) : Prop :=
  match st with
  | Froze m | Wrote m _ | Joined m => m = mt_insert_all l (mt_new threshold)
  | Idle | Rewrote _ => l = []
  end.

Section invariant.
Context `{PlatformOk}.
Context (base : list Rec) (sp : KV) (hs : list N).
Hypothesis Hbase : Forall2 (tracks base) hs (kv_snaps sp).

Definition hist (g : Ghost) : list Rec := base ++ concat (g_cs g).

Definition log_at (g : Ghost) (s : DbInner * World) : Prop :=
  exists batches old new, wal_holds (db_wal s.1) (w_fs s.2) WAL_VERSION batches /\ Forall (wf_batch true) batches /\
    concat batches = old ++ new ++ pending_recs g /\
    db_active s.1 = mt_insert_all new (mt_new (o_memtable_threshold (db_opts s.1))) /\
    stage_log (g_stage g) (o_memtable_threshold (db_opts s.1)) old.

Record shared (room : N) (g : Ghost) (s : DbInner * World) : Prop := mkShared {
  sh_serving : serving (hist g) (g_tables g) (g_view g, s.2);
  sh_view : view (g_stage g) (g_tables g) s.1 (g_view g);
  sh_pend : forall seq ops, g_pend g = Some (seq, ops) ->
    Forall wf_op ops /\ (forall x, x ∈ hist g -> r_seq x < seq) /\ seq + len ops <= db_next_seq s.1;
  sh_horizons : forall h r, h ∈ hs -> r ∈ concat (g_cs g) ++ pending_recs g -> h <= r_seq r;
  sh_log : log_at g s;
  sh_quiet : quiet (w_fs s.2);
  sh_pins : pins hs (db_snapshots s.1);
  sh_commits : length (g_commits g) = length (g_cs g);
  sh_tracks : forall n, (n <= length (g_cs g))%nat ->
    tracks (at_commit base (g_cs g) n) U64_MAX (map_at (kv_map sp) (g_commits g) n);
  sh_size : sum_encoded (hist g) + sum_encoded (pending_recs g) + room <= SIZE_LIMIT;
  sh_seq : db_next_seq s.1 + room <= U64_MAX;
  sh_ids : db_next_sst_id s.1 + stage_ids (g_stage g) + room <= U64_MAX;
  sh_generation : m_generation (db_manifest s.1) + room <= U64_MAX;
  sh_threshold : 2 <= o_compaction_threshold (db_opts s.1)
}.

Lemma shared_room room room' g s : room' <= room -> shared room g s -> shared room' g s.
Proof. intros Hr []. split; try done; lia. Qed.

Lemma shared_bound room g s b : shared room g s -> bound_ok hs b -> live_bound (g_view g) b.
Proof.
  intros [] [->|Hb].
  - right. apply (dk_seq_max _ _ _ (proj1 sh_serving0)).
  - left. rewrite (view_same _ _ _ _ sh_view0). cbn. by eapply pins_elem.
Qed.

Lemma shared_mem room g s :
  shared room g s -> mem_ok (hist g) (live_bound (g_view g)) (mt_iter (db_active s.1)) (froz s.1) (tabs (g_tables g) s.1).
Proof. intros []. by eapply view_mem. Qed.

Lemma shared_failed room g s : shared room g s -> db_failed s.1 = None.
Proof.
  intros []. pose proof (dk_failed _ _ _ (proj1 sh_serving0)) as E. cbn [fst] in E.
  by rewrite (view_same _ _ _ _ sh_view0) in E.
Qed.

(** *** What a thread knows inside of a call *)

(** Tables that a read holds. *)
Definition held (T : Tables) (tables : list SsTable) : Prop :=
  (forall t, t ∈ tables -> T !! rd_cache (t_reader t) = Some (t_reader t, table_recs T t)) /\
  layered (table_recs T <$> reverse tables).

Definition scanning (g : Ghost) (d : DbInner) (from : nat) (start fin : option bytes) (b : N) (seen : list Rec) (deep : bool) : Prop :=
  forall key, in_range start fin key = true -> reader base (g_cs g) from key b seen (froz d) (tabs (g_tables g) d) deep.

(** A sorted copy of a range. *)
Definition copied (start fin : option bytes) (l : list Rec) : Prop :=
  run_sorted l /\ forall r, r ∈ l -> in_range start fin (r_key r) = true.

Definition pc_ok (g : Ghost) (s : DbInner * World) (c : Call) (from : nat) (pc : Pc) : Prop :=
  match pc with
  | AtStart c' => c' = c /\ call_ok hs c
  | AtInsert records => start_needs c = Some WalLock /\
      exists seq, g_pend g = Some (seq, call_writes c) /\ records = numbered seq (call_writes c)
  | AtFrozen key b => c = CallGet key b /\ bound_ok hs b /\
      reader base (g_cs g) from key b [] (froz s.1) (tabs (g_tables g) s.1) false
  | AtTables key b => c = CallGet key b /\ bound_ok hs b /\
      reader base (g_cs g) from key b [] (froz s.1) (tabs (g_tables g) s.1) true
  | AtSearch key b tables => c = CallGet key b /\ held (g_tables g) tables /\
      sometime base (g_cs g) from key b (lookup_at key b (concat (table_recs (g_tables g) <$> reverse tables)))
  | AtScanFrozen start fin limit b active => c = CallScan start fin limit b /\ bound_ok hs b /\ 0 < limit /\
      copied start fin active /\ scanning g s.1 from start fin b active false
  | AtScanTables start fin limit b active frozen => c = CallScan start fin limit b /\ bound_ok hs b /\ 0 < limit /\
      copied start fin active /\ copied start fin (default [] frozen) /\
      scanning g s.1 from start fin b (active ++ default [] frozen) true
  | AtScanMerge start fin limit b active frozen tables => c = CallScan start fin limit b /\ 0 < limit /\
      copied start fin active /\ copied start fin (default [] frozen) /\ held (g_tables g) tables /\
      let seen := active ++ default [] frozen ++ concat (table_recs (g_tables g) <$> reverse tables) in
      (forall r, r ∈ seen -> r ∈ hist g) /\
      forall key, in_range start fin key = true -> sometime base (g_cs g) from key b (lookup_at key b seen)
  | AtTable m => c = CallFlush /\ g_stage g = Froze m
  | AtPublish t => c = CallFlush /\ exists m, g_stage g = Wrote m t
  | AtRewrite => c = CallFlush /\ exists m, g_stage g = Joined m
  | AtRetire => c = CallFlush /\ exists m, g_stage g = Rewrote m
  | AtMerge tables => c = CallCompact /\ tables `prefix_of` db_sstables (g_view g)
  | AtPublishRun run max_id => c = CallCompact /\ merged (g_tables g) run max_id (g_view g) s.2
  end.

(** *** What one section does to what the others know

    [mine]: the locks that the section's thread holds meanwhile. *)
Record evolves (mine : Lock -> Prop) (g : Ghost) (s : DbInner * World) (g' : Ghost) (s' : DbInner * World) : Prop := mkEvolves {
  ev_cs : g_cs g `prefix_of` g_cs g';
  ev_tables : g_tables g ⊆ g_tables g';
  ev_reader : forall from key b seen deep, bound_ok hs b ->
    reader base (g_cs g) from key b seen (froz s.1) (tabs (g_tables g) s.1) deep ->
    reader base (g_cs g') from key b seen (froz s'.1) (tabs (g_tables g') s'.1) deep;
  ev_pend : ~ mine WalLock -> g_pend g' = g_pend g;
  ev_stage : ~ mine FlushLock -> g_stage g' = g_stage g;
  ev_grows : ~ mine CompactionLock -> grows (g_tables g) (g_view g, s.2) (g_tables g') (g_view g', s'.2)
}.

Lemma held_recs T T' tables t : T ⊆ T' -> held T tables -> t ∈ tables -> table_recs T' t = table_recs T t.
Proof.
  intros HT [Hh _] Ht. specialize (Hh t Ht). unfold table_recs at 1. by rewrite (lookup_weaken _ _ _ _ Hh HT).
Qed.

Lemma held_more T T' tables :
  T ⊆ T' -> held T tables -> held T' tables /\
  table_recs T' <$> reverse tables = table_recs T <$> reverse tables.
Proof.
  intros HT Hh. assert (table_recs T' <$> reverse tables = table_recs T <$> reverse tables) as E.
  { apply list_fmap_ext. intros i t Ht%list_elem_of_lookup_2. eapply held_recs; [done..|by apply elem_of_reverse]. }
  split; [|done]. split; [|rewrite E; apply Hh]. intros t Ht. rewrite (held_recs T T' tables) by done.
  eapply lookup_weaken; [|done]. by apply Hh.
Qed.

(** A thread keeps what it knows while others run. *)
Lemma pc_ok_stable mine room g s g' s' c from pc :
  shared room g s -> evolves mine g s g' s' -> (forall l, holds pc = Some l -> ~ mine l) ->
  pc_ok g s c from pc -> pc_ok g' s' c from pc.
Proof.
  intros Hsh [Hcs HT Hrd Hp Hst Hgr] Hmine. unfold scanning, pc_ok. destruct pc; cbn [holds] in Hmine.
  - done.
  - rewrite Hp by by apply Hmine. done.
  - intros (-> & Hb & Hr). split_and!; auto.
  - intros (-> & Hb & Hr). split_and!; auto.
  - intros (-> & Hh & Hs). destruct (held_more _ _ _ HT Hh) as [Hh' ->]. split_and!; [done|done|]. by eapply sometime_more.
  - intros (-> & Hb & ? & ? & Hr). split_and!; auto. intros key Hk. by apply Hrd, Hr.
  - intros (-> & Hb & ? & ? & ? & Hr). split_and!; auto. intros key Hk. by apply Hrd, Hr.
  - intros (-> & ? & ? & ? & Hh & Hsub & Hs). destruct (held_more _ _ _ HT Hh) as [Hh' ->]. split_and!; try done.
    + intros r Hr. unfold hist. eapply history_more; [exact Hcs|]. by apply Hsub.
    + intros key Hk. eapply sometime_more; [done|]. by apply Hs.
  - rewrite Hst by by apply Hmine. done.
  - rewrite Hst by by apply Hmine. done.
  - rewrite Hst by by apply Hmine. done.
  - rewrite Hst by by apply Hmine. done.
  - intros [-> Hpre]. split; [done|]. etrans; [done|]. apply (Hgr (Hmine _ eq_refl)).
  - intros [-> Hm]. split; [done|]. eapply (merged_grows _ (g_view g, s.2) _ (g_view g', s'.2)); [|by apply Hgr, Hmine|done].
    apply (sh_serving _ _ _ Hsh).
Qed.
End invariant.
