(* ===== verification/Sections.v ===== *)
(** * Sections keep the invariant

    Every section of [Threads], run by a thread that holds the locks it needs, keeps
    the invariant of [Schedules] and what all other threads know, and leaves its own
    thread with what the next section needs or with a right answer. *)
From Stdlib Require Import NArith Lia.
From stdpp Require Import base numbers list sorting strings gmap.
From S2P Require Import Prelude Errors FileNames Platform State FileSystem Store Records Versions MemTable.
From S2P Require Import Headers Frames WriteAheadLog Manifest ManifestRecovery.
From S2P Require Import Bloom SsTables TableLayout TableReads Tables Merging Compaction Scans Engine.
From S2P Require Import Layers Writes Flushes CompactSteps Specification Sessions Threads Looks Schedules.

Local Open Scope N_scope.

(** The locks of the thread are released with what they protect at rest. *)
Definition releases (mine : Lock -> Prop) (after : option Lock) (g : Ghost) : Prop :=
  (forall l, after = Some l -> mine l) /\
  (mine WalLock -> after <> Some WalLock -> g_pend g = None) /\
  (mine FlushLock -> after <> Some FlushLock -> g_stage g = Idle).

(** The locks that are held during a section. *)
Definition during_turn (pc : Pc) (l : Lock) : Prop := holds pc = Some l \/ turn_needs pc = Some l.

(** A section starts with what its new locks protect at rest. *)
Definition acquires (needs : option Lock) (g : Ghost) : Prop :=
  (needs = Some WalLock -> g_pend g = None) /\ (needs = Some FlushLock -> g_stage g = Idle).

(** What a section's own locks protect it may change. *)
Ltac evolving := split; try done; try (let Hm := fresh in intros Hm; exfalso; apply Hm; first [by left|by right]).

Section sections.
Context `{PlatformOk}.
Context (base : list Rec) (sp : KV) (hs : list N).
Hypothesis Hbase : Forall2 (tracks base) hs (kv_snaps sp).

Local Abbreviation hist := (Schedules.hist base).
Local Abbreviation shared := (Schedules.shared base sp hs).
Local Abbreviation pc_ok := (Schedules.pc_ok base hs).
Local Abbreviation evolves := (Schedules.evolves base hs).
Local Abbreviation answer_ok := (Schedules.answer_ok sp hs).

(** What a call commits. *)
Definition committed (c : Call) : list WriteBatch := if decide (call_writes c = []) then [] else [call_writes c].

(** What a section of the call [c], begun at commit [from], leaves. *)
Definition goes (mine : Lock -> Prop) (more : list WriteBatch) (room : N) (g : Ghost) (s : DbInner * World)
    (c : Call) (from : nat) (o : outcome (Pc + Answer)) (s' : DbInner * World) : Prop :=
  exists g', shared room g' s' /\ evolves mine g s g' s' /\ g_commits g' = g_commits g ++ more /\
    match o with
    | Ok (inl pc) => more = [] /\ pc_ok g' s' c from pc /\ releases mine (holds pc) g'
    | Ok (inr a) => more = committed c /\ answer_ok (g_commits g') c from (length (g_cs g')) a /\ releases mine None g'
    | _ => False
    end.

(** ** Sections that change nothing *)

Lemma wal_holds_stays wl s s' batches :
  stays s s' -> wal_holds wl s WAL_VERSION batches -> wal_holds wl s' WAL_VERSION batches.
Proof.
  intros [Hs _] (Hv & Hn & Hi & Hb & Hc & Hct & Hd). pose proof Hs as (Ei & En & _).
  unfold wal_holds. rewrite <- Ei, <- En, <- Hs. by split_and!.
Qed.

Lemma shared_quiescent room g d w w' :
  shared room g (d, w) -> world_ok (g_tables g) w' -> quiescent w w' -> shared room g (d, w').
Proof.
  intros [] Hw Hq. cbn [fst snd] in *. split; try done; cbn [fst snd].
  - destruct sh_serving as [Hok Hh]. split; [|done]. by eapply db_ok_quiescent.
  - destruct sh_log as (batches & old & new & Hwh & Hrest). exists batches, old, new. split; [|done].
    eapply wal_holds_stays; [apply Hq|done].
  - by apply Hq.
Qed.

Lemma evolves_quiescent mine g d w w' : quiescent w w' -> evolves mine g (d, w) g (d, w').
Proof.
  intros [Hs _]. split; try done. intros _. split; try done. cbn. intros id _ _. by rewrite <- (proj1 Hs).
Qed.

Lemma goes_quiescent mine room g d w w' c from o :
  shared room g (d, w) -> world_ok (g_tables g) w' -> quiescent w w' -> committed c = [] ->
  match o with
  | Ok (inl pc) => pc_ok g (d, w') c from pc /\ releases mine (holds pc) g
  | Ok (inr a) => answer_ok (g_commits g) c from (length (g_cs g)) a /\ releases mine None g
  | _ => False
  end -> goes mine [] room g (d, w) c from o (d, w').
Proof.
  intros Hsh Hw Hq Hc Ho. exists g. split; [by eapply shared_quiescent|]. split; [by apply evolves_quiescent|].
  rewrite app_nil_r, Hc. by destruct o as [[pc|a]|e|].
Qed.

Lemma shared_world room g s : shared room g s -> world_ok (g_tables g) s.2.
Proof. intros Hsh. apply (dk_world _ _ _ (proj1 (sh_serving _ _ _ _ _ _ Hsh))). Qed.

Lemma goes_same mine room g s c from o :
  shared room g s -> committed c = [] ->
  match o with
  | Ok (inl pc) => pc_ok g s c from pc /\ releases mine (holds pc) g
  | Ok (inr a) => answer_ok (g_commits g) c from (length (g_cs g)) a /\ releases mine None g
  | _ => False
  end -> goes mine [] room g s c from o s.
Proof. destruct s as [d w]. intros Hsh Hc Ho. apply goes_quiescent; [done|by apply (shared_world _ _ _ Hsh)|done..]. Qed.

(** A reader holds no lock. *)
Lemma releases_none (mine : Lock -> Prop) g : (forall l, ~ mine l) -> releases mine None g.
Proof. intros Hm. split; [done|]. split; intros Hl; by apply Hm in Hl. Qed.

(** *** Answers of reads *)

Lemma sometime_between room g s from key x :
  shared room g s -> sometime base (g_cs g) from key U64_MAX x ->
  read_between (kv_map sp) (g_commits g) from (length (g_cs g)) key x.
Proof.
  intros [] (n & Hn & ->). exists n. split; [done|]. symmetry. apply sh_tracks. lia.
Qed.

(** Nothing that was written since concerns a snapshot. *)
Lemma sometime_snapshot room g s from key b x i m :
  shared room g s -> hs !! i = Some b -> kv_snaps sp !! i = Some m ->
  sometime base (g_cs g) from key b x -> x = m !! key.
Proof.
  intros [] Hi Hm (n & Hn & ->). rewrite (Forall2_lookup_lr _ _ _ _ _ _ Hbase Hi Hm key).
  unfold at_commit. apply lookup_invisible. intros r Hr. apply sh_horizons; [by eapply list_elem_of_lookup_2|].
  apply elem_of_app. left. rewrite <- (take_drop n (g_cs g)), concat_app. apply elem_of_app. by left.
Qed.

Lemma get_answer room g s from key b x :
  shared room g s -> sometime base (g_cs g) from key b x ->
  answer_ok (g_commits g) (CallGet key b) from (length (g_cs g)) (AnsValue x).
Proof.
  intros Hsh Hx. exists x. split; [done|]. split.
  - intros ->. by eapply sometime_between.
  - intros i m Hi Hm. by eapply sometime_snapshot.
Qed.

Lemma scan_answer room g s from start fin limit b l :
  shared room g s ->
  (forall key, in_range start fin key = true -> sometime base (g_cs g) from key b (lookup_at key b l)) ->
  answer_ok (g_commits g) (CallScan start fin limit b) from (length (g_cs g))
    (AnsEntries (take (N.to_nat limit) (scan_ref b start fin l))).
Proof.
  intros Hsh Hl. eexists. split; [done|]. split.
  - intros ->. destruct (tracks_exists l U64_MAX) as [m Hm]. exists m. split; [by rewrite (tracks_entries l U64_MAX m)|].
    intros key Hk. rewrite Hm. by eapply sometime_between, Hl.
  - intros i m Hi Hm. symmetry. apply entries_in_range. intros key Hk. symmetry. by eapply sometime_snapshot, Hl.
Qed.

(** ** Point reads *)

Lemma newest_range start fin key b l :
  in_range start fin key = true ->
  newest key b (filter (fun r => in_range start fin (r_key r) = true) l) = newest key b l.
Proof.
  intros Hk. induction l as [|x l IH]; [done|]. rewrite filter_cons. cbn [newest]. case_decide as Hd; cbn [newest]; rewrite IH; [done|].
  destruct (visible key b x) eqn:Ev; [|done]. apply visible_spec in Ev as [<- _]. done.
Qed.

Lemma shared_active room g s : shared room g s -> mt_ok (db_active s.1).
Proof. intros Hsh. eapply view_active_ok; [apply Hsh|]. apply (sh_serving _ _ _ _ _ _ Hsh). Qed.

Lemma shared_frozen room g s m : shared room g s -> db_frozen s.1 = Some m -> mt_ok m.
Proof. intros Hsh. eapply view_frozen_ok; [apply Hsh|]. apply (sh_serving _ _ _ _ _ _ Hsh). Qed.

(** The live set may be read from now on. *)
Lemma shared_held room g s : shared room g s -> held (g_tables g) (db_sstables s.1).
Proof.
  intros []. destruct sh_serving as [Hok Hh], (view_tables _ _ _ _ sh_view) as [more Em]. cbn [fst snd] in *. split.
  - intros t Ht. eapply table_recs_live, (dk_table _ _ _ Hok). rewrite Em. set_solver.
  - pose proof (ho_layered _ _ _ Hh) as Hl. rewrite layers_thawed in Hl by apply Hok. destruct Hl as [_ Hl].
    rewrite Em, reverse_app, fmap_app in Hl. by apply layered_app in Hl as (_ & ? & _).
Qed.

Lemma no_turn pc g : holds pc = None -> turn_needs pc = None -> releases (during_turn pc) None g.
Proof. intros E1 E2. apply releases_none. unfold during_turn. intros l. rewrite E1, E2. by intros [?|?]. Qed.

Lemma start_get room g s from key b :
  shared room g s -> bound_ok hs b -> (from <= length (g_cs g))%nat ->
  wp (turn (AtStart (CallGet key b))) s (goes (during_turn (AtStart (CallGet key b))) [] room g s (CallGet key b) from).
Proof.
  intros Hsh Hb Hfrom. pose proof (shared_mem _ _ _ _ _ _ Hsh) as Hmem. pose proof (shared_bound _ _ _ _ _ _ _ Hsh Hb) as Hlive.
  cbn [turn first_section].
  apply wp_bind, wp_gets. cbn [then_wp]. rewrite mt_get_at_newest by by eapply shared_active.
  destruct (newest key b (mt_map (db_active s.1))) as [r|] eqn:E; apply wp_ret, goes_same; try done;
    (split; [|by apply no_turn]).
  - eapply get_answer; [done|]. by eapply found_active.
  - split; [done|]. split; [done|]. by eapply missed_active.
Qed.

Lemma turn_frozen room g s from key b c :
  shared room g s -> pc_ok g s c from (AtFrozen key b) ->
  wp (turn (AtFrozen key b)) s (goes (during_turn (AtFrozen key b)) [] room g s c from).
Proof.
  intros Hsh (-> & Hb & Hrd). pose proof (shared_mem _ _ _ _ _ _ Hsh) as Hmem. cbn [turn].
  apply wp_bind, wp_gets. cbn [then_wp].
  assert ((db_frozen s.1 ≫= mt_get_at key b) = newest key b (froz s.1)) as ->.
  { unfold froz. destruct (db_frozen s.1) as [m|] eqn:E; [|done]. cbn. apply mt_get_at_newest. by eapply shared_frozen. }
  destruct (newest key b (froz s.1)) as [r|] eqn:E; apply wp_ret, goes_same; try done; (split; [|by apply no_turn]).
  - eapply get_answer; [done|]. by eapply found_frozen.
  - split; [done|]. split; [done|]. by eapply missed_frozen.
Qed.

Lemma turn_tables room g s from key b c :
  shared room g s -> pc_ok g s c from (AtTables key b) ->
  wp (turn (AtTables key b)) s (goes (during_turn (AtTables key b)) [] room g s c from).
Proof.
  intros Hsh (-> & Hb & Hrd). cbn [turn]. apply wp_bind, wp_gets. cbn [then_wp].
  apply wp_ret, goes_same; [done|done|]. split; [|by apply no_turn].
  split; [done|]. split; [by eapply shared_held|]. by apply (rd_deep _ _ _ _ _ _ _ _ _ Hrd).
Qed.

Lemma turn_search room g s from key b tables c :
  shared room g s -> pc_ok g s c from (AtSearch key b tables) ->
  wp (turn (AtSearch key b tables)) s (goes (during_turn (AtSearch key b tables)) [] room g s c from).
Proof.
  destruct s as [d w]. intros Hsh (-> & [Hh Hl] & Hx). cbn [turn]. apply wp_bind.
  eapply wp_mono; [apply (wp_search_tables (g_tables g)); [by apply (shared_world _ _ _ Hsh)|done|done]|].
  intros o [d' w'] (E & Hw & Hq & Ho). cbn [fst snd] in *. subst d'.
  destruct o as [x|e|]; cbn [then_wp]; [subst x| |done].
  - apply wp_ret, goes_quiescent; [done..|]. split; [by eapply get_answer|by apply no_turn].
  - destruct Ho as [_ Hn]. by destruct Hn; apply (sh_quiet _ _ _ _ _ _ Hsh).
Qed.

(** ** Scans *)

Lemma copied_range start fin m :
  mt_ok m -> copied start fin (filter (fun r => in_range start fin (r_key r) = true) (mt_map m)).
Proof. intros Hm. split; [apply StronglySorted_filter, Hm|]. intros r. rewrite list_elem_of_filter. by intros [? _]. Qed.

Lemma start_scan room g s from start fin limit b :
  shared room g s -> bound_ok hs b -> (from <= length (g_cs g))%nat ->
  let c := CallScan start fin limit b in
  wp (turn (AtStart c)) s (goes (during_turn (AtStart c)) [] room g s c from).
Proof.
  intros Hsh Hb Hfrom c. pose proof (shared_mem _ _ _ _ _ _ Hsh) as Hmem. pose proof (shared_bound _ _ _ _ _ _ _ Hsh Hb) as Hlive.
  unfold c. cbn [turn first_section]. destruct (N.eqb_spec limit 0) as [->|Hlim].
  { apply wp_ret, goes_same; [done|done|]. split; [|by apply no_turn].
    change [] with (take (N.to_nat 0) (scan_ref b start fin (hist g))). eapply scan_answer; [done|].
    intros key _. apply sometime_now. done. }
  apply wp_bind, wp_gets. cbn [then_wp]. rewrite mt_range_spec by by eapply shared_active.
  apply wp_ret, goes_same; [done|done|]. split; [|by apply no_turn].
  split_and!; [done|done|lia|eapply copied_range, shared_active, Hsh|].
  intros key Hk. eapply copied_active; [done|done|done|..].
  - intros r. rewrite list_elem_of_filter. by intros [_ ?].
  - by apply newest_range.
Qed.

Lemma turn_scan_frozen room g s from start fin limit b active c :
  shared room g s -> (from <= length (g_cs g))%nat -> let pc := AtScanFrozen start fin limit b active in
  pc_ok g s c from pc -> wp (turn pc) s (goes (during_turn pc) [] room g s c from).
Proof.
  intros Hsh Hfrom pc (-> & Hb & Hlim & Hca & Hrd). pose proof (shared_mem _ _ _ _ _ _ Hsh) as Hmem. cbn [turn pc].
  apply wp_bind, wp_gets. cbn [then_wp].
  apply wp_ret, goes_same; [done|done|]. split; [|by apply no_turn]. split_and!; try done.
  - destruct (db_frozen s.1) as [m|] eqn:E; cbn; [|split; [constructor|intros r Hr; by apply elem_of_nil in Hr]].
    rewrite mt_range_spec by by eapply shared_frozen. by eapply copied_range, shared_frozen.
  - intros key Hk. eapply copied_frozen; [done|done|by apply Hrd|..]; unfold froz.
    + destruct (db_frozen s.1) as [m|] eqn:E; cbn; [|done]. rewrite mt_range_spec by by eapply shared_frozen.
      intros r. rewrite list_elem_of_filter. by intros [_ ?].
    + destruct (db_frozen s.1) as [m|] eqn:E; cbn; [|done]. rewrite mt_range_spec by by eapply shared_frozen.
      by apply newest_range.
Qed.

Lemma turn_scan_tables room g s from start fin limit b active frozen c :
  shared room g s -> let pc := AtScanTables start fin limit b active frozen in
  pc_ok g s c from pc -> wp (turn pc) s (goes (during_turn pc) [] room g s c from).
Proof.
  intros Hsh pc (-> & Hb & Hlim & Hca & Hcf & Hrd). pose proof (shared_mem _ _ _ _ _ _ Hsh) as Hmem. cbn [turn pc].
  apply wp_bind, wp_gets. cbn [then_wp].
  apply wp_ret, goes_same; [done|done|]. split; [|by apply no_turn]. split_and!; try done; [by eapply shared_held|]. cbv zeta. split.
  - intros r. rewrite app_assoc, elem_of_app. intros [Hr|Hr].
    + assert (in_range start fin (r_key r) = true) as Hk by (apply elem_of_app in Hr as [?|?]; [by apply Hca|by apply Hcf]).
      by apply (rd_sub _ _ _ _ _ _ _ _ _ (Hrd _ Hk)).
    + apply (mm_sub _ _ _ _ _ Hmem). rewrite !elem_of_app. by right; right.
  - intros key Hk. rewrite app_assoc. by apply (rd_deep _ _ _ _ _ _ _ _ _ (Hrd key Hk)).
Qed.

Lemma turn_scan_merge room g s from start fin limit b active frozen tables c :
  shared room g s -> let pc := AtScanMerge start fin limit b active frozen tables in
  pc_ok g s c from pc -> wp (turn pc) s (goes (during_turn pc) [] room g s c from).
Proof.
  destruct s as [d w]. intros Hsh pc (-> & Hlim & Hca & Hcf & Hh & Hsub & Hx). cbn [turn pc]. apply wp_bind.
  set (seen := active ++ default [] frozen ++ concat (table_recs (g_tables g) <$> reverse tables)) in *.
  assert (forall r, r ∈ seen <-> r ∈ active \/ r ∈ default [] frozen \/ exists t, t ∈ tables /\ r ∈ table_recs (g_tables g) t) as Hseen.
  { intros r. unfold seen. rewrite !elem_of_app, concat_table_elem. by setoid_rewrite elem_of_reverse. }
  eapply wp_mono; [apply (wp_merge_sources (g_tables g) d w active frozen tables start fin limit b seen)|].
  - by apply (shared_world _ _ _ Hsh).
  - apply Hh.
  - apply Hca.
  - apply Hcf.
  - intros r [?|?]%elem_of_app; [by apply Hca|by apply Hcf].
  - apply (versions_unique_sub (hist g)); [done|]. by eapply mm_unique, shared_mem.
  - intros r. apply Hseen.
  - intros r Hr _. by apply Hseen.
  - done.
  - intros o [d' w'] (E & Hw & Hq & Ho). cbn [fst snd] in *. subst d'.
    destruct o as [x|e|]; cbn [then_wp]; [subst x| |done].
    + apply wp_ret, goes_quiescent; [done..|]. split; [by eapply scan_answer|by apply no_turn].
    + destruct Ho as [_ Hn]. by destruct Hn; apply (sh_quiet _ _ _ _ _ _ Hsh).
Qed.
(** ** Writes *)

Lemma view_log st T d v wl n :
  view st T d v -> view st T (set_db_wal wl (set_db_next_seq n d)) (set_db_wal wl (set_db_next_seq n v)).
Proof.
  destruct st; cbn; [by intros ->| |by intros (? & ? & -> & ?)..].
  intros [Hf (m' & -> & Hp) ? ? ?]. split; try done. by exists m'.
Qed.

Lemma serving_log l T v w wl s' n :
  serving l T (v, w) -> log_step v w wl s' -> db_next_seq v <= n <= U64_MAX ->
  serving l T (set_db_wal wl (set_db_next_seq n v), world_set_fs s' w).
Proof.
  intros [Hok Hh] Hls Hn. cbn [fst snd] in *. split; cbn [fst snd].
  - apply (db_ok_log_step T v w wl s' (db_active v) n (db_tasks v)); [done|done|apply Hok|done].
  - rewrite <- (app_nil_r l). apply (history_write l T v _ []); cbn; try done; try apply Hok; [lia|constructor|..];
      intros; by match goal with Hx : _ ∈ [] |- _ => apply elem_of_nil in Hx end.
Qed.

(** The records of a write are logged. *)
Lemma log_goes room g s from c :
  shared (room + call_cost c) g s -> g_pend g = None -> start_needs c = Some WalLock -> call_writes c <> [] ->
  let recs := numbered (db_next_seq s.1) (call_writes c) in
  wp (on_db_wal (wal_append_batch recs)) (set_db_next_seq (db_next_seq s.1 + len (call_writes c)) s.1, s.2)
    (then_wp (fun _ => mret recs) (then_wp (fun records => mret (inl (AtInsert records)))
      (goes (during_turn (AtStart c)) [] room g s c from))).
Proof.
  destruct s as [d w]. intros Hsh Hp Hst Hne recs. pose proof Hsh as []. cbn [fst snd] in *.
  set (ops := call_writes c) in *. unfold call_cost in *. fold ops in sh_size, sh_seq, sh_ids, sh_generation.
  pose proof (writes_size_len ops) as Hlen. pose proof (writes_size_wf ops) as Hwf.
  assert (Forall wf_op ops) as Hops by (apply Hwf; lia). clear Hwf.
  assert (sum_encoded recs = writes_size ops) as Hrs by apply sum_numbered.
  pose proof (view_same _ _ _ _ sh_view) as Ev.
  assert (db_next_seq (g_view g) = db_next_seq d /\ db_wal (g_view g) = db_wal d) as [En Ew] by (by rewrite Ev).
  pose proof sh_serving as [Hok Hh]. cbn [fst snd] in Hok, Hh.
  assert (wf_batch true recs) as Hwb by (apply numbered_batch; [done|done|lia|fold recs; lia]).
  apply (wp_append_log (g_tables g) _ (g_view g)); [done|done|done|..].
  2: { intros k wl s' _ Hn. by destruct Hn. }
  intros wl s' Hls Hholds. cbn [then_wp]. apply wp_ret. cbn [then_wp]. apply wp_ret.
  set (n := db_next_seq d + len ops). set (v' := set_db_wal wl (set_db_next_seq n (g_view g))).
  exists (mkGhost (g_cs g) (g_commits g) (g_tables g) (g_stage g) (Some (db_next_seq d, ops)) v').
  assert (forall x, x ∈ hist g -> r_seq x < db_next_seq d) as Hlt.
  { intros x Hx. rewrite <- En. pose proof (ho_seq _ _ _ Hh) as Hs. rewrite Forall_forall in Hs. by apply Hs. }
  split_and!.
  - split; cbn [fst snd g_cs g_commits g_tables g_stage g_pend g_view]; try done; cbn.
    + apply serving_log; [done|done|unfold n; lia].
    + by apply (view_log _ _ d).
    + intros seq ops' [= <- <-]. by split_and!.
    + intros h r Hin [Hr|Hr]%elem_of_app.
      * apply sh_horizons; [done|]. apply elem_of_app. by left.
      * cbn in Hr. apply numbered_seq in Hr. pose proof (ho_horizons _ _ _ Hh) as Hhz. rewrite Forall_forall in Hhz.
        specialize (Hhz h). rewrite En in Hhz. etrans; [apply Hhz|apply Hr]. rewrite Ev. cbn. by eapply pins_elem.
    + destruct sh_log as (batches & old & new & Hwh & Hbs & Ecat & Ea & Hold).
      exists (batches ++ [recs]), old, new. cbn [fst snd] in *. rewrite <- Ew in Hwh. split_and!; [by apply Hholds| |..|done|done].
      * by apply Forall_app; split; [|constructor].
      * rewrite concat_app, Ecat. unfold pending_recs. rewrite Hp. cbn [concat from_option g_pend fst snd]. by rewrite !app_nil_r, <- app_assoc.
    + by apply (touches_quiet _ _ _ (ls_touches _ _ _ _ Hls)).
    + unfold pending_recs in sh_size. rewrite Hp in sh_size. change (sum_encoded (from_option _ [] None)) with 0 in sh_size.
      change (sum_encoded (hist g) + sum_encoded recs + room <= SIZE_LIMIT). lia.
    + unfold n. lia.
    + lia.
    + lia.
  - evolving. intros _.
    apply (grows_log_step _ (g_view g) w wl s' (db_active (g_view g)) n (db_tasks (g_view g))); [done|unfold n; lia].
  - cbn. by rewrite app_nil_r.
  - done.
  - split; [done|]. by exists (db_next_seq d).
  - split; [intros l [= <-]; by right|]. split; [done|]. unfold during_turn. cbn. rewrite Hst. by intros [?|?].
Qed.
Lemma start_write room g s from key value :
  let c := CallWrite key value in
  shared (room + call_cost c) g s -> acquires (start_needs c) g ->
  wp (turn (AtStart c)) s (goes (during_turn (AtStart c)) [] room g s c from).
Proof.
  destruct s as [d w]. intros c Hsh [Hp _]. cbn [turn first_section]. apply wp_bind.
  pose proof (sh_seq _ _ _ _ _ _ Hsh) as Hseq. unfold call_cost, c in Hseq. cbn [fst call_writes] in Hseq.
  apply wp_log_write; [lia|]. apply (log_goes room g (d, w) from c); [done|by apply Hp|done|done].
Qed.

Lemma start_batch room g s from batch :
  let c := CallBatch batch in
  shared (room + call_cost c) g s -> acquires (start_needs c) g ->
  wp (turn (AtStart c)) s (goes (during_turn (AtStart c)) [] room g s c from).
Proof.
  destruct s as [d w]. intros c Hsh [Hp _]. unfold c. cbn [turn first_section]. cbn [start_needs c] in Hp. case_bool_decide as Hb.
  { apply wp_ret, goes_same; [by eapply shared_room; [|exact Hsh]; lia|by unfold committed; rewrite decide_True|]. split; [split; [done|]; by cbn|].
    apply no_turn; [done|]. cbn. by rewrite bool_decide_true. }
  pose proof (sh_seq _ _ _ _ _ _ Hsh) as Hseq. unfold call_cost, c in Hseq. cbn [fst call_writes] in Hseq.
  pose proof (writes_size_len batch). apply wp_bind, wp_log_batch; [lia|].
  apply (log_goes room g (d, w) from c); [done|by apply Hp|cbn; by rewrite bool_decide_false|done].
Qed.

(** The MemTable takes the records. *)
Lemma view_insert st T d v recs tasks :
  view st T d v ->
  (forall m, mt_ok m -> m = db_active d \/ m = db_active v -> mt_ok (mt_insert_all recs m) /\
    mt_map (mt_insert_all recs m) ≡ₚ recs ++ mt_map m) ->
  mt_ok (db_active v) -> (forall m x a, db_frozen d = Some m -> x ∈ mt_map m -> a ∈ recs -> r_seq x < r_seq a) ->
  view st T (set_db_tasks tasks (set_db_active (mt_insert_all recs (db_active d)) d))
    (set_db_tasks tasks (set_db_active (mt_insert_all recs (db_active v)) v)).
Proof.
  intros Hv Hi Hok Hnew. destruct st; cbn in *; [by subst| |by destruct Hv as (? & ? & -> & ?)..].
  destruct Hv as [Hf (m' & -> & Hp) Ha ? Hnw]. cbn in *.
  destruct (Hi (db_active d)) as [Hok1 Hp1]; [done|by left|]. destruct (Hi m') as [Hok2 Hp2]; [done|by right|].
  split; cbn; try done.
  - exists (mt_insert_all recs m'). split; [done|]. by rewrite Hp1, Hp2, Hp, app_assoc.
  - intros a x. rewrite Hp1. intros [Hin|Hin]%elem_of_app Hx; [by eapply Hnew|by apply Hnw].
Qed.

Lemma turn_insert room g s from recs c :
  shared room g s -> pc_ok g s c from (AtInsert recs) -> (from <= length (g_cs g))%nat ->
  wp (turn (AtInsert recs)) s (goes (during_turn (AtInsert recs)) [call_writes c] room g s c from).
Proof.
  destruct s as [d w]. intros Hsh (Hst & seq & Hp & ->) Hfrom. pose proof Hsh as []. cbn [fst snd] in *.
  set (ops := call_writes c) in *. set (recs := numbered seq ops).
  destruct (sh_pend _ _ Hp) as (Hops & Hlt & Hn).
  assert (pending_recs g = recs) as Epend by (unfold pending_recs; by rewrite Hp). rewrite Epend in *.
  pose proof (view_same _ _ _ _ sh_view) as Ev. pose proof sh_serving as [Hok Hh]. cbn [fst snd] in Hok, Hh.
  assert (db_next_seq (g_view g) = db_next_seq d) as En by (by rewrite Ev).
  pose proof (dk_seq_max _ _ _ Hok) as Hmax. rewrite En in Hmax.
  cbn [turn]. apply wp_bind, wp_insert_logged. intros tasks. cbn [then_wp]. apply wp_ret.
  set (v' := set_db_tasks tasks (set_db_active (mt_insert_all recs (db_active (g_view g))) (g_view g))).
  assert (forall m, mt_ok m -> mt_ok (mt_insert_all recs m)) as Hmt.
  { intros m Hm. apply mt_insert_all_ok; [done|]. apply Forall_forall. intros r Hr%numbered_seq. lia. }
  destruct (history_insert (hist g) (g_tables g) (g_view g) v' seq ops) as [Hh' Hp']; try done; [apply Hok..|cbn; lia|cbn; lia|].
  pose proof (shared_mem _ _ _ _ _ _ Hsh) as Hmem. cbn [fst] in Hmem.
  assert (NoDup (version <$> recs ++ mt_map (db_active d))) as Hnd.
  { rewrite fmap_app. apply NoDup_app. split_and!; [apply numbered_unique| |].
    - intros x (a & -> & Ha)%list_elem_of_fmap (y & Ey & Hy)%list_elem_of_fmap. apply (f_equal snd) in Ey. cbn in Ey.
      apply numbered_seq in Ha. assert (r_seq y < seq); [|lia]. apply Hlt, (mm_sub _ _ _ _ _ Hmem). apply elem_of_app. by left.
    - apply run_sorted_versions. by eapply (shared_active _ _ _ Hsh). }
  exists (mkGhost (g_cs g ++ [recs]) (g_commits g ++ [ops]) (g_tables g) (g_stage g) None v').
  assert (hist (mkGhost (g_cs g ++ [recs]) (g_commits g ++ [ops]) (g_tables g) (g_stage g) None v') = hist g ++ recs) as Ehist.
  { unfold Schedules.hist. cbn [g_cs]. by rewrite concat_app, app_assoc; cbn [concat]; rewrite app_nil_r. }
  split_and!.
  - split; rewrite ?Ehist; cbn [fst snd g_cs g_commits g_tables g_stage g_pend g_view]; try done.
    + split; cbn [fst snd]; [|done]. replace w with (world_set_fs (w_fs w) w) by by destruct w.
      eapply (db_ok_write _ (g_view g) w); try done; [apply touches_refl, Hok|by apply Hmt, Hok|cbn; lia|apply Hok].
    + apply view_insert; [done| |apply Hok|].
      * intros m Hm Hor. split; [by apply Hmt|]. apply mt_insert_all_perm. destruct Hor as [-> | ->]; [done|].
        fold recs in Hp'. rewrite <- Hp'. apply run_sorted_versions, Hmt, Hok.
      * intros m x a Hf Hx Ha%numbered_seq. assert (r_seq x < seq); [|lia]. apply Hlt, (mm_sub _ _ _ _ _ Hmem).
        unfold froz. rewrite Hf, !elem_of_app. by right; left.
    + intros h r Hin. cbn [pending_recs g_pend from_option]. rewrite app_nil_r, concat_app. cbn [concat]. rewrite app_nil_r. by apply sh_horizons.
    + destruct sh_log as (batches & old & new & Hwh & Hbs & Ecat & Ea & Hold). exists batches, old, (new ++ recs).
      cbn [fst snd] in *. split_and!; try done.
      * cbn [pending_recs g_pend from_option]. by rewrite app_nil_r, Ecat, Epend.
      * cbn. rewrite Ea. unfold mt_insert_all. by rewrite foldl_app.
    + rewrite !length_app. cbn. lia.
    + intros n. rewrite length_app. cbn [length]. intros Hle. unfold at_commit, map_at.
      destruct (decide (n <= length (g_cs g))%nat) as [Hlo|Hhi].
      * rewrite !take_app_le by lia. by apply sh_tracks.
      * rewrite !take_ge by (rewrite length_app; cbn; lia). rewrite !concat_app. cbn [concat]. rewrite !app_nil_r, foldl_app, app_assoc.
        apply tracks_write; [done|lia|]. specialize (sh_tracks (length (g_cs g)) ltac:(lia)). unfold at_commit, map_at in sh_tracks.
        by rewrite !take_ge in sh_tracks by lia.
    + rewrite sum_encoded_app. cbn [pending_recs g_pend from_option]. change (sum_encoded []) with 0. lia.
  - evolving; cbn [g_cs g_tables fst].
    + by apply prefix_app_r.
    + intros from' key b seen deep _. apply reader_more. by apply prefix_app_r.
  - done.
  - unfold committed. fold ops. rewrite decide_False; [done|]. destruct c; cbn in Hst; try done. unfold ops. cbn. by case_bool_decide.
  - cbn [g_commits g_cs]. assert (answer_ok (g_commits g ++ [ops]) c from (length (g_cs g ++ [recs])) AnsDone) as Ha; [|done].
    assert (exists n, (from <= n < length (g_cs g ++ [recs]))%nat /\ (g_commits g ++ [ops]) !! n = Some ops) as Hn'.
    { exists (length (g_cs g)). rewrite length_app. cbn [length]. split; [lia|]. rewrite <- sh_commits. by apply list_lookup_middle. }
    destruct c; try done; split; auto.
  - split; [done|]. split; [done|]. by intros [?|?].
Qed.
(** ** Flushes *)

Lemma start_flush room g s from :
  shared (room + call_cost CallFlush) g s -> acquires (start_needs CallFlush) g ->
  wp (turn (AtStart CallFlush)) s (goes (during_turn (AtStart CallFlush)) [] room g s CallFlush from).
Proof.
  destruct s as [d w]. intros Hsh [_ Hst]. specialize (Hst eq_refl). cbn [turn first_section]. pose proof Hsh as [].
  pose proof (shared_mem _ _ _ _ _ _ Hsh) as Hmem.
  rewrite Hst in *. cbn [view fst snd stage_ids] in *. unfold call_cost in *. cbn [call_writes] in *. change (writes_size []) with 0 in *.
  pose proof sh_serving as [Hok Hh]. rewrite sh_view in *. cbn [fst snd] in Hok, Hh.
  assert (froz d = []) as Efr by (unfold froz; by rewrite (dk_frozen _ _ _ Hok)). rewrite Efr in Hmem.
  apply wp_bind, (wp_flush_freeze (hist g) (g_tables g)); [done|..].
  { intros _. cbn [then_wp]. apply wp_ret, goes_same; [by eapply shared_room; [|exact Hsh]; lia|done|]. split; [done|].
    split; [done|]. split; [by intros [?|?]|done]. }
  intros d1 -> _ Hunf. cbn [then_wp]. apply wp_ret.
  exists (mkGhost (g_cs g) (g_commits g) (g_tables g) (Froze (db_active d)) (g_pend g) d). split_and!.
  - split; try done; cbn.
    + destruct sh_log as (batches & old & new & Hwh & Hbs & Ecat & Ea & Hold). rewrite Hst in Hold. cbn in Hold. subst old.
      exists batches, new, []. by split_and!.
    + change (sum_encoded (hist g) + sum_encoded (pending_recs g) + room <= SIZE_LIMIT). lia.
    + lia.
    + lia.
    + lia.
  - evolving; cbn [g_cs g_tables g_view fst snd].
    + intros from' key b seen deep Hb Hrd. eapply (reader_frozen _ _ (live_bound d)); [exact Hrd|exact Hmem| |done].
      rewrite <- sh_view. by eapply shared_bound.
    + intros _. rewrite sh_view. apply grows_refl.
  - cbn. by rewrite app_nil_r.
  - done.
  - done.
  - split; [intros l [= <-]; by right|]. split; [by intros [?|?]|done].
Qed.

(** The live set is read as before. *)
Lemma tabs_more T T' d d' :
  T ⊆ T' -> held T (db_sstables d) -> db_sstables d' = db_sstables d -> tabs T' d' = tabs T d.
Proof. intros HT Hh E. unfold tabs. rewrite E. by destruct (held_more _ _ _ HT Hh) as [_ ->]. Qed.

Lemma log_at_kept g g' d w d' w' :
  log_at g (d, w) -> wal_kept d w (d', w') -> db_active d' = db_active d -> db_opts d' = db_opts d ->
  pending_recs g' = pending_recs g ->
  (forall th l, stage_log (g_stage g) th l -> stage_log (g_stage g') th l) -> log_at g' (d', w').
Proof.
  intros (batches & old & new & Hwh & Hbs & Ecat & Ea & Hold) [Ew Hk] Ea' Eo Ep Hst. cbn [fst snd] in *.
  exists batches, old, new. cbn [fst snd]. rewrite Ew, Ea', Eo, Ep. split_and!; auto.
Qed.

Lemma turn_table room g s from m c :
  shared room g s -> pc_ok g s c from (AtTable m) ->
  wp (turn (AtTable m)) s (goes (during_turn (AtTable m)) [] room g s c from).
Proof.
  destruct s as [d w]. intros Hsh (-> & Hst). pose proof Hsh as []. rewrite Hst in *. cbn [view fst snd stage_ids] in *.
  pose proof sh_view as [Hf _ _ Hm _]. pose proof sh_serving as [Hok _]. cbn [fst snd] in Hok.
  assert (exists m', g_view g = set_db_active m' (set_db_frozen None d)) as [m' Ev] by (destruct sh_view as [_ (m' & ? & _) _ _ _]; eauto).
  cbn [turn]. apply wp_latching, wp_bind. eapply wp_mono; [eapply (wp_flush_table (hist g) (g_tables g) d (g_view g)); [done|done|lia|lia]|].
  intros [t|e|] [d' w'] Ho; cbn [then_wp]; [| |done].
  2: { destruct Ho as [_ Hn]. by destruct Hn. }
  destruct Ho as (T' & mf & E & Hgen & Hs' & Ht & HT & Hgr & Hto). cbn [fst snd] in *. subst d'. apply wp_ret.
  set (d' := set_db_manifest mf _) in *.
  exists (mkGhost (g_cs g) (g_commits g) T' (Wrote m t) (g_pend g) (with_table t d')). split_and!.
  - split; try done; cbn.
    + eapply log_at_kept; [exact sh_log|eapply (wal_kept_touches d _ w w'); [apply Hok|exact Hto| |done]|done|done|done|by rewrite Hst].
      pose proof (dk_wal_path _ _ _ Hok) as Ep. rewrite Ev in Ep. cbn in Ep. rewrite Ep. unfold flush_paths. paths.
    + by apply (touches_quiet _ _ _ Hto).
    + lia.
    + by rewrite Hgen.
  - evolving. cbn [g_cs g_tables fst].
    intros from' key b seen deep _. rewrite (tabs_more (g_tables g) T' d d'); [done|done|by eapply (shared_held _ _ _ Hsh)|done].
  - cbn. by rewrite app_nil_r.
  - done.
  - split; [done|]. by exists m.
  - split; [by left|]. split; [by intros [?|?]|done].
Qed.

Lemma turn_publish room g s from t c :
  shared room g s -> pc_ok g s c from (AtPublish t) ->
  wp (turn (AtPublish t)) s (goes (during_turn (AtPublish t)) [] room g s c from).
Proof.
  destruct s as [d w]. intros Hsh (-> & m & Hst). pose proof Hsh as []. pose proof (shared_mem _ _ _ _ _ _ Hsh) as Hmem.
  rewrite Hst in *. cbn [view fst snd stage_ids] in *.
  destruct sh_view as (Hf & Hm & Ev & Et). cbn [turn]. unfold flush_publish. apply wp_bind, wp_update. cbn [then_wp fst snd]. apply wp_ret.
  set (d' := set_db_sstables (db_sstables d ++ [t]) d).
  exists (mkGhost (g_cs g) (g_commits g) (g_tables g) (Joined m) (g_pend g) (g_view g)). split_and!.
  - split; try done; cbn.
    + split_and!; [done|done|done|]. by exists (db_sstables d), t.
    + eapply log_at_kept; [exact sh_log|by apply (wal_kept_refl d w)|done|done|done|by rewrite Hst].
  - evolving; cbn [g_cs g_tables g_view fst snd].
    + assert (tabs (g_tables g) d' = froz d ++ tabs (g_tables g) d) as ->.
      { rewrite (tabs_snoc _ d' (db_sstables d) t) by done. unfold froz. by rewrite Et, Hf. }
      intros from' key b seen deep _ Hrd. change (froz d') with (froz d).
      eapply reader_moved; [exact Hrd|apply Hmem| |intros r; rewrite !elem_of_app; tauto|by right].
      intros r Hr. apply (mm_sub _ _ _ _ _ Hmem). apply elem_of_app. by right.
  - cbn. by rewrite app_nil_r.
  - done.
  - split; [done|]. by exists m.
  - split; [by left|]. split; [by intros [?|?]|done].
Qed.

Lemma turn_rewrite room g s from c :
  shared room g s -> pc_ok g s c from AtRewrite -> acquires (turn_needs AtRewrite) g ->
  wp (turn AtRewrite) s (goes (during_turn AtRewrite) [] room g s c from).
Proof.
  destruct s as [d w]. intros Hsh (-> & m & Hst) [Hp _]. specialize (Hp eq_refl). pose proof Hsh as [].
  rewrite Hst in *. cbn [view fst snd stage_ids] in *.
  destruct sh_view as (Hf & Hm & Ev & tables & t & Es & Et). cbn [turn]. apply wp_latching, wp_bind.
  eapply (wp_flush_rewrite (hist g) (g_tables g) d (g_view g)); [done|done|lia|..].
  { intros e s' [_ Hn]. by destruct Hn. }
  intros fresh s' v' w' Hs' Hgr (batches & Hwh & Hbs & Ecat) Hto. cbn [then_wp]. apply wp_ret.
  exists (mkGhost (g_cs g) (g_commits g) (g_tables g) (Rewrote m) (g_pend g) v'). split_and!.
  - split; try done; cbn.
    + unfold v'. rewrite Ev. split_and!; [done|done|done|]. by exists tables, t.
    + exists batches, [], (mt_iter (db_active d)). cbn [fst snd]. split_and!; [done|done| | |done].
      * unfold pending_recs. cbn [g_pend]. by rewrite Hp, app_nil_r.
      * destruct sh_log as (? & ? & new & _ & _ & _ & Ea & _). cbn [fst] in Ea.
        assert (mt_threshold (db_active d) = o_memtable_threshold (db_opts d)) as Eth by (by rewrite Ea, mt_insert_all_threshold).
        cbn. rewrite <- Eth. symmetry. by apply mt_rebuild, (shared_active _ _ _ Hsh).
    + by apply (touches_quiet _ _ _ Hto).
  - evolving.
  - cbn. by rewrite app_nil_r.
  - done.
  - split; [done|]. by exists m.
  - split; [by left|]. split; [done|]. by intros _ [].
Qed.

Lemma turn_retire room g s from c :
  shared room g s -> pc_ok g s c from AtRetire ->
  wp (turn AtRetire) s (goes (during_turn AtRetire) [] room g s c from).
Proof.
  destruct s as [d w]. intros Hsh (-> & m & Hst). pose proof Hsh as []. pose proof (shared_mem _ _ _ _ _ _ Hsh) as Hmem.
  rewrite Hst in *. cbn [view fst snd stage_ids] in *.
  destruct sh_view as (Hf & Hm & Ev & tables & t & Es & Et). cbn [turn]. unfold flush_retire, send_compact.
  apply wp_bind, wp_bind, wp_update. cbn [then_wp fst snd]. apply wp_update. cbn [then_wp fst snd]. apply wp_ret.
  set (d' := set_db_compact _ _). rewrite Ev in sh_serving.
  exists (mkGhost (g_cs g) (g_commits g) (g_tables g) Idle (g_pend g) d'). split_and!.
  - split; try done; cbn.
    + destruct sh_serving as [[] []]. split; by split.
    + eapply log_at_kept; [exact sh_log|by split|done|done|done|by rewrite Hst].
  - evolving; cbn [g_cs g_tables g_view fst snd].
    + intros from' key b seen deep _ Hrd. change (tabs (g_tables g) d') with (tabs (g_tables g) d). change (froz d') with (@nil Rec).
      assert (forall r, r ∈ froz d -> r ∈ tabs (g_tables g) d) as Hin.
      { intros r. unfold froz. rewrite Hf, (tabs_snoc _ d tables t), elem_of_app, Et by done. by left. }
      eapply reader_moved; [exact Hrd|apply Hmem| | |by left].
      * intros r Hr. apply (mm_sub _ _ _ _ _ Hmem). apply elem_of_app. by right.
      * intros r. rewrite !elem_of_app, elem_of_nil. naive_solver.
    + intros _. rewrite Ev. by split.
  - cbn. by rewrite app_nil_r.
  - done.
  - done.
  - split; [done|]. split; [by intros [?|?]|done].
Qed.
(** ** Compactions *)

Lemma start_compact room g s from :
  shared (room + call_cost CallCompact) g s ->
  wp (turn (AtStart CallCompact)) s (goes (during_turn (AtStart CallCompact)) [] room g s CallCompact from).
Proof.
  intros Hsh. cbn [turn first_section]. apply wp_bind, wp_gets. cbn [then_wp].
  apply wp_ret, goes_same; [by eapply shared_room; [|exact Hsh]; lia|done|]. split; [|split; [intros l [= <-]; by right|split; by intros [?|?]]].
  split; [done|]. eapply view_tables, Hsh.
Qed.

Lemma turn_merge room g s from tables c :
  shared room g s -> pc_ok g s c from (AtMerge tables) ->
  wp (turn (AtMerge tables)) s (goes (during_turn (AtMerge tables)) [] room g s c from).
Proof.
  destruct s as [d w]. intros Hsh (-> & Hpre). pose proof Hsh as []. cbn [fst snd] in *.
  pose proof (view_same _ _ _ _ sh_view) as Ev. cbn [turn]. apply wp_latching, wp_bind.
  assert (db_dir d = db_dir (g_view g) /\ db_snapshots d = db_snapshots (g_view g) /\ db_wal (g_view g) = db_wal d)
    as (Ed & Es & Ew) by (by rewrite Ev).
  eapply wp_mono; [by apply (wp_merge_picked (hist g) (g_tables g) d (g_view g) w tables)|].
  intros o [d' w'] (E & Hs' & Hin & Hk & Ho). cbn [fst snd] in *. subst d'.
  assert (shared room g (d, w')) as Hsh'.
  { split; try done; [|by apply Hin]. eapply (log_at_kept g); [exact sh_log| |done..].
    destruct Hk as [_ Hk]. rewrite Ew in Hk. by split. }
  assert (evolves (during_turn (AtMerge tables)) g (d, w) g (d, w')) as Hev by evolving.
  assert (forall h, releases (during_turn (AtMerge tables)) (Some CompactionLock) g /\ (h = None -> releases (during_turn (AtMerge tables)) h g)) as Hrel.
  { intros h. split; [split; [intros l [= <-]; by left|]|intros ->; split; [done|]]; split; by intros [?|?]. }
  destruct o as [[[run max_id]|]|e|]; cbn [then_wp]; [apply wp_ret..| |done].
  - exists g. rewrite app_nil_r. split_and!; try done; [by split; [|apply Ho]|by apply (Hrel None)].
  - exists g. rewrite app_nil_r. split_and!; try done; [by eexists|by apply (Hrel None)].
  - destruct Ho as [_ Hn]. by destruct Hn.
Qed.

Lemma turn_publish_run room g s from run max_id c :
  let pc := AtPublishRun run max_id in
  shared room g s -> pc_ok g s c from pc -> acquires (turn_needs pc) g ->
  wp (turn pc) s (goes (during_turn pc) [] room g s c from).
Proof.
  destruct s as [d w]. intros pc Hsh (-> & Hm) [_ Hst]. specialize (Hst eq_refl). pose proof Hsh as [].
  rewrite Hst in *. cbn [view fst snd stage_ids] in *.
  pose proof sh_serving as [Hok Hh]. rewrite sh_view in *. cbn [fst snd] in Hok, Hh.
  unfold pc. cbn [turn]. apply wp_latching, wp_bind.
  eapply wp_mono; [apply (wp_publish_run (hist g) (g_tables g) d w run max_id); [done|lia|done]|].
  intros [[]|e|] [d' w'] Hpost; cbn [then_wp]; [apply wp_ret| |done].
  2: { destruct Hpost as [_ Hn]. by destruct Hn. }
  destruct Hpost as ((T' & tables & mf & E & Hs' & HT & Hgen & Hk & Hreads & Hsub) & Hin & _). cbn [fst snd] in *. subst d'.
  set (d' := set_db_sstables tables (set_db_manifest mf d)) in *.
  exists (mkGhost (g_cs g) (g_commits g) T' Idle (g_pend g) d'). split_and!.
  - split; try done; cbn.
    + eapply log_at_kept; [exact sh_log|exact Hk|done|done|done|by rewrite Hst].
    + by apply Hin.
    + by rewrite Hgen.
  - evolving. intros from' key b seen deep Hb Hrd. apply (reader_spliced _ _ _ _ _ _ (froz d) (tabs (g_tables g) d)); [done| |done|].
    + unfold froz. by rewrite (dk_frozen _ _ _ Hok).
    + apply Hreads. rewrite <- sh_view. by eapply shared_bound.
  - cbn. by rewrite app_nil_r.
  - done.
  - by exists true.
  - split; [done|]. split; [by intros [?|?]|done].
Qed.

(** ** All of them *)

(** The health check changes nothing. *)
Lemma begin_ok room g s c :
  shared room g s -> call_ok hs c ->
  wp (begin c) s (goes (fun _ => False) [] room g s c (length (g_cs g))).
Proof.
  intros Hsh Hc. unfold begin. apply wp_bind. unfold db_health. apply wp_bind, wp_gets. cbn [then_wp].
  rewrite (shared_failed _ _ _ _ _ _ Hsh). apply wp_ret. cbn [then_wp]. apply wp_ret. exists g. rewrite app_nil_r.
  split; [done|]. split; [by destruct s; apply evolves_quiescent|]. split_and!; [done..|by apply releases_none; auto].
Qed.

(** What the sections that are left may cost. *)
Definition pc_cost (pc : Pc) : N := if pc is AtStart c then call_cost c else 0.

Lemma start_ok room g s c from :
  shared (room + call_cost c) g s -> call_ok hs c -> (from <= length (g_cs g))%nat -> acquires (start_needs c) g ->
  wp (turn (AtStart c)) s (goes (during_turn (AtStart c)) [] room g s c from).
Proof.
  intros Hsh Hc Hfrom Ha. assert (shared room g s) as Hsh' by (eapply shared_room; [|exact Hsh]; lia).
  destruct c; [by apply start_write|by apply start_batch|by apply start_get|by apply start_scan|by apply start_flush|by apply start_compact].
Qed.

Lemma turn_ok room g s c from pc :
  shared (room + pc_cost pc) g s -> pc_ok g s c from pc -> (from <= length (g_cs g))%nat -> acquires (turn_needs pc) g ->
  wp (turn pc) s (goes (during_turn pc) (if is_insert pc then [call_writes c] else []) room g s c from).
Proof.
  intros Hsh Hpc Hfrom Ha.
  destruct pc; cbn [is_insert pc_cost] in *; rewrite ?N.add_0_r in Hsh; [destruct Hpc as [-> Hc]; by apply start_ok|by apply turn_insert|by apply turn_frozen|by apply turn_tables|by apply turn_search
    |by apply turn_scan_frozen|by apply turn_scan_tables|by apply turn_scan_merge|by apply turn_table|by apply turn_publish
    |by apply turn_rewrite|by apply turn_retire|by apply turn_merge|by apply turn_publish_run].
Qed.
End sections.
