(* ===== verification/Pools.v ===== *)
(** * Pools of threads

    The invariant of a pool: the engine is in the state of [Schedules.shared], every
    thread inside a call knows what [Schedules.pc_ok] says, a lock has one holder, and
    what no thread holds the lock of is at rest.  Every schedule keeps it. *)
From Stdlib Require Import NArith Lia.
From stdpp Require Import base numbers list sorting strings gmap.
From S2P Require Import Prelude Errors FileNames Platform State FileSystem Store Records Versions MemTable.
From S2P Require Import Headers Frames WriteAheadLog Manifest ManifestRecovery.
From S2P Require Import Bloom SsTables TableLayout TableReads Tables Merging Compaction Scans Engine.
From S2P Require Import Layers Writes Flushes CompactSteps Specification Sessions Threads Progress Looks Schedules Sections.

Local Open Scope N_scope.

(** ** Bookkeeping *)

(** What the calls cost that have done no more than begin. *)
Definition th_cost (th : Thread) : N :=
  calls_cost (th_calls th) + from_option (fun at_pc : Call * nat * Pc => pc_cost at_pc.2) 0 (th_pc th).
Definition pool_cost (threads : list Thread) : N := foldr (fun th n => th_cost th + n) 0 threads.

Lemma pool_cost_insert threads i th th' :
  threads !! i = Some th ->
  pool_cost (<[i := th']> threads) + th_cost th = pool_cost threads + th_cost th'.
Proof.
  revert i. induction threads as [|x threads IH]; intros [|i] Hi; try done; unfold pool_cost in *.
  - injection Hi as ->. cbn [insert list_insert foldr]. lia.
  - specialize (IH i Hi). change (<[S i := th']> (x :: threads)) with (x :: <[i := th']> threads). cbn [foldr]. lia.
Qed.

(** The commits of one thread. *)
Definition commits_of (i : nat) (commits : list (nat * WriteBatch)) : list WriteBatch :=
  (filter (fun e => e.1 = i) commits).*2.

(** The writes of the calls that have returned. *)
Definition done_writes (l : list Finished) : list WriteBatch := concat (committed <$> (f_call <$> l)).

Lemma commits_of_app i l l' : commits_of i (l ++ l') = commits_of i l ++ commits_of i l'.
Proof. unfold commits_of. by rewrite filter_app, fmap_app. Qed.

Lemma commits_of_own i more : commits_of i (pair i <$> more) = more.
Proof.
  unfold commits_of. induction more as [|x more IH]; [done|]. rewrite fmap_cons, filter_cons, decide_True by done.
  rewrite fmap_cons. by f_equal.
Qed.

Lemma commits_of_other i j (more : list WriteBatch) : i <> j -> commits_of i (pair j <$> more) = [].
Proof.
  intros Hne. unfold commits_of. induction more as [|x more IH]; [done|]. rewrite fmap_cons, filter_cons, decide_False by (cbn; congruence).
  done.
Qed.

Lemma lock_free_spec p l : lock_free p (Some l) = true <-> forall th, th ∈ p_threads p -> th_holds th <> Some l.
Proof.
  unfold lock_free. rewrite forallb_forall. setoid_rewrite <- list_elem_of_In. split; intros Hf th Hth.
  - specialize (Hf th Hth). by apply negb_true_iff, bool_decide_eq_false in Hf.
  - apply negb_true_iff, bool_decide_eq_false. auto.
Qed.

Section pools.
Context `{PlatformOk}.
Context (base : list Rec) (sp : KV) (hs : list N).
Hypothesis Hbase : Forall2 (tracks base) hs (kv_snaps sp).

Local Abbreviation shared := (Schedules.shared base sp hs).
Local Abbreviation pc_ok := (Schedules.pc_ok base hs).
Local Abbreviation evolves := (Schedules.evolves base hs).
Local Abbreviation answer_ok := (Schedules.answer_ok sp hs).
Local Abbreviation goes := (Sections.goes base sp hs).

Definition finished_ok (commits : list WriteBatch) (f : Finished) : Prop :=
  (f_from f <= f_to f <= length commits)%nat /\
  exists a, f_answer f = Ok a /\ answer_ok commits (f_call f) (f_from f) (f_to f) a.

Lemma finished_more commits commits' l :
  commits `prefix_of` commits' -> Forall (finished_ok commits) l -> Forall (finished_ok commits') l.
Proof.
  intros Hpre Hl. pose proof (prefix_length _ _ Hpre). eapply Forall_impl; [exact Hl|]. intros f [Hle (a & E & Ha)].
  split; [lia|]. exists a. split; [done|]. eapply answer_more; [exact Hpre|lia|done].
Qed.

Record thread_ok (g : Ghost) (s : DbInner * World) (commits : list (nat * WriteBatch)) (i : nat) (th : Thread) : Prop := mkThreadOk {
  to_calls : Forall (call_ok hs) (th_calls th);
  to_pc : forall c from pc, th_pc th = Some (c, from, pc) -> pc_ok g s c from pc /\ (from <= length (g_cs g))%nat;
  to_done : Forall (finished_ok (commits.*2)) (th_done th);
  to_commits : commits_of i commits = done_writes (th_done th)
}.

(** A lock has one holder, and what nobody holds is at rest. *)
Record locks_ok (g : Ghost) (threads : list Thread) : Prop := mkLocksOk {
  lk_one : forall i j th th' l, threads !! i = Some th -> threads !! j = Some th' ->
    th_holds th = Some l -> th_holds th' = Some l -> i = j;
  lk_pend : (forall th, th ∈ threads -> th_holds th <> Some WalLock) -> g_pend g = None;
  lk_stage : (forall th, th ∈ threads -> th_holds th <> Some FlushLock) -> g_stage g = Idle
}.

Definition pool_ok (room : N) (p : Pool) : Prop :=
  exists g, shared (room + pool_cost (p_threads p)) g (p_state p) /\ g_commits g = (p_commits p).*2 /\
    locks_ok g (p_threads p) /\ forall i th, p_threads p !! i = Some th -> thread_ok g (p_state p) (p_commits p) i th.

(** Another thread stays as it is. *)
Lemma thread_ok_stable mine room g s g' s' commits i j more th :
  shared room g s -> g_commits g = commits.*2 -> evolves mine g s g' s' -> i <> j ->
  (forall l, th_holds th = Some l -> ~ mine l) ->
  thread_ok g s commits j th -> thread_ok g' s' (commits ++ (pair i <$> more)) j th.
Proof.
  intros Hsh Hc Hev Hne Hmine []. split; [done|..].
  - intros c from pc E. destruct (to_pc0 c from pc E) as [Hpc Hle]. split.
    + eapply pc_ok_stable; [exact Hsh|exact Hev| |done]. intros l Hl. apply Hmine. unfold th_holds. by rewrite E.
    + pose proof (prefix_length _ _ (ev_cs _ _ _ _ _ _ _ Hev)). lia.
  - eapply finished_more; [|exact to_done0]. rewrite fmap_app. by apply prefix_app_r.
  - by rewrite commits_of_app, commits_of_other, app_nil_r.
Qed.

(** One thread takes a section. *)
Lemma settle_ok mine more room g s s' threads commits i th calls c from o :
  let commits' := commits ++ (pair i <$> more) in
  let th' := settle th calls c from (length commits') o in
  threads !! i = Some th -> shared room g s -> g_commits g = commits.*2 -> locks_ok g threads ->
  (forall j u, threads !! j = Some u -> thread_ok g s commits j u) ->
  (forall l, mine l \/ ~ mine l) -> (forall l, th_holds th = Some l -> mine l) ->
  (forall j u l, threads !! j = Some u -> j <> i -> th_holds u = Some l -> ~ mine l) ->
  (from <= length (g_cs g))%nat -> Forall (call_ok hs) calls ->
  goes mine more room g s c from o s' ->
  exists g', shared room g' s' /\ g_commits g' = commits'.*2 /\ locks_ok g' (<[i := th']> threads) /\
    forall j u, <[i := th']> threads !! j = Some u -> thread_ok g' s' commits' j u.
Proof.
  intros commits' th' Hi Hsh Hc Hlk Hths Hdec Hown Hothers Hfrom Hcalls (g' & Hsh' & Hev & Hc' & Ho).
  assert (g_commits g' = commits'.*2) as Ecs.
  { rewrite Hc', Hc. unfold commits'. rewrite fmap_app, <- list_fmap_compose. f_equal. symmetry. apply list_fmap_id. }
  assert (length commits' = length (g_cs g')) as Elen.
  { rewrite <- (sh_commits _ _ _ _ _ _ Hsh'), Ecs. by rewrite length_fmap. }
  pose proof (prefix_length _ _ (ev_cs _ _ _ _ _ _ _ Hev)) as Hlen. pose proof (Hths i th Hi) as [].
  assert (Forall (finished_ok (commits'.*2)) (th_done th)) as Hdone.
  { eapply finished_more; [|exact to_done0]. unfold commits'. rewrite fmap_app. by apply prefix_app_r. }
  assert (releases mine (th_holds th') g' /\ thread_ok g' s' commits' i th') as [Hrel Hown'].
  { unfold th', settle. destruct o as [[pc|a]|e|]; [| |done..].
    - destruct Ho as (-> & Hpc & Hrel). split; [done|]. split; [done|intros ? ? ? [= <- <- <-]; split; [done|lia]|done|].
      unfold commits'. cbn. by rewrite app_nil_r.
    - destruct Ho as (-> & Ha & Hrel). split; [done|]. split; [done|done|..].
      + apply Forall_app. split; [done|]. constructor; [|done]. split; cbn; [rewrite length_fmap; lia|].
        exists a. split; [done|]. by rewrite <- Ecs, Elen.
      + unfold commits', done_writes. cbn [th_done]. rewrite commits_of_app, commits_of_own, to_commits0, !fmap_app, concat_app.
        cbn. by rewrite app_nil_r. }
  assert (forall j u, <[i := th']> threads !! j = Some u -> j = i /\ u = th' \/ j <> i /\ threads !! j = Some u) as Hlook.
  { intros j u Hj. apply list_lookup_insert_Some in Hj. naive_solver. }
  exists g'. split_and!; [done|done| |].
  - destruct Hrel as (Hmine & Hwal & Hflush), Hlk.
    assert (forall l, (forall u, u ∈ <[i := th']> threads -> th_holds u <> Some l) ->
      th_holds th' <> Some l /\ (~ mine l -> forall u, u ∈ threads -> th_holds u <> Some l)) as Hfree.
    { intros l Hno. assert (<[i := th']> threads !! i = Some th') as Hi' by (apply list_lookup_insert_eq; by eapply lookup_lt_Some).
      split; [by eapply Hno, list_elem_of_lookup_2|]. intros Hn u Hu. apply list_elem_of_lookup in Hu as [j Hj].
      destruct (decide (j = i)) as [->|Hne]; [replace u with th by congruence; by intros ?%Hown|].
      eapply Hno, (list_elem_of_lookup_2 _ j). by rewrite list_lookup_insert_ne by congruence. }
    split.
    + intros j k u u' l Hj Hk Hu Hu'.
      destruct (Hlook j u Hj) as [[-> ->]|[Hne Hj']], (Hlook k u' Hk) as [[-> ->]|[Hne' Hk']]; [done| | |by eapply lk_one0].
      * by destruct (Hothers k u' l Hk' Hne' Hu'); apply Hmine.
      * by destruct (Hothers j u l Hj' Hne Hu); apply Hmine.
    + intros Hno. destruct (Hfree WalLock Hno) as [H1 H2]. destruct (Hdec WalLock) as [Hm|Hm]; [by apply Hwal|].
      rewrite (ev_pend _ _ _ _ _ _ _ Hev) by done. auto.
    + intros Hno. destruct (Hfree FlushLock Hno) as [H1 H2]. destruct (Hdec FlushLock) as [Hm|Hm]; [by apply Hflush|].
      rewrite (ev_stage _ _ _ _ _ _ _ Hev) by done. auto.
  - intros j u Hj. destruct (Hlook j u Hj) as [[-> ->]|[Hne Hj']]; [done|].
    eapply thread_ok_stable; [exact Hsh|done|exact Hev|done| |by apply Hths]. intros l Hl. by eapply Hothers.
Qed.

(** What a thread costs after a section. *)
Lemma settle_cost th calls c from upto o :
  th_cost (settle th calls c from upto o) = calls_cost calls + if o is Ok (inl pc) then pc_cost pc else 0.
Proof. by destruct o as [[pc|a]|e|]. Qed.

Lemma turn_cost pc s o s' :
  turn pc s = (o, s') -> (if o is Ok (inl pc') then pc_cost pc' else 0) = 0.
Proof. destruct o as [[pc'|a]|e|]; try done. intros E%turn_left. destruct pc', pc; cbn in *; done || lia. Qed.

Lemma begin_cost c s o s' : begin c s = (o, s') -> (if o is Ok (inl pc) then pc_cost pc else 0) <= call_cost c.
Proof.
  destruct o as [[pc'|a]|e|]; cbn; try lia. unfold begin. intros (? & ? & _ & E)%bind_run_inv.
  by injection E as <- _.
Qed.

Lemma acquires_free g p needs : locks_ok g (p_threads p) -> lock_free p needs = true -> acquires needs g.
Proof. intros [] Hf. split; intros ->; [apply lk_pend0|apply lk_stage0]; by apply lock_free_spec. Qed.

Lemma advance_ok room p i : pool_ok room p -> pool_ok room (advance p i).
Proof.
  intros (g & Hsh & Hc & Hlk & Hths). unfold advance. destruct (p_threads p !! i) as [th|] eqn:Hi; [|by exists g].
  pose proof (Hths i th Hi) as [].
  destruct (th_pc th) as [[[c from] pc]|] eqn:Epc; [|destruct (th_calls th) as [|c calls] eqn:Ecalls; [by exists g|]].
  - destruct (lock_free p (turn_needs pc)) eqn:Hfree; [|by exists g]. destruct (turn pc (p_state p)) as [o s'] eqn:E.
    destruct (to_pc0 c from pc eq_refl) as [Hpc Hfrom]. set (more := if is_insert pc then [call_writes c] else []).
    replace (if is_insert pc then p_commits p ++ [(i, call_writes c)] else p_commits p) with (p_commits p ++ (pair i <$> more))
      by (unfold more; destruct (is_insert pc); [done|apply app_nil_r]).
    set (th' := settle th (th_calls th) c from (length (p_commits p ++ (pair i <$> more))) o).
    assert (pool_cost (<[i := th']> (p_threads p)) + pc_cost pc = pool_cost (p_threads p)) as Hcost.
    { pose proof (pool_cost_insert (p_threads p) i th th' Hi) as Hx. unfold th' in Hx at 2. rewrite settle_cost, (turn_cost _ _ _ _ E) in Hx.
      unfold th_cost in Hx. rewrite Epc in Hx. cbn in Hx. lia. }
    rewrite <- Hcost, N.add_assoc in Hsh.
    pose proof (turn_ok base sp hs Hbase _ g _ c from pc Hsh Hpc Hfrom (acquires_free _ _ _ Hlk Hfree)) as Hw.
    apply (wp_elim _ _ _ _ _ Hw) in E. cbn beta in E.
    apply (shared_room _ _ _ _ (room + pool_cost (<[i := th']> (p_threads p)))) in Hsh; [|lia].
    edestruct (settle_ok (during_turn pc) more) as (g' & Hrest); [exact Hi|exact Hsh|exact Hc|done|done| | | |done|exact to_calls0|exact E|].
    + intros l. unfold during_turn. destruct (decide (holds pc = Some l)), (decide (turn_needs pc = Some l)); tauto.
    + intros l. unfold th_holds. rewrite Epc. by left.
    + intros j u l Hj Hne Hu [Hl|Hl].
      * apply Hne. eapply (lk_one _ _ Hlk); [exact Hj|exact Hi|exact Hu|]. unfold th_holds. by rewrite Epc.
      * rewrite Hl in Hfree. by eapply lock_free_spec; [exact Hfree|eapply list_elem_of_lookup_2, Hj|].
    + by exists g'.
  - destruct (begin c (p_state p)) as [o s'] eqn:E.
    set (th' := settle th calls c (length (p_commits p)) (length (p_commits p)) o).
    assert (pool_cost (<[i := th']> (p_threads p)) <= pool_cost (p_threads p)) as Hcost.
    { pose proof (pool_cost_insert (p_threads p) i th th' Hi) as Hx. unfold th' in Hx at 2. rewrite settle_cost in Hx.
      pose proof (begin_cost _ _ _ _ E). unfold th_cost in Hx. rewrite Epc, Ecalls in Hx. cbn [from_option] in Hx.
      change (calls_cost (c :: calls)) with (call_cost c + calls_cost calls) in Hx. lia. }
    apply Forall_cons in to_calls0 as [Hcall Hcalls].
    apply (shared_room _ _ _ _ (room + pool_cost (<[i := th']> (p_threads p)))) in Hsh; [|lia].
    assert (length (p_commits p) = length (g_cs g)) as Elen.
    { rewrite <- (sh_commits _ _ _ _ _ _ Hsh), Hc. by rewrite length_fmap. }
    pose proof (begin_ok base sp hs _ g _ c Hsh Hcall) as Hw.
    apply (wp_elim _ _ _ _ _ Hw) in E. cbn beta in E. rewrite <- Elen in E.
    edestruct (settle_ok (fun _ => False) []) as (g' & Hsh' & Hrest); [exact Hi|exact Hsh|exact Hc|done|done|intros l; right; by intros []| | | |exact Hcalls|exact E|].
    + intros l. unfold th_holds. by rewrite Epc.
    + auto.
    + lia.
    + exists g'. cbn [p_threads p_state p_commits fmap list_fmap] in *. rewrite app_nil_r in Hrest. by split.
Qed.

Lemma run_schedule_ok room p schedule : pool_ok room p -> pool_ok room (run_schedule schedule p).
Proof. revert p. induction schedule as [|i schedule IH]; intros p Hp; [done|]. cbn. by apply IH, advance_ok. Qed.

(** Threads that have not begun. *)
Lemma start_pool_ok T room s calls :
  represents_by base T (room + calls_cost (concat calls)) sp hs s -> log_ok s.1 s.2 -> quiet (w_fs s.2) ->
  Forall (Forall (call_ok hs)) calls -> pool_ok room (start_pool calls s).
Proof.
  intros (Hs & Hm & Hsn & Hp & Hsz & Hseq & Hid & Hgn & Hth) (batches & Hwh & Hbs & Ea) Hq Hcalls.
  assert (pool_cost (p_threads (start_pool calls s)) = calls_cost (concat calls)) as Hcost.
  { cbn [start_pool p_threads]. clear. induction calls as [|c calls IH]; [done|]. rewrite fmap_cons. cbn [concat].
    unfold pool_cost, th_cost, calls_cost in *. cbn [foldr th_calls th_pc from_option]. rewrite N.add_0_r, IH, foldr_app. clear IH.
    generalize (foldr (fun c n => call_cost c + n) 0 (concat calls)). intros n. induction c as [|x c IH]; [done|]. cbn [foldr]. rewrite <- IH. lia. }
  assert (forall th, th ∈ p_threads (start_pool calls s) -> exists cs, cs ∈ calls /\ th = mkThread cs None []) as Hin.
  { intros th (cs & -> & Hcs)%list_elem_of_fmap. eauto. }
  exists (mkGhost [] [] T Idle None s.1). rewrite Hcost. cbn [start_pool p_state p_commits]. split_and!.
  - destruct s as [d w]. cbn [fst snd] in *. split; cbn [fst snd g_cs g_commits g_tables g_stage g_pend g_view stage_ids]; try done.
    + unfold Schedules.hist. cbn. by rewrite app_nil_r.
    + intros h r _ Hr. by apply elem_of_nil in Hr.
    + exists batches, [], (concat batches). split_and!; try done. cbn. by rewrite app_nil_r.
    + intros n _. unfold at_commit, map_at. rewrite !take_nil. cbn. by rewrite app_nil_r.
    + unfold Schedules.hist. cbn [g_cs concat pending_recs g_pend from_option]. rewrite app_nil_r. change (sum_encoded []) with 0. lia.
    + lia.
  - done.
  - split; [|done|done]. intros i j th th' l Hi%list_elem_of_lookup_2 _ Hl. apply Hin in Hi as (cs & _ & ->). done.
  - intros i th Hi%list_elem_of_lookup_2. apply Hin in Hi as (cs & Hcs & ->). split; try done.
    rewrite Forall_forall in Hcalls. by apply Hcalls.
Qed.

(** No thread is inside of a call. *)
Lemma pool_rest room p :
  pool_ok room p -> (forall th, th ∈ p_threads p -> th_pc th = None) ->
  represents room (mkKV (map_at (kv_map sp) (p_commits p).*2 (length (p_commits p))) (kv_snaps sp)) hs (p_state p) /\
  log_ok (p_state p).1 (p_state p).2.
Proof.
  intros (g & Hsh & Hc & [_ Hp Hst] & _) Hidle.
  assert (forall th l, th ∈ p_threads p -> th_holds th <> Some l) as Hno.
  { intros th l Hth. unfold th_holds. by rewrite Hidle. }
  specialize (Hp (fun th => Hno th _)). specialize (Hst (fun th => Hno th _)). pose proof Hsh as [].
  rewrite Hst in *. cbn [view stage_ids] in *. destruct (p_state p) as [d w]. cbn [fst snd] in *. rewrite sh_view in *.
  assert (length (p_commits p) = length (g_cs g)) as Elen by (rewrite <- sh_commits, Hc; by rewrite length_fmap).
  split.
  - exists (Schedules.hist base g), (g_tables g). split_and!; try done; cbn; try lia.
    + specialize (sh_tracks (length (g_cs g)) ltac:(lia)). unfold at_commit in sh_tracks. rewrite take_ge in sh_tracks by lia.
      by rewrite Elen, <- Hc.
    + apply Forall2_lookup. intros i. pose proof (proj1 (Forall2_lookup _ _ _) Hbase i) as Hi.
      destruct (hs !! i) as [h|] eqn:Hh; inversion Hi as [? m Hm|]; [|constructor]. constructor.
      apply tracks_invisible; [|done]. intros r Hr. apply sh_horizons; [by eapply list_elem_of_lookup_2|].
      apply elem_of_app. by left.
  - destruct sh_log as (batches & old & new & Hwh & Hbs & Ecat & Ea & Hold). rewrite Hst in Hold. cbn in Hold. subst old.
    exists batches. split_and!; try done. rewrite Ecat. unfold pending_recs. by rewrite Hp, app_nil_r.
Qed.
End pools.
