(* ===== verification/Interleavings.v ===== *)
(** * Compaction beside writers and flushes

    [compact_step_impl] merges its run without the flush lock, so writes, flushes
    and new snapshots happen between the merge and its publication.  Nobody can
    tell: the store is what the writes made it. *)
From Stdlib Require Import NArith Lia.
From stdpp Require Import base numbers list sorting strings gmap.
From S2P Require Import Prelude Errors FileNames Platform State FileSystem Store Records Versions MemTable.
From S2P Require Import Headers Frames WriteAheadLog Manifest ManifestRecovery.
From S2P Require Import Bloom SsTables TableLayout TableReads Tables Merging Compaction Scans Engine.
From S2P Require Import Layers Writes Flushes CompactSteps Specification Sessions.

Local Open Scope N_scope.

(** What the other threads may do meanwhile. *)
Inductive Other :=
| OtherWrite (ops : WriteBatch)
| OtherFlush
| OtherSnapshot.

Section interleaving.
Context `{PlatformOk}.

Definition run_other (hs : list N) (o : Other) : DbM (list N) :=
  match o with
  | OtherWrite ops => _ ← db_write_batch ops; mret hs
  | OtherFlush => _ ← flush_inner; mret hs
  | OtherSnapshot => h ← db_snapshot; mret (h :: hs)
  end.

Fixpoint run_others (hs : list N) (os : list Other) : DbM (list N) :=
  match os with
  | [] => mret hs
  | o :: os => hs ← run_other hs o; run_others hs os
  end.

(** A compaction step with [os] between its two halves. *)
Definition interleaved_step (hs : list N) (os : list Other) : DbM (list N) :=
  merged ← merge_run;
  hs ← run_others hs os;
  match merged with
  | None => mret hs
  | Some (run, max_id) => _ ← publish_run run max_id; mret hs
  end.

Definition other_spec (sp : KV) (o : Other) : KV :=
  match o with
  | OtherWrite ops => kv_update ops sp
  | OtherFlush => sp
  | OtherSnapshot => mkKV (kv_map sp) (kv_map sp :: kv_snaps sp)
  end.
Definition other_cost (o : Other) : N := 1 + match o with OtherWrite ops => writes_size ops | _ => 0 end.
Definition others_cost (os : list Other) : N := foldr (fun o n => other_cost o + n) 0 os.

Lemma represents_by_room hist T room room' sp hs s :
  room' <= room -> represents_by hist T room sp hs s -> represents_by hist T room' sp hs s.
Proof. intros Hr (? & ? & ? & ? & ? & ? & ? & ? & ?). split_and!; try done; lia. Qed.

Lemma wp_run_other hist T room sp hs o s :
  represents_by hist T room sp hs s -> other_cost o <= room ->
  wp (run_other hs o) s (fun r s' => match r with
    | Ok hs' => exists hist' T', represents_by hist' T' (room - other_cost o) (other_spec sp o) hs' s' /\
        grows T s T' s' /\ keeps s s'
    | Err _ => ~ quiet (w_fs s.2)
    | Panic => False
    end).
Proof.
  intros Hr Hc. destruct o as [ops| |]; cbn [run_other other_spec]; unfold other_cost in *.
  - destruct (represents_fits _ _ _ _ _ _ _ Hr Hc) as (Hwf & Hseq & Hsz). destruct s as [d w].
    apply wp_bind. eapply wp_mono; [apply (wp_db_write_batch hist T d w ops); [apply Hr|done..]|].
    intros o s' Hpost. pose proof (write_represents _ _ _ _ _ _ _ _ _ Hr Hc Hpost) as Ho.
    destruct Hpost as (_ & _ & _ & _ & _ & Hgr & _).
    destruct o as [[]|e|]; cbn [then_wp]; [apply wp_ret|by destruct Ho|done]. destruct Ho as [Hr' Hk].
    by eexists _, T.
  - destruct s as [d w]. pose proof Hr as (Hs & Hm & Hsn & Hp & Hsz & Hseq & Hid & Hgn & Hth). cbn [fst snd] in *.
    apply wp_bind. eapply wp_mono; [apply (wp_flush_inner hist T d w); [done|lia|lia]|].
    intros [[]|e|] s' [Hpost Ho]; cbn [then_wp]; [apply wp_ret|by destruct Hpost|done].
    destruct Hpost as (_ & (Ed & Eo & Es & Eg) & [En _] & Hq), (Ho eq_refl) as ((_ & Hlog & _ & Hni) & T' & Hs' & Hgr).
    exists hist, T'. split; [|split; [done|split_and!; auto]].
    unfold represents_by. rewrite En, Es, Eg, Eo. split_and!; try done; lia.
  - apply wp_bind. eapply wp_mono; [by apply (exec_snapshot_by hist T room sp hs)|].
    intros [h|e|] s' (Hk & Hgr & Ho); cbn [then_wp]; [apply wp_ret|done|done].
    exists hist, T. split; [|done]. eapply represents_by_room; [|exact Ho]. lia.
Qed.

Lemma wp_run_others hist T room sp hs os s :
  represents_by hist T room sp hs s -> others_cost os <= room ->
  wp (run_others hs os) s (fun r s' => match r with
    | Ok hs' => exists hist' T', represents_by hist' T' (room - others_cost os) (foldl other_spec sp os) hs' s' /\
        grows T s T' s' /\ keeps s s'
    | Err _ => ~ quiet (w_fs s.2)
    | Panic => False
    end).
Proof.
  revert hist T room sp hs s. induction os as [|o os IH]; intros hist T room sp hs s Hr Hc; cbn [run_others].
  { apply wp_ret. exists hist, T. cbn. rewrite N.sub_0_r. split; [done|]. split; [apply grows_refl|done]. }
  cbn [others_cost foldr foldl] in *. fold (others_cost os) in *.
  apply wp_bind. eapply wp_mono; [apply (wp_run_other hist T room sp hs o s); [done|lia]|].
  intros [hs1|e|] s1 Ho; cbn [then_wp]; [|done|done]. destruct Ho as (hist1 & T1 & Hr1 & Hg1 & Hk1).
  eapply wp_mono; [apply (IH hist1 T1 (room - other_cost o)); [done|lia]|].
  intros [hs2|e|] s2 Ho; [|by intros ?%Hk1|done]. destruct Ho as (hist2 & T2 & Hr2 & Hg2 & Hk2).
  exists hist2, T2. rewrite N.sub_add_distr. split; [done|]. split; [by eapply grows_trans|by etrans].
Qed.

(** The whole step: the abstract store sees the others only. *)
Lemma wp_interleaved_step room sp hs os s :
  represents room sp hs s -> others_cost os <= room ->
  wp (interleaved_step hs os) s (fun r s' => match r with
    | Ok hs' => represents (room - others_cost os) (foldl other_spec sp os) hs' s' /\ keeps s s'
    | Err _ => ~ quiet (w_fs s.2)
    | Panic => False
    end).
Proof.
  intros (hist & T & Hr) Hc. destruct s as [d w]. unfold interleaved_step.
  pose proof Hr as (Hs & Hm & Hsn & Hp & Hsz & Hseq & Hid & Hgn & Hth). cbn [fst snd] in *.
  apply wp_bind. eapply wp_mono; [by apply (wp_merge_run hist T d w)|].
  intros o [d1 w1] (E & Hs1 & Hq1 & Hlog1 & Ho). cbn [fst snd] in *. subst d1.
  destruct o as [mr|e|]; cbn [then_wp]; [|apply Ho|done].
  assert (represents_by hist T room sp hs (d, w1)) as Hr1 by (by split_and!).
  assert (keeps (d, w) (d, w1)) as Hk1 by (by split_and!).
  apply wp_bind. eapply wp_mono; [by apply (wp_run_others hist T room sp hs os (d, w1))|].
  intros [hs2|e|] s2 Ho2; cbn [then_wp]; [|by intros ?%Hq1|done]. destruct Ho2 as (hist2 & T2 & Hr2 & Hg2 & Hk2).
  destruct mr as [[run max_id]|]; [|apply wp_ret; split; [by exists hist2, T2|by etrans]].
  destruct Ho as [Hmerged _]. pose proof (merged_grows _ _ _ _ _ _ (proj1 Hs1) Hg2 Hmerged) as Hmerged2.
  destruct s2 as [d2 w2]. pose proof Hr2 as (Hs2 & Hm2 & Hsn2 & Hp2 & Hsz2 & Hseq2 & Hid2 & Hgn2 & Hth2). cbn [fst snd] in *.
  apply wp_bind. eapply wp_mono; [apply (wp_publish_run hist2 T2 d2 w2); [done|lia|done]|].
  intros [[]|e|] [d3 w3] Hpost; cbn [then_wp]; [apply wp_ret| |done].
  - destruct Hpost as (Hspl & Hin3 & _). destruct (spliced_maintained _ _ _ _ _ Hspl Hin3) as
      (([T3 Hs3] & (Ed & Eo & Es & Eg) & [En _] & Hq3) & _ & _ & Ei & Hlog3). cbn [fst snd] in *.
    split.
    + exists hist2, T3. unfold represents_by. cbn [fst]. rewrite En, Es, Eg, Eo, Ei. by split_and!.
    + do 2 (etrans; [done|]). by split_and!.
  - destruct Hpost as [_ Hn]. by intros ?%Hq1%(proj1 Hk2).
Qed.
End interleaving.
