(* ===== verification/Recovery.v ===== *)
(** * Opening a directory

    [Db::assemble]: take the lock, read the manifest (or start one), remove what
    is left over, open the live tables and replay the log.  On a disk without
    faults the engine that comes up serves what the directory holds. *)
From Stdlib Require Import NArith Lia.
From stdpp Require Import base numbers list sorting strings gmap.
From S2P Require Import Prelude Errors FileNames Platform State FileSystem Store Records Versions MemTable.
From S2P Require Import Headers Frames WriteAheadLog Manifest ManifestRecovery.
From S2P Require Import Bloom SsTables TableLayout TableReads Tables Merging Compaction Scans Engine.
From S2P Require Import Layers Writes Flushes CompactSteps Specification Sessions.

Local Open Scope N_scope.

(** ** Files *)

(** Creating an empty file. *)
Lemma create_touches p s :
  good s -> plain p -> p_dir p ∈ fs_dirs s -> fs_names s !! p = None ->
  exists h s', open_or_create p s = (Ok h, s') /\ touches [p] s s' /\ fs_names s' !! p = Some h /\
    path_data s' p = Some [] /\ fs_locks s' = fs_locks s /\ fs_inodes s !! h = None.
Proof.
  intros [[W1 W2] U] Hp Hd Hn. unfold open_or_create, create_inode. rewrite Hn, bool_decide_true by done.
  set (h := fs_next s).
  assert (fs_inodes s !! h = None) as Hnew.
  { destruct (fs_inodes s !! h) eqn:E; [|done]. assert (h < fs_next s); [apply W2; eauto|unfold h in *; lia]. }
  assert (forall q, fs_names s !! q <> Some h) as Hun.
  { intros q Hq. destruct (W1 _ _ Hq) as [i Hi]. congruence. }
  eexists h, _. split; [done|]. split; [split|]; cbn.
  - split; [split|].
    + intros q g. cbn. rewrite !lookup_insert. case_decide; [intros [= <-]; rewrite decide_True by done; eauto|].
      intros Hq. case_decide; [eauto|]. by eapply W1.
    + intros g. cbn. rewrite lookup_insert. case_decide; [intros _; unfold h in *; subst; lia|].
      intros Hg. specialize (W2 g Hg). lia.
    + intros q r g Hq. cbn. rewrite !lookup_insert. repeat case_decide; intros E1 E2; simplify_eq; try done.
      * by apply Hun in E2.
      * by apply Hun in E1.
      * by eapply U.
  - intros q Hq. rewrite lookup_insert_ne; [done|]. intros ->. by apply Hq, list_elem_of_singleton.
  - intros q Hq. unfold path_data. cbn. rewrite lookup_insert_ne by (intros ->; by apply Hq, list_elem_of_singleton).
    destruct (fs_names s !! q) as [g|] eqn:Eq; [|done]. cbn [mbind option_bind].
    rewrite lookup_insert_ne; [done|]. intros ->. by apply Hun in Eq.
  - intros g [Hg1 Hg2]. assert (g <> h) as Hne by (intros ->; rewrite Hnew in Hg1; by destruct Hg1).
    split; [split|]; cbn.
    + by rewrite lookup_insert_ne.
    + intros q Hq. rewrite lookup_insert. case_decide; [congruence|by apply Hg2].
    + unfold file_data. cbn. by rewrite lookup_insert_ne.
  - done.
  - done.
  - split_and!; [by rewrite lookup_insert_eq| |done|done].
    unfold path_data. cbn. rewrite lookup_insert_eq. cbn [mbind option_bind]. by rewrite lookup_insert_eq.
Qed.

(** Opening a file to append to it, on a quiet disk. *)
Lemma open_append_quiet p s :
  quiet s -> good s -> plain p -> p_dir p ∈ fs_dirs s ->
  exists h s', open p Append s = (Ok h, s') /\ touches [p] s s' /\ fs_names s' !! p = Some h /\
    path_data s' p = Some (default [] (path_data s p)).
Proof.
  intros Hq Hg Hp Hd. unfold open. rewrite guarded_quiet by done.
  destruct (fs_names s !! p) as [h|] eqn:En.
  - exists h, s. unfold open_or_create. rewrite En. split_and!; [done|by apply touches_refl|done|].
    by rewrite (path_data_names _ _ _ En (proj1 Hg)).
  - destruct (create_touches p s Hg Hp Hd En) as (h & s' & E & Ht & Hn & Hpd & _).
    exists h, s'. split_and!; [done..|]. by rewrite (path_data_no_name _ _ En).
Qed.

(** Who holds which lock is no matter of the files. *)
Lemma touches_locks ps s s' l : touches ps s s' -> touches ps s (set_locks l s').
Proof. intros [[[W1 W2] U] Hn Hd Hs Hdi Hq]. split; try done. Qed.

Lemma lock_plain dir : plain (lock_path dir).
Proof. done. Qed.

(** Taking a lock that nobody holds, on a quiet disk. *)
Lemma lock_acquire_quiet dir s :
  quiet s -> good s -> dir ∈ fs_dirs s -> fs_locks s = ∅ ->
  exists h s', dir_lock_acquire dir s = (Ok h, s') /\ touches [lock_path dir] s s'.
Proof.
  intros Hq Hg Hd Hl. unfold dir_lock_acquire. set (p := lock_path dir).
  assert (forall K : bool -> FsM Handle, (exists_path p ≫= K) s = K (bool_decide (is_Some (path_data s p))) s) as Hex.
  { intros K. unfold exists_path. rewrite bind_assoc.
    assert (path_size p s = (match path_data s p with Some d => Ok (len d) | None => Err (Io NotFound) end, s)) as E.
    { unfold path_size. rewrite guarded_quiet by done. by destruct (path_data s p). }
    destruct (path_data s p) as [d|].
    - by rewrite (bind_attempt_ok _ _ _ _ _ E).
    - by rewrite (bind_attempt_err _ _ _ _ _ E). }
  rewrite Hex.
  assert (exists h s', open p Lock s = (Ok h, s') /\ touches [p] s s') as (h & s1 & E & Ht).
  { unfold open. rewrite guarded_quiet by done. destruct (fs_names s !! p) as [h|] eqn:En.
    - exists h, (set_locks ({[h]} ∪ fs_locks s) s). unfold open_or_create, mbind, ST_bind, gets, modify. rewrite En.
      rewrite bool_decide_false by (rewrite Hl; set_solver). split; [done|].
      by apply touches_locks, touches_refl.
    - destruct (create_touches p s Hg (lock_plain dir) Hd En) as (h & s' & E & Ht & Hn & _ & El & _).
      exists h, (set_locks ({[h]} ∪ fs_locks s') s'). rewrite (bind_run_ok _ _ _ _ _ E).
      unfold mbind, ST_bind, gets, modify.
      rewrite bool_decide_false by (rewrite El, Hl; set_solver). split; [done|].
      by apply touches_locks. }
  rewrite (bind_attempt_ok _ _ _ _ _ E), bind_mret.
  pose proof (touches_quiet _ _ _ Ht Hq) as Hq1.
  destruct (bool_decide _); [by exists h, s1|].
  match goal with |- exists h' s', ?m s1 = (Ok h', s') /\ touches [p] s s' =>
    assert (wp m s1 (fun o s' => o = Ok h /\ touches [p] s s')) as Hw; [|set (m' := m) in *] end.
  { apply wp_bind, wp_attempt, wp_sync_dir; [apply Ht|done|]. intros s2 Ht2 _ _. cbn [then_wp]. apply wp_ret. split; [done|].
    eapply touches_trans; [exact Ht|]. eapply touches_mono; [|exact Ht2]. apply list_subseteq_nil. }
  unfold wp in Hw. destruct (m' s1) as [o s2]. cbn [fst snd] in Hw. destruct Hw as [-> ?]. by exists h, s2.
Qed.

Lemma create_dir_quiet dir s :
  quiet s -> good s ->
  exists s', create_dir_all dir s = (Ok tt, s') /\ touches [] s s' /\ dir ∈ fs_dirs s' /\ fs_locks s' = fs_locks s.
Proof.
  intros Hq Hg. unfold create_dir_all. rewrite guarded_quiet by done.
  exists (set_dirs ({[dir]} ∪ fs_dirs s) s). split; [done|]. destruct (touches_refl [] s Hg).
  split; [split; try done; cbn; set_solver|]. split; [cbn; set_solver|done].
Qed.

(** ** Listing and reclaiming *)

Section files.
Context `{PlatformOk}.

Lemma listing_perm dir s :
  join dir <$> readdir_order (dir_entries s dir) ≡ₚ
    filter (fun p => p_dir p = dir) (fst <$> map_to_list (fs_names s)).
Proof.
  rewrite readdir_order_perm. unfold dir_entries. rewrite <- list_fmap_compose.
  induction (map_to_list (fs_names s)) as [|[p h] l IH]; [done|].
  rewrite fmap_cons, filter_cons. case_decide as Hp; [|done]. rewrite fmap_cons. f_equiv; [|done].
  cbn in *. destruct p as [pd pn]. cbn in *. by subst.
Qed.

(** A listing is the names of the directory. *)
Lemma listing_spec dir s p :
  p ∈ join dir <$> readdir_order (dir_entries s dir) <-> p_dir p = dir /\ is_Some (fs_names s !! p).
Proof.
  rewrite listing_perm, list_elem_of_filter, list_elem_of_fmap. f_equiv. split.
  - intros ([q h] & -> & Hq'%elem_of_map_to_list). eauto.
  - intros [h Hh]. exists (p, h). split; [done|]. by apply elem_of_map_to_list.
Qed.

Lemma list_dir_quiet dir s :
  quiet s -> dir ∈ fs_dirs s ->
  exists l, list_dir dir s = (Ok l, s) /\ NoDup l /\
    forall p, p ∈ l <-> p_dir p = dir /\ is_Some (fs_names s !! p).
Proof.
  intros Hq Hd. unfold list_dir. rewrite guarded_quiet by done. rewrite bool_decide_true by done.
  eexists. split; [done|]. split; [|intros p; apply listing_spec].
  rewrite listing_perm. apply NoDup_filter, NoDup_fst_map_to_list.
Qed.

(** What the loop over the directory removes. *)
Definition left_over (dir : string) (live : list N) (p : Path) : bool :=
  negb (bool_decide (p = lock_path dir)) &&
  match parse_sst_id (p_name p) with
  | Some id => negb (bool_decide (id ∈ live))
  | None => ends_with (bytes_of_string ".db.tmp") (bytes_of_string (p_name p))
            || bool_decide (p_name p = WAL_TMP_FILENAME)
  end.

Lemma reclaim_left_over dir live p :
  reclaim dir live p = if left_over dir live p then remove p else mret tt.
Proof.
  unfold reclaim, left_over. destruct (bool_decide (p = lock_path dir)); [done|]. cbn [negb andb].
  destruct (parse_sst_id (p_name p)); [by destruct (bool_decide _)|done].
Qed.

Lemma wp_reclaim dir live l s :
  quiet s -> good s -> NoDup l -> (forall p, p ∈ l -> is_Some (fs_names s !! p)) ->
  wp (for_each l (reclaim dir live)) s (fun o s' =>
    o = Ok tt /\ touches (filter (fun p => left_over dir live p = true) l) s s' /\
    forall p, p ∈ l -> left_over dir live p = true -> fs_names s' !! p = None).
Proof.
  revert s. induction l as [|p l IH]; intros s Hq Hg Hn Hl; cbn [for_each].
  { apply wp_ret. split; [done|]. split; [by apply touches_refl|]. intros p Hp. by apply elem_of_nil in Hp. }
  apply NoDup_cons in Hn as [Hp Hn]. rewrite reclaim_left_over, filter_cons. apply wp_bind.
  destruct (left_over dir live p) eqn:Elo.
  - rewrite decide_True by done. apply wp_remove; [done|..].
    { intros k s' _ Hno. destruct (Hl p ltac:(by left)) as [h Hh]. rewrite Hno in Hh by done. done. }
    intros s1 Ht1 Hgone. cbn [then_wp]. eapply wp_mono; [apply IH; [by apply Ht1|apply Ht1|done|]|].
    { intros q Hq'. rewrite (touches_names _ _ _ Ht1); [apply Hl; by right|].
      rewrite list_elem_of_singleton. by intros ->. }
    intros o s2 (-> & Ht2 & Hall). split; [done|]. split.
    + eapply touches_trans; [eapply (touches_mono [p]); [set_solver|exact Ht1]|]. eapply touches_mono; [|exact Ht2]. set_solver.
    + intros q [->|Hq']%elem_of_cons; [|by apply Hall]. intros _. rewrite (touches_names _ _ _ Ht2); [done|].
      intros [_ ?]%list_elem_of_filter. done.
  - rewrite decide_False by done. apply wp_ret. cbn [then_wp].
    eapply wp_mono; [apply IH; [done|done|done|]; intros q Hq'; apply Hl; by right|].
    intros o s2 (-> & Ht2 & Hall). split; [done|]. split; [done|].
    intros q [->|Hq']%elem_of_cons; [congruence|by apply Hall].
Qed.
End files.

(** ** Names that stay *)

Lemma ends_with_app q b : ends_with q b = true -> exists p, b = p ++ q.
Proof.
  unfold ends_with, strip_suffix. destruct (bool_decide_reflect (length q <= length b)%nat); [|done].
  case_bool_decide as E; [|done]. intros _. exists (take (length b - length q) b). by rewrite <- E at 2; rewrite take_drop.
Qed.

Definition decimal (x : byte) : Prop := 48 <= byte_val x <= 57.

Lemma dec_go_decimal fuel n acc : Forall decimal acc -> Forall decimal (dec_go fuel n acc).
Proof.
  revert n acc. induction fuel as [|fuel IH]; intros n acc Ha; [done|]. cbn [dec_go].
  assert (Forall decimal (digit (n mod 10) :: acc)).
  { constructor; [|done]. unfold decimal. assert (n mod 10 < 10) as Hd by (apply N.mod_lt; lia).
    rewrite digit_val by done. revert Hd. generalize (n mod 10). lia. }
  case_match; [done|by apply IH].
Qed.

Lemma manifest_text_no_dot g : x2e ∉ manifest_text g.
Proof.
  unfold manifest_text, dec_padded. rewrite !not_elem_of_app. split_and!.
  - apply (bool_decide_unpack _). by vm_compute.
  - intros Hin%elem_of_replicate. destruct Hin as [E _]. by vm_compute in E.
  - intros Hin. assert (Forall decimal (dec g)) as Hd by (apply dec_go_decimal; constructor).
    rewrite Forall_forall in Hd. destruct (Hd _ Hin) as [Hle _]. by vm_compute in Hle.
Qed.

Section kept.
Variables (dir : string) (live : list N).

Lemma keep_current : left_over dir live (join dir CURRENT_FILENAME) = false.
Proof. unfold left_over. rewrite bool_decide_false by done. done. Qed.
Lemma keep_wal : left_over dir live (join dir WAL_FILENAME) = false.
Proof. unfold left_over. rewrite bool_decide_false by done. done. Qed.

Lemma keep_manifest g : left_over dir live (manifest_path dir g) = false.
Proof.
  unfold left_over. rewrite andb_false_iff. right.
  pose proof (manifest_plain dir g) as Hp. unfold plain in Hp. cbn [manifest_path join p_name] in *. rewrite Hp.
  apply orb_false_iff. split.
  - destruct (ends_with _ _) eqn:E; [|done]. apply ends_with_app in E as [p E].
    unfold manifest_name in E. rewrite bytes_of_string_of_bytes in E.
    destruct (manifest_text_no_dot g). rewrite E. apply elem_of_app. right. by left.
  - apply bool_decide_false. apply manifest_not_wal_tmp.
Qed.

Lemma keep_live id : id ∈ live -> id <= U64_MAX -> left_over dir live (sst_path dir id) = false.
Proof.
  intros Hin Hid. unfold left_over. cbn [sst_path join p_name]. rewrite parse_sst_name by done.
  rewrite (bool_decide_true (id ∈ live)) by done. apply andb_false_r.
Qed.
End kept.

(** ** The manifest *)

Section manifest_open.
Context `{PlatformOk}.

(** [CURRENT] names generation [g], whose file holds [edits] and perhaps the start
    of a frame that was never finished. *)
Definition manifest_file (dir : string) (g : N) (edits : list VersionEdit) (s : FsState) : Prop :=
  g < U64_MAX /\ path_data s (join dir CURRENT_FILENAME) = Some (current_line g) /\
  Forall wf_edit edits /\ edits <> [] /\
  exists t, torn_tail t /\ path_data s (manifest_path dir g) = Some (manifest_image MANIFEST_VERSION edits ++ t).

Lemma manifest_file_at dir g edits s :
  manifest_file dir g edits s -> manifest_at dir g (apply_edits state_default edits) s.
Proof.
  intros (Hg & Hc & Hwf & Hne & t & Ht & Hd). split; [lia|]. split; [done|]. eexists. split; [exact Hd|].
  by apply manifest_replay_image.
Qed.

Lemma manifest_file_touches dir g edits ps s s' :
  touches ps s s' -> join dir CURRENT_FILENAME ∉ ps -> manifest_path dir g ∉ ps ->
  manifest_file dir g edits s -> manifest_file dir g edits s'.
Proof.
  intros Ht Hc Hm (Hg & Ec & Hwf & Hne & t & Htt & Hd). unfold manifest_file.
  rewrite !(touches_data _ _ _ Ht) by done. split_and!; try done. by exists t.
Qed.

Lemma manifest_open_quiet dir g edits s :
  quiet s -> good s -> dir ∈ fs_dirs s -> manifest_file dir g edits s ->
  let st := apply_edits state_default edits in
  wp (manifest_open dir) s (fun o s' => touches (rollover_paths dir g) s s' /\
    exists m, o = Ok (m, st) /\ m_generation m = g + 1 /\ manifest_holds dir m (snapshot_edits st) s').
Proof.
  intros Hq Hg Hdir Hf st. pose proof (manifest_file_at _ _ _ _ Hf) as Hat. fold st in Hat.
  destruct (manifest_at_read _ _ _ _ Hq Hat) as [E1 E2].
  pose proof Hf as (Hgen & _ & Hwf & Hne & t & Ht & Hd).
  destruct (path_data_is_name _ _ _ Hd) as (h & Hn & Hfd).
  assert (open (manifest_path dir g) Append s = (Ok h, s)) as E3.
  { unfold open. rewrite guarded_quiet by done. unfold open_or_create. by rewrite Hn. }
  assert (classify_manifest dir g s = (Ok (Versioned MANIFEST_VERSION), s)) as E4.
  { unfold classify_manifest. rewrite (bind_attempt_ok _ _ _ _ _ (open_read_quiet _ _ _ Hq Hn)).
    rewrite (bind_run_ok _ _ _ _ _ (read_at_quiet h 0 HEADER_LEN s Hq)). rewrite Hfd. unfold manifest_image.
    rewrite <- app_assoc. change (0 + HEADER_LEN) with HEADER_LEN.
    set (rest := concat _ ++ t).
    assert (sub_list 0 HEADER_LEN (encode_header MANIFEST_MAGIC MANIFEST_VERSION ++ rest) =
      encode_header MANIFEST_MAGIC MANIFEST_VERSION) as -> by by apply (sub_list_app 0 HEADER_LEN []).
    rewrite <- (app_nil_r (encode_header _ _)). by rewrite classify_encode. }
  unfold manifest_open. eapply wp_step; [exact E1|]. eapply wp_step; [exact E2|].
  eapply wp_step; [exact E3|]. eapply wp_step; [exact E4|].
  apply wp_bind, wp_with_manifest. eapply wp_mono; [apply (wp_rollover dir st); [done|done|done| |exact Hat]|].
  { apply apply_edits_ok; [apply state_default_ok|done]. }
  intros o [m s'] [Ht' Ho]. cbn [fst snd m_generation] in *. destruct o as [[]|e|]; cbn [then_wp].
  - apply wp_ret. split; [done|]. exists m. by destruct Ho.
  - destruct Ho as (_ & Hnd & _). by apply Hnd in Hq.
  - done.
Qed.
End manifest_open.

(** ** The tables *)

Section tables.
Context `{PlatformOk}.

Lemma table_live_stays T T' dir w w' t :
  stays (w_fs w) (w_fs w') ->
  (forall c x, T !! c = Some x -> T' !! c = Some x) -> table_live T dir w t -> table_live T' dir w' t.
Proof.
  intros [Hs _] HT (l & b & E & Hp & Hn & Hd & Hb). pose proof Hs as (_ & En & _). exists l, b.
  rewrite <- En, <- Hs. split_and!; auto.
Qed.

Lemma wp_open_tables T w dir enabled ids (recs : N -> list Rec) :
  world_ok T w -> quiet (w_fs w) -> Forall (fun id => id <= U64_MAX) ids ->
  (forall id, id ∈ ids -> table_records (recs id) /\
     exists b, path_data (w_fs w) (sst_path dir id) = Some b /\ table_bytes (recs id) b) ->
  wp (map_each ids (fun id => reader ← sst_open (sst_path dir id) enabled; mret (mkSst id reader))) w
    (fun o w' => stays (w_fs w) (w_fs w') /\ exists ts T', o = Ok ts /\ world_ok T' w' /\
       (forall c x, T !! c = Some x -> T' !! c = Some x) /\ t_id <$> ts = ids /\
       forall t, t ∈ ts -> table_live T' dir w' t /\ table_recs T' t = recs (t_id t)).
Proof.
  revert T w. induction ids as [|id ids IH]; intros T w Hw Hq Hmax Hrec; cbn [map_each].
  { apply wp_ret. split; [done|]. exists [], T. split_and!; try done. intros t Ht. by apply elem_of_nil in Ht. }
  apply Forall_cons in Hmax as [Hid Hmax]. destruct (Hrec id ltac:(by left)) as (Hl & b & Hb & Htb).
  apply wp_bind, wp_bind. eapply wp_mono; [apply (wp_world_open T w dir id enabled (recs id)); [done|done|done|eauto]|].
  intros o w1 [Hs1 Ho]. destruct o as [r|e|]; cbn [then_wp]; [|by destruct Ho as [[_ ?] _]|done].
  destruct Ho as (Hw1 & Hnew & Hp & Hn). apply wp_ret. cbn [then_wp]. apply wp_bind.
  set (T1 := <[rd_cache r := (r, recs id)]> T) in *.
  eapply wp_mono; [apply (IH T1 w1); [done|by apply Hs1|done|]|].
  { intros i Hi. destruct (Hrec i ltac:(by right)) as (Hli & bi & Hbi & Htbi). split; [done|]. exists bi.
    by rewrite <- (proj1 Hs1). }
  intros o w2 (Hs2 & ts & T2 & -> & Hw2 & HT & Hids & Hts). cbn [then_wp]. apply wp_ret.
  split; [by etrans|]. exists (mkSst id r :: ts), T2.
  assert (T2 !! rd_cache r = Some (r, recs id)) as E2 by (apply HT; unfold T1; by rewrite lookup_insert_eq).
  split_and!; [done|done| |rewrite fmap_cons, Hids; done|].
  - intros c x Hc. apply HT. unfold T1. rewrite lookup_insert_ne; [done|]. intros <-. congruence.
  - intros t [->|Ht]%elem_of_cons; [|by apply Hts]. cbn [t_id t_reader]. split.
    + eapply (table_live_stays T2 T2 dir w1); [exact Hs2|done|]. exists (recs id), b. cbn [t_id t_reader].
      split_and!; [done|done|done| |done]. by rewrite <- (proj1 Hs1).
    + unfold table_recs. cbn [t_reader]. by rewrite E2.
Qed.
End tables.

(** ** The log *)

(** The counter after the replayed records. *)
Lemma replay_into_spec `{Platform} records m n :
  (forall r, r ∈ records -> r_seq r < U64_MAX) ->
  exists n', replay_into records m n = Ok (mt_insert_all records m, n') /\ n <= n' /\
    (forall r, r ∈ records -> r_seq r < n') /\
    forall b, n <= b -> (forall r, r ∈ records -> r_seq r < b) -> n' <= b.
Proof.
  revert m n. induction records as [|r records IH]; intros m n Hr; cbn [replay_into].
  { exists n. split_and!; try done. intros r Hin. by apply elem_of_nil in Hin. }
  assert (r_seq r < U64_MAX) by (apply Hr; by left).
  rewrite add_u64_small by lia. obind.
  destruct (IH (mt_insert r m) (N.max n (r_seq r + 1))) as (n' & E & Hle & Hlt & Hub); [intros; apply Hr; by right|].
  exists n'. split_and!; [done|lia| |].
  - intros x [->|Hx]%elem_of_cons; [lia|by apply Hlt].
  - intros b Hb Hx. apply Hub; [|intros; apply Hx; by right]. assert (r_seq r < b) by (apply Hx; by left). lia.
Qed.

Lemma map_insert_elem r l x : x ∈ (map_insert r l).1 -> x = r \/ x ∈ l.
Proof.
  induction l as [|y l IH]; cbn [map_insert]; [set_solver|].
  destruct (version_cmp (version r) (version y)); [set_solver|set_solver|].
  destruct (map_insert r l) as [l' o]. cbn [fst] in *. set_solver.
Qed.

Lemma mt_insert_all_elem records m x : x ∈ mt_map (mt_insert_all records m) -> x ∈ records \/ x ∈ mt_map m.
Proof.
  revert m. induction records as [|r records IH]; intros m Hx; [by right|]. cbn in Hx.
  apply IH in Hx as [Hx|Hx]; [set_solver|]. rewrite mt_insert_map in Hx. apply map_insert_elem in Hx. set_solver.
Qed.

(** The order of the records does not depend on the threshold. *)
Lemma mt_insert_all_map records m m' :
  mt_map m = mt_map m' -> mt_map (mt_insert_all records m) = mt_map (mt_insert_all records m').
Proof.
  revert m m'. induction records as [|r records IH]; intros m m' E; [done|]. cbn. apply IH. by rewrite !mt_insert_map, E.
Qed.

Section wal_open.
Context `{PlatformOk}.

(** The log file, or none yet. *)
Definition log_file (dir : string) (batches : list (list Rec)) (t : bytes) (s : FsState) : Prop :=
  Forall (wf_batch true) batches /\ no_frame (wal_checksum (Versioned WAL_VERSION)) t /\
  (path_data s (join dir WAL_FILENAME) = Some (wal_image WAL_VERSION batches ++ t) \/
   path_data s (join dir WAL_FILENAME) = None /\ batches = [] /\ t = []).

Lemma log_file_touches dir batches t ps s s' :
  touches ps s s' -> join dir WAL_FILENAME ∉ ps -> log_file dir batches t s -> log_file dir batches t s'.
Proof. intros Ht Hp (Hwf & Htt & Hd). unfold log_file. by rewrite (touches_data _ _ _ Ht). Qed.

Lemma log_replay_quiet dir batches t s :
  quiet s -> good s -> log_file dir batches t s -> wal_replay (join dir WAL_FILENAME) s = (Ok (concat batches), s).
Proof.
  intros Hq Hg (Hwf & Htt & [Hd|(Hd & -> & ->)]).
  - destruct (path_data_is_name _ _ _ Hd) as (h & Hn & Hfd). rewrite (wal_replay_quiet _ h) by done.
    rewrite Hfd. by rewrite replay_bytes_versioned.
  - unfold wal_replay. assert (fs_names s !! join dir WAL_FILENAME = None) as Hn.
    { destruct (fs_names s !! join dir WAL_FILENAME) as [h|] eqn:En; [|done].
      by rewrite (path_data_names _ _ _ En (proj1 Hg)) in Hd. }
    assert (open (join dir WAL_FILENAME) Read s = (Err (Io NotFound), s)) as E.
    { unfold open. rewrite guarded_quiet by done. by rewrite Hn. }
    by rewrite (bind_attempt_err _ _ _ _ _ E).
Qed.

Lemma wal_open_quiet dir batches t sync s :
  quiet s -> good s -> dir ∈ fs_dirs s -> log_file dir batches t s ->
  let p := join dir WAL_FILENAME in
  wp (wal_open_append p sync) s (fun o s' => touches [p] s s' /\ exists w, o = Ok w /\
    wal_path w = p /\ wal_counted w = true /\ wal_cksum w = wal_checksum (Versioned WAL_VERSION) /\
    ba_buf (wal_file w) = [] /\ fs_names s' !! p = Some (ba_file (wal_file w)) /\
    path_data s' p = Some (wal_image WAL_VERSION batches ++ t)).
Proof.
  intros Hq Hg Hdir (Hwf & Htt & Hd) p. unfold wal_open_append.
  destruct (open_append_quiet p s Hq Hg (wal_plain dir) Hdir) as (h & s1 & E & Ht1 & Hn1 & Hd1).
  eapply wp_step; [exact E|]. pose proof (touches_quiet _ _ _ Ht1 Hq) as Hq1.
  eapply wp_step; [by apply file_size_quiet|].
  assert (file_data s1 h = default [] (path_data s p)) as Hfd.
  { rewrite (path_data_names _ _ _ Hn1 (proj1 (touches_good _ _ _ Ht1))) in Hd1. by injection Hd1. }
  rewrite Hfd. destruct Hd as [Hd|(Hd & -> & ->)]; fold p in Hd; rewrite Hd in Hd1 |- *; cbn [default from_option id].
  - unfold wal_image in *. rewrite (proj2 (N.eqb_neq _ _)) by (rewrite !length_app, length_encode_header by done; lia).
    eapply wp_step; [by apply read_at_quiet|].
    rewrite Hfd, Hd. cbn [default from_option id]. rewrite <- app_assoc. change (0 + HEADER_LEN) with HEADER_LEN.
    set (rest := concat _ ++ t).
    assert (sub_list 0 HEADER_LEN (encode_header WAL_MAGIC WAL_VERSION ++ rest) =
      encode_header WAL_MAGIC WAL_VERSION) as -> by by apply (sub_list_app 0 HEADER_LEN []).
    rewrite <- (app_nil_r (encode_header _ _)). rewrite classify_encode by done.
    apply wp_bind, wp_lift. cbn [then_wp]. apply wp_ret. split; [done|]. eexists. split; [done|]. split_and!; try done.
  - cbn [length N.of_nat N.eqb]. apply wp_bind, wp_ret. cbn [then_wp]. apply wp_bind, wp_lift. cbn [then_wp classify].
    apply wp_bind, wp_with_buf, wp_bind.
    assert (wrote p h s [] (buf_new h, s1)) as Hx0 by (split_and!; try done; exists []; by split).
    eapply wp_mono; [apply (writing_write p h s []); [apply wal_plain|done]|].
    intros [[]|e|] [b2 s2]; cbn [then_wp writing]; [| |done].
    2: { intros (_ & _ & Hnq). by destruct (Hnq Hq). }
    intros (x & (Ht2 & Hn2 & Hf2 & d & Hd2 & Hx) & ->). cbn [fst snd app] in *.
    destruct (buf_flush_touches p b2 s2 (touches_good _ _ _ Ht2) (wal_plain dir)) as
      (w & o & b3 & s3 & E3 & Ht3 & Hnm & Hf3 & Hd3 & _ & Ho & Hq3); [congruence|].
    pose proof (touches_trans _ _ _ _ Ht2 Ht3) as Ht. eapply wp_run; [exact E3|]. cbn [fst snd].
    destruct Ho as [(-> & -> & Hb)|[k ->]]; cbn [then_wp].
    2: { by apply (touches_quiet _ _ _ Ht2), Hq3 in Hq. }
    apply wp_ret. split; [done|]. eexists. split; [done|]. cbn [wal_path wal_counted wal_cksum wal_file].
    split_and!; try done; [congruence|]. rewrite Hd3, Hd2. cbn [fmap option_fmap option_map].
    rewrite Hx. unfold wal_image. by rewrite !app_nil_r.
Qed.
End wal_open.

(** ** Loading a directory *)

Section load.
Context `{PlatformOk}.

(** What a directory holds apart from its manifest: the live tables [ids] with
    their records and the batches of the log, in layers. *)
Record contents (dir : string) (st : ManifestState) (recs : N -> list Rec) (batches : list (list Rec))
    (t : bytes) (s : FsState) : Prop := mkContents {
  ct_good : good s;
  ct_dir : dir ∈ fs_dirs s;
  ct_state : state_ok st;
  ct_next_id : forall id, id ∈ live_tables st -> id < st_next_sst_id st;
  ct_table : forall id, id ∈ live_tables st -> table_records (recs id) /\
    exists b, path_data s (sst_path dir id) = Some b /\ table_bytes (recs id) b;
  ct_seq : forall id r, id ∈ live_tables st -> r ∈ recs id -> r_seq r < st_next_seq st;
  ct_log : log_file dir batches t s;
  ct_log_seq : forall r, r ∈ concat batches -> r_seq r < U64_MAX
}.

(** The layers an engine on those contents has. *)
Definition content_layers (st : ManifestState) (recs : N -> list Rec) (batches : list (list Rec)) : list (list Rec) :=
  mt_iter (mt_insert_all (concat batches) (mt_new 0)) :: (recs <$> reverse (live_tables st)).

Lemma contents_touches dir st recs batches t ps s s' :
  touches ps s s' -> join dir WAL_FILENAME ∉ ps ->
  (forall id, id ∈ live_tables st -> sst_path dir id ∉ ps) ->
  contents dir st recs batches t s -> contents dir st recs batches t s'.
Proof.
  intros Ht Hw Hs []. split; try done.
  - apply Ht.
  - by apply (touches_dirs _ _ _ Ht).
  - intros id Hid. destruct (ct_table0 id Hid) as (Hl & b & Hb & Htb). split; [done|]. exists b.
    by rewrite (touches_data _ _ _ Ht) by auto.
  - by eapply log_file_touches.
Qed.

(** What comes up serves the layers. *)
Definition loaded (opts : Options) (st : ManifestState) (recs : N -> list Rec) (batches : list (list Rec)) (t : bytes)
    (dir : string) (m : Manifest) (d : DbInner) (w : World) : Prop :=
  exists T, db_ok T d w /\ layers T d = content_layers st recs batches /\ (t = [] -> log_ok d w) /\
    db_dir d = dir /\ db_opts d = opts /\ db_snapshots d = [] /\ db_manifest d = m /\
    db_next_sst_id d = st_next_sst_id st /\
    (forall r, r ∈ concat (layers T d) -> r_seq r < db_next_seq d) /\
    (forall b, st_next_seq st <= b -> (forall r, r ∈ concat batches -> r_seq r < b) -> db_next_seq d <= b).

Lemma loaded_intro T dir opts lock m edits recs batches t ts n wl s3 w2 queue queue' :
  let st := apply_edits state_default edits in
  let p := join dir WAL_FILENAME in
  world_ok T w2 -> touches [p] (w_fs w2) s3 -> dir ∈ fs_dirs s3 ->
  manifest_holds dir m edits (w_fs w2) -> edits <> [] -> state_ok st ->
  (forall id, id ∈ live_tables st -> id < st_next_sst_id st) ->
  (forall id r, id ∈ live_tables st -> r ∈ recs id -> r_seq r < st_next_seq st) ->
  t_id <$> ts = live_tables st ->
  (forall u, u ∈ ts -> table_live T dir w2 u /\ table_recs T u = recs (t_id u)) ->
  Forall (wf_batch true) batches -> st_next_seq st <= n -> (forall r, r ∈ concat batches -> r_seq r < n) ->
  (forall b, st_next_seq st <= b -> (forall r, r ∈ concat batches -> r_seq r < b) -> n <= b) -> n <= U64_MAX ->
  wal_path wl = p -> wal_counted wl = true -> wal_cksum wl = wal_checksum (Versioned WAL_VERSION) ->
  ba_buf (wal_file wl) = [] -> fs_names s3 !! p = Some (ba_file (wal_file wl)) ->
  path_data s3 p = Some (wal_image WAL_VERSION batches ++ t) ->
  loaded opts st recs batches t dir m
    (mkDb dir opts lock wl (mt_insert_all (concat batches) (mt_new (o_memtable_threshold opts))) None ts
       (st_next_sst_id st) n m [] queue queue' None) (world_set_fs s3 w2).
Proof.
  intros st p Hw2 Ht3 Hdir Hm Hne Hst Hnid Hseq Hids Hts Hbs Hn1 Hn2 Hn3 Hmax Hwp Hwc Hwk Hwb Hwn Hwd.
  assert (forall u, u ∈ ts -> t_id u ∈ live_tables st) as Hin.
  { intros u Hu. rewrite <- Hids. by apply list_elem_of_fmap_2. }
  set (act := mt_insert_all (concat batches) (mt_new (o_memtable_threshold opts))).
  assert (mt_ok act) as Hact.
  { apply mt_insert_all_ok; [apply mt_new_ok|]. apply Forall_forall. intros r Hr. specialize (Hn2 r Hr). lia. }
  assert (mt_iter act = mt_iter (mt_insert_all (concat batches) (mt_new 0))) as Eact by (by apply mt_insert_all_map).
  set (d := mkDb _ _ _ _ _ _ _ _ _ _ _ _ _ _).
  assert (layers T d = content_layers st recs batches) as EL.
  { rewrite layers_thawed by done. unfold content_layers. rewrite <- Eact. f_equal.
    rewrite <- Hids, <- fmap_reverse, <- list_fmap_compose. apply list_fmap_ext. intros i u Hu. cbn.
    apply Hts. rewrite <- elem_of_reverse. by eapply list_elem_of_lookup_2. }
  assert (db_ok T d (world_set_fs s3 w2)) as Hok.
  { split; cbn; try done.
    - by eapply world_ok_touches.
    - intros u Hu. eapply table_live_touches; [exact Ht3|unfold p; paths|done|by apply Hts].
    - rewrite Hids. apply Hst.
    - intros u Hu. by apply Hnid, Hin.
    - apply Hst.
    - exists edits. split_and!; cbn; try done.
      + eapply manifest_holds_touches; [exact Ht3|unfold p; paths|unfold p; paths|done].
      + intros u r Hu Hr. rewrite (proj2 (Hts u Hu)) in Hr. eapply Hseq; [by apply Hin|done]. }
  exists T. split; [done|]. split; [done|]. split_and!; try done.
  - intros ->. exists batches. split_and!; try done.
    pose proof (touches_good _ _ _ Ht3) as [Hwf _]. split_and!; cbn; try done; [by rewrite Hwp|by eapply (proj1 Hwf)|].
    rewrite (path_data_names _ _ _ Hwn Hwf), app_nil_r in Hwd. by injection Hwd.
  - intros r. rewrite layers_thawed by done. cbn [concat d db_active db_sstables db_next_seq].
    intros [Hr|Hr]%elem_of_app.
    + apply Hn2. by apply mt_insert_all_elem in Hr as [?|?%elem_of_nil].
    + apply concat_table_elem in Hr as (u & Hu & Hr). rewrite elem_of_reverse in Hu.
      rewrite (proj2 (Hts u Hu)) in Hr. specialize (Hseq _ _ (Hin u Hu) Hr). lia.
Qed.

Lemma wp_load_dir dir opts lock m edits recs batches t w :
  let st := apply_edits state_default edits in
  quiet (w_fs w) -> manifest_holds dir m edits (w_fs w) -> edits <> [] ->
  contents dir st recs batches t (w_fs w) ->
  wp (load_dir dir opts lock m st) w (fun o w' => quiet (w_fs w') /\
    exists d, o = Ok d /\ loaded opts st recs batches t dir m d w').
Proof.
  intros st Hq Hm Hne Hct. pose proof Hct as []. unfold load_dir.
  (* the directory is listed and cleaned *)
  destruct (list_dir_quiet dir (w_fs w) Hq ct_dir0) as (l & El & Hnd & Hl).
  apply wp_bind. unfold on_files at 1. apply wp_zoom. eapply wp_run; [exact El|]. cbn [then_wp].
  apply wp_bind, wp_zoom. cbn [w_fs].
  eapply wp_mono; [apply wp_reclaim; [done|done|done|]|].
  { intros p Hp. by apply Hl. }
  intros o s1 (-> & Ht1 & _). cbn [then_wp].
  assert (forall p, left_over dir (live_tables st) p = false -> p ∉ filter (fun p => left_over dir (live_tables st) p = true) l) as Hkeep.
  { intros p Hp [E _]%list_elem_of_filter. congruence. }
  assert (forall id, id ∈ live_tables st -> id <= U64_MAX) as Hmax.
  { destruct ct_state0 as (_ & Hb & _). by rewrite Forall_forall in Hb. }
  assert (contents dir st recs batches t s1) as Hct1.
  { eapply contents_touches; [exact Ht1|apply Hkeep, keep_wal| |done]. intros id Hid. apply Hkeep, keep_live; auto. }
  assert (manifest_holds dir m edits s1) as Hm1.
  { eapply manifest_holds_touches; [exact Ht1|apply Hkeep, keep_current|apply Hkeep, keep_manifest|done]. }
  pose proof (touches_quiet _ _ _ Ht1 Hq) as Hq1. clear Hct. destruct Hct1.
  (* the tables are opened *)
  set (w1 := mkWorld s1 _ _).
  apply wp_bind. eapply wp_mono; [apply (wp_open_tables ∅ w1 dir _ _ recs); [|done| |done]|].
  { split; [apply Ht1|]. intros id r l' Hid. by rewrite lookup_empty in Hid. }
  { by apply Forall_forall. }
  intros o w2 (Hs2 & ts & T & -> & Hw2 & _ & Hids & Hts). cbn [then_wp].
  (* the log is replayed and opened *)
  assert (touches [] s1 (w_fs w2)) as Ht2 by (apply touches_same; [apply Ht1|done]).
  assert (forall p : Path, p ∉ []) as Hnil by (intros; apply not_elem_of_nil).
  assert (log_file dir batches t (w_fs w2)) as Hlog2 by (by eapply log_file_touches).
  assert (manifest_holds dir m edits (w_fs w2)) as Hm2 by (by eapply manifest_holds_touches).
  pose proof (touches_quiet _ _ _ Ht2 Hq1) as Hq2.
  apply wp_bind, wp_zoom. eapply wp_run; [by apply (log_replay_quiet dir batches t); [|apply Hw2|]|].
  cbn [then_wp]. apply wp_bind, wp_lift.
  destruct (replay_into_spec (concat batches) (mt_new (o_memtable_threshold opts)) (st_next_seq st)) as
    (n & -> & Hn1 & Hn2 & Hn3); [done|]. cbn [then_wp].
  apply wp_bind, wp_zoom. cbn [w_fs].
  eapply wp_mono; [apply (wal_open_quiet dir batches t); [done|apply Hw2|by apply (touches_dirs _ _ _ Ht2)|done]|].
  intros o s3 (Ht3 & wl & -> & Hwp & Hwc & Hwk & Hwb & Hwn & Hwd). cbn [then_wp]. apply wp_ret.
  split; [by apply (touches_quiet _ _ _ Ht3)|]. eexists. split; [done|].
  change (mkWorld s3 _ _) with (world_set_fs s3 w2).
  apply (loaded_intro T dir opts lock m edits recs batches t ts n wl s3 w2); try done.
  - by apply (touches_dirs _ _ _ Ht3), (touches_dirs _ _ _ Ht2).
  - apply Hlog2.
  - destruct ct_state0 as (_ & _ & ? & _). by apply Hn3.
Qed.
End load.

(** ** A directory that is in use *)

(** The lock file of [dir] is held. *)
Definition in_use (dir : string) (s : FsState) : Prop :=
  exists h, fs_names s !! lock_path dir = Some h /\ h ∈ fs_locks s.

(** What a refused open leaves: every file, every name and every lock. *)
Definition unchanged (s s' : FsState) : Prop :=
  fs_inodes s' = fs_inodes s /\ fs_names s' = fs_names s /\ fs_locks s' = fs_locks s.

#[export] Instance unchanged_trans : Transitive unchanged.
Proof. intros s t u (? & ? & ?) (? & ? & ?). split_and!; congruence. Qed.

Lemma stays_unchanged s s' : stays s s' -> unchanged s s'.
Proof. by intros [(? & ? & _ & _ & ? & _) _]. Qed.

Lemma in_use_unchanged dir s s' : unchanged s s' -> in_use dir s -> in_use dir s'.
Proof. intros (_ & En & El) (h & Hn & Hl). exists h. by rewrite En, El. Qed.

Lemma wp_guarded {A} (op : FsM A) s (Q : outcome A -> FsState -> Prop) :
  (forall k s', stays s s' -> ~ quiet s -> Q (Err (Io k)) s') ->
  (forall f, stays s (set_faults f s) -> wp op (set_faults f s) Q) -> wp (guarded op) s Q.
Proof.
  intros Herr Hop. unfold wp. destruct (guarded_cases op s) as [(k & t & -> & Hs & Hnq)|(f & -> & Hst)].
  - apply Herr; [by split|done].
  - by apply Hop.
Qed.

Lemma wp_open_in_use dir s :
  in_use dir s ->
  wp (open (lock_path dir) Lock) s (fun o s' => unchanged s s' /\ exists k, o = Err (Io k) /\ (quiet s -> k = WouldBlock)).
Proof.
  intros (h & Hn & Hl). unfold open. apply wp_guarded.
  { intros k s' Hs Hq. split; [by apply stays_unchanged|]. by exists k. }
  intros f Hs. apply wp_bind. unfold wp, open_or_create. cbn [fs_names set_faults]. rewrite Hn. cbn [fst snd then_wp].
  apply wp_bind, wp_gets. cbn [then_wp fs_locks set_faults]. rewrite bool_decide_true by done. apply wp_fail.
  split; [done|]. by exists WouldBlock.
Qed.

Lemma wp_acquire_in_use `{Platform} dir s :
  in_use dir s ->
  wp (dir_lock_acquire dir) s (fun o s' => unchanged s s' /\ exists e, o = Err e /\ (quiet s -> e = Locked dir)).
Proof.
  intros Hu. unfold dir_lock_acquire, exists_path.
  assert (wp (path_size (lock_path dir)) s (fun o s' => o <> Panic /\ unchanged s s' /\ (quiet s -> quiet s'))) as Hsz.
  { unfold path_size. apply wp_guarded.
    - intros k s' Hs Hq. split_and!; [done|by apply stays_unchanged|apply Hs].
    - intros f [_ Hq]. unfold wp. by destruct (path_data _ _). }
  apply wp_bind, wp_bind, wp_attempt. eapply wp_mono; [exact Hsz|].
  intros o s1 (Hnp & Hu1 & Hq1).
  assert (forall b : bool, wp (r ← attempt (open (lock_path dir) Lock);
    h ← match r with
        | inl h => mret h
        | inr (Io WouldBlock) => fail (Locked dir)
        | inr e => fail e
        end;
    if b then mret h
    else
      r ← attempt (sync_dir dir);
      match r with
      | inl _ => mret h
      | inr e => _ ← dir_lock_drop h; fail e
      end) s1 (fun o s' => unchanged s s' /\ exists e, o = Err e /\ (quiet s -> e = Locked dir))) as Hrest.
  { intros b. apply wp_bind, wp_attempt. eapply wp_mono; [apply wp_open_in_use; by eapply in_use_unchanged|].
    intros o' s2 (Hu2 & k & -> & Hk). cbn [then_wp]. apply wp_bind.
    assert (unchanged s s2) as Hu02 by by etrans.
    destruct (decide (k = WouldBlock)) as [->|Hne].
    - apply wp_fail. cbn [then_wp]. split; [done|]. by eexists.
    - assert (~ quiet s) as Hnq by (intros Hq; by apply Hne, Hk, Hq1).
      destruct k; try done; apply wp_fail; cbn [then_wp]; (split; [done|]); by eexists. }
  destruct o as [n|e|]; cbn [then_wp]; [apply wp_ret, (Hrest true)|apply wp_ret, (Hrest false)|done].
Qed.

(** A second handle is refused, and changes nothing. *)
Lemma wp_db_open_in_use `{Platform} dir opts w :
  in_use dir (w_fs w) ->
  wp (db_open dir opts) w (fun o w' => unchanged (w_fs w) (w_fs w') /\
    exists e, o = Err e /\ (quiet (w_fs w) -> e = Locked dir)).
Proof.
  intros Hu. unfold db_open. apply wp_bind. unfold on_files at 1. apply wp_zoom. unfold create_dir_all. apply wp_guarded.
  { intros k s' Hs Hq. cbn [then_wp]. split; [by apply stays_unchanged|]. by eexists. }
  intros f [_ Hq]. apply wp_modify. cbn [then_wp]. set (s1 := set_dirs _ _).
  apply wp_bind, wp_zoom. cbn [w_fs]. eapply wp_mono; [by apply (wp_acquire_in_use dir s1)|].
  intros o s2 (Hu2 & e & -> & He). cbn [then_wp w_fs]. split; [done|]. exists e. split; [done|]. intros Hq'. apply He, Hq, Hq'.
Qed.

(** ** A first open *)

Section first_open.
Context `{PlatformOk}.

Lemma wp_manifest_create dir s :
  good s -> dir ∈ fs_dirs s ->
  wp (manifest_create dir) s (fun o s' =>
    touches [manifest_path dir 0; join dir CURRENT_TMP; join dir CURRENT_FILENAME] s s' /\
    match o with
    | Ok m => m_generation m = 0 /\ manifest_holds dir m [] s'
    | Err e => io_fault s e
    | Panic => False
    end).
Proof.
  intros Hg Hdir. unfold manifest_create. set (p := manifest_path dir 0).
  set (ps := [p; join dir CURRENT_TMP; join dir CURRENT_FILENAME]).
  apply wp_bind, wp_open_truncate; [done|apply manifest_plain|..].
  { intros k s' Hs Hno. split; [by apply touches_same|]. split; [eauto|by intros ?%Hno]. }
  intros h s1 Ht1 Hn1 Hd1. cbn [then_wp].
  assert (touches ps s s1) as Ht1' by (eapply (touches_mono [p]); [set_solver|exact Ht1]).
  set (hdr := encode_header MANIFEST_MAGIC MANIFEST_VERSION).
  destruct (buf_sync_prog_touches p [hdr] (buf_new h) s1 (touches_good _ _ _ Ht1) (manifest_plain dir 0) Hn1)
    as (w & o & b & s2 & E & Ht2 & Hnm & Hf & Hd2 & _ & Ho & Hqo).
  rewrite for_each_cons in E. cbn [for_each] in E.
  apply wp_bind, wp_with_manifest. unfold on_manifest_file. apply wp_zoom. cbn [fst snd m_file].
  eapply wp_run; [exact E|]. cbn [fst snd m_dir m_generation m_cksum].
  assert (touches ps s s2) as Ht12.
  { eapply touches_trans; [exact Ht1'|]. eapply (touches_mono [p]); [set_solver|exact Ht2]. }
  destruct Ho as [(-> & Hw & Hb)|[k ->]]; cbn [then_wp].
  2: { split; [done|]. split; [eauto|]. by intros ?%(touches_quiet _ _ _ Ht1)%Hqo. }
  apply wp_bind, wp_write_current; [apply Ht2|]. intros o s3 Ht3 Ho Hc Hqc.
  assert (touches ps s s3) as Ht03.
  { eapply touches_trans; [exact Ht12|]. eapply touches_mono; [|exact Ht3]. set_solver. }
  destruct Ho as [->|[k ->]]; cbn [then_wp].
  2: { split; [done|]. split; [eauto|]. intros ?%(touches_quiet _ _ _ Ht12)%Hqc; [done|]. by apply (touches_dirs _ _ _ Ht12). }
  apply wp_ret. split; [done|]. split; [done|].
  assert (p ∉ [join dir CURRENT_TMP; join dir CURRENT_FILENAME]) as Hp by (unfold p; paths).
  split; cbn [m_dir m_generation m_file m_cksum]; try done.
  - fold p. rewrite (touches_names _ _ _ Ht3), Hnm, Hf by done. done.
  - fold p. rewrite (touches_data _ _ _ Ht3), Hd2, Hd1, Hw by done. cbn [fmap option_fmap option_map].
    unfold manifest_image. cbn [buf_new buf_with_capacity ba_buf concat app fmap list_fmap]. done.
  - destruct Hc as [?|[? _]]; done.
Qed.

Lemma manifest_create_quiet dir s :
  quiet s -> good s -> dir ∈ fs_dirs s ->
  wp (manifest_create dir) s (fun o s' =>
    touches [manifest_path dir 0; join dir CURRENT_TMP; join dir CURRENT_FILENAME] s s' /\
    exists m, o = Ok m /\ m_generation m = 0 /\ manifest_holds dir m [] s').
Proof.
  intros Hq Hg Hdir. eapply wp_mono; [by apply wp_manifest_create|]. intros [m|e|] s' [Ht Ho]; [eauto|by destruct Ho|done].
Qed.

(** A directory in which nothing was ever stored. *)
Definition fresh_dir (dir : string) (s : FsState) : Prop :=
  dir ∈ fs_dirs s /\ path_data s (join dir CURRENT_FILENAME) = None /\
  path_data s (join dir WAL_FILENAME) = None /\
  forall p, p_dir p = dir -> is_Some (fs_names s !! p) -> parse_sst_id (p_name p) = None.

Lemma migrate_fresh dir s :
  quiet s -> good s -> fresh_dir dir s ->
  wp (migrate_dir dir) s (fun o s' =>
    touches [manifest_path dir 0; join dir CURRENT_TMP; join dir CURRENT_FILENAME] s s' /\
    exists m, o = Ok (m, state_default) /\ m_generation m = 0 /\ manifest_holds dir m [SetNextSstId 0] s').
Proof.
  intros Hq Hg (Hdir & _ & _ & Hno). unfold migrate_dir.
  destruct (list_dir_quiet dir s Hq Hdir) as (l & El & _ & Hl). eapply wp_step; [exact El|].
  assert (omap (fun p => parse_sst_id (p_name p)) l = []) as ->.
  { assert (Forall (fun p => parse_sst_id (p_name p) = None) l) as Hf
      by (apply Forall_forall; intros p [? ?]%Hl; by apply Hno).
    clear -Hf. induction Hf as [|p l E _ IH]; [done|]. cbn. by rewrite E. }
  cbn [sort_ids foldr last]. apply wp_bind, wp_ret. cbn [then_wp].
  apply wp_bind. eapply wp_mono; [by apply manifest_create_quiet|].
  intros o s1 (Ht1 & m & -> & Hgen & Hm). cbn [then_wp]. cbn [fmap list_fmap].
  apply wp_bind, wp_with_manifest. eapply wp_mono; [apply (manifest_append_holds dir m []); [apply Ht1|done|]|].
  { by repeat constructor. }
  intros o [m' s2] (Ht2 & Hgen' & Ho). cbn [fst snd] in *. rewrite Hgen in *.
  destruct o as [[]|e|]; cbn [then_wp].
  - apply wp_ret. split; [|by exists m'].
    eapply touches_trans; [exact Ht1|]. eapply touches_mono; [|exact Ht2]. set_solver.
  - destruct Ho as (_ & Hnq & _). by destruct Hnq; apply (touches_quiet _ _ _ Ht1).
  - done.
Qed.

(** ** Opening *)

(** Opening with the manifest on disk, or without one in a fresh directory. *)
Lemma wp_db_open_with dir opts w (Q : outcome DbInner -> World -> Prop) recs batches t st g :
  quiet (w_fs w) -> fs_locks (w_fs w) = ∅ -> contents dir st recs batches t (w_fs w) ->
  (st = state_default /\ g = 0 /\ fresh_dir dir (w_fs w) \/
   exists g0 edits, g = g0 + 1 /\ manifest_file dir g0 edits (w_fs w) /\ st = apply_edits state_default edits) ->
  (forall d m w', quiet (w_fs w') -> m_generation m = g -> loaded opts st recs batches t dir m d w' -> Q (Ok d) w') ->
  wp (db_open dir opts) w Q.
Proof.
  intros Hq Hl Hct Hcase HQ. unfold db_open.
  destruct (create_dir_quiet dir (w_fs w) Hq (ct_good _ _ _ _ _ _ Hct)) as (s1 & E1 & Ht1 & Hd1 & Hl1).
  apply wp_bind. unfold on_files at 1. apply wp_zoom. eapply wp_run; [exact E1|]. cbn [then_wp].
  destruct (lock_acquire_quiet dir s1) as (lock & s2 & E2 & Ht2);
    [by apply Ht1|apply Ht1|done|by rewrite Hl1|].
  apply wp_bind, wp_zoom. cbn [w_fs]. eapply wp_run; [exact E2|]. cbn [then_wp].
  assert (touches [lock_path dir] (w_fs w) s2) as Ht.
  { eapply touches_trans; [|exact Ht2]. eapply (touches_mono []); [apply list_subseteq_nil|done]. }
  pose proof (touches_quiet _ _ _ Ht Hq) as Hq2.
  assert (forall nm, nm <> "LOCK"%string -> join dir nm ∉ [lock_path dir]) as Hnl.
  { intros nm Hnm. rewrite list_elem_of_singleton. by intros [= ?]. }
  assert (contents dir st recs batches t s2) as Hct2.
  { eapply contents_touches; [exact Ht|by apply Hnl| |done]. intros id _. apply Hnl. unfold sst_name. names_differ. }
  apply wp_bind, wp_attempt. set (w2 := mkWorld s2 _ _). unfold recover.
  assert (forall m edits w3, quiet (w_fs w3) -> m_generation m = g -> manifest_holds dir m edits (w_fs w3) -> edits <> [] ->
    st = apply_edits state_default edits -> contents dir st recs batches t (w_fs w3) ->
    wp (load_dir dir opts lock m st) w3 (fun o w' => match o with
      | Ok d => wp (mret d) w' Q | Err e => wp (_ ← on_files (dir_lock_drop lock); fail e) w' Q | Panic => Q Panic w' end)) as Hload.
  { intros m edits w3 Hq3 Hg Hm Hne -> Hct3. eapply wp_mono; [by apply (wp_load_dir dir opts lock m edits recs batches t)|].
    intros o w' (Hq' & d & -> & Hld). apply wp_ret. by eapply HQ. }
  apply wp_bind. unfold on_files at 1. apply wp_zoom. cbn [w_fs w2].
  assert (path_size (join dir CURRENT_FILENAME) s2 = (match path_data s2 (join dir CURRENT_FILENAME) with
    Some d => Ok (len d) | None => Err (Io NotFound) end, s2)) as Esz.
  { unfold path_size. rewrite guarded_quiet by done. by destruct (path_data s2 _). }
  destruct Hcase as [(-> & -> & Hf)|(g0 & edits & -> & Hmf & ->)].
  - assert (fresh_dir dir s2) as Hf2.
    { destruct Hf as (_ & Hc & Hw & Hno). split_and!; [apply Hct2|by rewrite (touches_data _ _ _ Ht) by by apply Hnl..|].
      intros p Hp Hn. destruct (decide (p = lock_path dir)) as [->|Hne]; [done|].
      apply Hno; [done|]. rewrite <- (touches_names _ _ _ Ht); [done|]. by rewrite list_elem_of_singleton. }
    assert (manifest_exists dir s2 = (Ok false, s2)) as Eex.
    { unfold manifest_exists, exists_path. rewrite (proj1 (proj2 Hf2)) in Esz. by rewrite (bind_attempt_err _ _ _ _ _ Esz). }
    eapply wp_step; [exact Eex|]. eapply wp_mono; [apply migrate_fresh; [done|apply Ht|done]|].
    intros o s3 (Ht3 & m & -> & Hgen & Hm). cbn [then_wp].
    apply (Hload m [SetNextSstId 0]); [by apply (touches_quiet _ _ _ Ht3)|done|done|done|done|].
    eapply contents_touches; [exact Ht3|paths| |done]. intros id _. paths.
  - assert (manifest_file dir g0 edits s2) as Hmf2.
    { eapply manifest_file_touches; [exact Ht|by apply Hnl| |done]. apply Hnl. unfold manifest_name. names_differ. }
    assert (manifest_exists dir s2 = (Ok true, s2)) as Eex.
    { unfold manifest_exists, exists_path. destruct Hmf2 as (_ & Hc & _). rewrite Hc in Esz. by rewrite (bind_attempt_ok _ _ _ _ _ Esz). }
    eapply wp_step; [exact Eex|]. eapply wp_mono; [apply (manifest_open_quiet dir g0 edits); [done|apply Ht|apply Hct2|done]|].
    intros o s3 (Ht3 & m & -> & Hgen & Hm). cbn [then_wp].
    pose proof (ct_state _ _ _ _ _ _ Hct2) as Hst.
    apply (Hload m (snapshot_edits (apply_edits state_default edits))); [by apply (touches_quiet _ _ _ Ht3)|done|done|done| |].
    + by rewrite apply_snapshot_edits by apply Hst.
    + eapply contents_touches; [exact Ht3| | |done]; unfold rollover_paths; [paths|]. intros id _. paths.
Qed.
End first_open.
