(* ===== verification/Restarts.v ===== *)
(** * Restarts

    A process that starts on the directory of one that ended, or died between
    two operations or inside a write, serves the same map: whole batches, every
    acknowledged one, and no other but perhaps the one that was being written. *)
From Stdlib Require Import NArith Lia.
From stdpp Require Import base numbers list sorting strings gmap.
From S2P Require Import Prelude Errors FileNames Platform State FileSystem Store Records Versions MemTable.
From S2P Require Import Headers Frames WriteAheadLog Manifest ManifestRecovery.
From S2P Require Import Bloom SsTables TableLayout TableReads Tables Merging Compaction Scans Engine.
From S2P Require Import Layers Writes Flushes CompactSteps Specification Sessions Recovery.

Local Open Scope N_scope.

(** ** What the log holds is in the MemTable *)

Lemma mt_insert_all_versions records m r :
  mt_ok m -> Forall (fun r => r_seq r <= U64_MAX) records ->
  r ∈ records \/ version r ∈ version <$> mt_map m ->
  version r ∈ version <$> mt_map (mt_insert_all records m).
Proof.
  revert m. induction records as [|x records IH]; intros m Hm Hs Hr.
  { by destruct Hr as [Hr%elem_of_nil|Hr]. }
  apply Forall_cons in Hs as [Hx Hs]. cbn. apply IH; [by apply mt_insert_ok|done|].
  assert (forall v, v = version x \/ v ∈ version <$> mt_map m -> v ∈ version <$> mt_map (mt_insert x m)) as Hv.
  { intros v Hv. rewrite mt_insert_map. apply list_elem_of_fmap.
    destruct (decide (v = version x)) as [->|Hne].
    - exists x. split; [done|]. apply map_insert_elem_of; [apply Hm|by left].
    - destruct Hv as [?|Hv]; [done|]. apply list_elem_of_fmap in Hv as (y & -> & Hy).
      exists y. split; [done|]. apply map_insert_elem_of; [apply Hm|by right]. }
  destruct Hr as [[->|Hr]%elem_of_cons|Hr]; [right; apply Hv; by left|by left|right; apply Hv; by right].
Qed.

(** ** The process is started again *)

Lemma reboot_touches s : good s -> touches [] s (reboot s).
Proof. intros [[W1 W2] U]. by split. Qed.

(** Every file of [s0] but those at [ps] is on the disk [s] under its name; there may be more. *)
Record survives (ps : list Path) (s0 s : FsState) : Prop := mkSurvives {
  sv_good : good s;
  sv_dirs : fs_dirs s0 ⊆ fs_dirs s;
  sv_data : forall p x, p ∉ ps -> path_data s0 p = Some x -> path_data s p = Some x
}.

Lemma survives_mono ps ps' s0 s : ps ⊆ ps' -> survives ps s0 s -> survives ps' s0 s.
Proof. intros Hps []. split; try done. intros p x Hp. by eauto. Qed.

Lemma touches_survives s s' : touches [] s s' -> survives [] s s'.
Proof. intros Ht. split; [apply Ht|apply Ht|]. intros p x _. by rewrite (touches_data _ _ _ Ht) by apply not_elem_of_nil. Qed.

Section restart.
Context `{PlatformOk}.

(** The records of the table with an id. *)
Definition recs_of (T : Tables) (d : DbInner) (id : N) : list Rec :=
  from_option (fun e => table_recs T e.2) [] (list_find (fun t => t_id t = id) (db_sstables d)).

Lemma recs_of_id T d w t : db_ok T d w -> t ∈ db_sstables d -> recs_of T d (t_id t) = table_recs T t.
Proof.
  intros Hok Ht. unfold recs_of. destruct (list_find (fun u => t_id u = t_id t) (db_sstables d)) as [[i u]|] eqn:E.
  - apply list_find_Some in E as (Eu & Eid & _). cbn. f_equal.
    pose proof (ids_NoDup _ (dk_ids _ _ _ Hok)) as Hn. apply list_elem_of_lookup in Ht as [j Ej].
    assert (i = j) as ->; [|congruence].
    eapply (NoDup_lookup _ i j (t_id u) Hn); rewrite list_lookup_fmap; [by rewrite Eu|rewrite Ej; cbn; by rewrite Eid].
  - apply list_find_None in E. rewrite Forall_forall in E. by destruct (E t Ht).
Qed.

(** The bytes of a live table. *)
Lemma table_of_id T d w id :
  db_ok T d w -> id ∈ t_id <$> db_sstables d ->
  table_records (recs_of T d id) /\
  exists b, path_data (w_fs w) (sst_path (db_dir d) id) = Some b /\ table_bytes (recs_of T d id) b.
Proof.
  intros Hok (u & -> & Hu)%list_elem_of_fmap. rewrite (recs_of_id T d w) by done.
  pose proof (dk_table _ _ _ Hok u Hu) as Hlive. pose proof (table_recs_live _ _ _ _ Hlive) as E.
  destruct Hlive as (l & b & E' & _ & _ & Hb & Htb). rewrite E in E'. injection E' as <-.
  destruct (wo_table _ _ (dk_world _ _ _ Hok) _ _ _ E) as [_ [_ Hrec _ _]]. eauto.
Qed.

Lemma layers_of_ids T d w :
  db_ok T d w -> table_recs T <$> reverse (db_sstables d) = recs_of T d <$> reverse (t_id <$> db_sstables d).
Proof.
  intros Hok. rewrite <- fmap_reverse, <- list_fmap_compose. apply list_fmap_ext. intros i u Hu. cbn. symmetry.
  apply (recs_of_id T d w); [done|]. rewrite <- elem_of_reverse. by eapply list_elem_of_lookup_2.
Qed.

(** A directory whose contents make up the layers of [d'], opened by a new process. *)
Lemma wp_reopen hist T d' dir opts s g edits recs batches t :
  let st := apply_edits state_default edits in
  quiet s -> fs_locks s = ∅ -> manifest_file dir g edits s -> contents dir st recs batches t s ->
  history_ok hist T d' -> layers T d' = content_layers st recs batches ->
  st_next_seq st <= db_next_seq d' -> (forall r, r ∈ concat batches -> r_seq r < db_next_seq d') ->
  wp (db_open dir opts) (mkWorld s ∅ 0) (fun o w' => quiet (w_fs w') /\
    exists d1 T1, o = Ok d1 /\ serving (concat (layers T d')) T1 (d1, w') /\ (t = [] -> log_ok d1 w') /\
      db_dir d1 = dir /\ db_opts d1 = opts /\ db_snapshots d1 = [] /\ m_generation (db_manifest d1) = g + 1 /\
      db_next_sst_id d1 = st_next_sst_id st /\ db_next_seq d1 <= db_next_seq d').
Proof.
  intros st Hq Hl Hmf Hct Hh EL' Hns Hlog.
  apply (wp_db_open_with dir opts _ _ recs batches t st (g + 1)); [done|done|exact Hct|right; eauto|].
  intros d1 m1 w1 Hq1 Hg1 (T1 & Hok1 & EL & Hlog1 & Ed & Eo & Es & Em & Ei & Hlt1 & Hub).
  split; [done|]. exists d1, T1. rewrite <- EL' in EL.
  split; [done|]. split_and!; try done; [split; [done|]|congruence|by apply Hub].
  cbn [fst]. destruct Hh. rewrite EL in Hlt1. split; rewrite ?EL, ?Es; try done; [| |constructor].
  - apply Forall_forall. intros r Hr%ho_sub. rewrite Forall_forall in ho_wf. by apply ho_wf.
  - by apply Forall_forall.
Qed.

(** What another process finds in the directory of an engine.  The log may hold other
    batches than the engine's MemTable does. *)
Lemma restart_contents T d w batches t s :
  db_ok T d w -> m_generation (db_manifest d) < U64_MAX -> survives [join (db_dir d) WAL_FILENAME] (w_fs w) s ->
  log_file (db_dir d) batches t s ->
  (forall r, r ∈ concat batches -> r_seq r < U64_MAX) ->
  exists edits, let st := apply_edits state_default edits in
    manifest_file (db_dir d) (m_generation (db_manifest d)) edits s /\ contents (db_dir d) st (recs_of T d) batches t s /\
    live_tables st = t_id <$> db_sstables d /\ st_next_sst_id st = db_next_sst_id d /\ st_next_seq st <= db_next_seq d.
Proof.
  intros Hok Hgen [Hgood Hdirs Hdata] Hlf Hlog. pose proof Hok as []. set (dir := db_dir d) in *.
  destruct dk_manifest as (edits & Hm & Hne & Hids & Hni & Hns & Hsq). exists edits.
  set (st := apply_edits state_default edits) in *. split_and!; try done.
  - destruct Hm. unfold manifest_file. split_and!; try done; [by apply Hdata; [paths|]|].
    exists []. split; [apply torn_nil|]. rewrite app_nil_r. by apply Hdata; [paths|].
  - assert (forall id, id ∈ live_tables st -> exists u, u ∈ db_sstables d /\ id = t_id u) as Hin.
    { intros id. rewrite Hids. intros (u & -> & Hu)%list_elem_of_fmap. eauto. }
    split; try done.
    + by apply Hdirs.
    + apply apply_edits_ok; [apply state_default_ok|apply Hm].
    + intros id (u & Hu & ->)%Hin. rewrite Hni. by apply dk_next_id.
    + intros id Hid. rewrite Hids in Hid. destruct (table_of_id T d w id Hok Hid) as (Hrec & b & Hb & Htb).
      split; [done|]. exists b. split; [by apply Hdata; [paths|]|done].
    + intros id r (u & Hu & ->)%Hin Hr. rewrite (recs_of_id T d w) in Hr by done. by eapply Hsq.
Qed.

(** An engine's directory, opened by another process, when the log's batches are the
    MemTable of [d']. *)
Lemma wp_restart hist T d w d' batches t opts s :
  db_ok T d w -> m_generation (db_manifest d) < U64_MAX -> survives [join (db_dir d) WAL_FILENAME] (w_fs w) s ->
  quiet s -> fs_locks s = ∅ -> log_file (db_dir d) batches t s ->
  history_ok hist T d' -> db_frozen d' = None -> db_sstables d' = db_sstables d ->
  db_next_seq d <= db_next_seq d' <= U64_MAX ->
  mt_map (db_active d') = mt_map (mt_insert_all (concat batches) (mt_new 0)) ->
  wp (db_open (db_dir d) opts) (mkWorld s ∅ 0) (fun o w' => quiet (w_fs w') /\
    exists d1 T1, o = Ok d1 /\ serving (concat (layers T d')) T1 (d1, w') /\ (t = [] -> log_ok d1 w') /\
      db_dir d1 = db_dir d /\ db_opts d1 = opts /\ db_snapshots d1 = [] /\
      m_generation (db_manifest d1) = m_generation (db_manifest d) + 1 /\
      db_next_sst_id d1 = db_next_sst_id d /\ db_next_seq d1 <= db_next_seq d').
Proof.
  intros Hok Hgen Hsv Hquiet Hlk Hlf Hh Hf Et Hseq Hact.
  assert (forall r, r ∈ concat (layers T d') -> r_seq r < db_next_seq d') as Hlt.
  { intros r Hr%(ho_sub _ _ _ Hh). pose proof (ho_seq _ _ _ Hh) as Hq. rewrite Forall_forall in Hq. by apply Hq. }
  assert (Forall wf_rec (concat batches)) as Hwf.
  { destruct Hlf as (Hb & _). clear -Hb. induction Hb as [|b bs (_ & Hb & _) _ IH]; [constructor|]. cbn. by apply Forall_app. }
  assert (forall r, r ∈ concat batches -> r_seq r < db_next_seq d') as Hlog.
  { intros r Hr.
    assert (version r ∈ version <$> mt_map (db_active d')) as Hv.
    { rewrite Hact. apply mt_insert_all_versions; [apply mt_new_ok|eapply Forall_impl; [exact Hwf|]; by intros x (? & _)|by left]. }
    apply list_elem_of_fmap in Hv as (y & E & Hy). apply (f_equal snd) in E. cbn in E. rewrite E. apply Hlt.
    rewrite layers_thawed by done. cbn [concat]. apply elem_of_app. by left. }
  destruct (restart_contents T d w batches t s Hok Hgen Hsv Hlf) as (edits & Hmf & Hct & Hids & Hni & Hns).
  { intros r Hr. specialize (Hlog r Hr). lia. }
  assert (layers T d' = content_layers (apply_edits state_default edits) (recs_of T d) batches) as EL.
  { rewrite layers_thawed, Et by done. unfold content_layers, mt_iter. rewrite Hact, Hids. f_equal. by apply layers_of_ids with w. }
  rewrite <- Hni. eapply wp_reopen; try done. lia.
Qed.

(** ** Clean restarts *)

(** A new process on the files that the last one left. *)
Definition process (s : FsState) : World := mkWorld (reboot s) ∅ 0.

Lemma process_survives T d w : db_ok T d w -> survives [] (w_fs w) (reboot (w_fs w)).
Proof. intros Hok. apply touches_survives, reboot_touches, (dk_world _ _ _ Hok). Qed.

(** The log is there, and another process finds it. *)
Lemma log_ok_data T d w :
  db_ok T d w -> log_ok d w -> exists batches, Forall (wf_batch true) batches /\
    path_data (w_fs w) (join (db_dir d) WAL_FILENAME) = Some (wal_image WAL_VERSION batches) /\
    db_active d = mt_insert_all (concat batches) (mt_new (o_memtable_threshold (db_opts d))).
Proof. intros Hok (batches & Hwh & Hwf & E). exists batches. split_and!; [done|by eapply wal_holds_data|done]. Qed.

Lemma log_ok_file T d w s :
  db_ok T d w -> log_ok d w -> survives [] (w_fs w) s -> exists batches, log_file (db_dir d) batches [] s /\
    db_active d = mt_insert_all (concat batches) (mt_new (o_memtable_threshold (db_opts d))).
Proof.
  intros Hok Hlog Hsv. destruct (log_ok_data T d w Hok Hlog) as (batches & Hwf & Hd & E). exists batches. split; [|done].
  split_and!; [done|apply no_frame_nil|]. left. rewrite app_nil_r. by apply Hsv; [apply not_elem_of_nil|].
Qed.

(** What a restarted engine represents. *)
Lemma serving_represents hist T d' T1 d1 w' m room :
  history_ok hist T d' -> serving (concat (layers T d')) T1 (d1, w') -> db_snapshots d1 = [] ->
  db_next_seq d' <= U64_MAX -> tracks hist U64_MAX m ->
  sum_encoded hist + room <= SIZE_LIMIT -> db_next_seq d1 + room <= U64_MAX ->
  db_next_sst_id d1 + room <= U64_MAX -> m_generation (db_manifest d1) + room <= U64_MAX ->
  2 <= o_compaction_threshold (db_opts d1) ->
  represents room (mkKV m []) [] (d1, w').
Proof.
  intros Hh Hs Es Hmax Hm Hsz Hseq Hid Hg Hth. exists (concat (layers T d')), T1. unfold represents_by. cbn [fst kv_map kv_snaps]. rewrite Es.
  split; [done|]. assert (pins [] []) as Hpin by (split_and!; [constructor|constructor|done]).
  split; [|split; [apply Forall2_nil_2|split; [exact Hpin|split_and!; try done]]].
  - intros key. rewrite Hm. symmetry. apply (ho_reads _ _ _ Hh). by right.
  - etrans; [|exact Hsz]. apply N.add_le_mono_r, sum_encoded_subset; [|apply (ho_sub _ _ _ Hh)].
    eapply NoDup_fmap_1, (ho_unique _ _ _ Hh).
Qed.

(** A process on a disk that has kept the files. *)
Lemma survivor_represents room sp hs d w s opts :
  represents room sp hs (d, w) -> log_ok d w -> 1 <= room -> 2 <= o_compaction_threshold opts ->
  survives [] (w_fs w) s -> quiet s -> fs_locks s = ∅ ->
  wp (db_open (db_dir d) opts) (mkWorld s ∅ 0) (fun o w' => quiet (w_fs w') /\
    exists d1, o = Ok d1 /\ represents (room - 1) (mkKV (kv_map sp) []) [] (d1, w') /\ log_ok d1 w' /\
      db_dir d1 = db_dir d /\ db_opts d1 = opts).
Proof.
  intros (hist & T & [Hok Hh] & Hm & Hsn & Hp & Hsz & Hseq & Hid & Hgn & Hth) Hlog Hroom Hopts Hsv Hq Hlk.
  cbn [fst snd] in *. destruct (log_ok_file T d w s Hok Hlog Hsv) as (batches & Hlf & Eact).
  eapply wp_mono; [apply (wp_restart hist T d w d batches [] opts s); [done|lia|by eapply survives_mono; [apply list_subseteq_nil|]|done|done|done|done|apply Hok|done|lia|]|].
  { rewrite Eact. by apply mt_insert_all_map. }
  intros o w' (Hq' & d1 & T1 & -> & Hs1 & Hl1 & Ed & Eo & Es & Eg & Ei & En). split; [done|].
  exists d1. split_and!; auto. eapply (serving_represents hist T d T1); try done; [lia..|by rewrite Eo].
Qed.

Lemma restart_represents room sp hs s opts :
  represents room sp hs s -> log_ok s.1 s.2 -> 1 <= room -> 2 <= o_compaction_threshold opts ->
  wp (db_open (db_dir s.1) opts) (process (w_fs s.2)) (fun o w' => quiet (w_fs w') /\
    exists d1, o = Ok d1 /\ represents (room - 1) (mkKV (kv_map sp) []) [] (d1, w') /\ log_ok d1 w' /\
      db_dir d1 = db_dir s.1 /\ db_opts d1 = opts).
Proof.
  destruct s as [d w]. intros Hr Hl Hroom Ho. pose proof Hr as (hist & T & [Hok _] & _).
  eapply survivor_represents; try done. by eapply process_survives.
Qed.

(** ** A write that is interrupted *)

(** A tail at which replay stops, or the whole frame of [recs]. *)
Definition whole_or_none (recs : list Rec) (y : bytes) : Prop :=
  no_frame (wal_checksum (Versioned WAL_VERSION)) y \/ y = frame (wal_checksum (Versioned WAL_VERSION)) true recs.

Lemma frame_prefix_cases recs x :
  wf_batch true recs -> x `prefix_of` frame (wal_checksum (Versioned WAL_VERSION)) true recs -> whole_or_none recs x.
Proof.
  intros Hb [[|z y] Hy]; [right; by rewrite app_nil_r in Hy|left].
  assert (x = take (length x) (frame (wal_checksum (Versioned WAL_VERSION)) true recs)) as ->
    by (by rewrite Hy, take_app_length).
  apply torn_no_frame, frame_prefix_torn; [apply Hb|]. unfold frame in Hy. rewrite Hy, length_app. simpl. lia.
Qed.

Lemma whole_or_none_log batches recs y :
  whole_or_none recs y -> exists kept t, (kept = [] \/ kept = [recs]) /\ no_frame (wal_checksum (Versioned WAL_VERSION)) t /\
    wal_image WAL_VERSION batches ++ y = wal_image WAL_VERSION (batches ++ kept) ++ t.
Proof.
  intros [Hy| ->].
  - exists [], y. rewrite app_nil_r. auto.
  - exists [recs], []. rewrite wal_image_snoc, app_nil_r. split_and!; [by right|apply no_frame_nil|done].
Qed.

(** The disk of an engine that was writing a batch, when the log kept the batches before it
    and after them its whole frame or no frame: the batch is there or it is not. *)
Lemma partial_restart room sp hs hist T d w ops d' w' batches y opts s :
  represents_by hist T room sp hs (d, w) -> 2 + writes_size ops <= room -> 2 <= o_compaction_threshold opts ->
  serving hist T (d', w') -> same_config d d' -> db_sstables d' = db_sstables d -> db_next_sst_id d' = db_next_sst_id d ->
  db_active d' = db_active d -> db_next_seq d' = db_next_seq d + len ops ->
  let recs := numbered (db_next_seq d) ops in
  Forall (wf_batch true) batches -> wf_batch true recs ->
  db_active d = mt_insert_all (concat batches) (mt_new (o_memtable_threshold (db_opts d))) ->
  whole_or_none recs y ->
  survives [join (db_dir d') WAL_FILENAME] (w_fs w') s -> quiet s -> fs_locks s = ∅ ->
  path_data s (join (db_dir d') WAL_FILENAME) = Some (wal_image WAL_VERSION batches ++ y) ->
  wp (db_open (db_dir d') opts) (mkWorld s ∅ 0) (fun o' w1 => quiet (w_fs w1) /\
    exists d1 m, o' = Ok d1 /\ (m = foldl kv_write (kv_map sp) ops \/ m = kv_map sp) /\
      represents (room - (2 + writes_size ops)) (mkKV m []) [] (d1, w1)).
Proof.
  intros Hr Hc Hopts [Hok Hh] (Ed & Eo & Es & Eg) Et Hi Ea Hn recs Hbs Hwb Eact Hy Hsv Hq Hk Hd. cbn [fst snd] in *.
  assert (1 + writes_size ops <= room) as Hc1 by lia.
  destruct (represents_fits _ _ _ _ _ _ _ Hr Hc1) as (Hwf & Hseq & Hsz). cbn [fst] in *.
  destruct Hr as ([Hok0 Hh0] & Hm0 & _ & _ & Hsz0 & Hseq0 & Hid0 & Hgn0 & _). cbn [fst snd] in *.
  destruct (whole_or_none_log batches _ y Hy) as (kept & t & Hkept & Htt & Eimg). rewrite Eimg in Hd.
  assert (log_file (db_dir d') (batches ++ kept) t s) as Hlf.
  { split_and!; [|done|by left]. apply Forall_app. split; [done|]. destruct Hkept as [-> | ->]; [constructor|by apply Forall_singleton]. }
  assert (len recs = len ops) as Hlr by (unfold recs; by rewrite length_numbered).
  set (d2 := set_db_active (mt_insert_all (concat kept) (db_active d')) d').
  assert (mt_map (db_active d2) = mt_map (mt_insert_all (concat (batches ++ kept)) (mt_new 0))) as Hact.
  { unfold d2. cbn [set_db_active db_active]. rewrite Ea, Eact. unfold mt_insert_all. rewrite concat_app, foldl_app.
    apply mt_insert_all_map. by apply mt_insert_all_map. }
  assert (exists hist2 m, history_ok hist2 T d2 /\ tracks hist2 U64_MAX m /\ (m = foldl kv_write (kv_map sp) ops \/ m = kv_map sp) /\
    sum_encoded hist2 + (room - (2 + writes_size ops)) <= SIZE_LIMIT) as (hist2 & m & Hh2 & Hm2 & Hm & Hsz2).
  { destruct Hkept as [-> | ->].
    - exists hist, (kv_map sp). split; [by destruct d', Hh|]. split_and!; [done|by right|lia].
    - exists (hist ++ recs), (foldl kv_write (kv_map sp) ops).
      pose proof (ho_seq _ _ _ Hh0) as Hall. rewrite Forall_forall in Hall. split_and!; [| |by left|].
      + apply (history_insert hist T d d2 (db_next_seq d) ops); try done; [apply Hok0|apply Hok|cbn; lia..|].
        unfold d2. cbn [set_db_active db_active concat]. by rewrite app_nil_r, Ea.
      + apply tracks_write; [by apply Hall|lia|done].
      + rewrite sum_encoded_app. unfold recs. rewrite sum_numbered. lia. }
  eapply wp_mono; [apply (wp_restart hist2 T d' w' d2 (batches ++ kept) t opts s); [done|lia|done..|apply Hok|done|cbn; lia|done]|].
  intros o' w2 (Hq2 & d1 & T1 & -> & Hs1 & _ & Ed1 & Eo1 & Es1 & Eg1 & Ei1 & En1). split; [done|]. exists d1, m. split_and!; [done..|].
  pose proof (writes_size_len ops). eapply (serving_represents hist2 T d2 T1); try done; [cbn; lia|cbn in En1; lia..|by rewrite Eo1].
Qed.

(** Whatever happens to a batch while it is written, after a restart it is there
    as a whole or not at all, and it is there if it was acknowledged. *)
Lemma write_restart room sp hs s ops opts :
  represents room sp hs s -> log_ok s.1 s.2 -> 2 + writes_size ops <= room -> 2 <= o_compaction_threshold opts ->
  wp (db_write_batch ops) s (fun o s' =>
    wp (db_open (db_dir s.1) opts) (process (w_fs s'.2)) (fun o' w' => quiet (w_fs w') /\
      exists d1, o' = Ok d1 /\
        (represents (room - (2 + writes_size ops)) (mkKV (foldl kv_write (kv_map sp) ops) []) [] (d1, w') \/
         o <> Ok tt /\ represents (room - (2 + writes_size ops)) (mkKV (kv_map sp) []) [] (d1, w')))).
Proof.
  destruct s as [d w]. intros (hist & T & Hr) Hlog Hc Hopts. cbn [fst snd] in *.
  assert (1 + writes_size ops <= room) as Hc1 by lia.
  destruct (represents_fits _ _ _ _ _ _ _ Hr Hc1) as (Hwf & Hseq & Hsz). cbn [fst] in *.
  eapply wp_mono; [apply (wp_db_write_batch hist T d w ops); [apply Hr|done..]|].
  intros o [d' w'] Hpost. pose proof (write_represents _ _ _ _ _ _ _ _ _ Hr Hc1 Hpost) as Hrep.
  destruct Hpost as (Hcfg & Et & Hi & Hn & Hq & _ & Ho). pose proof Hcfg as (Ed & _). cbn [fst snd] in *. rewrite <- Ed.
  destruct o as [[]|e|]; [| |done].
  - destruct Hrep as [Hrep Hk].
    eapply wp_mono; [apply (restart_represents (room - (1 + writes_size ops)) (kv_update ops sp) hs (d', w') opts); [by eexists _, _|by apply Ho|lia|done]|].
    intros o' w2 (Hq2 & d1 & -> & Hr1 & _). split; [done|]. exists d1. split; [done|]. left.
    eapply represents_room; [|exact Hr1]. lia.
  - destruct Ho as (_ & Hs & Ea & Hpart). destruct (Hpart Hlog) as (batches & x & Hbs & Hwb & Eact & Hx & _ & Hd). rewrite <- Ed in Hd.
    pose proof Hs as [Hok _]. pose proof (process_survives T d' w' Hok) as Hsv. rewrite length_numbered in Hn.
    eapply wp_mono; [apply (partial_restart room sp hs hist T d w ops d' w' batches x opts (reboot (w_fs w'))); try done|].
    + by apply frame_prefix_cases.
    + eapply survives_mono; [apply list_subseteq_nil|done].
    + intros o' w2 (Hq2 & d1 & m & -> & Hm & Hr1). split; [done|]. exists d1. split; [done|].
      destruct Hm as [-> | ->]; [by left|by right].
Qed.

(** ** The first open *)

Lemma first_open dir opts s :
  good s -> fresh_dir dir (reboot s) -> 2 <= o_compaction_threshold opts ->
  wp (db_open dir opts) (process s) (fun o w' => quiet (w_fs w') /\
    exists d1, o = Ok d1 /\ represents SIZE_LIMIT (mkKV ∅ []) [] (d1, w') /\ log_ok d1 w' /\
      db_dir d1 = dir /\ db_opts d1 = opts).
Proof.
  intros Hg Hf Hopts. pose proof (reboot_touches s Hg) as Ht.
  assert (contents dir state_default (fun _ => []) [] [] (reboot s)) as Hct.
  { split; try done; try (intros id Hid; by apply elem_of_nil in Hid).
    - exact (proj1 Hf).
    - apply state_default_ok.
    - intros id r Hid. by apply elem_of_nil in Hid.
    - split_and!; [constructor|apply no_frame_nil|]. right. split_and!; try done. apply Hf. }
  apply (wp_db_open_with dir opts _ _ (fun _ => []) [] [] state_default 0); [done|done|exact Hct|by left|].
  intros d1 m1 w1 Hq1 Hg1 (T1 & Hok1 & EL & Hlog1 & Ed & Eo & Es & Em & Ei & Hlt1 & Hub).
  split; [done|]. exists d1. split; [done|]. split; [|split_and!; auto].
  assert (db_next_seq d1 = 0) as En.
  { assert (db_next_seq d1 <= 0); [|lia]. apply Hub; [done|]. intros r Hr. by apply elem_of_nil in Hr. }
  assert (pins [] []) as Hpin by (split_and!; [constructor|constructor|done]).
  exists [], T1. unfold represents_by. cbn [fst kv_map kv_snaps]. rewrite Es, Ei, En, Em, Hg1, Eo.
  split; [|split; [by intros key; rewrite lookup_empty|split; [apply Forall2_nil_2|by split_and!]]].
  split; [done|]. cbn [fst]. split; rewrite ?EL, ?Es; try done; try apply Forall_nil_2; try apply NoDup_nil_2.
  - split; [intros a b Ha; by apply elem_of_nil in Ha|done].
  - constructor.
Qed.

(** ** Lives of a store *)

(** One process after the other opens the directory and serves a client; each ends
    without notice after its last operation. *)
Fixpoint lives (dir : string) (opts : Options) (s : FsState) (runs : list (list Op))
    : outcome (list (list (Reply + Error))) :=
  match runs with
  | [] => Ok []
  | ops :: runs =>
      match db_open dir opts (process s) with
      | (Ok d, w) =>
          match session [] ops (d, w) with
          | (Ok rs, (_, w')) => rest ← lives dir opts (w_fs w') runs; Ok (rs :: rest)
          | (Err e, _) => Err e
          | (Panic, _) => Panic
          end
      | (Err e, _) => Err e
      | (Panic, _) => Panic
      end
  end.

(** What the abstract store replies: a restart keeps the map and drops the snapshots. *)
Fixpoint spec_lives (m : gmap bytes bytes) (runs : list (list Op)) : list (list Reply) :=
  match runs with
  | [] => []
  | ops :: runs =>
      let '(rs, sp) := spec_session (mkKV m []) ops in rs :: spec_lives (kv_map sp) runs
  end.

Definition lives_cost (runs : list (list Op)) : N := foldr (fun ops n => 1 + session_cost ops + n) 0 runs.

(** A directory that a process can be started on. *)
Definition startable (room : N) (m : gmap bytes bytes) (dir : string) (opts : Options) (s : FsState) : Prop :=
  wp (db_open dir opts) (process s) (fun o w' => quiet (w_fs w') /\
    exists d1, o = Ok d1 /\ represents room (mkKV m []) [] (d1, w') /\ log_ok d1 w' /\
      db_dir d1 = dir /\ db_opts d1 = opts).

Lemma lives_spec room m dir opts s runs :
  startable room m dir opts s -> lives_cost runs <= room -> 2 <= o_compaction_threshold opts ->
  lives dir opts s runs = Ok (answered <$> spec_lives m runs).
Proof.
  intros Hs Hc Hopts. revert room m s Hs Hc. induction runs as [|ops runs IH]; intros room m s Hs Hc; [done|].
  cbn [lives_cost foldr] in Hc. fold (lives_cost runs) in Hc. cbn [lives spec_lives].
  unfold startable, wp in Hs. destruct (db_open dir opts (process s)) as [o w]. cbn [fst snd] in Hs.
  destruct Hs as (Hq & d & -> & Hr & Hlog & Ed & Eo).
  pose proof (session_quiet room (mkKV m []) [] ops (d, w) Hr ltac:(lia) Hq) as Hses. unfold wp in Hses.
  destruct (session [] ops (d, w)) as [o [d' w']]. cbn [fst snd] in Hses.
  destruct Hses as (-> & Hk & hs' & Hr').
  destruct (spec_session (mkKV m []) ops) as [rs sp]. cbn [fst snd] in Hr'.
  assert (db_dir d' = dir) as Ed' by (destruct Hk as (_ & _ & E); cbn in E; congruence).
  rewrite (IH (room - session_cost ops - 1) (kv_map sp)).
  - obind. by rewrite fmap_cons.
  - unfold startable. rewrite <- Ed'.
    eapply wp_mono; [apply (restart_represents _ sp hs' (d', w') opts Hr'); [by apply Hk|lia|done]|].
    intros o w2 (Hq2 & d1 & -> & Hr1 & Hl1 & Ed1 & Eo1). split; [done|]. by exists d1.
  - lia.
Qed.
End restart.
