(* ===== verification/Syncing.v ===== *)
(** * What has reached the disk

    A file's bytes survive a loss of power once they were synced, a name once its
    directory was.  [tidy] says which files and names are still open, and every
    operation that returns [Ok] leaves none: a write syncs the log, a flush and a
    compaction sync what they write and rename before they go on. *)
From Stdlib Require Import NArith Lia.
From stdpp Require Import base numbers list strings gmap.
From S2P Require Import Prelude Errors FileNames Platform State FileSystem Store Records Versions MemTable.
From S2P Require Import Headers Frames WriteAheadLog Manifest SsTables Merging Compaction Engine Sessions.

Local Open Scope N_scope.

(** ** Programs that return

    [oks P m Q]: from a state of [P], if [m] returns [Ok a] it ends in a state of
    [Q a].  [frames R m]: whatever [m] returns, it goes from a state to one that [R]
    relates to it. *)
Definition oks {S A} (P : S -> Prop) (m : ST S A) (Q : A -> S -> Prop) : Prop :=
  forall s a s', P s -> m s = (Ok a, s') -> Q a s'.
Definition frames {S A} (R : S -> S -> Prop) (m : ST S A) : Prop := forall s, R s (m s).2.

Section oks.
Context {S : Type}.
Implicit Types P : S -> Prop.

Lemma oks_ret {A} (a : A) P (Q : A -> S -> Prop) : (forall s, P s -> Q a s) -> oks P (mret a) Q.
Proof. intros Hq s b s' Hp [= <- <-]. auto. Qed.

Lemma oks_bind {A B} (m : ST S A) (f : A -> ST S B) P R (Q : B -> S -> Prop) :
  oks P m R -> (forall a, oks (R a) (f a) Q) -> oks P (m ≫= f) Q.
Proof. intros Hm Hf s b s' Hp (a & s1 & E1 & E2)%bind_run_inv. by eapply Hf, E2; eapply Hm. Qed.

Lemma oks_mono {A} (m : ST S A) P P' (Q Q' : A -> S -> Prop) :
  oks P m Q -> (forall s, P' s -> P s) -> (forall a s, Q a s -> Q' a s) -> oks P' m Q'.
Proof. intros Hm Hp Hq s a s' Hs E. by eapply Hq, Hm, E; auto. Qed.

Lemma oks_gets {A} (f : S -> A) P : oks P (gets f) (fun a s => P s /\ a = f s).
Proof. by intros s a s' Hp [= <- <-]. Qed.

(** A part of the state is read, of which [P] says [good]. *)
Lemma oks_read {A B} (f : S -> A) (k : A -> ST S B) (good : A -> Prop) P (Q : B -> S -> Prop) :
  (forall s, P s -> good (f s)) -> (forall a, good a -> oks P (k a) Q) -> oks P (gets f ≫= k) Q.
Proof. intros Hg Hk s b s' Hp E. rewrite bind_gets in E. by eapply Hk, E; [apply Hg|]. Qed.

Lemma oks_modify (f : S -> S) P (Q : unit -> S -> Prop) : (forall s, P s -> Q tt (f s)) -> oks P (modify f) Q.
Proof. intros Hq s a s' Hp [= <- <-]. auto. Qed.

Lemma oks_lift {A} (o : outcome A) P : oks P (lift o) (fun _ => P).
Proof. by intros s a s' Hp [= -> <-]. Qed.

Lemma oks_fail {A} e P (Q : A -> S -> Prop) : oks P (fail e) Q.
Proof. intros s a s' _ E. discriminate E. Qed.

Lemma oks_panic {A} P (Q : A -> S -> Prop) : oks P (lift Panic) Q.
Proof. intros s a s' _ E. discriminate E. Qed.

Lemma oks_for_each {A} (l : list A) (f : A -> ST S unit) P :
  (forall x, x ∈ l -> oks P (f x) (fun _ => P)) -> oks P (for_each l f) (fun _ => P).
Proof.
  induction l as [|x l IH]; intros Hf; cbn [for_each]; [by apply oks_ret|].
  eapply oks_bind; [apply Hf; by left|]. intros []. apply IH. intros y Hy. apply Hf. by right.
Qed.

Lemma oks_map_each {A B} (l : list A) (f : A -> ST S B) P :
  (forall x, oks P (f x) (fun _ => P)) -> oks P (map_each l f) (fun _ => P).
Proof.
  intros Hf. induction l as [|x l IH]; cbn [map_each]; [by apply oks_ret|].
  eapply oks_bind; [apply Hf|]. intros y. eapply oks_bind; [apply IH|]. intros ys. by apply oks_ret.
Qed.

Lemma oks_zoom {T A} (view : S -> T) (update : T -> S -> S) (m : ST T A) P (PT : S -> T -> Prop) (Q : A -> S -> Prop) :
  (forall s, P s -> PT s (view s)) -> (forall s0, P s0 -> oks (PT s0) m (fun a t => Q a (update t s0))) ->
  oks P (zoom view update m) Q.
Proof.
  intros Hv Hm s a s' Hp. unfold zoom. destruct (m (view s)) as [o t] eqn:E. intros [= -> <-]. by eapply Hm, E; auto.
Qed.

Context (R : S -> S -> Prop) `{!PreOrder R}.

Lemma frames_ret {A} (a : A) : frames R (mret a).
Proof. intros s. cbn. reflexivity. Qed.
Lemma frames_gets {A} (f : S -> A) : frames R (gets f).
Proof. intros s. cbn. reflexivity. Qed.
Lemma frames_lift {A} (o : outcome A) : frames R (lift o).
Proof. intros s. cbn. reflexivity. Qed.
Lemma frames_fail {A} e : frames R (fail e : ST S A).
Proof. intros s. cbn. reflexivity. Qed.
Lemma frames_modify (f : S -> S) : (forall s, R s (f s)) -> frames R (modify f).
Proof. intros Hf s. apply Hf. Qed.

Lemma frames_bind {A B} (m : ST S A) (f : A -> ST S B) :
  frames R m -> (forall a, frames R (f a)) -> frames R (m ≫= f).
Proof.
  intros Hm Hf s. unfold mbind, ST_bind. specialize (Hm s). destruct (m s) as [[a|e|] s1]; [|done..].
  etrans; [exact Hm|apply Hf].
Qed.

Lemma frames_attempt {A} (m : ST S A) : frames R m -> frames R (attempt m).
Proof. intros Hm s. unfold attempt. specialize (Hm s). by destruct (m s) as [[a|e|] s1]. Qed.

Lemma frames_map_each {A B} (l : list A) (f : A -> ST S B) : (forall x, frames R (f x)) -> frames R (map_each l f).
Proof.
  intros Hf. induction l as [|x l IH]; cbn [map_each]; [apply frames_ret|].
  apply frames_bind; [done|]. intros y. apply frames_bind; [done|]. intros ys. apply frames_ret.
Qed.

Lemma frames_zoom {T A} (RT : T -> T -> Prop) (view : S -> T) (update : T -> S -> S) (m : ST T A) :
  (forall s t, RT (view s) t -> R s (update t s)) -> frames RT m -> frames R (zoom view update m).
Proof. intros Hr Hm s. unfold zoom. specialize (Hm (view s)). destruct (m (view s)) as [o t]. by apply Hr. Qed.

Lemma oks_frames {A} (m : ST S A) P : (forall s s', R s s' -> P s -> P s') -> frames R m -> oks P m (fun _ => P).
Proof. intros Hp Hm s a s' Hs E. specialize (Hm s). rewrite E in Hm. by eapply Hp. Qed.
End oks.

Create HintDb frames discriminated.
#[export] Hint Resolve frames_ret frames_gets frames_lift frames_fail frames_bind frames_attempt frames_map_each : frames.

(** A program is read off its text. *)
Ltac framing :=
  repeat first
    [ match goal with |- forall _, _ => intros ? end
    | progress cbn beta iota
    | match goal with |- frames _ (match ?x with _ => _ end) => destruct x end
    | match goal with |- frames _ (let '_ := ?x in _) => destruct x end
    | solve [eauto with frames typeclass_instances]
    | apply frames_bind; [typeclasses eauto| |]
    | apply frames_attempt
    | apply frames_map_each; [typeclasses eauto|] ].

(** ** Files *)

(** The files are the same; locks, directories and what is left of the faults may differ. *)
Definition same_files (s s' : FsState) : Prop :=
  fs_inodes s = fs_inodes s' /\ fs_names s = fs_names s' /\ fs_durable s = fs_durable s' /\ fs_next s = fs_next s'.

#[export] Instance same_files_preorder : PreOrder same_files.
Proof.
  split; unfold same_files; [done|]. intros s t u (? & ? & ? & ?) (? & ? & ? & ?). split_and!; by etrans.
Qed.

Definition same_files_w (w w' : World) : Prop := same_files (w_fs w) (w_fs w').

#[export] Instance same_files_w_preorder : PreOrder same_files_w.
Proof. split; unfold same_files_w; [by intros w|]. intros w w' w'' ? ?. by etrans. Qed.

(** What a table is read with. *)
Lemma frames_with_fault {A} (body : option Fault -> FsM A) :
  (forall f, frames same_files (body f)) -> frames same_files (with_fault body).
Proof.
  intros Hb s. unfold with_fault. destruct (fs_dead s); [by apply same_files_preorder|]. destruct (fs_faults s) as [|f r]; [apply Hb|].
  etrans; [|apply (Hb f)]. done.
Qed.

Lemma frames_crash {A} : frames same_files (crash : FsM A).
Proof. by intros s. Qed.
#[export] Hint Resolve frames_with_fault frames_crash : frames.

Lemma frames_guarded {A} (op : FsM A) : frames same_files op -> frames same_files (guarded op).
Proof. intros Hop. apply frames_with_fault. intros [[]|]; try done; framing. Qed.

Lemma frames_open_read p : frames same_files (open p Read).
Proof. apply frames_guarded. intros s. cbn. by destruct (fs_names s !! p). Qed.
Lemma frames_read_at h off n : frames same_files (read_at h off n).
Proof. apply frames_with_fault. framing. Qed.
Lemma frames_file_size h : frames same_files (file_size h).
Proof. apply frames_guarded. framing. Qed.
Lemma frames_path_size p : frames same_files (path_size p).
Proof. apply frames_guarded. intros s. by destruct (path_data s p). Qed.
Lemma frames_list_dir `{Platform} dir : frames same_files (list_dir dir).
Proof. apply frames_guarded. intros s. by case_bool_decide. Qed.
Lemma frames_create_dir dir : frames same_files (create_dir_all dir).
Proof. apply frames_guarded. by apply frames_modify. Qed.
#[export] Hint Resolve frames_open_read frames_read_at frames_file_size frames_path_size frames_list_dir frames_create_dir : frames.

Lemma frames_read_exact_loop fuel h off done n : frames same_files (read_exact_loop fuel h off done n).
Proof. revert done. induction fuel as [|fuel IH]; intros l; cbn [read_exact_loop]; framing. Qed.
#[export] Hint Resolve frames_read_exact_loop : frames.
Lemma frames_read_exact h off n : frames same_files (read_exact_at h off n).
Proof. unfold read_exact_at. framing. Qed.
#[export] Hint Resolve frames_read_exact : frames.
Lemma frames_read_all h : frames same_files (read_all h).
Proof. unfold read_all. framing. Qed.
Lemma frames_exists p : frames same_files (exists_path p).
Proof. unfold exists_path. framing. Qed.
#[export] Hint Resolve frames_read_all frames_exists : frames.

Lemma frames_on_files {A} (m : FsM A) : frames same_files m -> frames same_files_w (on_files m).
Proof. intros Hm. eapply frames_zoom; [|exact Hm]. by intros w f Hf. Qed.
#[export] Hint Resolve frames_on_files : frames.

Section reads.
Context `{Platform}.

Lemma frames_sst_open path enabled : frames same_files_w (sst_open path enabled).
Proof.
  unfold sst_open. apply frames_bind; [typeclasses eauto|apply frames_on_files|intros [[[file index] bloom] n]; framing; by apply frames_modify].
  unfold read_table_file. framing.
Qed.
Lemma frames_load_block r off n : frames same_files_w (load_block r off n).
Proof. unfold load_block. framing. by apply frames_modify. Qed.
#[local] Hint Resolve frames_sst_open frames_load_block : frames.
Lemma frames_sst_get_at r key b : frames same_files_w (sst_get_at r key b).
Proof. unfold sst_get_at. framing. Qed.
Lemma frames_iter_all r : frames same_files_w (iter_all r).
Proof. unfold iter_all. framing. Qed.
#[local] Hint Resolve frames_sst_get_at frames_iter_all : frames.

Lemma frames_scan_loop fuel ts : frames same_files_w (scan_loop fuel ts).
Proof. revert ts. induction fuel as [|fuel IH]; intros ts; cbn [scan_loop]; framing. Qed.
#[local] Hint Resolve frames_scan_loop : frames.
Lemma frames_source_next s : frames same_files_w (source_next s).
Proof. unfold source_next, scan_next. framing. Qed.
#[local] Hint Resolve frames_source_next : frames.
Lemma frames_merge_new sources b fin : frames same_files_w (merge_new sources b fin).
Proof. unfold merge_new, peeking_new. framing. Qed.
Lemma frames_drain_loop fuel s : frames same_files_w (drain_loop fuel s).
Proof. revert s. induction fuel as [|fuel IH]; intros s; cbn [drain_loop]; framing. Qed.
#[local] Hint Resolve frames_merge_new frames_drain_loop : frames.
Lemma frames_merge_loop fuel m : frames same_files_w (merge_loop fuel m).
Proof. revert m. induction fuel as [|fuel IH]; intros m; cbn [merge_loop]; unfold drain, peeking_advance; framing. Qed.
#[local] Hint Resolve frames_merge_loop : frames.
Lemma frames_collect_loop fuel m merged limit : frames same_files_w (collect_loop fuel m merged limit).
Proof. revert m merged. induction fuel as [|fuel IH]; intros m merged; cbn [collect_loop]; unfold merge_next; framing. Qed.
#[local] Hint Resolve frames_collect_loop : frames.
Lemma frames_collect m limit : frames same_files_w (collect m limit).
Proof. unfold collect. framing. Qed.
Lemma frames_get_in_tables tables key b : frames same_files_w (get_in_tables tables key b).
Proof. induction tables as [|t tables IH]; cbn [get_in_tables]; framing. Qed.
End reads.
#[export] Hint Resolve frames_sst_open frames_iter_all frames_merge_new frames_collect frames_get_in_tables : frames.

(** ** What is not yet on the disk *)

(** Every file but [D] is synced and every name but [ps] is durable.  No table's
    temporary name or other plain name is, or was when it was last synced, the name of
    a file that has another one. *)
Record tidy (D : list N) (ps : list Path) (s : FsState) : Prop := mkTidy {
  td_good : good s;
  td_synced : forall h i, h ∉ D -> fs_inodes s !! h = Some i -> i_synced i = len (i_data i);
  td_anchored : forall p h, p ∉ ps -> fs_names s !! p = Some h -> fs_durable s !! p = Some h;
  td_durable : forall p h, fs_durable s !! p = Some h -> is_Some (fs_inodes s !! h);
  td_unaliased : forall p q h, plain p -> fs_durable s !! p = Some h -> fs_durable s !! q = Some h -> p = q;
  td_home : forall p q h, plain p \/ plain q -> fs_names s !! p = Some h -> fs_durable s !! q = Some h -> p_dir p = p_dir q
}.

Lemma tidy_same D ps s s' : same_files s s' -> tidy D ps s -> tidy D ps s'.
Proof.
  intros (Ei & En & Ed & Ex) [[[W1 W2] U]]. split; [split; [split|]|..]; rewrite <- ?Ei, <- ?En, <- ?Ed, <- ?Ex; try done.
  unfold unaliased in *. by rewrite <- En.
Qed.

Lemma tidy_mono D D' ps ps' s : D ⊆ D' -> ps ⊆ ps' -> tidy D ps s -> tidy D' ps' s.
Proof. intros HD Hp []. split; try done; [intros h i Hh|intros p h Hh]; eauto. Qed.

Lemma oks_guarded {A} (op : FsM A) D ps (Q : A -> FsState -> Prop) :
  oks (tidy D ps) op Q -> oks (tidy D ps) (guarded op) Q.
Proof.
  intros Hop s a s' Ht E. destruct (guarded_cases op s) as [(k & t & E' & _)|(f & E' & _)]; [congruence|].
  rewrite E' in E. eapply Hop, E. by apply (tidy_same _ _ s).
Qed.

(** Bytes are written. *)
Lemma tidy_write h b D ps s : h ∈ D -> tidy D ps s -> tidy D ps (write_bytes h b s).
Proof.
  intros Hh [[[W1 W2] U] Hs Ha Hd Hu Hm]. pose proof (fun h' => write_bytes_valid h h' b s) as Hv.
  split; [split; [split|]|..]; cbn [write_bytes fs_names fs_durable fs_next set_inodes]; try done.
  - intros p g Hg. apply Hv. by eapply W1.
  - intros g Hg. by apply W2, Hv.
  - intros g i Hg. cbn. rewrite lookup_alter_ne by (by intros ->). by apply Hs.
  - intros p g Hg. apply Hv. by eapply Hd.
Qed.

Lemma oks_append h b D ps : h ∈ D -> oks (tidy D ps) (append h b) (fun _ => tidy D ps).
Proof.
  intros Hh s a s' Ht. unfold append, with_fault. destruct (fs_dead s); [done|].
  destruct (fs_faults s) as [|[[]|] r]; try done; intros [= _ <-]; apply tidy_write; try done; by apply (tidy_same _ _ s).
Qed.

(** They are synced. *)
Lemma oks_sync h D ps : oks (tidy (h :: D) ps) (sync_as h Durable) (fun _ => tidy D ps).
Proof.
  unfold sync_as. apply oks_guarded, oks_modify. intros s [[[W1 W2] U] Hs Ha Hd Hu Hm].
  set (s' := set_inodes _ s). assert (forall g, is_Some (fs_inodes s' !! g) <-> is_Some (fs_inodes s !! g)) as Hv.
  { intros g. cbn. rewrite lookup_alter. case_decide; [subst|done]. by rewrite fmap_is_Some. }
  split; [split; [split|]|..]; cbn [fs_names fs_durable fs_next set_inodes s']; try done.
  - intros p g Hg. apply Hv. by eapply W1.
  - intros g Hg. by apply W2, Hv.
  - intros g i Hg. cbn. rewrite lookup_alter. case_decide as E.
    + intros (j & _ & ->)%fmap_Some. done.
    + apply Hs. rewrite not_elem_of_cons. by split.
  - intros p g Hg. apply Hv. by eapply Hd.
Qed.

(** A file is created or emptied. *)
Lemma oks_truncate p D ps : plain p -> oks (tidy D ps) (open p Truncate) (fun _ => tidy D (p :: ps)).
Proof.
  intros Hp s h s' [[Hwf U] Hs Ha Hd Hu Hm] E.
  destruct (open_truncate_ok p s h s' Hwf E) as (Hwf' & En & Ei & Hcase & Hne & _ & _ & Ed).
  assert (forall q, q <> p -> fs_names s !! q = Some h -> False) as Hown.
  { intros q Hq Eq. destruct Hcase as [Ep|[_ En']]; [by apply Hq; symmetry; apply (U p q h)|].
    destruct (proj1 Hwf q h Eq). congruence. }
  assert (forall q, fs_durable s !! q = Some h -> fs_names s !! p = Some h) as Hold.
  { intros q Eq. destruct Hcase as [Ep|[_ En']]; [done|]. destruct (Hd q h Eq). congruence. }
  split; rewrite ?En, ?Ed; [split; [done|]|..].
  - intros q r g Hq. rewrite En, !lookup_insert. repeat case_decide; subst; try congruence; try (intros [= <-] Hr; by destruct (Hown r)).
    + intros Hr [= <-]. by destruct (Hown q).
    + by apply U.
  - intros g i Hg. destruct (decide (g = h)) as [->|Hgh]; [rewrite Ei; by intros [= <-]|]. rewrite Hne by done. by apply Hs.
  - intros q g [Hq Hps]%not_elem_of_cons. rewrite lookup_insert_ne by done. by apply Ha.
  - intros q g Hg. destruct (decide (g = h)) as [->|Hgh]; [rewrite Ei; by eexists|]. rewrite Hne by done. by eapply Hd.
  - done.
  - intros q r g Hqr. rewrite lookup_insert. case_decide; [subst; intros [= <-] Hr|by apply Hm].
    eapply Hm; [exact Hqr|by eapply Hold|done].
Qed.

(** A file is renamed within its directory. *)
Lemma oks_rename src dst D ps :
  plain src -> p_dir src = p_dir dst -> oks (tidy D ps) (rename src dst) (fun _ => tidy D (dst :: ps)).
Proof.
  intros Hp Edir. unfold rename. apply oks_guarded. intros s a s' [[[W1 W2] U] Hs Ha Hd Hu Hm].
  destruct (fs_names s !! src) as [h|] eqn:Eh; [|done]. intros [= _ <-].
  assert (forall q g, <[dst := h]> (delete src (fs_names s)) !! q = Some g ->
    q = dst /\ g = h \/ q <> dst /\ q <> src /\ fs_names s !! q = Some g) as Hl.
  { intros q g. rewrite lookup_insert. case_decide; [intros [= <-]; auto|]. rewrite lookup_delete. case_decide; naive_solver. }
  assert (forall q, q <> src -> fs_names s !! q <> Some h) as Hown by (intros q Hq Eq; apply Hq; by apply symmetry, (U src q h)).
  split; cbn [fs_inodes fs_names fs_durable fs_next set_names]; try done.
  - split; [split|]; cbn [fs_inodes fs_names fs_next set_names]; [|done|].
    + intros q g [[_ ->]|(_ & _ & Hq)]%Hl; by eapply W1.
    + intros q r g Hq [[-> ->]|(H1 & H2 & H3)]%Hl [[-> E]|(H4 & H5 & H6)]%Hl; subst; try done.
      * by destruct (Hown r).
      * by destruct (Hown q).
      * by eapply U.
  - intros q g [Hq Hps]%not_elem_of_cons [[-> _]|(_ & _ & Hn)]%Hl; [done|by apply Ha].
  - intros q r g Hqr [[-> ->]|(_ & _ & Hn)]%Hl Hr; [|by eapply Hm]. rewrite <- Edir. by eapply Hm; [left|..].
Qed.

Lemma oks_remove p D ps : oks (tidy D ps) (remove p) (fun _ => tidy D ps).
Proof.
  unfold remove. apply oks_guarded. intros s a s' [[[W1 W2] U] Hs Ha Hd Hu Hm].
  destruct (fs_names s !! p) as [h|] eqn:Eh; [|done]. intros [= _ <-].
  assert (forall q g, delete p (fs_names s) !! q = Some g -> fs_names s !! q = Some g) as Hl
    by (intros q g [_ ?]%lookup_delete_Some; done).
  split; cbn [fs_inodes fs_names fs_durable fs_next set_names]; try done; [split; [split|]|..]; cbn; try done; eauto.
  - intros q r g Hq H1%Hl H2%Hl. by eapply U.
Qed.

(** Its directory is synced. *)
Lemma oks_sync_dir dir D ps :
  Forall (fun p => p_dir p = dir) ps -> oks (tidy D ps) (sync_dir dir) (fun _ => tidy D []).
Proof.
  intros Hps. rewrite Forall_forall in Hps. unfold sync_dir. apply oks_guarded, oks_modify.
  intros s [[[W1 W2] U] Hs Ha Hd Hu Hm]. set (durable := filter _ _ ∪ filter _ _).
  assert (forall p, durable !! p = if decide (p_dir p = dir) then fs_names s !! p else fs_durable s !! p) as Hl.
  { intros p. unfold durable. rewrite lookup_union, !map_lookup_filter. case_decide as E.
    - destruct (fs_names s !! p) as [h|]; cbn; [rewrite option_guard_True by done; by destruct (fs_durable s !! p); cbn; [rewrite option_guard_False by (cbn; tauto)|]|].
      destruct (fs_durable s !! p); cbn; [by rewrite option_guard_False by (cbn; tauto)|done].
    - destruct (fs_names s !! p), (fs_durable s !! p); cbn; rewrite ?option_guard_False by done; rewrite ?option_guard_True by done; done. }
  split; cbn [fs_inodes fs_names fs_durable fs_next set_durable]; try done.
  - intros p h _ Hp. rewrite Hl. case_decide as E; [done|]. apply Ha; [|done]. intros Hin. by apply E, Hps.
  - intros p h. rewrite Hl. case_decide; [apply W1|apply Hd].
  - intros p q h Hp. rewrite !Hl. do 2 case_decide; [by eapply U| | |by eapply Hu].
    + intros Hnp Hdq. by assert (p_dir p = p_dir q) by (eapply Hm; [left|..]; done); congruence.
    + intros Hdp Hnq. by assert (p_dir q = p_dir p) by (eapply Hm; [right|..]; done); congruence.
  - intros p q h Hpq Hp. rewrite Hl. case_decide; [|by eapply Hm].
    intros Hq. f_equal. destruct Hpq; [by eapply U|symmetry; by eapply U].
Qed.

(** A file is opened to be appended to, or locked; it may be new. *)
Lemma oks_open_or_create p D ps : oks (tidy D ps) (open_or_create p) (fun _ => tidy D (p :: ps)).
Proof.
  intros s a s' Ht. unfold open_or_create. destruct (fs_names s !! p) as [h|] eqn:Ep.
  { intros [= _ <-]. eapply tidy_mono; [..|exact Ht]; set_solver. }
  unfold create_inode. case_bool_decide; [|done]. intros [= _ <-].
  destruct Ht as [[[W1 W2] U] Hs Ha Hd Hu Hm].
  assert (fs_inodes s !! fs_next s = None) as Hnew.
  { destruct (fs_inodes s !! fs_next s) eqn:E; [|done]. assert (fs_next s < fs_next s) by (apply W2; by eexists). lia. }
  assert (forall q, fs_names s !! q <> Some (fs_next s)) as Hn by (intros q Hq; destruct (W1 _ _ Hq); congruence).
  assert (forall g, is_Some (fs_inodes s !! g) -> is_Some (<[fs_next s := mkInode [] 0]> (fs_inodes s) !! g)) as Hv.
  { intros g Hg. rewrite lookup_insert. case_decide; [by eexists|done]. }
  split; cbn [fs_inodes fs_names fs_durable fs_next set_names set_inodes set_next]; try done; eauto.
  - split; [split|]; cbn [fs_inodes fs_names fs_next set_names set_inodes set_next].
    + intros q g. rewrite lookup_insert. case_decide; [intros [= <-]; rewrite lookup_insert_eq; by eexists|]. intros Hq. by eapply Hv, W1.
    + intros g. rewrite lookup_insert. case_decide; [subst; intros _; lia|]. intros Hg. specialize (W2 g Hg). lia.
    + intros q r g Hq. cbn. rewrite !lookup_insert. do 2 case_decide; subst; try congruence. by eapply U.
  - intros g i Hg. rewrite lookup_insert. case_decide; [by intros [= <-]|by apply Hs].
  - intros q g [Hq Hps]%not_elem_of_cons. rewrite lookup_insert_ne by done. by apply Ha.
  - intros q r g Hqr. rewrite lookup_insert. case_decide; [|by apply Hm]. intros [= <-] Hr. destruct (Hd r _ Hr). congruence.
Qed.

Lemma oks_open_append p D ps : oks (tidy D ps) (open p Append) (fun _ => tidy D (p :: ps)).
Proof. apply oks_guarded, oks_open_or_create. Qed.

Lemma oks_open_lock p D ps : oks (tidy D ps) (open p Lock) (fun _ => tidy D (p :: ps)).
Proof.
  apply oks_guarded. eapply oks_bind; [apply oks_open_or_create|]. intros h. eapply oks_bind; [apply oks_gets|].
  intros locked s a s' [Ht _]. destruct locked; [done|]. intros [= _ <-]. by eapply tidy_same; [|exact Ht].
Qed.

(** A file that has a name already keeps its names. *)
Lemma oks_open_existing p D ps :
  oks (fun s => tidy D ps s /\ is_Some (fs_names s !! p)) (open p Append) (fun _ => tidy D ps).
Proof.
  intros s a s' [Ht [h Ep]]. unfold open.
  destruct (guarded_cases (open_or_create p) s) as [(k & t & -> & _)|(f & -> & _)]; [done|].
  unfold open_or_create. cbn [fs_names set_faults]. rewrite Ep. intros [= _ <-]. by eapply tidy_same; [|exact Ht].
Qed.

(** *** Buffers *)

(** The buffer of the file [h], in the middle of a program that writes to it. *)
Definition buffered (h : N) (D : list N) (ps : list Path) (s : BufAppend * FsState) : Prop :=
  ba_file s.1 = h /\ tidy (h :: D) ps s.2.

Lemma oks_on_fs {A} (m : FsM A) h D ps D' ps' :
  oks (tidy (h :: D) ps) m (fun _ => tidy D' ps') ->
  oks (buffered h D ps) (on_fs m) (fun _ s => ba_file s.1 = h /\ tidy D' ps' s.2).
Proof.
  intros Hm. apply (oks_zoom _ _ _ _ (fun s0 => tidy (h :: D) ps)); [by intros s [_ ?]|].
  intros s0 [Hf _]. eapply oks_mono; [exact Hm|done|]. by intros a s ?.
Qed.

Lemma oks_buf_flush h D ps : oks (buffered h D ps) buf_flush (fun _ => buffered h D ps).
Proof.
  unfold buf_flush. eapply oks_bind; [apply oks_gets|]. intros b. case_bool_decide.
  { apply oks_ret. by intros s [? _]. }
  intros s a s' [[Hf Ht] ->] E. unfold attempt, mbind, ST_bind, on_fs, zoom in E.
  destruct (append (ba_file s.1) (ba_buf s.1) s.2) as [[[]|e|] t] eqn:Ea; try done.
  injection E as _ <-. split; [done|]. cbn. eapply (oks_append h); [by left|exact Ht|]. by rewrite <- Hf.
Qed.

Lemma oks_buf_write x h D ps : oks (buffered h D ps) (buf_write x) (fun _ => buffered h D ps).
Proof.
  unfold buf_write. eapply oks_bind; [by apply (oks_modify _ _ (fun _ => buffered h D ps)); intros s [? ?]|]. intros [].
  eapply oks_bind; [apply oks_gets|]. intros full. destruct full; [|apply oks_ret; by intros s [? _]].
  eapply oks_mono; [apply oks_buf_flush|by intros s [? _]|done].
Qed.

(** The program ends with a sync. *)
Lemma oks_buf_sync_as h D ps :
  oks (buffered h D ps) (buf_sync_as Durable) (fun _ s => ba_file s.1 = h /\ tidy D ps s.2).
Proof.
  unfold buf_sync_as. eapply oks_bind; [apply oks_gets|]. intros h' s a s' [Hb ->] E.
  eapply (oks_on_fs (sync_as h Durable)); [apply oks_sync|exact Hb|]. destruct Hb as [<- _]. exact E.
Qed.

Lemma oks_buf_sync h D ps : oks (buffered h D ps) buf_sync (fun _ s => ba_file s.1 = h /\ tidy D ps s.2).
Proof.
  unfold buf_sync. eapply oks_bind; [apply oks_buf_flush|]. intros []. eapply oks_bind; [apply oks_gets|].
  intros h' s a s' [[Hf Ht] ->] E. unfold attempt, mbind, ST_bind, on_fs, zoom in E. rewrite Hf in E.
  destruct (file_sync h s.2) as [[[]|e|] t] eqn:Es; try done. injection E as _ <-. split; [done|]. by eapply oks_sync.
Qed.

Lemma oks_with_buf {A} (m : BufM A) h D ps D' ps' :
  oks (buffered h D ps) m (fun _ s => ba_file s.1 = h /\ tidy D' ps' s.2) ->
  oks (tidy D ps) (with_buf (buf_new h) m) (fun r s => ba_file r.2 = h /\ tidy D' ps' s).
Proof.
  intros Hm s r s' Ht. unfold with_buf. destruct (m (buf_new h, s)) as [[a|e|] [b t]] eqn:E; try done. intros [= <- <-].
  apply (Hm (buf_new h, s) a (b, t)); [|done]. split; [done|]. eapply tidy_mono; [..|exact Ht]; set_solver.
Qed.

(** ** The log, the manifest and the tables *)

Section files.
Context `{Platform}.

(** A log that syncs what it appends; its file may still be open. *)
Definition logging (p : Path) (h : N) (D : list N) (ps : list Path) (s : Wal * FsState) : Prop :=
  wal_sync s.1 = Durable /\ wal_path s.1 = p /\ ba_file (wal_file s.1) = h /\ tidy D ps s.2.

Lemma oks_on_wal_file {A} (m : BufM A) p h D ps D' ps' :
  oks (buffered h D ps) m (fun _ s => ba_file s.1 = h /\ tidy D' ps' s.2) ->
  oks (logging p h (h :: D) ps) (on_wal_file m) (fun _ => logging p h D' ps').
Proof.
  intros Hm. apply (oks_zoom _ _ _ _ (fun _ => buffered h D ps)); [by intros s (_ & _ & ? & ?)|].
  intros s0 (Hs & Hp & _). eapply oks_mono; [exact Hm|done|]. by intros a s [? ?].
Qed.

Lemma oks_wal_write records p h D ps :
  records <> [] -> oks (logging p h (h :: D) ps) (wal_append_batch records) (fun _ => logging p h D ps).
Proof.
  intros Hr. unfold wal_append_batch. eapply oks_bind; [apply oks_gets|]. intros w. rewrite bool_decide_false by done.
  case_match; [apply oks_fail|]. intros s a s' [Hl ->]. assert (wal_sync s.1 = Durable) as -> by apply Hl.
  eapply oks_on_wal_file; [|exact Hl]. do 4 (eapply oks_bind; [apply oks_buf_write || apply oks_buf_flush|intros []]).
  apply oks_buf_sync_as.
Qed.

Lemma oks_wal_append_batch records p h D ps :
  oks (logging p h D ps) (wal_append_batch records) (fun _ => logging p h D ps).
Proof.
  destruct records as [|r l]; [by intros s a s' Hl [= _ <-]|]. eapply oks_mono; [by apply (oks_wal_write (r :: l) p h D ps)| |done].
  intros s (? & ? & ? & Ht). split_and!; try done. eapply tidy_mono; [..|exact Ht]; set_solver.
Qed.

Lemma oks_wal_sync p h D ps : oks (logging p h (h :: D) ps) wal_sync_all (fun _ => logging p h D ps).
Proof.
  apply oks_on_wal_file. eapply oks_bind; [apply oks_buf_flush|]. intros []. apply oks_buf_sync_as.
Qed.

Lemma oks_with_wal {A} (m : WalM A) w D ps (Q : Wal -> FsState -> Prop) :
  wal_sync w = Durable -> oks (logging (wal_path w) (ba_file (wal_file w)) D ps) m (fun _ s => Q s.1 s.2) ->
  oks (tidy D ps) (with_wal w m) (fun r s => Q r.2 s).
Proof.
  intros Hw Hm s r s' Ht. unfold with_wal. destruct (m (w, s)) as [[a|e|] [w' t]] eqn:E; try done. intros [= <- <-].
  by apply (Hm (w, s) a (w', t)).
Qed.

Lemma oks_wal_create p D ps :
  plain p -> oks (tidy D ps) (wal_create p Durable) (fun w => logging p (ba_file (wal_file w)) (ba_file (wal_file w) :: D) (p :: ps) ∘ pair w).
Proof.
  intros Hp. unfold wal_create. eapply oks_bind; [by apply oks_truncate|]. intros h. eapply oks_bind.
  - apply (oks_with_buf _ h D (p :: ps) (h :: D) (p :: ps)). eapply oks_bind; [apply oks_buf_write|]. intros []. apply oks_buf_flush.
  - intros [[] b]. apply oks_ret. intros s [<- Ht]. by split_and!.
Qed.

Lemma oks_wal_rename src dst h D ps :
  plain src -> p_dir src = p_dir dst ->
  oks (logging src h D ps) (wal_rename_to dst) (fun _ => logging dst h D (dst :: ps)).
Proof.
  intros Hp Ed. unfold wal_rename_to. apply (oks_read _ _ (fun w => wal_path w = src)); [by intros s (_ & ? & _)|]. intros w ->.
  apply (oks_bind _ _ _ (fun _ => logging src h D (dst :: ps))).
  - apply (oks_zoom _ _ _ _ (fun _ => tidy D ps)); [by intros s (_ & _ & _ & ?)|]. intros s0 (? & ? & ? & _).
    eapply oks_mono; [by apply (oks_rename src dst D ps)|done|]. by intros a s Ht.
  - intros []. apply oks_modify. intros s (? & ? & ? & ?). by split_and!.
Qed.

(** *** The manifest *)

(** The file of a manifest may still be open. *)
Definition recording (h : N) (D : list N) (ps : list Path) (s : Manifest * FsState) : Prop :=
  ba_file (m_file s.1) = h /\ tidy D ps s.2.

Lemma oks_on_manifest_file {A} (m : BufM A) h D ps D' ps' :
  oks (buffered h D ps) m (fun _ s => ba_file s.1 = h /\ tidy D' ps' s.2) ->
  oks (recording h (h :: D) ps) (on_manifest_file m) (fun _ => recording h D' ps').
Proof.
  intros Hm. apply (oks_zoom _ _ _ _ (fun _ => buffered h D ps)); [by intros s (? & ?)|].
  intros s0 _. eapply oks_mono; [exact Hm|done|]. by intros a s [? ?].
Qed.

Lemma oks_write_edit cs e h D ps : oks (buffered h D ps) (write_edit cs e) (fun _ => buffered h D ps).
Proof. unfold write_edit. do 2 (eapply oks_bind; [apply oks_buf_write|intros []]). apply oks_buf_write. Qed.

Lemma oks_manifest_append edits h D ps :
  oks (recording h (h :: D) ps) (manifest_append_batch edits) (fun _ => recording h D ps).
Proof.
  unfold manifest_append_batch. eapply oks_bind; [apply oks_gets|]. intros m.
  eapply oks_mono; [apply (oks_on_manifest_file _ h D ps D ps)|by intros s [? _]|done].
  eapply oks_bind; [apply oks_for_each; intros e _; apply oks_write_edit|]. intros []. apply oks_buf_sync.
Qed.

Lemma oks_with_manifest {A} (m : ManifestM A) m0 h D ps D' ps' :
  ba_file (m_file m0) = h -> oks (recording h (h :: D) ps) m (fun _ => recording h D' ps') ->
  oks (tidy D ps) (with_manifest m0 m) (fun r s => ba_file (m_file r.2) = h /\ tidy D' ps' s).
Proof.
  intros Hh Hm s r s' Ht. unfold with_manifest. destruct (m (m0, s)) as [[a|e|] [m' t]] eqn:E; try done. intros [= <- <-].
  apply (Hm (m0, s) a (m', t)); [|done]. split; [done|]. eapply tidy_mono; [..|exact Ht]; set_solver.
Qed.

Lemma oks_write_current dir g D ps :
  Forall (fun p => p_dir p = dir) ps -> oks (tidy D ps) (write_current dir g) (fun _ => tidy D []).
Proof.
  intros Hps. unfold write_current. eapply oks_bind; [apply oks_truncate, current_tmp_plain|]. intros h.
  eapply oks_bind; [eapply oks_mono; [apply (oks_append h _ (h :: D) (join dir CURRENT_TMP :: ps)); by left| |by intros a s Ht; exact Ht]|].
  { intros s Ht. eapply tidy_mono; [..|exact Ht]; set_solver. }
  intros []. eapply oks_bind; [apply oks_sync|]. intros []. eapply oks_bind; [by apply oks_rename; [apply current_tmp_plain|]|].
  intros []. apply oks_sync_dir. by repeat constructor.
Qed.

(** [let _ = fs.remove(path)]. *)
Lemma oks_ignore_remove p D ps : oks (tidy D ps) (ignore (remove p)) (fun _ => tidy D ps).
Proof.
  intros s a s' Ht. unfold ignore, attempt, mbind, ST_bind. destruct (remove p s) as [[[]|e|] t] eqn:E; try done; intros [= _ <-].
  - by eapply oks_remove.
  - unfold remove in E. match type of E with guarded ?op s = _ => destruct (guarded_cases op s) as [(k & u & E' & Hs & _)|(f & E' & Hs)] end;
      rewrite E' in E.
    + injection E as _ <-. by eapply tidy_same; [|exact Ht]; split_and!; apply Hs.
    + cbn [fs_names set_faults] in E. destruct (fs_names s !! p); [done|]. injection E as _ <-. by eapply tidy_same; [|exact Ht].
Qed.

(** The new generation that a rollover writes. *)
Lemma oks_new_generation dir m0 h edits D ps :
  Forall (fun p => p_dir p = dir) ps -> ba_file (m_file m0) = h ->
  oks (tidy D ps) ('(_, w) ← with_manifest m0 (
      _ ← on_manifest_file (buf_write (encode_header MANIFEST_MAGIC MANIFEST_VERSION)); manifest_append_batch edits);
    _ ← write_current dir (m_generation m0); mret w) (fun _ => tidy D []).
Proof.
  intros Hps Hh. eapply oks_bind; [apply (oks_with_manifest _ _ h D ps D ps); [done|]|].
  - eapply oks_bind; [apply (oks_on_manifest_file _ h D ps (h :: D) ps); apply oks_buf_write|]. intros []. apply oks_manifest_append.
  - intros [[] w]. eapply oks_bind; [eapply oks_mono; [by apply (oks_write_current dir (m_generation m0) D ps)|by intros s [_ ?]|]|].
    + intros a s Ht. exact Ht.
    + intros []. by apply oks_ret.
Qed.

Lemma oks_rollover dir st D ps :
  Forall (fun p => p_dir p = dir) ps ->
  oks (fun s => m_dir s.1 = dir /\ tidy D ps s.2) (manifest_rollover st) (fun _ s => tidy D [] s.2).
Proof.
  intros Hps s a s' [Hd Ht] (m & s1 & [= <- <-] & E)%bind_run_inv. apply bind_run_inv in E as (new & s2 & E1 & E).
  injection E1 as E1 <-. apply bind_run_inv in E as (w & [m3 s3] & E2 & E). unfold on_manifest_fs, zoom in E2.
  match type of E2 with (let '(_, _) := ?m in _) = _ => destruct m as [o t] eqn:Em end. injection E2 as -> <- <-.
  assert (tidy D [] t) as Ht3.
  { apply bind_run_inv in Em as (h & t1 & Eo & Em). eapply oks_truncate in Eo; [|apply manifest_plain|exact Ht].
    rewrite Hd in *. eapply (oks_new_generation dir (mkManifest dir new (buf_new h) (manifest_checksum (Versioned MANIFEST_VERSION)))
      h (snapshot_edits st)); [|done|exact Eo|exact Em]. by constructor. }
  apply bind_run_inv in E as ([] & s4 & [= <-] & E). cbn [fst snd] in E.
  unfold ignore, attempt, mbind, ST_bind, on_manifest_fs, zoom in E. cbn [fst snd] in E.
  pose proof (oks_ignore_remove (manifest_path (m_dir s.1) (m_generation s.1)) D []) as Hr.
  unfold oks, ignore, attempt, mbind, ST_bind in Hr. specialize (Hr t tt). cbn beta in Hr.
  destruct (remove _ t) as [[[]|e|] u]; try done; injection E as _ <-; by apply Hr.
Qed.

Lemma oks_manifest_open dir D ps :
  Forall (fun p => p_dir p = dir) ps -> oks (tidy D ps) (manifest_open dir) (fun _ => tidy D []).
Proof.
  intros Hps. assert (forall A (m : FsM A) ps, frames same_files m -> oks (tidy D ps) m (fun _ => tidy D ps)) as Hf.
  { intros A m qs Hm. apply (oks_frames same_files); [|done]. intros s s'. apply tidy_same. }
  unfold manifest_open. eapply oks_bind; [apply Hf; unfold read_current; framing|]. intros g.
  eapply oks_bind; [apply Hf; unfold manifest_replay; framing|]. intros st.
  eapply oks_bind; [apply oks_open_append|]. intros h. eapply oks_bind; [apply Hf; unfold classify_manifest; framing|]. intros kind.
  apply (oks_bind _ _ _ (fun _ => tidy D [])); [|by intros [[] m]; apply oks_ret].
  intros s r s' Ht. unfold with_manifest. destruct (manifest_rollover _ _) as [[a|e|] [m' u]] eqn:E; try done. intros [= <- <-].
  eapply (oks_rollover dir st D (manifest_path dir g :: ps)) in E; [exact E|by constructor|done].
Qed.

Lemma oks_manifest_create dir D ps :
  Forall (fun p => p_dir p = dir) ps ->
  oks (tidy D ps) (manifest_create dir) (fun _ => tidy D []).
Proof.
  intros Hps. unfold manifest_create. eapply oks_bind; [apply oks_truncate, manifest_plain|]. intros h.
  eapply oks_bind; [apply (oks_with_manifest _ _ h D (manifest_path dir 0 :: ps) D (manifest_path dir 0 :: ps)); [done|]|].
  - apply oks_on_manifest_file. eapply oks_bind; [apply oks_buf_write|]. intros []. apply oks_buf_sync.
  - intros [[] m]. eapply oks_bind; [eapply oks_mono; [by apply (oks_write_current dir 0 D (manifest_path dir 0 :: ps)); constructor|by intros s [_ ?]|]|].
    + intros a s Ht. exact Ht.
    + intros []. by apply oks_ret.
Qed.

(** *** Tables *)

Lemma oks_flush_block ws h D ps : oks (buffered h D ps) (flush_block ws) (fun _ => buffered h D ps).
Proof.
  unfold flush_block. case_bool_decide; [by apply oks_ret|]. eapply oks_bind; [apply oks_buf_write|]. intros []. by apply oks_ret.
Qed.

Lemma oks_write_records records ws h D ps : oks (buffered h D ps) (write_records records ws) (fun _ => buffered h D ps).
Proof.
  revert ws. induction records as [|r records IH]; intros ws; cbn [write_records]; [by apply oks_ret|].
  eapply oks_bind; [apply oks_lift|]. intros bloom. eapply oks_bind; [|intros ws'; apply IH].
  destruct (_ && _); [apply oks_flush_block|by apply oks_ret].
Qed.

Lemma oks_sst_write path records D ps :
  plain path -> oks (tidy D ps) (sst_write path records) (fun _ => tidy D (path :: ps)).
Proof.
  intros Hp. unfold sst_write. eapply oks_bind; [by apply oks_truncate|]. intros h.
  eapply oks_bind; [apply (oks_with_buf _ h D (path :: ps) D (path :: ps))|].
  - eapply oks_bind; [apply oks_write_records|]. intros ws. eapply oks_bind; [apply oks_flush_block|]. intros ws'.
    eapply oks_bind; [apply oks_for_each; intros [[key off] n] _|].
    { cbn [write_entry]. do 3 (eapply oks_bind; [apply oks_buf_write|intros []]). apply oks_buf_write. }
    intros []. do 8 (eapply oks_bind; [apply oks_buf_write|intros []]). apply oks_buf_sync.
  - intros [? b]. apply oks_ret. by intros s [_ ?].
Qed.
End files.
