(* ===== verification/Settled.v ===== *)
(** * Engines at rest

    An engine whose log is opened to be durable leaves nothing open between its
    operations: every file is synced and every name is durable when an operation
    has returned [Ok]. *)
From Stdlib Require Import NArith Lia.
From stdpp Require Import base numbers list strings gmap.
From S2P Require Import Prelude Errors FileNames Platform State FileSystem Store Records Versions MemTable.
From S2P Require Import Headers Frames WriteAheadLog Manifest ManifestRecovery SsTables Merging Compaction Engine Layers Flushes Specification Sessions Threads Recovery Restarts Syncing.

Local Open Scope N_scope.

(** A durable engine on [dir] with the files [D] and the names [ps] still open. *)
Record resting (dir : string) (D : list N) (ps : list Path) (s : DbInner * World) : Prop := mkResting {
  rs_dir : db_dir s.1 = dir;
  rs_wal : wal_sync (db_wal s.1) = Durable;
  rs_opts : o_sync_wal (db_opts s.1) = Durable;
  rs_tidy : tidy D ps (w_fs s.2)
}.

Definition wal_handle (s : DbInner * World) : N := ba_file (wal_file (db_wal s.1)).

(** Neither the files nor the log changed. *)
Definition same_rest (s s' : DbInner * World) : Prop :=
  same_files (w_fs s.2) (w_fs s'.2) /\ db_dir s'.1 = db_dir s.1 /\ db_wal s'.1 = db_wal s.1 /\ db_opts s'.1 = db_opts s.1.

#[export] Instance same_rest_preorder : PreOrder same_rest.
Proof.
  split; unfold same_rest; [by intros s|]. intros s t u (? & ? & ? & ?) (? & ? & ? & ?). split_and!; [by etrans|congruence..].
Qed.

Lemma resting_same dir D ps s s' : same_rest s s' -> resting dir D ps s -> resting dir D ps s'.
Proof. intros (Hf & Ed & Ew & Eo) []. split; [congruence..|by eapply tidy_same]. Qed.

Lemma resting_mono dir D D' ps ps' s : D ⊆ D' -> ps ⊆ ps' -> resting dir D ps s -> resting dir D' ps' s.
Proof. intros HD Hp []. split; try done. by eapply tidy_mono. Qed.

Section engine.
Context `{Platform}.

Lemma frames_update f :
  (forall d, db_dir (f d) = db_dir d /\ db_wal (f d) = db_wal d /\ db_opts (f d) = db_opts d) -> frames same_rest (update f).
Proof. intros Hf s. split; [done|apply Hf]. Qed.

Lemma frames_on_world {A} (m : WM A) : frames same_files_w m -> frames same_rest (on_world m).
Proof. intros Hm. eapply frames_zoom; [|exact Hm]. by intros s w Hw. Qed.
#[local] Hint Resolve frames_on_world : frames.

Lemma frames_on_db_fs {A} (m : FsM A) : frames same_files m -> frames same_rest (on_db_fs m).
Proof. intros Hm. by apply frames_on_world, frames_on_files. Qed.
#[local] Hint Resolve frames_on_db_fs : frames.

Lemma frames_health : frames same_rest db_health.
Proof. unfold db_health. framing. Qed.
#[local] Hint Resolve frames_health : frames.

(** *** Reads *)

Lemma frames_get_at key b : frames same_rest (db_get_at key b).
Proof. unfold db_get_at, look_active, look_frozen, live_set, search_tables. framing. Qed.
Lemma frames_scan_at start fin limit b : frames same_rest (db_scan_at start fin limit b).
Proof. unfold db_scan_at, copy_active, copy_frozen, live_set, merge_sources. framing. Qed.
Lemma frames_snapshot : frames same_rest db_snapshot.
Proof. unfold db_snapshot, snapshot_load, snapshot_register. framing. by apply frames_update. Qed.
Lemma frames_snapshot_drop h : frames same_rest (snapshot_drop h).
Proof. by apply frames_update. Qed.

(** *** Parts of an engine *)

Lemma oks_rest {A} (m : DbM A) dir D ps : frames same_rest m -> oks (resting dir D ps) m (fun _ => resting dir D ps).
Proof. intros Hm. apply (oks_frames same_rest); [|done]. intros s s'. apply resting_same. Qed.

Lemma oks_update f dir D ps :
  (forall d, db_dir (f d) = db_dir d /\ db_wal (f d) = db_wal d /\ db_opts (f d) = db_opts d) ->
  oks (resting dir D ps) (update f) (fun _ => resting dir D ps).
Proof. intros Hf. by apply oks_rest, frames_update. Qed.

Lemma oks_on_db_fs {A} (m : FsM A) dir D ps D' ps' :
  oks (tidy D ps) m (fun _ => tidy D' ps') -> oks (resting dir D ps) (on_db_fs m) (fun _ => resting dir D' ps').
Proof.
  intros Hm. apply (oks_zoom _ _ _ _ (fun _ w => tidy D ps (w_fs w))); [by intros s []|]. intros s0 [].
  apply (oks_zoom _ _ _ _ (fun _ => tidy D ps)); [done|]. intros w0 _. eapply oks_mono; [exact Hm|done|]. by split.
Qed.

Lemma oks_on_db_manifest edits dir D ps :
  oks (resting dir D ps) (on_db_manifest (manifest_append_batch edits)) (fun _ => resting dir D ps).
Proof.
  apply (oks_zoom _ _ _ _ (fun s0 => recording (ba_file (m_file (db_manifest s0.1))) (ba_file (m_file (db_manifest s0.1)) :: D) ps)).
  - intros s []. split; [done|]. eapply tidy_mono; [..|exact rs_tidy0]; set_solver.
  - intros s0 []. eapply oks_mono; [apply oks_manifest_append|done|]. intros a s [_ ?]. by split.
Qed.

(** The log's own file may be open before a write. *)
Lemma oks_log records dir D ps :
  records <> [] ->
  oks (fun s => resting dir (wal_handle s :: D) ps s) (on_db_wal (wal_append_batch records)) (fun _ => resting dir D ps).
Proof.
  intros Hr. apply (oks_zoom _ _ _ _ (fun s0 => logging (wal_path (db_wal s0.1)) (wal_handle s0) (wal_handle s0 :: D) ps)).
  - intros s []. by split_and!.
  - intros s0 []. eapply oks_mono; [by apply oks_wal_write|done|]. intros a s (? & _ & _ & ?). by split.
Qed.

(** *** Writes *)

Lemma frames_insert_logged records : frames same_rest (insert_logged records).
Proof.
  unfold insert_logged, insert_active, send_task. framing; by apply frames_update.
Qed.

Lemma frames_fetch n : frames same_rest (fetch_seq n).
Proof. unfold fetch_seq. framing. by apply frames_update. Qed.

(** A sequence number does not move the log. *)
Lemma oks_open_log {A} (m : DbM A) dir D ps : frames same_rest m ->
  oks (fun s => resting dir (wal_handle s :: D) ps s) m (fun _ s => resting dir (wal_handle s :: D) ps s).
Proof.
  intros Hm. apply (oks_frames same_rest); [|done]. intros s s' Hs Hr. pose proof Hs as (_ & _ & Ew & _).
  unfold wal_handle in *. rewrite Ew. by eapply resting_same.
Qed.

(** A write syncs the log, also if its file was still open. *)
Lemma oks_write key value dir D ps :
  oks (fun s => resting dir (wal_handle s :: D) ps s) (db_write key value) (fun _ => resting dir D ps).
Proof.
  unfold db_write, log_write. eapply oks_bind; [apply oks_open_log, frames_health|]. intros [].
  eapply oks_bind; [|intros records; apply oks_rest, frames_insert_logged].
  eapply oks_bind; [apply oks_open_log, frames_fetch|]. intros seq.
  eapply oks_bind; [by apply (oks_log [make_record key value seq] dir D ps)|]. intros []. by apply oks_ret.
Qed.

Lemma oks_write_rest key value dir D ps :
  oks (resting dir D ps) (db_write key value) (fun _ => resting dir D ps).
Proof.
  eapply oks_mono; [apply oks_write| |by intros a s Hs; exact Hs]. intros s Hs. eapply resting_mono; [..|exact Hs]; set_solver.
Qed.

Lemma oks_write_batch batch dir D ps :
  oks (resting dir D ps) (db_write_batch batch) (fun _ => resting dir D ps).
Proof.
  unfold db_write_batch, log_batch. eapply oks_bind; [apply oks_rest, frames_health|]. intros [].
  case_bool_decide as Hb; [by apply oks_ret|].
  eapply oks_bind; [|intros records; apply oks_rest, frames_insert_logged].
  eapply oks_bind; [apply oks_rest, frames_fetch|]. intros seq. eapply oks_bind; [apply oks_lift|]. intros records.
  apply (oks_bind _ _ _ (fun _ => resting dir D ps)); [|intros []; by apply oks_ret].
  apply (oks_zoom _ _ _ _ (fun s0 => logging (wal_path (db_wal s0.1)) (wal_handle s0) D ps)); [by intros s []; split_and!|].
  intros s0 []. eapply oks_mono; [apply oks_wal_append_batch|done|]. intros a s (? & _ & _ & ?). by split.
Qed.

(** *** Flushes *)

Lemma oks_flush_table m dir D ps :
  Forall (fun p => p_dir p = dir) ps ->
  oks (resting dir D ps) (flush_table m) (fun _ => resting dir D []).
Proof.
  intros Hps. unfold flush_table. apply (oks_read _ _ (fun d => db_dir d = dir)); [by intros s []|]. intros d ->.
  eapply oks_bind; [by apply oks_update|]. intros [].
  eapply oks_bind; [apply oks_on_db_fs, oks_sst_write, sst_tmp_plain|]. intros n.
  eapply oks_bind; [apply oks_on_db_fs, oks_rename; [apply sst_tmp_plain|done]|]. intros [].
  eapply oks_bind; [apply oks_on_db_fs, oks_sync_dir; by repeat constructor|]. intros [].
  eapply oks_bind; [apply oks_rest, frames_on_world, frames_sst_open|]. intros reader.
  do 2 (apply (oks_read _ _ (fun _ => True)); [done|intros ? _]).
  eapply oks_bind; [apply oks_on_db_manifest|]. intros []. by apply oks_ret.
Qed.

(** The new log is synced, named and its directory synced. *)
Lemma oks_new_log dir records D ps :
  Forall (fun p => p_dir p = dir) ps ->
  oks (tidy D ps) (
    fresh ← wal_create (join dir WAL_TMP_FILENAME) Durable;
    '(_, fresh) ← with_wal fresh (
      _ ← for_each records wal_append; _ ← wal_sync_all; wal_rename_to (join dir WAL_FILENAME));
    _ ← sync_dir dir; mret fresh) (fun w s => wal_sync w = Durable /\ tidy D [] s).
Proof.
  intros Hps. eapply oks_bind; [apply oks_wal_create, wal_tmp_plain|]. intros w t0 w' t1 (Hs & Hp & _ & Ht) E.
  apply bind_run_inv in E as ([[] w2] & t2 & E1 & E).
  eapply (oks_with_wal _ w _ _ (fun w t => wal_sync w = Durable /\ tidy D (join dir WAL_FILENAME :: join dir WAL_TMP_FILENAME :: ps) t)) in E1;
    [|done| |exact Ht].
  - destruct E1 as [Hs2 Ht2]. apply bind_run_inv in E as ([] & t3 & E2 & [= <- <-]). split; [done|].
    eapply oks_sync_dir in E2; [exact E2| |exact Ht2]. by repeat constructor.
  - cbn in Hp. rewrite Hp. eapply oks_bind; [apply oks_for_each; intros r _; apply oks_wal_append_batch|]. intros [].
    eapply oks_bind; [apply oks_wal_sync|]. intros []. eapply oks_mono; [apply oks_wal_rename; [apply wal_tmp_plain|done]|done|].
    by intros a s (? & _ & _ & ?).
Qed.

Lemma oks_rewrite_wal dir D ps :
  Forall (fun p => p_dir p = dir) ps -> oks (resting dir D ps) rewrite_wal (fun _ => resting dir D []).
Proof.
  intros Hps. unfold rewrite_wal. apply (oks_read _ _ (fun d => db_dir d = dir /\ o_sync_wal (db_opts d) = Durable)); [by intros s []|].
  intros d [-> ->]. apply (oks_bind _ _ _ (fun w s => wal_sync w = Durable /\ resting dir D [] s)).
  - apply (oks_zoom _ _ _ _ (fun _ w => tidy D ps (w_fs w))); [by intros s []|]. intros s0 [].
    apply (oks_zoom _ _ _ _ (fun _ => tidy D ps)); [done|]. intros w0 _. eapply oks_mono; [by apply oks_new_log|done|].
    intros w s [? ?]. split; [done|]. by split.
  - intros w. apply oks_modify. intros s [? []]. by split.
Qed.

Lemma oks_flush_freeze dir D ps : oks (resting dir D ps) flush_freeze (fun _ => resting dir D ps).
Proof.
  unfold flush_freeze. apply (oks_read _ _ (fun _ => True)); [done|]. intros d _. destruct (mt_is_empty _); [by apply oks_ret|].
  do 2 (eapply oks_bind; [by apply oks_update|intros []]). by apply oks_ret.
Qed.

Lemma oks_flush_parts m dir D ps :
  Forall (fun p => p_dir p = dir) ps ->
  oks (resting dir D ps) (t ← flush_table m; _ ← flush_publish t; _ ← rewrite_wal; flush_retire) (fun _ => resting dir D []).
Proof.
  intros Hps. eapply oks_bind; [by apply oks_flush_table|]. intros t. eapply oks_bind; [by apply oks_update|]. intros [].
  eapply oks_bind; [by apply oks_rewrite_wal|]. intros []. unfold flush_retire.
  eapply oks_bind; [by apply oks_update|]. intros []. by apply oks_update.
Qed.

Lemma oks_latching {A} (m : DbM A) P (Q : A -> DbInner * World -> Prop) : oks P m Q -> oks P (latching m) Q.
Proof. intros Hm s a s' Hp E%latching_inv. by eapply Hm. Qed.

(** A flush leaves nothing open. *)
Lemma oks_flush dir D : oks (resting dir D []) flush_inner (fun _ => resting dir D []).
Proof.
  unfold flush_inner. eapply oks_bind; [apply oks_rest, frames_health|]. intros []. apply oks_latching. unfold flush_impl.
  eapply oks_bind; [apply oks_flush_freeze|]. intros [m|]; [by apply oks_flush_parts|by apply oks_ret].
Qed.

(** Nor does one that has something to write, whatever names were open before. *)
Lemma oks_flush_some dir D ps :
  Forall (fun p => p_dir p = dir) ps ->
  oks (fun s => resting dir D ps s /\ mt_is_empty (db_active s.1) = false) flush_inner (fun _ => resting dir D []).
Proof.
  intros Hps s a s' [Hr Ha]. unfold flush_inner, db_health. rewrite bind_assoc, bind_gets. destruct (db_failed s.1); [done|].
  rewrite bind_mret. intros E%latching_inv. revert E. unfold flush_impl, flush_freeze, update.
  rewrite bind_assoc, bind_gets, Ha, bind_assoc, bind_modify, bind_assoc, bind_modify, bind_mret.
  apply (oks_flush_parts _ dir D ps); [done|]. by destruct Hr.
Qed.

(** *** Compactions *)

Lemma oks_compact path inputs drop min_seq dir D ps :
  plain path ->
  oks (resting dir D ps) (on_world (compact path inputs drop min_seq)) (fun _ => resting dir D (path :: ps)).
Proof.
  intros Hp. apply (oks_zoom _ _ _ _ (fun _ w => tidy D ps (w_fs w))); [by intros s []|]. intros s0 []. unfold compact.
  apply (oks_bind _ _ _ (fun _ w => tidy D ps (w_fs w))).
  { apply (oks_frames same_files_w); [intros w w'; apply tidy_same|]. framing. }
  intros runs. eapply oks_bind; [apply oks_lift|]. intros out. apply (oks_zoom _ _ _ _ (fun _ => tidy D ps)); [done|].
  intros w0 _. eapply oks_mono; [by apply oks_sst_write|done|]. by split.
Qed.

(** The merged file has a temporary name. *)
Lemma oks_merge tables dir D :
  oks (resting dir D []) (merge_picked tables) (fun merged => resting dir D
    (if merged is Some (_, max_id) then [sst_tmp_path dir max_id] else [])).
Proof.
  unfold merge_picked. apply (oks_read _ _ (fun d => db_dir d = dir)); [by intros s []|]. intros d ->.
  eapply oks_bind; [apply oks_rest, frames_on_db_fs; unfold pick_compaction; framing|]. intros [[start fin]|]; [|by apply oks_ret].
  eapply oks_bind; [apply oks_lift|]. intros run. destruct (last run) as [t|]; [|by apply oks_ret].
  do 2 (eapply oks_bind; [apply oks_lift|intros ?]). eapply oks_bind; [apply oks_compact, sst_tmp_plain|]. intros n. by apply oks_ret.
Qed.

Lemma oks_publish run max_id dir D ps :
  Forall (fun p => p_dir p = dir) ps -> oks (resting dir D ps) (publish_run run max_id) (fun _ => resting dir D []).
Proof.
  intros Hps. unfold publish_run. apply (oks_read _ _ (fun d => db_dir d = dir)); [by intros s []|]. intros d ->.
  eapply oks_bind; [apply oks_on_db_fs, oks_rename; [apply sst_tmp_plain|done]|]. intros [].
  eapply oks_bind; [apply oks_on_db_fs, oks_sync_dir; by repeat constructor|]. intros [].
  eapply oks_bind; [apply oks_rest, frames_on_world, frames_sst_open|]. intros reader.
  eapply oks_bind; [apply oks_on_db_manifest|]. intros []. apply (oks_read _ _ (fun _ => True)); [done|]. intros cur _.
  eapply oks_bind; [apply oks_lift|]. intros next. eapply oks_bind; [by apply oks_update|]. intros [].
  eapply oks_bind; [apply oks_for_each; intros id _; apply oks_on_db_fs, oks_remove|]. intros [].
  by apply oks_on_db_fs, oks_sync_dir.
Qed.

Lemma oks_compact_step dir D : oks (resting dir D []) compact_step (fun _ => resting dir D []).
Proof.
  unfold compact_step. eapply oks_bind; [apply oks_rest, frames_health|]. intros []. apply oks_latching. unfold compact_step_impl, merge_run.
  eapply oks_bind; [eapply oks_bind; [apply oks_rest, frames_gets; typeclasses eauto|intros tables; apply oks_merge]|].
  intros [[run max_id]|]; [|by apply oks_ret]. eapply oks_bind; [apply oks_publish; by repeat constructor|]. intros []. by apply oks_ret.
Qed.

Lemma oks_compact_while fuel dir D : oks (resting dir D []) (compact_while fuel) (fun _ => resting dir D []).
Proof.
  induction fuel as [|fuel IH]; cbn [compact_while]; [apply oks_panic|].
  eapply oks_bind; [apply oks_compact_step|]. intros []; [apply IH|by apply oks_ret].
Qed.

Lemma oks_db_flush dir D : oks (resting dir D []) db_flush (fun _ => resting dir D []).
Proof.
  unfold db_flush. eapply oks_bind; [apply oks_flush|]. intros []. apply (oks_read _ _ (fun _ => True)); [done|].
  intros n _. apply oks_compact_while.
Qed.

Lemma oks_maintain dir D : oks (resting dir D []) db_maintain (fun _ => resting dir D []).
Proof.
  unfold db_maintain. apply (oks_read _ _ (fun _ => True)); [done|]. intros due _. destruct due; [|apply oks_compact_step].
  eapply oks_bind; [apply oks_flush|]. intros []. by apply oks_ret.
Qed.

(** *** The background threads *)

(** A failure of maintenance is latched. *)
Lemma health_fails e s s' : db_health s = (Err e, s') -> poisoned s'.1.
Proof. unfold db_health. rewrite bind_gets. destruct (db_failed s.1) eqn:E; [|done]. intros [= _ <-]. unfold poisoned. by rewrite E. Qed.

Lemma latching_fails {A} (m : DbM A) e s s' : latching m s = (Err e, s') -> poisoned s'.1.
Proof.
  unfold latching, attempt, mbind, ST_bind. destruct (m s) as [[a|e0|] s1]; [done| |done].
  unfold db_fail. rewrite bind_gets. unfold poisoned. destruct (db_failed s1.1) eqn:E; cbn; intros [= _ <-]; cbn; [by rewrite E|done].
Qed.

Lemma latched_fails {A} (m : DbM A) e s s' : (db_health ≫= fun _ => latching m) s = (Err e, s') -> poisoned s'.1.
Proof.
  unfold mbind at 1, ST_bind. destruct (db_health s) as [[[]|e0|] s1] eqn:E; [apply latching_fails| |done].
  intros [= _ <-]. by eapply health_fails.
Qed.

Lemma compact_while_fails fuel e s s' : compact_while fuel s = (Err e, s') -> poisoned s'.1.
Proof.
  revert s. induction fuel as [|fuel IH]; intros s; [done|]. cbn [compact_while]. unfold mbind at 1, ST_bind.
  destruct (compact_step s) as [[[]|e0|] s1] eqn:E; [apply IH|done| |done]. intros [= _ <-]. by eapply latched_fails.
Qed.

Lemma oks_worker dir D : oks (resting dir D []) worker_turn (fun _ s => resting dir D [] s \/ poisoned s.1).
Proof.
  unfold worker_turn. apply (oks_read _ _ (fun _ => True)); [done|].
  intros [[|[] q]|] _; try (apply oks_ret; by left).
  - eapply oks_bind; [by apply oks_update|]. intros [] s a s' Hr. unfold attempt, mbind, ST_bind.
    destruct (flush_inner s) as [[[]|e|] s1] eqn:E; [| |done]; intros [= _ <-].
    + left. by eapply oks_flush.
    + right. by eapply latched_fails in E.
  - eapply oks_mono; [by apply (oks_update _ dir D [])|done|by left].
Qed.

Lemma oks_compactor dir D : oks (resting dir D []) compactor_turn (fun _ s => resting dir D [] s \/ poisoned s.1).
Proof.
  unfold compactor_turn. apply (oks_read _ _ (fun _ => True)); [done|].
  intros [[|[] q]|] _; try (apply oks_ret; by left).
  - eapply oks_bind; [by apply oks_update|]. intros []. apply (oks_read _ _ (fun _ => True)); [done|]. intros n _ s a s' Hr.
    unfold ignore, attempt, mbind, ST_bind. destruct (compact_while (S n) s) as [[[]|e|] s1] eqn:E; [| |done]; intros [= _ <-].
    + left. by eapply oks_compact_while.
    + right. by eapply compact_while_fails.
  - eapply oks_mono; [by apply (oks_update _ dir D [])|done|by left].
Qed.

(** ** Every operation of a session *)

Lemma oks_exec hs op dir D : oks (resting dir D []) (exec hs op) (fun _ s => resting dir D [] s \/ poisoned s.1).
Proof.
  assert (forall A B (m : DbM A) (r : A -> B), oks (resting dir D []) m (fun _ s => resting dir D [] s \/ poisoned s.1) ->
    oks (resting dir D []) (a ← m; mret (r a)) (fun _ s => resting dir D [] s \/ poisoned s.1)) as Hret.
  { intros A B m r Hm. eapply oks_bind; [exact Hm|]. intros a. by apply oks_ret. }
  assert (forall A B (m : DbM A) (r : A -> B), oks (resting dir D []) m (fun _ => resting dir D []) ->
    oks (resting dir D []) (a ← m; mret (r a)) (fun _ s => resting dir D [] s \/ poisoned s.1)) as Hok.
  { intros A B m r Hm. apply Hret. eapply oks_mono; [exact Hm|done|by left]. }
  assert (forall i (f : N -> DbM Reply), (forall h, frames same_rest (f h)) -> frames same_rest (with_snapshot hs i f)) as Hsnap.
  { intros i f Hf. unfold with_snapshot. framing. }
  assert (forall A (m : DbM A) (r : A -> Reply), frames same_rest m -> frames same_rest (a ← m; mret (r a))) as Hf by (intros; framing).
  destruct op; cbn [exec].
  - apply (Hok _ _ _ (fun _ => (Done, hs))), oks_write_rest.
  - apply (Hok _ _ _ (fun _ => (Done, hs))), oks_write_rest.
  - apply (Hok _ _ _ (fun _ => (Done, hs))), oks_write_batch.
  - apply (Hok _ _ _ (fun v => (Value v, hs))), oks_rest, frames_get_at.
  - apply (Hok _ _ _ (fun l => (Entries l, hs))), oks_rest, frames_scan_at.
  - apply (Hok _ _ _ (fun h => (Done, h :: hs))), oks_rest, frames_snapshot.
  - apply (Hok _ _ _ (fun r => (r, hs))), oks_rest, Hsnap. intros h. apply (Hf _ _ Value), frames_get_at.
  - apply (Hok _ _ _ (fun r => (r, hs))), oks_rest, Hsnap. intros h. apply (Hf _ _ Entries), frames_scan_at.
  - apply (Hok _ _ _ (fun r => (r, delete i hs))), oks_rest, Hsnap. intros h. apply (Hf _ _ (fun _ => Done)), frames_snapshot_drop.
  - apply (Hok _ _ _ (fun _ => (Done, hs))), oks_flush.
  - apply (Hok _ _ _ (fun _ => (Done, hs))), oks_db_flush.
  - apply (Hok _ _ _ (fun _ => (Done, hs))), oks_maintain.
  - apply (Hret _ _ _ (fun _ => (Done, hs))), oks_worker.
  - apply (Hret _ _ _ (fun _ => (Done, hs))), oks_compactor.
Qed.
End engine.

(** ** Sessions *)

Section sessions.
Context `{PlatformOk}.

Lemma represents_not_poisoned room sp hs s : represents room sp hs s -> ~ poisoned s.1.
Proof. intros (hist & T & [Hok _] & _) Hp. apply Hp, Hok. Qed.

Lemma session_step room sp hs op ops s :
  represents room sp hs s -> op_cost op <= room -> quiet (w_fs s.2) ->
  exists reply hs' s1, exec hs op s = (Ok (reply, hs'), s1) /\ represents (room - op_cost op) (spec_exec sp op).2 hs' s1 /\
    quiet (w_fs s1.2) /\ (session hs (op :: ops) s).2 = (session hs' ops s1).2.
Proof.
  intros Hr Hc Hq. pose proof (exec_refines room sp hs op s Hr Hc) as Hx. unfold wp in Hx. cbn [session].
  unfold attempt, mbind, ST_bind. destruct (exec hs op s) as [[[reply hs']|e|] s1]; cbn [fst snd] in Hx; [|by destruct Hx|done].
  destruct Hx as (_ & [[Hr1 Hk]|[_ Hn]]); [|done]. exists reply, hs', s1. split_and!; [done|done|by apply Hk|].
  by destruct (session hs' ops s1) as [[rs|e|] s2].
Qed.

Lemma session_rests room sp hs ops s dir :
  represents room sp hs s -> session_cost ops <= room -> quiet (w_fs s.2) -> resting dir [] [] s ->
  resting dir [] [] (session hs ops s).2.
Proof.
  revert room sp hs s. induction ops as [|op ops IH]; intros room sp hs s Hr Hc Hq Hrest; [done|].
  cbn [session_cost foldr] in Hc. fold (session_cost ops) in Hc.
  destruct (session_step room sp hs op ops s Hr ltac:(lia) Hq) as (reply & hs' & s1 & E & Hr1 & Hq1 & ->).
  destruct (oks_exec hs op dir [] s (reply, hs') s1 Hrest E) as [Hrest1|Hp]; [|by destruct (represents_not_poisoned _ _ _ _ Hr1)].
  by apply (IH (room - op_cost op) _ hs' s1 Hr1 ltac:(lia)).
Qed.
End sessions.

(** ** Opening *)

Section opening.
Context `{Platform}.

Lemma oks_files {A} (m : FsM A) D ps : frames same_files m -> oks (tidy D ps) m (fun _ => tidy D ps).
Proof. intros Hm. apply (oks_frames same_files); [|done]. intros s s'. apply tidy_same. Qed.

Lemma oks_lock dir D : oks (tidy D []) (dir_lock_acquire dir) (fun _ => tidy D [lock_path dir]).
Proof.
  unfold dir_lock_acquire. eapply oks_bind; [apply oks_files, frames_exists|]. intros existed.
  intros s h s' Ht (r & s1 & E1 & E)%bind_run_inv. unfold attempt in E1.
  destruct (open (lock_path dir) FileSystem.Lock s) as [[h0|e|] s0] eqn:Eo; try done; injection E1 as <- <-.
  2: { by destruct e as [[]| | | |]. }
  apply (oks_open_lock _ D []) in Eo; [|done]. rewrite bind_mret in E. destruct existed; [by injection E as _ <-|].
  unfold attempt, mbind, ST_bind in E. destruct (sync_dir dir s0) as [[[]|e|] s2] eqn:Es; [|by injection E|done].
  injection E as _ <-. eapply tidy_mono; [done| |eapply oks_sync_dir; [|exact Eo|exact Es]]; [set_solver|by repeat constructor].
Qed.

Lemma oks_migrate dir D ps :
  Forall (fun p => p_dir p = dir) ps -> oks (tidy D ps) (migrate_dir dir) (fun _ => tidy D []).
Proof.
  intros Hps. unfold migrate_dir. eapply oks_bind; [apply oks_files, frames_list_dir|]. intros paths.
  eapply oks_bind; [apply oks_files; framing|]. intros next. eapply oks_bind; [by apply oks_manifest_create|]. intros m.
  eapply oks_bind; [apply (oks_with_manifest _ m (ba_file (m_file m)) D [] D []); [done|apply oks_manifest_append]|].
  intros [[] m']. apply oks_ret. by intros s [_ ?].
Qed.

(** A log that is opened may be new. *)
Lemma oks_wal_open p D ps :
  oks (tidy D ps) (wal_open_append p Durable) (fun w s => wal_sync w = Durable /\ tidy (ba_file (wal_file w) :: D) (p :: ps) s).
Proof.
  unfold wal_open_append. eapply oks_bind; [apply oks_open_append|]. intros h.
  eapply oks_bind; [apply oks_files, frames_file_size|]. intros n. eapply oks_bind; [apply oks_files; framing|]. intros front.
  eapply oks_bind; [apply oks_lift|]. intros kind. destruct (n =? 0).
  - eapply oks_bind; [apply (oks_with_buf _ h D (p :: ps) (h :: D) (p :: ps))|].
    + eapply oks_bind; [apply oks_buf_write|]. intros []. apply oks_buf_flush.
    + intros [[] b]. apply oks_ret. intros s [<- ?]. by split.
  - apply oks_ret. intros s Ht. split; [done|]. eapply tidy_mono; [..|exact Ht]; set_solver.
Qed.

(** A log that exists is opened as it is. *)
Lemma oks_wal_reopen p b D ps :
  b <> [] -> oks (fun s => tidy D ps s /\ path_data s p = Some b) (wal_open_append p Durable)
    (fun w s => wal_sync w = Durable /\ tidy D ps s).
Proof.
  intros Hb s w s' [Ht (h & En & Ed)%path_data_is_name]. unfold wal_open_append. intros (h' & s1 & E1 & E)%bind_run_inv.
  assert (h' = h /\ same_files s s1) as [-> Hs].
  { unfold open in E1. destruct (guarded_cases (open_or_create p) s) as [(k & t & E' & _)|(f & E' & _)]; rewrite E' in E1; [done|].
    unfold open_or_create in E1. cbn [fs_names set_faults] in E1. rewrite En in E1. by injection E1 as <- <-. }
  apply bind_run_inv in E as (n & s2 & E2 & E). assert (n = len b /\ same_files s1 s2) as [-> Hs2].
  { unfold file_size in E2. match type of E2 with guarded ?op s1 = _ => destruct (guarded_cases op s1) as [(k & t & E' & _)|(f & E' & _)] end;
      rewrite E' in E2; [done|]. injection E2 as <- <-. split; [|done]. rewrite <- Ed. unfold file_data. cbn [fs_inodes set_faults].
    destruct Hs as (-> & _). done. }
  assert ((len b =? 0) = false) as En0 by (destruct b; [done|by apply N.eqb_neq; cbn; lia]). rewrite En0 in E.
  apply (tidy_same D ps) in Hs; [|done]. apply (tidy_same D ps) in Hs2; [|done].
  apply bind_run_inv in E as (front & s3 & E3 & E). apply (oks_files (read_at h 0 HEADER_LEN) D ps (frames_read_at _ _ _) _ _ _ Hs2) in E3.
  apply bind_run_inv in E as (kind & s4 & E4 & E). apply (oks_lift _ _ _ _ _ E3) in E4. injection E as <- <-. by split.
Qed.

(** What opening needs of a log: nothing, or that it is there. *)
Lemma oks_load dir opts lock m st (P : FsState -> Prop) D ps :
  o_sync_wal opts = Durable -> (forall s s', same_files s s' -> P s -> P s') ->
  (forall p s s', left_over dir (live_tables st) p = true -> P s -> remove p s = (Ok tt, s') -> P s') ->
  oks P (wal_open_append (join dir WAL_FILENAME) Durable) (fun w s => wal_sync w = Durable /\ tidy (D w) (ps w) s) ->
  oks (fun w => P (w_fs w)) (load_dir dir opts lock m st) (fun d w => resting dir (D (db_wal d)) (ps (db_wal d)) (d, w)).
Proof.
  intros Ho Hsame Hrem Hwal. unfold load_dir.
  assert (forall A (m : WM A), frames same_files_w m -> oks (fun w => P (w_fs w)) m (fun _ w => P (w_fs w))) as Hf.
  { intros A x Hx. apply (oks_frames same_files_w); [|done]. intros w w' Hw. by apply Hsame. }
  assert (forall A (x : FsM A) (Q : A -> FsState -> Prop), oks P x Q -> oks (fun w => P (w_fs w)) (on_files x) (fun a w => Q a (w_fs w))) as Hon.
  { intros A x Q Hx. apply (oks_zoom _ _ _ _ (fun _ => P)); [done|]. intros w0 _. by eapply oks_mono; [exact Hx|..]. }
  eapply oks_bind; [apply Hf; framing|]. intros paths. eapply oks_bind; [apply (Hon _ _ (fun _ => P)), oks_for_each|].
  { intros p _ s [] s' Hp. rewrite reclaim_left_over. destruct (left_over dir _ p) eqn:El; [by eapply Hrem|by intros [= <-]]. }
  intros []. eapply oks_bind; [apply Hf; framing|]. intros tables. eapply oks_bind; [apply Hf, frames_on_files; unfold wal_replay; framing|]. intros replayed.
  eapply oks_bind; [apply oks_lift|]. intros [mem next]. rewrite Ho. eapply oks_bind; [apply (Hon _ _ _ Hwal)|]. intros w.
  apply oks_ret. intros w' [? ?]. by split.
Qed.
End opening.

(** A directory that was never opened: the first log is left open. *)
Lemma first_rests `{Platform} dir opts s d w :
  o_sync_wal opts = Durable -> tidy [] [] s -> db_open dir opts (mkWorld s ∅ 0) = (Ok d, w) ->
  resting dir [wal_handle (d, w)] [join dir WAL_FILENAME] (d, w).
Proof.
  intros Ho Ht. unfold db_open. intros ([] & w1 & E1 & E)%bind_run_inv.
  pose proof (frames_on_files _ (frames_create_dir dir) (mkWorld s ∅ 0)) as H1. rewrite E1 in H1.
  apply (tidy_same [] []) in H1; [|done]. cbn [snd] in H1. clear E1.
  apply bind_run_inv in E as (lock & w2 & E2 & E). unfold on_files, zoom in E2. destruct (dir_lock_acquire dir (w_fs w1)) as [o s2] eqn:El.
  injection E2 as -> <-. apply (oks_lock dir []) in El; [|done].
  apply bind_run_inv in E as (r & w3 & E3 & E). unfold attempt in E3. set (w2 := mkWorld s2 _ _) in *.
  destruct (recover dir opts lock w2) as [[d0|e|] w4] eqn:Er; try done; injection E3 as <- <-.
  2: { apply bind_run_inv in E as ([] & ? & _ & [=]). }
  injection E as <- <-. unfold recover in Er. apply bind_run_inv in Er as ([m st] & w5 & E5 & Er).
  unfold on_files, zoom in E5. cbn [w_fs w2] in E5. match type of E5 with (let '(_, _) := ?x in _) = _ => destruct x as [o s5] eqn:Em end.
  injection E5 as -> <-. assert (tidy [] [] s5) as H5.
  { apply bind_run_inv in Em as (e & s6 & E6 & Em). apply (oks_files _ _ _ (frames_exists _) _ _ _ El) in E6.
    assert (Forall (fun p => p_dir p = dir) [lock_path dir]) as Hps by by repeat constructor.
    destruct e; [by eapply oks_manifest_open|by eapply oks_migrate]. }
  eapply (oks_load dir opts lock m st (tidy [] []) (fun w => [ba_file (wal_file w)]) (fun _ => [join dir WAL_FILENAME])) in Er; try done.
  - intros s0 s0'. apply tidy_same.
  - intros p s0 s0' _. by apply oks_remove.
  - apply oks_wal_open.
Qed.

(** A directory with a manifest and a log: nothing is left open. *)
Lemma reopen_rests `{PlatformOk} dir opts s g edits b d w :
  o_sync_wal opts = Durable -> quiet s -> fs_locks s = ∅ -> dir ∈ fs_dirs s -> tidy [] [] s -> manifest_file dir g edits s ->
  path_data s (join dir WAL_FILENAME) = Some b -> b <> [] ->
  db_open dir opts (mkWorld s ∅ 0) = (Ok d, w) -> resting dir [] [] (d, w).
Proof.
  intros Ho Hq Hl Hdir Ht Hmf Hb Hne. unfold db_open.
  destruct (create_dir_quiet dir s Hq (td_good _ _ _ Ht)) as (s1 & E1 & Ht1 & Hd1 & Hl1).
  assert (on_files (create_dir_all dir) (mkWorld s ∅ 0) = (Ok tt, mkWorld s1 ∅ 0)) as E1' by (unfold on_files, zoom; cbn [w_fs]; by rewrite E1).
  rewrite (bind_run_ok _ _ _ _ _ E1'). pose proof (frames_create_dir dir s) as H1. rewrite E1 in H1.
  apply (tidy_same [] []) in H1; [|done]. cbn [snd] in H1.
  destruct (lock_acquire_quiet dir s1) as (lock & s2 & E2 & Ht2); [by apply Ht1|apply Ht1|done|by rewrite Hl1|].
  pose proof (oks_lock dir [] _ _ _ H1 E2) as H2.
  assert (on_files (dir_lock_acquire dir) (mkWorld s1 ∅ 0) = (Ok lock, mkWorld s2 ∅ 0)) as E2' by (unfold on_files, zoom; cbn [w_fs]; by rewrite E2).
  rewrite (bind_run_ok _ _ _ _ _ E2').
  assert (touches [lock_path dir] s s2) as Ht12 by (eapply touches_trans; [eapply (touches_mono []); [set_solver|exact Ht1]|exact Ht2]).
  assert (forall nm, nm <> "LOCK"%string -> join dir nm ∉ [lock_path dir]) as Hnl by (intros nm Hnm; rewrite list_elem_of_singleton; by intros [= ?]).
  assert (manifest_file dir g edits s2) as Hmf2.
  { eapply manifest_file_touches; [exact Ht12|by apply Hnl| |done]. apply Hnl. unfold manifest_name. names_differ. }
  intros (r & w3 & E3 & E)%bind_run_inv. unfold attempt in E3. set (w2 := mkWorld s2 _ _) in *.
  destruct (recover dir opts lock w2) as [[d0|e|] w4] eqn:Er; try done; injection E3 as <- <-.
  2: { apply bind_run_inv in E as ([] & ? & _ & [=]). }
  injection E as <- <-. unfold recover in Er. apply bind_run_inv in Er as ([m st] & w5 & E5 & Er).
  unfold on_files, zoom in E5. cbn [w_fs w2] in E5. match type of E5 with (let '(_, _) := ?x in _) = _ => destruct x as [o s5] eqn:Em end.
  injection E5 as -> <-.
  assert (quiet s2) as Hq2 by (by apply (touches_quiet _ _ _ Ht12)).
  assert (manifest_exists dir s2 = (Ok true, s2)) as Eex.
  { destruct Hmf2 as (_ & Hc & _). unfold manifest_exists, exists_path.
    assert (path_size (join dir CURRENT_FILENAME) s2 = (Ok (len (current_line g)), s2)) as Esz.
    { unfold path_size. rewrite guarded_quiet by done. by rewrite Hc. }
    by rewrite (bind_attempt_ok _ _ _ _ _ Esz). }
  rewrite (bind_run_ok _ _ _ _ _ Eex) in Em.
  pose proof (manifest_open_quiet dir g edits s2 Hq2 (touches_good _ _ _ Ht12) (touches_dirs _ _ _ Ht12 dir Hdir) Hmf2) as Hw.
  unfold wp in Hw. rewrite Em in Hw. cbn [fst snd] in Hw. destruct Hw as [Ht5 _].
  apply (oks_manifest_open dir [] [lock_path dir] ltac:(by repeat constructor) _ _ _ H2) in Em.
  assert (path_data s5 (join dir WAL_FILENAME) = Some b) as Hb5.
  { rewrite (touches_data _ _ _ Ht5) by (unfold rollover_paths; paths). by rewrite (touches_data _ _ _ Ht12) by by apply Hnl. }
  eapply (oks_load dir opts lock m st (fun s => tidy [] [] s /\ path_data s (join dir WAL_FILENAME) = Some b) (fun _ => []) (fun _ => [])) in Er; try done.
  - intros s0 s0' Hs [H0 Hp]. split; [by eapply tidy_same|]. unfold path_data in *. destruct Hs as (<- & <- & _). done.
  - intros p s0 s0' Hlo [H0 Hp] Er'. split; [by eapply oks_remove|].
    unfold remove in Er'. match type of Er' with guarded ?op s0 = _ => destruct (guarded_cases op s0) as [(k & t & E' & _)|(f & E' & _)] end;
      rewrite E' in Er'; [done|]. cbn [fs_names set_faults] in Er'. destruct (fs_names s0 !! p); [|done]. injection Er' as <-.
    unfold path_data in *. cbn. rewrite lookup_delete_ne; [done|]. intros ->. by rewrite keep_wal in Hlo.
  - by apply oks_wal_reopen.
Qed.
