(* ===== verification/PowerLoss.v ===== *)
(** * Loss of power

    When the power fails a file keeps the bytes of its last sync; of what was written
    after it anything may be left: nothing, a part of it, zeros or garbage.  A name is what
    it was at the last sync of its directory or what it is now.  An engine whose log is
    durable, and whose directory was synced since the log was created, loses nothing that
    it has acknowledged. *)
From Stdlib Require Import NArith Lia.
From stdpp Require Import base numbers list strings gmap.
From S2P Require Import Prelude Errors FileNames Platform State FileSystem Store Records Versions MemTable.
From S2P Require Import Headers Frames WriteAheadLog Manifest ManifestRecovery SsTables TableLayout TableReads Tables Merging Compaction Engine.
From S2P Require Import Layers Writes Flushes Specification Sessions Threads Recovery Restarts Syncing Settled.

Local Open Scope N_scope.

(** ** What a disk may hold afterwards *)

Record loses (s s' : FsState) : Prop := mkLoses {
  lo_names : forall p, fs_names s' !! p = fs_names s !! p \/ fs_names s' !! p = fs_durable s !! p;
  lo_inodes : forall h i, fs_inodes s !! h = Some i -> exists b, fs_inodes s' !! h = Some (mkInode b (len b)) /\
    take (N.to_nat (i_synced i)) b = take (N.to_nat (i_synced i)) (i_data i) /\ (length b <= length (i_data i))%nat;
  lo_valid : forall h, is_Some (fs_inodes s' !! h) -> is_Some (fs_inodes s !! h);
  lo_durable : fs_durable s' = fs_names s';
  lo_dirs : fs_dirs s' = fs_dirs s;
  lo_next : fs_next s' = fs_next s;
  lo_locks : fs_locks s' = ∅;
  lo_quiet : quiet s'
}.

(** The least that it may hold. *)
Definition power_loss (s : FsState) : FsState :=
  mkFs ((fun i => let b := take (N.to_nat (i_synced i)) (i_data i) in mkInode b (len b)) <$> fs_inodes s)
    (fs_durable s) (fs_durable s) (fs_dirs s) ∅ (fs_next s) [] false.

Lemma power_loss_loses s : loses s (power_loss s).
Proof.
  split; try done; cbn [power_loss fs_names fs_inodes].
  - by right.
  - intros h i Hi. exists (take (N.to_nat (i_synced i)) (i_data i)). rewrite lookup_fmap, Hi. split_and!; [done| |].
    + by rewrite take_take, Nat.min_id.
    + rewrite length_take. lia.
  - intros h. by rewrite lookup_fmap, fmap_is_Some.
Qed.

(** Another thing that it may hold: every name, and zeros in the place of the data that was
    not synced. *)
Definition zero_fill (s : FsState) : FsState :=
  mkFs ((fun i => let b := take (N.to_nat (i_synced i)) (i_data i) in
          let z := b ++ replicate (length (i_data i) - length b) x00 in mkInode z (len z)) <$> fs_inodes s)
    (fs_names s) (fs_names s) (fs_dirs s) ∅ (fs_next s) [] false.

Lemma zero_fill_loses s : loses s (zero_fill s).
Proof.
  split; try done; cbn [zero_fill fs_names fs_inodes].
  - by left.
  - intros h i Hi. rewrite lookup_fmap, Hi. eexists. split; [done|].
    set (b := take (N.to_nat (i_synced i)) (i_data i)). assert (length b <= length (i_data i))%nat as Hb.
    { unfold b. rewrite length_take. lia. }
    split; [|rewrite length_app, length_replicate; lia].
    destruct (decide (N.to_nat (i_synced i) <= length (i_data i))%nat) as [Hs|Hs].
    + rewrite take_app_le by (unfold b; rewrite length_take; lia). unfold b. by rewrite take_take, Nat.min_id.
    + assert (b = i_data i) as E by (unfold b; apply take_ge; lia).
      rewrite E, Nat.sub_diag. cbn [replicate]. by rewrite app_nil_r.
  - intros h. by rewrite lookup_fmap, fmap_is_Some.
Qed.

(** A file that was synced is kept. *)
Lemma loses_synced s s' h i :
  loses s s' -> fs_inodes s !! h = Some i -> i_synced i = len (i_data i) -> fs_inodes s' !! h = Some i.
Proof.
  intros Hlo Ei Hs. destruct (lo_inodes _ _ Hlo h i Ei) as (b & -> & Hb & Hl). destruct i as [d n]. cbn in *. subst n.
  rewrite Nat2N.id in Hb. rewrite (take_ge d) in Hb by done. rewrite take_ge in Hb by done. by subst b.
Qed.

(** Nothing is lost of a disk on which nothing is open. *)
Lemma loses_data s s' : tidy [] [] s -> loses s s' -> tidy [] [] s' /\ survives [] s s'.
Proof.
  intros [[[W1 W2] U] Hs Ha Hd Hu Hm] Hlo. pose proof Hlo as [Ln _ Lv Ld Ldir Lx _ _].
  assert (forall p h, fs_names s' !! p = Some h -> fs_durable s !! p = Some h) as Hn.
  { intros p h Hp. destruct (Ln p) as [E|E]; rewrite Hp in E; [|done]. apply Ha; [apply not_elem_of_nil|done]. }
  assert (forall h i, fs_inodes s !! h = Some i -> fs_inodes s' !! h = Some i) as Hi.
  { intros h i E. eapply loses_synced; [done..|]. by apply (Hs h); [apply not_elem_of_nil|]. }
  assert (good s') as Hg.
  { split; [split|].
    - intros p h Hp%Hn%Hd. destruct Hp as [i Ei]. rewrite (Hi h i Ei). by eexists.
    - intros h Hh%Lv. rewrite Lx. by apply W2.
    - intros p q h Hp H1%Hn H2%Hn. by eapply Hu. }
  split.
  - split; rewrite ?Ld; try done.
    + intros h i _ Ei. destruct (Lv h ltac:(by eexists)) as [j Ej]. rewrite (Hi h j Ej) in Ei. injection Ei as <-.
      apply (Hs h); [apply not_elem_of_nil|done].
    + apply Hg.
    + apply Hg.
    + intros p q h Hpq Hp Hq. f_equal. destruct Hpq; [by eapply Hg|symmetry; by eapply Hg].
  - split; [done|by rewrite Ldir|]. intros p x _. unfold path_data. destruct (fs_names s !! p) as [h|] eqn:Ep; [|done]. cbn.
    assert (fs_names s' !! p = Some h) as ->.
    { destruct (Ln p) as [->| ->]; [done|]. apply Ha; [apply not_elem_of_nil|done]. }
    cbn. destruct (fs_inodes s !! h) as [i|] eqn:Ei; [|done]. by rewrite (Hi h i Ei).
Qed.

(** ** A log that grows *)

(** Bytes were added to the file [h], and perhaps synced; nothing else happened. *)
Definition longer (i j : Inode) : Prop :=
  i_data i `prefix_of` i_data j /\ (i_synced i <= len (i_data i) -> i_synced i <= i_synced j <= len (i_data j)).

#[export] Instance longer_preorder : PreOrder longer.
Proof.
  split; [intros i; split; [done|lia]|]. intros i j k [Pij Sij] [Pjk Sjk]. split; [by etrans|]. intros Hi. specialize (Sij Hi).
  lia.
Qed.

Record grown (h : N) (s s' : FsState) : Prop := mkGrown {
  gr_names : fs_names s' = fs_names s;
  gr_durable : fs_durable s' = fs_durable s;
  gr_dirs : fs_dirs s' = fs_dirs s;
  gr_next : fs_next s' = fs_next s;
  gr_others : forall j, j <> h -> fs_inodes s' !! j = fs_inodes s !! j;
  gr_file : match fs_inodes s !! h with
            | Some i => exists j, fs_inodes s' !! h = Some j /\ longer i j
            | None => fs_inodes s' !! h = None
            end
}.

Lemma grown_refl h s s' : fs_inodes s' = fs_inodes s -> fs_names s' = fs_names s -> fs_durable s' = fs_durable s ->
  fs_dirs s' = fs_dirs s -> fs_next s' = fs_next s -> grown h s s'.
Proof.
  intros Ei En Ed Er Ex. split; rewrite ?Ei; try done. destruct (fs_inodes s !! h) as [i|]; [|done]. by exists i.
Qed.

#[export] Instance grown_preorder h : PreOrder (grown h).
Proof.
  split; [intros s; by apply grown_refl|]. intros s t u [N1 D1 R1 X1 O1 F1] [N2 D2 R2 X2 O2 F2].
  split; [congruence..|intros j Hj; by rewrite O2, O1|].
  destruct (fs_inodes s !! h) as [i|]; [|by rewrite F1 in F2].
  destruct F1 as (j & E1 & L1). rewrite E1 in F2. destruct F2 as (k & E2 & L2). exists k. split; [done|by etrans].
Qed.

Lemma grown_alter h f s : (forall i, longer i (f i)) -> grown h s (set_inodes (alter f h (fs_inodes s)) s).
Proof.
  intros Hf. split; try done; cbn [set_inodes fs_inodes].
  - intros j Hj. by rewrite lookup_alter_ne.
  - rewrite lookup_alter_eq. destruct (fs_inodes s !! h) as [i|]; [|done]. by exists (f i).
Qed.

Lemma grown_with_fault {A} h (body : option Fault -> FsM A) :
  (forall f, frames (grown h) (body f)) -> frames (grown h) (with_fault body).
Proof.
  intros Hb s. unfold with_fault. destruct (fs_dead s); [by apply grown_preorder|].
  destruct (fs_faults s) as [|f r]; [apply Hb|]. etrans; [|apply (Hb f)]. by apply grown_refl.
Qed.

Lemma grown_crash {A} h : frames (grown h) (crash : FsM A).
Proof. intros s. by apply grown_refl. Qed.

Lemma grown_append h b : frames (grown h) (append h b).
Proof.
  assert (forall x, frames (grown h) (modify (write_bytes h x))) as Hw.
  { intros x. apply frames_modify. intros s. apply grown_alter. intros i. split; [by apply prefix_app_r|].
    cbn. rewrite length_app. lia. }
  apply grown_with_fault. intros [[]|]; auto using frames_fail, grown_preorder;
    (apply frames_bind; [typeclasses eauto|done|]; intros []); auto using frames_fail, grown_preorder, grown_crash.
Qed.

Lemma grown_sync h mode : frames (grown h) (sync_as h mode).
Proof.
  assert (forall (m : FsM unit), frames (grown h) m -> frames (grown h) (guarded m)) as Hg.
  { intros m Hm. apply grown_with_fault. intros [[]|]; auto using frames_fail, grown_preorder, grown_crash. }
  destruct mode; cbn [sync_as]; [apply Hg, frames_modify|apply Hg, frames_ret, _|apply frames_ret, _].
  intros s. apply grown_alter. intros i. split; cbn; [done|lia].
Qed.

(** *** The log's writer *)

Definition buf_grown (s s' : BufAppend * FsState) : Prop := ba_file s'.1 = ba_file s.1 /\ grown (ba_file s.1) s.2 s'.2.

#[export] Instance buf_grown_preorder : PreOrder buf_grown.
Proof.
  split; [by intros s|]. intros s t u [E1 G1] [E2 G2]. split; [congruence|]. rewrite E1 in G2. by etrans.
Qed.

Lemma frames_gets_bind {S A B} (R : S -> S -> Prop) (f : S -> A) (k : A -> ST S B) :
  (forall s, R s (k (f s) s).2) -> frames R (gets f ≫= k).
Proof. intros Hk s. rewrite bind_gets. apply Hk. Qed.

Lemma grown_flush : frames buf_grown buf_flush.
Proof.
  apply frames_gets_bind. intros [b s]. cbn [fst]. case_bool_decide; [done|].
  pose proof (grown_append (ba_file b) (ba_buf b) s) as Hg. unfold attempt, on_fs, zoom, mbind, ST_bind. cbn [snd].
  by destruct (append (ba_file b) (ba_buf b) s) as [[[]|e|] s'].
Qed.

Lemma grown_write b : frames buf_grown (buf_write b).
Proof.
  unfold buf_write. apply frames_bind; [typeclasses eauto|by apply frames_modify|]. intros [].
  apply frames_bind; [typeclasses eauto|apply frames_gets, _|]. intros []; [apply grown_flush|apply frames_ret, _].
Qed.

Lemma grown_sync_as mode : frames buf_grown (buf_sync_as mode).
Proof.
  apply frames_gets_bind. intros [b s]. pose proof (grown_sync (ba_file b) mode s) as Hg. unfold on_fs, zoom. cbn [fst snd].
  by destruct (sync_as (ba_file b) mode s) as [o s'].
Qed.

Definition wal_grown (s s' : Wal * FsState) : Prop := buf_grown (wal_file s.1, s.2) (wal_file s'.1, s'.2).

#[export] Instance wal_grown_preorder : PreOrder wal_grown.
Proof. split; unfold wal_grown; [by intros s|]. intros s t u ? ?. by etrans. Qed.

(** The engine's log grew, and is the engine's log still. *)
Definition log_grown (s s' : DbInner * World) : Prop := wal_handle s' = wal_handle s /\ grown (wal_handle s) (w_fs s.2) (w_fs s'.2).

#[export] Instance log_grown_preorder : PreOrder log_grown.
Proof.
  split; [by intros s|]. intros s t u [E1 G1] [E2 G2]. split; [congruence|]. rewrite E1 in G2. by etrans.
Qed.

Section writer.
Context `{Platform}.

Lemma grown_log records : frames log_grown (on_db_wal (wal_append_batch records)).
Proof.
  apply (frames_zoom _ wal_grown); [done|]. unfold wal_append_batch.
  apply frames_bind; [typeclasses eauto|apply frames_gets, _|]. intros w. case_bool_decide; [apply frames_ret, _|].
  case_match; [apply frames_fail, _|]. apply (frames_zoom _ buf_grown); [done|].
  repeat (apply frames_bind; [typeclasses eauto|first [apply grown_write|apply grown_flush]|intros []]). apply grown_sync_as.
Qed.

Lemma grown_write_batch batch : frames log_grown (db_write_batch batch).
Proof.
  unfold db_write_batch, log_batch, insert_logged, insert_active, send_task, fetch_seq, db_health.
  repeat (first [apply frames_bind; [typeclasses eauto| |intros]|case_match]);
    eauto using frames_gets, frames_ret, frames_fail, frames_lift, grown_log, log_grown_preorder; try (by apply frames_modify).
Qed.

End writer.

(** What the power leaves of a log that was growing: everything that was there before,
    and something in the place of what was added. *)
Lemma grown_loses h p s s' s'' b :
  tidy [] [] s -> grown h s s' -> plain p -> fs_names s !! p = Some h -> loses s' s'' -> path_data s p = Some b ->
  survives [p] s' s'' /\ exists x y, path_data s' p = Some (b ++ x) /\ path_data s'' p = Some (b ++ y) /\ (length y <= length x)%nat.
Proof.
  intros [[[W1 W2] U] Hs Ha Hd Hu Hm] [Gn Gd Gr Gx Go Gf] Hp Hph Hlo Hb. pose proof Hlo as [Ln Li Lv Ld Ldir Lx _ _].
  unfold path_data in Hb. rewrite Hph in Hb. cbn in Hb. destruct (fs_inodes s !! h) as [i|] eqn:Ei; [|done]. injection Hb as <-.
  destruct Gf as (j & Ej & [x Hx] & Hsync). rewrite (Hs h i (not_elem_of_nil h) Ei) in Hsync. specialize (Hsync ltac:(lia)).
  assert (forall q k, fs_names s !! q = Some k -> fs_names s'' !! q = Some k) as Hkeep.
  { intros q k Hq. destruct (Ln q) as [->| ->]; [by rewrite Gn|]. rewrite Gd. by apply Ha; [apply not_elem_of_nil|]. }
  assert (forall q k, fs_names s'' !! q = Some k -> fs_durable s !! q = Some k) as Hn.
  { intros q k Hq. destruct (Ln q) as [E|E]; rewrite Hq in E; [|by rewrite <- Gd].
    apply Ha; [apply not_elem_of_nil|by rewrite <- Gn]. }
  assert (forall k l, k <> h -> fs_inodes s !! k = Some l -> fs_inodes s'' !! k = Some l) as Hi.
  { intros k l Hk E. eapply loses_synced; [done|by rewrite Go|]. by apply (Hs k); [apply not_elem_of_nil|]. }
  destruct (Li h j Ej) as (c & Eh & Hc & Hlen). split.
  - split; [split; [split|]| |].
    + intros q k Hq%Hn%Hd. destruct (decide (k = h)) as [->|Hk]; [by rewrite Eh|]. destruct Hq as [l El].
      by rewrite (Hi k l Hk El).
    + intros k Hk%Lv. rewrite Lx, Gx. apply W2. destruct (decide (k = h)) as [->|Hne]; [by rewrite Ei|by rewrite <- Go].
    + intros q r k Hq H1%Hn H2%Hn. by eapply Hu.
    + by rewrite Ldir.
    + intros q z Hq%not_elem_of_cons. unfold path_data. rewrite Gn. destruct (fs_names s !! q) as [k|] eqn:Eq; [|done]. cbn.
      rewrite (Hkeep q k Eq). cbn. assert (k <> h) as Hk by (intros ->; destruct (proj1 Hq); symmetry; by eapply U).
      rewrite Go by done. destruct (fs_inodes s !! k) as [l|] eqn:El; [|done]. by rewrite (Hi k l Hk El).
  - unfold path_data. rewrite Gn, (Hkeep p h Hph), Hph. cbn. rewrite Ej, Eh. cbn.
    assert (take (length (i_data i)) c = i_data i) as Ec.
    { apply (f_equal (take (length (i_data i)))) in Hc. rewrite !take_take, Nat.min_l in Hc by lia.
      by rewrite Hc, Hx, take_app_length. }
    exists x, (drop (length (i_data i)) c). split_and!; [by rewrite Hx|rewrite <- Ec at 1; by rewrite take_drop|].
    rewrite length_drop. rewrite Hx, length_app in Hlen. lia.
Qed.

(** ** Lives that end with the power *)

Section power.
Context `{PlatformOk}.

(** Processes open the directory one after the other and serve [runs]; each opens, replies
    as the abstract store does, and then the power fails. *)
Fixpoint power_lives (dir : string) (opts : Options) (m : gmap bytes bytes) (s : FsState) (runs : list (list Op)) : Prop :=
  match runs with
  | [] => True
  | ops :: runs => exists d w s1, db_open dir opts (mkWorld s ∅ 0) = (Ok d, w) /\
      session [] ops (d, w) = (Ok (answered (spec_session (mkKV m []) ops).1), s1) /\
      forall s', loses (w_fs s1.2) s' -> power_lives dir opts (kv_map (spec_session (mkKV m []) ops).2) s' runs
  end.

(** A process that has opened the directory and left nothing open on the disk. *)
Definition opened (room : N) (m : gmap bytes bytes) (dir : string) (opts : Options) (s : FsState) : Prop :=
  exists d w, db_open dir opts (mkWorld s ∅ 0) = (Ok d, w) /\ quiet (w_fs w) /\ represents room (mkKV m []) [] (d, w) /\
    log_ok d w /\ resting dir [] [] (d, w).

(** The next process finds everything. *)
Lemma loss_opened room sp hs s dir opts s' :
  represents room sp hs s -> log_ok s.1 s.2 -> resting dir [] [] s -> 1 <= room ->
  o_sync_wal opts = Durable -> 2 <= o_compaction_threshold opts -> loses (w_fs s.2) s' ->
  opened (room - 1) (kv_map sp) dir opts s'.
Proof.
  destruct s as [d w]. intros Hr Hlog [Ed _ _ Ht] Hroom Hdur Hopts Hlo. cbn [fst snd] in *. subst dir.
  destruct (loses_data _ _ Ht Hlo) as [Ht' Hsv]. pose proof (lo_quiet _ _ Hlo) as Hq. pose proof (lo_locks _ _ Hlo) as Hk.
  pose proof (survivor_represents room sp hs d w s' opts Hr Hlog Hroom Hopts Hsv Hq Hk) as Hw. unfold wp in Hw.
  destruct Hr as (hist & T & [Hok _] & _ & _ & _ & _ & _ & _ & Hgen & _). cbn [fst snd] in *.
  destruct (log_ok_data T d w Hok Hlog) as (batches & _ & Hdata & _). apply Hsv in Hdata; [|apply not_elem_of_nil].
  destruct (db_open (db_dir d) opts (mkWorld s' ∅ 0)) as [o w'] eqn:E. cbn [fst snd] in Hw.
  destruct Hw as (Hq' & d1 & -> & Hr1 & Hl1 & _ & _). exists d1, w'. split_and!; try done.
  destruct (dk_manifest _ _ _ Hok) as (edits & Hm & Hne & _).
  eapply (reopen_rests _ _ s' (m_generation (db_manifest d)) edits); try done; [apply Hsv, Hok|].
  destruct Hm. unfold manifest_file. split_and!; try done; [lia|by apply Hsv; [apply not_elem_of_nil|]|].
  exists []. split; [apply torn_nil|]. rewrite app_nil_r. by apply Hsv; [apply not_elem_of_nil|].
Qed.

Lemma session_lives room m dir opts d w ops runs :
  represents room (mkKV m []) [] (d, w) -> log_ok d w -> quiet (w_fs w) -> session_cost ops + lives_cost runs <= room ->
  o_sync_wal opts = Durable -> 2 <= o_compaction_threshold opts ->
  resting dir [] [] (session [] ops (d, w)).2 ->
  (forall m' s' room', opened room' m' dir opts s' -> lives_cost runs <= room' + 1 -> power_lives dir opts m' s' runs) ->
  exists s1, session [] ops (d, w) = (Ok (answered (spec_session (mkKV m []) ops).1), s1) /\
    forall s', loses (w_fs s1.2) s' -> power_lives dir opts (kv_map (spec_session (mkKV m []) ops).2) s' runs.
Proof.
  intros Hr Hl Hq Hc Hdur Hopts Hrest Hnext.
  pose proof (session_quiet room (mkKV m []) [] ops (d, w) Hr ltac:(lia) Hq) as Hses. unfold wp in Hses.
  destruct (session [] ops (d, w)) as [o s1]. cbn [fst snd] in *. destruct Hses as (-> & (Hin & Hlog & _) & hs' & Hr').
  exists s1. split; [done|]. intros s' Hlo. destruct runs as [|ops' runs]; [done|].
  cbn [lives_cost foldr] in Hc. apply (Hnext _ _ (room - session_cost ops - 1)); [|cbn [lives_cost foldr]; lia].
  eapply loss_opened; try done; [by apply Hlog|lia].
Qed.

Lemma opened_lives room m dir opts s runs :
  o_sync_wal opts = Durable -> 2 <= o_compaction_threshold opts ->
  opened room m dir opts s -> lives_cost runs <= room + 1 -> power_lives dir opts m s runs.
Proof.
  intros Hdur Hopts. revert room m s. induction runs as [|ops runs IH]; intros room m s Hop Hc; [done|].
  cbn [lives_cost foldr] in Hc. fold (lives_cost runs) in Hc. destruct Hop as (d & w & E & Hq & Hr & Hl & Hrest).
  destruct (session_lives room m dir opts d w ops runs) as (s1 & Es & Hnext); try done; [lia| |by eauto|].
  { by apply (session_rests room (mkKV m [])); [|lia|..]. }
  by exists d, w, s1.
Qed.

(** *** A write that the power interrupts *)

(** The checksum tells what is left in the place of the frame of [recs] from the frame of
    anything else. *)
Definition detected (recs : list Rec) (y : bytes) : Prop :=
  forall payload rest, y = frame_bytes (wal_checksum (Versioned WAL_VERSION)) payload ++ rest -> payload = batch_payload true recs.

Lemma detected_frame recs :
  len (batch_payload true recs) <= U32_MAX -> detected recs (frame (wal_checksum (Versioned WAL_VERSION)) true recs).
Proof.
  intros Hl payload rest. unfold frame. set (cs := wal_checksum (Versioned WAL_VERSION)). set (p := batch_payload true recs) in *.
  intros E. pose proof (read_frame_at cs [] p [] Hl) as E1. rewrite app_nil_r, E in E1.
  assert (len payload <= U32_MAX) as Hp.
  { apply (f_equal length) in E. rewrite length_app in E. pose proof (length_frame_bytes cs p). pose proof (length_frame_bytes cs payload). lia. }
  pose proof (read_frame_at cs [] payload rest Hp) as E2. rewrite E2 in E1. by injection E1.
Qed.

Lemma detected_cases recs y :
  detected recs y -> (length y <= length (frame (wal_checksum (Versioned WAL_VERSION)) true recs))%nat -> whole_or_none recs y.
Proof.
  intros Hy Hl. destruct (frame_or_none (wal_checksum (Versioned WAL_VERSION)) y) as [?|(payload & rest & -> & _)]; [by left|right].
  rewrite (Hy payload rest eq_refl) in *. unfold frame in *. rewrite length_app in Hl. destruct rest; [by rewrite app_nil_r|cbn in Hl; lia].
Qed.

(** What the disk [s'] has in the log after the bytes it had on [s] is detected. *)
Definition log_detected (dir : string) (recs : list Rec) (s s' : FsState) : Prop :=
  forall b y, path_data s (join dir WAL_FILENAME) = Some b -> path_data s' (join dir WAL_FILENAME) = Some (b ++ y) -> detected recs y.

(** The write may fail at any of its steps, and the power with it: the batch is there as
    a whole or not at all, and it is there if it was acknowledged. *)
Lemma write_loses room sp hs s dir ops opts :
  represents room sp hs s -> log_ok s.1 s.2 -> resting dir [] [] s -> 2 + writes_size ops <= room ->
  2 <= o_compaction_threshold opts ->
  wp (db_write_batch ops) s (fun o s1 => forall s', loses (w_fs s1.2) s' ->
    log_detected dir (numbered (db_next_seq s.1) ops) (w_fs s.2) s' ->
    wp (db_open dir opts) (mkWorld s' ∅ 0) (fun o' w' => quiet (w_fs w') /\
      exists d1 m, o' = Ok d1 /\ (m = foldl kv_write (kv_map sp) ops \/ o <> Ok tt /\ m = kv_map sp) /\
        represents (room - (2 + writes_size ops)) (mkKV m []) [] (d1, w'))).
Proof.
  destruct s as [d w]. intros (hist & T & Hr) Hlog Hrest Hc Hopts. cbn [fst snd] in *.
  assert (1 + writes_size ops <= room) as Hc1 by lia.
  destruct (represents_fits _ _ _ _ _ _ _ Hr Hc1) as (Hwf & Hseq & Hsz). cbn [fst] in *.
  pose proof (wp_db_write_batch hist T d w ops (proj1 Hr) Hwf Hseq Hsz) as Hw.
  pose proof (oks_write_batch ops dir [] [] (d, w)) as Hok'. pose proof (grown_write_batch ops (d, w)) as Hgr. revert Hw. unfold wp.
  destruct (db_write_batch ops (d, w)) as [o [d' w']]. cbn [fst snd] in *. intros Hpost s' Hlo Hdet.
  pose proof (write_represents _ _ _ _ _ _ _ _ _ Hr Hc1 Hpost) as Hrep. pose proof Hrest as [Edir _ _ Ht]. cbn [fst snd] in Edir, Ht.
  destruct Hpost as (Hcfg & Et & Hi & Hn & _ & _ & Ho). pose proof Hcfg as (Ed & _). cbn [fst snd] in *.
  pose proof (lo_quiet _ _ Hlo) as Hq. pose proof (lo_locks _ _ Hlo) as Hk. rewrite <- Edir, <- Ed. destruct o as [[]|e|]; [| |done].
  - destruct Hrep as [Hrep _]. destruct (Hok' tt (d', w') Hrest eq_refl) as [_ _ _ Ht'].
    destruct (loses_data _ _ Ht' Hlo) as [_ Hsv].
    eapply wp_mono; [apply (survivor_represents (room - (1 + writes_size ops)) (kv_update ops sp) hs d' w' s' opts); try done;
      [by eexists _, _|by apply Ho|lia]|].
    intros o' w2 (Hq2 & d1 & -> & Hr1 & _). split; [done|]. eexists d1, _. split_and!; [done|by left|].
    eapply represents_room; [|exact Hr1]. lia.
  - destruct Ho as (_ & Hs & Ea & Hpart). destruct (Hpart Hlog) as (batches & x & Hbs & Hwb & Eact & Hx & Hd0 & Hd).
    destruct Hr as ([Hok Hh] & Hr). cbn [fst snd] in *. rewrite length_numbered in Hn.
    destruct Hlog as (bs & (_ & Hname & _) & _). rewrite (dk_wal_path _ _ _ Hok) in Hname.
    destruct (grown_loses _ (join (db_dir d) WAL_FILENAME) _ _ _ _ Ht (proj2 Hgr) ltac:(done) Hname Hlo Hd0) as (Hsv & x' & y & Hdx & Hdy & Hle).
    cbn [fst snd] in *. rewrite Hd in Hdx. injection Hdx as E%app_inv_head. subst x'.
    assert (whole_or_none (numbered (db_next_seq d) ops) y) as Hy.
    { apply detected_cases; [rewrite <- Edir in Hdet; by eapply Hdet|]. apply prefix_length in Hx. lia. }
    rewrite <- Ed in Hsv, Hdy.
    eapply wp_mono; [apply (partial_restart room sp hs hist T d w ops d' w' batches y opts s'); done|].
    intros o' w2 (Hq2 & d1 & m & -> & Hm & Hr1). split; [done|]. exists d1, m. split_and!; [done| |done].
    destruct Hm as [-> | ->]; [by left|by right].
Qed.

(** *** The first process *)

(** A write leaves something to flush. *)
Lemma insert_logged_fills r s a s' : insert_logged [r] s = (Ok a, s') -> mt_is_empty (db_active s'.1) = false.
Proof.
  assert (forall d, mt_is_empty (mt_insert r d) = false) as Hne.
  { intros m. apply bool_decide_eq_false. rewrite mt_insert_map. destruct (mt_map m) as [|x l]; [done|]. cbn.
    by destruct (version_cmp _ _), (map_insert r l). }
  unfold insert_logged, insert_active, send_task, update. rewrite !bind_assoc, bind_modify, bind_gets. cbn.
  case_match; [unfold modify|]; intros [= <- <-]; apply Hne.
Qed.

(** It writes a record and flushes it: the directory is synced, and the name of its log
    with it. *)
Lemma first_session_rests room dir d w key value ops :
  represents room (mkKV ∅ []) [] (d, w) -> quiet (w_fs w) -> session_cost (Put key value :: FlushOnly :: ops) <= room ->
  resting dir [wal_handle (d, w)] [join dir WAL_FILENAME] (d, w) ->
  resting dir [] [] (session [] (Put key value :: FlushOnly :: ops) (d, w)).2.
Proof.
  intros Hr Hq Hc Hrest. cbn [session_cost foldr] in Hc. fold (session_cost ops) in Hc.
  destruct (session_step room _ _ (Put key value) (FlushOnly :: ops) (d, w) Hr ltac:(lia) Hq) as ([] & hs1 & s1 & E1 & Hr1 & Hq1 & ->);
    cbn [exec] in E1; apply bind_run_inv in E1 as ([] & s1' & E1 & [=]); subst.
  destruct (session_step _ _ _ FlushOnly ops s1 Hr1 ltac:(lia) Hq1) as ([] & hs2 & s2 & E2 & Hr2 & Hq2 & ->);
    cbn [exec] in E2; apply bind_run_inv in E2 as ([] & s2' & E2 & [=]); subst.
  eapply session_rests; [exact Hr2|lia|done|].
  eapply (oks_flush_some dir [] [join dir WAL_FILENAME]); [by constructor| |exact E2]. split.
  - by eapply (oks_write key (Some value) dir [] [join dir WAL_FILENAME] (d, w)).
  - unfold db_put, db_write, log_write in E1. apply bind_run_inv in E1 as (_ & t1 & _ & E1).
    apply bind_run_inv in E1 as (rs & t2 & E & E1). apply bind_run_inv in E as (seq & t3 & _ & E).
    apply bind_run_inv in E as (_ & t4 & _ & [= <- <-]). by eapply insert_logged_fills.
Qed.

Lemma first_lives dir opts s key value ops runs :
  fresh_dir dir (reboot s) -> tidy [] [] s -> o_sync_wal opts = Durable -> 2 <= o_compaction_threshold opts ->
  let runs' := (Put key value :: FlushOnly :: ops) :: runs in
  lives_cost runs' <= SIZE_LIMIT -> power_lives dir opts ∅ (reboot s) runs'.
Proof.
  intros Hf Ht Hdur Hopts runs' Hc. unfold runs' in *. clear runs'. cbn [lives_cost foldr] in Hc. fold (lives_cost runs) in Hc.
  pose proof (first_open dir opts s (td_good _ _ _ Ht) Hf Hopts) as Hw. unfold wp, process in Hw.
  destruct (db_open dir opts (mkWorld (reboot s) ∅ 0)) as [o w] eqn:E. cbn [fst snd] in Hw.
  destruct Hw as (Hq & d & -> & Hr & Hl & _ & _).
  pose proof (first_rests dir opts (reboot s) d w Hdur (tidy_same _ _ s (reboot s) ltac:(by split_and!) Ht) E) as Hrest.
  destruct (session_lives SIZE_LIMIT ∅ dir opts d w (Put key value :: FlushOnly :: ops) runs) as (s1 & Es & Hnext); try done; [lia| | |].
  { apply (first_session_rests SIZE_LIMIT); try done. lia. }
  { intros m' s' room' Hop Hc'. by eapply opened_lives. }
  by exists d, w, s1.
Qed.
End power.
