(* ===== verification/Crashes.v ===== *)
(** * A process that dies among its threads

    What a new process finds when the old one ended inside of calls, with a write that
    was logged and not yet inserted, or a flush that was not finished: every write that
    was acknowledged, and the logged one.  When the flush had recorded its table and not
    yet replaced the log, the records come up twice, in the MemTable and in the table. *)
From Stdlib Require Import NArith Lia.
From stdpp Require Import base numbers list sorting strings gmap.
From S2P Require Import Prelude Errors FileNames Platform State FileSystem Store Records Versions MemTable.
From S2P Require Import Headers Frames WriteAheadLog Manifest ManifestRecovery.
From S2P Require Import Bloom SsTables TableLayout TableReads Tables Merging Compaction Scans Engine.
From S2P Require Import Layers Writes Flushes CompactSteps Specification Sessions Threads Looks Schedules Sections.
From S2P Require Import Recovery Restarts.

Local Open Scope N_scope.

(** ** Logs and MemTables *)

(** Records that go into a MemTable on top of others. *)
Lemma mt_insert_all_union recs m x :
  mt_ok m -> Forall (fun r => r_seq r <= U64_MAX) recs ->
  x ∈ mt_map (mt_insert_all recs m) <->
    x ∈ mt_map (mt_insert_all recs (mt_new 0)) \/ x ∈ mt_map m /\ version x ∉ version <$> recs.
Proof.
  intros Hm. induction recs as [|r recs IH] using rev_ind; intros Hr.
  { cbn. rewrite elem_of_nil. split; [intros ?; right; split; [done|apply not_elem_of_nil]|tauto]. }
  apply Forall_app in Hr as [Hrs Hr]. specialize (IH Hrs).
  assert (forall m', mt_insert_all (recs ++ [r]) m' = mt_insert r (mt_insert_all recs m')) as E.
  { intros m'. unfold mt_insert_all. by rewrite foldl_app. }
  rewrite !E, !mt_insert_map, !map_insert_elem_of, IH by (apply mt_insert_all_ok; [(done || apply mt_new_ok)|done]).
  rewrite fmap_app, not_elem_of_app. cbn. rewrite list_elem_of_singleton. tauto.
Qed.

Lemma log_record_version recs r :
  Forall (fun r => r_seq r <= U64_MAX) recs -> r ∈ recs ->
  exists y, y ∈ mt_map (mt_insert_all recs (mt_new 0)) /\ version y = version r.
Proof.
  intros Hs Hr. pose proof (mt_insert_all_versions recs (mt_new 0) r (mt_new_ok 0) Hs ltac:(by left)) as Hv.
  apply list_elem_of_fmap in Hv as (y & E & Hy). eauto.
Qed.

Section crash.
Context `{PlatformOk}.
Context (base : list Rec) (sp : KV) (hs : list N).

Local Abbreviation hist := (Schedules.hist base).
Local Abbreviation shared := (Schedules.shared base sp hs).

(** What is in the tables of the engine without the flush. *)
Lemma view_tabs st T d v x :
  view st T d v -> (x ∈ tabs T v -> x ∈ froz d ++ tabs T d) /\ (x ∈ tabs T d -> x ∈ tabs T v).
Proof.
  rewrite elem_of_app. destruct st as [|m|m t|m|m]; cbn.
  - intros ->. auto.
  - intros [_ (m' & -> & _) _ _ _]. auto.
  - intros (Hf & _ & -> & Et). rewrite (tabs_snoc T (with_table t d) (db_sstables d) t), elem_of_app, Et by done.
    unfold froz. rewrite Hf. auto.
  - intros (_ & _ & -> & _). auto.
  - intros (_ & _ & -> & _). auto.
Qed.

(** What of the frozen MemTable is in the log only. *)
Lemma stage_frozen st T d v w th old :
  view st T d v -> db_ok T v w -> stage_log st th old ->
  exists frozen, (forall x, x ∈ mt_map (mt_insert_all old (mt_new 0)) <-> x ∈ frozen) /\
    (frozen = froz d \/ frozen = [] /\ forall x, x ∈ froz d -> x ∈ tabs T v).
Proof.
  intros Hv Hok Hold.
  assert (forall m, db_frozen d = Some m -> m = mt_insert_all old (mt_new th) ->
    forall x, x ∈ mt_map (mt_insert_all old (mt_new 0)) <-> x ∈ froz d) as Hm.
  { intros m Hf ->. unfold froz. rewrite Hf. cbn. unfold mt_iter. by rewrite (mt_insert_all_map old (mt_new th) (mt_new 0)). }
  destruct st as [|m|m t|m|m]; cbn in Hold, Hv; try (exists (froz d); split; [by eapply Hm; [apply Hv|]|by left]).
  - subst old. exists []. split; [done|]. right. split; [done|]. unfold froz. rewrite <- Hv, (dk_frozen _ _ _ Hok).
    intros x Hx. by apply elem_of_nil in Hx.
  - subst old. exists []. split; [done|]. right. split; [done|]. destruct Hv as (Hf & _ & -> & tables & t & Es & Et).
    intros x. unfold froz. rewrite Hf, (tabs_snoc _ (thawed d) tables t), elem_of_app, Et by done. by left.
Qed.

(** The log, and what of the frozen MemTable it still holds. *)
Lemma crash_log room g s :
  shared room g s ->
  exists batches frozen, log_file (db_dir (g_view g)) batches [] (w_fs s.2) /\
    Forall (fun r => r_seq r <= U64_MAX) (concat batches) /\
    (forall x, x ∈ mt_map (mt_insert_all (concat batches) (mt_new 0)) <->
       x ∈ pending_recs g ++ mt_iter (db_active s.1) ++ frozen) /\
    (frozen = froz s.1 \/ frozen = [] /\ forall x, x ∈ froz s.1 -> x ∈ tabs (g_tables g) (g_view g)).
Proof.
  destruct s as [d w]. intros Hsh. pose proof Hsh as []. pose proof (shared_mem _ _ _ _ _ _ Hsh) as Hmem. cbn [fst snd] in *.
  destruct sh_log as (batches & old & new & (_ & Hn & _ & _ & _ & _ & Hd) & Hbs & Ecat & Ea & Hold). cbn [fst snd] in *.
  set (th := o_memtable_threshold (db_opts d)) in *. pose proof sh_serving as [Hok _]. cbn [fst snd] in Hok.
  assert (db_wal (g_view g) = db_wal d) as Ew by (by rewrite (view_same _ _ _ _ sh_view)).
  assert (Forall (fun r => r_seq r <= U64_MAX) (concat batches)) as Hseq.
  { clear -Hbs. induction Hbs as [|b bs (_ & Hb & _) _ IH]; [constructor|]. cbn. apply Forall_app. split; [|done].
    eapply Forall_impl; [exact Hb|]. by intros r (? & _). }
  pose proof Hseq as Hseq'. rewrite Ecat, !Forall_app in Hseq'. destruct Hseq' as (Hs1 & Hs2 & Hs3).
  destruct (stage_frozen _ _ _ _ _ _ _ sh_view Hok Hold) as (frozen & Hfro & Hcase).
  exists batches, frozen. split_and!; [|done| |done].
  - split_and!; [done|apply no_frame_nil|]. left. rewrite app_nil_r, <- Hd. rewrite <- Ew, (dk_wal_path _ _ _ Hok) in Hn.
    rewrite <- Ew. apply path_data_names; [done|apply (dk_world _ _ _ Hok)].
  - assert (forall x, x ∈ mt_iter (db_active d) \/ x ∈ frozen -> x ∈ hist g) as Hin.
    { intros x Hx. apply (mm_sub _ _ _ _ _ Hmem). rewrite !elem_of_app. destruct Hcase as [->|[-> _]]; [tauto|]. rewrite elem_of_nil in Hx. tauto. }
    assert (mt_map (mt_insert_all new (mt_new 0)) = mt_iter (db_active d)) as Eact.
    { rewrite Ea. by apply mt_insert_all_map. }
    assert (forall x, x ∈ mt_map (mt_insert_all (pending_recs g) (mt_new 0)) <-> x ∈ pending_recs g) as Epend.
    { intros x. rewrite mt_insert_all_perm; cbn [mt_new mt_map]; rewrite app_nil_r; [done|].
      unfold pending_recs. destruct (g_pend g); [apply numbered_unique|constructor]. }
    intros x. rewrite Ecat. unfold mt_insert_all at 1. rewrite foldl_app. fold (mt_insert_all old (mt_new 0)).
    rewrite foldl_app. fold (mt_insert_all new (mt_insert_all old (mt_new 0))).
    set (m1 := mt_insert_all old (mt_new 0)) in *. fold (mt_insert_all (pending_recs g) (mt_insert_all new m1)).
    assert (mt_ok m1) as Hok1 by (by apply mt_insert_all_ok; [apply mt_new_ok|]).
    rewrite mt_insert_all_union, Epend by (done || by apply mt_insert_all_ok).
    rewrite mt_insert_all_union, Hfro, Eact by done. rewrite !elem_of_app.
    assert (x ∈ frozen -> version x ∉ version <$> new) as Hnew.
    { intros Hx (r & E & Hr)%list_elem_of_fmap. destruct (log_record_version new r Hs2 Hr) as (y & Hy & Ey). rewrite Eact in Hy.
      destruct Hcase as [->|[-> _]]; [|by apply elem_of_nil in Hx].
      assert (r_seq x < r_seq y) by (apply (mm_active _ _ _ _ _ Hmem); [done|]; apply elem_of_app; by left).
      rewrite <- E in Ey. apply (f_equal snd) in Ey. cbn in Ey. lia. }
    assert (x ∈ mt_iter (db_active d) \/ x ∈ frozen -> version x ∉ version <$> pending_recs g) as Hpn.
    { intros Hx (r & E & Hr)%list_elem_of_fmap. apply (f_equal snd) in E. cbn in E. unfold pending_recs in Hr.
      destruct (g_pend g) as [[seq ops]|]; [|by apply elem_of_nil in Hr]. destruct (sh_pend seq ops eq_refl) as (_ & Hlt & _).
      apply numbered_seq in Hr. cbn [fst snd] in Hr. specialize (Hlt x (Hin x Hx)). lia. }
    tauto.
Qed.
(** The map with the write that was logged. *)
Definition crash_map (g : Ghost) : gmap bytes bytes :=
  foldl kv_write (kv_map sp) (concat (g_commits g) ++ from_option snd [] (g_pend g)).

(** The logged write is newer than everything there is. *)
Lemma shared_pend room g s :
  shared room g s ->
  exists seq ops, pending_recs g = numbered seq ops /\ ops = from_option snd [] (g_pend g) /\
    (forall x, x ∈ hist g -> r_seq x < seq) /\ seq + len ops <= U64_MAX.
Proof.
  intros []. unfold pending_recs. pose proof (dk_seq_max _ _ _ (proj1 sh_serving)) as Hm. cbn [fst] in Hm.
  rewrite (view_same _ _ _ _ sh_view) in Hm. cbn in Hm. destruct (g_pend g) as [[seq ops]|].
  - destruct (sh_pend seq ops eq_refl) as (_ & Hlt & Hn). exists seq, ops. split_and!; try done. lia.
  - exists (db_next_seq s.1), []. split_and!; try done; [|simpl; lia]. pose proof (ho_seq _ _ _ (proj2 sh_serving)) as Hs. cbn [fst] in Hs.
    rewrite (view_same _ _ _ _ sh_view), Forall_forall in Hs. done.
Qed.

(** The layers that come up hold what was written. *)
Lemma crash_layers room g s act :
  shared room g s ->
  (exists frozen, (forall x, x ∈ act <-> x ∈ pending_recs g ++ mt_iter (db_active s.1) ++ frozen) /\
    (frozen = froz s.1 \/ frozen = [] /\ forall x, x ∈ froz s.1 -> x ∈ tabs (g_tables g) (g_view g))) ->
  let l := act ++ tabs (g_tables g) (g_view g) in
  (forall a x, a ∈ act -> x ∈ tabs (g_tables g) (g_view g) -> r_seq x < r_seq a \/ x ∈ act) /\
  versions_unique l /\ tracks l U64_MAX (crash_map g).
Proof.
  intros Hsh (frozen & Hact & Hcase) l. pose proof Hsh as []. pose proof (shared_mem _ _ _ _ _ _ Hsh) as Hmem.
  set (pend := pending_recs g) in *.
  destruct (shared_pend room g s Hsh) as (seq & ops & Epend & Eops & Hlt & Hmax). fold pend in Epend.
  assert (forall r, r ∈ pend -> seq <= r_seq r < seq + len ops) as Hpend by (rewrite Epend; intros r; apply numbered_seq).
  assert (forall x, x ∈ tabs (g_tables g) (g_view g) -> x ∈ froz s.1 ++ tabs (g_tables g) s.1) as Htabs by (intros x; by eapply view_tabs).
  assert (forall x, x ∈ l <-> x ∈ pend ++ mt_iter (db_active s.1) ++ froz s.1 ++ tabs (g_tables g) s.1) as Hall.
  { intros x. unfold l. rewrite elem_of_app, Hact, !elem_of_app. destruct (view_tabs _ _ _ _ x sh_view) as [H1 H2].
    rewrite elem_of_app in H1. destruct Hcase as [->|[-> Hf]]; [tauto|]. rewrite elem_of_nil. specialize (Hf x). tauto. }
  assert (forall x, x ∈ mt_iter (db_active s.1) ++ froz s.1 ++ tabs (g_tables g) s.1 -> x ∈ hist g) as Hsub by apply (mm_sub _ _ _ _ _ Hmem).
  assert (NoDup (version <$> hist g ++ pend)) as Hnd.
  { rewrite fmap_app. apply NoDup_app. split_and!; [apply (ho_versions _ _ _ (proj2 sh_serving))| |rewrite Epend; apply numbered_unique].
    intros v (a & -> & Ha)%list_elem_of_fmap (b & E & Hb)%list_elem_of_fmap. apply (f_equal snd) in E. cbn in E.
    specialize (Hlt a Ha). specialize (Hpend b Hb). lia. }
  assert (forall x, x ∈ l -> x ∈ hist g ++ pend) as Hin.
  { intros x Hx%Hall. apply elem_of_app. apply elem_of_app in Hx as [?|?]; [by right|left; by apply Hsub]. }
  split_and!.
  - intros a x Ha Hx. specialize (Htabs x Hx). apply Hact in Ha. rewrite Hact. rewrite !elem_of_app in *. destruct Ha as [Ha|[Ha|Ha]].
    + left. specialize (Hpend a Ha). assert (r_seq x < seq); [|lia]. apply Hlt, Hsub. rewrite !elem_of_app. tauto.
    + left. apply (mm_active _ _ _ _ _ Hmem); [done|]. by apply elem_of_app.
    + destruct Hcase as [->|[-> _]]; [|by apply elem_of_nil in Ha]. destruct Htabs as [?|Ht]; [tauto|].
      destruct (mm_frozen _ _ _ _ _ Hmem a x Ha Ht); tauto.
  - eapply versions_unique_sub; [exact Hin|by apply NoDup_versions_unique].
  - assert (tracks (hist g ++ pend) U64_MAX (crash_map g)) as Htr.
    { unfold crash_map. rewrite foldl_app, <- Eops, Epend. apply tracks_write; [done|done|].
      specialize (sh_tracks (length (g_cs g)) ltac:(lia)). unfold at_commit, map_at in sh_tracks. by rewrite !take_ge in sh_tracks by lia. }
    intros key. rewrite Htr. symmetry.
    assert (forall a x, a ∈ pend -> x ∈ hist g -> r_seq x < r_seq a) as Hnew
      by (intros a x Ha Hx; specialize (Hpend a Ha); specialize (Hlt x Hx); lia).
    transitivity (lookup_at key U64_MAX (pend ++ hist g)).
    + transitivity (lookup_at key U64_MAX (pend ++ mt_iter (db_active s.1) ++ froz s.1 ++ tabs (g_tables g) s.1)).
      * unfold lookup_at. f_equal. apply (newest_same (hist g ++ pend)); [by apply NoDup_versions_unique|done| |intros r _; apply Hall].
        intros r Hr. by apply Hin, Hall.
      * rewrite (lookup_on_top key _ pend (hist g)) by done. rewrite lookup_on_top by auto.
        by rewrite (mm_reads _ _ _ _ _ Hmem) by (eapply shared_bound; [exact Hsh|by left]).
    + unfold lookup_at. f_equal. apply newest_perm; [by rewrite Permutation_app_comm|apply Permutation_app_comm].
Qed.
(** The directory opens. *)
Lemma crash_open room g s opts :
  shared room g s -> 1 <= room ->
  wp (db_open (db_dir s.1) opts) (process (w_fs s.2)) (fun o w1 => quiet (w_fs w1) /\
    exists d1 T1, o = Ok d1 /\ db_ok T1 d1 w1 /\ stacked T1 d1 /\ versions_unique (concat (layers T1 d1)) /\
      tracks (concat (layers T1 d1)) U64_MAX (crash_map g)).
Proof.
  intros Hsh Hroom. destruct (crash_log room g s Hsh) as (batches & frozen & Hlf & Hseq & Hact & Hcase).
  set (act := mt_map (mt_insert_all (concat batches) (mt_new 0))) in *.
  destruct (crash_layers room g s act Hsh) as (Hst & Hu & Htr); [by exists frozen|].
  pose proof Hsh as []. pose proof sh_serving as [Hok Hh]. cbn [fst snd] in Hok, Hh. pose proof (view_same _ _ _ _ sh_view) as Ev.
  assert (db_dir (g_view g) = db_dir s.1 /\ m_generation (db_manifest (g_view g)) = m_generation (db_manifest s.1)) as [Ed Eg] by (by rewrite Ev).
  destruct (shared_pend room g s Hsh) as (seq & ops & Epend & _ & Hlt & Hmax).
  destruct (restart_contents (g_tables g) (g_view g) s.2 batches [] (reboot (w_fs s.2)) Hok) as (edits & Hmf & Hct & Hids & _ & _);
    [lia|by eapply survives_mono, process_survives; [apply list_subseteq_nil|]|by eapply log_file_touches; [apply reboot_touches, (dk_world _ _ _ Hok)|apply not_elem_of_nil|]| |].
  { intros r Hr. destruct (log_record_version _ r Hseq Hr) as (y & Hy & Ey). apply (f_equal snd) in Ey. cbn in Ey. rewrite <- Ey.
    assert (y ∈ hist g ++ pending_recs g) as [Hy'|Hy']%elem_of_app.
    - apply Hact in Hy. rewrite !elem_of_app in *. destruct Hy as [?|Hy]; [by right|left].
      apply (mm_sub _ _ _ _ _ (shared_mem _ _ _ _ _ _ Hsh)). rewrite !elem_of_app. destruct Hcase as [->|[-> _]]; [tauto|]. rewrite elem_of_nil in Hy. tauto.
    - specialize (Hlt y Hy'). lia.
    - rewrite Epend in Hy'. apply numbered_seq in Hy'. lia. }
  rewrite <- Ed. eapply (wp_db_open_with (db_dir (g_view g)) opts _ _ _ batches []); [done|done|exact Hct|right; eauto|].
  intros d1 m1 w1 Hq1 _ (T1 & Hok1 & EL & _). split; [done|]. exists d1, T1. split; [done|]. split; [done|].
  unfold content_layers in EL. rewrite Hids, <- (layers_of_ids (g_tables g) (g_view g) s.2 Hok) in EL.
  rewrite EL. cbn [concat]. split_and!; [|done|done].
  rewrite layers_thawed in EL by apply Hok1. injection EL as E1 E2. unfold stacked. rewrite E1, E2. split; [done|].
  pose proof (ho_layered _ _ _ Hh) as Hl. rewrite layers_thawed in Hl by apply Hok. apply Hl.
Qed.

(** And every read of the latest versions is right. *)
Lemma recovered_reads T d w m :
  db_ok T d w -> stacked T d -> versions_unique (concat (layers T d)) -> tracks (concat (layers T d)) U64_MAX m -> quiet (w_fs w) ->
  (forall key, (db_get key (d, w)).1 = Ok (m !! key)) /\
  (forall start fin limit, (db_scan start fin limit (d, w)).1 = Ok (kv_entries m start fin limit)).
Proof.
  intros Hok Hst Hu Htr Hq. split.
  - intros key. pose proof (wp_db_get_at T d w key U64_MAX Hok Hst) as Hw. unfold wp in Hw. unfold db_get.
    destruct (db_get_at key U64_MAX (d, w)) as [[x|e|] s']; cbn [fst snd] in *; destruct Hw as (_ & _ & _ & Ho); [|by destruct Ho|done].
    by rewrite Ho, Htr.
  - intros start fin limit. pose proof (wp_db_scan_at T d w start fin limit U64_MAX Hok Hu) as Hw. unfold wp in Hw. unfold db_scan.
    destruct (db_scan_at start fin limit U64_MAX (d, w)) as [[x|e|] s']; cbn [fst snd] in *; destruct Hw as (_ & _ & _ & Ho); [|by destruct Ho|done].
    by rewrite Ho, (tracks_entries _ _ _ start fin limit Htr).
Qed.
End crash.
