(* ===== verification/Checkpoints.v ===== *)
(** * Checkpoints

    [DbInner::checkpoint] links the tables into another directory beside a manifest
    of their own.  The source goes on as it was; a process that opens the other
    directory, at once or after the source went on to work, serves the map that the
    source served. *)
From Stdlib Require Import NArith Lia.
From stdpp Require Import base numbers list sorting strings gmap.
From S2P Require Import Prelude Errors FileNames Platform State FileSystem Store Records Versions MemTable.
From S2P Require Import Headers Frames WriteAheadLog Manifest ManifestRecovery.
From S2P Require Import Bloom SsTables TableLayout TableReads Tables Merging Compaction Scans Engine.
From S2P Require Import Layers Writes Flushes CompactSteps Specification Sessions Recovery Restarts.

Local Open Scope N_scope.

(** ** Steps *)

(** A second name for a table. *)
Lemma wp_hard_link original link s (Q : outcome unit -> FsState -> Prop) :
  good s -> ~ plain original -> ~ plain link ->
  is_Some (fs_names s !! original) -> fs_names s !! link = None -> p_dir link ∈ fs_dirs s ->
  (forall k s', stays s s' -> ~ quiet s -> Q (Err (Io k)) s') ->
  (forall s', touches [link] s s' -> path_data s' link = path_data s original -> Q (Ok tt) s') ->
  wp (hard_link original link) s Q.
Proof.
  intros [[W1 W2] U] Ho Hl [h Hh] Hn Hd Herr Hok. unfold wp, hard_link.
  match goal with |- context [guarded ?op s] =>
    destruct (guarded_cases op s) as [(k & t & -> & Hs & Hnq)|(f & -> & Hst)] end; cbn [fst snd].
  { apply Herr; [|done]. by split. }
  cbn [fs_names fs_dirs set_faults]. rewrite Hh, Hn, bool_decide_true by done. cbn [fst snd].
  assert (forall p q g, plain p -> <[link := h]> (fs_names s) !! p = Some g ->
    <[link := h]> (fs_names s) !! q = Some g -> p = q) as Hu.
  { intros p q g Hp E1 E2. rewrite lookup_insert_ne in E1 by (by intros ->).
    rewrite lookup_insert in E2. case_decide as Eq; [|by eapply U].
    injection E2 as <-. pose proof (U p original h Hp E1 Hh) as ->. done. }
  apply Hok; [split|].
  - split; [split|]; cbn.
    + intros q g. rewrite lookup_insert. case_decide; [intros [= <-]; by apply (W1 original)|apply W1].
    + exact W2.
    + exact Hu.
  - intros q Hq. cbn. rewrite list_elem_of_singleton in Hq. by rewrite lookup_insert_ne by naive_solver.
  - intros q Hq. unfold path_data. cbn. rewrite list_elem_of_singleton in Hq.
    by rewrite lookup_insert_ne by naive_solver.
  - intros g [Hg1 Hg2]. split; [split; [done|]|done]. intros q Hq. cbn.
    rewrite lookup_insert_ne by (by intros ->). by apply Hg2.
  - done.
  - intros Hq. by apply Hst in Hq.
  - unfold path_data. cbn. by rewrite lookup_insert_eq, Hh.
Qed.

Lemma wp_exists_absent p s (Q : outcome bool -> FsState -> Prop) :
  path_data s p = None -> (forall s', stays s s' -> Q (Ok false) s') -> wp (exists_path p) s Q.
Proof.
  intros Hp HQ. unfold exists_path. apply wp_bind, wp_attempt. unfold wp, path_size.
  match goal with |- context [guarded ?op s] =>
    destruct (guarded_cases op s) as [(k & t & -> & Hs & Hnq)|(f & -> & Hst)] end; cbn [fst snd then_wp].
  - apply HQ. by split.
  - change (path_data (set_faults f s) p) with (path_data s p). rewrite Hp. cbn [fst snd then_wp]. by apply HQ.
Qed.

Lemma wp_create_dir dir s (Q : outcome unit -> FsState -> Prop) :
  good s -> (forall k s', stays s s' -> ~ quiet s -> Q (Err (Io k)) s') ->
  (forall s', touches [] s s' -> dir ∈ fs_dirs s' -> Q (Ok tt) s') -> wp (create_dir_all dir) s Q.
Proof.
  intros Hg Herr Hok. unfold wp, create_dir_all.
  match goal with |- context [guarded ?op s] =>
    destruct (guarded_cases op s) as [(k & t & -> & Hs & Hnq)|(f & -> & Hst)] end; cbn [fst snd].
  { apply Herr; [|done]. by split. }
  apply Hok; [|cbn; set_solver]. destruct (touches_same [] s _ Hg Hst) as [G N D S F Q'].
  split; try done. cbn. set_solver.
Qed.

Section checkpoint.
Context `{PlatformOk}.

Lemma wp_list_dir dir s (Q : outcome (list Path) -> FsState -> Prop) :
  dir ∈ fs_dirs s -> (forall k s', stays s s' -> ~ quiet s -> Q (Err (Io k)) s') ->
  (forall l s', stays s s' -> (forall p, p ∈ l <-> p_dir p = dir /\ is_Some (fs_names s !! p)) -> Q (Ok l) s') ->
  wp (list_dir dir) s Q.
Proof.
  intros Hd Herr Hok. unfold wp, list_dir.
  match goal with |- context [guarded ?op s] =>
    destruct (guarded_cases op s) as [(k & t & -> & Hs & Hnq)|(f & -> & Hst)] end; cbn [fst snd].
  { apply Herr; [|done]. by split. }
  cbn [fs_dirs set_faults]. rewrite bool_decide_true by done. cbn [fst snd]. apply Hok; [done|].
  intros p. change (dir_entries (set_faults f s) dir) with (dir_entries s dir). apply listing_spec.
Qed.

(** The links. *)
Lemma wp_link_tables d w src dir tables (Q : outcome unit -> DbInner * World -> Prop) :
  let ids := t_id <$> tables in
  good (w_fs w) -> src <> dir -> dir ∈ fs_dirs (w_fs w) -> NoDup ids ->
  (forall t, t ∈ tables -> t_id t <= U64_MAX /\ is_Some (fs_names (w_fs w) !! sst_path src (t_id t)) /\
     fs_names (w_fs w) !! sst_path dir (t_id t) = None) ->
  (forall e s', touches (sst_path dir <$> ids) (w_fs w) s' -> io_fault (w_fs w) e -> Q (Err e) (d, world_set_fs s' w)) ->
  (forall s', touches (sst_path dir <$> ids) (w_fs w) s' ->
     (forall t, t ∈ tables -> path_data s' (sst_path dir (t_id t)) = path_data (w_fs w) (sst_path src (t_id t))) ->
     Q (Ok tt) (d, world_set_fs s' w)) ->
  wp (for_each tables (fun t => on_db_fs (hard_link (sst_path src (t_id t)) (sst_path dir (t_id t))))) (d, w) Q.
Proof.
  revert w Q. induction tables as [|t tables IH]; intros w Q ids Hg Hne Hdir Hn Ht Herr HQ; cbn [for_each].
  { apply wp_ret. destruct w. apply (HQ w_fs); [by apply touches_refl|]. intros t Hin. by apply elem_of_nil in Hin. }
  unfold ids in *. rewrite fmap_cons in Hn, Herr, HQ. apply NoDup_cons in Hn as [Hi Hn].
  destruct (Ht t ltac:(by left)) as (Hmax & Hsrc & Hnone).
  apply wp_bind. unfold on_db_fs at 1, on_world. apply wp_zoom. unfold on_files. apply wp_zoom. cbn [fst snd].
  apply wp_hard_link; [done|by apply sst_path_not_plain|by apply sst_path_not_plain|done|done|done|..].
  { intros k s1 Hs Hq. cbn [then_wp]. apply Herr; [by apply touches_same|]. split; [eauto|done]. }
  intros s1 Ht1 Hd1. cbn [then_wp]. change (mkWorld s1 (w_caches w) (w_next_cache w)) with (world_set_fs s1 w).
  assert (forall u, u ∈ tables -> sst_path dir (t_id u) <> sst_path dir (t_id t)) as Hother.
  { intros u Hu E. destruct (Ht u ltac:(by right)) as (Hmu & _). apply sst_path_inj in E; [|done|done].
    apply Hi. rewrite <- E. by apply list_elem_of_fmap_2. }
  assert (forall i, sst_path src i ∉ [sst_path dir (t_id t)]) as Hsrc1.
  { intros i. rewrite list_elem_of_singleton. intros [= E _]. done. }
  eapply (IH (world_set_fs s1 w) Q); [apply Ht1|done|by apply (touches_dirs _ _ _ Ht1)|done|..]; cbn [world_set_fs w_fs].
  - intros u Hu. destruct (Ht u ltac:(by right)) as (Hmu & Hsu & Hnu). split; [done|].
    rewrite (touches_names _ _ _ Ht1) by done. rewrite (touches_names _ _ _ Ht1); [done|].
    rewrite list_elem_of_singleton. by apply Hother.
  - intros e s' Ht' [He Hq]. apply (Herr e s').
    + eapply touches_trans; [eapply (touches_mono [sst_path dir (t_id t)]); [set_solver|exact Ht1]|].
      eapply touches_mono; [|exact Ht']. set_solver.
    + split; [done|]. by intros ?%(touches_quiet _ _ _ Ht1).
  - intros s' Ht' Hd. apply (HQ s').
    + eapply touches_trans; [eapply (touches_mono [sst_path dir (t_id t)]); [set_solver|exact Ht1]|].
      eapply touches_mono; [|exact Ht']. set_solver.
    + intros u [->|Hu]%elem_of_cons.
      * rewrite (touches_data _ _ _ Ht'); [done|]. intros (i & E & Hi')%list_elem_of_fmap.
        apply list_elem_of_fmap in Hi' as (u & -> & Hu). by apply (Hother u Hu).
      * rewrite Hd by done. by rewrite (touches_data _ _ _ Ht1).
Qed.

(** The manifest of the checkpoint. *)
Lemma wp_write_fresh dir st s (Q : outcome unit -> FsState -> Prop) :
  let ps := [manifest_path dir 0; join dir CURRENT_TMP; join dir CURRENT_FILENAME] in
  good s -> dir ∈ fs_dirs s -> path_data s (join dir CURRENT_FILENAME) = None -> state_ok st ->
  (forall e s', touches ps s s' -> io_fault s e -> Q (Err e) s') ->
  (forall s', touches ps s s' -> manifest_file dir 0 (snapshot_edits st) s' -> Q (Ok tt) s') ->
  wp (write_fresh dir st) s Q.
Proof.
  intros ps Hg Hdir Hc Hst Herr HQ. unfold write_fresh, manifest_exists.
  assert (Forall wf_edit (snapshot_edits st)) as Hwf by by apply snapshot_edits_wf.
  apply wp_bind, wp_exists_absent; [done|]. intros s0 Hs0. cbn [then_wp].
  pose proof (touches_same ps _ _ Hg Hs0) as Ht0.
  apply wp_bind. eapply wp_mono; [apply wp_manifest_create; [apply Ht0|by apply (touches_dirs _ _ _ Ht0)]|].
  intros o s1 [Ht1 Ho]. pose proof (touches_trans _ _ _ _ Ht0 Ht1) as Ht01.
  destruct o as [m|e|]; cbn [then_wp]; [|apply Herr; [done|by eapply io_fault_stays]|done].
  destruct Ho as [Hgen Hm]. apply wp_bind, wp_with_manifest, wp_bind.
  eapply wp_mono; [apply (manifest_append_holds dir m []); [apply Ht1|done|done]|].
  intros o [m2 s2] (Ht2 & Hgen2 & Ho). cbn [fst snd] in *. rewrite Hgen in *.
  assert (touches ps s s2) as Ht02.
  { eapply touches_trans; [exact Ht01|]. eapply (touches_mono [manifest_path dir 0]); [set_solver|done]. }
  assert (forall s' (e : Error) (k : IoKind), touches ps s s' -> ~ quiet s' -> io_fault s (Io k)) as Hf.
  { intros s' e k Ht' Hq. split; [eauto|]. by intros ?%(touches_quiet _ _ _ Ht'). }
  destruct o as [[]|e|]; cbn [then_wp]; [|apply Herr; [done|]|done].
  2: { destruct Ho as ([k ->] & Hq & _). by apply (Hf s1 (Io k) k). }
  cbn [app] in Ho. destruct Ho. rewrite Hgen2 in *.
  destruct (buf_sync_prog_touches (manifest_path dir 0) [] (m_file m2) s2 (touches_good _ _ _ Ht2) (manifest_plain dir 0) mh_name)
    as (x & o & b & s3 & E & Ht3 & _ & _ & Hd3 & Hpre & Ho & Hqo).
  cbn [for_each] in E. rewrite bind_mret in E. rewrite mh_buf in Hpre. cbn in Hpre. apply prefix_nil_inv in Hpre as ->.
  assert (touches ps s s3) as Ht03.
  { eapply touches_trans; [exact Ht02|]. eapply (touches_mono [manifest_path dir 0]); [set_solver|done]. }
  unfold on_manifest_file. apply wp_zoom. cbn [fst snd]. eapply wp_run; [exact E|].
  destruct Ho as [(-> & _)|[k ->]]; cbn [fst snd then_wp].
  2: { apply Herr; [done|]. apply (Hf s2 (Io k) k); [done|]. by intros ?%Hqo. }
  apply wp_sync_dir; [apply Ht3|..].
  { intros k s4 Hs4 Hq. apply Herr; [|by apply (Hf s3 (Io k) k)].
    eapply touches_trans; [exact Ht03|]. by apply touches_same; [apply Ht3|]. }
  intros s4 Ht4 _ _. apply HQ.
  { eapply touches_trans; [exact Ht03|]. eapply touches_mono; [|exact Ht4]. apply list_subseteq_nil. }
  assert (manifest_file dir 0 (snapshot_edits st) s3) as Hmf.
  { unfold manifest_file. split_and!; [done| |done|done|].
    - rewrite (touches_data _ _ _ Ht3); [done|paths].
    - exists []. split; [apply torn_nil|]. rewrite Hd3, mh_data. done. }
  eapply manifest_file_touches; [exact Ht4|apply not_elem_of_nil..|done].
Qed.

(** ** What stays of the source *)

(** Files of [dir] did not change. *)
Definition away (dir : string) (s s' : FsState) : Prop :=
  exists ps, touches ps s s' /\ Forall (fun p => p_dir p <> dir) ps.

Lemma away_notin dir nm ps : Forall (fun p => p_dir p <> dir) ps -> join dir nm ∉ ps.
Proof. intros Hf Hin. rewrite Forall_forall in Hf. by apply (Hf _ Hin). Qed.

Lemma away_stays dir s s' : good s -> stays s s' -> away dir s s'.
Proof. intros Hg Hs. exists []. split; [by apply touches_same|constructor]. Qed.

Lemma away_trans dir s t u : away dir s t -> away dir t u -> away dir s u.
Proof.
  intros (ps & Ht & Hf) (qs & Hu & Hf'). exists (ps ++ qs). split; [|by apply Forall_app].
  eapply touches_trans; (eapply touches_mono; [|eassumption]); set_solver.
Qed.

Lemma db_ok_away T d w s' :
  db_ok T d w -> away (db_dir d) (w_fs w) s' -> db_ok T d (world_set_fs s' w).
Proof.
  intros [] (ps & Ht & Hf). pose proof (fun nm => away_notin (db_dir d) nm ps Hf) as Hn. split; try done.
  - by eapply world_ok_touches.
  - by apply (touches_dirs _ _ _ Ht).
  - intros u Hu. eapply table_live_touches; [exact Ht|apply Hn|done|by apply dk_table].
  - cbn [world_set_fs w_fs]. by rewrite (touches_names _ _ _ Ht).
  - destruct dk_manifest as (edits & Hm & Hrest). exists edits. split; [|done].
    eapply manifest_holds_touches; [exact Ht|apply Hn|apply Hn|done].
Qed.

Lemma log_ok_away T d w s' :
  db_ok T d w -> away (db_dir d) (w_fs w) s' -> log_ok d w -> log_ok d (world_set_fs s' w).
Proof.
  intros Hok (ps & Ht & Hf) Hl. eapply (log_ok_touches d d w); [apply Hok|exact Ht| |done..].
  rewrite (dk_wal_path _ _ _ Hok). by apply away_notin.
Qed.

(** ** The files of a checkpoint *)

(** The state that the manifest of a checkpoint records. *)
Definition engine_state (d : DbInner) : ManifestState :=
  mkState (t_id <$> db_sstables d) (db_next_seq d) (db_next_sst_id d).

(** The directory [dir] holds the tables of the engine [d]. *)
Definition checkpointed (T : Tables) (d : DbInner) (dir : string) (s : FsState) : Prop :=
  manifest_file dir 0 (snapshot_edits (engine_state d)) s /\
  contents dir (engine_state d) (recs_of T d) [] [] s.

Lemma set_insert_all l : ids_sorted l -> foldr set_insert [] l = l.
Proof.
  induction 1 as [|x l _ IH Hf]; [done|]. cbn [foldr]. rewrite IH. destruct Hf as [|y l Hy _]; [done|].
  cbn [set_insert]. by rewrite (proj2 (N.ltb_lt x y)).
Qed.

Lemma engine_state_ok T d w : db_ok T d w -> state_ok (engine_state d).
Proof.
  intros []. split_and!; [done| |done|done]. apply Forall_fmap, Forall_forall. intros t Ht. cbn.
  specialize (dk_next_id t Ht). lia.
Qed.

(** The contents of the new directory, from what was linked and written. *)
Lemma checkpointed_intro T d w dir s1 s2 :
  db_ok T d w -> dir ∈ fs_dirs s1 -> path_data s1 (join dir WAL_FILENAME) = None ->
  (forall t, t ∈ db_sstables d -> path_data s1 (sst_path dir (t_id t)) = path_data (w_fs w) (sst_path (db_dir d) (t_id t))) ->
  touches [manifest_path dir 0; join dir CURRENT_TMP; join dir CURRENT_FILENAME] s1 s2 ->
  manifest_file dir 0 (snapshot_edits (engine_state d)) s2 -> checkpointed T d dir s2.
Proof.
  intros Hok Hdir Hwal Hdata Ht Hmf. split; [done|]. split; cbn [engine_state live_tables st_next_seq st_next_sst_id].
  - apply Ht.
  - by apply (touches_dirs _ _ _ Ht).
  - by apply (engine_state_ok T d w).
  - intros id (u & -> & Hu)%list_elem_of_fmap. by apply Hok.
  - intros id Hid. destruct (table_of_id T d w id Hok Hid) as (Hrec & b & Hb & Htb). split; [done|]. exists b. split; [|done].
    apply list_elem_of_fmap in Hid as (u & -> & Hu). rewrite (touches_data _ _ _ Ht) by paths. by rewrite Hdata.
  - intros id r (u & -> & Hu)%list_elem_of_fmap Hr. rewrite (recs_of_id T d w) in Hr by done.
    destruct (dk_manifest _ _ _ Hok) as (edits & _ & _ & _ & _ & Hle & Hlt). specialize (Hlt u r Hu Hr). lia.
  - split_and!; [constructor|apply no_frame_nil|]. right. split_and!; [|done|done]. by rewrite (touches_data _ _ _ Ht) by paths.
  - intros r Hr. by apply elem_of_nil in Hr.
Qed.

Lemma wp_on_db_fs {A} (m : FsM A) d w (Q : outcome A -> DbInner * World -> Prop) :
  wp m (w_fs w) (fun o s' => Q o (d, world_set_fs s' w)) -> wp (on_db_fs m) (d, w) Q.
Proof. intros Hm. unfold on_db_fs, on_world. apply wp_zoom. unfold on_files. by apply wp_zoom. Qed.

(** Why a checkpoint is not taken. *)
Definition not_taken (dir : string) (s : FsState) (e : Error) : Prop :=
  io_fault s e \/
  (e = Corrupt (dir +:+ " is not empty; refusing to write a checkpoint over it") /\
   exists p, p_dir p = dir /\ is_Some (fs_names s !! p)).

(** The directory is made and looked through. *)
Lemma wp_checkpoint_dir T d w dir (k : DbM unit) (Q : outcome unit -> DbInner * World -> Prop) :
  db_ok T d w ->
  (forall e s1, away (db_dir d) (w_fs w) s1 -> not_taken dir (w_fs w) e -> Q (Err e) (d, world_set_fs s1 w)) ->
  (forall s1, touches [] (w_fs w) s1 -> dir ∈ fs_dirs s1 -> (forall q, p_dir q = dir -> fs_names s1 !! q = None) ->
     wp k (d, world_set_fs s1 w) Q) ->
  wp (_ ← on_db_fs (create_dir_all dir);
      entries ← on_db_fs (list_dir dir);
      if negb (bool_decide (entries = [])) then
        fail (Corrupt (dir +:+ " is not empty; refusing to write a checkpoint over it"))
      else k) (d, w) Q.
Proof.
  intros Hok Herr Hk. pose proof (wo_good _ _ (dk_world _ _ _ Hok)) as Hg.
  apply wp_bind, wp_on_db_fs, wp_create_dir; [done|..].
  { intros e s1 Hs Hq. cbn [then_wp]. apply Herr; [by apply away_stays|]. left. split; [eauto|done]. }
  intros s1 Ht1 Hdir1. cbn [then_wp].
  apply wp_bind, wp_on_db_fs, wp_list_dir; [done|..]; cbn [world_set_fs w_fs].
  { intros e s2 Hs Hq. cbn [then_wp]. apply (Herr _ s2).
    - eapply away_trans; [by exists []|]. apply away_stays; [apply Ht1|done].
    - left. split; [eauto|]. by intros ?%(touches_quiet _ _ _ Ht1). }
  intros l s2 Hs2 Hl. cbn [then_wp]. change (world_set_fs s2 (world_set_fs s1 w)) with (world_set_fs s2 w).
  assert (touches [] (w_fs w) s2) as Ht2.
  { eapply touches_trans; [exact Ht1|]. apply touches_same; [apply Ht1|done]. }
  assert (forall s q, touches [] (w_fs w) s -> fs_names s !! q = fs_names (w_fs w) !! q) as En
    by (intros s q Ht; apply (touches_names _ _ _ Ht), not_elem_of_nil).
  destruct l as [|p l].
  - rewrite bool_decide_true by done. cbn [negb]. apply Hk; [done|by apply (in_dirs dir s1 s2), Hdir1; apply stays_inside|].
    intros q Hq. rewrite (En s2) by done. rewrite <- (En s1) by done. destruct (fs_names s1 !! q) as [h|] eqn:E; [|done].
    destruct (not_elem_of_nil q). apply Hl. by rewrite E.
  - rewrite bool_decide_false by done. cbn [negb]. apply wp_fail. apply Herr; [by exists []|]. right.
    split; [done|]. exists p. destruct (proj1 (Hl p) ltac:(by left)) as [Hp Hn]. split; [done|]. by rewrite <- (En s1).
Qed.

(** The directory is made, or it is refused, or the device failed: the source is the
    same in each case. *)
Lemma wp_checkpoint_files T d w dir :
  db_ok T d w ->
  wp (checkpoint_files dir) (d, w) (fun o s' => exists s2, s' = (d, world_set_fs s2 w) /\ away (db_dir d) (w_fs w) s2 /\
    match o with
    | Ok _ => db_dir d <> dir /\ (forall p, p_dir p = dir -> fs_names (w_fs w) !! p = None) /\ checkpointed T d dir s2
    | Err e => not_taken dir (w_fs w) e
    | Panic => False
    end).
Proof.
  intros Hok. pose proof Hok as []. unfold checkpoint_files. apply (wp_checkpoint_dir T); [done|by intros e s1 Ha He; exists s1|].
  intros s2 Ht2 Hdir Hnone.
  assert (forall q, fs_names s2 !! q = fs_names (w_fs w) !! q) as En
    by (intros q; apply (touches_names _ _ _ Ht2), not_elem_of_nil).
  assert (db_dir d <> dir) as Hne.
  { intros E. specialize (Hnone (join (db_dir d) WAL_FILENAME) E). rewrite En in Hnone. congruence. }
  apply wp_bind, wp_gets. cbn [then_wp fst].
  set (ps := (sst_path dir <$> (t_id <$> db_sstables d)) ++ [manifest_path dir 0; join dir CURRENT_TMP; join dir CURRENT_FILENAME]).
  assert (Forall (fun p => p_dir p <> db_dir d) ps) as Hps.
  { apply Forall_app. split; [|by repeat constructor]. by apply Forall_fmap, Forall_true. }
  assert (forall s3 e, touches ps (w_fs w) s3 -> io_fault s2 e ->
    exists s4, (d, world_set_fs s3 w) = (d, world_set_fs s4 w) /\ away (db_dir d) (w_fs w) s4 /\ not_taken dir (w_fs w) e) as Herr.
  { intros s3 e Ht3 [He Hq]. exists s3. split; [done|]. split; [by exists ps|]. left. split; [done|].
    by intros ?%(touches_quiet _ _ _ Ht2). }
  apply wp_bind, (wp_link_tables d (world_set_fs s2 w) (db_dir d) dir); cbn [world_set_fs w_fs];
    [apply Ht2|done|done|by apply ids_NoDup|..].
  { intros t Ht. split; [specialize (dk_next_id t Ht); lia|]. split; [|by apply Hnone].
    rewrite En. destruct (dk_table t Ht) as (? & ? & _ & _ & Hn & _). eauto. }
  { intros e s3 Ht3 He. cbn [then_wp]. apply Herr; [|done]. eapply touches_trans; [eapply (touches_mono []); [apply list_subseteq_nil|exact Ht2]|].
    eapply touches_mono; [|exact Ht3]. unfold ps. set_solver. }
  intros s3 Ht3 Hd3. cbn [then_wp]. change (world_set_fs s3 (world_set_fs s2 w)) with (world_set_fs s3 w).
  assert (touches ps (w_fs w) s3) as Ht03.
  { eapply touches_trans; [eapply (touches_mono []); [apply list_subseteq_nil|exact Ht2]|].
    eapply touches_mono; [|exact Ht3]. unfold ps. set_solver. }
  rewrite set_insert_all by done. fold (engine_state d).
  assert (forall nm, (forall id, nm <> sst_name id) -> path_data s3 (join dir nm) = None) as Hnew.
  { intros nm Hnm. rewrite (touches_data _ _ _ Ht3); [by apply path_data_no_name, Hnone|].
    intros (id & E & _)%list_elem_of_fmap. apply (f_equal p_name) in E. by apply (Hnm id). }
  assert (forall s4 e, touches [manifest_path dir 0; join dir CURRENT_TMP; join dir CURRENT_FILENAME] s3 s4 ->
    touches ps (w_fs w) s4 /\ (io_fault s3 e -> io_fault s2 e)) as Hnext.
  { intros s4 e Ht4. split.
    - eapply touches_trans; [exact Ht03|]. eapply touches_mono; [|exact Ht4]. unfold ps. set_solver.
    - intros [He Hq]. split; [done|]. by intros ?%(touches_quiet _ _ _ Ht3). }
  apply wp_bind, wp_on_db_fs, wp_write_fresh; cbn [world_set_fs w_fs];
    [apply Ht3|by apply (touches_dirs _ _ _ Ht3)|apply Hnew; intros id E; revert E; unfold sst_name; names_differ|by apply (engine_state_ok T d w)|..].
  { intros e s4 Ht4 He. cbn [then_wp]. destruct (Hnext s4 e Ht4). apply Herr; auto. }
  intros s4 Ht4 Hmf. cbn [then_wp]. change (world_set_fs s4 (world_set_fs s3 w)) with (world_set_fs s4 w).
  apply wp_on_db_fs, wp_sync_dir; [apply Ht4|..]; cbn [world_set_fs w_fs].
  { intros k s5 Hs5 Hq. destruct (Hnext s4 (Io k) Ht4) as [Ht04 Hb]. apply Herr.
    - eapply touches_trans; [exact Ht04|]. apply touches_same; [apply Ht4|done].
    - apply Hb. split; [eauto|]. by intros ?%(touches_quiet _ _ _ Ht4). }
  intros s5 Ht5 _ _. exists s5. destruct (Hnext s4 (Io OtherIo) Ht4) as [Ht04 _]. split; [done|]. split.
  { exists ps. split; [|done]. eapply touches_trans; [exact Ht04|]. eapply touches_mono; [|exact Ht5]. apply list_subseteq_nil. }
  split; [done|]. split; [intros p Hp; rewrite <- En; by apply Hnone|]. eapply (checkpointed_intro T d w dir s3); [done|by apply (touches_dirs _ _ _ Ht3)| | | |].
  - apply Hnew. intros id E. revert E. unfold sst_name. names_differ.
  - intros t Ht. rewrite Hd3 by done. apply (touches_data _ _ _ Ht2), not_elem_of_nil.
  - eapply touches_trans; [exact Ht4|]. eapply touches_mono; [|exact Ht5]. apply list_subseteq_nil.
  - eapply manifest_file_touches; [exact Ht5|apply not_elem_of_nil..|done].
Qed.
(** What another directory's engine does is no matter. *)
Lemma checkpointed_inside T d dir src s s' :
  good s' -> inside src s s' -> dir <> src -> checkpointed T d dir s -> checkpointed T d dir s'.
Proof.
  intros Hg Hi Hne [(? & Hc & ? & ? & x & Hx & Hm) []].
  assert (forall nm, path_data s' (join dir nm) = path_data s (join dir nm)) as E by (intros; by apply (in_data _ _ _ Hi)).
  split.
  - split_and!; try done; [by rewrite E|]. exists x. unfold manifest_path. by rewrite E.
  - split; try done.
    + by apply (in_dirs _ _ _ Hi).
    + intros id Hid. destruct (ct_table id Hid) as (? & b & ? & ?). split; [done|]. exists b. unfold sst_path. by rewrite E.
    + unfold log_file. by rewrite E.
Qed.

(** ** Opening a checkpoint *)

Lemma checkpoint_startable hist T d w dir opts room m s :
  serving hist T (d, w) -> mt_map (db_active d) = [] -> tracks hist U64_MAX m -> checkpointed T d dir s ->
  sum_encoded hist + room <= SIZE_LIMIT -> db_next_seq d + room <= U64_MAX -> db_next_sst_id d + room <= U64_MAX ->
  2 <= o_compaction_threshold opts -> startable room m dir opts s.
Proof.
  intros [Hok Hh] Ha Hm [Hmf Hct] Hsz Hseq Hid Hopts. cbn [fst snd] in *. unfold startable, process.
  pose proof (reboot_touches s (ct_good _ _ _ _ _ _ Hct)) as Ht.
  pose proof (apply_snapshot_edits (engine_state d) (dk_ids _ _ _ Hok)) as Est.
  assert (forall p : Path, p ∉ []) as Hnil by (intros; apply not_elem_of_nil).
  eapply wp_mono; [apply (wp_reopen hist T d dir opts (reboot s) 0 (snapshot_edits (engine_state d)) (recs_of T d) [] []); rewrite ?Est|].
  - done.
  - done.
  - by eapply manifest_file_touches.
  - by eapply contents_touches.
  - done.
  - rewrite layers_thawed by apply Hok. unfold content_layers, mt_iter. rewrite Ha. f_equal. by apply (layers_of_ids T d w).
  - done.
  - intros r Hr. by apply elem_of_nil in Hr.
  - intros o w' (Hq' & d1 & T1 & -> & Hs1 & Hl1 & Ed & Eo & Es & Eg & Ei & En). split; [done|].
    rewrite Est in Ei. cbn [engine_state st_next_sst_id] in Ei.
    exists d1. split_and!; auto. assert (room <= SIZE_LIMIT) by lia. unfold SIZE_LIMIT, U64_MAX in *.
    eapply (serving_represents hist T d T1); try done; unfold SIZE_LIMIT, U64_MAX; try lia. by rewrite Eo.
Qed.

(** What [checkpoint] leaves: the source as it was, and a directory to start on. *)
Definition checkpoint_post (room : N) (sp : KV) (hs : list N) (s : DbInner * World) (dir : string)
    (o : outcome unit) (s' : DbInner * World) : Prop :=
  match o with
  | Ok _ => represents room sp hs s' /\ log_ok s'.1 s'.2 /\ db_dir s'.1 = db_dir s.1 /\ dir <> db_dir s.1 /\
      (forall p, p_dir p = dir -> fs_names (w_fs s.2) !! p = None) /\
      (quiet (w_fs s.2) -> quiet (w_fs s'.2)) /\
      exists T d, checkpointed T d dir (w_fs s'.2) /\ forall s1 opts, checkpointed T d dir s1 ->
        2 <= o_compaction_threshold opts -> startable room (kv_map sp) dir opts s1
  | Err e => poisoned s'.1 /\ ~ quiet (w_fs s.2) \/ represents room sp hs s' /\ log_ok s'.1 s'.2 /\
      (~ quiet (w_fs s.2) \/
       e = Corrupt (dir +:+ " is not empty; refusing to write a checkpoint over it") /\
       exists p, p_dir p = dir /\ is_Some (fs_names (w_fs s.2) !! p))
  | Panic => False
  end.

Lemma wp_db_checkpoint room sp hs s dir :
  represents room sp hs s -> log_ok s.1 s.2 -> 1 <= room ->
  wp (db_checkpoint dir) s (checkpoint_post (room - 1) sp hs s dir).
Proof.
  destruct s as [d w]. intros Hr Hl Hroom. pose proof Hr as (hist & T & Hs & Hm & Hsn & Hp & Hsz & Hseq & Hid & Hgn & Hth).
  cbn [fst snd] in *. unfold db_checkpoint. apply wp_bind, (wp_health T); [apply Hs|]. cbn [then_wp]. apply wp_bind.
  eapply wp_mono; [apply (wp_flush_inner hist T d w Hs); lia|].
  intros [[]|e|] [d1 w1] [Hpost Ho]; cbn [then_wp]; [|by left|done].
  destruct (Ho eq_refl) as ((Ha & Hlog & _ & Hni) & T1 & Hs1 & _).
  destruct Hpost as (_ & (Ed & Eo & Es & Eg) & [En _] & Hin). cbn [fst snd] in *.
  specialize (Hlog (or_intror Hl)).
  eapply wp_mono; [apply (wp_checkpoint_files T1 d1 w1 dir), Hs1|].
  intros o s' (s2 & -> & Haway & Hpost).
  assert (represents (room - 1) sp hs (d1, world_set_fs s2 w1)) as Hr2.
  { exists hist, T1. unfold represents_by. cbn [fst]. rewrite En, Es, Eg, Eo. split_and!; try done; try lia.
    split; [by apply db_ok_away; [apply Hs1|]|apply Hs1]. }
  assert (log_ok d1 (world_set_fs s2 w1)) as Hl2 by (by apply (log_ok_away T1); [apply Hs1|..]).
  destruct o as [[]|e|]; [| |done].
  - unfold checkpoint_post. cbn [fst snd]. split_and!; try done.
    + intros ->. by destruct Hpost.
    + destruct Hpost as (Hne & Hempty & _). intros p Hpd. rewrite <- (in_names _ _ _ Hin) by congruence. by apply Hempty.
    + intros Hq%(in_quiet _ _ _ Hin). by destruct Haway as (ps & Ht & _); apply (touches_quiet _ _ _ Ht).
    + exists T1, d1. split; [apply Hpost|]. intros s1 opts Hck Hopts. eapply (checkpoint_startable hist T1 d1 w1); try done; lia.
  - right. split; [done|]. split; [done|]. destruct Hpost as [[_ Hq]|[-> (p & Hpd & Hnm)]].
    + left. cbn [snd]. by intros ?%(in_quiet _ _ _ Hin).
    + right. split; [done|]. destruct (decide (dir = db_dir d)) as [->|Hne].
      * exists (join (db_dir d) WAL_FILENAME). split; [done|]. pose proof (dk_wal _ _ _ (proj1 Hs)) as E. cbn in E |- *. rewrite E. eauto.
      * exists p. split; [done|]. cbn [snd]. rewrite <- (in_names _ _ _ Hin); [done|congruence].
Qed.
End checkpoint.
