(* ===== verification/Shutdowns.v ===== *)
(** * Shutting down

    Dropping the handle: [Drop for Workers] tells the flush thread to stop, joins it,
    does the same with the compaction thread, and then the lock is released.  On a
    disk without faults both threads end, and nothing is lost. *)
From Stdlib Require Import NArith Lia.
From stdpp Require Import base numbers list sorting strings gmap.
From S2P Require Import Prelude Errors FileNames Platform State FileSystem Store Records Versions MemTable.
From S2P Require Import Headers Frames WriteAheadLog Manifest ManifestRecovery.
From S2P Require Import Bloom SsTables TableLayout TableReads Tables Merging Compaction Scans Engine.
From S2P Require Import Layers Writes Flushes CompactSteps Specification Sessions Recovery Restarts Checkpoints.

Local Open Scope N_scope.

(** The program runs to its end, and what holds then. *)
Abbreviation returns m s Q := (wp m s (fun o s' => o = Ok tt /\ Q s')).

Section shutdown.
Context `{PlatformOk}.

(** ** Maintenance on a quiet disk *)

Lemma flush_inner_empty d w :
  db_failed d = None -> mt_map (db_active d) = [] -> flush_inner (d, w) = (Ok tt, (d, w)).
Proof.
  intros Hf Ha. unfold flush_inner, db_health, latching, flush_impl, flush_freeze, mt_is_empty, attempt, mbind, ST_bind, gets. cbn [fst].
  rewrite Hf. cbn. by rewrite Ha.
Qed.

Lemma flush_quiet room sp hs d w :
  represents room sp hs (d, w) -> quiet (w_fs w) -> 1 <= room ->
  returns flush_inner (d, w) (fun s' => represents (room - 1) sp hs s' /\ keeps (d, w) s' /\
    mt_map (db_active s'.1) = [] /\ db_tasks s'.1 = db_tasks d /\ (log_ok d w -> log_ok s'.1 s'.2)).
Proof.
  intros (hist & T & Hr) Hq Hroom. pose proof Hr as (Hs & _ & _ & _ & Hsz & _ & Hid & _). cbn [fst snd] in *.
  eapply wp_mono; [apply (wp_flush_inner hist T d w Hs); lia|].
  intros [[]|e|] s' [Hpost Ho]; [|by destruct Hpost|done]. split; [done|].
  destruct (Ho eq_refl) as ((Ha & Hlog & _ & Hni) & _).
  destruct (represents_kept hist T room 1 sp hs (d, w) tt s' Hr Hpost Hroom Hni) as [Hr' Hk]; [auto|].
  destruct Hpost as (_ & _ & [_ Htk] & _). split_and!; auto.
Qed.

Lemma compact_quiet room sp hs d w :
  represents room sp hs (d, w) -> quiet (w_fs w) ->
  returns (compact_while (S (length (db_sstables d)))) (d, w) (fun s' => represents room sp hs s' /\ keeps (d, w) s' /\
    db_tasks s'.1 = db_tasks d /\ db_compact s'.1 = db_compact d).
Proof.
  intros (hist & T & Hr) Hq. pose proof Hr as (Hs & _ & _ & _ & Hsz & _ & _ & _ & Hth). cbn [fst snd] in *.
  eapply wp_mono; [apply (wp_compact_while hist _ T d w Hs); [lia|done|lia]|].
  intros [[]|e|] s' [Hpost Ho]; [|by destruct Hpost|done]. split; [done|].
  destruct (Ho eq_refl) as ([_ Hcq] & _ & Hni & Hlog & _).
  destruct (represents_kept hist T room 0 sp hs (d, w) tt s' Hr Hpost) as [Hr' Hk]; [lia|cbn; lia|done|].
  rewrite N.sub_0_r in Hr'. destruct Hpost as (_ & _ & [_ Htk] & _). by split_and!.
Qed.

Lemma represents_tasks room sp hs d w q : represents room sp hs (d, w) -> represents room sp hs (set_db_tasks q d, w).
Proof. intros Hr. apply (represents_queues _ _ _ d w q (db_compact d)) in Hr. by destruct d. Qed.
Lemma represents_compact room sp hs d w q : represents room sp hs (d, w) -> represents room sp hs (set_db_compact q d, w).
Proof. intros Hr. apply (represents_queues _ _ _ d w (db_tasks d) q) in Hr. by destruct d. Qed.

Lemma represents_healthy room sp hs s : represents room sp hs s -> db_failed s.1 = None.
Proof. intros (hist & T & [Hok _] & _). apply Hok. Qed.

(** ** The flush thread *)

(** What [room] is left when a flush may still be needed. *)
Definition flush_room (room room' : N) (d : DbInner) : Prop :=
  mt_map (db_active d) = [] /\ room' = room \/ 1 <= room /\ room' = room - 1.

Lemma flush_room_le room room' d : flush_room room room' d -> room' <= room.
Proof. intros [[_ ->]|[? ->]]; lia. Qed.

Lemma worker_turn_quiet room room' sp hs d w t q :
  represents room sp hs (d, w) -> quiet (w_fs w) -> db_tasks d = Some (t :: q) -> flush_room room room' d ->
  returns worker_turn (d, w) (fun s' => keeps (d, w) s' /\
    db_tasks s'.1 = (if t is TaskFlush then Some q else None) /\
    exists r, represents r sp hs s' /\ flush_room r room' s'.1).
Proof.
  intros Hr Hq Ht Hroom. unfold worker_turn. apply wp_bind, wp_gets. cbn [then_wp fst]. rewrite Ht. destruct t.
  2: { apply wp_update. cbn [fst snd]. split_and!; [done..|]. exists room. split; [by apply represents_tasks|done]. }
  apply wp_bind, wp_update. cbn [then_wp fst snd]. set (d1 := set_db_tasks (Some q) d).
  pose proof (represents_tasks _ _ _ _ _ (Some q) Hr) as Hr1. fold d1 in Hr1.
  assert (keeps (d, w) (d1, w)) as Hk1 by by split.
  apply wp_bind, wp_attempt. destruct Hroom as [[Ha ->]|[Hroom ->]].
  - eapply wp_run; [by apply (flush_inner_empty d1 w (represents_healthy _ _ _ _ Hr1))|]. apply wp_ret.
    split_and!; [done..|]. exists room. split; [done|]. by left.
  - eapply wp_mono; [by apply (flush_quiet room sp hs d1 w)|]. intros o s' (-> & Hr' & Hk & Ha & Htk & _).
    apply wp_ret. split; [done|]. split; [by etrans|]. split; [done|]. exists (room - 1). split; [done|]. by left.
Qed.

Lemma join_ended (e : DbInner -> bool) turn fuel s : e s.1 = true -> join_thread e turn fuel s = (Ok tt, s).
Proof. intros E. destruct fuel; cbn [join_thread]; unfold mbind, ST_bind, gets; by rewrite E. Qed.

Lemma join_turn (e : DbInner -> bool) turn fuel s Q :
  e s.1 = false -> wp (join_thread e turn (S fuel)) s Q <-> wp (_ ← turn; join_thread e turn fuel) s Q.
Proof.
  intros E. assert (join_thread e turn (S fuel) s = (_ ← turn; join_thread e turn fuel) s) as Eq.
  { cbn [join_thread]. unfold mbind, ST_bind, gets. by rewrite E. }
  unfold wp. by rewrite Eq.
Qed.

(** The messages before the one to stop, and that one, are the turns it takes. *)
Lemma wp_join_worker room room' sp hs d w q :
  represents room sp hs (d, w) -> quiet (w_fs w) -> db_tasks d = Some (q ++ [TaskShutdown]) -> flush_room room room' d ->
  returns (join_thread (fun d => ended (db_tasks d)) worker_turn (S (length q))) (d, w) (fun s' =>
    represents room' sp hs s' /\ keeps (d, w) s' /\ db_tasks s'.1 = None).
Proof.
  revert room d w. induction q as [|t q IH]; intros room d w Hr Hq Ht Hroom; cbn [length];
    (rewrite join_turn by (cbn [fst]; by rewrite Ht)); apply wp_bind;
    (eapply wp_mono; [by eapply (worker_turn_quiet room room' sp hs d w)|]);
    intros o [d1 w1] (-> & Hk & Ht1 & r & Hr1 & Hroom1); cbn [then_wp fst] in *.
  - eapply wp_run; [apply join_ended; cbn [fst]; by rewrite Ht1|]. split; [done|]. split_and!; [|done|done].
    eapply represents_room; [|exact Hr1]. by eapply flush_room_le.
  - destruct t.
    + eapply wp_mono; [apply (IH r d1 w1); [done|by apply Hk|done|done]|].
      intros o s' (-> & Hr' & Hk' & Ht'). split; [done|]. split_and!; [done|by etrans|done].
    + eapply wp_run; [apply join_ended; cbn [fst]; by rewrite Ht1|]. split; [done|]. split_and!; [|done|done].
      eapply represents_room; [|exact Hr1]. by eapply flush_room_le.
Qed.

(** ** The compaction thread *)

Lemma compactor_turn_quiet room sp hs d w c q :
  represents room sp hs (d, w) -> quiet (w_fs w) -> db_compact d = Some (c :: q) ->
  returns compactor_turn (d, w) (fun s' => keeps (d, w) s' /\ represents room sp hs s' /\ db_tasks s'.1 = db_tasks d /\
    db_compact s'.1 = (if c is CompactRun then Some q else None)).
Proof.
  intros Hr Hq Hc. unfold compactor_turn. apply wp_bind, wp_gets. cbn [then_wp fst]. rewrite Hc. destruct c.
  2: { apply wp_update. cbn [fst snd]. split_and!; [done|done|by apply represents_compact|done|done]. }
  apply wp_bind, wp_update. cbn [then_wp fst snd]. set (d1 := set_db_compact (Some q) d).
  pose proof (represents_compact _ _ _ _ _ (Some q) Hr) as Hr1. fold d1 in Hr1.
  assert (keeps (d, w) (d1, w)) as Hk1 by by split.
  apply wp_bind, wp_gets. cbn [then_wp fst]. unfold ignore. apply wp_bind, wp_attempt.
  eapply wp_mono; [by apply (compact_quiet room sp hs d1 w)|]. intros o s' (-> & Hr' & Hk & Htk & Hcq).
  apply wp_ret. split; [done|]. by split_and!; [etrans|..].
Qed.

Lemma wp_join_compactor room sp hs d w q :
  represents room sp hs (d, w) -> quiet (w_fs w) -> db_compact d = Some (q ++ [CompactShutdown]) ->
  returns (join_thread (fun d => ended (db_compact d)) compactor_turn (S (length q))) (d, w) (fun s' =>
    represents room sp hs s' /\ keeps (d, w) s' /\ db_tasks s'.1 = db_tasks d /\ db_compact s'.1 = None).
Proof.
  revert d w. induction q as [|c q IH]; intros d w Hr Hq Hc; cbn [length];
    (rewrite join_turn by (cbn [fst]; by rewrite Hc)); apply wp_bind;
    (eapply wp_mono; [by eapply (compactor_turn_quiet room sp hs d w)|]);
    intros o [d1 w1] (-> & Hk & Hr1 & Ht1 & Hc1); cbn [then_wp fst] in *.
  - eapply wp_run; [apply join_ended; cbn [fst]; by rewrite Hc1|]. by split_and!.
  - destruct c.
    + eapply wp_mono; [apply (IH d1 w1); [done|by apply Hk|done]|].
      intros o s' (-> & Hr' & Hk' & Ht' & Hc'). split; [done|]. split_and!; [done|by etrans|congruence|done].
    + eapply wp_run; [apply join_ended; cbn [fst]; by rewrite Hc1|]. by split_and!.
Qed.

(** ** Dropping the handle *)

Lemma wp_workers_drop room sp hs d w :
  represents room sp hs (d, w) -> quiet (w_fs w) -> 1 <= room ->
  returns workers_drop (d, w) (fun s' => represents (room - 1) sp hs s' /\ keeps (d, w) s' /\
    db_tasks s'.1 = None /\ db_compact s'.1 = None).
Proof.
  intros Hr Hq Hroom. unfold workers_drop, send_task. apply wp_bind, wp_update. cbn [then_wp fst snd].
  apply wp_bind, wp_gets. cbn [then_wp fst]. set (d1 := set_db_tasks _ d).
  pose proof (represents_tasks _ _ _ _ _ (db_tasks d1) Hr : represents room sp hs (d1, w)) as Hr1.
  assert (keeps (d, w) (d1, w)) as Hk1 by by split.
  assert (returns (join_thread (fun d => ended (db_tasks d)) worker_turn (pending (db_tasks d1))) (d1, w) (fun s' =>
    represents (room - 1) sp hs s' /\ keeps (d1, w) s' /\ db_tasks s'.1 = None)) as Hj.
  { destruct (db_tasks d) as [q|] eqn:E; unfold d1; cbn [fmap option_fmap option_map set_db_tasks db_tasks].
    - unfold pending. cbn [from_option id]. rewrite length_app, Nat.add_1_r.
      apply (wp_join_worker room); [done|done|done|by right].
    - eapply wp_run; [by apply join_ended|]. split_and!; try done. eapply represents_room; [|exact Hr1]. lia. }
  apply wp_bind. eapply wp_mono; [exact Hj|]. intros o [d2 w2] (-> & Hr2 & Hk2 & Ht2). cbn [then_wp fst] in *. clear Hj.
  assert (keeps (d, w) (d2, w2)) as Hk by by etrans.
  unfold send_compact. apply wp_bind, wp_update. cbn [then_wp fst snd]. apply wp_bind, wp_gets. cbn [then_wp fst].
  set (d3 := set_db_compact _ d2).
  pose proof (represents_compact _ _ _ _ _ (db_compact d3) Hr2 : represents (room - 1) sp hs (d3, w2)) as Hr3.
  assert (keeps (d, w) (d3, w2)) as Hk3 by (etrans; [exact Hk|by split]).
  destruct (db_compact d2) as [q|] eqn:E; unfold d3 in *; cbn [fmap option_fmap option_map set_db_compact db_compact] in *.
  - unfold pending. cbn [from_option id]. rewrite length_app, Nat.add_1_r.
    eapply wp_mono; [apply (wp_join_compactor (room - 1)); [exact Hr3|by apply Hk3|done]|].
    intros o s' (-> & Hr' & Hk' & Ht' & Hc'). split; [done|]. split_and!; [done|by etrans| |done]. by rewrite Ht'.
  - eapply wp_run; [by apply join_ended|]. by split_and!.
Qed.

(** A new process serves the same map, and the lock is free. *)
Lemma wp_db_drop room sp hs d w :
  represents room sp hs (d, w) -> quiet (w_fs w) -> 1 <= room ->
  returns db_drop (d, w) (fun s' => represents (room - 1) sp hs s' /\ keeps (d, w) s' /\
    (o_maintenance (db_opts d) = Threads -> db_tasks s'.1 = None /\ db_compact s'.1 = None) /\
    db_lock d ∉ fs_locks (w_fs s'.2)).
Proof.
  intros Hr Hq Hroom. unfold db_drop. apply wp_bind, wp_gets. cbn [then_wp fst]. apply wp_bind.
  assert (returns (match o_maintenance (db_opts d) with Threads => workers_drop | Manual => mret tt end) (d, w) (fun s' =>
    represents (room - 1) sp hs s' /\ keeps (d, w) s' /\
    (o_maintenance (db_opts d) = Threads -> db_tasks s'.1 = None /\ db_compact s'.1 = None))) as Hw.
  { destruct (o_maintenance (db_opts d)).
    - eapply wp_mono; [by apply (wp_workers_drop room sp hs)|]. intros o s' (-> & ? & ? & ?). by split_and!.
    - apply wp_ret. split_and!; [done| |done|done]. eapply represents_room; [|exact Hr]. lia. }
  eapply wp_mono; [exact Hw|]. intros o [d1 w1] (-> & Hr1 & Hk1 & Hth). cbn [then_wp].
  unfold dir_lock_drop. apply wp_on_db_fs, wp_modify. split; [done|].
  assert (forall l, represents (room - 1) sp hs (d1, world_set_fs (set_locks l (w_fs w1)) w1) /\
    keeps (d1, w1) (d1, world_set_fs (set_locks l (w_fs w1)) w1)) as Hl.
  { intros l. destruct Hr1 as (hist & T & [Hok Hh] & Hrest). cbn [fst snd] in *.
    assert (touches [] (w_fs w1) (set_locks l (w_fs w1))) as Ht by (apply touches_locks, touches_refl, Hok).
    assert (away (db_dir d1) (w_fs w1) (set_locks l (w_fs w1))) as Haway by (exists []; split; [done|constructor]).
    split.
    - exists hist, T. split; [|done]. split; [by apply db_ok_away|done].
    - split_and!; cbn [fst snd]; [|by apply (log_ok_away T)|done]. eapply touches_inside; [exact Ht|constructor]. }
  split_and!; [apply Hl|etrans; [exact Hk1|apply Hl]|done|cbn; set_solver].
Qed.
End shutdown.
