(* ===== verification/CommandLine.v ===== *)
(** * The command line (src/src/bin/lsm.rs)

    [lsm <dir> <put k v | get k | delete k | flush>]: each invocation is a process
    that opens the directory, runs one command and drops the handle. *)
From Stdlib Require Import NArith Lia.
From stdpp Require Import base numbers list sorting strings gmap.
From S2P Require Import Prelude Errors FileNames Platform State FileSystem Store Records Versions MemTable.
From S2P Require Import Headers Frames WriteAheadLog Manifest ManifestRecovery.
From S2P Require Import Bloom SsTables TableLayout TableReads Tables Merging Compaction Scans Engine.
From S2P Require Import Layers Writes Flushes CompactSteps Specification Sessions Recovery Restarts Checkpoints Shutdowns.

Local Open Scope N_scope.

(** ** [String::from_utf8_lossy] *)

(** The byte at [i] is there and lies in a range. *)
Definition byte_in (b : bytes) (i : nat) (lo hi : N) : bool :=
  match b !! i with
  | Some x => (lo <=? byte_val x) && (byte_val x <=? hi)
  | None => false
  end.

(** The bytes from the front that make up a character, and whether they do. *)
Definition utf8_front (b : bytes) : bool * nat :=
  let first := byte_in b 0 in
  if first 0 127 then (true, 1%nat)
  else if first 194 223 then (if byte_in b 1 128 191 then (true, 2%nat) else (false, 1%nat))
  else if first 224 239 then
    let lo := if first 224 224 then 160 else 128 in
    let hi := if first 237 237 then 159 else 191 in
    if byte_in b 1 lo hi then (if byte_in b 2 128 191 then (true, 3%nat) else (false, 2%nat))
    else (false, 1%nat)
  else if first 240 244 then
    let lo := if first 240 240 then 144 else 128 in
    let hi := if first 244 244 then 143 else 191 in
    if byte_in b 1 lo hi then
      if byte_in b 2 128 191 then (if byte_in b 3 128 191 then (true, 4%nat) else (false, 3%nat))
      else (false, 2%nat)
    else (false, 1%nat)
  else (false, 1%nat).

(** U+FFFD. *)
Definition REPLACEMENT : bytes := byte_of <$> [239; 191; 189].

Fixpoint lossy (fuel : nat) (b : bytes) : bytes :=
  match b, fuel with
  | _ :: _, S fuel =>
      let '(ok, n) := utf8_front b in
      (if ok : bool then take n b else REPLACEMENT) ++ lossy fuel (drop n b)
  | _, _ => []
  end.
Definition from_utf8_lossy (b : bytes) : bytes := lossy (length b) b.

Fixpoint utf8 (fuel : nat) (b : bytes) : bool :=
  match b, fuel with
  | _ :: _, S fuel => let '(ok, n) := utf8_front b in ok && utf8 fuel (drop n b)
  | [], _ => true
  | _, O => false
  end.
Definition valid_utf8 (b : bytes) : bool := utf8 (length b) b.

Lemma utf8_lossy fuel b : utf8 fuel b = true -> lossy fuel b = b.
Proof.
  revert b. induction fuel as [|fuel IH]; intros [|x b]; cbn [utf8 lossy]; try done.
  destruct (utf8_front (x :: b)) as [[] n]; [|done]. cbn [andb]. intros Hu. rewrite IH by done. apply take_drop.
Qed.

(** Text is shown as it is. *)
Lemma from_utf8_lossy_valid b : valid_utf8 b = true -> from_utf8_lossy b = b.
Proof. apply utf8_lossy. Qed.

(** ** The program *)

Inductive CliResult := Printed (out : bytes) | Failed (msg : string).

Definition usage : string := "usage: lsm <dir> <put k v | get k | delete k | flush>".

(** [println!]. *)
Definition println (text : bytes) : CliResult := Printed (text ++ [byte_of 10]).

(** The arms of [match cmd[0].as_str()] in [run], with their guards. *)
Inductive Command :=
| CmdPut (key value : bytes)
| CmdGet (key : bytes)
| CmdDelete (key : bytes)
| CmdFlush.

Definition parse_command (cmd : list string) : option Command :=
  match cmd with
  | [name; a; b] =>
      if String.eqb name "put" then Some (CmdPut (bytes_of_string a) (bytes_of_string b)) else None
  | [name; a] =>
      if String.eqb name "get" then Some (CmdGet (bytes_of_string a))
      else if String.eqb name "delete" then Some (CmdDelete (bytes_of_string a)) else None
  | [name] => if String.eqb name "flush" then Some CmdFlush else None
  | _ => None
  end.

(** What the arms format. *)
Definition show_value (v : option bytes) : bytes :=
  match v with Some v => from_utf8_lossy v | None => bytes_of_string "(nil)" end.
Definition show_count (n : N) : bytes := bytes_of_string "OK (" ++ dec n ++ bytes_of_string " sstables)".

Section cli.
Context `{Platform}.

(** [m.map_err(|e| e.to_string())?] before what is printed. *)
Definition or_message {A} (m : DbM A) (f : A -> DbM CliResult) : DbM CliResult :=
  r ← attempt m;
  match r with
  | inl a => f a
  | inr e => mret (Failed (error_to_string e))
  end.

Definition cli_command (cmd : list string) : DbM CliResult :=
  match parse_command cmd with
  | Some (CmdPut key value) => or_message (db_put key value) (fun _ => mret (println (bytes_of_string "OK")))
  | Some (CmdGet key) => or_message (db_get key) (fun v => mret (println (show_value v)))
  | Some (CmdDelete key) => or_message (db_delete key) (fun _ => mret (println (bytes_of_string "OK")))
  | Some CmdFlush =>
      or_message db_flush (fun _ => n ← gets (fun s => sstable_count s.1); mret (println (show_count n)))
  | None => mret (Failed usage)
  end.

(** A handle that the function owns. *)
Definition with_db {A} (d : DbInner) (m : DbM A) : WM A := fun w => let '(o, (_, w')) := m (d, w) in (o, w').

(** [run]; the handle is dropped on every way out. *)
Definition cli_run (args : list string) : WM CliResult :=
  match args with
  | dir :: name :: rest =>
      r ← attempt (db_open dir options_default);
      match r with
      | inl d => with_db d (r ← cli_command (name :: rest); _ ← db_drop; mret r)
      | inr e => mret (Failed (error_to_string e))
      end
  | _ => mret (Failed usage)
  end.

(** [main]: the exit code, standard output and standard error. *)
Definition cli_main (args : list string) : WM (N * bytes * bytes) :=
  r ← cli_run args;
  mret (match r with
        | Printed out => (0, out, [])
        | Failed msg => (1, [], bytes_of_string "error: " ++ bytes_of_string msg ++ [byte_of 10])
        end).
End cli.

(** ** Invocations, one after the other *)

(** What the map becomes, and what a command may print. *)
Definition cli_update (m : gmap bytes bytes) (cmd : list string) : gmap bytes bytes :=
  match parse_command cmd with
  | Some (CmdPut key value) => <[key := value]> m
  | Some (CmdDelete key) => delete key m
  | _ => m
  end.

Definition cli_prints (m : gmap bytes bytes) (cmd : list string) (r : CliResult) : Prop :=
  match parse_command cmd with
  | Some (CmdPut _ _) | Some (CmdDelete _) => r = println (bytes_of_string "OK")
  | Some (CmdGet key) => r = println (show_value (m !! key))
  | Some CmdFlush => exists n, r = println (show_count n)
  | None => r = Failed usage
  end.

Fixpoint cli_explains (m : gmap bytes bytes) (cmds : list (list string)) (rs : list CliResult) : Prop :=
  match cmds, rs with
  | [], [] => True
  | cmd :: cmds, r :: rs => cli_prints m cmd r /\ cli_explains (cli_update m cmd) cmds rs
  | _, _ => False
  end.

(** The room that a command takes: its write, a flush, and the restart. *)
Definition cli_op (cmd : list string) : Op :=
  match parse_command cmd with
  | Some (CmdPut key value) => Put key value
  | Some (CmdGet key) => Get key
  | Some (CmdDelete key) => Delete key
  | Some CmdFlush => Flush
  | None => Maintain
  end.
Definition cli_cost (cmd : list string) : N := 2 + op_cost (cli_op cmd).
Definition cli_costs (cmds : list (list string)) : N := foldr (fun cmd n => cli_cost cmd + n) 0 cmds.

Section invocations.
Context `{PlatformOk}.

(** Processes with the same directory. *)
Fixpoint invocations (dir : string) (s : FsState) (cmds : list (list string)) : outcome (list CliResult) :=
  match cmds with
  | [] => Ok []
  | cmd :: cmds =>
      match cli_run (dir :: cmd) (process s) with
      | (Ok r, w) => rest ← invocations dir (w_fs w) cmds; Ok (r :: rest)
      | (Err e, _) => Err e
      | (Panic, _) => Panic
      end
  end.

(** An operation on a quiet disk. *)
Lemma exec_quiet room sp op s :
  represents room sp [] s -> quiet (w_fs s.2) -> op_cost op <= room ->
  exists hs' s', exec [] op s = (Ok ((spec_exec sp op).1, hs'), s') /\
    represents (room - op_cost op) (spec_exec sp op).2 hs' s' /\ keeps s s'.
Proof.
  intros Hr Hq Hc. pose proof (exec_refines room sp [] op s Hr Hc) as Hw. unfold wp in Hw.
  destruct (exec [] op s) as [[[r hs']|e|] s']; cbn [fst snd] in Hw; unfold exec_post in Hw; [|by destruct Hw|done].
  destruct Hw as [-> [[Hr' Hk]|[_ Hn]]]; [|done]. by exists hs', s'.
Qed.

Lemma or_message_ok {A} (m : DbM A) f s a s' : m s = (Ok a, s') -> or_message m f s = f a s'.
Proof. intros E. unfold or_message. by rewrite (bind_attempt_ok _ _ _ _ _ E). Qed.

(** A command does to the engine what its operation does. *)
Lemma cli_command_quiet room m s cmd :
  represents room (mkKV m []) [] s -> quiet (w_fs s.2) -> op_cost (cli_op cmd) <= room ->
  exists r s' hs, cli_command cmd s = (Ok r, s') /\ cli_prints m cmd r /\ keeps s s' /\
    represents (room - op_cost (cli_op cmd)) (mkKV (cli_update m cmd) []) hs s'.
Proof.
  intros Hr Hq Hc. pose proof (exec_quiet room _ _ s Hr Hq Hc) as Hx. revert Hx.
  unfold cli_command, cli_prints, cli_update, cli_op in *.
  destruct (parse_command cmd) as [[key value|key|key|]|].
  5: { intros _. eexists _, s, []. split_and!; [done|done|done|]. eapply represents_room; [|exact Hr]. lia. }
  all: intros (hs & s' & E & Hr' & Hk); cbn [exec] in E; apply bind_run_inv in E as (a & s1 & E & E1);
    injection E1; intros; subst; rewrite (or_message_ok _ _ _ _ _ E); eexists _, s', _.
  - split; [done|]. by split_and!.
  - split; [done|]. split_and!; [|done|exact Hr']. by f_equal; f_equal.
  - split; [done|]. by split_and!.
  - split; [done|]. split_and!; [by eexists|done|exact Hr'].
Qed.

Lemma startable_room room room' m dir opts s : room' <= room -> startable room m dir opts s -> startable room' m dir opts s.
Proof.
  intros Hle Hs. unfold startable in *. eapply wp_mono; [exact Hs|]. intros o w' (Hq & d1 & -> & Hr & Hrest).
  split; [done|]. exists d1. split; [done|]. split; [by eapply represents_room|done].
Qed.

Lemma represents_startable room sp hs s opts :
  represents room sp hs s -> log_ok s.1 s.2 -> 1 <= room -> 2 <= o_compaction_threshold opts ->
  startable (room - 1) (kv_map sp) (db_dir s.1) opts (w_fs s.2).
Proof. intros Hr Hl Hroom Ho. by apply (restart_represents room sp hs). Qed.

(** One invocation. *)
Lemma invocation_spec room m dir s cmd :
  startable room m dir options_default s -> cli_cost cmd <= room ->
  exists r w, cli_run (dir :: cmd) (process s) = (Ok r, w) /\ cli_prints m cmd r /\
    startable (room - cli_cost cmd) (cli_update m cmd) dir options_default (w_fs w).
Proof.
  intros Hs Hc. destruct cmd as [|name rest].
  { eexists _, _. split; [done|]. split; [done|]. eapply startable_room; [|exact Hs]. lia. }
  unfold startable, wp in Hs. cbn [cli_run]. destruct (db_open dir options_default (process s)) as [o w] eqn:Eo. cbn [fst snd] in Hs.
  destruct Hs as (Hq & d & -> & Hr & Hl & Ed & _). rewrite (bind_attempt_ok _ _ _ _ _ Eo). clear Eo.
  set (cmd := name :: rest) in *. unfold cli_cost in *.
  destruct (cli_command_quiet room m (d, w) cmd Hr Hq ltac:(lia)) as (r & [d1 w1] & hs & E1 & Hp & (Hin1 & Hl1 & Ed1) & Hr1).
  cbn [fst snd] in *.
  pose proof (wp_db_drop _ _ _ d1 w1 Hr1 (in_quiet _ _ _ Hin1 Hq) ltac:(lia)) as Hd. unfold wp in Hd.
  destruct (db_drop (d1, w1)) as [o [d2 w2]] eqn:E2. cbn [fst snd] in Hd. destruct Hd as (-> & Hr2 & (_ & Hl2 & Ed2) & _).
  exists r, w2. split.
  { unfold with_db. rewrite (bind_run_ok _ _ _ _ _ E1), (bind_run_ok _ _ _ _ _ E2). done. }
  split; [done|]. cbn [fst snd] in *.
  pose proof (represents_startable _ _ _ (d2, w2) options_default Hr2 (Hl2 (Hl1 Hl)) ltac:(lia) ltac:(done)) as Hst. cbn [fst snd kv_map] in Hst.
  assert (dir = db_dir d2) as -> by congruence. eapply startable_room; [|exact Hst]. lia.
Qed.

(** A script of them. *)
Lemma invocations_spec room m dir s cmds :
  startable room m dir options_default s -> cli_costs cmds <= room ->
  exists rs, invocations dir s cmds = Ok rs /\ cli_explains m cmds rs.
Proof.
  revert room m s. induction cmds as [|cmd cmds IH]; intros room m s Hs Hc; [by exists []|].
  cbn [cli_costs foldr] in Hc. fold (cli_costs cmds) in Hc. cbn [invocations cli_explains].
  destruct (invocation_spec room m dir s cmd Hs ltac:(lia)) as (r & w & -> & Hp & Hs').
  destruct (IH _ _ _ Hs') as (rs & -> & Hrs); [lia|]. obind. by exists (r :: rs).
Qed.
End invocations.
