(* ===== verification/FuzzTargets.v ===== *)
(** * Fuzzing (src/src/lib.rs, [mod fuzzing], and src/fuzz/fuzz_targets)

    Decoders that "must reject arbitrary bytes with an [Err] rather than panicking".
    The record and the log decoders do; opening a table does unless its footer's
    offsets overflow or the number of index entries it claims, for which room is
    made before one is read, is more than the memory holds.  The targets hand their input to the decoders, two of them in a
    temporary file. *)
From Stdlib Require Import NArith Lia.
From stdpp Require Import base numbers list strings pretty gmap.
From S2P Require Import Prelude Errors FileNames Platform State FileSystem Store Records Versions.
From S2P Require Import Headers Frames WriteAheadLog Bloom SsTables.

Local Open Scope N_scope.

Section fuzzing.
Context `{Platform}.

(** [decode_record], [replay_wal] and [open_sstable]. *)
Definition decode_record (b : bytes) : outcome unit := _ ← decode_at b 0; Ok tt.
Definition replay_wal (p : Path) : FsM unit := _ ← wal_replay p; mret tt.
Definition open_sstable (p : Path) : WM unit := _ ← sst_open p true; mret tt.

(** *** The fuzz targets *)

(** [std::fs::write]: the file is created or cut to nothing, then written. *)
Definition std_write (p : Path) (data : bytes) : FsM unit :=
  h ← open p Truncate;
  append h data.

(** [std::env::temp_dir().join(format!(..))]. *)
Definition temp_file (temp_dir prefix : string) (pid : N) : Path := join temp_dir (prefix +:+ pretty pid).

(** [record_decode]. *)
Definition fuzz_record_decode (data : bytes) : outcome unit :=
  match decode_record data with
  | Panic => Panic
  | _ => Ok tt
  end.

(** [wal_replay]. *)
Definition fuzz_wal_replay (temp_dir : string) (pid : N) (data : bytes) : FsM unit :=
  let path := temp_file temp_dir "lsm_fuzz_wal_" pid in
  written ← attempt (std_write path data);
  match written with
  | inl _ => _ ← attempt (replay_wal path); _ ← attempt (remove path); mret tt
  | inr _ => mret tt
  end.

(** [sstable_open]. *)
Definition fuzz_sstable_open (temp_dir : string) (pid : N) (data : bytes) : WM unit :=
  let path := temp_file temp_dir "lsm_fuzz_sst_" pid in
  written ← attempt (on_files (std_write path data));
  match written with
  | inl _ => _ ← attempt (open_sstable path); _ ← attempt (on_files (remove path)); mret tt
  | inr _ => mret tt
  end.

(** ** Programs that do not panic *)

Abbreviation safe m s := (wp m s (fun o _ => o <> Panic)).

Lemma safe_bind {S A B} (m : ST S A) (f : A -> ST S B) s :
  wp m s (fun o s' => match o with Ok a => safe (f a) s' | Err _ => True | Panic => False end) -> safe (m ≫= f) s.
Proof. intros Hm. apply wp_bind. eapply wp_mono; [exact Hm|]. by intros [a|e|] s'. Qed.

Lemma safe_read_exact {B} h off n (f : bytes -> FsM B) s :
  (forall s', same_store s s' -> len (sub_list off (off + n) (file_data s h)) = n ->
     safe (f (sub_list off (off + n) (file_data s h))) s') ->
  safe (read_exact_at h off n ≫= f) s.
Proof.
  intros Hf. apply safe_bind. destruct (read_exact_at_spec h off n s) as (s' & Hs & [[k E]|[E Hl]]);
    (eapply wp_run; [exact E|]); [done|by apply Hf].
Qed.

Lemma safe_file_size {B} h (f : N -> FsM B) s :
  (forall s', same_store s s' -> safe (f (len (file_data s h))) s') -> safe (file_size h ≫= f) s.
Proof.
  intros Hf. apply safe_bind. unfold wp, file_size.
  match goal with |- context [guarded ?op s] =>
    destruct (guarded_cases op s) as [(k & t & -> & Hs & Hnq)|(g & -> & [Hs _])] end; [done|]. by apply Hf.
Qed.

Lemma safe_open_read {B} p (f : Handle -> FsM B) s :
  (forall h s', same_store s s' -> fs_names s !! p = Some h -> safe (f h) s') -> safe (open p Read ≫= f) s.
Proof.
  intros Hf. apply safe_bind.
  destruct (open_read_cases p s) as [(k & s' & E & _)|(h & s' & E & [Hs _] & Hn)]; (eapply wp_run; [exact E|]); [done|by apply Hf].
Qed.

Lemma safe_lift {S A B} (o : outcome A) (f : A -> ST S B) s :
  o <> Panic -> (forall a, o = Ok a -> safe (f a) s) -> safe (lift o ≫= f) s.
Proof. intros Ho Hf. apply safe_bind, wp_lift. destruct o; [by apply Hf|done|done]. Qed.

Lemma safe_then {S A B} (m : ST S A) (f : A -> ST S B) s :
  safe m s -> (forall a s', safe (f a) s') -> safe (m ≫= f) s.
Proof. intros Hm Hf. apply safe_bind. eapply wp_mono; [exact Hm|]. by intros [a|e|] s'. Qed.

Lemma safe_ret {S A} (a : A) (s : S) : safe (mret a) s.
Proof. by apply wp_ret. Qed.

(** ** The log *)

Lemma wal_replay_safe p s : safe (wal_replay p) s.
Proof.
  unfold wal_replay. apply wp_bind, wp_attempt.
  destruct (open_read_cases p s) as [(k & s' & E & _)|(h & s' & E & _)]; (eapply wp_run; [exact E|]).
  - destruct k; by (apply wp_ret || apply wp_fail).
  - apply safe_then; [|intros b s1; apply wp_lift, replay_bytes_no_panic].
    unfold read_all. apply safe_file_size. intros s1 _. unfold wp.
    by destruct (read_exact_at_spec h 0 (len (file_data s' h)) s1) as (s2 & _ & [[k ->]|[-> _]]).
Qed.

(** ** The table *)

Lemma read_bytes_cases buf pos n :
  (exists b, read_bytes buf pos n = Ok (b, pos + n) /\ pos + n <= len buf /\ len b = n) \/
  exists m, read_bytes buf pos n = Err (Corrupt m).
Proof.
  unfold read_bytes, checked_add_within. destruct (N.leb_spec (pos + n) (len buf)); cbn [ok_or]; obind; [|eauto].
  left. unfold slice. rewrite (proj2 (N.leb_le pos (pos + n))), (proj2 (N.leb_le (pos + n) (len buf))) by lia.
  obind. eexists. split_and!; [done|done|]. rewrite length_sub_list by lia. lia.
Qed.

Lemma read_int_cases (w : nat) buf pos :
  let read := '(b, p) ← read_bytes buf pos (N.of_nat w); v ← from_le w b; Ok (v, p) in
  (exists v, read = Ok (v, pos + N.of_nat w) /\ pos + N.of_nat w <= len buf) \/ exists m, read = Err (Corrupt m).
Proof.
  cbv zeta. destruct (read_bytes_cases buf pos (N.of_nat w)) as [(b & -> & Hp & Hb)|[m ->]]; obind; [|eauto].
  left. unfold from_le. rewrite (proj2 (Nat.eqb_eq (length b) w)) by lia. obind. eauto.
Qed.

Lemma read_u32_cases buf pos :
  (exists v, read_u32 buf pos = Ok (v, pos + 4) /\ pos + 4 <= len buf) \/ exists m, read_u32 buf pos = Err (Corrupt m).
Proof. exact (read_int_cases 4 buf pos). Qed.
Lemma read_u64_cases buf pos :
  (exists v, read_u64 buf pos = Ok (v, pos + 8) /\ pos + 8 <= len buf) \/ exists m, read_u64 buf pos = Err (Corrupt m).
Proof. exact (read_int_cases 8 buf pos). Qed.

Lemma read_index_safe fuel buf pos n acc :
  len buf < pos + N.of_nat fuel -> pos <= len buf -> read_index fuel buf pos n acc <> Panic.
Proof.
  revert pos n acc. induction fuel as [|fuel IH]; intros pos n acc Hf Hp; cbn [read_index]; [lia|].
  destruct (N.eqb_spec n 0); [done|].
  destruct (read_u32_cases buf pos) as [(kl & -> & H1)|[m ->]]; obind; [|done].
  destruct (read_bytes_cases buf (pos + 4) kl) as [(key & -> & H2 & _)|[m ->]]; obind; [|done].
  destruct (read_u64_cases buf (pos + 4 + kl)) as [(bo & -> & H3)|[m ->]]; obind; [|done].
  destruct (read_u32_cases buf (pos + 4 + kl + 8)) as [(cl & -> & H4)|[m ->]]; obind; [|done].
  apply IH; lia.
Qed.

(** Where the footer says that the filter ends: its offset and its length are the
    eight bytes from the twelfth and from the twentieth of the last forty-four. *)
Definition filter_end (d : bytes) : N :=
  let at_ i := le_value (sub_list (len d - FOOTER_LEN + i) (len d - FOOTER_LEN + i + 8) d) in
  at_ 12 + at_ 20.

(** How many index entries the footer claims: four bytes from its eighth. *)
Definition claimed_entries (d : bytes) : N :=
  le_value (sub_list (len d - FOOTER_LEN + 8) (len d - FOOTER_LEN + 8 + 4) d).

Lemma claimed_entries_u32 d : claimed_entries d < 4294967296.
Proof.
  unfold claimed_entries. eapply N.lt_le_trans; [apply le_value_lt|].
  set (b := sub_list _ _ d). assert (length b <= 4)%nat.
  { unfold b, sub_list. rewrite length_take. lia. }
  change 4294967296 with (256 ^ 4). apply N.pow_le_mono_r; lia.
Qed.

(** The memory that opening [d] as a table takes: its index and its filter are
    parts of it, and room for the claimed entries is made first. *)
Definition room_for (d : bytes) : N := N.max (len d) (INDEX_ENTRY_SIZE * claimed_entries d).

(** A number in the footer. *)
Lemma footer_field (d : bytes) (i e : N) (w : nat) :
  FOOTER_LEN <= len d -> e = i + N.of_nat w -> e <= FOOTER_LEN ->
  let footer := sub_list (len d - FOOTER_LEN) (len d - FOOTER_LEN + FOOTER_LEN) d in
  (b ← slice footer i e; from_le w b) =
    Ok (le_value (sub_list (len d - FOOTER_LEN + i) (len d - FOOTER_LEN + i + N.of_nat w) d)).
Proof.
  intros Hd -> Hi footer. assert (len footer = FOOTER_LEN) as Hl by (unfold footer; rewrite length_sub_list; lia).
  unfold slice. rewrite Hl, (proj2 (N.leb_le i _)), (proj2 (N.leb_le _ FOOTER_LEN)) by lia. cbn [andb]. obind.
  assert (sub_list i (i + N.of_nat w) footer = sub_list (len d - FOOTER_LEN + i) (len d - FOOTER_LEN + i + N.of_nat w) d) as ->.
  { unfold footer, sub_list. rewrite skipn_firstn_comm, drop_drop, take_take. f_equal; [lia|]. f_equal. lia. }
  unfold from_le. rewrite (proj2 (Nat.eqb_eq _ w)); [done|]. assert (len (sub_list (len d - FOOTER_LEN + i) (len d - FOOTER_LEN + i + N.of_nat w) d) = N.of_nat w); [|lia].
  rewrite length_sub_list; lia.
Qed.

Lemma sst_open_safe p enabled w :
  (forall h, fs_names (w_fs w) !! p = Some h ->
     len (file_data (w_fs w) h) <= ISIZE_MAX /\ room_for (file_data (w_fs w) h) <= memory /\
     filter_end (file_data (w_fs w) h) <= U64_MAX) ->
  safe (sst_open p enabled) w.
Proof.
  intros Hd. unfold sst_open. apply safe_then.
  2: { intros [[[file ix] bl] rc] w'. apply wp_bind, wp_gets. cbn [then_wp]. apply wp_bind, wp_modify. cbn [then_wp]. by apply wp_ret. }
  unfold on_files, read_table_file. apply wp_zoom. apply safe_open_read. intros h s1 Hs1 Hn. destruct (Hd h Hn) as (Hlen & Hroom & Hend). clear Hd.
  set (d := file_data (w_fs w) h) in *. assert (file_data s1 h = d) as E1 by (by unfold d; rewrite Hs1).
  apply safe_file_size. intros s2 Hs2. rewrite E1. assert (file_data s2 h = d) as E2 by by rewrite <- Hs2.
  destruct (N.ltb_spec (len d) FOOTER_LEN) as [|Hfl]; [by apply wp_fail|].
  apply safe_read_exact. intros s3 Hs3 _. rewrite E2. assert (file_data s3 h = d) as E3 by by rewrite <- Hs3.
  set (footer := sub_list _ _ d).
  assert (len footer = FOOTER_LEN) as Hl by (unfold footer; rewrite length_sub_list; lia).
  apply safe_lift; [unfold slice; rewrite Hl; done|]. intros magic _. destruct (negb _); [by apply wp_fail|].
  pose proof (footer_field d 0 8 8 Hfl eq_refl ltac:(done)) as F0. pose proof (footer_field d 8 12 4 Hfl eq_refl ltac:(done)) as F1.
  pose proof (footer_field d 12 20 8 Hfl eq_refl ltac:(done)) as F2. pose proof (footer_field d 20 28 8 Hfl eq_refl ltac:(done)) as F3.
  pose proof (footer_field d 28 36 8 Hfl eq_refl ltac:(done)) as F4. fold footer in F0, F1, F2, F3, F4.
  rewrite F0, F1, F2, F3, F4. clear F0 F1 F2 F3 F4. do 5 (apply safe_lift; [done|intros ? [= <-]]).
  set (io := le_value (sub_list (len d - FOOTER_LEN + 0) _ d)). set (bo := le_value (sub_list (len d - FOOTER_LEN + 12) _ d)).
  set (bl := le_value (sub_list (len d - FOOTER_LEN + 20) _ d)).
  match goal with |- context [INDEX_ENTRY_SIZE * ?n] => change n with (claimed_entries d) end. change (bo + bl <= U64_MAX) in Hend.
  apply safe_lift; [destruct (bo <? io); [done|rewrite add_u64_small by done; by obind]|]. intros out Eout.
  destruct out; [by apply wp_fail|].
  assert (io <= bo /\ bo + bl <= len d - FOOTER_LEN) as [Hio Hbo].
  { destruct (N.ltb_spec bo io); [done|]. rewrite add_u64_small in Eout by done. cbn in Eout. injection Eout as E.
    apply N.ltb_ge in E. lia. }
  assert (forall n, n <= len d -> alloc n = Ok tt) as Halloc.
  { intros n Hn'. unfold room_for in Hroom. apply alloc_small; lia. }
  apply safe_lift; [by rewrite Halloc by lia|]. intros [] _.
  apply safe_read_exact. intros s4 Hs4 _. rewrite E3. assert (file_data s4 h = d) as E4 by by rewrite <- Hs4.
  apply safe_lift; [rewrite alloc_small; [done|unfold room_for in Hroom; lia|]|intros [] _].
  { pose proof (claimed_entries_u32 d). unfold INDEX_ENTRY_SIZE, ISIZE_MAX. lia. }
  apply safe_lift; [apply read_index_safe; lia|]. intros index _.
  apply safe_lift; [by rewrite Halloc by lia|]. intros [] _.
  apply safe_read_exact. intros s5 _ _.
  apply safe_lift; [by destruct (bloom_decode_cases (sub_list bo (bo + bl) (file_data s4 h))) as [(f & -> & _)|[m ->]]|].
  intros bloom _. by apply wp_ret.
Qed.

(** ** The targets *)

Lemma decode_record_safe b : decode_record b <> Panic.
Proof. unfold decode_record. by destruct (decode_at_cases b 0) as [(r & pos & -> & _)|[m ->]]. Qed.

Lemma replay_wal_safe p s : safe (replay_wal p) s.
Proof. apply safe_then; [apply wal_replay_safe|intros; apply safe_ret]. Qed.

Lemma remove_safe p s : safe (remove p) s.
Proof.
  unfold wp, remove.
  match goal with |- context [guarded ?op s] => destruct (guarded_cases op s) as [(k & t & -> & _)|(f & -> & _)] end; [done|].
  by destruct (fs_names (set_faults f s) !! p).
Qed.

(** A file that was written holds the data. *)
Lemma wp_std_write p data s : fs_wf s ->
  wp (std_write p data) s (fun o s' => o <> Panic /\
    (o = Ok tt -> exists h, fs_names s' !! p = Some h /\ file_data s' h = data)).
Proof.
  intros Hwf. unfold std_write, wp. cbn. unfold mbind, ST_bind.
  destruct (open p Truncate s) as [[h|e|] s1] eqn:E; [|done|].
  - destruct (open_truncate_ok p s h s1 Hwf E) as (_ & En & Ei & _).
    destruct (append_cases h data s1) as (x & o & s' & -> & Hs & _ & Ho & _). cbn [fst snd].
    destruct Ho as [[-> ->]|[k ->]]; [|done]. split; [done|]. intros _. exists h.
    pose proof (appended_write h data s1 s' ltac:(by rewrite Ei) Hs) as Ha. pose proof Ha as (_ & _ & En' & _).
    rewrite En', En, lookup_insert_eq, (appended_data _ _ _ _ Ha). split; [done|]. unfold file_data. by rewrite Ei.
  - unfold open in E. match type of E with guarded ?op s = _ => destruct (guarded_cases op s) as [(k & t & E' & _)|(f & E' & _)] end;
      rewrite E' in E; [done|]. unfold open_or_create, create_inode, mbind, ST_bind, modify in E.
    destruct (fs_names (set_faults f s) !! p); [done|]. by case_bool_decide.
Qed.

(** An error that is not looked at is no error. *)
Lemma wp_ignored {S A B} (m : ST S A) (k : A + Error -> ST S B) s (Q : outcome B -> S -> Prop) :
  safe m s -> (forall r s', wp (k r) s' Q) -> wp (attempt m ≫= k) s Q.
Proof.
  intros Hm Hk. apply wp_bind, wp_attempt. eapply wp_mono; [exact Hm|]. intros [a|e|] s' Ho; [apply Hk|apply Hk|done].
Qed.

Lemma wp_fuzz_wal temp_dir pid data s : fs_wf s -> wp (fuzz_wal_replay temp_dir pid data) s (fun o _ => o = Ok tt).
Proof.
  intros Hwf. unfold fuzz_wal_replay. apply wp_ignored; [eapply wp_mono; [by apply wp_std_write|]; by intros o s' [? _]|].
  intros [] s1; [|by apply wp_ret]. apply wp_ignored; [apply replay_wal_safe|]. intros _ s2.
  apply wp_ignored; [apply remove_safe|]. intros _ s3. by apply wp_ret.
Qed.

Lemma wp_fuzz_sstable temp_dir pid data w :
  fs_wf (w_fs w) -> len data <= ISIZE_MAX -> room_for data <= memory -> filter_end data <= U64_MAX ->
  wp (fuzz_sstable_open temp_dir pid data) w (fun o _ => o = Ok tt).
Proof.
  intros Hwf Hl Hr He. unfold fuzz_sstable_open. apply wp_bind, wp_attempt. unfold on_files at 1. apply wp_zoom.
  eapply wp_mono; [by apply wp_std_write|]. intros [[]|e|] s1 [Hp Hd]; [|by apply wp_ret|done]. cbn [then_wp].
  destruct (Hd eq_refl) as (h & Hn & Hh). apply wp_ignored.
  - apply safe_then; [|intros; apply safe_ret]. apply sst_open_safe. cbn [w_fs]. intros h' Hn'.
    assert (h' = h) as -> by congruence. by rewrite Hh.
  - intros _ s2. apply wp_ignored; [apply wp_zoom, remove_safe|]. intros _ s3. by apply wp_ret.
Qed.
End fuzzing.

(** ** Properties *)

(** C39: the fuzz targets return.  Whatever bytes they are given, whatever the disk
    holds and however it fails, the record and the log decoder do not panic and their
    targets return.  So does the target that opens a table, on a machine with any
    amount of memory, for every input whose footer gives the filter an end that fits
    64 bits and claims no more index entries than the memory has room for.  (Input is a
    slice, so it has at most [isize::MAX] bytes.)  Both conditions on the footer are
    needed: the code checks neither, and the two runs below fail them. *)
Theorem fuzz_targets_never_panic `{Platform} (data : bytes) (temp_dir : string) (pid : N) (w : World) :
  fs_wf (w_fs w) ->
  fuzz_record_decode data = Ok tt /\ (fuzz_wal_replay temp_dir pid data (w_fs w)).1 = Ok tt /\
  (len data <= ISIZE_MAX -> room_for data <= memory -> filter_end data <= U64_MAX ->
   (fuzz_sstable_open temp_dir pid data w).1 = Ok tt).
Proof.
  intros Hwf. split_and!.
  - unfold fuzz_record_decode. pose proof (decode_record_safe data). by destruct (decode_record data).
  - by apply wp_fuzz_wal.
  - intros Hl Hr He. by apply wp_fuzz_sstable.
Qed.

Lemma fuzz_targets_never_panic_witness :
  let _ := sample_platform true in
  let b := bytes_of_string "fifty bytes that are neither a record nor a table." in
  let w := mkWorld (mkFs ∅ ∅ ∅ {["/tmp"%string]} ∅ 0 [None; Some (FPartial 7 OtherIo)] false) ∅ 0 in
  fuzz_record_decode b = Ok tt /\ (fuzz_wal_replay "/tmp" 77 b (w_fs w)).1 = Ok tt /\ (fuzz_sstable_open "/tmp" 77 b w).1 = Ok tt.
Proof.
  intros P b w. destruct (fuzz_targets_never_panic (H := P) b "/tmp" 77 w) as (H1 & H2 & H3).
  - split; intros *; cbn; rewrite lookup_empty; [done|by intros []].
  - split_and!; [exact H1|exact H2|]. apply H3; by vm_compute.
Defined.

(** Forty-four bytes that make [open] panic in every build profile: the end of the
    filter overflows, and where it wraps around the index is too large to allocate. *)
Example open_sstable_can_panic (checks : bool) :
  let _ := sample_platform checks in
  let footer := le_bytes 8 0 ++ le_bytes 4 0 ++ le_bytes 8 U64_MAX ++ le_bytes 8 1 ++ le_bytes 8 0 ++ le_bytes 4 2 ++ MAGIC in
  (open_sstable (join "db" "sst_0000000000.db")
     (mkWorld (mkFs {[ 0 := mkInode footer 0 ]} {[ join "db" "sst_0000000000.db" := 0 ]} ∅ {["db"%string]} ∅ 1 [] false) ∅ 0)).1 = Panic.
Proof. by destruct checks; vm_compute. Qed.

(** A machine like [P] whose allocator grants at most [n] bytes. *)
Definition with_memory (n : N) (P : Platform) : Platform := {|
  crc32fast_hash := crc32fast_hash;
  crc32c_hash := crc32c_hash;
  lz4_compress_prepend_size := lz4_compress_prepend_size;
  lz4_decompress_size_prepended := lz4_decompress_size_prepended;
  xxh3_64_with_seed := xxh3_64_with_seed;
  f64_bloom_bits := f64_bloom_bits;
  f64_bloom_hashes := f64_bloom_hashes;
  readdir_order := readdir_order;
  overflow_checks := overflow_checks;
  memory := n
|}.

(** Forty-four bytes that claim as many index entries as four bytes can say: [open]
    asks for 160 GiB before it reads the first, and a machine that has 64 to give
    aborts.  With the memory the program takes for granted the file is refused. *)
Example open_sstable_can_exhaust_memory :
  let footer := le_bytes 8 0 ++ le_bytes 4 U32_MAX ++ le_bytes 8 0 ++ le_bytes 8 0 ++ le_bytes 8 0 ++ le_bytes 4 2 ++ MAGIC in
  let w := mkWorld (mkFs {[ 0 := mkInode footer 0 ]} {[ join "db" "sst_0000000000.db" := 0 ]} ∅ {["db"%string]} ∅ 1 [] false) ∅ 0 in
  let P := sample_platform true in
  (open_sstable (H := with_memory (64 * 2 ^ 30) P) (join "db" "sst_0000000000.db") w).1 = Panic /\
  (open_sstable (H := P) (join "db" "sst_0000000000.db") w).1 = Err (Corrupt "sstable index truncated").
Proof. split; by vm_compute. Qed.
