(* ===== verification/Findings.v ===== *)
(** * Findings

    Runs of the model in which the code does not do what its comments promise, each
    evaluated on the platform of [Platform.sample_platform]. *)
From Stdlib Require Import NArith Lia.
From stdpp Require Import base numbers list sorting strings gmap.
From S2P Require Import Prelude Errors FileNames Platform State FileSystem Store Records Versions MemTable.
From S2P Require Import Headers Frames WriteAheadLog Manifest ManifestRecovery.
From S2P Require Import Bloom SsTables TableLayout TableReads Tables Merging Compaction Scans Engine Threads PowerLoss.

Local Open Scope N_scope.

(** ** Lives of a directory *)

Section lives.
Context `{Platform}.

(** A process opens the directory and runs [m]. *)
Definition life {A} (threshold : N) (m : DbM A) (s : FsState) : outcome A * FsState :=
  match db_open_manual "db" (mkOptions DEFAULT_THRESHOLD Durable threshold true Manual) (mkWorld (reboot s) ∅ 0) with
  | (Ok d, w) => let '(o, (_, w')) := m (d, w) in (o, w_fs w')
  | (Err e, w) => (Err e, w_fs w)
  | (Panic, w) => (Panic, w_fs w)
  end.

(** From here on the device follows [faults]. *)
Definition with_faults (faults : list (option Fault)) : DbM unit :=
  modify (fun s => (s.1, world_set_fs (set_faults faults (w_fs s.2)) s.2)).
End lives.

Definition new_dir : FsState := mkFs ∅ ∅ ∅ ∅ ∅ 0 [] false.
Abbreviation k s := (bytes_of_string s).

(** The process dies inside the append of [b]; the next one acknowledges [c], reads it
    back, and the one after does not find it: the torn frame is never cut. *)
Example torn_log_loses_later_writes :
  let _ := sample_platform true in
  let s1 := (life 4 (_ ← db_put (k "a") (k "1"); _ ← with_faults [Some (FCrash 5)]; db_put (k "b") (k "2")) new_dir).2 in
  let '(o2, s2) := life 4 (_ ← db_put (k "c") (k "3"); db_get (k "c")) s1 in
  o2 = Ok (Some (k "3")) /\ (life 4 (db_get (k "c")) s2).1 = Ok None.
Proof. by vm_compute. Qed.

(** An append fails half-way and does not poison the engine; the next write is
    acknowledged and is gone after a restart. *)
Example failed_append_loses_next_write :
  let _ := sample_platform true in
  let '(o1, s1) := life 4 (_ ← with_faults [Some (FPartial 5 OtherIo)]; r ← attempt (db_put (k "b") (k "2"));
                           _ ← db_put (k "c") (k "3"); v ← db_get (k "c"); mret (r, v)) new_dir in
  o1 = Ok (inr (Io OtherIo), Some (k "3")) /\ (life 4 (db_get (k "c")) s1).1 = Ok None.
Proof. by vm_compute. Qed.

(** The sync of an append fails: the write is refused and not visible, and it is there
    after a restart. *)
Example refused_write_reappears :
  let _ := sample_platform true in
  let '(o1, s1) := life 4 (_ ← with_faults [None; Some (FFail OtherIo)]; r ← attempt (db_put (k "b") (k "2"));
                           v ← db_get (k "b"); mret (r, v)) new_dir in
  o1 = Ok (inr (Io OtherIo), None) /\ (life 4 (db_get (k "b")) s1).1 = Ok (Some (k "2")).
Proof. by vm_compute. Qed.

(** A directory without a manifest is migrated with the sequence counter at zero: the
    new value is written with an older number than the one in the table, and the
    next flush makes the old value win. *)
Example migration_restarts_the_counter :
  let _ := sample_platform true in
  let '(_, s1) := life 2 (_ ← db_put (k "a") (k "1"); _ ← db_put (k "a") (k "2"); _ ← db_flush_only;
                          _ ← on_db_fs (remove (join "db" "CURRENT")); on_db_fs (remove (join "db" "wal.log"))) new_dir in
  (life 2 (_ ← db_put (k "a") (k "new"); before ← db_get (k "a"); scan ← db_scan None None 5;
           _ ← db_flush; after ← db_get (k "a"); mret (before, scan, after)) s1).1 =
    Ok (Some (k "new"), [(k "a", k "2")], Some (k "2")).
Proof. by vm_compute. Qed.

(** A compaction dies after the merged table took the name of the newest input and
    before the manifest forgets the others: the key whose deletion was dropped from
    the merged table is back. *)
Example interrupted_compaction_resurrects :
  let _ := sample_platform true in
  let '(o1, s1) := life 2 (_ ← db_put (k "a") (k "1"); _ ← db_flush_only; _ ← db_delete (k "a"); _ ← db_flush_only;
                           v ← db_get (k "a"); _ ← with_faults (replicate 10 None ++ [Some (FCrash 0)]);
                           _ ← attempt compact_step; mret v) new_dir in
  o1 = Ok None /\ (life 2 (db_get (k "a")) s1).1 = Ok (Some (k "1")).
Proof. by vm_compute. Qed.

(** A flush dies inside its manifest edits: the table is recorded and the counter of
    table ids is not, so the next flush gives a second table the same id.  The
    compaction of the two deletes that id from the manifest and panics, and the next
    process finds an empty database. *)
Example interrupted_flush_reuses_the_id :
  let _ := sample_platform true in
  let s1 := (life 2 (_ ← db_put (k "a") (k "1"); _ ← with_faults (replicate 10 None ++ [Some (FCrash 17)]);
                     db_flush_only) new_dir).2 in
  (life 2 (_ ← db_put (k "b") (k "2"); _ ← db_flush_only; gets (fun s => t_id <$> db_sstables s.1)) s1).1 = Ok [0; 0] /\
  let '(o2, s2) := life 2 (_ ← db_put (k "b") (k "2"); db_flush) s1 in
  o2 = Panic /\ (life 2 (db_scan None None 10) s2).1 = Ok [].
Proof. by vm_compute. Qed.

(** The power fails between an append to the log and its sync, and the disk has kept the
    length of the log and not the data: the next process finds zeros, which are a frame
    of no bytes with the right checksum, and refuses the directory. *)
Example zeroed_log_refuses_the_directory :
  let _ := sample_platform true in
  let s1 := (life 4 (_ ← db_put (k "a") (k "1"); _ ← db_flush_only; _ ← db_put (k "b") (k "2");
                     _ ← with_faults [None; Some (FFail OtherIo)]; db_put (k "c") (k "3")) new_dir).2 in
  (life 4 (db_get (k "b")) (power_loss s1)).1 = Ok (Some (k "2")) /\
  (life 4 (db_get (k "b")) (zero_fill s1)).1 = Err (Corrupt "WAL frame too short for a batch count").
Proof. by vm_compute. Qed.

(** The first log of a directory has a name that was never synced: an acknowledged
    write, synced as hard as the options ask for, is lost with the power. *)
Example first_log_lost_with_the_power :
  let _ := sample_platform true in
  let '(o1, s1) := life 4 (db_put (k "a") (k "1")) new_dir in
  o1 = Ok tt /\ (life 4 (db_get (k "a")) s1).1 = Ok (Some (k "1")) /\
  (life 4 (db_get (k "a")) (power_loss s1)).1 = Ok None.
Proof. by vm_compute. Qed.

(** [Db::snapshot] reads the counter and registers the horizon in two steps; with a
    write and a compaction between them the snapshot has lost its view. *)
Example snapshot_not_atomic :
  let _ := sample_platform true in
  (life 2 (_ ← db_put (k "a") (k "1"); _ ← db_flush_only;
           horizon ← snapshot_load;
           _ ← db_put (k "a") (k "2"); _ ← db_flush;
           _ ← snapshot_register horizon;
           db_get_at (k "a") horizon) new_dir).1 = Ok None.
Proof. by vm_compute. Qed.

(** A writer has logged its write and not yet inserted it when a snapshot is taken: the
    write is below the horizon, so the snapshot does not see it at first and sees it
    later. *)
Example snapshot_is_not_a_moment :
  let _ := sample_platform true in
  (life 2 (records ← log_write (k "a") (Some (k "1"));
           horizon ← db_snapshot; before ← db_get_at (k "a") horizon;
           _ ← insert_logged records; after ← db_get_at (k "a") horizon; mret (before, after)) new_dir).1
  = Ok (None, Some (k "1")).
Proof. by vm_compute. Qed.

(** A scan copies the MemTable; [a] is deleted, [b] is written, and a flush and a
    compaction leave neither [a] nor its tombstone; then the scan reads the tables.  It
    returns [a] and [b], which were never there together. *)
Example scan_is_not_a_moment :
  let _ := sample_platform true in
  let threads := [[CallScan None None 9 U64_MAX]; [CallWrite (k "a") None; CallWrite (k "b") (Some (k "2")); CallFlush; CallCompact]] in
  let prepare := _ ← db_put (k "c") (k "3"); _ ← db_put (k "d") (k "4"); _ ← db_put (k "e") (k "5"); _ ← db_flush_only;
    db_put (k "a") (k "1") in
  (life 2 (_ ← prepare; gets (fun s => f_answer <$> (p_threads
             (run_schedule ([0; 0] ++ replicate 16 1 ++ [0; 0; 0]) (start_pool threads s)) ≫= th_done))%nat) new_dir).1
  = Ok ([Ok (AnsEntries [(k "a", k "1"); (k "b", k "2"); (k "c", k "3"); (k "d", k "4"); (k "e", k "5")]);
         Ok AnsDone; Ok AnsDone; Ok AnsDone; Ok (AnsMore true)]).
Proof. by vm_compute. Qed.
