(* ===== verification/Guarantees.v ===== *)
(** * Guarantees

    The theorems about the whole engine, each with a witness on the platform of
    [Platform.sample_platform] and a directory that was just created. *)
From Stdlib Require Import NArith Lia.
From stdpp Require Import base numbers list sorting strings gmap.
From S2P Require Import Prelude Errors FileNames Platform State FileSystem Store Records Versions MemTable.
From S2P Require Import Headers Frames WriteAheadLog Manifest ManifestRecovery.
From S2P Require Import Bloom SsTables TableLayout TableReads Tables Merging Compaction Scans Engine.
From S2P Require Import Layers Writes Flushes CompactSteps Specification Sessions Interleavings Recovery Restarts Syncing Settled PowerLoss Checkpoints Shutdowns CommandLine.

Local Open Scope N_scope.

(** ** Engines to start with *)

(** The same engine with other options. *)
Definition set_db_opts x (d : DbInner) := mkDb (db_dir d) x (db_lock d) (db_wal d) (db_active d)
  (db_frozen d) (db_sstables d) (db_next_sst_id d) (db_next_seq d) (db_manifest d)
  (db_snapshots d) (db_tasks d) (db_compact d) (db_failed d).

Section setting.
Context `{PlatformOk}.

Lemma empty_dir_fresh dir faults : fresh_dir dir (reboot (empty_dir dir faults)).
Proof.
  split_and!; [apply empty_dir_dirs|done|done|]. intros p _ [h Hh]. cbn in Hh. by rewrite lookup_empty in Hh.
Qed.

(** An engine that was just opened on an empty directory. *)
Lemma fresh_engine dir opts :
  2 <= o_compaction_threshold opts ->
  exists d w, db_open dir opts (process (empty_dir dir [])) = (Ok d, w) /\ quiet (w_fs w) /\
    represents SIZE_LIMIT (mkKV ∅ []) [] (d, w) /\ log_ok d w /\ db_dir d = dir /\ db_opts d = opts.
Proof.
  intros Ho. pose proof (first_open dir opts (empty_dir dir []) (empty_dir_good dir []) (empty_dir_fresh dir []) Ho) as Hw.
  unfold wp in Hw. destruct (db_open dir opts (process (empty_dir dir []))) as [o w]. cbn [fst snd] in Hw.
  destruct Hw as (Hq & d & -> & Hr & Hl & Ed & Eo). by exists d, w.
Qed.

Lemma startable_open room m dir opts s :
  startable room m dir opts s ->
  exists d1 w1, db_open dir opts (process s) = (Ok d1, w1) /\ represents room (mkKV m []) [] (d1, w1).
Proof.
  unfold startable, wp. destruct (db_open dir opts (process s)) as [o w]. cbn [fst snd].
  intros (_ & d1 & -> & Hr & _). by exists d1, w.
Qed.

(** An engine that has served [ops] since. *)
Lemma used_engine (dir : string) (opts : Options) (ops : list Op) :
  2 <= o_compaction_threshold opts -> session_cost ops <= SIZE_LIMIT ->
  exists hs s, quiet (w_fs s.2) /\ log_ok s.1 s.2 /\
    represents (SIZE_LIMIT - session_cost ops) (spec_session (mkKV ∅ []) ops).2 hs s /\
    exists d w, db_open dir opts (process (empty_dir dir [])) = (Ok d, w) /\ inside dir (w_fs w) (w_fs s.2) /\
      (session [] ops (d, w)).2 = s.
Proof.
  intros Ho Hc. destruct (fresh_engine dir opts Ho) as (d & w & E & Hq & Hr & Hl & <- & _).
  pose proof (session_quiet SIZE_LIMIT _ _ ops (d, w) Hr Hc Hq) as Hs. unfold wp in Hs.
  destruct (session [] ops (d, w)) as [o s'] eqn:Es. cbn [fst snd] in Hs. destruct Hs as (_ & (Hq' & Hl' & _) & hs' & Hr').
  exists hs', s'. split_and!; [by apply Hq'|by apply Hl'|done|]. exists d, w. by rewrite Es.
Qed.

Lemma serving_opts hist T d w opts : serving hist T (d, w) -> serving hist T (set_db_opts opts d, w).
Proof. intros [[] []]. cbn [fst snd] in *. split; by split. Qed.
End setting.

(** ** Properties *)

Section guarantees.
Context `{PlatformOk}.

(** C1: a directory is a durable map.  Processes open it one after the other,
    serve any operations and end without notice; on a disk without faults every
    reply is the one of the abstract store (a finite map, and a frozen copy of it
    per snapshot), whose map survives every restart. *)
Theorem store_survives_restarts (dir : string) (opts : Options) (s : FsState) (runs : list (list Op)) :
  good s -> fresh_dir dir (reboot s) -> 2 <= o_compaction_threshold opts -> lives_cost runs <= SIZE_LIMIT ->
  lives dir opts s runs = Ok (answered <$> spec_lives ∅ runs).
Proof. intros Hg Hf Ho Hc. eapply lives_spec; [by apply first_open|done|done]. Qed.

(** C3: acknowledged means durable.  With a log that is synced on every write, and once
    the first process has flushed something (which syncs the directory), the power may
    fail between any two operations: whatever unsynced bytes and names the disk then
    drops or keeps, the next process opens the directory and serves everything that was
    acknowledged, through any number of such lives. *)
Theorem store_survives_power_loss (dir : string) (opts : Options) (s : FsState) (key value : bytes) (ops : list Op)
    (runs : list (list Op)) :
  fresh_dir dir (reboot s) -> tidy [] [] s -> o_sync_wal opts = Durable -> 2 <= o_compaction_threshold opts ->
  let runs' := (Put key value :: FlushOnly :: ops) :: runs in
  lives_cost runs' <= SIZE_LIMIT -> power_lives dir opts ∅ (reboot s) runs'.
Proof. apply first_lives. Qed.

(** C2: the engine refines the abstract store.  From a state that represents the
    store [sp], every operation, under every script of I/O faults, does not panic;
    if it returns a reply it is the reply of the abstract store and the new state
    represents the new store; if it returns an error the state represents the old
    store or the engine is poisoned, and the disk was not free of faults. *)
Theorem engine_refines_store (room : N) (sp : KV) (hs : list N) (op : Op) (s : DbInner * World) :
  represents room sp hs s -> op_cost op <= room -> wp (exec hs op) s (exec_post room sp hs op s).
Proof. apply exec_refines. Qed.

(** C6: a session never hears anything the abstract store does not explain,
    whatever I/O faults happen: each operation is answered as the store answers,
    or refused without an effect that a reader could see, or the engine is
    poisoned and from then on no read is answered at all. *)
Theorem session_never_lies (room : N) (sp : KV) (hs : list N) (ops : list Op) (s : DbInner * World) :
  represents room sp hs s -> session_cost ops <= room ->
  exists rs, (session hs ops s).1 = Ok rs /\ explains sp ops rs.
Proof. intros Hr Hc. exact (session_explained room sp hs ops s Hr Hc). Qed.

(** C7: a batch is atomic and durable across a crash of the process.  Whatever
    happens to [write_batch] (it may fail or die inside any of its writes), a
    process that opens the directory afterwards serves the map with the whole
    batch or without any of it; with it, if the batch was acknowledged. *)
Theorem batch_atomic_across_crash (room : N) (sp : KV) (hs : list N) (s : DbInner * World) (ops : WriteBatch)
    (opts : Options) :
  represents room sp hs s -> log_ok s.1 s.2 -> 2 + writes_size ops <= room -> 2 <= o_compaction_threshold opts ->
  let '(o, (_, w)) := db_write_batch ops s in
  exists d1 w1, db_open (db_dir s.1) opts (process (w_fs w)) = (Ok d1, w1) /\
    let m := kv_map sp in let m' := foldl kv_write m ops in
    let left := room - (2 + writes_size ops) in
    (represents left (mkKV m' []) [] (d1, w1) \/ o <> Ok tt /\ represents left (mkKV m []) [] (d1, w1)).
Proof.
  intros Hr Hl Hc Ho. pose proof (write_restart room sp hs s ops opts Hr Hl Hc Ho) as Hw. unfold wp in Hw.
  destruct (db_write_batch ops s) as [o [d w]]. cbn [fst snd] in Hw.
  destruct (db_open (db_dir s.1) opts (process (w_fs w))) as [o' w1]. cbn [fst snd] in Hw.
  destruct Hw as (_ & d1 & -> & Hcase). by exists d1, w1.
Qed.

(** C8: a batch is atomic and durable across a loss of power.  The log is synced on every
    write and nothing else waits for a sync; [write_batch] may fail or be cut off inside
    any of its writes, and in the place of its unsynced bytes the disk may have nothing, a
    part of them or any other bytes.  If the checksum detects that (what is there is not
    another payload with its length and checksum), the next process serves the map with
    the whole batch or without any of it; with it, if the batch was acknowledged.  Eight
    zero bytes are what the checksum does not detect: they are the frame of no bytes, and
    [WriteAheadLog] and [Findings] show that such a log is refused. *)
Theorem batch_atomic_across_power_loss (room : N) (sp : KV) (hs : list N) (s : DbInner * World) (dir : string)
    (ops : WriteBatch) (opts : Options) (s' : FsState) :
  represents room sp hs s -> log_ok s.1 s.2 -> resting dir [] [] s -> 2 + writes_size ops <= room ->
  2 <= o_compaction_threshold opts ->
  let '(o, (_, w)) := db_write_batch ops s in
  loses (w_fs w) s' -> log_detected dir (numbered (db_next_seq s.1) ops) (w_fs s.2) s' ->
  exists d1 w1 m, db_open dir opts (mkWorld s' ∅ 0) = (Ok d1, w1) /\
    (m = foldl kv_write (kv_map sp) ops \/ o <> Ok tt /\ m = kv_map sp) /\
    represents (room - (2 + writes_size ops)) (mkKV m []) [] (d1, w1).
Proof.
  intros Hr Hl Hrest Hc Ho. pose proof (write_loses room sp hs s dir ops opts Hr Hl Hrest Hc Ho) as Hw. unfold wp in Hw.
  destruct (db_write_batch ops s) as [o [d w]]. cbn [fst snd] in Hw. intros Hlo Hdet. specialize (Hw s' Hlo Hdet).
  destruct (db_open dir opts (mkWorld s' ∅ 0)) as [o' w1]. cbn [fst snd] in Hw.
  destruct Hw as (_ & d1 & m & -> & Hm & Hr1). by exists d1, w1, m.
Qed.

(** C9: [flush] with every compaction to its end terminates and leaves the store as
    it was, if the threshold is at least two.  When it returns, the MemTable is
    empty, the log holds what it holds and no [threshold] adjacent tables are of
    one size tier; it fails only on a disk with faults, and poisons the engine. *)
Theorem flush_preserves_store (room : N) (sp : KV) (hs : list N) (s : DbInner * World) :
  represents room sp hs s -> 1 <= room -> log_ok s.1 s.2 ->
  let '(o, s') := db_flush s in
  match o with
  | Ok _ => represents (room - 1) sp hs s' /\ mt_map (db_active s'.1) = [] /\ log_ok s'.1 s'.2 /\
      no_run (o_compaction_threshold (db_opts s.1)) (tiers_of (w_fs s'.2) (db_sstables s'.1))
  | Err _ => poisoned s'.1 /\ ~ quiet (w_fs s.2)
  | Panic => False
  end.
Proof.
  intros Hr Hroom Hl. pose proof (exec_flush room sp hs s Hr Hroom) as Hm. destruct s as [d w].
  destruct Hr as (hist & T & Hs & _ & _ & _ & Hsz & _ & Hid & _ & Hth). cbn [fst snd] in *.
  pose proof (wp_db_flush hist T d w Hs ltac:(lia) ltac:(lia) Hth) as Hf. unfold wp in Hm, Hf.
  destruct (db_flush (d, w)) as [o s']. cbn [fst snd] in *. destruct o as [[]|e|]; [|done|done].
  destruct Hm as [Hr' _], Hf as [_ Hf]. destruct (Hf eq_refl) as [(Ha & Hlog & _) Hnone]. split_and!; auto.
Qed.


(** C11: once a maintenance operation failed the engine is poisoned for good: no
    operation touches the disk any more, none that reads or writes is answered,
    and the first failure stays latched. *)
Theorem poisoned_engine_refuses (hs : list N) (op : Op) (s : DbInner * World) :
  poisoned s.1 ->
  let '(o, s') := exec hs op s in s'.2 = s.2 /\ db_failed s'.1 = db_failed s.1 /\ refused op o.
Proof.
  intros Hp. pose proof (exec_poisoned hs op s Hp) as Hw. unfold wp in Hw. by destruct (exec hs op s) as [o s'].
Qed.

(** C14: a checkpoint, whatever I/O faults happen, leaves the source's store as it was.
    It is acknowledged only if the directory was empty, and then a process that opens
    it serves the source's map; it is refused if the directory is not empty; any other
    error is the device's, and it poisons the engine only if the flush failed. *)
Theorem checkpoint_faithful (room : N) (sp : KV) (hs : list N) (s : DbInner * World) (dir : string) (opts : Options) :
  represents room sp hs s -> log_ok s.1 s.2 -> 1 <= room -> 2 <= o_compaction_threshold opts ->
  let '(o, s') := db_checkpoint dir s in
  match o with
  | Ok _ => represents (room - 1) sp hs s' /\ log_ok s'.1 s'.2 /\
      (forall p, p_dir p = dir -> fs_names (w_fs s.2) !! p = None) /\
      exists d1 w1, db_open dir opts (process (w_fs s'.2)) = (Ok d1, w1) /\
        represents (room - 1) (mkKV (kv_map sp) []) [] (d1, w1)
  | Err e => poisoned s'.1 /\ ~ quiet (w_fs s.2) \/
      represents (room - 1) sp hs s' /\ log_ok s'.1 s'.2 /\
      (~ quiet (w_fs s.2) \/
       e = Corrupt (dir +:+ " is not empty; refusing to write a checkpoint over it") /\
       exists p, p_dir p = dir /\ is_Some (fs_names (w_fs s.2) !! p))
  | Panic => False
  end.
Proof.
  intros Hr Hl Hroom Ho. pose proof (wp_db_checkpoint room sp hs s dir Hr Hl Hroom) as Hw. unfold wp in Hw.
  destruct (db_checkpoint dir s) as [[[]|e|] s']; cbn [fst snd] in Hw; [|done|done].
  destruct Hw as (Hr' & Hl' & _ & _ & Hempty & _ & T & d & Hck & Hst). split_and!; [done|done|done|].
  apply startable_open. by apply Hst.
Qed.

(** C15: a checkpoint is independent of its source.  On a disk without faults a
    checkpoint into an empty directory succeeds, and after the source went on to
    serve any operations (writes, flushes, compactions that unlink the tables that
    the checkpoint shares) a process that opens the checkpoint serves the map of the
    moment it was taken. *)
Theorem checkpoint_independent (room : N) (sp : KV) (hs : list N) (s : DbInner * World) (dir : string) (opts : Options)
    (ops : list Op) :
  represents room sp hs s -> log_ok s.1 s.2 -> quiet (w_fs s.2) -> 1 + session_cost ops <= room ->
  (forall p, p_dir p = dir -> fs_names (w_fs s.2) !! p = None) -> 2 <= o_compaction_threshold opts ->
  exists s1 s2, db_checkpoint dir s = (Ok tt, s1) /\
    session hs ops s1 = (Ok (answered (spec_session sp ops).1), s2) /\
    exists d1 w1, db_open dir opts (process (w_fs s2.2)) = (Ok d1, w1) /\
      represents (room - 1) (mkKV (kv_map sp) []) [] (d1, w1).
Proof.
  intros Hr Hl Hq Hc Hempty Ho. pose proof (wp_db_checkpoint room sp hs s dir Hr Hl ltac:(lia)) as Hw. unfold wp in Hw.
  destruct (db_checkpoint dir s) as [[[]|e|] s1]; cbn [fst snd] in Hw; [| |done].
  2: { destruct Hw as [[_ ?]|(_ & _ & [?|[_ (p & Hp & [h Hn])]])]; [done|done|]. by rewrite Hempty in Hn. }
  destruct Hw as (Hr1 & _ & Ed & Hne & _ & Hq1 & T & d & Hck & Hst).
  pose proof (session_quiet (room - 1) sp hs ops s1 Hr1 ltac:(lia) (Hq1 Hq)) as Hses. unfold wp in Hses.
  destruct (session hs ops s1) as [o s2] eqn:Es. cbn [fst snd] in Hses. destruct Hses as (-> & (Hin & _) & hs' & hist & T2 & [Hok _] & _).
  exists s1, s2. split_and!; [done|done|]. apply startable_open, Hst; [|done].
  eapply checkpointed_inside; [apply (dk_world _ _ _ Hok)|exact Hin|by rewrite Ed|done].
Qed.


(** C17: the command line is a map.  Any commands, each by a process of its own, print
    on a disk without faults what the map says: [OK] for a write, the text of the
    value or [(nil)] for a read, the usage for anything else. *)
Theorem command_line_map (dir : string) (s : FsState) (cmds : list (list string)) :
  good s -> fresh_dir dir (reboot s) -> cli_costs cmds <= SIZE_LIMIT ->
  exists rs, invocations dir s cmds = Ok rs /\ cli_explains ∅ cmds rs.
Proof. intros Hg Hf Hc. by apply (invocations_spec SIZE_LIMIT); [apply first_open|]. Qed.

(** C18: a directory has one handle at a time.  While its lock is held every other
    [open] is refused, with [Locked] unless the device failed, and changes no file,
    no name and no lock. *)
Theorem second_open_refused (dir : string) (opts : Options) (w : World) :
  in_use dir (w_fs w) ->
  let '(o, w') := db_open dir opts w in
  (exists e, o = Err e /\ (quiet (w_fs w) -> e = Locked dir)) /\
  fs_inodes (w_fs w') = fs_inodes (w_fs w) /\ fs_names (w_fs w') = fs_names (w_fs w) /\
  fs_locks (w_fs w') = fs_locks (w_fs w).
Proof.
  intros Hu. pose proof (wp_db_open_in_use dir opts w Hu) as Hw. unfold wp in Hw.
  destruct (db_open dir opts w) as [o w']. by destruct Hw.
Qed.

(** C19: the reclamation at open removes exactly the left-overs: tables that the
    manifest does not name, and temporary files.  Every live table, every manifest,
    [CURRENT], the log and the lock stay, and so does everything outside. *)
Theorem open_reclaims_left_overs (dir : string) (live : list N) (s : FsState) :
  quiet s -> good s -> dir ∈ fs_dirs s -> Forall (fun id => id <= U64_MAX) live ->
  let '(o, s') := (paths ← list_dir dir; for_each paths (reclaim dir live)) s in
  o = Ok tt /\
  (forall p, fs_names s' !! p = if bool_decide (p_dir p = dir) && left_over dir live p then None else fs_names s !! p) /\
  (forall p, p_dir p <> dir \/ left_over dir live p = false -> path_data s' p = path_data s p) /\
  left_over dir live (lock_path dir) = false /\ left_over dir live (join dir CURRENT_FILENAME) = false /\
  left_over dir live (join dir WAL_FILENAME) = false /\ (forall g, left_over dir live (manifest_path dir g) = false) /\
  (forall id, id ∈ live -> left_over dir live (sst_path dir id) = false).
Proof.
  intros Hq Hg Hd Hlive. rewrite Forall_forall in Hlive. destruct (list_dir_quiet dir s Hq Hd) as (l & El & Hn & Hl).
  rewrite (bind_run_ok _ _ _ _ _ El). pose proof (wp_reclaim dir live l s Hq Hg Hn) as Hw. unfold wp in Hw.
  destruct (for_each l (reclaim dir live) s) as [o s']. cbn [fst snd] in Hw.
  destruct Hw as (-> & Ht & Hgone); [intros p [_ ?]%Hl; done|].
  assert (forall p, p_dir p <> dir \/ left_over dir live p = false -> p ∉ filter (fun p => left_over dir live p = true) l) as Hkeep.
  { intros p Hp [E [? _]%Hl]%list_elem_of_filter. destruct Hp; congruence. }
  split_and!; [done| |intros p Hp; by apply (touches_data _ _ _ Ht), Hkeep|unfold left_over; by rewrite bool_decide_true by done|
    apply keep_current|apply keep_wal|apply keep_manifest|intros id Hid; apply keep_live; auto].
  intros p. destruct (bool_decide_reflect (p_dir p = dir)) as [Hp|Hp]; cbn [andb]; [|apply (touches_names _ _ _ Ht), Hkeep; by left].
  destruct (left_over dir live p) eqn:E; [|apply (touches_names _ _ _ Ht), Hkeep; by right].
  destruct (fs_names s !! p) as [h|] eqn:En; [apply Hgone; [apply Hl; by rewrite En|done]|].
  rewrite (touches_names _ _ _ Ht); [done|]. intros [_ [_ [? ?]]%Hl]%list_elem_of_filter. congruence.
Qed.

(** C20: a compaction threshold of zero or one never comes to an end: with a table
    there and a disk without faults, however many steps are taken, every one of them
    merges and reports that there is more to do, so the loop of [flush] goes on. *)
Theorem low_threshold_never_ends (hist : list Rec) (T : Tables) (s : DbInner * World) (turns : nat) :
  serving hist T s -> sum_encoded hist <= SIZE_LIMIT -> quiet (w_fs s.2) ->
  o_compaction_threshold (db_opts s.1) <= 1 -> db_sstables s.1 <> [] ->
  (map_each (seq 0 turns) (fun _ => compact_step) s).1 = Ok (replicate turns true).
Proof.
  destruct s as [d w]. intros Hs Hsz Hq Hth Hne.
  pose proof (compact_steps_forever hist (seq 0 turns) T d w Hs Hsz Hth Hne Hq) as Hw. by rewrite length_seq in Hw.
Qed.

(** C12: a snapshot is isolated.  Whatever the client does after it took a snapshot
    (writes, deletes, flushes, compactions, other snapshots), as long as it does not
    drop it, a get and a scan through it give what the map was when it was taken. *)
Theorem snapshot_isolated (room : N) (sp : KV) (hs : list N) (s : DbInner * World) (ops : list Op) (i : nat)
    (key : bytes) (start fin : option bytes) (limit : N) :
  let script := TakeSnapshot :: ops ++ [SnapshotGet i key; SnapshotScan i start fin limit] in
  represents room sp hs s -> quiet (w_fs s.2) -> session_cost script <= room -> slot_after 0 ops = Some i ->
  exists rs, (session hs script s).1 =
    Ok (rs ++ [inl (Value (kv_map sp !! key)); inl (Entries (kv_entries (kv_map sp) start fin limit))]).
Proof.
  intros script Hr Hq Hc Hi. pose proof (session_quiet room sp hs script s Hr Hc Hq) as Hw. unfold wp in Hw.
  destruct (session hs script s) as [o s']. cbn [fst snd] in Hw |- *. destruct Hw as [-> _].
  exists (answered (spec_session sp (TakeSnapshot :: ops)).1). f_equal. unfold script. rewrite app_comm_cons, spec_session_app.
  unfold answered. rewrite fmap_app. f_equal.
  assert (kv_snaps (spec_session sp (TakeSnapshot :: ops)).2 !! i = Some (kv_map sp)) as Hs.
  { cbn [spec_session]. pose proof (slot_after_snaps (spec_exec sp TakeSnapshot).2 ops 0 i (kv_map sp) eq_refl Hi) as Hs.
    by destruct (spec_session _ ops). }
  set (sp' := (spec_session sp (TakeSnapshot :: ops)).2) in *. cbn [spec_session spec_exec fst snd fmap list_fmap]. by rewrite Hs.
Qed.
End guarantees.

(** ** Witnesses *)

Lemma store_survives_restarts_witness :
  let _ := sample_platform true in
  let a := bytes_of_string "a" in let b := bytes_of_string "b" in
  let runs := [[Put a b; Flush; Put b a]; [Delete a; Scan None None 9; Flush]; [Get a; Get b]] in
  lives "db" options_default (empty_dir "db" []) runs = Ok (answered <$> spec_lives ∅ runs).
Proof.
  intros P a b runs.
  apply (store_survives_restarts (P := P) (H := sample_platform_ok true) "db" options_default (empty_dir "db" []) runs).
  - apply empty_dir_good.
  - apply empty_dir_fresh.
  - done.
  - by vm_compute.
Defined.

Lemma empty_dir_tidy dir faults : tidy [] [] (empty_dir dir faults).
Proof. split; [apply empty_dir_good|..]; intros *; cbn; rewrite lookup_empty; naive_solver. Qed.

Lemma store_survives_power_loss_witness :
  let _ := sample_platform true in
  let a := bytes_of_string "a" in let b := bytes_of_string "b" in
  power_lives "db" options_default ∅ (reboot (empty_dir "db" []))
    [[Put a b; FlushOnly; Put b a]; [Get b; Delete a; Flush]; [Scan None None 9]].
Proof.
  intros P a b.
  apply (store_survives_power_loss (P := P) (H := sample_platform_ok true) "db" options_default (empty_dir "db" []) a b
    [Put b a] [[Get b; Delete a; Flush]; [Scan None None 9]]).
  - apply empty_dir_fresh.
  - apply empty_dir_tidy.
  - done.
  - done.
  - by vm_compute.
Defined.

Lemma engine_refines_store_witness :
  let _ := sample_platform true in let a := bytes_of_string "a" in
  exists s, represents SIZE_LIMIT (mkKV ∅ []) [] s /\
    wp (exec [] (Put a a)) s (exec_post SIZE_LIMIT (mkKV ∅ []) [] (Put a a) s).
Proof.
  intros P a. destruct (fresh_engine (P := P) (H := sample_platform_ok true) "db" options_default) as (d & w & _ & _ & Hr & _); [done|].
  exists (d, w). split; [exact Hr|].
  apply (engine_refines_store (P := P) (H := sample_platform_ok true) SIZE_LIMIT (mkKV ∅ []) [] (Put a a) (d, w) Hr). by vm_compute.
Defined.

Lemma session_never_lies_witness :
  let _ := sample_platform true in let a := bytes_of_string "a" in
  let ops := [Put a a; TakeSnapshot; Delete a; Maintain; SnapshotGet 0 a; Flush; Get a] in
  exists s rs, (session [] ops s).1 = Ok rs /\ explains (mkKV ∅ []) ops rs.
Proof.
  intros P a ops. destruct (fresh_engine (P := P) (H := sample_platform_ok true) "db" options_default) as (d & w & _ & _ & Hr & _); [done|].
  exists (d, w). apply (session_never_lies (P := P) (H := sample_platform_ok true) SIZE_LIMIT (mkKV ∅ []) [] ops (d, w) Hr). by vm_compute.
Defined.

(** Two tables, a snapshot and a delete in the MemTable: the state the next three
    witnesses start from.  A merge of the two tables is due. *)
Definition used_ops : list Op :=
  let a := bytes_of_string "a" in let b := bytes_of_string "b" in
  [Put a b; FlushOnly; Put b a; FlushOnly; TakeSnapshot; Delete a].
Definition two_tables : Options := mkOptions DEFAULT_THRESHOLD Durable 2 true Manual.

Lemma batch_atomic_across_crash_witness :
  let _ := sample_platform true in let a := bytes_of_string "a" in let b := bytes_of_string "b" in
  let ops := [(a, Some a); (b, None)] in
  let room := SIZE_LIMIT - session_cost used_ops in
  let m := kv_map (spec_session (mkKV ∅ []) used_ops).2 in
  exists s, let '(o, (_, w)) := db_write_batch ops s in
  exists d1 w1, db_open (db_dir s.1) options_default (process (w_fs w)) = (Ok d1, w1) /\
    let m' := foldl kv_write m ops in
    let left := room - (2 + writes_size ops) in
    (represents left (mkKV m' []) [] (d1, w1) \/ o <> Ok tt /\ represents left (mkKV m []) [] (d1, w1)).
Proof.
  intros P a b ops room m.
  destruct (used_engine (P := P) (H := sample_platform_ok true) "db" two_tables used_ops) as (hs & s & _ & Hl & Hr & _); [done|by vm_compute|].
  exists s. apply (batch_atomic_across_crash (P := P) (H := sample_platform_ok true) _ _ hs s ops options_default Hr Hl); by vm_compute.
Defined.

Lemma batch_atomic_across_power_loss_witness :
  let _ := sample_platform true in let a := bytes_of_string "a" in let b := bytes_of_string "b" in
  let ops := [(a, Some a); (b, None)] in
  let room := SIZE_LIMIT - session_cost used_ops in
  let m := kv_map (spec_session (mkKV ∅ []) used_ops).2 in
  exists s, let '(o, (_, w)) := db_write_batch ops s in
  exists d1 w1 m1, db_open "db" options_default (mkWorld (power_loss (w_fs w)) ∅ 0) = (Ok d1, w1) /\
    (m1 = foldl kv_write m ops \/ o <> Ok tt /\ m1 = m) /\
    represents (room - (2 + writes_size ops)) (mkKV m1 []) [] (d1, w1).
Proof.
  intros P a b ops room m.
  destruct (used_engine (P := P) (H := sample_platform_ok true) "db" two_tables used_ops) as (hs & s & _ & Hl & Hr & d & w & E & _ & Es); [done|by vm_compute|].
  assert (resting "db" [] [] s) as Hrest.
  { destruct (fresh_engine (P := P) (H := sample_platform_ok true) "db" two_tables) as (d' & w' & E' & Hq & Hr' & _); [done|].
    rewrite E in E'. injection E' as <- <-. rewrite <- Es.
    apply (first_session_rests (P := P) (H := sample_platform_ok true) SIZE_LIMIT "db" d w a b (drop 2 used_ops)); [done|done|by vm_compute|].
    apply (first_rests (H := P) "db" two_tables (reboot (empty_dir "db" []))); [done|apply (empty_dir_tidy "db" [])|exact E]. }
  exists s. pose proof (batch_atomic_across_power_loss (P := P) (H := sample_platform_ok true) room _ hs s "db" ops options_default
    (power_loss (w_fs (db_write_batch ops s).2.2)) Hr Hl Hrest ltac:(by vm_compute) ltac:(done)) as Hw.
  assert (log_detected "db" (numbered (db_next_seq s.1) ops) (w_fs s.2) (power_loss (w_fs (db_write_batch ops s).2.2))) as Hdet.
  { subst s. vm_compute in E. injection E as <- <-. intros z y Hz Hy.
    match goal with |- detected ?r _ => set (recs := r) end.
    assert (y = frame (wal_checksum (Versioned WAL_VERSION)) true recs) as ->; [|apply (detected_frame (P := P) recs), N.leb_le; vm_compute; reflexivity].
    vm_compute in Hz. injection Hz as <-. vm_compute in Hy. injection Hy as <-. vm_compute. reflexivity. }
  destruct (db_write_batch ops s) as [o [d2 w2]]. apply Hw; [apply power_loss_loses|exact Hdet].
Defined.

Lemma flush_preserves_store_witness :
  let _ := sample_platform true in
  let room := SIZE_LIMIT - session_cost used_ops in let sp := (spec_session (mkKV ∅ []) used_ops).2 in
  exists hs s, represents room sp hs s /\
  let '(o, s') := db_flush s in
  match o with
  | Ok _ => represents (room - 1) sp hs s' /\ mt_map (db_active s'.1) = [] /\ log_ok s'.1 s'.2 /\
      no_run (o_compaction_threshold (db_opts s.1)) (tiers_of (w_fs s'.2) (db_sstables s'.1))
  | Err _ => poisoned s'.1 /\ ~ quiet (w_fs s.2)
  | Panic => False
  end.
Proof.
  intros P room sp.
  destruct (used_engine (P := P) (H := sample_platform_ok true) "db" two_tables used_ops) as (hs & s & _ & Hl & Hr & _); [done|by vm_compute|].
  exists hs, s. split; [exact Hr|].
  apply (flush_preserves_store (P := P) (H := sample_platform_ok true) room sp hs s Hr); [by vm_compute|exact Hl].
Defined.


Lemma poisoned_engine_refuses_witness :
  let _ := sample_platform true in let a := bytes_of_string "a" in
  exists s, poisoned s.1 /\
  let '(o, s') := exec [] (Get a) s in s'.2 = s.2 /\ db_failed s'.1 = db_failed s.1 /\ refused (Get a) o.
Proof.
  intros P a. destruct (fresh_engine (P := P) (H := sample_platform_ok true) "db" options_default) as (d & w & _ & _ & Hr & Hl & _); [done|].
  exists (set_db_failed (Some (Corrupt "disk")) d, w). split; [done|].
  by apply (poisoned_engine_refuses (P := P) [] (Get a) (set_db_failed (Some (Corrupt "disk")) d, w)).
Defined.

Lemma checkpoint_faithful_witness :
  let _ := sample_platform true in
  let room := SIZE_LIMIT - session_cost used_ops in let sp := (spec_session (mkKV ∅ []) used_ops).2 in
  exists hs s, let '(o, s') := db_checkpoint "copy" s in
  match o with
  | Ok _ => represents (room - 1) sp hs s' /\ log_ok s'.1 s'.2 /\
      (forall p, p_dir p = "copy"%string -> fs_names (w_fs s.2) !! p = None) /\
      exists d1 w1, db_open "copy" options_default (process (w_fs s'.2)) = (Ok d1, w1) /\
        represents (room - 1) (mkKV (kv_map sp) []) [] (d1, w1)
  | Err e => poisoned s'.1 /\ ~ quiet (w_fs s.2) \/
      represents (room - 1) sp hs s' /\ log_ok s'.1 s'.2 /\
      (~ quiet (w_fs s.2) \/
       e = Corrupt ("copy" +:+ " is not empty; refusing to write a checkpoint over it") /\
       exists p, p_dir p = "copy"%string /\ is_Some (fs_names (w_fs s.2) !! p))
  | Panic => False
  end.
Proof.
  intros P room sp.
  destruct (used_engine (P := P) (H := sample_platform_ok true) "db" two_tables used_ops) as (hs & s & _ & Hl & Hr & _); [done|by vm_compute|].
  exists hs, s. apply (checkpoint_faithful (P := P) (H := sample_platform_ok true) room sp hs s "copy" options_default Hr Hl); by vm_compute.
Defined.

Lemma checkpoint_independent_witness :
  let _ := sample_platform true in let a := bytes_of_string "a" in
  let room := SIZE_LIMIT - session_cost used_ops in let sp := (spec_session (mkKV ∅ []) used_ops).2 in
  let ops := [Put a a; Flush; Delete a; Flush] in
  exists hs s s1 s2, db_checkpoint "copy" s = (Ok tt, s1) /\
    session hs ops s1 = (Ok (answered (spec_session sp ops).1), s2) /\
    exists d1 w1, db_open "copy" options_default (process (w_fs s2.2)) = (Ok d1, w1) /\
      represents (room - 1) (mkKV (kv_map sp) []) [] (d1, w1).
Proof.
  intros P a room sp ops.
  destruct (used_engine (P := P) (H := sample_platform_ok true) "db" two_tables used_ops)
    as (hs & s & Hq & Hl & Hr & d & w & E & Hin & _); [done|by vm_compute|].
  exists hs, s.
  apply (checkpoint_independent (P := P) (H := sample_platform_ok true) room sp hs s "copy" options_default ops Hr Hl Hq);
    [by vm_compute| |done].
  intros p Hp. rewrite (in_names _ _ _ Hin) by (by rewrite Hp).
  assert (map_Forall (fun p _ => p_dir p <> "copy"%string) (fs_names (w_fs (db_open "db" two_tables (process (empty_dir "db" []))).2))) as Hf
    by (apply (bool_decide_unpack _); by vm_compute).
  rewrite E in Hf. destruct (fs_names (w_fs w) !! p) as [h|] eqn:En; [|done]. by destruct (Hf p h En).
Defined.


Lemma command_line_map_witness :
  let _ := sample_platform true in
  let cmds := [["put"; "k"; "v"]; ["get"; "k"]; ["flush"]; ["delete"; "k"]; ["get"; "k"]; ["compact"]]%string in
  exists rs, invocations "db" (empty_dir "db" []) cmds = Ok rs /\ cli_explains ∅ cmds rs.
Proof.
  intros P cmds. apply (command_line_map (P := P) (H := sample_platform_ok true) "db" (empty_dir "db" []) cmds).
  - apply empty_dir_good.
  - apply empty_dir_fresh.
  - by vm_compute.
Defined.

Lemma second_open_refused_witness :
  let _ := sample_platform true in
  let w := (db_open "db" options_default (process (empty_dir "db" []))).2 in
  in_use "db" (w_fs w) /\
  let '(o, w') := db_open "db" options_default w in
  (exists e, o = Err e /\ (quiet (w_fs w) -> e = Locked "db")) /\
  fs_inodes (w_fs w') = fs_inodes (w_fs w) /\ fs_names (w_fs w') = fs_names (w_fs w) /\
  fs_locks (w_fs w') = fs_locks (w_fs w).
Proof.
  intros P w. assert (in_use "db" (w_fs w)) as Hu.
  { eexists. split; [by vm_compute|]. apply (bool_decide_unpack _). by vm_compute. }
  split; [exact Hu|]. exact (second_open_refused (P := P) "db" options_default w Hu).
Defined.

(** A directory in which a crash left a table and a temporary file. *)
Definition crashed_dir : FsState :=
  set_names (<[sst_path "db" 3 := 1]> (<[sst_tmp_path "db" 4 := 2]> ∅))
    (set_inodes (<[1 := mkInode [] 0]> (<[2 := mkInode [] 0]> ∅)) (set_next 3 (empty_dir "db" []))).

Lemma crashed_dir_good : good crashed_dir.
Proof.
  split; [split|].
  - intros p h. cbn [crashed_dir fs_names fs_inodes set_names set_inodes]. rewrite !lookup_insert, lookup_empty.
    repeat case_decide; intros; simplify_eq; by eexists.
  - intros h. cbn [crashed_dir fs_inodes fs_next set_names set_inodes set_next]. rewrite !lookup_insert, lookup_empty.
    repeat case_decide; subst; [done|done|by intros [? ?]].
  - intros p q h _. cbn [crashed_dir fs_names set_names]. rewrite !lookup_insert, lookup_empty.
    repeat case_decide; intros; simplify_eq; done.
Qed.

Lemma open_reclaims_left_overs_witness :
  let _ := sample_platform true in
  let s := crashed_dir in
  let '(o, s') := (paths ← list_dir "db"; for_each paths (reclaim "db" [3])) s in
  o = Ok tt /\
  (forall p, fs_names s' !! p = if bool_decide (p_dir p = "db"%string) && left_over "db" [3] p then None else fs_names s !! p) /\
  (forall p, p_dir p <> "db"%string \/ left_over "db" [3] p = false -> path_data s' p = path_data s p) /\
  left_over "db" [3] (lock_path "db") = false /\ left_over "db" [3] (join "db" CURRENT_FILENAME) = false /\
  left_over "db" [3] (join "db" WAL_FILENAME) = false /\ (forall g, left_over "db" [3] (manifest_path "db" g) = false) /\
  (forall id, id ∈ [3] -> left_over "db" [3] (sst_path "db" id) = false).
Proof.
  intros P s. apply (open_reclaims_left_overs (P := P) (H := sample_platform_ok true) "db" [3] s).
  - done.
  - apply crashed_dir_good.
  - apply empty_dir_dirs.
  - by repeat constructor.
Defined.

Lemma low_threshold_never_ends_witness :
  let _ := sample_platform true in
  exists s, db_sstables s.1 <> [] /\ (map_each (seq 0 3) (fun _ => compact_step) s).1 = Ok (replicate 3 true).
Proof.
  intros P.
  destruct (used_engine (P := P) (H := sample_platform_ok true) "db" two_tables used_ops)
    as (hs & [d w] & Hq & Hl & (hist & T & Hs & _ & _ & _ & Hsz & _) & d0 & w0 & E & _ & E'); [done|by vm_compute|].
  exists (set_db_opts (mkOptions DEFAULT_THRESHOLD Durable 1 true Manual) d, w).
  assert (db_sstables d <> []) as Hne.
  { assert (match db_open "db" two_tables (process (empty_dir "db" [])) with
      | (Ok d, w) => db_sstables (session [] used_ops (d, w)).2.1 <> [] | _ => False end) as Hc by by vm_compute.
    by rewrite E, E' in Hc. }
  split; [exact Hne|].
  apply (low_threshold_never_ends (P := P) (H := sample_platform_ok true) hist T (set_db_opts _ d, w) 3); [|lia|exact Hq|done|exact Hne].
  by apply serving_opts.
Defined.

Lemma snapshot_isolated_witness :
  let _ := sample_platform true in let a := bytes_of_string "a" in let b := bytes_of_string "b" in
  let sp := (spec_session (mkKV ∅ []) used_ops).2 in
  let ops := [Put a a; TakeSnapshot; Delete b; Flush; DropSnapshot 0] in
  exists hs s rs, (session hs (TakeSnapshot :: ops ++ [SnapshotGet 0 b; SnapshotScan 0 None None 9]) s).1 =
    Ok (rs ++ [inl (Value (kv_map sp !! b)); inl (Entries (kv_entries (kv_map sp) None None 9))]).
Proof.
  intros P a b sp ops.
  destruct (used_engine (P := P) (H := sample_platform_ok true) "db" two_tables used_ops) as (hs & s & Hq & Hl & Hr & _); [done|by vm_compute|].
  exists hs, s. apply (snapshot_isolated (P := P) (H := sample_platform_ok true) _ sp hs s ops 0 b None None 9 Hr Hq); by vm_compute.
Defined.
