(* ===== verification/Concurrency.v ===== *)
(** * Guarantees for threads

    The theorems about engines that several threads use at once, each with a witness
    on the platform of [Platform.sample_platform]. *)
From Stdlib Require Import NArith Lia.
From stdpp Require Import base numbers list sorting strings gmap.
From S2P Require Import Prelude Errors FileNames Platform State FileSystem Store Records Versions MemTable.
From S2P Require Import Headers Frames WriteAheadLog Manifest ManifestRecovery.
From S2P Require Import Bloom SsTables TableLayout TableReads Tables Merging Compaction Scans Engine.
From S2P Require Import Layers Writes Flushes CompactSteps Specification Sessions Threads Progress Looks Schedules Sections Pools.
From S2P Require Import Recovery Restarts Crashes Guarantees.

Local Open Scope N_scope.

Section concurrency.
Context `{PlatformOk}.

Lemma run_pool_ok room sp hs s calls schedule :
  represents room sp hs s -> log_ok s.1 s.2 -> quiet (w_fs s.2) -> calls_cost (concat calls) <= room ->
  Forall (Forall (call_ok hs)) calls ->
  exists base, Forall2 (tracks base) hs (kv_snaps sp) /\
    pool_ok base sp hs (room - calls_cost (concat calls)) (run_schedule schedule (start_pool calls s)).
Proof.
  intros (base & T & Hr) Hl Hq Hc Hcalls. assert (Forall2 (tracks base) hs (kv_snaps sp)) as Hb by apply Hr.
  exists base. split; [done|]. apply run_schedule_ok; [done|]. apply (start_pool_ok base sp hs T); [|done..].
  by rewrite N.sub_add.
Qed.

(** C4: answers under every schedule.  Threads write, read, scan, flush and compact at
    once, in any order their locks allow, on a disk without faults.  Every call that has
    returned has succeeded: a write is one of the commits of its time; a read of the
    latest version returned a value that was current at some moment between its begin
    and its end; a scan returned the bindings of a map each of whose keys in the range
    had that value at such a moment; a read or a scan at a snapshot returned exactly
    what the snapshot holds. *)
Theorem concurrent_answers (room : N) (sp : KV) (hs : list N) (s : DbInner * World) (calls : list (list Call))
    (schedule : list nat) :
  represents room sp hs s -> log_ok s.1 s.2 -> quiet (w_fs s.2) -> calls_cost (concat calls) <= room ->
  Forall (Forall (call_ok hs)) calls ->
  let p := run_schedule schedule (start_pool calls s) in
  forall th f, th ∈ p_threads p -> f ∈ th_done th ->
  exists a, f_answer f = Ok a /\ (f_from f <= f_to f <= length (p_commits p))%nat /\
    answer_ok sp hs (p_commits p).*2 (f_call f) (f_from f) (f_to f) a.
Proof.
  intros Hr Hl Hq Hc Hcalls p th f Hth Hf.
  destruct (run_pool_ok room sp hs s calls schedule Hr Hl Hq Hc Hcalls) as (base & _ & g & _ & _ & _ & Hths). fold p in Hths.
  apply list_elem_of_lookup in Hth as [i Hi]. pose proof (to_done _ _ _ _ _ _ _ _ (Hths i th Hi)) as Hdone.
  rewrite Forall_forall in Hdone. destruct (Hdone f Hf) as [Hle (a & E & Ha)]. exists a. rewrite length_fmap in Hle. split_and!; [done|apply Hle|apply Hle|done].
Qed.

(** C10: the store under every schedule.  Whenever no thread is inside of a call the
    engine represents the map that the commits made, in their order, with all the
    snapshots it had; the log holds the MemTable; and the commits of each thread are
    the writes it has returned from, in its order. *)
Theorem concurrent_store (room : N) (sp : KV) (hs : list N) (s : DbInner * World) (calls : list (list Call))
    (schedule : list nat) :
  represents room sp hs s -> log_ok s.1 s.2 -> quiet (w_fs s.2) -> calls_cost (concat calls) <= room ->
  Forall (Forall (call_ok hs)) calls ->
  let p := run_schedule schedule (start_pool calls s) in
  (forall th, th ∈ p_threads p -> th_pc th = None) ->
  represents (room - calls_cost (concat calls))
    (mkKV (foldl kv_write (kv_map sp) (concat (p_commits p).*2)) (kv_snaps sp)) hs (p_state p) /\
  log_ok (p_state p).1 (p_state p).2 /\
  forall i th, p_threads p !! i = Some th -> commits_of i (p_commits p) = done_writes (th_done th).
Proof.
  intros Hr Hl Hq Hc Hcalls p Hidle.
  destruct (run_pool_ok room sp hs s calls schedule Hr Hl Hq Hc Hcalls) as (base & Hb & Hp). fold p in Hp.
  destruct (pool_rest base sp hs Hb _ p Hp Hidle) as [Hrep Hlog]. split_and!; [|done|].
  - unfold map_at in Hrep. rewrite take_ge in Hrep by (by rewrite length_fmap). done.
  - destruct Hp as (g & _ & _ & _ & Hths). intros i th Hi. apply (to_commits _ _ _ _ _ _ _ _ (Hths i th Hi)).
Qed.

(** C5: a process that dies among its threads.  After any number of sections of any
    schedule the process ends, whatever calls its threads are inside of: a new one opens
    the directory, and every [get] and every [scan] it begins with
    answers from the map that all the commits made, the acknowledged writes among them,
    and at most one more write, which a thread had logged and not yet returned from.  The
    sections are whole: the end does not fall among the file operations of one, where the
    runs of [Findings] show that a flush or a compaction that is cut off loses data. *)
Theorem concurrent_crash (room : N) (sp : KV) (hs : list N) (s : DbInner * World) (calls : list (list Call))
    (schedule : list nat) (opts : Options) :
  represents room sp hs s -> log_ok s.1 s.2 -> quiet (w_fs s.2) -> calls_cost (concat calls) < room ->
  Forall (Forall (call_ok hs)) calls ->
  let p := run_schedule schedule (start_pool calls s) in
  exists extra d1 w1, (extra = [] \/ exists th c from records, th ∈ p_threads p /\
      th_pc th = Some (c, from, AtInsert records) /\ extra = call_writes c) /\
    db_open (db_dir (p_state p).1) opts (process (w_fs (p_state p).2)) = (Ok d1, w1) /\
    let m := foldl kv_write (kv_map sp) (concat (p_commits p).*2 ++ extra) in
    (forall key, (db_get key (d1, w1)).1 = Ok (m !! key)) /\
    (forall start fin limit, (db_scan start fin limit (d1, w1)).1 = Ok (kv_entries m start fin limit)).
Proof.
  intros Hr Hl Hq Hc Hcalls p.
  destruct (run_pool_ok room sp hs s calls schedule Hr Hl Hq ltac:(lia) Hcalls) as (base & _ & g & Hsh & Ec & Hlk & Hths).
  fold p in Hsh, Ec, Hlk, Hths. pose proof (crash_open base sp hs _ g (p_state p) opts Hsh ltac:(lia)) as Hw. unfold wp in Hw.
  destruct (db_open _ opts _) as [o w1]. cbn [fst snd] in Hw. destruct Hw as (Hq1 & d1 & T1 & -> & Hok & Hst & Hu & Htr).
  exists (from_option snd [] (g_pend g)), d1, w1. split_and!; [|done|unfold crash_map in Htr; rewrite Ec in Htr; by eapply recovered_reads..].
  destruct (g_pend g) as [[seq ops]|] eqn:Ep; [|by left]. right. destruct (holder_or_free p WalLock) as [(i & th & Hi & Hh)|Hfree].
  - unfold th_holds in Hh. destruct (th_pc th) as [[[c from] pc]|] eqn:Epc; [|done]. destruct pc; try done.
    destruct (to_pc _ _ _ _ _ _ _ _ (Hths i th Hi) c from _ Epc) as [(_ & seq' & Ep' & _) _].
    eexists th, c, from, _. split; [by eapply list_elem_of_lookup_2|]. split; [done|]. rewrite Ep in Ep'. cbn. congruence.
  - pose proof (lk_pend _ _ Hlk (proj1 (lock_free_spec p WalLock) Hfree)). congruence.
Qed.
End concurrency.

(** ** Witnesses *)

(** Two writers, a reader of a key, a scan, a flush and a compaction. *)
Definition sample_calls : list (list Call) :=
  let a := bytes_of_string "a" in let b := bytes_of_string "b" in
  [[CallWrite a (Some b); CallBatch [(a, None); (b, Some a)]]; [CallFlush; CallCompact]; [CallGet a U64_MAX; CallScan None None 9 U64_MAX]].

Definition sample_rounds : list (list nat) := replicate 36 [2; 0; 1]%nat.

Lemma sample_rounds_fair {A} (l : list A) :
  length l = 3%nat -> Forall (fun round => forall i, (i < length l)%nat -> i ∈ round) sample_rounds.
Proof.
  intros E. apply Forall_replicate. intros i Hi. rewrite E in Hi.
  destruct i as [|[|[|]]]; [by right; left|by right; right; left|by left|lia].
Qed.

Lemma concurrent_answers_witness :
  let _ := sample_platform true in
  exists s, let p := run_schedule (concat sample_rounds) (start_pool sample_calls s) in
  forall th f, th ∈ p_threads p -> f ∈ th_done th ->
  exists a, f_answer f = Ok a /\ (f_from f <= f_to f <= length (p_commits p))%nat /\
    answer_ok (mkKV ∅ []) [] (p_commits p).*2 (f_call f) (f_from f) (f_to f) a.
Proof.
  intros P. destruct (fresh_engine (P := P) (H := sample_platform_ok true) "db" options_default) as (d & w & _ & Hq & Hr & Hl & _); [done|].
  exists (d, w). apply (concurrent_answers (P := P) (H := sample_platform_ok true) SIZE_LIMIT (mkKV ∅ []) [] (d, w) sample_calls
    (concat sample_rounds) Hr Hl Hq); [by vm_compute|]. repeat constructor.
Defined.

Lemma concurrent_store_witness :
  let _ := sample_platform true in
  exists s, let p := run_schedule (concat sample_rounds) (start_pool sample_calls s) in
  represents (SIZE_LIMIT - calls_cost (concat sample_calls))
    (mkKV (foldl kv_write ∅ (concat (p_commits p).*2)) []) [] (p_state p) /\
  log_ok (p_state p).1 (p_state p).2 /\
  forall i th, p_threads p !! i = Some th -> commits_of i (p_commits p) = done_writes (th_done th).
Proof.
  intros P. destruct (fresh_engine (P := P) (H := sample_platform_ok true) "db" options_default) as (d & w & _ & Hq & Hr & Hl & _); [done|].
  exists (d, w). apply (concurrent_store (P := P) (H := sample_platform_ok true) SIZE_LIMIT (mkKV ∅ []) [] (d, w) sample_calls
    (concat sample_rounds) Hr Hl Hq); [by vm_compute|repeat constructor|].
  intros th Hth. eapply pool_left_zero; [|exact Hth]. apply rounds_progress; [by apply sample_rounds_fair|].
  rewrite start_left. by vm_compute; lia.
Defined.

Lemma fair_schedules_finish_witness :
  let _ := sample_platform true in
  exists s, let p := run_schedule (concat sample_rounds) (start_pool sample_calls s) in
  (fun th => f_call <$> th_done th) <$> p_threads p = sample_calls /\
  Forall (fun th => th_pc th = None /\ th_calls th = []) (p_threads p).
Proof.
  intros P. destruct (fresh_engine (P := P) (H := sample_platform_ok true) "db" options_default) as (d & w & _); [done|].
  exists (d, w). apply (fair_schedules_finish (H := P) sample_calls (d, w) sample_rounds); [by apply sample_rounds_fair|].
  vm_compute. lia.
Defined.

(** The first thread has returned from its write and has logged its batch; the second
    has frozen the MemTable, written its table and not yet replaced the log. *)
Lemma concurrent_crash_witness :
  let _ := sample_platform true in
  exists s, let p := run_schedule [0; 0; 0; 1; 1; 1; 0; 0]%nat (start_pool sample_calls s) in
  exists extra d1 w1, (extra = [] \/ exists th c from records, th ∈ p_threads p /\
      th_pc th = Some (c, from, AtInsert records) /\ extra = call_writes c) /\
    db_open (db_dir (p_state p).1) options_default (process (w_fs (p_state p).2)) = (Ok d1, w1) /\
    let m := foldl kv_write ∅ (concat (p_commits p).*2 ++ extra) in
    (forall key, (db_get key (d1, w1)).1 = Ok (m !! key)) /\
    (forall start fin limit, (db_scan start fin limit (d1, w1)).1 = Ok (kv_entries m start fin limit)).
Proof.
  intros P. destruct (fresh_engine (P := P) (H := sample_platform_ok true) "db" options_default) as (d & w & _ & Hq & Hr & Hl & _); [done|].
  exists (d, w). apply (concurrent_crash (P := P) (H := sample_platform_ok true) SIZE_LIMIT (mkKV ∅ []) [] (d, w) sample_calls
    [0; 0; 0; 1; 1; 1; 0; 0]%nat options_default Hr Hl Hq); [by vm_compute|]. repeat constructor.
Defined.
